(* ===== verification/_CoqProject ===== *)
-Q . S2P
Prelude.v
PyValue.v
PyFloat.v
ComposeShape.v
GreffonInfo.v
L4Ports.v
CertRenewal.v
Backup.v
BackupSafety.v
RestoreSafety.v
Locks.v
LockSpec.v
NodeImages.v
EnvFile.v
NodeVersion.v
NodeUpdate.v
Recreate.v
RemoteUpdate.v
Migrations.v
VolumeMigrations.v
RenderBudget.v
InstanceContext.v
InstanceFiles.v
Workers.v
Control.v
Preflight.v
Logs.v
Limits.v
Settings.v
Observe.v
DiskUsage.v
Cli.v
Api.v
RenewCommand.v
HostOps.v
Beats.v
