(* ===== verification/Prelude.v ===== *)
(** * A verification development for greffer

    greffer is the agent that runs on a node: a manager calls its HTTP API
    ([src/app]), it turns catalog or user compose files into running docker
    instances ([src/apps/utils]), keeps their TLS certificates fresh, backs them
    up, and is itself installed and updated by a command line ([src/cli]).  This
    library models the parts of it that decide something, as executable
    functions on explicit state, and proves what each of them promises.

    ** The parts and their files

    - [Prelude] (this file): Python outcomes ([result]: a value or a raised
      exception), the state monad [M] whose exceptions keep the state they left
      (statements of a function body, in the order of the code), its [wp]
      calculus, loops, and the lemmas and tactics the components share.
    - [PyValue]: ASCII text functions ([Text]), [shlex.split] ([Shlex]) and
      [value], the result of [yaml.safe_load]/[json.load].
    - [PyFloat]: Python's [float], as binary64 values that compute.
    - [ComposeShape]: [apps/utils/docker/compose_shape.py], the normalisation and
      containment of an untrusted compose file.
    - [GreffonInfo]: [apps/utils/greffon/repository.py] and the template build of
      [apps/utils/docker/compose.py]: the per-instance mount keys, ports, images
      and the compose template written for an instance.
    - [L4Ports]: [apps/utils/docker/l4_ports.py] with
      [apps/utils/greffon/sticky_ports.py]: host ports for TCP/UDP endpoints, the
      pending reservations and the allocation under the lock.
    - [CertRenewal]: [app/workers/cert_renewal.py], one instance's renewal, the
      node's pass, backoff and the worker's schedule.
    - [Backup]: [app/backup.py], the cold and hot backup job, restore, retention,
      boot reconciliation and repo-wide operations.  The theorems are in
      [BackupSafety] (backup) and [RestoreSafety] (restore).
    - [Locks]: the locks of [app/backup.py], shared by [Backup]'s jobs, the
      control handlers of [app/routers/controller.py] and [CertRenewal], as
      atomic steps of any number of threads in any order.

    - [LockSpec]: the abstract lock of an instance, a mutex with an owner and one
      ticket, which [Locks.Instance] refines.
    - [NodeImages]: [cli/greffer_cli/compose.py], reading and rewriting the image
      lines of the node's own rendered compose file.
    - [EnvFile]: [cli/greffer_cli/env_file.py], the node's settings file.
    - [NodeVersion]: the version comparison, the manifest, the guards and the
      readiness answers of [cli/greffer_cli/update.py].
    - [NodeUpdate]: [greffer update] itself: lock, guards, pull, rewrite, restart,
      health gate, rollback, with signals at any moment.
    - [Recreate]: [updater/recreate.py], the [docker create] command that recreates
      a container as it was inspected, over a new image.
    - [RemoteUpdate]: [updater/engine.py], [gate.py], [provenance.py] and
      [__main__.py]: the same update in a container of its own, for the whole
      stack, from verified digests.
    - [Migrations]: [apps/utils/ops_migrations] and the boot command of
      [app/cli.py]: registry, ledger, runner, exit code, over arbitrary migrations.
    - [VolumeMigrations]: the three migrations that are shipped, over an interface
      to docker ([Docker], [DockerLaws]) whose laws are the hypotheses.
    - [RenderBudget]: [apps/utils/docker/render_budget.py]: the caps on rendering
      a document and the process pool that enforces them, over the answers of
      Jinja and of the executor.
    - [InstanceContext]: the render context of [apps/utils/docker/compose.py], the
      deletion of the environment keys of integrations that are not set, the
      default logging block and [create_compose].
    - [InstanceFiles]: the files of an instance: baked configuration ([Staging]),
      the copies into volumes of [apps/utils/docker/volume.py] ([Copy]), the
      docker-compose children ([Compose]) and the status of an instance ([Status]).
    - [Workers]: the long-lived threads of [app/workers] and [app/readiness.py]:
      token, registration and heartbeat as one node over events, the watchdog, the
      status monitor, the parsing of the host's vitals.
    - [Control]: [app/routers/controller.py] with [app/tunnel_config.py] and
      [apps/utils/docker/updater.py]: start, stop, decommission, remote update,
      compose children and the file of the tunnel client.
    - [Preflight]: [apps/utils/greffon/preflight.py]: the validation of a custom
      compose, its walk over shared objects, and disk admission.
    - [Logs]: [apps/utils/docker/instance_logs.py]: the cursor of a viewer, one read
      of a container ([Container]) and of the deploy log ([Deploy]), the merged view.
    - [Limits]: [apps/utils/docker/limits.py]: the sizes and limits of an instance and
      the warnings about the observed metrics.
    - [Settings]: the validators of [app/settings.py].
    - [Observe] and [DiskUsage]: [apps/utils/docker/observe.py]: the metrics digest
      with its caches, and the disk usage with the host-wide [df] its threads share
      ([Df]).
    - [Cli]: [greffer up], [status] and [doctor] of [cli/greffer_cli]: the state
      machine from the options to the exit code, the waits, the polling of the
      manager, over a log of everything done and answered.
    - [Api]: what surrounds the handlers: [app/middleware.py], [app/auth.py],
      [app/errors.py], the request models of [app/models/controller.py], the health
      endpoints, the start and the end of the process.
    - [RenewCommand]: [renew_certs] of [app/cli.py] with the endpoint it posts to and
      the pass of [CertRenewal] behind that.
    - [HostOps]: [apps/utils/docker/exec_op.py], the snapshots of
      [apps/utils/ops_migrations/operations.py], and the writing of a small file
      through a temporary one ([cli/greffer_cli/env_file.py], [app/token.py]).
    - [Beats]: the payload of the heartbeat and the exchanges of a registration with
      the nginx container, whose order in time is in [Workers].

    Each definition carries the name of the function it models (a suffix such as
    [_loop] or [_body] names a piece of one).  A component's state is a record
    ([CertRenewal.state], [Backup.state], [Locks.Instance.state]...); its calls to
    the world are either inputs of the function or answers of an environment that
    may depend on everything the component did before ([Backup.env] reads the
    whole history of the job), so a theorem over all environments covers every
    interleaving with the outside.

    ** How the parts meet

    [ComposeShape.normalize_compose] produces what [GreffonInfo] turns into the
    template of an instance, and [L4Ports.allocate] supplies its host ports: the
    containment theorems of the first two compose (what is refused stays out of
    the file that docker runs).  [Backup]'s jobs and [CertRenewal]'s passes
    exclude each other through [Locks]: [restore_job_trace] shows that a job
    reserves while it holds the lock and then releases, which is the sequence
    [handoff_protects] starts from.  [Control.Ops] is the order in which a start
    calls [GreffonInfo], [InstanceContext], [InstanceFiles.Staging],
    [InstanceFiles.Copy] and [InstanceFiles.Compose]; what [Control.Inflight] counts
    is what [CertRenewal] stands off from; and a green [Preflight] speaks of the
    very ports [GreffonInfo.create_greffon_info] gives the instance.  [NodeUpdate] and [RemoteUpdate] share the
    versions and readiness answers of [NodeVersion] and use [NodeImages] and
    [Recreate] for what they write; [Migrations] runs what [VolumeMigrations]
    registers, and the copies it records are to the names [GreffonInfo] gives.
    [Settings] shows that every accepted setting gives [CertRenewal] a window its
    retries fit in, and reads the variables of [Limits] and [RenderBudget] a second
    time.  [Observe] hands the metrics to [Limits].  [Cli.up] writes its settings
    with [EnvFile], which is why they read back on the next run; the node it
    configures is the one [NodeUpdate] later updates.  [RenewCommand] joins a client
    process, [Control]'s endpoint and [CertRenewal.renew_all]; [Api.Requests] gives the
    ids from which [InstanceFiles] and [GreffonInfo] build paths, and [Beats] turns the
    replies of the manager into the answers the loops of [Workers] take.

    ** What the theorems show

    - admission: every compose that is accepted is contained, in a normal form
      that is stable, and named refusals are refused ([ComposeShape]); a template
      mounts only volumes named after its instance and publishes only its own
      ports, and instances whose ids do not continue each other share no volume
      ([GreffonInfo]);
    - allocation: the ports of a deploy are free of every other running container,
      but for a sticky one recorded under another range, the allocations of
      concurrent deploys are disjoint, and a redeploy keeps its ports ([L4Ports]);
    - renewal: a renewed certificate is the one being served, an answer that may
      have issued one keeps its instance due until it is seen served, across
      crashes, where a 5xx counts as refused; backoff holds, failures of the node
      are charged to nobody, waiting terminates with the serial or the deadline
      ([CertRenewal]);
    - backup and restore: a job restarts what it stopped, a successful hot backup
      is complete, the destructive step of a restore is guarded and happens at
      most once (whether its pointer file was written is the disk's answer), every outcome leaves the instance as the manager expects it, the
      lock is released exactly once and before the report ([BackupSafety],
      [RestoreSafety]);
    - locking: mutual exclusion, the handoff, its expiry, repository operations
      ([Locks]), and that the code's lock behaves as the abstract one ([LockSpec]);
    - update: versions are ordered and bounded ([NodeVersion]), retagging changes
      the node's image lines only and restoring gives the file back
      ([NodeImages]), a run ends with the new file or the old one, does nothing
      before it is admitted, and its exit code says which ([NodeUpdate]); a remote
      run only creates containers from [:latest] while it points at the verified
      digest, and says what it left ([RemoteUpdate]); the variables and labels of a
      recreated container carry over unless the old image baked them ([Recreate]);
      settings on one line each survive a write and a read ([EnvFile]);
    - boot: the server starts exactly when the ledger records every state
      migration, nothing is recorded that did not run clean or is run again
      ([Migrations]), and copies only ever write names of one instance and, where
      docker answers every inspection, never touch an existing volume and are
      complete when recorded ([VolumeMigrations]);
    - rendering: a document keeps its structure and is bounded, a call ends after
      three attempts, maps the failures of its executor to refusals, and leaks no
      pool ([RenderBudget]); the context of an
      instance is idempotent and keeps host ports out behind a tunnel, and the
      environment keys of unset integrations are gone ([InstanceContext]);
    - files: baking touches only the instance's own files and never the key of the
      certificate's volume (another key may name it: [sidecar_reached]), no staged key survives its copy, the status is the
      documented aggregate ([InstanceFiles]);
    - control: a start is all or nothing, a decommission that succeeds has left
      nothing under the instance's prefix and takes nothing else, the remote update
      runs one pinned container or none, the children that are tracked are counted
      under every interleaving, the file of the tunnel client is never torn
      ([Control]);
    - preflight: a green one is a promise about the start, what is not green is a row
      unless the parser or the normalization raise something uncaught, disk admission removes
      only what it brought in, the walk ends on every object graph ([Preflight]);
    - workers: liveness is handed over, a status change reaches the manager, a
      wedged worker restarts the process ([Workers]);
    - observation: a viewer that follows a container misses and repeats nothing, on
      a log whose timestamps increase and whose lines hold no break ([Logs]), warnings come at their rate and sizes are exact ([Limits]), the digest
      does not depend on the order of its reads ([Observe]), the walks over the
      volumes never overlap and an instance sees its own volumes only
      ([DiskUsage]); the renewal window fits the retries when seven passes fit in its
      slack ([Settings]);
    - installation: an [up] that succeeds has seen the node registered and alive,
      the files are written once, read back and are left alone by later runs
      whatever manager they name, the waits end ([Cli]);
    - the surface: a handler with a body runs on an authenticated request that names
      a directory below the data root, every response carries one clean request id ([Api]); the
      exit code of a renewal says what was seen ([RenewCommand]); beats are well
      formed and a registration installs one pair ([Beats]); a snapshot is whole or
      absent after any crash ([HostOps]).

    ** Bounds and fuel

    Loops that wait poll once per second until a deadline read from the clock;
    they take [S (Z.to_nat timeout)] rounds of fuel, one more than the polls that
    fit if the clock advances a second per sleep, and running out answers as the
    deadline does.  [CertRenewal._await_serial] takes 41 rounds for its 20 s of
    half-second polls.  [NodeUpdate.rounds] and the gate of [RemoteUpdate] take the
    same [S (Z.to_nat timeout)] for a second per sleep; [gate_rounds_suffice] shows
    that more rounds change nothing.  [Control.Ops._wait_for_compose_running] takes
    21 rounds for 10 s of half-second polls ([wait_ends]); [Preflight.Walk.walk]
    takes one more than the budget of visits, and [Preflight.Scan.strip_loop] one
    more than the length of the text ([expressions_stripped]).  [Cli.rounds] is two
    more than the polls of two seconds that fit the timeout ([Cli.waits_end]).  All other recursion is structural, and a loop
    with a fixed number of turns has that many ([RenderBudget.attempts] takes 3).
    Python integers are [Z]: nothing in the modelled code depends on a machine
    width.  Floats are binary64 where the code computes with them ([PyFloat]), and
    milliseconds in [Z] where they are times.

    ** What is not modelled

    Text is ASCII where the code asks for a class of character ([isdigit],
    [lower], [strip]); Python's limit on the digits of [int(str)] is kept where a
    value is parsed from text.  A character outside ASCII that the code would take
    for a digit or a line break is not covered (the superscript that [isdigit]
    accepts and [int] refuses is in the findings).  Of the failures around the
    modelled steps these are left out: the directory and disk errors of
    [Cli.write_config], a signal inside a call of [NodeUpdate] rather than between
    two, the docker exceptions other than [APIError] in [Control.Updater].
    Subprocess plumbing, files and sockets, HTTP
    clients, logging and threads' stack are represented by the outcome the code
    acts on; Jinja, the YAML parser, docker and the clock are arguments.  The parts
    left out altogether (the wiring of FastAPI, the nginx template, the relays that
    only read, the texts of the command line, tests, packaging) are listed with the reason in the manifest beside this library. *)
From stdpp Require Export base option list gmap strings pretty fin_maps.
From Stdlib Require Export ZArith Lia.

Declare Scope greffer_scope.
Delimit Scope greffer_scope with greffer.
Create HintDb greffer discriminated.

(** ** Python outcomes: a value, or a raised exception. *)
Inductive result (E A : Type) : Type :=
  | Ok (a : A)
  | Raise (e : E).
Arguments Ok {E A} a.
Arguments Raise {E A} e.

Global Instance result_ret {E} : MRet (result E) := λ A a, Ok a.
Global Instance result_bind {E} : MBind (result E) := λ A B k m,
  match m with Ok a => k a | Raise e => Raise e end.

Definition raise {E A} (e : E) : result E A := Raise e.

(** [mapR f l]: a comprehension whose body may raise, left to right. *)
Fixpoint mapR {E A B} (f : A → result E B) (l : list A) : result E (list B) :=
  match l with
  | [] => Ok []
  | x :: l => y ← f x; ys ← mapR f l; mret (y :: ys)
  end.

(** [iterR f l]: a [for] statement whose body only checks and may raise. *)
Fixpoint iterR {E A} (f : A → result E unit) (l : list A) : result E unit :=
  match l with
  | [] => Ok tt
  | x :: l => f x ;; iterR f l
  end.

(** [foldR f s l]: a [for] statement that threads a value and may raise. *)
Fixpoint foldR {E A S} (f : S → A → result E S) (s : S) (l : list A) : result E S :=
  match l with
  | [] => Ok s
  | x :: l => s' ← f s x; foldR f s' l
  end.

Lemma bindR_ok {E A B} (m : result E A) (k : A → result E B) b :
  m ≫= k = Ok b ↔ ∃ a, m = Ok a ∧ k a = Ok b.
Proof. destruct m; simpl; naive_solver. Qed.

Lemma bindR_raise {E A B} (m : result E A) (k : A → result E B) e :
  m ≫= k = Raise e ↔ m = Raise e ∨ ∃ a, m = Ok a ∧ k a = Raise e.
Proof. destruct m; simpl; naive_solver. Qed.

Section result_lemmas.
Context {E A B S : Type}.

Lemma mapR_ok (f : A → result E B) l ys :
  mapR f l = Ok ys ↔ Forall2 (λ x y, f x = Ok y) l ys.
Proof.
  revert ys. induction l as [|x l IH]; intros ys; simpl.
  - split; [by intros [= <-]|by inversion 1].
  - rewrite bindR_ok; setoid_rewrite bindR_ok; setoid_rewrite IH.
    split.
    + intros (y & ? & ys' & ? & [= <-]). by constructor.
    + inversion 1; naive_solver.
Qed.

Lemma mapR_fix (f : A → result E A) l :
  Forall (λ x, f x = Ok x) l → mapR f l = Ok l.
Proof. induction 1 as [|x l Hx _ IH]; simpl; [done|]. by rewrite Hx, IH. Qed.

Lemma mapR_raise (f : A → result E B) l e :
  mapR f l = Raise e → ∃ x, x ∈ l ∧ f x = Raise e.
Proof.
  induction l as [|x l IH]; simpl; [done|].
  rewrite bindR_raise. intros [?|(y & ? & Hk)].
  - exists x. split; [left|done].
  - apply bindR_raise in Hk as [Hk|(? & _ & [=])].
    destruct (IH Hk) as (x' & ? & ?). exists x'. split; [by right|done].
Qed.

Lemma iterR_ok (f : A → result E unit) l :
  iterR f l = Ok tt ↔ Forall (λ x, f x = Ok tt) l.
Proof.
  induction l as [|x l IH]; simpl; [by split|].
  rewrite bindR_ok, Forall_cons. setoid_rewrite IH.
  split; [intros ([] & ? & ?)|intros []; exists tt]; done.
Qed.

Lemma iterR_raise (f : A → result E unit) l e :
  iterR f l = Raise e → ∃ x, x ∈ l ∧ f x = Raise e.
Proof.
  induction l as [|x l IH]; simpl; [done|].
  rewrite bindR_raise. intros [?|([] & ? & Hk)].
  - exists x. split; [left|done].
  - destruct (IH Hk) as (x' & ? & ?). exists x'. split; [by right|done].
Qed.

Lemma foldR_app (f : S → A → result E S) s l1 l2 :
  foldR f s (l1 ++ l2) = (s' ← foldR f s l1; foldR f s' l2).
Proof.
  revert s. induction l1 as [|x l1 IH]; intros s; simpl; [done|].
  destruct (f s x); simpl; auto.
Qed.

(** An invariant of the loop body is an invariant of the loop. *)
Lemma foldR_inv (P : S → Prop) (f : S → A → result E S) s l s' :
  (∀ s x s', x ∈ l → P s → f s x = Ok s' → P s') →
  P s → foldR f s l = Ok s' → P s'.
Proof.
  revert s. induction l as [|x l IH]; intros s Hf Hs; simpl.
  - by intros [= <-].
  - rewrite bindR_ok. intros (s1 & ? & ?).
    eapply (IH s1); [|eapply Hf; [left|done..]|done].
    intros; eapply Hf; [by right|done..].
Qed.

Lemma foldR_raise (P : S → Prop) (f : S → A → result E S) s l e :
  (∀ s x s', x ∈ l → P s → f s x = Ok s' → P s') →
  P s → foldR f s l = Raise e → ∃ s' x, x ∈ l ∧ P s' ∧ f s' x = Raise e.
Proof.
  revert s. induction l as [|x l IH]; intros s Hf Hs; simpl; [done|].
  rewrite bindR_raise. intros [?|(s1 & ? & ?)].
  - exists s, x. split; [left|done].
  - destruct (IH s1) as (s' & x' & ? & ? & ?); [..|done|].
    + intros; eapply Hf; [by right|done..].
    + eapply Hf; [left|done..].
    + exists s', x'. split; [by right|done].
Qed.
End result_lemmas.

(** [inv_result]: take apart every bind equation among the hypotheses. *)
Ltac inv_result :=
  repeat match goal with
  | H : @mbind (result _) _ _ _ _ _ = Ok _ |- _ =>
      apply bindR_ok in H as (? & ? & ?)
  | H : Ok _ = Ok _ |- _ => injection H as H; subst
  | H : Raise _ = Raise _ |- _ => injection H as H; subst
  | H : mret _ = Ok _ |- _ => injection H as H; subst
  | H : Ok _ = Raise _ |- _ => discriminate H
  | H : Raise _ = Ok _ |- _ => discriminate H
  | H : raise _ = Ok _ |- _ => discriminate H
  | H : mret _ = Raise _ |- _ => discriminate H
  | x : unit |- _ => destruct x
  end.

(** ** Stateful code: explicit state, exceptions keep the state they left. *)
Definition M (S E A : Type) : Type := S → result E A * S.

Section monad.
Context {S E : Type}.
Global Instance M_ret : MRet (M S E) := λ A a s, (Ok a, s).
Global Instance M_bind : MBind (M S E) := λ A B k m s,
  match m s with
  | (Ok a, s') => k a s'
  | (Raise e, s') => (Raise e, s')
  end.

Definition get : M S E S := λ s, (Ok s, s).
Definition gets {A} (f : S → A) : M S E A := λ s, (Ok (f s), s).
Definition modify (f : S → S) : M S E unit := λ s, (Ok tt, f s).
Definition throw {A} (e : E) : M S E A := λ s, (Raise e, s).
Definition lift {A} (r : result E A) : M S E A := λ s, (r, s).
Definition when (b : bool) (m : M S E unit) : M S E unit :=
  if b then m else mret tt.

(** [try: m except e: h e] — [h] sees the state [m] left behind. *)
Definition catch {A} (m : M S E A) (h : E → M S E A) : M S E A := λ s,
  match m s with
  | (Ok a, s') => (Ok a, s')
  | (Raise e, s') => h e s'
  end.

(** The outcome as a value, for a caller that handles every exception. *)
Definition attempt {A} (m : M S E A) : M S E (result E A) := λ s,
  match m s with (r, s') => (Ok r, s') end.

(** [try: m finally: f] — an exception of [f] replaces the outcome. *)
Definition finally {A} (m : M S E A) (f : M S E unit) : M S E A := λ s,
  match m s with
  | (r, s') =>
      match f s' with
      | (Ok _, s'') => (r, s'')
      | (Raise e, s'') => (Raise e, s'')
      end
  end.

Fixpoint forS {A} (l : list A) (f : A → M S E unit) : M S E unit :=
  match l with
  | [] => mret tt
  | x :: l => f x ;; forS l f
  end.

Fixpoint mapS {A B} (f : A → M S E B) (l : list A) : M S E (list B) :=
  match l with
  | [] => mret []
  | x :: l => y ← f x; ys ← mapS f l; mret (y :: ys)
  end.

Fixpoint foldS {A B} (f : B → A → M S E B) (b : B) (l : list A) : M S E B :=
  match l with
  | [] => mret b
  | x :: l => b' ← f b x; foldS f b' l
  end.

(** *** The weakest precondition of a computation. *)
Definition wp {A} (m : M S E A) (Q : result E A → S → Prop) (s : S) : Prop :=
  Q (m s).1 (m s).2.

Lemma wp_mono {A} (m : M S E A) (Q Q' : result E A → S → Prop) s :
  wp m Q s → (∀ r s', Q r s' → Q' r s') → wp m Q' s.
Proof. unfold wp; auto. Qed.

Lemma wp_conj {A} (m : M S E A) (Q Q' : result E A → S → Prop) s :
  wp m Q s → wp m Q' s → wp m (λ r s', Q r s' ∧ Q' r s') s.
Proof. unfold wp; auto. Qed.

Lemma wp_ret {A} (a : A) Q s : Q (Ok a) s → wp (mret a : M S E A) Q s.
Proof. done. Qed.

Lemma wp_throw {A} e Q s : Q (Raise e) s → wp (throw e : M S E A) Q s.
Proof. done. Qed.

Lemma wp_lift {A} (r : result E A) (Q : result E A → S → Prop) s :
  Q r s → wp (lift r) Q s.
Proof. done. Qed.

Lemma wp_gets {A} (f : S → A) (Q : result E A → S → Prop) s :
  Q (Ok (f s)) s → wp (gets f) Q s.
Proof. done. Qed.

Lemma wp_get (Q : result E S → S → Prop) s : Q (Ok s) s → wp get Q s.
Proof. done. Qed.

Lemma wp_modify f (Q : result E unit → S → Prop) s :
  Q (Ok tt) (f s) → wp (modify f) Q s.
Proof. done. Qed.

Lemma wp_bind {A B} (m : M S E A) (k : A → M S E B) Q s :
  wp m (λ r s', match r with Ok a => wp (k a) Q s' | Raise e => Q (Raise e) s' end) s →
  wp (m ≫= k) Q s.
Proof. unfold wp, mbind, M_bind. destruct (m s) as [[a|e] s']; auto. Qed.

(** Two continuations that agree on what [m] can hand them. *)
Lemma bind_ext {A B} (m : M S E A) (k1 k2 : A → M S E B) s :
  (∀ a s', m s = (Ok a, s') → k1 a s' = k2 a s') → (m ≫= k1) s = (m ≫= k2) s.
Proof. intros H. unfold mbind, M_bind. destruct (m s) as [[a|e] s'] eqn:Hm; auto. Qed.

Lemma wp_when b m (Q : result E unit → S → Prop) s :
  (b = true → wp m Q s) → (b = false → Q (Ok tt) s) → wp (when b m) Q s.
Proof. destruct b; simpl; [|intros; apply wp_ret]; auto. Qed.

Lemma wp_catch {A} (m : M S E A) h Q s :
  wp m (λ r s', match r with Ok a => Q (Ok a) s' | Raise e => wp (h e) Q s' end) s →
  wp (catch m h) Q s.
Proof. unfold wp, catch. destruct (m s) as [[a|e] s']; auto. Qed.

Lemma wp_attempt {A} (m : M S E A) (Q : result E (result E A) → S → Prop) s :
  wp m (λ r s', Q (Ok r) s') s → wp (attempt m) Q s.
Proof. unfold wp, attempt. by destruct (m s). Qed.

Lemma wp_finally {A} (m : M S E A) f Q s :
  wp m (λ r s', wp f (λ r' s'', match r' with Ok _ => Q r s''
                                | Raise e => Q (Raise e) s'' end) s') s →
  wp (finally m f) Q s.
Proof.
  unfold wp, finally. destruct (m s) as [r s']; simpl.
  destruct (f s') as [[[]|e] s'']; auto.
Qed.

(** A loop keeps every invariant its body keeps, also when it raises. *)
Lemma wp_forS {A} (l : list A) f (I : S → Prop) (R : E → S → Prop) s :
  (∀ x s, x ∈ l → I s →
    wp (f x) (λ r s', match r with Ok _ => I s' | Raise e => R e s' end) s) →
  I s →
  wp (forS l f) (λ r s', match r with Ok _ => I s' | Raise e => R e s' end) s.
Proof.
  revert s. induction l as [|x l IH]; intros s Hf Hs; [done|].
  simpl. apply wp_bind. eapply wp_mono; [apply Hf; [left|done]|].
  intros [a|e] s' HQ; [|done]. apply IH; [|done].
  intros; apply Hf; [by right|done].
Qed.

Lemma wp_foldS {A B} (f : B → A → M S E B) (I : B → S → Prop) (R : E → S → Prop) l b s :
  (∀ b x s, x ∈ l → I b s →
    wp (f b x) (λ r s', match r with Ok b' => I b' s' | Raise e => R e s' end) s) →
  I b s →
  wp (foldS f b l) (λ r s', match r with Ok b' => I b' s' | Raise e => R e s' end) s.
Proof.
  revert b s. induction l as [|x l IH]; intros b s Hf Hs; [done|].
  simpl. apply wp_bind. eapply wp_mono; [apply Hf; [left|done]|].
  intros [b'|e] s' HQ; [|done]. apply IH; [|done].
  intros; apply Hf; [by right|done].
Qed.
(** The same, for an invariant that also speaks of the elements processed. *)
Lemma wp_foldS_prefix {A B} (f : B → A → M S E B) (I : list A → B → S → Prop)
    (R : E → S → Prop) l b s :
  (∀ done x b s, x ∈ l → I done b s →
    wp (f b x) (λ r s', match r with Ok b' => I (done ++ [x]) b' s' | Raise e => R e s' end) s) →
  I [] b s →
  wp (foldS f b l) (λ r s', match r with Ok b' => I l b' s' | Raise e => R e s' end) s.
Proof.
  enough (∀ l0 l b s, (∀ done x b s, x ∈ l → I done b s →
      wp (f b x) (λ r s', match r with Ok b' => I (done ++ [x]) b' s' | Raise e => R e s' end) s) →
    I l0 b s →
    wp (foldS f b l) (λ r s', match r with Ok b' => I (l0 ++ l) b' s' | Raise e => R e s' end) s)
    as Hgen by (intros; by apply (Hgen [])).
  clear l b s. intros l0 l. revert l0. induction l as [|x l IH]; intros l0 b s Hf Hs.
  - simpl. apply wp_ret. by rewrite app_nil_r.
  - simpl. apply wp_bind. eapply wp_mono; [apply Hf; [left|exact Hs]|].
    intros [b'|e] s' HQ; [|done]. rewrite cons_middle, app_assoc. apply IH; [|done].
    intros; apply Hf; [by right|done].
Qed.
End monad.

(** [wp_step]: one rule of the calculus; [wp_auto] as long as one applies. *)
Ltac wp_step :=
  lazymatch goal with
  | |- wp (mret _) _ _ => apply wp_ret
  | |- wp (throw _) _ _ => apply wp_throw
  | |- wp (lift _) _ _ => apply wp_lift
  | |- wp (gets _) _ _ => apply wp_gets
  | |- wp get _ _ => apply wp_get
  | |- wp (modify _) _ _ => apply wp_modify
  | |- wp (mbind _ _) _ _ => apply wp_bind
  | |- wp (when _ _) _ _ => apply wp_when; intros ?
  | |- wp (catch _ _) _ _ => apply wp_catch
  | |- wp (finally _ _) _ _ => apply wp_finally
  | |- wp (attempt _) _ _ => apply wp_attempt
  | |- wp (if ?b then _ else _) _ _ => destruct b eqn:?
  | |- wp (match ?x with _ => _ end) _ _ => destruct x eqn:?
  end.
Ltac wp_auto := repeat (wp_step; simpl).

(** ** Relational invariants *)

(** [rel R m]: whatever its outcome, [m] moves the state along [R]. *)
Definition rel {S E A} (R : S → S → Prop) (m : M S E A) : Prop :=
  ∀ s, wp m (λ _ s', R s s') s.

Section rel.
Context {S E : Type} (R : S → S → Prop) `{!PreOrder R}.

Lemma rel_bind {A B} (m : M S E A) (k : A → M S E B) :
  rel R m → (∀ a, rel R (k a)) → rel R (m ≫= k).
Proof.
  intros Hm Hk s. apply wp_bind. eapply wp_mono; [apply Hm|].
  intros [a|e] s1 H1; [|done]. eapply wp_mono; [apply Hk|]. intros r s2 H2. by transitivity s1.
Qed.

Lemma rel_run {A} (m : M S E A) s r s' : rel R m → m s = (r, s') → R s s'.
Proof. intros Hm Hr. specialize (Hm s). unfold wp in Hm. by rewrite Hr in Hm. Qed.

Lemma rel_pure {A} (m : M S E A) : (∀ s, (m s).2 = s) → rel R m.
Proof. intros H s. unfold wp. rewrite H. reflexivity. Qed.

Lemma rel_modify f : (∀ s, R s (f s)) → rel R (modify f : M S E unit).
Proof. intros H s. apply wp_modify, H. Qed.

Lemma rel_when b (m : M S E unit) : rel R m → rel R (when b m).
Proof. destruct b; [done|]. intros _. by apply rel_pure. Qed.

Lemma rel_attempt {A} (m : M S E A) : rel R m → rel R (attempt m).
Proof. intros H s. apply wp_attempt, H. Qed.

Lemma rel_catch {A} (m : M S E A) h : rel R m → (∀ e, rel R (h e)) → rel R (catch m h).
Proof.
  intros Hm Hh s. apply wp_catch. eapply wp_mono; [apply Hm|]. intros [a|e] s1 H1; [done|].
  eapply wp_mono; [apply Hh|]. intros r s2 H2. by transitivity s1.
Qed.

Lemma rel_finally {A} (m : M S E A) f : rel R m → rel R f → rel R (finally m f).
Proof.
  intros Hm Hf s. apply wp_finally. eapply wp_mono; [apply Hm|]. intros r s1 H1.
  eapply wp_mono; [apply Hf|]. intros [] s2 H2; by transitivity s1.
Qed.
End rel.

Ltac rel_step :=
  lazymatch goal with
  | |- rel _ (mbind _ _) => apply rel_bind; [typeclasses eauto| |intros ?]
  | |- rel _ (mret _) => apply rel_pure; [typeclasses eauto|done]
  | |- rel _ (gets _) => apply rel_pure; [typeclasses eauto|done]
  | |- rel _ get => apply rel_pure; [typeclasses eauto|done]
  | |- rel _ (lift _) => apply rel_pure; [typeclasses eauto|done]
  | |- rel _ (throw _) => apply rel_pure; [typeclasses eauto|done]
  | |- rel _ (modify _) => apply rel_modify; intros ?
  | |- rel _ (when _ _) => apply rel_when; [typeclasses eauto|]
  | |- rel _ (attempt _) => apply rel_attempt
  | |- rel _ (catch _ _) => apply rel_catch; [typeclasses eauto| |intros ?]
  | |- rel _ (finally _ _) => apply rel_finally; [typeclasses eauto| |]
  | |- rel _ (if ?b then _ else _) => destruct b
  | |- rel _ (match ?x with _ => _ end) => destruct x
  end.

(** ** Lists and options the components share. *)
Section lists.
Context {A B : Type}.

(** [next((x for x in l if f x), None)] *)
Fixpoint first_match (f : A → bool) (l : list A) : option A :=
  match l with
  | [] => None
  | x :: l => if f x then Some x else first_match f l
  end.

Lemma first_match_Some f l x :
  first_match f l = Some x → x ∈ l ∧ f x = true.
Proof.
  induction l as [|y l IH]; simpl; [done|].
  destruct (f y) eqn:?; [intros [= ->]; by split; [left|]|].
  intros [??]%IH. by split; [right|].
Qed.

Lemma first_match_None f l :
  first_match f l = None ↔ ∀ x, x ∈ l → f x = false.
Proof.
  induction l as [|y l IH]; simpl; [by split; [intros _ x ?%elem_of_nil|]|].
  destruct (f y) eqn:Hy.
  - split; [done|]. intros H. specialize (H y ltac:(left)). congruence.
  - rewrite IH. split.
    + intros H x [->|?]%elem_of_cons; auto.
    + intros H x ?. apply H. by right.
Qed.
End lists.

(** [range(lo, hi)] on Python integers. *)
Definition zrange (lo hi : Z) : list Z :=
  (λ i, lo + Z.of_nat i)%Z <$> seq 0 (Z.to_nat (hi - lo)).

Lemma elem_of_zrange lo hi z : z ∈ zrange lo hi ↔ (lo ≤ z < hi)%Z.
Proof.
  unfold zrange. rewrite list_elem_of_fmap. setoid_rewrite elem_of_seq. split.
  - intros (i & -> & ?). lia.
  - intros ?. exists (Z.to_nat (z - lo)). split; lia.
Qed.
