(* ===== verification/PyValue.v ===== *)
(** Python text and parsed YAML/JSON values, as the components read them.

    A Python [str] is a Rocq [string]; only its ASCII characters are given a
    class ([isdigit], [lower], [strip]), which is what the modelled code
    inspects.  [value] is what [yaml.safe_load] and [json.load] build: a dict
    is an association list in insertion order, since the code iterates over
    dicts and the order decides which error is raised first. *)
From Stdlib Require Import ZArith Lia Ascii String.
From S2P Require Import Prelude.

(** ** Text *)
Module Text.
Local Open Scope string_scope.

Definition is_digit (c : ascii) : bool :=
  (48 <=? N_of_ascii c)%N && (N_of_ascii c <=? 57)%N.
Definition is_alpha (c : ascii) : bool :=
  let n := N_of_ascii c in
  ((65 <=? n)%N && (n <=? 90)%N) || ((97 <=? n)%N && (n <=? 122)%N).
Definition is_space (c : ascii) : bool :=
  let n := N_of_ascii c in
  ((9 <=? n)%N && (n <=? 13)%N) || ((28 <=? n)%N && (n <=? 32)%N).
Definition lower_char (c : ascii) : ascii :=
  let n := N_of_ascii c in
  if (65 <=? n)%N && (n <=? 90)%N then ascii_of_N (n + 32) else c.

Fixpoint all_chars (f : ascii → bool) (s : string) : bool :=
  match s with
  | "" => true
  | String c s => f c && all_chars f s
  end.

(** [str.isdigit]: false on the empty string. *)
Definition isdigit (s : string) : bool :=
  negb (bool_decide (s = ""%string)) && all_chars is_digit s.

Definition digit_val (c : ascii) : Z := Z.of_N (N_of_ascii c) - 48.

(** [int(s)] on a string of digits. *)
Definition int_of_digits (s : string) : Z :=
  foldl (λ n c, n * 10 + digit_val c)%Z 0%Z (list_ascii_of_string s).

Fixpoint lower (s : string) : string :=
  match s with
  | "" => ""
  | String c s => String (lower_char c) (lower s)
  end%string.

Fixpoint lstrip (s : string) : string :=
  match s with
  | "" => ""%string
  | String c s' => if is_space c then lstrip s' else s
  end.
Definition strip (s : string) : string :=
  String.rev (lstrip (String.rev (lstrip s))).

(** [s.split(c)] *)
Fixpoint split (c : ascii) (s : string) : list string :=
  match s with
  | "" => [""%string]
  | String d s =>
      if Ascii.eqb d c then ""%string :: split c s
      else match split c s with
           | [] => [String d ""]
           | w :: ws => String d w :: ws
           end
  end.

(** [s.partition(c)]: the text before the first [c] and, when there is one,
    the text after it. *)
Fixpoint partition (c : ascii) (s : string) : string * option string :=
  match s with
  | "" => (""%string, None)
  | String d s =>
      if Ascii.eqb d c then (""%string, Some s)
      else let '(a, b) := partition c s in (String d a, b)
  end.

(** [s.rpartition(c)], with [None] for no separator. *)
Fixpoint rpartition (c : ascii) (s : string) : option (string * string) :=
  match s with
  | "" => None
  | String d s' =>
      match rpartition c s' with
      | Some (a, b) => Some (String d a, b)
      | None => if Ascii.eqb d c then Some (""%string, s') else None
      end
  end.

Definition has_char (c : ascii) (s : string) : bool :=
  negb (all_chars (λ d, negb (Ascii.eqb d c)) s).

Fixpoint startswith (p s : string) : bool :=
  match p, s with
  | "", _ => true
  | String a p, String b s => Ascii.eqb a b && startswith p s
  | _, "" => false
  end%string.

(** [s.endswith(p)] *)
Definition endswith (p s : string) : bool := startswith (String.rev p) (String.rev s).

(** [p in s] *)
Fixpoint contains (p s : string) : bool :=
  startswith p s || match s with "" => false | String _ s => contains p s end.

(** [s.lstrip(c)] *)
Fixpoint lstrip_char (c : ascii) (s : string) : string :=
  match s with
  | "" => ""
  | String d s' => if Ascii.eqb d c then lstrip_char c s' else s
  end.

(** [int(s)] for any string: blanks around, a sign, digits with single
    underscores between them. *)
Fixpoint digits_ok (prev : bool) (s : string) : bool :=
  match s with
  | "" => prev
  | String c s =>
      if is_digit c then digits_ok true s
      else if Ascii.eqb c "_" && prev
           then negb (bool_decide (s = "")) && digits_ok false s else false
  end.
Definition drop_underscores (s : string) : string :=
  string_of_list_ascii (List.filter (λ c, negb (Ascii.eqb c "_")) (list_ascii_of_string s)).
Definition int_of_string (s : string) : option Z :=
  let s := strip s in
  let '(sign, t) :=
    match s with
    | String "-" t => ((-1)%Z, t) | String "+" t => (1%Z, t) | _ => (1%Z, s)
    end in
  if digits_ok false t then Some (sign * int_of_digits (drop_underscores t))%Z else None.

(** [os.path.join(a, b)] *)
Definition path_join (a b : string) : string :=
  if startswith "/" b then b
  else if bool_decide (a = "") || endswith "/" a then a +:+ b else a +:+ "/" +:+ b.

Definition mem (s : string) (l : list string) : bool := bool_decide (s ∈ l).

Lemma mem_true s l : mem s l = true ↔ s ∈ l.
Proof. unfold mem. by rewrite bool_decide_eq_true. Qed.

Lemma mem_false s l : mem s l = false ↔ s ∉ l.
Proof. unfold mem. by rewrite bool_decide_eq_false. Qed.

Lemma isdigit_spec s : isdigit s = true ↔ s ≠ ""%string ∧ all_chars is_digit s = true.
Proof. unfold isdigit. rewrite andb_true_iff, negb_true_iff, bool_decide_eq_false. done. Qed.

Lemma rpartition_length c s a b :
  rpartition c s = Some (a, b) → (String.length a ≤ String.length s ∧ String.length b ≤ String.length s)%nat.
Proof.
  revert a b. induction s as [|d s IH]; intros a b; simpl; [done|].
  destruct (rpartition c s) as [[a' b']|].
  - intros [= <- <-]. destruct (IH a' b') as [??]; [done|]. simpl. lia.
  - destruct (Ascii.eqb d c); [|done]. intros [= <- <-]. simpl. lia.
Qed.

Lemma append_assoc_str (a b c : string) : (a +:+ b) +:+ c = a +:+ (b +:+ c).
Proof. induction a as [|x a IH]; [done|]. change (String x ((a +:+ b) +:+ c) = String x (a +:+ (b +:+ c))). by f_equal. Qed.

Lemma append_length_inj (a a' b b' : string) :
  String.length a = String.length a' → a +:+ b = a' +:+ b' → a = a' ∧ b = b'.
Proof.
  revert a'. induction a as [|x a IH]; intros [|y a'] Hl H; try discriminate Hl; [done|].
  change (String x (a +:+ b) = String y (a' +:+ b')) in H. injection H as -> H.
  injection Hl as Hl. destruct (IH _ Hl H) as [-> ->]. done.
Qed.

(** A separator that the tail lacks is the last one. *)
Lemma rpartition_append c a t :
  has_char c t = false → rpartition c (a +:+ String c t) = Some (a, t).
Proof.
  intros Ht. assert (rpartition c t = None) as Hn.
  { unfold has_char in Ht. apply negb_false_iff in Ht.
    induction t as [|d t IH]; simpl in *; [done|]. apply andb_prop in Ht as [Hd%negb_true_iff Ht].
    by rewrite IH, Hd. }
  induction a as [|x a IH].
  - change (rpartition c (String c t) = Some ("", t)). simpl. by rewrite Hn, Ascii.eqb_refl.
  - change (rpartition c (String x (a +:+ String c t)) = Some (String x a, t)). simpl. by rewrite IH.
Qed.

Lemma isdigit_no_underscore t : isdigit t = true → has_char "_" t = false.
Proof.
  intros [_ H]%isdigit_spec. unfold has_char. apply negb_false_iff.
  induction t as [|d t IH]; simpl in *; [done|]. apply andb_prop in H as [Hd Ht].
  rewrite IH by done. rewrite andb_true_r. apply negb_true_iff, Ascii.eqb_neq.
  by intros ->.
Qed.

Lemma digit_val_bounds c : is_digit c = true → (0 ≤ digit_val c ≤ 9)%Z.
Proof. unfold is_digit, digit_val. rewrite andb_true_iff, !N.leb_le. lia. Qed.

Lemma int_of_digits_nonneg s : all_chars is_digit s = true → (0 ≤ int_of_digits s)%Z.
Proof.
  unfold int_of_digits.
  enough (∀ n, 0 ≤ n → all_chars is_digit s = true →
    0 ≤ foldl (λ n c, n * 10 + digit_val c) n (list_ascii_of_string s))%Z by (intros; by apply H).
  induction s as [|c s IH]; simpl; intros n Hn; [done|].
  rewrite andb_true_iff. intros [Hc%digit_val_bounds ?]. apply IH; [lia|done].
Qed.
End Text.

(** ** [shlex.split]: the POSIX lexer, without comments. *)
Module Shlex.

(** Between words, in a word, in a quotation, after a backslash read in the
    word or in the double quotation. *)
Inductive mode : Type := Blank | Word | Quote (q : ascii) | Escape (back : mode).

Definition bslash : ascii := ascii_of_N 92.
Definition dquote : ascii := ascii_of_N 34.
Definition squote : ascii := ascii_of_N 39.

Definition blank (c : ascii) : bool :=
  let n := N_of_ascii c in (n =? 32)%N || (n =? 9)%N || (n =? 13)%N || (n =? 10)%N.
Definition is_quote (c : ascii) : bool := Ascii.eqb c squote || Ascii.eqb c dquote.

Definition snoc (w : string) (c : ascii) : string := append w (String c EmptyString).

(** [word] is the token read so far and [quoted] says that it held a quotation,
    which is what makes an empty token count. *)
Definition emit (word : string) (quoted : bool) (acc : list string) : list string :=
  if quoted || negb (String.eqb word EmptyString) then word :: acc else acc.

Fixpoint lex (m : mode) (word : string) (quoted : bool) (acc : list string) (s : string) :
    option (list string) :=
  match s with
  | EmptyString =>
      match m with
      | Quote _ | Escape _ => None (** ValueError *)
      | Blank | Word => Some (reverse (emit word quoted acc))
      end
  | String c s =>
      match m with
      | Blank | Word =>
          if blank c then lex Blank EmptyString false (emit word quoted acc) s
          else if Ascii.eqb c bslash then lex (Escape Word) word quoted acc s
          else if is_quote c then lex (Quote c) word quoted acc s
          else lex Word (snoc word c) quoted acc s
      | Quote q =>
          if Ascii.eqb c q then lex Word word true acc s
          else if Ascii.eqb c bslash && Ascii.eqb q dquote then lex (Escape (Quote q)) word true acc s
          else lex (Quote q) (snoc word c) true acc s
      | Escape back =>
          let word := match back with
                      | Quote q => if Ascii.eqb c bslash || Ascii.eqb c q then word else snoc word bslash
                      | _ => word end in
          lex back (snoc word c) quoted acc s
      end
  end.

Definition split (s : string) : option (list string) := lex Blank EmptyString false [] s.

Example split_words : split "pg_dump -U 'my user'  -d a\ b" = Some ["pg_dump"; "-U"; "my user"; "-d"; "a b"]%string.
Proof. reflexivity. Qed.
Example split_empty_quote : split "a '' 'b'c" = Some ["a"; ""; "bc"]%string.
Proof. reflexivity. Qed.
Example split_unclosed : split "a 'b" = None.
Proof. reflexivity. Qed.
End Shlex.

(** ** Values *)
Inductive value : Type :=
  | VNull
  | VBool (b : bool)
  | VInt (z : Z)
  | VStr (s : string)
  | VList (l : list value)
  | VDict (d : list (value * value))
  | VOther (type : string) (truthy : bool).  (** floats, dates, sets, bytes *)

Section value_ind.
Context (P : value → Prop).
Context (Hnull : P VNull) (Hbool : ∀ b, P (VBool b)) (Hint : ∀ z, P (VInt z))
  (Hstr : ∀ s, P (VStr s)) (Hlist : ∀ l, Forall P l → P (VList l))
  (Hdict : ∀ d, Forall (λ kv, P kv.1 ∧ P kv.2) d → P (VDict d))
  (Hother : ∀ t b, P (VOther t b)).

Fixpoint value_rect' (v : value) : P v :=
  match v with
  | VNull => Hnull
  | VBool b => Hbool b
  | VInt z => Hint z
  | VStr s => Hstr s
  | VList l => Hlist l ((fix go l : Forall P l :=
      match l with [] => Forall_nil_2 _ | x :: l => Forall_cons_2 _ _ _ (value_rect' x) (go l) end) l)
  | VDict d => Hdict d ((fix go d : Forall (λ kv, P kv.1 ∧ P kv.2) d :=
      match d with
      | [] => Forall_nil_2 _
      | (k, x) :: d => Forall_cons_2 _ (k, x) _ (conj (value_rect' k) (value_rect' x)) (go d)
      end) d)
  | VOther t b => Hother t b
  end.
End value_ind.

Global Instance value_inhabited : Inhabited value := populate VNull.

(** [bool(v)] *)
Definition truthy (v : value) : bool :=
  match v with
  | VNull => false
  | VBool b => b
  | VInt z => negb (z =? 0)%Z
  | VStr s => negb (bool_decide (s = ""%string))
  | VList l => match l with [] => false | _ => true end
  | VDict d => match d with [] => false | _ => true end
  | VOther _ b => b
  end.

Definition is_str (v : value) : bool := match v with VStr _ => true | _ => false end.
Definition is_dict (v : value) : bool := match v with VDict _ => true | _ => false end.

(** [v == s] for a string [s]. *)
Definition eq_str (v : value) (s : string) : bool :=
  match v with VStr t => String.eqb t s | _ => false end.

(** [d.get(k)] for a string key; a string only equals a string. *)
Fixpoint dict_get (k : string) (d : list (value * value)) : option value :=
  match d with
  | [] => None
  | (k', v) :: d => if eq_str k' k then Some v else dict_get k d
  end.

(** [d.get(k)] as an expression: a missing key reads as [None]. *)
Definition get_or_null (k : string) (d : list (value * value)) : value :=
  default VNull (dict_get k d).

(** [d[k] = v]: in place when the key is there, else at the end. *)
Fixpoint dict_set (k : string) (v : value) (d : list (value * value)) : list (value * value) :=
  match d with
  | [] => [(VStr k, v)]
  | (k', v') :: d => if eq_str k' k then (k', v) :: d else (k', v') :: dict_set k v d
  end.

Lemma eq_str_true v s : eq_str v s = true ↔ v = VStr s.
Proof. destruct v; simpl; rewrite ?String.eqb_eq; naive_solver. Qed.

Lemma eq_str_false v s : eq_str v s = false ↔ v ≠ VStr s.
Proof. rewrite <-eq_str_true. by destruct (eq_str v s). Qed.

Lemma dict_get_set_eq k v d : dict_get k (dict_set k v d) = Some v.
Proof.
  induction d as [|[k' v'] d IH]; simpl.
  - by rewrite String.eqb_refl.
  - destruct (eq_str k' k) eqn:Hk; simpl; by rewrite Hk.
Qed.

Lemma dict_get_set_ne k k' v d : k ≠ k' → dict_get k' (dict_set k v d) = dict_get k' d.
Proof.
  intros Hne. induction d as [|[j w] d IH]; simpl.
  - by rewrite (proj2 (String.eqb_neq _ _)).
  - destruct (eq_str j k) eqn:Hk; simpl; [|by rewrite IH].
    apply eq_str_true in Hk as ->. simpl. by rewrite (proj2 (String.eqb_neq _ _)).
Qed.

Lemma dict_get_elem k d v : dict_get k d = Some v → (VStr k, v) ∈ d.
Proof.
  induction d as [|[j w] d IH]; simpl; [done|].
  destruct (eq_str j k) eqn:Hk; [|by right; auto].
  apply eq_str_true in Hk as ->. intros [= ->]. left.
Qed.

(** The keys of a dict after an assignment. *)
Lemma dict_set_fst k v d :
  (dict_set k v d).*1 = match dict_get k d with Some _ => d.*1 | None => d.*1 ++ [VStr k] end.
Proof.
  induction d as [|[j w] d IH]; simpl; [done|].
  destruct (eq_str j k); csimpl; [done|]. rewrite IH. by destruct (dict_get k d).
Qed.

Lemma dict_set_Forall (P : value * value → Prop) k v d :
  Forall P d → (∀ k', eq_str k' k = true → P (k', v)) → Forall P (dict_set k v d).
Proof.
  intros Hd Hv. induction Hd as [|[j w] d Hj Hd IH]; simpl.
  - repeat constructor. apply Hv. simpl. by rewrite String.eqb_refl.
  - destruct (eq_str j k) eqn:?; constructor; auto.
Qed.

Lemma dict_set_id k v d : dict_get k d = Some v → dict_set k v d = d.
Proof.
  induction d as [|[j w] d IH]; simpl; [done|].
  destruct (eq_str j k) eqn:?; [by intros [= ->]|]. intros ?. by rewrite IH.
Qed.

Lemma get_or_null_some k d v : get_or_null k d = v → v ≠ VNull → dict_get k d = Some v.
Proof. unfold get_or_null. destruct (dict_get k d); simpl; congruence. Qed.

Lemma get_or_null_set k v d : get_or_null k (dict_set k v d) = v.
Proof. unfold get_or_null. by rewrite dict_get_set_eq. Qed.

Lemma get_or_null_set_ne k k' v d :
  k ≠ k' → get_or_null k' (dict_set k v d) = get_or_null k' d.
Proof. intros ?. unfold get_or_null. by rewrite dict_get_set_ne. Qed.

(** The keys a dict keeps, for the scalars that can be equal. *)
Definition key_eqb (a b : value) : bool :=
  match a, b with
  | VStr s, VStr t => String.eqb s t
  | VNull, VNull => true
  | (VInt _ | VBool _), (VInt _ | VBool _) =>
      let n v := match v with VInt z => z | VBool true => 1 | _ => 0 end%Z in (n a =? n b)%Z
  | _, _ => false
  end.

Definition hashable (v : value) : bool :=
  match v with
  | VList _ | VDict _ => false
  | VOther t _ => negb (String.eqb t "set")
  | _ => true
  end.

Definition type_name (v : value) : string :=
  match v with
  | VNull => "NoneType" | VBool _ => "bool" | VInt _ => "int" | VStr _ => "str"
  | VList _ => "list" | VDict _ => "dict" | VOther t _ => t
  end.
