(* ===== verification/PyFloat.v ===== *)
(** Python's [float], as the limits and the metrics use it: binary64 values
    computed with the Standard Library's [SpecFloat], so that every rounding is the
    one the interpreter makes and all of it evaluates.

    [parse] is [float(str)]; [of_Z] and [div_Z] are the conversion and the true
    division of integers; [to_int] is [int(float)]; [round1] is [round(x, 1)].
    [num] is what an arithmetic expression over parsed JSON numbers holds. *)
From Stdlib Require Import ZArith Lia Ascii String.
From Stdlib Require Import SpecFloat.
From S2P Require Import Prelude PyValue.
Import Text.
Local Open Scope Z_scope.

Definition float : Type := spec_float.
Definition nan : float := S754_nan.
Definition zero : float := S754_zero false.
Definition prec : Z := 53.
Definition emax : Z := 1024.

(** ** Integers and floats *)

Definition of_Z (z : Z) : float := binary_normalize prec emax z 0 false.

(** [a / b] for integers with [b] positive: the quotient rounded once. *)
Definition div_pos (s : bool) (a b : positive) : float :=
  let '(m, e, l) := SFdiv_core_binary prec emax (Zpos a) 0 (Zpos b) 0 in
  binary_round_aux prec emax s m e l.
Definition div_Z (a : Z) (b : positive) : float :=
  match a with
  | Z0 => S754_zero false
  | Zpos a => div_pos false a b
  | Zneg a => div_pos true a b
  end.

Definition mul : float → float → float := SFmul prec emax.
Definition add : float → float → float := SFadd prec emax.
Definition sub : float → float → float := SFsub prec emax.
Definition ltb : float → float → bool := SFltb.
Definition eqb : float → float → bool := SFeqb.

Definition isfinite (x : float) : bool :=
  match x with S754_zero _ | S754_finite _ _ _ => true | _ => false end.
Definition negative (x : float) : bool := ltb x zero.

(** [int(x)] of a finite float: towards zero. *)
Definition magnitude (m : positive) (e : Z) : Z :=
  if 0 <=? e then Zpos m * 2 ^ e else Zpos m / 2 ^ (- e).
Definition to_int (x : float) : Z :=
  match x with
  | S754_finite s m e => if s then - magnitude m e else magnitude m e
  | _ => 0
  end.

(** The float next to [m * 10 ^ e]. *)
Definition of_decimal (s : bool) (m : Z) (e : Z) : float :=
  match m with
  | Zpos p =>
      match e with
      | Zneg k => div_pos s p (Pos.pow 10 k)
      | _ => binary_round prec emax s (p * Z.to_pos (10 ^ e)) 0
      end
  | _ => S754_zero s
  end.

(** [round(x, 1)]: to the nearest tenth, ties to even, exactly; then the float
    next to that decimal. *)
Definition half_even (a b : Z) : Z :=
  let q := a / b in
  match Z.compare (2 * (a mod b)) b with
  | Lt => q
  | Gt => q + 1
  | Eq => if Z.even q then q else q + 1
  end.
Definition round1 (x : float) : float :=
  match x with
  | S754_finite s m e =>
      if 0 <=? e then x else of_decimal s (half_even (Zpos m * 10) (2 ^ (- e))) (-1)
  | _ => x
  end.

(** ** Numbers of parsed JSON *)
Local Open Scope Z_scope.

Inductive num : Type := NInt (z : Z) | NFloat (f : float).

(** The value as [m * 2 ^ e], or a sign of infinity; [None] for not a number. *)
Definition exact (x : num) : option (Z * Z + bool) :=
  match x with
  | NInt z => Some (inl (z, 0))
  | NFloat (S754_zero _) => Some (inl (0, 0))
  | NFloat (S754_finite s m e) => Some (inl (if s then - Zpos m else Zpos m, e))
  | NFloat (S754_infinity s) => Some (inr s)
  | NFloat S754_nan => None
  end.

(** [x > y]; Python compares an integer and a float by their exact values. *)
Definition gt (x y : num) : bool :=
  match exact x, exact y with
  | Some (inl (a, ea)), Some (inl (b, eb)) =>
      let e := Z.min ea eb in b * 2 ^ (eb - e) <? a * 2 ^ (ea - e)
  | Some (inr s), Some (inl _) => negb s
  | Some (inl _), Some (inr s) => s
  | Some (inr s), Some (inr t) => negb s && t
  | _, _ => false
  end.

(** [x >= 0] and [bool(x)] *)
Definition nonneg (x : num) : bool :=
  match exact x with Some (inl (m, _)) => 0 <=? m | Some (inr s) => negb s | None => false end.
Definition nonzero (x : num) : bool := match exact x with Some (inl (m, _)) => negb (m =? 0) | _ => true end.

Inductive exc : Type := OverflowError | ZeroDivisionError.

(** An integer operand next to a float is converted first. *)
Definition to_float (x : num) : result exc float :=
  match x with
  | NFloat f => Ok f
  | NInt z => if isfinite (of_Z z) then Ok (of_Z z) else Raise OverflowError
  end.
Definition arith (f : Z → Z → Z) (g : float → float → float) (x y : num) : result exc num :=
  match x, y with
  | NInt a, NInt b => Ok (NInt (f a b))
  | _, _ => a ← to_float x; b ← to_float y; mret (NFloat (g a b))
  end.
Definition num_add : num → num → result exc num := arith Z.add add.
Definition num_sub : num → num → result exc num := arith Z.sub sub.

(** [a / b] and its rounding, for integers. *)
Definition true_div (a b : Z) : result exc float :=
  match b with
  | Z0 => Raise ZeroDivisionError
  | Zpos p => let q := div_Z a p in if isfinite q then Ok q else Raise OverflowError
  | Zneg p => let q := div_Z (- a) p in if isfinite q then Ok q else Raise OverflowError
  end.

Example compare_exact :
  gt (NInt (2 ^ 53 + 1)) (NFloat (of_Z (2 ^ 53))) = true ∧ gt (NFloat (of_Z 3)) (NInt 3) = false ∧
  gt (NFloat (S754_infinity false)) (NInt (10 ^ 400)) = true.
Proof. vm_compute. auto. Qed.

(** ** [float(str)] *)
Local Open Scope string_scope.

(** An underscore stands between two digits. *)
Fixpoint underscores_ok (prev : bool) (s : string) : bool :=
  match s with
  | "" => true
  | String "_" s' =>
      prev && match s' with String c _ => is_digit c | "" => false end && underscores_ok false s'
  | String c s' => underscores_ok (is_digit c) s'
  end.

Fixpoint span_digits (s : string) : string * string :=
  match s with
  | String c s' =>
      if is_digit c then let '(d, r) := span_digits s' in (String c d, r) else ("", s)
  | "" => ("", "")
  end.

Definition sign (s : string) : bool * string :=
  match s with String "-" t => (true, t) | String "+" t => (false, t) | _ => (false, s) end.

(** What follows the digits: nothing, or an exponent. *)
Definition exponent (s : string) : option Z :=
  match s with
  | "" => Some 0%Z
  | String c t =>
      if Ascii.eqb c "e" || Ascii.eqb c "E" then
        let '(neg, t) := sign t in
        let '(d, r) := span_digits t in
        if isdigit d && bool_decide (r = "")
        then Some (if neg then - int_of_digits d else int_of_digits d)%Z else None
      else None
  end.

Definition decimal (neg : bool) (s : string) : option float :=
  let '(whole, r) := span_digits s in
  let '(frac, r) := match r with String "." r => span_digits r | _ => ("", r) end in
  if bool_decide (whole +:+ frac = "") then None
  else e ← exponent r;
       Some (of_decimal neg (int_of_digits (whole +:+ frac)) (e - Z.of_nat (String.length frac))).

(** [int(str)], which refuses more than 4300 digits. *)
Definition py_int (s : string) : option Z :=
  if (4300 <? String.length (drop_underscores (snd (sign (strip s)))))%nat then None else int_of_string s.

Definition parse (s : string) : option float :=
  let s := strip s in
  if underscores_ok false s then
    let '(neg, t) := sign (drop_underscores s) in
    if mem (lower t) ["inf"; "infinity"] then Some (S754_infinity neg)
    else if bool_decide (lower t = "nan") then Some S754_nan
    else decimal neg t
  else None.

Example parse_half : parse "1.5" = Some (div_Z 3 2).
Proof. vm_compute. reflexivity. Qed.
Example parse_exponent : parse " -1_0e-1 " = Some (of_Z (-1)).
Proof. vm_compute. reflexivity. Qed.
Example parse_overflow : parse "1e309" = Some (S754_infinity false).
Proof. vm_compute. reflexivity. Qed.
Example parse_subnormal : parse "5e-324" = Some (S754_finite false 1 (-1074)).
Proof. vm_compute. reflexivity. Qed.
Example parse_dangling : parse "1e" = None ∧ parse "1__0" = None ∧ parse "." = None ∧ parse "0x10" = None.
Proof. vm_compute. auto. Qed.
(** 2.675 lies below 2.675, and 0.25 is a tie. *)
Example round_tenths :
  round1 (div_Z 1 4) = div_Z 2 10 ∧ round1 (div_Z 35 100) = div_Z 3 10 ∧ round1 (of_Z 400) = of_Z 400 ∧
  round1 (div_Z 1 1000) = S754_zero false.
Proof. vm_compute. auto. Qed.

(** ** Integers are exact up to 53 bits *)
Local Open Scope Z_scope.

(** The float whose value is [p * 2 ^ k], for [p] of at most 53 bits. *)
Definition scaled (p : positive) (k : Z) : float :=
  S754_finite false (Z.to_pos (Zpos p * 2 ^ (52 - Z.log2 (Zpos p)))) (Z.log2 (Zpos p) - 52 + k).

Lemma digits2_log2 p : Zpos (digits2_pos p) = Z.log2 (Zpos p) + 1.
Proof.
  induction p as [p IH|p IH|]; cbn [digits2_pos]; [| |done].
  - rewrite Pos2Z.inj_succ, IH. change (Zpos p~1) with (2 * Zpos p + 1).
    rewrite Z.log2_succ_double by lia. lia.
  - rewrite Pos2Z.inj_succ, IH. change (Zpos p~0) with (2 * Zpos p).
    rewrite Z.log2_double by lia. lia.
Qed.

Lemma iter_xO m d : Zpos (Pos.iter xO m d) = Zpos m * 2 ^ Zpos d.
Proof.
  induction d as [|d IH] using Pos.peano_ind; [rewrite Z.pow_1_r; simpl; lia|].
  rewrite Pos.iter_succ, Pos2Z.inj_succ, Z.pow_succ_r by lia.
  change (Zpos (Pos.iter xO m d)~0) with (2 * Zpos (Pos.iter xO m d)). rewrite IH. lia.
Qed.

Lemma iter_pos_iter {A} (f : A → A) n x : @SpecFloat.iter_pos A f n x = Pos.iter f x n.
Proof.
  revert x. induction n as [n IH|n IH|]; intros x; cbn [SpecFloat.iter_pos]; [| |done].
  - rewrite !IH, Pos.xI_succ_xO, Pos.iter_succ, <-Pos.iter_swap, <-Pos.add_diag, Pos.iter_add.
    f_equal.
  - by rewrite !IH, <-Pos.add_diag, Pos.iter_add.
Qed.

(** Dropping zero bits loses nothing. *)
Lemma shr_exact m d :
  SpecFloat.iter_pos shr_1 d (Build_shr_record (Zpos (Pos.iter xO m d)) false false) =
  Build_shr_record (Zpos m) false false.
Proof.
  rewrite iter_pos_iter. induction d as [|d IH] using Pos.peano_ind; [done|].
  rewrite (Pos.iter_succ d _ xO), Pos.iter_succ_r. exact IH.
Qed.


Lemma scaled_mantissa p d :
  Z.log2 (Zpos p) = 52 - Zpos d → Z.to_pos (Zpos p * 2 ^ (52 - Z.log2 (Zpos p))) = Pos.iter xO p d.
Proof.
  intros ->. rewrite <-(Pos2Z.id (Pos.iter xO p d)), iter_xO. do 3 f_equal. lia.
Qed.

(** A canonical mantissa rounds to itself. *)
Lemma round_canonical s m e :
  Z.log2 (Zpos m) = 52 → -1074 ≤ e ≤ 971 →
  binary_round_aux prec emax s (Zpos m) e loc_Exact = S754_finite s m e.
Proof.
  intros Hm He. unfold binary_round_aux, shr_fexp.
  replace (fexp prec emax (Zdigits2 (Zpos m) + e) - e) with 0.
  2: { cbn [Zdigits2]. rewrite digits2_log2, Hm. unfold fexp, emin, prec, emax. lia. }
  cbn [shr shr_record_of_loc shr_m loc_of_shr_record round_nearest_even].
  replace (fexp prec emax (Zdigits2 (Zpos m) + e) - e) with 0.
  2: { cbn [Zdigits2]. rewrite digits2_log2, Hm. unfold fexp, emin, prec, emax. lia. }
  cbn [shr shr_m]. destruct (Z.leb_spec e (emax - prec)); [done|]. unfold emax, prec in *. lia.
Qed.

(** A product of canonical mantissas whose low bits are zero is exact. *)
Lemma round_zeros s m e d :
  Z.log2 (Zpos m) = 52 → -1074 ≤ e + Zpos d ≤ 971 →
  binary_round_aux prec emax s (Zpos (Pos.iter xO m d)) e loc_Exact = S754_finite s m (e + Zpos d).
Proof.
  intros Hm He. rewrite <-(round_canonical s m (e + Zpos d)) by done.
  unfold binary_round_aux at 1, shr_fexp at 1.
  replace (fexp prec emax (Zdigits2 (Zpos (Pos.iter xO m d)) + e) - e) with (Zpos d).
  2: { cbn [Zdigits2]. rewrite digits2_log2, iter_xO, Z.log2_mul_pow2, Hm by lia.
       unfold fexp, emin, prec, emax. lia. }
  cbn [shr shr_record_of_loc]. rewrite shr_exact.
  unfold binary_round_aux, shr_fexp.
  replace (fexp prec emax (Zdigits2 (Zpos m) + (e + Zpos d)) - (e + Zpos d)) with 0; [done|].
  cbn [Zdigits2]. rewrite digits2_log2, Hm. unfold fexp, emin, prec, emax. lia.
Qed.

Lemma log2_scaled p : Z.log2 (Zpos p) ≤ 52 → Z.log2 (Zpos p * 2 ^ (52 - Z.log2 (Zpos p))) = 52.
Proof. intros. rewrite Z.log2_mul_pow2 by lia. lia. Qed.

Lemma of_Z_exact p : Z.log2 (Zpos p) ≤ 52 → of_Z (Zpos p) = scaled p 0.
Proof.
  intros Hp. pose proof (Z.log2_nonneg (Zpos p)). pose proof (log2_scaled p Hp) as Hl.
  unfold of_Z, binary_normalize, binary_round, scaled. rewrite digits2_log2.
  replace (fexp prec emax (Z.log2 (Zpos p) + 1 + 0)) with (Z.log2 (Zpos p) - 52)
    by (unfold fexp, emin, prec, emax; lia).
  unfold shl_align. destruct (Z.log2 (Zpos p) - 52 - 0) as [|d|d] eqn:Ed; [| |].
  - assert (Z.log2 (Zpos p) = 52) as E by lia. rewrite E, Z.mul_1_r. apply round_canonical; [done|lia].
  - lia.
  - assert (Z.log2 (Zpos p) = 52 - Zpos d) as E by lia.
    rewrite (scaled_mantissa p d E), round_canonical; [f_equal; lia| |lia].
    rewrite iter_xO, Z.log2_mul_pow2 by lia. lia.
Qed.

(** Scaling by a power of two is exact. *)
Lemma mul_scaled p k :
  Z.log2 (Zpos p) ≤ 52 → 0 ≤ k ≤ 52 → mul (scaled p 0) (of_Z (2 ^ k)) = scaled p k.
Proof.
  intros Hp Hk. pose proof (Z.log2_nonneg (Zpos p)). pose proof (log2_scaled p Hp) as Hl.
  assert (2 ^ k = Zpos (Z.to_pos (2 ^ k))) as Ek by (rewrite Z2Pos.id; lia).
  assert (Z.log2 (Zpos (Z.to_pos (2 ^ k))) = k) as El by (rewrite <-Ek; apply Z.log2_pow2; lia).
  rewrite Ek, of_Z_exact by lia. unfold mul, scaled, SFmul. rewrite El, <-Ek, <-Z.pow_add_r by lia.
  replace (k + (52 - k)) with 52 by lia. set (m := Z.to_pos (Zpos p * 2 ^ (52 - Z.log2 (Zpos p)))).
  replace (m * Z.to_pos (2 ^ 52))%positive with (Pos.iter xO m 52).
  2: { apply Pos2Z.inj. rewrite iter_xO, Pos2Z.inj_mul. done. }
  cbn [xorb]. rewrite round_zeros; [f_equal; lia| |lia].
  unfold m. by rewrite Z2Pos.id by lia.
Qed.

Lemma to_int_scaled p k : Z.log2 (Zpos p) ≤ 52 → 0 ≤ k → to_int (scaled p k) = Zpos p * 2 ^ k.
Proof.
  intros Hp Hk. unfold to_int, scaled, magnitude. rewrite Z2Pos.id by lia.
  destruct (Z.leb_spec 0 (Z.log2 (Zpos p) - 52 + k)).
  - rewrite <-Z.mul_assoc, <-Z.pow_add_r by lia. do 2 f_equal. lia.
  - replace (52 - Z.log2 (Zpos p)) with (k + - (Z.log2 (Zpos p) - 52 + k)) by lia.
    rewrite Z.pow_add_r, Z.mul_assoc by lia. apply Z.div_mul. lia.
Qed.

Lemma scaled_finite p k : isfinite (scaled p k) = true ∧ negative (scaled p k) = false.
Proof. done. Qed.

(** ** Digits read as a float *)
Local Open Scope string_scope.

Lemma all_chars_rev f s : all_chars f s = true → all_chars f (String.rev s) = true.
Proof.
  assert (∀ a t, all_chars f a = true → all_chars f t = true → all_chars f (String.rev_app a t) = true) as H.
  { induction a as [|c a IH]; intros t Ha Ht; [done|]. cbn [all_chars] in Ha.
    apply andb_prop in Ha as [Hc Ha]. cbn [String.rev_app]. apply IH; [done|].
    cbn [all_chars]. by rewrite Hc. }
  intros Hs. by apply H.
Qed.

Lemma lstrip_none s : all_chars (λ c, negb (is_space c)) s = true → lstrip s = s.
Proof.
  destruct s as [|c s]; [done|]. cbn [all_chars lstrip]. intros [Hc _]%andb_prop.
  by rewrite (proj1 (negb_true_iff _) Hc).
Qed.

Lemma rev_app_rev_app a t u : String.rev_app (String.rev_app a t) u = String.rev_app t (a +:+ u).
Proof. revert t. induction a as [|c a IH]; intros t; [done|]. cbn [String.rev_app]. by rewrite IH. Qed.

Lemma app_nil_str (s : string) : s +:+ "" = s.
Proof. induction s as [|c s IH]; [done|]. change (String c (s +:+ "") = String c s). by rewrite IH. Qed.

Lemma rev_rev_str s : String.rev (String.rev s) = s.
Proof. unfold String.rev. rewrite rev_app_rev_app. cbn [String.rev_app]. apply app_nil_str. Qed.

Lemma strip_none s : all_chars (λ c, negb (is_space c)) s = true → strip s = s.
Proof.
  intros Hs. unfold strip. rewrite (lstrip_none s) by done.
  rewrite lstrip_none by (by apply all_chars_rev). apply rev_rev_str.
Qed.

Lemma all_chars_impl (f g : ascii → bool) s :
  (∀ c, f c = true → g c = true) → all_chars f s = true → all_chars g s = true.
Proof.
  intros H. induction s as [|c s IH]; [done|]. cbn [all_chars]. intros [??]%andb_prop.
  by rewrite H, IH.
Qed.

(** What a digit is not. *)
Lemma digit_not c (a : ascii) : is_digit c = true → is_digit a = false → Ascii.eqb c a = false.
Proof. intros Hc Ha. apply Ascii.eqb_neq. intros ->. by rewrite Ha in Hc. Qed.

Lemma digit_plain c : is_digit c = true → is_space c = false ∧ lower_char c = c.
Proof.
  unfold is_digit, is_space, lower_char. rewrite andb_true_iff, !N.leb_le. intros [??].
  destruct (N.leb_spec 65 (N_of_ascii c)); [lia|].
  split; [|done]. apply orb_false_iff. rewrite !andb_false_iff, !N.leb_gt. lia.
Qed.

Lemma span_all_digits s : all_chars is_digit s = true → span_digits s = (s, "").
Proof.
  induction s as [|c s IH]; [done|]. cbn [all_chars span_digits]. intros [Hc Hs]%andb_prop.
  by rewrite Hc, IH.
Qed.

Lemma underscores_digits s p : all_chars is_digit s = true → underscores_ok p s = true.
Proof.
  revert p. induction s as [|c s IH]; intros p; [done|]. cbn [all_chars]. intros [Hc Hs]%andb_prop.
  specialize (IH true Hs). pose proof (digit_not c "_" Hc eq_refl) as Hu%Ascii.eqb_neq.
  destruct c as [[] [] [] [] [] [] [] []]; try done; by cbn in Hc |- *.
Qed.

Lemma drop_underscores_digits s : all_chars is_digit s = true → drop_underscores s = s.
Proof.
  unfold drop_underscores. induction s as [|c s IH]; [done|]. cbn [all_chars]. intros [Hc Hs]%andb_prop.
  cbn [list_ascii_of_string List.filter]. rewrite (digit_not c "_" Hc eq_refl).
  cbn [negb string_of_list_ascii]. by rewrite IH.
Qed.

Lemma sign_digits s : all_chars is_digit s = true → sign s = (false, s).
Proof.
  destruct s as [|c s]; [done|]. cbn [all_chars]. intros [Hc _]%andb_prop.
  destruct c as [[] [] [] [] [] [] [] []]; try done; discriminate Hc.
Qed.

Lemma lower_digits s : all_chars is_digit s = true → lower s = s.
Proof.
  induction s as [|c s IH]; [done|]. cbn [all_chars lower]. intros [Hc Hs]%andb_prop.
  by rewrite IH, (proj2 (digit_plain c Hc)).
Qed.

Lemma parse_digits t : isdigit t = true → parse t = Some (of_Z (int_of_digits t)).
Proof.
  intros [Hne Ht]%isdigit_spec. unfold parse.
  rewrite strip_none by (eapply all_chars_impl, Ht; intros c Hc; by rewrite (proj1 (digit_plain c Hc))).
  rewrite underscores_digits, drop_underscores_digits, sign_digits, lower_digits by done.
  assert (∀ w, all_chars is_digit w = false → t ≠ w) as Hw by (intros w Hw ->; by rewrite Ht in Hw).
  assert (mem t ["inf"; "infinity"] = false) as ->.
  { apply mem_false. rewrite !elem_of_cons, elem_of_nil. intros [H|[H|[]]]; by eapply Hw, H. }
  rewrite bool_decide_eq_false_2 by (by apply Hw).
  unfold decimal. rewrite span_all_digits by done. rewrite app_nil_str, bool_decide_eq_false_2 by done.
  cbn [exponent mbind option_bind String.length]. rewrite Z.sub_diag.
  pose proof (int_of_digits_nonneg t Ht). unfold of_decimal, of_Z, binary_normalize.
  destruct (int_of_digits t) as [|p|p]; [done| |lia]. by rewrite Pos.mul_1_r.
Qed.
