(* ===== verification/ComposeShape.v ===== *)
(** [apps/utils/greffon/compose_shape.py]: the pass every compose file goes
    through before the start pipeline reads it.  It refuses keys outside the
    allowlist, then rewrites each service's ports, volumes and networks to one
    shape.

    The compose is a tree of [value]s: the inline path refuses YAML aliases at
    parse time, so its in-place writes never meet a shared object. *)
From Stdlib Require Import ZArith Lia Ascii String.
From S2P Require Import Prelude PyValue.
Import Text.
Local Open Scope string_scope.

(** ** Errors *)
Inductive reason : Type :=
  | PortNeedsTarget | PortEntryType | PortIsRange | PortLongTarget | PortNotInteger
  | PortProtocol | VolumeMode | VolumeAnonymous | VolumeSpelling | VolumeOptions
  | VolumeType | VolumeNeedsTarget | VolumeEntryType | VolumeEmpty | VolumeBind
  | VolumeRelative | NetworksEntry | TopKeyRefused | ServiceKeyRefused | NotAMapping
  | NoServices | ServiceNameShape | TopNetworksShape | ServiceNameCharset
  | ServiceNotMapping | NotAList | PortDuplicate | NetworkUndeclared.

(** [ShapeError] is [ComposeShapeError]; [PyError] any other exception. *)
Inductive shape_error : Type :=
  | ShapeError (service : option string) (key : value) (message : reason) (got : value)
  | PyError (exception : string).

Definition _bad {A} (service : option string) (key : value) (message : reason)
    (got : value) : result shape_error A :=
  Raise (ShapeError service key message got).

(** ** Constants *)
Definition _MOUNT_MODES : list string :=
  ["ro"; "rw"; "z"; "Z"; "cached"; "delegated"; "consistent"; "default"].
Definition _PROTOCOLS : list string := ["tcp"; "udp"].
Definition _IMPLICIT_NETWORKS : list string := ["default"].
Definition _TOP_KEYS : list string := ["version"; "services"; "volumes"; "networks"].
Definition _MANAGED_SERVICE_KEYS : list string := ["ports"; "volumes"; "networks"].
Definition _PRIVILEGED_SERVICE_KEYS : list string :=
  ["cap_add"; "cap_drop"; "devices"; "sysctls"].
Definition _BASE_SERVICE_KEYS : list string :=
  ["image"; "environment"; "command"; "entrypoint"; "depends_on"; "healthcheck";
   "labels"; "restart"; "user"; "working_dir"; "tmpfs"; "stop_grace_period";
   "expose"; "init"; "platform"; "shm_size"; "ulimits"; "logging"].
Definition _NEVER_GRANTABLE : list string := ["env_file"].
Definition _SERVICE_KEYS_CATALOG : list string :=
  _BASE_SERVICE_KEYS ++ _PRIVILEGED_SERVICE_KEYS.
Definition _SERVICE_KEYS_STRICT : list string := _BASE_SERVICE_KEYS.

(** [_NGINX_SAFE_NAME.fullmatch] *)
Definition _NGINX_SAFE_NAME (s : string) : bool :=
  negb (bool_decide (s = "")) &&
  all_chars (λ c, is_alpha c || is_digit c ||
    Ascii.eqb c "."%char || Ascii.eqb c "_"%char || Ascii.eqb c "-"%char) s.

(** ** Entries *)

(** [int(s)] on digits: CPython refuses more than 4300 of them. *)
Definition py_int (s : string) : result shape_error Z :=
  if (4300 <? String.length s)%nat then Raise (PyError "ValueError")
  else Ok (int_of_digits s).

(** [x in frozenset]: hashing a list, a dict or a set raises. *)
Definition in_frozenset (v : value) (l : list string) : result shape_error bool :=
  match v with
  | VStr s => Ok (mem s l)
  | VList _ | VDict _ => Raise (PyError "TypeError")
  | VOther t _ => if bool_decide (t = "set") then Raise (PyError "TypeError") else Ok false
  | _ => Ok false
  end.

Definition port_in_range (target : value) : result shape_error bool :=
  match target with
  | VStr t =>
      if isdigit t then n ← py_int t; mret ((0 <? n) && (n <? 65536))%Z
      else mret false
  | _ => mret false
  end.

(** The container port is what follows the last colon. *)
Definition after_last_colon (s : string) : string :=
  match rpartition ":" s with Some (_, t) => t | None => s end.

Definition port_parts (service : string) (entry : value) : result shape_error (value * value) :=
  match entry with
  | VInt z => mret (VStr (pretty z), VNull)
  | VStr raw =>
      match rpartition "/" raw with
      | Some (raw, proto) => mret (VStr (after_last_colon raw), VStr (lower proto))
      | None => mret (VStr (after_last_colon raw), VNull)
      end
  | VDict d =>
      match dict_get "target" d with
      | None => _bad (Some service) (VStr "ports") PortNeedsTarget entry
      | Some target => mret (target, get_or_null "protocol" d)
      end
  | _ => _bad (Some service) (VStr "ports") PortEntryType entry
  end.

Definition _normalize_port (service : string) (entry : value) : result shape_error value :=
  '(target, protocol) ← port_parts service entry;
  let target := match target with VInt z => VStr (pretty z) | v => v end in
  ok ← port_in_range target;
  if negb ok then
    let hint :=
      match target with
      | VStr t => if has_char "-" t then PortIsRange
                  else if is_dict entry then PortLongTarget else PortNotInteger
      | _ => if is_dict entry then PortLongTarget else PortNotInteger
      end in
    _bad (Some service) (VStr "ports") hint entry
  else
    known ← match protocol with VNull => mret true | v => in_frozenset v _PROTOCOLS end;
    if negb known then _bad (Some service) (VStr "ports") PortProtocol entry
    else mret (VDict [(VStr "target", target); (VStr "protocol", protocol)]).

(** [v.startswith(prefixes)]: only a string has the method ([bytes] refuses a
    text prefix). *)
Definition str_startswith (v : value) (prefixes : list string) : result shape_error bool :=
  match v with
  | VStr s => mret (existsb (λ p, startswith p s) prefixes)
  | VOther "bytes" _ => Raise (PyError "TypeError")
  | _ => Raise (PyError "AttributeError")
  end.

Definition short_volume (service : string) (entry : string) :
    result shape_error (value * value * value) :=
  let bad := λ why, _bad (Some service) (VStr "volumes") why (VStr entry) in
  match split ":" entry with
  | [source; target] => mret (VStr source, VStr target, VNull)
  | [source; target; mode] =>
      if mem mode _MOUNT_MODES then mret (VStr source, VStr target, VStr mode)
      else bad VolumeMode
  | [_] => bad VolumeAnonymous
  | _ => bad VolumeSpelling
  end.

Definition long_volume (service : string) (d : list (value * value)) :
    result shape_error (value * value * value) :=
  let bad := λ why, _bad (Some service) (VStr "volumes") why (VDict d) in
  let vtype := default (VStr "volume") (dict_get "type" d) in
  let source := get_or_null "source" d in
  let target := get_or_null "target" d in
  let mode :=
    match get_or_null "read_only" d with
    | VBool true => VStr "ro"
    | _ => match get_or_null "mode" d with
           | VStr m => if mem m ["ro"; "rw"] then VStr m else VNull
           | _ => VNull
           end
    end in
  match get_or_null "volume" d with
  | VDict (_ :: _) => bad VolumeOptions
  | _ =>
      if negb (eq_str vtype "volume") then bad VolumeType
      else match dict_get "target" d with
      | None => bad VolumeNeedsTarget
      | Some _ =>
          if negb (truthy source) then bad VolumeAnonymous
          else mret (source, target, mode)
      end
  end.

Definition _normalize_volume (service : string) (entry : value) : result shape_error value :=
  let bad {A} why : result shape_error A := _bad (Some service) (VStr "volumes") why entry in
  '(source, target, mode) ←
    match entry with
    | VStr s => short_volume service s
    | VDict d => long_volume service d
    | _ => bad VolumeEntryType
    end;
  if negb (truthy source) || negb (truthy target) then bad VolumeEmpty
  else
    bind_mount ← str_startswith source ["/"; "."; "~"];
    if (bind_mount : bool) then bad VolumeBind
    else
      absolute ← str_startswith target ["/"];
      if negb absolute then bad VolumeRelative
      else mret (VDict [(VStr "source", source); (VStr "target", target); (VStr "mode", mode)]).

(** The names of a list of strings; [None] when an item is not one. *)
Definition str_items (l : list value) : option (list string) :=
  mapM (λ v, match v with VStr s => Some s | _ => None end) l.

Definition _normalize_service_networks (service : string) (entry : value) :
    result shape_error (list string) :=
  let names :=
    match entry with
    | VStr s => Some [s]
    | VList l => str_items l
    | VDict d => str_items d.*1
    | _ => None
    end in
  match names with
  | Some names => mret names
  | None => _bad (Some service) (VStr "networks") NetworksEntry entry
  end.

(** ** The key allowlist *)
Definition _parse_extra_keys (raw : option string) : list string :=
  match raw with
  | None => []
  | Some s => if bool_decide (s = "") then []
              else filter (λ k, k ≠ "") (strip <$> split "," s)
  end.

Definition service_allowed (strict : bool) (extra_keys : option string) : list string :=
  let granted := filter (λ k, k ∉ _NEVER_GRANTABLE) (_parse_extra_keys extra_keys) in
  (if strict then _SERVICE_KEYS_STRICT else _SERVICE_KEYS_CATALOG) ++ granted.

Definition key_in (k : value) (l : list string) : bool :=
  match k with VStr s => mem s l | _ => false end.

Definition validate_service_keys (allowed : list string) (nv : value * value) :
    result shape_error unit :=
  match nv.2 with
  | VDict service_def =>
      iterR (λ key,
        if key_in key allowed || key_in key _MANAGED_SERVICE_KEYS then mret tt
        else _bad (match nv.1 with VStr n => Some n | _ => None end) key ServiceKeyRefused key)
        service_def.*1
  | _ => mret tt
  end.

Definition _validate_keys (compose : list (value * value)) (strict : bool)
    (extra_keys : option string) : result shape_error unit :=
  iterR (λ top_key, if key_in top_key _TOP_KEYS then mret tt
                    else _bad None top_key TopKeyRefused top_key) compose.*1;;
  match get_or_null "services" compose with
  | VDict services => iterR (validate_service_keys (service_allowed strict extra_keys)) services
  | _ => mret tt
  end.

(** ** The pass *)
Definition normalize_entries (key : string) (normalizer : string → value → result shape_error value)
    (name : string) (service_def : list (value * value)) :
    result shape_error (list (value * value)) :=
  match get_or_null key service_def with
  | VNull => mret service_def
  | VList entries =>
      entries' ← mapR (normalizer name) entries;
      mret (dict_set key (VList entries') service_def)
  | entries => _bad (Some name) (VStr key) NotAList entries
  end.

Definition port_target (entry : value) : value :=
  match entry with VDict d => get_or_null "target" d | _ => VNull end.

(** The duplicate scan: every target seen so far. *)
Definition check_duplicates (name : string) (ports : list value) : result shape_error (list value) :=
  foldR (λ seen entry,
    if existsb (λ t, match port_target entry with VStr s => eq_str t s | _ => false end) seen
    then _bad (Some name) (VStr "ports") PortDuplicate entry
    else mret (port_target entry :: seen)) [] ports.

Definition normalize_service_networks (declared : list string) (name : string)
    (service_def : list (value * value)) : result shape_error (list (value * value)) :=
  match get_or_null "networks" service_def with
  | VNull => mret service_def
  | net_entry =>
      names ← _normalize_service_networks name net_entry;
      if existsb (λ n, negb (mem n declared) && negb (mem n _IMPLICIT_NETWORKS)) names
      then _bad (Some name) (VStr "networks") NetworkUndeclared net_entry
      else mret (dict_set "networks" (VList (VStr <$> names)) service_def)
  end.

Definition normalize_service (declared : list string) (nv : value * value) :
    result shape_error (value * value) :=
  match nv.1 with
  | VStr name =>
      if negb (_NGINX_SAFE_NAME name)
      then _bad None (VStr "services") ServiceNameCharset nv.1
      else match nv.2 with
      | VDict service_def =>
          d1 ← normalize_entries "ports" _normalize_port name service_def;
          d2 ← normalize_entries "volumes" _normalize_volume name d1;
          match get_or_null "ports" d2 with
          | VList ports => check_duplicates name ports ;; mret tt
          | _ => mret tt
          end;;
          d3 ← normalize_service_networks declared name d2;
          mret (nv.1, VDict d3)
      | v => _bad (Some name) (VStr "<service>") ServiceNotMapping v
      end
  | n => _bad None (VStr "services") ServiceNameShape n
  end.

(** The names the top-level [networks] block declares. *)
Definition declared_networks (compose : list (value * value)) : result shape_error (list string) :=
  let strs := omap (λ v, match v with VStr s => Some s | _ => None end) in
  match get_or_null "networks" compose with
  | VList l => mret (strs l)
  | VDict d => mret (strs d.*1)
  | v => if truthy v then _bad None (VStr "networks") TopNetworksShape v else mret []
  end.

Definition normalize_compose (compose : value) (strict : bool) (extra_keys : option string) :
    result shape_error value :=
  match compose with
  | VDict c =>
      _validate_keys c strict extra_keys;;
      match get_or_null "services" c with
      | VDict ((_ :: _) as services) =>
          iterR (λ service, match service with
                 | VStr (String _ _) => mret tt
                 | v => _bad None (VStr "services") ServiceNameShape v
                 end) services.*1;;
          declared ← declared_networks c;
          services' ← mapR (normalize_service declared) services;
          mret (VDict (dict_set "services" (VDict services') c))
      | v => _bad None (VStr "services") NoServices
               (match v with VNull => VStr "<missing>" | _ => v end)
      end
  | v => _bad None (VStr "compose") NotAMapping v
  end.

(** ** The contract of the pass *)
Definition port_ok (v : value) : Prop :=
  ∃ t proto, v = VDict [(VStr "target", VStr t); (VStr "protocol", proto)] ∧
    isdigit t = true ∧ (0 < int_of_digits t < 65536)%Z ∧ (String.length t ≤ 4300)%nat ∧
    (proto = VNull ∨ ∃ p, proto = VStr p ∧ p ∈ _PROTOCOLS).

Definition volume_ok (v : value) : Prop :=
  ∃ s t mode, v = VDict [(VStr "source", VStr s); (VStr "target", VStr t); (VStr "mode", mode)] ∧
    s ≠ "" ∧ Forall (λ p, startswith p s = false) ["/"; "."; "~"] ∧ startswith "/" t = true ∧
    (mode = VNull ∨ ∃ m, mode = VStr m ∧ m ∈ _MOUNT_MODES).

Definition networks_ok (declared : list string) (v : value) : Prop :=
  v = VNull ∨ ∃ names, v = VList (VStr <$> names) ∧
    Forall (λ n, n ∈ declared ∨ n ∈ _IMPLICIT_NETWORKS) names.

Definition list_ok (P : value → Prop) (v : value) : Prop :=
  v = VNull ∨ ∃ l, v = VList l ∧ Forall P l.

(** A service as [create_greffon_info] may read it. *)
Definition service_ok (declared : list string) (nv : value * value) : Prop :=
  ∃ name d, nv = (VStr name, VDict d) ∧ _NGINX_SAFE_NAME name = true ∧
    list_ok port_ok (get_or_null "ports" d) ∧
    (∀ l, get_or_null "ports" d = VList l → NoDup (port_target <$> l)) ∧
    list_ok volume_ok (get_or_null "volumes" d) ∧
    networks_ok declared (get_or_null "networks" d).

(** Only the values of the three managed keys may differ. *)
Definition same_but_managed (d d' : list (value * value)) : Prop :=
  d'.*1 = d.*1 ∧ ∀ k, k ∉ _MANAGED_SERVICE_KEYS → dict_get k d' = dict_get k d.

Definition service_frame (nv nv' : value * value) : Prop :=
  nv'.1 = nv.1 ∧ ∃ d d', nv.2 = VDict d ∧ nv'.2 = VDict d' ∧ same_but_managed d d'.

Definition compose_ok (c : list (value * value)) : Prop :=
  ∃ services declared, dict_get "services" c = Some (VDict services) ∧ services ≠ [] ∧
    declared_networks c = Ok declared ∧ Forall (service_ok declared) services.

(** ** Lemmas *)
Lemma same_but_managed_set k v d :
  dict_get k d ≠ None → k ∈ _MANAGED_SERVICE_KEYS → same_but_managed d (dict_set k v d).
Proof.
  intros Hk Hm. split.
  - rewrite dict_set_fst. by destruct (dict_get k d).
  - intros j Hj. apply dict_get_set_ne. naive_solver.
Qed.

Lemma same_but_managed_trans d1 d2 d3 :
  same_but_managed d1 d2 → same_but_managed d2 d3 → same_but_managed d1 d3.
Proof. intros [? H12] [? H23]. split; [congruence|]. intros k ?. rewrite H23; auto. Qed.

Lemma port_in_range_ok target :
  port_in_range target = Ok true → ∃ t, target = VStr t ∧ isdigit t = true ∧
    (0 < int_of_digits t < 65536)%Z ∧ (String.length t ≤ 4300)%nat.
Proof.
  destruct target as [| | |t| | |]; try by intros [=]. simpl. destruct (isdigit t) eqn:?; [|done].
  unfold py_int. destruct (4300 <? String.length t)%nat eqn:Hl; [done|].
  simpl. intros [= [??]%andb_prop]. exists t. apply Nat.ltb_ge in Hl. repeat split; auto; lia.
Qed.

Lemma in_frozenset_ok v l : in_frozenset v l = Ok true → ∃ s, v = VStr s ∧ s ∈ l.
Proof.
  destruct v as [| | |s| | |t b]; simpl; try done.
  - intros [= Hm%mem_true]. eauto.
  - by case_bool_decide.
Qed.

Lemma normalize_port_ok s e v : _normalize_port s e = Ok v → port_ok v.
Proof.
  unfold _normalize_port. intros ([target protocol] & _ & H)%bindR_ok.
  set (target' := match target with VInt z => _ | v => v end) in H.
  apply bindR_ok in H as (ok & Ht & H).
  destruct ok; [apply port_in_range_ok in Ht|discriminate H].
  apply bindR_ok in H as (known & Hp & H).
  destruct known; [|discriminate H]. injection H as <-.
  destruct Ht as (t & -> & ? & ? & ?). exists t, protocol. repeat split; auto; try lia.
  destruct protocol as [| | | | | |t' b]; [by left|..]; cbv beta iota in Hp.
  all: apply in_frozenset_ok in Hp as (? & [= ?] & ?); subst; right; eauto.
Qed.

Lemma str_startswith_false v ps :
  str_startswith v ps = Ok false → ∃ s, v = VStr s ∧ Forall (λ p, startswith p s = false) ps.
Proof.
  destruct v as [| | |s| | |t b]; simpl; try done.
  - intros [= H]. exists s. split; [done|]. apply Forall_forall. intros p Hp.
    destruct (startswith p s) eqn:Hs; [|done].
    assert (existsb (λ p, startswith p s) ps = true) as Hc; [|congruence].
    apply existsb_exists. exists p. split; [by apply list_elem_of_In|done].
  - by repeat case_match.
Qed.

Lemma str_startswith_true v p :
  str_startswith v [p] = Ok true → ∃ s, v = VStr s ∧ startswith p s = true.
Proof.
  destruct v as [| | |s| | |t b]; simpl; try done.
  - intros [= H]. rewrite orb_false_r in H. eauto.
  - by repeat case_match.
Qed.

Lemma short_volume_mode s e p : short_volume s e = Ok p →
  p.2 = VNull ∨ ∃ m, p.2 = VStr m ∧ m ∈ _MOUNT_MODES.
Proof.
  unfold short_volume. destruct (split _ _) as [|a [|b [|c [|]]]]; try by intros [=].
  - intros [= <-]. by left.
  - destruct (mem c _MOUNT_MODES) eqn:Hm; [|by intros [=]].
    intros [= <-]. right. apply mem_true in Hm. eauto.
Qed.

Lemma long_volume_mode s d p : long_volume s d = Ok p →
  p.2 = VNull ∨ ∃ m, p.2 = VStr m ∧ m ∈ ["ro"; "rw"].
Proof.
  unfold long_volume. intros H.
  assert (p.2 = match get_or_null "read_only" d with
    | VBool true => VStr "ro"
    | _ => match get_or_null "mode" d with
           | VStr m => if mem m ["ro"; "rw"] then VStr m else VNull
           | _ => VNull
           end
    end) as ->.
  { repeat case_match; simplify_eq; inv_result; done. }
  clear H. destruct (get_or_null "read_only" d) as [|[]| | | | |];
    try (right; exists "ro"; split; [done|set_solver]).
  all: destruct (get_or_null "mode" d) as [| | |m| | |]; try by left.
  all: destruct (mem m _) eqn:Hm; [apply mem_true in Hm; right; eauto|by left].
Qed.

Lemma normalize_volume_ok s e v : _normalize_volume s e = Ok v → volume_ok v.
Proof.
  unfold _normalize_volume. intros ([[source target] mode] & He & H)%bindR_ok.
  destruct (negb (truthy source) || negb (truthy target)) eqn:Hne; [discriminate H|].
  apply orb_false_iff in Hne as [Hs Ht]. apply negb_false_iff in Hs, Ht.
  apply bindR_ok in H as (bm & Hbm & H). destruct bm; [discriminate H|].
  apply bindR_ok in H as (ab & Hab & H). destruct ab; [|discriminate H]. injection H as <-.
  apply str_startswith_false in Hbm as (src & -> & Hsrc).
  apply str_startswith_true in Hab as (tgt & -> & Htgt).
  exists src, tgt, mode. split_and!; auto.
  - intros ->. done.
  - destruct e as [| | |e| |d|]; try discriminate He.
    + apply (short_volume_mode _ _ _ He).
    + destruct (long_volume_mode _ _ _ He) as [?|(m & ? & ?)]; [by left|].
      right. exists m. split; [done|]. unfold _MOUNT_MODES. set_solver.
Qed.

Lemma normalize_entries_ok (P : value → Prop) key norm name d d' :
  (∀ e v, norm name e = Ok v → P v) → key ∈ _MANAGED_SERVICE_KEYS →
  normalize_entries key norm name d = Ok d' →
  list_ok P (get_or_null key d') ∧ same_but_managed d d' ∧
  (∀ k, k ≠ key → get_or_null k d' = get_or_null k d).
Proof.
  intros HP Hk. unfold normalize_entries.
  destruct (get_or_null key d) as [| | | |es| |] eqn:Hg; try by intros [=].
  - intros [= <-]. split; [by left|]. by repeat split.
  - rewrite bindR_ok. intros (es' & He%mapR_ok & [= <-]).
    split; [right; exists es'; split; [apply get_or_null_set|]|split].
    + clear -He HP. induction He; constructor; eauto.
    + apply same_but_managed_set; [|done]. apply get_or_null_some in Hg; [|done]. by rewrite Hg.
    + intros k Hne. by apply get_or_null_set_ne.
Qed.

Lemma port_ok_target e : port_ok e → ∃ t, port_target e = VStr t.
Proof. intros (t & proto & -> & _). by exists t. Qed.

Lemma check_duplicates_ok name l seen r :
  foldR (λ seen entry,
    if existsb (λ t, match port_target entry with VStr s => eq_str t s | _ => false end) seen
    then _bad (Some name) (VStr "ports") PortDuplicate entry
    else mret (port_target entry :: seen)) seen l = Ok r →
  Forall port_ok l →
  NoDup (port_target <$> l) ∧ Forall (λ e, port_target e ∉ seen) l.
Proof.
  revert seen. induction l as [|e l IH]; intros seen; cbn [foldR].
  { intros _ _. split; constructor. }
  case_match eqn:Hex; [done|]. intros Hf [[t He]%port_ok_target Hl]%Forall_cons.
  destruct (IH _ Hf Hl) as [Hnd Hs]. rewrite He in *. rewrite fmap_cons, ?He. split.
  - constructor; [|done]. intros (e' & He' & Hin)%list_elem_of_fmap.
    rewrite Forall_forall in Hs. apply (Hs e' Hin). rewrite <-He'. left.
  - constructor.
    + rewrite He. intros Hin.
      assert (existsb (λ t', eq_str t' t) seen = true) as Hc; [|by rewrite Hc in Hex].
      apply existsb_exists. exists (VStr t). split; [by apply list_elem_of_In|]. by apply eq_str_true.
    + eapply Forall_impl; [exact Hs|]. simpl. intros e' Hne Hin. apply Hne. by right.
Qed.

Lemma str_items_ok l names : str_items l = Some names → l = VStr <$> names.
Proof.
  unfold str_items. rewrite mapM_Some. induction 1 as [|v s l' k Hv _ IH]; [done|].
  rewrite fmap_cons, <-IH. destruct v; by simplify_eq.
Qed.

Lemma normalize_service_networks_ok declared name d d' :
  normalize_service_networks declared name d = Ok d' →
  networks_ok declared (get_or_null "networks" d') ∧ same_but_managed d d' ∧
  (∀ k, k ≠ "networks" → get_or_null k d' = get_or_null k d).
Proof.
  unfold normalize_service_networks. intros H.
  destruct (get_or_null "networks" d) as [|b|z|s|l|x|t b] eqn:Hg.
  1: injection H as <-; split; [by left|by repeat split].
  all: apply bindR_ok in H as (names & _ & H); cbv beta in H; case_match eqn:Hex; [done|].
  all: injection H as <-; split; [right; exists names; split; [apply get_or_null_set|]|split];
    [|apply same_but_managed_set; [|set_solver]; apply get_or_null_some in Hg; [by rewrite Hg|done]
     |intros k Hne; by apply get_or_null_set_ne].
  all: apply Forall_forall; intros n Hn;
    destruct (decide (n ∈ declared)) as [?|Hd]; [by left|];
    destruct (decide (n ∈ _IMPLICIT_NETWORKS)) as [?|Hi]; [by right|]; exfalso.
  all: assert (existsb (λ n, negb (mem n declared) && negb (mem n _IMPLICIT_NETWORKS)) names = true)
    as Hc; [apply existsb_exists; exists n; split; [by apply list_elem_of_In|]|by rewrite Hc in Hex].
  all: apply mem_false in Hd, Hi; by rewrite Hd, Hi.
Qed.

Lemma normalize_service_ok declared nv nv' :
  normalize_service declared nv = Ok nv' → service_ok declared nv' ∧ service_frame nv nv'.
Proof.
  destruct nv as [n v]. unfold normalize_service. simpl.
  destruct n as [| | |name| | |]; try by intros [=].
  destruct (_NGINX_SAFE_NAME name) eqn:Hname; simpl; [|done].
  destruct v as [| | | | |d|]; try by intros [=].
  intros (d1 & H1 & H)%bindR_ok. apply bindR_ok in H as (d2 & H2 & H).
  apply bindR_ok in H as (u & Hdup & H). apply bindR_ok in H as (d3 & H3 & H).
  injection H as <-.
  apply (normalize_entries_ok port_ok) in H1 as (Hp & F1 & _); [|eauto using normalize_port_ok|set_solver].
  apply (normalize_entries_ok volume_ok) in H2 as (Hv & F2 & N2); [|eauto using normalize_volume_ok|set_solver].
  apply normalize_service_networks_ok in H3 as (Hn & F3 & N3).
  rewrite <-N2 in Hp by done. split.
  - exists name, d3. split; [done|]. split; [done|]. rewrite !N3 by done.
    split_and!; try done. intros l Hl. rewrite Hl in Hdup, Hp.
    destruct Hp as [?|(l' & [= <-] & Hl')]; [done|]. unfold check_duplicates in Hdup.
    apply bindR_ok in Hdup as (r & Hr & _). by eapply check_duplicates_ok in Hr as [??].
  - split; [done|]. exists d, d3. split_and!; eauto using same_but_managed_trans.
Qed.

Lemma normalize_compose_inv c strict extra v :
  normalize_compose c strict extra = Ok v → ∃ d services declared services',
    c = VDict d ∧ v = VDict (dict_set "services" (VDict services') d) ∧
    _validate_keys d strict extra = Ok () ∧ services ≠ [] ∧
    dict_get "services" d = Some (VDict services) ∧
    Forall (λ k, ∃ a s, k = VStr (String a s)) services.*1 ∧
    declared_networks d = Ok declared ∧
    Forall2 (λ nv nv', normalize_service declared nv = Ok nv') services services'.
Proof.
  destruct c as [| | | | |d|]; try by intros [=]. unfold normalize_compose.
  intros ([] & Hval & H)%bindR_ok.
  destruct (get_or_null "services" d) as [| | | | |services|] eqn:Hg; try by inversion H.
  destruct services as [|nv services]; [done|].
  apply bindR_ok in H as ([] & Hnames%iterR_ok & H).
  apply bindR_ok in H as (declared & Hdecl & H).
  apply bindR_ok in H as (services' & Hs%mapR_ok & [= <-]).
  exists d, (nv :: services), declared, services'. split_and!; auto.
  - by apply get_or_null_some in Hg.
  - eapply Forall_impl; [exact Hnames|]. cbv beta. intros k Hk.
    destruct k as [| | |[|a s]| | |]; try discriminate Hk. eauto.
Qed.

Lemma validate_keys_ok d strict extra services :
  _validate_keys d strict extra = Ok () → dict_get "services" d = Some (VDict services) →
  Forall (λ k, key_in k _TOP_KEYS = true) d.*1 ∧
  Forall (λ nv, ∀ def, nv.2 = VDict def →
    Forall (λ k, key_in k (service_allowed strict extra) = true ∨
                 key_in k _MANAGED_SERVICE_KEYS = true) def.*1) services.
Proof.
  unfold _validate_keys, get_or_null. intros ([] & Ht%iterR_ok & H)%bindR_ok Hs.
  rewrite Hs in H. apply iterR_ok in H. split.
  - eapply Forall_impl; [exact Ht|]. cbv beta. intros k. by destruct (key_in k _).
  - eapply Forall_impl; [exact H|]. intros [n v] Hv def Hdef. simpl in Hdef. subst v.
    unfold validate_service_keys in Hv. simpl in Hv. apply iterR_ok in Hv. eapply Forall_impl; [exact Hv|]. cbv beta.
    intros k. destruct (key_in k _) eqn:?; simpl; [by left|].
    destruct (key_in k _MANAGED_SERVICE_KEYS) eqn:?; [by right|done].
Qed.

Lemma key_in_true k l : key_in k l = true ↔ ∃ s, k = VStr s ∧ s ∈ l.
Proof. destruct k; simpl; rewrite ?mem_true; naive_solver. Qed.

Lemma service_allowed_elem strict extra s :
  s ∈ service_allowed strict extra ↔
    s ∈ _BASE_SERVICE_KEYS ∨ (strict = false ∧ s ∈ _PRIVILEGED_SERVICE_KEYS) ∨
    (s ∈ _parse_extra_keys extra ∧ s ∉ _NEVER_GRANTABLE).
Proof.
  unfold service_allowed, _SERVICE_KEYS_CATALOG, _SERVICE_KEYS_STRICT.
  rewrite elem_of_app, list_elem_of_filter. destruct strict; rewrite ?elem_of_app; naive_solver.
Qed.

(** The frames of the pass, service by service. *)
Lemma normalize_services_ok declared services services' :
  Forall2 (λ nv nv', normalize_service declared nv = Ok nv') services services' →
  Forall (service_ok declared) services' ∧ Forall2 service_frame services services'.
Proof.
  induction 1 as [|nv nv' l l' [??]%normalize_service_ok _ []]; split; constructor; auto.
Qed.

(** C30: the contract of the normalization pass on ASCII text: whatever compose it
    accepts, with whatever grants, comes back with a non-empty mapping of services
    whose names nginx can interpolate, whose ports are decimal texts for a number in
    1..65535 with a known protocol, no two of a service the same text, whose volumes
    are named volumes mounted at absolute paths, and whose networks are declared.
    Two texts of a port may still be the same number: [normalize_compose_same_port]. *)
Theorem normalize_compose_contract c strict extra v :
  normalize_compose c strict extra = Ok v → ∃ d, v = VDict d ∧ compose_ok d.
Proof.
  intros (d & services & declared & services' & -> & -> & _ & Hne & Hg & _ & Hd & Hf)
    %normalize_compose_inv.
  eexists; split; [done|]. exists services', declared. rewrite dict_get_set_eq. split_and!.
  - done.
  - intros ->. by inversion Hf; subst.
  - unfold declared_networks. by rewrite get_or_null_set_ne.
  - by apply normalize_services_ok in Hf as [??].
Qed.

(** C31: containment: every service key of an accepted compose is a base or managed key, or a
    privileged one and the compose is a reviewed one, or one the operator granted; [env_file]
    is accepted in no mode and under no grant. *)
Theorem normalize_compose_containment c strict extra v d services name def k :
  normalize_compose c strict extra = Ok v →
  v = VDict d → dict_get "services" d = Some (VDict services) →
  (name, VDict def) ∈ services → k ∈ def.*1 →
  ∃ s, k = VStr s ∧ s ≠ "env_file" ∧
    (s ∈ _BASE_SERVICE_KEYS ∨ s ∈ _MANAGED_SERVICE_KEYS ∨
     (strict = false ∧ s ∈ _PRIVILEGED_SERVICE_KEYS) ∨ s ∈ _parse_extra_keys extra).
Proof.
  intros (d0 & srv & declared & services' & -> & -> & Hval & Hne & Hg & _ & Hd & Hf)
    %normalize_compose_inv [= <-].
  rewrite dict_get_set_eq. intros [= <-] Hin Hk.
  destruct (validate_keys_ok _ _ _ _ Hval Hg) as [_ Hall].
  apply normalize_services_ok in Hf as [_ Hf].
  apply list_elem_of_lookup in Hin as (i & Hi).
  destruct (Forall2_lookup_r _ _ _ _ _ Hf Hi) as (nv & Hnv & _ & e & e' & He & [= <-] & Hkeys & _).
  rewrite Hkeys in Hk. rewrite Forall_lookup in Hall. specialize (Hall _ _ Hnv _ He).
  rewrite Forall_forall in Hall.
  destruct (Hall _ Hk) as [(s & -> & Hs)%key_in_true|(s & -> & Hs)%key_in_true];
    exists s; (split; [done|]).
  - apply service_allowed_elem in Hs as [Hs|[[-> Hs]|[Hs Hn]]].
    + split; [intros ->; unfold _BASE_SERVICE_KEYS in Hs; set_solver|tauto].
    + split; [intros ->; unfold _PRIVILEGED_SERVICE_KEYS in Hs; set_solver|do 2 right; by left].
    + split; [intros ->; unfold _NEVER_GRANTABLE in Hn; set_solver|by do 3 right].
  - split; [intros ->; unfold _MANAGED_SERVICE_KEYS in Hs; set_solver|tauto].
Qed.

(** ** A second pass *)

(** Long syntax keeps only [ro] and [rw]. *)
Definition mode_kept (v : value) : bool :=
  match v with
  | VDict e => match get_or_null "mode" e with VStr m => mem m ["ro"; "rw"] | _ => true end
  | _ => true
  end.

Definition service_modes_kept (nv : value * value) : bool :=
  match nv.2 with
  | VDict d => match get_or_null "volumes" d with VList l => forallb mode_kept l | _ => true end
  | _ => true
  end.

Definition modes_kept (c : value) : bool :=
  match c with
  | VDict d => match get_or_null "services" d with
               | VDict services => forallb service_modes_kept services | _ => true end
  | _ => true
  end.

Lemma startswith_nonempty a p s : startswith (String a p) s = true → s ≠ "".
Proof. by destruct s. Qed.

Lemma normalize_port_fix s v : port_ok v → _normalize_port s v = Ok v.
Proof.
  intros (t & proto & -> & Hd & Hr & Hl & Hp). unfold _normalize_port. simpl.
  rewrite Hd. unfold py_int. rewrite (proj2 (Nat.ltb_ge _ _)) by done. simpl.
  rewrite (proj2 (Z.ltb_lt _ _)), (proj2 (Z.ltb_lt _ _)) by lia. simpl.
  destruct Hp as [->|(p & -> & Hp%mem_true)]; simpl; [done|]. by rewrite Hp.
Qed.

Lemma normalize_volume_fix s v : volume_ok v → mode_kept v = true → _normalize_volume s v = Ok v.
Proof.
  intros (src & tgt & mode & -> & Hne & Hpre & Ht & Hm) Hk. unfold _normalize_volume.
  assert (truthy (VStr src) = true) as Hs by (simpl; by rewrite bool_decide_eq_false_2).
  assert (truthy (VStr tgt) = true) as Htt.
  { simpl. rewrite bool_decide_eq_false_2; [done|]. by eapply startswith_nonempty. }
  assert (long_volume s [(VStr "source", VStr src); (VStr "target", VStr tgt); (VStr "mode", mode)]
    = Ok (VStr src, VStr tgt, mode)) as ->.
  { unfold long_volume, get_or_null. cbn -[truthy mem]. rewrite Hs. cbn -[mem].
    destruct Hm as [->|(m & -> & _)]; [done|]. cbn -[mem] in Hk. by rewrite Hk. }
  cbn -[truthy startswith]. rewrite Hs, Htt. cbn -[startswith].
  rewrite !Forall_cons in Hpre. destruct Hpre as (-> & -> & -> & _). cbn -[startswith].
  by rewrite Ht.
Qed.

Lemma check_duplicates_fix name l seen :
  Forall port_ok l → NoDup (port_target <$> l) → Forall (λ e, port_target e ∉ seen) l →
  ∃ r, foldR (λ seen entry,
    if existsb (λ t, match port_target entry with VStr s => eq_str t s | _ => false end) seen
    then _bad (Some name) (VStr "ports") PortDuplicate entry
    else mret (port_target entry :: seen)) seen l = Ok r.
Proof.
  revert seen. induction l as [|e l IH]; intros seen; cbn [foldR]; [by eexists|].
  intros [[t He]%port_ok_target Hl]%Forall_cons Hnd [Hs Hsl]%Forall_cons.
  rewrite fmap_cons in Hnd. apply NoDup_cons in Hnd as [Hn Hnd]. rewrite He in *.
  case_match eqn:Hex.
  - exfalso. apply existsb_exists in Hex as (t' & Hin & ->%eq_str_true).
    by apply Hs, list_elem_of_In.
  - apply IH; [done..|]. rewrite Forall_forall in Hsl |- *. intros e' He' [Heq|?]%elem_of_cons.
    + apply Hn. rewrite <-Heq. by apply list_elem_of_fmap_2.
    + by apply (Hsl e' He').
Qed.

Lemma normalize_entries_fix (P : value → Prop) key norm name d :
  (∀ v, P v → norm name v = Ok v) → list_ok P (get_or_null key d) →
  normalize_entries key norm name d = Ok d.
Proof.
  unfold normalize_entries. intros HP [->|(l & Hl & Hf)]; [done|]. rewrite Hl.
  rewrite mapR_fix by (eapply Forall_impl; eauto). simpl.
  rewrite dict_set_id; [done|]. by apply get_or_null_some.
Qed.

Lemma normalize_service_networks_fix declared name d :
  networks_ok declared (get_or_null "networks" d) →
  normalize_service_networks declared name d = Ok d.
Proof.
  unfold normalize_service_networks. intros [->|(names & Hn & Hf)]; [done|]. rewrite Hn.
  assert (str_items (VStr <$> names) = Some names) as Hi.
  { clear. unfold str_items. apply mapM_Some. induction names; constructor; auto. }
  unfold _normalize_service_networks. rewrite Hi. simpl. destruct (existsb _ names) eqn:Hex.
  - exfalso. apply existsb_exists in Hex as (n & Hin & [H1 H2]%andb_prop).
    apply negb_true_iff, mem_false in H1, H2.
    rewrite Forall_forall in Hf. destruct (Hf n); [by apply list_elem_of_In|done..].
  - rewrite dict_set_id; [done|]. by apply get_or_null_some.
Qed.

Lemma normalize_service_fix declared nv :
  service_ok declared nv → service_modes_kept nv = true → normalize_service declared nv = Ok nv.
Proof.
  intros (name & d & -> & Hname & Hp & Hnd & Hv & Hn) Hk. unfold normalize_service. cbn [fst snd].
  rewrite Hname. cbn [negb].
  rewrite (normalize_entries_fix port_ok) by eauto using normalize_port_fix. simpl.
  rewrite (normalize_entries_fix (λ v, volume_ok v ∧ mode_kept v = true)).
  2: intros v [??]; by apply normalize_volume_fix.
  2: { unfold service_modes_kept in Hk. simpl in Hk.
       destruct Hv as [?|(l & Hl & Hf)]; [by left|]. right. exists l. split; [done|].
       rewrite Hl in Hk. apply Forall_and. split; [done|].
       apply Forall_forall. intros x Hx. eapply forallb_forall in Hk; [done|]. by apply list_elem_of_In. }
  simpl. rewrite normalize_service_networks_fix by done.
  destruct Hp as [->|(l & Hl & Hf)]; [done|]. rewrite Hl.
  destruct (check_duplicates_fix name l []) as [r Hr]; auto.
  { apply Forall_forall. intros x _ ?%elem_of_nil. done. }
  unfold check_duplicates. rewrite Hr. done.
Qed.

Lemma iterR_Forall2 {E A} (f : A → result E unit) l l' :
  Forall2 (λ x y, f x = f y) l l' → iterR f l = iterR f l'.
Proof. induction 1 as [|x y l l' Hxy _ IH]; simpl; [done|]. by rewrite Hxy, IH. Qed.

Lemma validate_keys_frame d strict extra services services' :
  dict_get "services" d = Some (VDict services) → Forall2 service_frame services services' →
  _validate_keys (dict_set "services" (VDict services') d) strict extra =
  _validate_keys d strict extra.
Proof.
  intros Hs Hf. unfold _validate_keys. rewrite dict_set_fst, Hs. rewrite get_or_null_set.
  unfold get_or_null. rewrite Hs. simpl. destruct (iterR _ d.*1); [|done]. simpl.
  symmetry. apply iterR_Forall2. eapply Forall2_impl; [exact Hf|].
  intros [n v] [n' v'] (Hn & e & e' & He & He' & Hk & _). simpl in *. subst.
  unfold validate_service_keys. simpl. by rewrite Hk.
Qed.

(** the pass is the identity on its own output, provided no mount carries a mode that long
    syntax cannot express. *)
Theorem normalize_compose_idempotent c strict extra v :
  normalize_compose c strict extra = Ok v → modes_kept v = true →
  normalize_compose v strict extra = Ok v.
Proof.
  intros (d & services & declared & services' & -> & -> & Hval & Hne & Hg & Hnames & Hd & Hf)
    %normalize_compose_inv Hk.
  simpl in Hk. rewrite get_or_null_set in Hk.
  pose proof (normalize_services_ok _ _ _ Hf) as [Hok Hframe].
  unfold normalize_compose. rewrite (validate_keys_frame _ _ _ services) by done.
  rewrite Hval, get_or_null_set. cbn [mbind result_bind].
  assert (services'.*1 = services.*1) as Hkeys.
  { clear -Hframe. induction Hframe as [|[] [] ?? [Hn _] _ IH]; [done|]. rewrite !fmap_cons, IH.
    simpl in *. congruence. }
  destruct services' as [|nv services']; [by inversion Hf; subst|].
  rewrite Hkeys. replace (iterR _ services.*1) with (Ok (E:=shape_error) tt).
  2: { symmetry. apply iterR_ok. eapply Forall_impl; [exact Hnames|]. by intros k (a & s & ->). }
  cbn [mbind result_bind].
  unfold declared_networks in Hd |- *. rewrite get_or_null_set_ne by done. rewrite Hd.
  cbn [mbind result_bind]. rewrite mapR_fix.
  - cbn [mbind result_bind mret result_ret]. do 2 f_equal. apply dict_set_id. by rewrite dict_get_set_eq.
  - rewrite Forall_forall in Hok |- *. intros x Hx. apply normalize_service_fix; [by apply Hok|].
    eapply forallb_forall in Hk; [done|]. by apply list_elem_of_In.
Qed.

(** ** Which exceptions escape *)

(** Entries whose scalars have the types compose documents. *)
Definition plain_port (v : value) : bool :=
  match v with
  | VInt z => (String.length (pretty z) <=? 4300)%nat
  | VStr s => (String.length s <=? 4300)%nat
  | VDict d =>
      match get_or_null "target" d with
      | VInt z => (String.length (pretty z) <=? 4300)%nat
      | VStr s => (String.length s <=? 4300)%nat
      | _ => true
      end &&
      match get_or_null "protocol" d with VNull | VStr _ => true | _ => false end
  | _ => true
  end.

Definition str_or_falsy (v : value) : bool := is_str v || negb (truthy v).

Definition plain_volume (v : value) : bool :=
  match v with
  | VDict d => str_or_falsy (get_or_null "source" d) && str_or_falsy (get_or_null "target" d)
  | _ => true
  end.

Definition plain_service (nv : value * value) : bool :=
  match nv.2 with
  | VDict d =>
      match get_or_null "ports" d with VList l => forallb plain_port l | _ => true end &&
      match get_or_null "volumes" d with VList l => forallb plain_volume l | _ => true end
  | _ => true
  end.

Definition plain_compose (c : value) : bool :=
  match c with
  | VDict d => match get_or_null "services" d with
               | VDict services => forallb plain_service services | _ => true end
  | _ => true
  end.

(** No exception other than [ComposeShapeError]. *)
Definition no_py {A} (r : result shape_error A) : Prop := ∀ x, r ≠ Raise (PyError x).

Lemma no_py_ok {A} (a : A) : no_py (Ok a).
Proof. by intros x. Qed.
Lemma no_py_bad {A} s k m g : no_py (@_bad A s k m g).
Proof. by intros x. Qed.
Lemma no_py_bind {A B} (m : result shape_error A) (k : A → result shape_error B) :
  no_py m → (∀ a, m = Ok a → no_py (k a)) → no_py (m ≫= k).
Proof. destruct m; simpl; intros H Hk x; [by apply Hk|by intros [= ->]; apply (H x)]. Qed.
Lemma no_py_mapR {A B} (f : A → result shape_error B) l :
  (∀ x, x ∈ l → no_py (f x)) → no_py (mapR f l).
Proof. intros Hf x (y & Hy & He)%mapR_raise. by apply (Hf y Hy x). Qed.
Lemma no_py_iterR {A} (f : A → result shape_error unit) l :
  (∀ x, x ∈ l → no_py (f x)) → no_py (iterR f l).
Proof. intros Hf x (y & Hy & He)%iterR_raise. by apply (Hf y Hy x). Qed.
Lemma no_py_foldR {A S} (f : S → A → result shape_error S) s l :
  (∀ s x, no_py (f s x)) → no_py (foldR f s l).
Proof. intros Hf x (s' & y & _ & _ & He)%(foldR_raise (λ _, True)); [|done..]. by apply (Hf s' y x). Qed.
#[export] Hint Resolve no_py_ok no_py_bad no_py_bind no_py_mapR no_py_iterR no_py_foldR : greffer.

Ltac no_py := repeat first
  [ apply no_py_ok | apply no_py_bad | apply no_py_bind; [|intros ? ?]
  | apply no_py_iterR; intros ? ? | apply no_py_foldR; intros ? ?
  | progress (unfold mret, result_ret)
  | match goal with |- no_py (match ?x with _ => _ end) => destruct x eqn:? end ].

Lemma port_in_range_no_py t :
  match t with VStr s => (String.length s <=? 4300)%nat = true | _ => True end →
  no_py (port_in_range t).
Proof.
  destruct t; simpl; intros H; no_py. unfold py_int.
  apply Nat.leb_le in H. rewrite (proj2 (Nat.ltb_ge _ _)) by done. no_py.
Qed.

Lemma after_last_colon_length s : (String.length (after_last_colon s) ≤ String.length s)%nat.
Proof.
  unfold after_last_colon. destruct (rpartition _ _) as [[a b]|] eqn:H; [|done].
  by apply rpartition_length in H as [_ ?].
Qed.

(** The parsed entry: a short target and a protocol that can be looked up. *)
Lemma port_parts_plain s e t p : plain_port e = true → port_parts s e = Ok (t, p) →
  match match t with VInt z => VStr (pretty z) | v => v end with
  | VStr s => (String.length s <=? 4300)%nat = true | _ => True end ∧
  match p with VNull | VStr _ => True | _ => False end.
Proof.
  destruct e as [| |z|raw| |d|]; simpl; try done.
  - by intros ? [= <- <-].
  - intros Hl%Nat.leb_le. destruct (rpartition "/" raw) as [[a b]|] eqn:Hr; intros [= <- <-];
      (split; [|done]); apply Nat.leb_le; etrans; [apply after_last_colon_length| |apply after_last_colon_length|done].
    apply rpartition_length in Hr. lia.
  - intros [Ht Hp]%andb_prop. unfold get_or_null in *.
    destruct (dict_get "target" d) as [v|]; [|done]. intros [= <- <-]. simpl in *.
    split; [by destruct v|]. destruct (default VNull _); done.
Qed.

Lemma normalize_port_no_py s e : plain_port e = true → no_py (_normalize_port s e).
Proof.
  intros Hp. unfold _normalize_port. apply no_py_bind.
  { unfold port_parts. no_py. }
  intros [t p] Hparts. destruct (port_parts_plain _ _ _ _ Hp Hparts) as [Ht Hpr].
  apply no_py_bind; [by apply port_in_range_no_py|]. intros ok _.
  destruct ok; simpl; [|no_py]. apply no_py_bind; [|intros; no_py]. by destruct p.
Qed.

Lemma long_volume_parts s d src tgt m : long_volume s d = Ok (src, tgt, m) →
  src = get_or_null "source" d ∧ tgt = get_or_null "target" d.
Proof.
  unfold long_volume, _bad. intros He.
  repeat case_match; try discriminate He; by injection He as <- <- <-.
Qed.

Lemma normalize_volume_no_py s e : plain_volume e = true → no_py (_normalize_volume s e).
Proof.
  intros Hp. unfold _normalize_volume. apply no_py_bind.
  { unfold short_volume, long_volume. no_py. }
  intros [[src tgt] m] He.
  destruct (negb (truthy src) || negb (truthy tgt)) eqn:Hor; [apply no_py_bad|].
  assert (is_str src = true ∧ is_str tgt = true) as [Hs Ht].
  { apply orb_false_iff in Hor as [H1%negb_false_iff H2%negb_false_iff].
    destruct e as [| | |e| |d|]; try done.
    - clear Hp. unfold short_volume, _bad in He. repeat case_match; try discriminate He;
        injection He as <- <- <-; done.
    - simpl in Hp. apply andb_prop in Hp as [Hps Hpt].
      apply long_volume_parts in He as [-> ->]. unfold str_or_falsy in Hps, Hpt.
      rewrite H1, orb_false_r in Hps. by rewrite H2, orb_false_r in Hpt. }
  destruct src, tgt; try done. cbn [str_startswith]. no_py.
Qed.

Lemma normalize_entries_no_py (plain : value → bool) key norm name d :
  (∀ e, plain e = true → no_py (norm name e)) →
  match get_or_null key d with VList l => forallb plain l | _ => true end = true →
  no_py (normalize_entries key norm name d).
Proof.
  unfold normalize_entries. intros Hn Hl. destruct (get_or_null key d); no_py.
  apply no_py_mapR. intros x Hx. apply Hn. eapply forallb_forall in Hl; [done|].
  by apply list_elem_of_In.
Qed.

Lemma normalize_service_no_py declared nv : plain_service nv = true → no_py (normalize_service declared nv).
Proof.
  destruct nv as [n v]. unfold normalize_service, plain_service. cbn [fst snd]. intros Hp.
  destruct n as [| | |name| | |]; try apply no_py_bad.
  destruct (negb _); [apply no_py_bad|]. destruct v as [| | | | |d|]; try apply no_py_bad.
  apply andb_prop in Hp as [Hpp Hpv].
  apply no_py_bind; [by eapply normalize_entries_no_py; eauto using normalize_port_no_py|].
  intros d1 H1. apply (normalize_entries_ok port_ok) in H1 as (_ & _ & N1);
    [|eauto using normalize_port_ok|set_solver].
  apply no_py_bind.
  { eapply normalize_entries_no_py; [eauto using normalize_volume_no_py|]. by rewrite N1. }
  intros d2 _. apply no_py_bind; [|intros _ _; apply no_py_bind; [|intros; apply no_py_ok]].
  - no_py.
  - unfold normalize_service_networks, _normalize_service_networks. no_py.
Qed.

(** on a compose whose entries have the documented scalar types, every refusal is the named
    [ComposeShapeError] that the router turns into a 422; no other exception escapes. *)
Theorem normalize_compose_refuses_named c strict extra e :
  plain_compose c = true → normalize_compose c strict extra = Raise e →
  ∃ service key message got, e = ShapeError service key message got.
Proof.
  intros Hp He. destruct e as [s k m g|x]; [by eauto|exfalso].
  assert (no_py (normalize_compose c strict extra)) as Hn; [|by apply (Hn x)]. clear He.
  unfold normalize_compose. destruct c as [| | | | |d|]; try apply no_py_bad.
  simpl in Hp. apply no_py_bind.
  { unfold _validate_keys. apply no_py_bind; [no_py|intros _ _].
    destruct (get_or_null "services" d); no_py. unfold validate_service_keys. no_py. }
  intros _ _. destruct (get_or_null "services" d) as [| | | | |[|nv services]|]; try apply no_py_bad.
  apply no_py_bind; [no_py|intros _ _].
  apply no_py_bind; [unfold declared_networks; no_py|intros declared _].
  apply no_py_bind; [|intros; apply no_py_ok].
  apply no_py_mapR. intros nv' Hin. apply normalize_service_no_py.
  eapply forallb_forall in Hp; [done|]. by apply list_elem_of_In.
Qed.

(** ** Concrete composes *)
Definition one_service (fields : list (value * value)) : value :=
  VDict [(VStr "services", VDict [(VStr "web", VDict fields)])].

Definition sample_compose : value :=
  one_service [(VStr "image", VStr "nginx");
    (VStr "ports", VList [VStr "127.0.0.1:8080:80/UDP"; VInt 443]);
    (VStr "volumes", VList [VStr "d:/x:ro"]); (VStr "networks", VStr "default")].

Definition sample_normal : value :=
  one_service [(VStr "image", VStr "nginx");
    (VStr "ports", VList
      [VDict [(VStr "target", VStr "80"); (VStr "protocol", VStr "udp")];
       VDict [(VStr "target", VStr "443"); (VStr "protocol", VNull)]]);
    (VStr "volumes", VList
      [VDict [(VStr "source", VStr "d"); (VStr "target", VStr "/x"); (VStr "mode", VStr "ro")]]);
    (VStr "networks", VList [VStr "default"])].

Lemma normalize_compose_contract_witness :
  normalize_compose sample_compose true None = Ok sample_normal ∧
  ∃ d, sample_normal = VDict d ∧ compose_ok d.
Proof.
  split; [by vm_compute|].
  apply (normalize_compose_contract sample_compose true None). by vm_compute.
Defined.

Lemma normalize_compose_containment_witness :
  ∃ s, VStr "image" = VStr s ∧ s ≠ "env_file" ∧
    (s ∈ _BASE_SERVICE_KEYS ∨ s ∈ _MANAGED_SERVICE_KEYS ∨
     (true = false ∧ s ∈ _PRIVILEGED_SERVICE_KEYS) ∨ s ∈ _parse_extra_keys (Some "devices")).
Proof.
  eapply (normalize_compose_containment sample_compose true (Some "devices") sample_normal
    _ _ (VStr "web")); [by vm_compute|reflexivity|reflexivity|apply list_elem_of_here|apply list_elem_of_here].
Defined.

Lemma normalize_compose_idempotent_witness :
  normalize_compose sample_normal true None = Ok sample_normal.
Proof.
  apply (normalize_compose_idempotent sample_compose); by vm_compute.
Defined.

Lemma normalize_compose_refuses_named_witness :
  ∃ service key message got,
    ShapeError (Some "web") (VStr "env_file") ServiceKeyRefused (VStr "env_file") =
    ShapeError service key message got.
Proof.
  apply (normalize_compose_refuses_named
    (one_service [(VStr "env_file", VStr "../other/realm.json")]) true (Some "env_file")); by vm_compute.
Defined.

(** The other mount modes are dropped by a second pass: [":z"] becomes no mode. *)
Example normalize_compose_drops_mode :
  let c := one_service [(VStr "volumes", VList [VStr "d:/x:z"])] in
  ∃ c' c'', normalize_compose c true None = Ok c' ∧
    normalize_compose c' true None = Ok c'' ∧ c'' ≠ c'.
Proof. do 2 eexists. split_and!; [by vm_compute|by vm_compute|]. intros H. vm_compute in H. discriminate H. Qed.

(** A long-syntax mount whose source is an integer is no [ComposeShapeError]. *)
Example normalize_compose_integer_source :
  normalize_compose (one_service [(VStr "volumes", VList
    [VDict [(VStr "source", VInt 5); (VStr "target", VStr "/x")]])]) true None =
  Raise (PyError "AttributeError").
Proof. by vm_compute. Qed.

(** Duplicate ports are compared as texts, so a leading zero hides one. *)
Example normalize_compose_same_port :
  normalize_compose (one_service [(VStr "ports", VList [VStr "80"; VStr "080"])]) true None =
  Ok (one_service [(VStr "ports", VList
    [VDict [(VStr "target", VStr "80"); (VStr "protocol", VNull)];
     VDict [(VStr "target", VStr "080"); (VStr "protocol", VNull)]])]).
Proof. by vm_compute. Qed.
