(* ===== verification/GreffonInfo.v ===== *)
(** [apps/utils/greffon/repository.py]: what one start request deploys
    ([create_greffon_info]) and, from [apps/utils/docker/compose.py], the
    compose template rebuilt from it ([create_compose_template_from_greffon]).

    Python dicts are association lists in insertion order.  The formatting of
    a non-scalar inside an f-string is the argument [format_other]. *)
From Stdlib Require Import Ascii String.
From S2P Require Import Prelude PyValue ComposeShape.
Import Text.
Local Open Scope string_scope.

Definition PROXY_STREAMING_LABEL : string := "com.greffon.proxy.streaming".
Definition _STREAMING_TRUTHY : list string := ["true"; "1"; "yes"; "on"].

(** A file staged into a volume before the first start. *)
Inductive staged_file : Type :=
  | FPath (src dest : string)
  | FContent (content dest : string).

Record mount : Type := { m_path : value; m_mode : value }.

Record volume_info : Type := {
  v_name : value; v_value : string; v_containers : list (string * mount);
  v_files : list staged_file;
}.

Record network_info : Type := { n_value : value; n_containers : list string }.

Record port_info : Type := {
  port_container : string; container_name : string; port_name : string;
  url : value; protocol : value; exposure_tier : value;
  same_port : bool; streaming : bool; port_host : option Z;
}.

Record greffon_info : Type := {
  gi_id : string;
  gi_ports : list port_info;
  gi_volumes : list (value * volume_info);
  gi_networks : list (value * network_info);
  gi_services : list string;
}.

(** The fields of the start request this module reads. *)
Record request : Type := {
  r_id : string; r_certificate : string; r_private_key : string;
  r_ports : list (value * value);
}.

(** [d[k] = v] for a dict with arbitrary keys. *)
Fixpoint assoc_set {A} (k : value) (v : A) (d : list (value * A)) : list (value * A) :=
  match d with
  | [] => [(k, v)]
  | (k', v') :: d => if key_eqb k' k then (k', v) :: d else (k', v') :: assoc_set k v d
  end.

Fixpoint assoc_get {A} (k : value) (d : list (value * A)) : option A :=
  match d with
  | [] => None
  | (k', v) :: d => if key_eqb k' k then Some v else assoc_get k d
  end.

Fixpoint str_set {A} (k : string) (v : A) (d : list (string * A)) : list (string * A) :=
  match d with
  | [] => [(k, v)]
  | (k', v') :: d => if String.eqb k' k then (k', v) :: d else (k', v') :: str_set k v d
  end.

Definition internal_network_id : string := "greffon_internal_network".

Section info.
Context (format_other : value → string).

(** [str(v)] *)
Definition py_str (v : value) : string :=
  match v with
  | VStr s => s
  | VInt z => pretty z
  | VBool true => "True"
  | VBool false => "False"
  | VNull => "None"
  | v => format_other v
  end.

(** [v or {}] *)
Definition or_empty (v : value) : value := if truthy v then v else VDict [].

Definition label_items (l : list value) : list (value * value) :=
  foldl (λ d item,
    match item with
    | VStr s =>
        match partition "=" s with
        | (k, Some v) => dict_set k (VStr v) d
        | (k, None) => dict_set k (VStr "") d
        end
    | _ => d
    end) [] l.

Definition _service_streaming (service : list (value * value)) : bool :=
  let read labels := mem (lower (strip (py_str
    (default (VStr "") (dict_get PROXY_STREAMING_LABEL labels))))) _STREAMING_TRUTHY in
  match or_empty (default (VDict []) (dict_get "labels" service)) with
  | VList l => read (label_items l)
  | VDict d => read d
  | _ => false
  end.

(** [for x in v] over a parsed block: a dict gives its keys, a string its
    characters, and a scalar is not iterable. *)
Definition py_iter (v : value) : result shape_error (list value) :=
  match v with
  | VDict d => mret d.*1
  | VList l => mret l
  | VStr s => mret ((λ c, VStr (String c "")) <$> list_ascii_of_string s)
  | _ => Raise (PyError "TypeError")
  end.

Definition declare_volume (id : string) (vs : list (value * volume_info)) (name : value) :
    result shape_error (list (value * volume_info)) :=
  if hashable name then
    mret (assoc_set name {| v_name := name; v_value := id +:+ "_" +:+ py_str name;
                            v_containers := []; v_files := [] |} vs)
  else Raise (PyError "TypeError").

Definition declare_network (ns : list (value * network_info)) (name : value) :
    result shape_error (list (value * network_info)) :=
  if hashable name then mret (assoc_set name {| n_value := name; n_containers := [] |} ns)
  else Raise (PyError "TypeError").

(** [manager_port.get(k)]: the manager's own description of one port. *)
Definition manager_port (r : request) (name : string) : result shape_error (list (value * value)) :=
  match default (VDict []) (dict_get name (r_ports r)) with
  | VDict d => mret d
  | _ => Raise (PyError "AttributeError")
  end.

Definition or_else (a b : value) : value := if truthy a then a else b.

(** One port entry of a normalized service. *)
Definition add_port (r : request) (name : string) (service : list (value * value))
    (ports : list port_info) (port : value) : result shape_error (list port_info) :=
  match port with
  | VDict d =>
      match dict_get "target" d with
      | Some target =>
          let pname := name +:+ "_" +:+ py_str target in
          mp ← manager_port r pname;
          mret (ports ++ [{|
            port_container := py_str target;
            container_name := name;
            port_name := pname;
            url := get_or_null "url" mp;
            protocol := or_else (get_or_null "protocol" mp)
                          (or_else (get_or_null "protocol" d) (VStr "tcp"));
            exposure_tier := default (VStr "http") (dict_get "exposure_tier" mp);
            same_port := truthy (default (VBool false) (dict_get "same_port" mp));
            streaming := _service_streaming service;
            port_host := None |}])%list
      | None => Raise (PyError "KeyError")
      end
  | _ => Raise (PyError "TypeError")
  end.

(** One mount of a normalized service. *)
Definition add_mount (id name : string) (vs : list (value * volume_info)) (volume : value) :
    result shape_error (list (value * volume_info)) :=
  match volume with
  | VDict d =>
      match dict_get "source" d, dict_get "target" d with
      | Some source, Some target =>
          let m := {| m_path := target; m_mode := get_or_null "mode" d |} in
          if negb (hashable source) then Raise (PyError "TypeError") else
          mret match assoc_get source vs with
          | None =>
              assoc_set source {| v_name := source; v_value := id +:+ "_" +:+ py_str source;
                                  v_containers := [(name, m)]; v_files := [] |} vs
          | Some v =>
              assoc_set source {| v_name := v_name v; v_value := v_value v;
                                  v_containers := str_set name m (v_containers v);
                                  v_files := v_files v |} vs
          end
      | _, _ => Raise (PyError "KeyError")
      end
  | _ => Raise (PyError "TypeError")
  end.

Definition join_network (name : string) (ns : list (value * network_info)) (network : value) :
    result shape_error (list (value * network_info)) :=
  if eq_str network "default" then mret ns
  else match assoc_get network ns with
  | Some n => mret (assoc_set network
      {| n_value := n_value n; n_containers := (n_containers n ++ [name])%list |} ns)
  | None => Raise (PyError "KeyError")
  end.

(** [service.get(k, []) or []] *)
Definition entries (k : string) (service : list (value * value)) : result shape_error (list value) :=
  let v := default (VList []) (dict_get k service) in
  if truthy v then py_iter v else mret [].

Definition add_service (r : request) (info : greffon_info) (nv : value * value) :
    result shape_error greffon_info :=
  match nv with
  | (VStr name, VDict service) =>
      ps ← entries "ports" service;
      ports ← foldR (add_port r name service) (gi_ports info) ps;
      vs ← entries "volumes" service;
      volumes ← foldR (add_mount (gi_id info) name) (gi_volumes info) vs;
      ns ← entries "networks" service;
      networks ← foldR (join_network name) (gi_networks info) ns;
      mret {| gi_id := gi_id info; gi_ports := ports; gi_volumes := volumes;
              gi_networks := networks; gi_services := gi_services info |}
  | _ => Raise (PyError "AttributeError")
  end.

(** The volume the sidecar reads its configuration and key pair from. *)
Definition nginx_volume (greffon_root : string) (r : request) : volume_info := {|
  v_name := VStr "greffon_nginx";
  v_value := r_id r +:+ "_nginx_volume";
  v_containers := [("greffon_nginx", {| m_path := VStr "/etc/nginx/"; m_mode := VNull |})];
  v_files := [FPath (path_join (path_join greffon_root (r_id r)) "nginx.conf") "nginx.conf";
              FContent (r_certificate r) "pem.crt"; FContent (r_private_key r) "cert.key"]
|}.

Definition service_names (services : list (value * value)) : list string :=
  omap (λ kv, match kv.1 with VStr s => Some s | _ => None end) services.

(** The sidecar's own entry, unless the compose already has that key. *)
Definition with_nginx (names : list string) : list string :=
  if mem "greffon_nginx" names then names else (names ++ ["greffon_nginx"])%list.

Definition create_greffon_info (greffon_root : string) (compose : value) (r : request)
    (strict : bool) (extra_keys : option string) : result shape_error (value * greffon_info) :=
  compose' ← normalize_compose compose strict extra_keys;
  match compose' with
  | VDict c =>
      match get_or_null "services" c with
      | VDict services =>
          vnames ← py_iter (default (VList []) (dict_get "volumes" c));
          volumes ← foldR (declare_volume (r_id r))
            [(VStr "greffon_nginx", nginx_volume greffon_root r)] vnames;
          nnames ← py_iter (or_empty (get_or_null "networks" c));
          networks ← foldR declare_network
            [(VStr internal_network_id,
              {| n_value := VStr internal_network_id; n_containers := service_names services |})] nnames;
          info ← foldR (add_service r)
            {| gi_id := r_id r; gi_ports := []; gi_volumes := volumes; gi_networks := networks;
               gi_services := with_nginx (service_names services) |} services;
          mret (compose', info)
      | _ => Raise (PyError "KeyError")
      end
  | _ => Raise (PyError "TypeError")
  end.

(** ** [create_compose_template_from_greffon] *)

(** [{{ports[i].port_host}}] and friends are rendered later; here they are text. *)
Definition port_ref (i : nat) : string := "{{ports[" +:+ pretty i +:+ "].port_host}}".

Definition is_l4 (p : port_info) : bool := eq_str (exposure_tier p) "l4".

Definition indexed {A} (l : list A) : list (nat * A) := zip (seq 0 (length l)) l.

Definition get_nginx_service (info : greffon_info) : list (value * value) :=
  [(VStr "image", VStr "nginx:1.20.2-alpine-perl");
   (VStr "restart", VStr "unless-stopped");
   (VStr "ports", VList (omap (λ ip,
      if is_l4 ip.2 then None
      else Some (VStr (port_ref ip.1 +:+ ":" +:+ port_container ip.2))) (indexed (gi_ports info))));
   (VStr "networks", VList [VStr internal_network_id])].

(** The compose's own mappings are erased; they are derived again below. *)
Definition erase_service (nv : value * value) : value * value :=
  match nv.2 with
  | VDict d =>
      let d := dict_set "networks" (VList []) (dict_set "volumes" (VList [])
                 (dict_set "ports" (VList []) d)) in
      (nv.1, VDict (List.filter (λ kv, negb (eq_str kv.1 "container_name")) d))
  | _ => nv
  end.

(** [service.setdefault(key, []); service[key].append(item)] *)
Definition append_to (key : string) (item : value) (d : list (value * value)) :
    result shape_error (list (value * value)) :=
  match default (VList []) (dict_get key d) with
  | VList l => mret (dict_set key (VList (l ++ [item])%list) d)
  | _ => Raise (PyError "AttributeError")
  end.

(** [services[name]], updated. *)
Definition on_service (name : string)
    (f : list (value * value) → result shape_error (list (value * value)))
    (services : list (value * value)) : result shape_error (list (value * value)) :=
  match dict_get name services with
  | Some (VDict d) => d' ← f d; mret (dict_set name (VDict d') services)
  | Some _ => Raise (PyError "AttributeError")
  | None => Raise (PyError "KeyError")
  end.

Definition l4_mapping (l4_bind_host : string) (i : nat) (p : port_info) : string :=
  let proto_suffix := if eq_str (protocol p) "udp" then "/udp" else "" in
  let container_side :=
    if same_port p then
      if bool_decide (l4_bind_host = "127.0.0.1") then "{{ instance_l4_port }}" else port_ref i
    else port_container p in
  l4_bind_host +:+ ":" +:+ port_ref i +:+ ":" +:+ container_side +:+ proto_suffix.

Definition publish_l4 (l4_bind_host : string) (services : list (value * value))
    (ip : nat * port_info) : result shape_error (list (value * value)) :=
  let '(i, p) := ip in
  if is_l4 p then
    on_service (container_name p) (append_to "ports" (VStr (l4_mapping l4_bind_host i p))) services
  else mret services.

Definition mount_mapping (v : volume_info) (m : mount) : string :=
  let base := v_value v +:+ ":" +:+ py_str (m_path m) in
  if truthy (m_mode m) then base +:+ ":" +:+ py_str (m_mode m) else base.

Definition mount_volume (services : list (value * value)) (kv : value * volume_info) :
    result shape_error (list (value * value)) :=
  foldR (λ services cm,
    on_service cm.1 (append_to "volumes" (VStr (mount_mapping kv.2 cm.2))) services)
    services (v_containers kv.2).

Definition attach_network (services : list (value * value)) (kn : value * network_info) :
    result shape_error (list (value * value)) :=
  foldR (λ services name, on_service name (append_to "networks" (n_value kn.2)) services)
    services (n_containers kn.2).

Definition volumes_block (info : greffon_info) : list (value * value) :=
  foldl (λ d kv, dict_set (v_value kv.2) (VDict [(VStr "name", VStr (v_value kv.2))]) d)
    [] (gi_volumes info).

Definition networks_block (info : greffon_info) : list (value * value) :=
  foldl (λ d kn, assoc_set (n_value kn.2) (VDict []) d) [] (gi_networks info).

Definition create_compose_template_from_greffon (l4_bind_host : string) (compose : value)
    (info : greffon_info) : result shape_error value :=
  match compose with
  | VDict c =>
      match get_or_null "services" c with
      | VDict services =>
          let s0 := dict_set "greffon_nginx" (VDict (get_nginx_service info))
                      (erase_service <$> services) in
          s1 ← foldR (publish_l4 l4_bind_host) s0 (indexed (gi_ports info));
          s2 ← foldR mount_volume s1 (gi_volumes info);
          s3 ← foldR attach_network s2 (gi_networks info);
          mret (VDict (dict_set "services" (VDict s3)
                 (dict_set "networks" (VDict (networks_block info))
                    (dict_set "volumes" (VDict (volumes_block info)) c))))
      | _ => Raise (PyError "KeyError")
      end
  | _ => Raise (PyError "TypeError")
  end.
End info.

(** ** Namespaced volumes *)
Definition namespaced (id s : string) : Prop := ∃ rest, s = id +:+ "_" +:+ rest.

Definition volumes_namespaced (id : string) (vs : list (value * volume_info)) : Prop :=
  Forall (λ kv, namespaced id (v_value kv.2)) vs.

Lemma assoc_set_Forall {A} (P : value * A → Prop) k v d :
  Forall P d → (∀ k', P (k', v)) → Forall P (assoc_set k v d).
Proof.
  intros Hd Hv. induction Hd as [|[j w] d Hj Hd IH]; simpl; [by repeat constructor|].
  destruct (key_eqb j k); by constructor.
Qed.

Lemma assoc_get_elem {A} k (d : list (value * A)) v :
  assoc_get k d = Some v → ∃ k', (k', v) ∈ d.
Proof.
  induction d as [|[j w] d IH]; simpl; [done|]. destruct (key_eqb j k).
  - intros [= ->]. exists j. left.
  - intros [k' ?]%IH. exists k'. by right.
Qed.

Section lemmas.
Context (format_other : value → string).
Notation add_mount := (add_mount format_other).
Notation add_port := (add_port format_other).
Notation add_service := (add_service format_other).
Notation create_greffon_info := (create_greffon_info format_other).

Lemma declare_volume_namespaced id vs name vs' :
  volumes_namespaced id vs → declare_volume format_other id vs name = Ok vs' →
  volumes_namespaced id vs'.
Proof.
  unfold declare_volume. intros Hv. destruct (hashable name); [|done]. intros [= <-].
  apply assoc_set_Forall; [done|]. intros k0. by eexists.
Qed.

Lemma add_mount_namespaced id name vs volume vs' :
  volumes_namespaced id vs → add_mount id name vs volume = Ok vs' → volumes_namespaced id vs'.
Proof.
  unfold GreffonInfo.add_mount. intros Hv. destruct volume as [| | | | |d|]; try done.
  destruct (dict_get "source" d) as [source|]; [|done].
  destruct (dict_get "target" d) as [target|]; [|done].
  destruct (negb (hashable source)); [done|]. intros [= <-].
  destruct (assoc_get source vs) as [v|] eqn:Hg.
  - apply assoc_set_Forall; [done|]. intros k0. apply assoc_get_elem in Hg as [k' Hk'].
    unfold volumes_namespaced in Hv. rewrite Forall_forall in Hv. apply (Hv _ Hk').
  - apply assoc_set_Forall; [done|]. intros k0. by eexists.
Qed.

Lemma add_service_inv r info nv info' :
  add_service r info nv = Ok info' → ∃ name service ps vs ns,
    nv = (VStr name, VDict service) ∧ entries "ports" service = Ok ps ∧
    entries "volumes" service = Ok vs ∧ entries "networks" service = Ok ns ∧
    gi_id info' = gi_id info ∧ gi_services info' = gi_services info ∧
    foldR (add_port r name service) (gi_ports info) ps = Ok (gi_ports info') ∧
    foldR (add_mount (gi_id info) name) (gi_volumes info) vs = Ok (gi_volumes info') ∧
    foldR (join_network name) (gi_networks info) ns = Ok (gi_networks info').
Proof.
  unfold GreffonInfo.add_service. destruct nv as [[] []]; try done.
  intros (ps & ? & H)%bindR_ok. apply bindR_ok in H as (ports & ? & H).
  apply bindR_ok in H as (vs & ? & H). apply bindR_ok in H as (vols & ? & H).
  apply bindR_ok in H as (ns & ? & H). apply bindR_ok in H as (nets & ? & [= <-]).
  do 5 eexists. split_and!; eauto.
Qed.

(** What [create_greffon_info] computed, step by step. *)
Lemma create_greffon_info_inv root compose r strict extra c info :
  create_greffon_info root compose r strict extra = Ok (c, info) → ∃ d services vnames vs ns,
    normalize_compose compose strict extra = Ok c ∧ c = VDict d ∧
    dict_get "services" d = Some (VDict services) ∧
    foldR (declare_volume format_other (r_id r))
      [(VStr "greffon_nginx", nginx_volume root r)] vnames = Ok vs ∧
    foldR (add_service r)
      {| gi_id := r_id r; gi_ports := []; gi_volumes := vs; gi_networks := ns;
         gi_services := with_nginx (service_names services) |} services = Ok info.
Proof.
  unfold GreffonInfo.create_greffon_info. intros (c' & Hc & H)%bindR_ok.
  destruct c' as [| | | | |d|]; try done.
  destruct (get_or_null "services" d) as [| | | | |services|] eqn:Hs; try done.
  apply bindR_ok in H as (vnames & _ & H). apply bindR_ok in H as (vs & Hvs & H).
  apply bindR_ok in H as (nnames & _ & H). apply bindR_ok in H as (ns & _ & H).
  apply bindR_ok in H as (info' & Hinfo & [= <- <-]).
  exists d, services, vnames, vs, ns. split_and!; auto. by apply get_or_null_some in Hs.
Qed.

Lemma create_greffon_info_namespaced root compose r strict extra c info :
  create_greffon_info root compose r strict extra = Ok (c, info) →
  gi_id info = r_id r ∧ volumes_namespaced (r_id r) (gi_volumes info).
Proof.
  intros (d & services & vnames & vs & ns & _ & _ & _ & Hvs & Hinfo)%create_greffon_info_inv.
  eapply (foldR_inv (λ i, gi_id i = r_id r ∧ volumes_namespaced (r_id r) (gi_volumes i)));
    [|  |exact Hinfo].
  - intros i nv i' _ [Hid Hv] (name & service & ps & vols & nets & _ & _ & _ & _ & Hid' & _ & _ & Hf & _)
      %add_service_inv.
    split; [congruence|]. rewrite Hid in Hf.
    eapply foldR_inv; [|exact Hv|exact Hf]. intros; by eapply add_mount_namespaced.
  - split; [done|]. eapply foldR_inv; [| |exact Hvs].
    + intros; by eapply declare_volume_namespaced.
    + repeat constructor. simpl. by eexists.
Qed.

(** instances are isolated in storage: two start requests whose ids have the same length (the
    manager's UUIDs) and differ never name a common docker volume, whatever composes they carry. *)
Theorem create_greffon_info_isolated root1 root2 c1 c2 r1 r2 s1 s2 e1 e2 o1 o2 info1 info2 :
  create_greffon_info root1 c1 r1 s1 e1 = Ok (o1, info1) →
  create_greffon_info root2 c2 r2 s2 e2 = Ok (o2, info2) →
  String.length (r_id r1) = String.length (r_id r2) → r_id r1 ≠ r_id r2 →
  ∀ kv1 kv2, kv1 ∈ gi_volumes info1 → kv2 ∈ gi_volumes info2 → v_value kv1.2 ≠ v_value kv2.2.
Proof.
  intros [_ H1]%create_greffon_info_namespaced [_ H2]%create_greffon_info_namespaced Hl Hne kv1 kv2 Hin1 Hin2 Heq.
  unfold volumes_namespaced in H1, H2. rewrite Forall_forall in H1, H2.
  destruct (H1 _ Hin1) as [rest1 E1]. destruct (H2 _ Hin2) as [rest2 E2].
  rewrite E1, E2 in Heq. by apply append_length_inj in Heq as [? _].
Qed.

(** ** Port names *)
Lemma port_name_inj n1 n2 t1 t2 :
  isdigit t1 = true → isdigit t2 = true →
  n1 +:+ "_" +:+ t1 = n2 +:+ "_" +:+ t2 → n1 = n2 ∧ t1 = t2.
Proof.
  intros H1%isdigit_no_underscore H2%isdigit_no_underscore Heq.
  apply (rpartition_append _ n1) in H1. apply (rpartition_append _ n2) in H2.
  assert (∀ n t, n +:+ "_" +:+ t = n +:+ String "_" t) as Hs by done.
  rewrite <-!Hs in H1, H2. rewrite Heq, H2 in H1. by injection H1 as -> ->.
Qed.

Lemma add_port_names r name service ports port ports' :
  port_ok port → add_port r name service ports port = Ok ports' →
  ∃ t p, port_target port = VStr t ∧ isdigit t = true ∧ ports' = (ports ++ [p])%list ∧
    port_name p = name +:+ "_" +:+ t ∧ container_name p = name.
Proof.
  intros (t & proto & -> & Ht & _). unfold GreffonInfo.add_port. simpl.
  intros (mp & _ & [= <-])%bindR_ok. do 2 eexists. split_and!; done.
Qed.

Lemma add_ports_names r name service ps ports ports' :
  Forall port_ok ps → foldR (add_port r name service) ports ps = Ok ports' →
  ∃ new, ports' = (ports ++ new)%list ∧ Forall (λ p, container_name p = name) new ∧
    Forall2 (λ e p, ∃ t, port_target e = VStr t ∧ isdigit t = true ∧
                         port_name p = name +:+ "_" +:+ t) ps new.
Proof.
  intros Hps. revert ports. induction Hps as [|e ps He Hps IH]; intros ports; simpl.
  { intros [= <-]. exists []. rewrite app_nil_r. by repeat constructor. }
  intros (ports1 & H1 & H)%bindR_ok.
  apply add_port_names in H1 as (t & p & ? & ? & -> & ? & ?); [|done].
  destruct (IH _ H) as (new & -> & ? & ?). exists (p :: new). rewrite <-app_assoc.
  split_and!; [done|by constructor|]. constructor; eauto.
Qed.

Lemma entries_list k service l ps :
  get_or_null k service = VNull ∨ get_or_null k service = VList l →
  entries k service = Ok ps → ps = [] ∨ get_or_null k service = VList ps.
Proof.
  unfold entries, get_or_null. destruct (dict_get k service) as [v|]; simpl.
  - intros [->|Hv]; [intros [= <-]; by left|]. rewrite Hv. simpl. destruct l; intros [= <-]; auto.
  - intros [?|[=]] [= <-]. by left.
Qed.

(** The names one service adds: its own, pairwise distinct. *)
Definition fresh_names (name : string) (new : list port_info) : Prop :=
  NoDup (port_name <$> new) ∧
  Forall (λ p, container_name p = name ∧
               ∃ t, isdigit t = true ∧ port_name p = name +:+ "_" +:+ t) new.

Lemma add_service_names declared r info nv info' :
  service_ok declared nv → add_service r info nv = Ok info' →
  ∃ name new, nv.1 = VStr name ∧ gi_ports info' = (gi_ports info ++ new)%list ∧ fresh_names name new.
Proof.
  intros (name & d & -> & _ & Hp & Hnd & _)
    (name' & d' & ps & vs & ns & [= <- <-] & Hps & _ & _ & _ & _ & Hf & _)%add_service_inv.
  exists name. assert (Forall port_ok ps ∧ NoDup (port_target <$> ps)) as [Hok Hn].
  { destruct Hp as [Hp|(l & Hp & Hl)].
    - apply (entries_list _ _ []) in Hps; [|by left]. rewrite Hp in Hps.
      destruct Hps as [->|[=]]. split; constructor.
    - apply (entries_list _ _ l) in Hps; [|by right]. destruct Hps as [->|Hps]; [split; constructor|].
      rewrite Hp in Hps. injection Hps as ->. auto. }
  apply add_ports_names in Hf as (new & -> & Hc & H2); [|done]. exists new. split_and!; [done..|].
  split.
  - clear -Hn H2. induction H2 as [|e p ps new (t & Ht & Hd & He) H2 IH]; [constructor|].
    rewrite fmap_cons in *. apply NoDup_cons in Hn as [Hni Hn]. constructor; [|by apply IH].
    intros (p' & Heq & Hp')%list_elem_of_fmap.
    apply list_elem_of_lookup in Hp' as [i Hi].
    destruct (Forall2_lookup_r _ _ _ _ _ H2 Hi) as (e' & He' & t' & Ht' & Hd' & Hn').
    rewrite He, Hn' in Heq. apply port_name_inj in Heq as [_ ->]; [|done..].
    apply Hni, list_elem_of_fmap. exists e'. rewrite Ht, Ht'. split; [done|].
    by apply list_elem_of_lookup_2 in He'.
  - apply Forall_and. split; [done|]. clear -H2.
    induction H2 as [|e p ps new (t & Ht & Hd & He) H2 IH]; constructor; eauto.
Qed.

Lemma add_services_names declared r services info info' seen :
  Forall (service_ok declared) services → foldR (add_service r) info services = Ok info' →
  NoDup (seen ++ services.*1) →
  NoDup (port_name <$> gi_ports info) →
  Forall (λ p, VStr (container_name p) ∈ seen ∧
    ∃ t, isdigit t = true ∧ port_name p = container_name p +:+ "_" +:+ t) (gi_ports info) →
  NoDup (port_name <$> gi_ports info').
Proof.
  intros Hs. revert info seen. induction Hs as [|nv services Hnv Hs IH]; intros info seen; cbn [foldR].
  { by intros [= ->]. }
  intros (info1 & H1 & H)%bindR_ok Hnd Hn Hp.
  apply (add_service_names declared) in H1 as (name & new & Hname & Hports & Hfn & Hfp); [|done].
  rewrite fmap_cons in Hnd.
  apply (IH info1 (seen ++ [nv.1])%list); [done|by rewrite <-app_assoc| |]; rewrite Hports.
  - rewrite fmap_app. apply NoDup_app. split_and!; [done| |done].
    intros x (p & -> & Hin)%list_elem_of_fmap (p' & Heq & Hin')%list_elem_of_fmap.
    rewrite Forall_forall in Hp, Hfp. destruct (Hp _ Hin) as [Hseen (t & Ht & Ep)].
    destruct (Hfp _ Hin') as [Hc (t' & Ht' & Ep')].
    rewrite Ep, Ep' in Heq. apply port_name_inj in Heq as [Heq _]; [|done..].
    apply NoDup_app in Hnd as (_ & Hnd & _). apply (Hnd _ Hseen). rewrite Heq, <-Hname. left.
  - apply Forall_app. split.
    + eapply Forall_impl; [exact Hp|]. intros p [? ?]. split; [by apply elem_of_app; left|done].
    + eapply Forall_impl; [exact Hfp|]. intros p [-> (t & ? & ?)]. split; [|by exists t].
      rewrite <-Hname. apply elem_of_app. right. left.
Qed.

(** no two ports of a deployed instance share a name, so the per-port records of the manager,
    the sticky-port sidecar and the nginx upstreams never conflate two of them. *)
Theorem create_greffon_info_port_names root compose r strict extra d info :
  create_greffon_info root compose r strict extra = Ok (VDict d, info) →
  (∀ services, dict_get "services" d = Some (VDict services) → NoDup services.*1) →
  NoDup (port_name <$> gi_ports info).
Proof.
  intros (d' & services & vnames & vs & ns & Hc & [= ->] & Hs & _ & Hinfo)%create_greffon_info_inv Hnd.
  apply normalize_compose_inv in Hc as (d0 & srv & declared & services' & _ & [= ->] & _ & _ & _ & _ & _ & Hf).
  rewrite dict_get_set_eq in Hs. injection Hs as ->.
  apply normalize_services_ok in Hf as [Hok _].
  eapply (add_services_names declared _ services _ _ []); [done|exact Hinfo| | |].
  - simpl. apply Hnd. by rewrite dict_get_set_eq.
  - constructor.
  - constructor.
Qed.

(** ** The rendered template *)
Definition services_all (P : string → list (value * value) → Prop)
    (services : list (value * value)) : Prop :=
  Forall (λ nv, ∀ n d, nv = (VStr n, VDict d) → P n d) services.

Lemma services_all_get P services n d :
  services_all P services → dict_get n services = Some (VDict d) → P n d.
Proof.
  intros Hs Hg%dict_get_elem. unfold services_all in Hs. rewrite Forall_forall in Hs. by apply (Hs _ Hg).
Qed.

Lemma services_all_set P services n d :
  services_all P services → P n d → services_all P (dict_set n (VDict d) services).
Proof.
  intros Hs Hd. apply dict_set_Forall; [done|]. intros k' ->%eq_str_true n' d' [= <- <-]. done.
Qed.

Lemma on_service_all P n f services services' :
  services_all P services → (∀ d d', P n d → f d = Ok d' → P n d') →
  on_service n f services = Ok services' → services_all P services'.
Proof.
  unfold on_service. intros Hs Hf. destruct (dict_get n services) as [[| | | | |d|]|] eqn:Hg; try done.
  intros (d' & Hd' & [= <-])%bindR_ok. apply services_all_set; [done|].
  eapply Hf; [|done]. by eapply services_all_get.
Qed.

(** The items of one list field of a service, each satisfying [P]. *)
Definition field_ok (k : string) (P : value → Prop) (d : list (value * value)) : Prop :=
  ∀ v, dict_get k d = Some v → ∃ l, v = VList l ∧ Forall P l.

Lemma append_to_field k P item d d' :
  field_ok k P d → P item → append_to k item d = Ok d' → field_ok k P d'.
Proof.
  unfold append_to, field_ok. intros Hd Hi. destruct (dict_get k d) as [v|]; simpl.
  - destruct (Hd v) as (l & -> & Hl); [done|]. intros [= <-] v. rewrite dict_get_set_eq.
    intros [= <-]. eexists; split; [done|]. apply Forall_app. auto.
  - intros [= <-] v. rewrite dict_get_set_eq. intros [= <-]. eexists; split; [done|]. by repeat constructor.
Qed.

Lemma append_to_other k k' P item d d' :
  k' ≠ k → field_ok k P d → append_to k' item d = Ok d' → field_ok k P d'.
Proof.
  unfold append_to. intros Hne Hd. destruct (default _ _); try done. intros [= <-] v.
  rewrite dict_get_set_ne by done. apply Hd.
Qed.

(** What a rendered service may mount: a volume of the instance the service was
    recorded for, under its docker name, at the path and in the mode recorded. *)
Definition own_mount (info : greffon_info) (n : string) (m : value) : Prop :=
  ∃ kv mt key, kv ∈ gi_volumes info ∧ (n, mt) ∈ v_containers kv.2 ∧
    v_value kv.2 = gi_id info +:+ "_" +:+ key ∧
    let path := py_str format_other (m_path mt) in
    m = VStr (gi_id info +:+ "_" +:+ key +:+ ":" +:+
              (if truthy (m_mode mt) then path +:+ ":" +:+ py_str format_other (m_mode mt) else path)).

(** What it may publish: an L4 port of its own on the bind host and, for the sidecar,
    the container port of an entry that is not L4. *)
Definition own_port (bind : string) (info : greffon_info) (n : string) (m : value) : Prop :=
  ∃ i p, gi_ports info !! i = Some p ∧
    (is_l4 p = true ∧ container_name p = n ∧ m = VStr (l4_mapping bind i p) ∨
     is_l4 p = false ∧ n = "greffon_nginx" ∧ m = VStr (port_ref i +:+ ":" +:+ port_container p)).

Definition service_contained (bind : string) (info : greffon_info) (n : string)
    (d : list (value * value)) : Prop :=
  field_ok "volumes" (own_mount info n) d ∧ field_ok "ports" (own_port bind info n) d.

Lemma elem_of_indexed {A} (l : list A) i x : (i, x) ∈ indexed l → l !! i = Some x.
Proof.
  unfold indexed. intros [j Hj]%list_elem_of_lookup.
  apply lookup_zip_with_Some in Hj as (a & b & [= -> ->] & Ha & Hb).
  apply lookup_seq in Ha as [-> _]. done.
Qed.

Lemma nginx_ports bind info : field_ok "ports" (own_port bind info "greffon_nginx") (get_nginx_service info).
Proof.
  intros v [= <-]. eexists. split; [done|]. apply Forall_forall. intros m ([i p] & Hip & Hm)%list_elem_of_omap.
  apply elem_of_indexed in Hip. cbn in Hm. destruct (is_l4 p) eqn:Hl4; [done|]. injection Hm as <-.
  exists i, p. split; [done|]. by right.
Qed.

Lemma filter_dict_get f d k v :
  dict_get k (List.filter f d) = Some v → (∀ j w, eq_str j k = true → f (j, w) = true) →
  dict_get k d = Some v.
Proof.
  intros Hg Hf. induction d as [|[j w] d IH]; simpl in *; [done|].
  destruct (eq_str j k) eqn:Hj.
  - rewrite (Hf j w Hj) in Hg. simpl in Hg. by rewrite Hj in Hg.
  - destruct (f (j, w)); simpl in Hg; [rewrite Hj in Hg|]; auto.
Qed.

Lemma erased_field k P d :
  k ∈ _MANAGED_SERVICE_KEYS →
  field_ok k P (List.filter (λ kv, negb (eq_str kv.1 "container_name"))
    (dict_set "networks" (VList []) (dict_set "volumes" (VList []) (dict_set "ports" (VList []) d)))).
Proof.
  intros Hk v Hg. apply filter_dict_get in Hg.
  - unfold _MANAGED_SERVICE_KEYS in Hk. exists []. split; [|constructor].
    rewrite !elem_of_cons, elem_of_nil in Hk. destruct Hk as [->|[->|[->|[]]]].
    + rewrite !dict_get_set_ne, dict_get_set_eq in Hg by done. by injection Hg.
    + rewrite dict_get_set_ne, dict_get_set_eq in Hg by done. by injection Hg.
    + rewrite dict_get_set_eq in Hg. by injection Hg.
  - intros j w ->%eq_str_true. simpl. unfold _MANAGED_SERVICE_KEYS in Hk.
    rewrite !elem_of_cons, elem_of_nil in Hk. by destruct Hk as [->|[->|[->|[]]]].
Qed.

Lemma erased_contained bind info services :
  services_all (service_contained bind info)
    (dict_set "greffon_nginx" (VDict (get_nginx_service info)) (erase_service <$> services)).
Proof.
  apply services_all_set.
  - apply Forall_fmap, Forall_forall. intros [n v] _ n' d' Heq.
    unfold compose, erase_service in Heq. cbn [fst snd] in Heq.
    assert (v = VDict d' ∧ n = VStr n' ∧ ¬ is_dict v = true ∨ ∃ d, v = VDict d ∧
      d' = List.filter (λ kv, negb (eq_str kv.1 "container_name"))
      (dict_set "networks" (VList []) (dict_set "volumes" (VList []) (dict_set "ports" (VList []) d))))
      as [(-> & _ & Hn)|(d & _ & ->)].
    { destruct v as [| | | | |d|]; injection Heq as ? ?; subst; eauto; left; by auto. }
    + by destruct Hn.
    + split; apply erased_field; unfold _MANAGED_SERVICE_KEYS; set_solver.
  - split; [|apply nginx_ports]. intros v Hv. discriminate Hv.
Qed.

Lemma publish_l4_contained bind info services i p services' :
  gi_ports info !! i = Some p → services_all (service_contained bind info) services →
  publish_l4 bind services (i, p) = Ok services' →
  services_all (service_contained bind info) services'.
Proof.
  intros Hi Hs. unfold publish_l4. destruct (is_l4 p) eqn:Hl4; [|by intros [= <-]].
  intros Hf. eapply on_service_all; [exact Hs| |exact Hf]. intros d d' [Hv Hp] Ha. split.
  - by eapply append_to_other; [|exact Hv|exact Ha].
  - eapply append_to_field; [exact Hp| |exact Ha]. exists i, p. split; [done|]. by left.
Qed.

Lemma mount_volume_contained bind info services kv services' :
  kv ∈ gi_volumes info → namespaced (gi_id info) (v_value kv.2) → services_all (service_contained bind info) services →
  mount_volume format_other services kv = Ok services' →
  services_all (service_contained bind info) services'.
Proof.
  intros Hkv [key Hns] Hs. unfold mount_volume. apply foldR_inv; [|done].
  clear services Hs services'. intros services [n mt] services' Hcm Hs Hf.
  eapply on_service_all; [exact Hs| |exact Hf]. intros d d' [Hv Hp] Ha. split.
  - eapply append_to_field; [exact Hv| |exact Ha]. exists kv, mt, key. split_and!; [done..|].
    cbv zeta. unfold mount_mapping. rewrite Hns. cbn [snd]. by destruct (truthy _); rewrite !append_assoc_str.
  - by eapply append_to_other; [|exact Hp|exact Ha].
Qed.

Lemma attach_network_contained bind info services kn services' :
  services_all (service_contained bind info) services →
  attach_network services kn = Ok services' →
  services_all (service_contained bind info) services'.
Proof.
  intros Hs. unfold attach_network. apply foldR_inv; [|done].
  clear services Hs services'. intros services n services' _ Hs.
  apply on_service_all; [done|]. intros d d' [Hv Hp] Ha.
  split; by eapply append_to_other; [|done|exact Ha].
Qed.

(** Neither id, with its underscore, continues the other. *)
Definition ids_apart (id id' : string) : Prop :=
  startswith (id +:+ "_") (id' +:+ "_") = false ∧ startswith (id' +:+ "_") (id +:+ "_") = false.

Lemma startswith_comparable a b v :
  startswith a v = true → startswith b v = true → startswith a b = true ∨ startswith b a = true.
Proof.
  revert b v. induction a as [|c a IH]; intros [|d b] v; cbn [startswith]; auto.
  destruct v as [|x v]; [done|]. intros [->%Ascii.eqb_eq Ha]%andb_prop [->%Ascii.eqb_eq Hb]%andb_prop.
  rewrite !Ascii.eqb_refl. by apply (IH b v).
Qed.

Lemma apart_prefix id id' v : ids_apart id id' → startswith (id +:+ "_") v = true → startswith (id' +:+ "_") v = false.
Proof.
  intros [H1 H2] Hv. apply not_true_is_false. intros Hv'. destruct (startswith_comparable _ _ _ Hv Hv'); congruence.
Qed.

Lemma startswith_self (p s : string) : startswith p (p +:+ s) = true.
Proof.
  induction p as [|c p IH]; [by destruct s|]. change (String c p +:+ s) with (String c (p +:+ s)).
  cbn [startswith]. by rewrite Ascii.eqb_refl.
Qed.

Lemma own_mount_prefix info n s : own_mount info n (VStr s) → startswith (gi_id info +:+ "_") s = true.
Proof. intros (kv & mt & key & _ & _ & _ & [= ->]). rewrite <- append_assoc_str. apply startswith_self. Qed.

(** C33: containment of the deployed compose: whatever the source compose declared, each
    service of the template, the sidecar included, mounts only volumes recorded for it
    under docker names made of the instance's id, an underscore and a name, and
    publishes only its own L4 ports on the bind host and, from the sidecar, the
    container ports of the entries that are not L4; no host path and no other mapping
    survives the rebuild. So it mounts no volume of an instance whose id neither
    continues this one after an underscore nor is so continued. Ids may hold
    underscores: a volume [abc_data] of [x] is a volume [data] of [x_abc]
    ([neighbours_volume]). *)
Theorem template_contained root compose r strict extra c info bind t services n d :
  create_greffon_info root compose r strict extra = Ok (c, info) →
  create_compose_template_from_greffon format_other bind c info = Ok (VDict t) →
  dict_get "services" t = Some (VDict services) → dict_get n services = Some (VDict d) →
  gi_id info = r_id r ∧ service_contained bind info n d ∧
  ∀ id' l m, ids_apart (r_id r) id' → dict_get "volumes" d = Some (VList l) → VStr m ∈ l →
    startswith (id' +:+ "_") m = false.
Proof.
  intros [Hid Hns]%create_greffon_info_namespaced Ht Hsv Hd. split; [done|].
  assert (service_contained bind info n d) as Hc.
  2: { split; [done|]. intros id' l m Ha Hl Hm. destruct Hc as [Hv _]. destruct (Hv _ Hl) as (l' & [= <-] & Hall).
       rewrite Forall_forall in Hall. apply Hall, own_mount_prefix in Hm. rewrite Hid in Hm. by eapply apart_prefix. }
  revert Ht Hsv Hd.
  unfold create_compose_template_from_greffon. destruct c as [| | | | |c|]; try done.
  destruct (get_or_null "services" c) as [| | | | |srv|]; try done.
  intros (s1 & H1 & H)%bindR_ok. apply bindR_ok in H as (s2 & H2 & H).
  apply bindR_ok in H as (s3 & H3 & [= <-]). rewrite dict_get_set_eq. intros [= <-].
  apply services_all_get.
  eapply foldR_inv; [|  |exact H3]; [intros; by eapply attach_network_contained|].
  eapply foldR_inv; [|  |exact H2].
  { intros s kv s' Hin Hs. apply mount_volume_contained; [done| |done]. rewrite Hid.
    unfold volumes_namespaced in Hns. rewrite Forall_forall in Hns. by apply Hns. }
  eapply foldR_inv; [| apply erased_contained |exact H1].
  intros s [i p] s' Hin Hs. apply publish_l4_contained; [|done]. by apply elem_of_indexed.
Qed.
End lemmas.

(** ** Concrete requests *)
Definition no_format : value → string := λ _, "?".

Definition sample_request (id : string) : request :=
  {| r_id := id; r_certificate := "cert"; r_private_key := "key";
     r_ports := [(VStr "web_443", VDict [(VStr "exposure_tier", VStr "l4")])] |}.

Definition sample_info (id : string) : greffon_info :=
  match create_greffon_info no_format "/data" sample_compose (sample_request id) true None with
  | Ok (_, info) => info
  | Raise _ => {| gi_id := ""; gi_ports := []; gi_volumes := []; gi_networks := []; gi_services := [] |}
  end.

Definition sample_template : list (value * value) :=
  match create_compose_template_from_greffon no_format "0.0.0.0" sample_normal (sample_info "i-1") with
  | Ok (VDict t) => t
  | _ => []
  end.

Lemma create_greffon_info_isolated_witness :
  Forall (λ kv1, Forall (λ kv2, v_value kv1.2 ≠ v_value kv2.2) (gi_volumes (sample_info "i-2")))
    (gi_volumes (sample_info "i-1")).
Proof.
  apply Forall_forall. intros kv1 H1. apply Forall_forall. intros kv2 H2. revert kv1 kv2 H1 H2.
  apply (create_greffon_info_isolated no_format "/data" "/data" sample_compose sample_compose
    (sample_request "i-1") (sample_request "i-2") true true None None sample_normal sample_normal);
    [by vm_compute..|done].
Defined.

Lemma create_greffon_info_port_names_witness : NoDup (port_name <$> gi_ports (sample_info "i-1")).
Proof.
  eapply (create_greffon_info_port_names no_format "/data" sample_compose (sample_request "i-1") true None).
  - vm_compute. reflexivity.
  - intros services Hs. vm_compute in Hs. injection Hs as <-. apply NoDup_singleton.
Defined.

Lemma template_contained_witness :
  ∃ d, dict_get "web" (match get_or_null "services" sample_template with VDict s => s | _ => [] end)
         = Some (VDict d) ∧ service_contained no_format "0.0.0.0" (sample_info "i-1") "web" d ∧
       ∀ l m, dict_get "volumes" d = Some (VList l) → VStr m ∈ l → startswith "i-12_" m = false.
Proof.
  eexists. split; [vm_compute; reflexivity|].
  match goal with |- service_contained _ _ _ _ ?d ∧ _ =>
    destruct (template_contained no_format "/data" sample_compose (sample_request "i-1") true None
      sample_normal (sample_info "i-1") "0.0.0.0" sample_template _ "web" d eq_refl eq_refl eq_refl eq_refl) as (_ & Hc & Ha)
  end.
  split; [exact Hc|]. intros l m. apply (Ha "i-12"). by split.
Defined.

(** Two ids of which one continues the other after an underscore share docker names. *)
Example neighbours_volume :
  let names id name := match create_greffon_info no_format "/data"
    (one_service [(VStr "volumes", VList [VStr (name +:+ ":/d")])]) (sample_request id) true None with
    | Ok (_, info) => v_value <$> assoc_get (VStr name) (gi_volumes info)
    | Raise _ => None
    end in
  names "x" "abc_data" = Some "x_abc_data" ∧ names "x_abc" "data" = Some "x_abc_data".
Proof. by vm_compute. Qed.

(** A volume the compose names [nginx_volume] is the sidecar's own volume, key pair included. *)
Example nginx_volume_shared :
  match create_greffon_info no_format "/data"
    (one_service [(VStr "volumes", VList [VStr "nginx_volume:/steal"])]) (sample_request "i-1") true None with
  | Ok (_, info) =>
      v_value <$> assoc_get (VStr "nginx_volume") (gi_volumes info) =
      v_value <$> assoc_get (VStr "greffon_nginx") (gi_volumes info)
  | Raise _ => False
  end.
Proof. by vm_compute. Qed.

(** One volume mounted twice by a service keeps only its last mount point. *)
Example second_mount_lost :
  match create_greffon_info no_format "/data"
    (one_service [(VStr "volumes", VList [VStr "d:/a"; VStr "d:/b"])]) (sample_request "i-1") true None with
  | Ok (_, info) =>
      v_containers <$> assoc_get (VStr "d") (gi_volumes info) =
      Some [("web", {| m_path := VStr "/b"; m_mode := VNull |})]
  | Raise _ => False
  end.
Proof. by vm_compute. Qed.

(** An empty top-level [volumes:] key is no mapping and raises [TypeError]. *)
Example null_volumes_block :
  create_greffon_info no_format "/data"
    (VDict [(VStr "services", VDict [(VStr "web", VDict [])]); (VStr "volumes", VNull)])
    (sample_request "i-1") true None = Raise (PyError "TypeError").
Proof. by vm_compute. Qed.
