(* ===== verification/L4Ports.v ===== *)
(** [apps/utils/docker/l4_ports.py], [apps/utils/greffon/sticky_ports.py] and
    the port half of [get_greffon_info] in [apps/utils/greffon/repository.py]:
    how the L4 host ports of an instance are chosen.

    [published_l4_ports] reads a listing of the docker daemon, which is an
    input; the process-wide [_pending] table and the sidecar files are the
    state.  Every allocation runs under [allocation_lock], so a run of the
    process is a sequence of whole allocations ([sys_step]); the clock is in
    milliseconds. *)
From stdpp Require Import fin_sets.
From Stdlib Require Import Ascii String.
From S2P Require Import Prelude PyValue ComposeShape GreffonInfo.
Import Text.
Local Open Scope string_scope.

(** ** The daemon's view *)
Record port_spec : Type := { public_port : option Z; spec_type : option string }.

(** One row of [/containers/json]; [None] is an entry that is not a dict. *)
Record container : Type := { c_project : option string; c_ports : list (option port_spec) }.

Inductive alloc_error : Type :=
  | L4PortsUnavailable
  | L4SamePortConflict (name : string) (port : Z)
  | L4PortRangeExhausted (range_start range_end : Z)
  | OverflowError.

Notation ports_map := (gmap string (gset Z)).

Definition ports_of (proto : string) (m : ports_map) : gset Z := default ∅ (m !! proto).

(** [m.setdefault(proto, set()).add(port)] *)
Definition add_port_to (proto : string) (port : Z) (m : ports_map) : ports_map :=
  <[proto := {[port]} ∪ ports_of proto m]> m.

(** [(spec.get("Type") or "tcp").lower()] *)
Definition spec_proto (spec : port_spec) : string :=
  lower (match spec_type spec with
         | Some t => if bool_decide (t = "") then "tcp" else t
         | None => "tcp"
         end).

Definition add_spec (range_start range_end : Z) (m : ports_map) (spec : option port_spec) : ports_map :=
  match spec with
  | Some spec =>
      match public_port spec with
      | Some public =>
          if ((range_start <=? public) && (public <=? range_end))%Z
          then add_port_to (spec_proto spec) public m else m
      | None => m
      end
  | None => m
  end.

Definition published_l4_ports (range_start range_end : Z) (exclude_project : option string)
    (listing : option (list container)) : result alloc_error ports_map :=
  match listing with
  | None => Raise L4PortsUnavailable
  | Some containers => mret (foldl (λ m c,
      if bool_decide (is_Some exclude_project ∧ c_project c = exclude_project) then m
      else foldl (add_spec range_start range_end) m (c_ports c)) ∅ containers)
  end.

Definition lowest_free_port (range_start range_end : Z) (taken : gset Z) : option Z :=
  first_match (λ p, bool_decide (p ∉ taken)) (zrange range_start (range_end + 1)).

(** ** Reservations *)
Notation pending_map := (gmap string (gmap Z (Z * string))).

(** [float(raw)] of the tunable: unparsable, not finite, or milliseconds. *)
Inductive tunable : Type := Unparsable | NotFinite | Millis (ms : Z).

Definition _pending_ttl_seconds (raw : tunable) : Z :=
  match raw with
  | Millis ms => if (ms <=? 0)%Z then 300000%Z else ms
  | _ => 300000%Z
  end.

Definition pending_keep (now : Z) (occ : gset Z) (kv : Z * (Z * string)) : bool :=
  negb ((kv.2.1 <=? now)%Z || bool_decide (kv.1 ∈ occ)).

Definition prune_proto (now : Z) (occupied : ports_map) (proto : string)
    (ports : gmap Z (Z * string)) : option (gmap Z (Z * string)) :=
  let kept := filter (λ kv, pending_keep now (ports_of proto occupied) kv = true) ports in
  if bool_decide (kept = ∅) then None else Some kept.

Definition others_proto (exclude_instance : string) (ports : gmap Z (Z * string)) :
    option (gset Z) :=
  let reserved := dom (filter (λ kv, kv.2.2 ≠ exclude_instance) ports) in
  if bool_decide (reserved = ∅) then None else Some reserved.

(** The reservations of the other instances, and the pruned table. *)
Definition pending_and_prune (occupied : ports_map) (exclude_instance : string) (now : Z)
    (pending : pending_map) : ports_map * pending_map :=
  let pruned := map_imap (prune_proto now occupied) pending in
  (omap (others_proto exclude_instance) pruned, pruned).

Definition mark_pending (instance_id proto : string) (port now ttl : Z) (pending : pending_map) :
    pending_map :=
  <[proto := <[port := ((now + ttl)%Z, instance_id)]> (default ∅ (pending !! proto))]> pending.

(** ** The sidecar file *)
Inductive json_port : Type :=
  | JInt (z : Z) | JBool (b : bool) | JStr (s : string)
  | JFloat (trunc : option Z) | JInf | JOther.

Inductive sidecar : Type :=
  | Missing | Corrupt | NotADict | Ports (entries : list (string * json_port)).

(** [int(port)]: [None] is the [ValueError]/[TypeError] the loop skips. *)
Definition json_int (j : json_port) : result alloc_error (option Z) :=
  match j with
  | JInt z => mret (Some z)
  | JBool b => mret (Some (if b then 1 else 0)%Z)
  | JStr s => mret (int_of_string s)
  | JFloat t => mret t
  | JInf => Raise OverflowError
  | JOther => mret None
  end.

Definition load (file : sidecar) : result alloc_error (gmap string Z) :=
  match file with
  | Ports entries =>
      foldR (λ out np, v ← json_int np.2;
                       mret (match v with Some z => <[np.1 := z]> out | None => out end)) ∅ entries
  | _ => mret ∅
  end.

Definition save (mapping : gmap string Z) : sidecar :=
  Ports ((λ kv, (kv.1, JInt kv.2)) <$> map_to_list mapping).

(** ** Allocation *)
Record l4_state : Type := { pending : pending_map; sidecars : gmap string sidecar }.

Definition set_pending (p : pending_map) (s : l4_state) : l4_state :=
  {| pending := p; sidecars := sidecars s |}.
Definition set_sidecar (id : string) (f : sidecar) (s : l4_state) : l4_state :=
  {| pending := pending s; sidecars := <[id := f]> (sidecars s) |}.

(** The protocol namespace of a port; the manager sends text. *)
Definition proto_of (p : port_info) : string := py_str no_format (protocol p).

(** What one allocation is asked for. *)
Record call : Type := {
  k_instance : string; k_range_start : Z; k_range_end : Z; k_bind : string;
  k_now : Z; k_ttl : Z; k_listing : option (list container);
  k_ports : list port_info;
}.

Definition is_tunnel (k : call) : bool := String.eqb (k_bind k) "127.0.0.1".

Record picks : Type := {
  batch : ports_map; new_sticky : gmap string Z; hosts : list (nat * Z);
}.

(** The decision for one port: reuse, refuse or take the lowest free one. *)
Definition pick (k : call) (prev : option Z) (taken : gset Z) (p : port_info) :
    result alloc_error Z :=
  let rotate :=
    match lowest_free_port (k_range_start k) (k_range_end k) taken with
    | Some h => mret h
    | None => Raise (L4PortRangeExhausted (k_range_start k) (k_range_end k))
    end in
  match prev with
  | Some q =>
      if bool_decide (q ∉ taken) then mret q
      else if same_port p && negb (is_tunnel k)
      then Raise (L4SamePortConflict (port_name p) q)
      else rotate
  | None => rotate
  end.

Definition assign_one (k : call) (sticky : gmap string Z) (occupied others : ports_map)
    (acc : picks) (ip : nat * port_info) : M l4_state alloc_error picks :=
  let '(i, p) := ip in
  let proto := proto_of p in
  let taken := ports_of proto occupied ∪ ports_of proto others ∪ ports_of proto (batch acc) in
  host_port ← lift (pick k (sticky !! port_name p) taken p);
  modify (λ s, set_pending
    (mark_pending (k_instance k) proto host_port (k_now k) (k_ttl k) (pending s)) s);;
  mret {| batch := add_port_to proto host_port (batch acc);
          new_sticky := <[port_name p := host_port]> (new_sticky acc);
          hosts := (hosts acc ++ [(i, host_port)])%list |}.

Definition l4_indices (ports : list port_info) : list (nat * port_info) :=
  List.filter (λ ip, is_l4 ip.2) (indexed ports).

(** The body under [allocation_lock], with the sidecar read before it. *)
Definition allocate (k : call) : M l4_state alloc_error (list (nat * Z)) :=
  if bool_decide (l4_indices (k_ports k) = []) then mret []
  else
    file ← gets (λ s, default Missing (sidecars s !! k_instance k));
    sticky ← lift (load file);
    occupied ← lift (published_l4_ports (k_range_start k) (k_range_end k)
                       (Some (k_instance k)) (k_listing k));
    others ← (λ s, let '(others, p) := pending_and_prune occupied (k_instance k) (k_now k) (pending s) in
                   (Ok others, set_pending p s));
    acc ← foldS (assign_one k sticky occupied others)
            {| batch := ∅; new_sticky := ∅; hosts := [] |} (l4_indices (k_ports k));
    modify (set_sidecar (k_instance k) (save (new_sticky acc)));;
    mret (hosts acc).

(** ** The other ports: one probe of the OS per protocol. *)
Definition set_host (h : Z) (p : port_info) : port_info :=
  {| port_container := port_container p; container_name := container_name p;
     port_name := port_name p; url := url p; protocol := protocol p;
     exposure_tier := exposure_tier p; same_port := same_port p; streaming := streaming p;
     port_host := Some h |}.

Definition set_hosts (ports : list port_info) (hs : list (nat * Z)) : list port_info :=
  foldl (λ ports ih, alter (set_host ih.2) ih.1 ports) ports hs.

(** [idx_by_proto]: the non-L4 indices by protocol, in order of appearance. *)
Definition idx_by_proto (ports : list port_info) : list (string * list nat) :=
  foldl (λ groups ip,
    if is_l4 ip.2 then groups
    else let proto := proto_of ip.2 in
      match list_find (λ g, g.1 = proto) groups with
      | Some (j, (_, idxs)) => <[j := (proto, (idxs ++ [ip.1])%list)]> groups
      | None => (groups ++ [(proto, [ip.1])])%list
      end) [] (indexed ports).

(** [get_free_ports(numbers, protocol)] asks the kernel: an argument. *)
Definition assign_ephemeral (get_free_ports : nat → string → list Z) (ports : list port_info) :
    list port_info :=
  foldl (λ ports g, set_hosts ports (zip g.2 (get_free_ports (length g.2) g.1)))
    ports (idx_by_proto ports).

(** [get_greffon_info] past [create_greffon_info]. *)
Definition get_greffon_info (get_free_ports : nat → string → list Z) (k : call) :
    M l4_state alloc_error (list port_info) :=
  hs ← allocate k;
  mret (set_hosts (assign_ephemeral get_free_ports (k_ports k)) hs).

(** ** Lemmas on the tables *)
Definition pget (proto : string) (port : Z) (m : pending_map) : option (Z * string) :=
  m !! proto ≫= (.!! port).

Lemma ports_of_add proto port m proto' p :
  p ∈ ports_of proto' (add_port_to proto port m) ↔
    (proto' = proto ∧ p = port) ∨ p ∈ ports_of proto' m.
Proof.
  unfold ports_of, add_port_to. destruct (decide (proto' = proto)) as [->|Hne].
  - rewrite lookup_insert_eq. simpl. rewrite elem_of_union, elem_of_singleton. naive_solver.
  - rewrite lookup_insert_ne by done. naive_solver.
Qed.

Lemma ports_of_empty proto : ports_of proto ∅ = ∅.
Proof. unfold ports_of. by rewrite lookup_empty. Qed.

Lemma pget_mark id proto port now ttl m proto' p :
  pget proto' p (mark_pending id proto port now ttl m) =
  if decide (proto' = proto ∧ p = port) then Some ((now + ttl)%Z, id) else pget proto' p m.
Proof.
  unfold pget, mark_pending. destruct (decide (proto' = proto)) as [->|Hne].
  - rewrite lookup_insert_eq. simpl. destruct (decide (p = port)) as [->|Hp].
    + rewrite lookup_insert_eq. by rewrite decide_True.
    + rewrite lookup_insert_ne by done. rewrite decide_False by naive_solver.
      destruct (m !! proto); simpl; [done|]. by rewrite lookup_empty.
  - rewrite lookup_insert_ne by done. by rewrite decide_False by naive_solver.
Qed.

Lemma pending_keep_spec now occ p e o :
  pending_keep now occ (p, (e, o)) = true ↔ (now < e)%Z ∧ p ∉ occ.
Proof.
  unfold pending_keep. simpl. rewrite negb_true_iff, orb_false_iff, Z.leb_gt, bool_decide_eq_false. done.
Qed.

Lemma pget_prune occ id now m proto p e o :
  pget proto p (pending_and_prune occ id now m).2 = Some (e, o) ↔
    pget proto p m = Some (e, o) ∧ (now < e)%Z ∧ p ∉ ports_of proto occ.
Proof.
  unfold pget, pending_and_prune. simpl. rewrite map_lookup_imap.
  destruct (m !! proto) as [ports|]; simpl; [|naive_solver]. unfold prune_proto.
  set (kept := filter _ ports).
  assert (kept !! p = Some (e, o) ↔ ports !! p = Some (e, o) ∧ (now < e)%Z ∧ p ∉ ports_of proto occ)
    as Hk by (unfold kept; by rewrite map_lookup_filter_Some, pending_keep_spec).
  rewrite <-Hk. case_bool_decide as Hz; simpl; [|done]. rewrite Hz, lookup_empty. naive_solver.
Qed.

Lemma elem_of_others occ id now m proto p :
  p ∈ ports_of proto (pending_and_prune occ id now m).1 ↔
    ∃ e o, pget proto p (pending_and_prune occ id now m).2 = Some (e, o) ∧ o ≠ id.
Proof.
  unfold pending_and_prune, ports_of, pget. simpl. rewrite lookup_omap.
  destruct (map_imap _ m !! proto) as [ports|]; simpl; [|set_solver].
  unfold others_proto. set (reserved := dom _).
  assert (p ∈ reserved ↔ ∃ e o, ports !! p = Some (e, o) ∧ o ≠ id) as Hr.
  { unfold reserved. rewrite elem_of_dom. split.
    - intros [[e o] [? ?]%map_lookup_filter_Some]. by exists e, o.
    - intros (e & o & ? & ?). exists (e, o). by apply map_lookup_filter_Some. }
  rewrite <-Hr. case_bool_decide as Hz; simpl; [|done]. by rewrite Hz.
Qed.

(** A running container of another project publishes the port. *)
Definition publishes (exclude : option string) (containers : list container) (proto : string) (p : Z) : Prop :=
  ∃ c spec, c ∈ containers ∧ ¬ (is_Some exclude ∧ c_project c = exclude) ∧
    Some spec ∈ c_ports c ∧ public_port spec = Some p ∧ spec_proto spec = proto.

(** [published_l4_ports] reports exactly the in-range ports of the running
    containers of the other projects. *)
Definition published (range_start range_end : Z) (exclude : option string)
    (containers : list container) (proto : string) (p : Z) : Prop :=
  ∃ c spec, c ∈ containers ∧ ¬ (is_Some exclude ∧ c_project c = exclude) ∧
    Some spec ∈ c_ports c ∧ public_port spec = Some p ∧ spec_proto spec = proto ∧
    (range_start ≤ p ≤ range_end)%Z.

Lemma foldl_add_spec lo hi m specs proto p :
  p ∈ ports_of proto (foldl (add_spec lo hi) m specs) ↔
    p ∈ ports_of proto m ∨ ∃ spec, Some spec ∈ specs ∧ public_port spec = Some p ∧
      spec_proto spec = proto ∧ (lo ≤ p ≤ hi)%Z.
Proof.
  revert m. induction specs as [|spec specs IH]; intros m; simpl; [set_solver|].
  rewrite IH. clear IH. setoid_rewrite elem_of_cons.
  destruct spec as [spec|]; simpl; [|naive_solver].
  destruct (public_port spec) as [q|] eqn:Hq; [|naive_solver].
  destruct ((lo <=? q) && (q <=? hi))%Z eqn:Hr.
  - apply andb_prop in Hr as [?%Z.leb_le ?%Z.leb_le]. rewrite ports_of_add. naive_solver.
  - apply andb_false_iff in Hr. rewrite !Z.leb_gt in Hr. split; [naive_solver|].
    intros [?|(spec' & [[= ->]|?] & Hq' & ? & ?)]; [by left| |right; naive_solver].
    rewrite Hq in Hq'. injection Hq' as ->. lia.
Qed.

Lemma published_l4_ports_spec lo hi exclude containers :
  ∃ m, published_l4_ports lo hi exclude (Some containers) = Ok m ∧
    ∀ proto p, p ∈ ports_of proto m ↔ published lo hi exclude containers proto p.
Proof.
  eexists; split; [done|]. intros proto p. unfold published.
  enough (∀ m, p ∈ ports_of proto (foldl (λ m c,
      if bool_decide (is_Some exclude ∧ c_project c = exclude) then m
      else foldl (add_spec lo hi) m (c_ports c)) m containers) ↔
    p ∈ ports_of proto m ∨ ∃ c spec, c ∈ containers ∧ ¬ (is_Some exclude ∧ c_project c = exclude) ∧
      Some spec ∈ c_ports c ∧ public_port spec = Some p ∧ spec_proto spec = proto ∧ (lo ≤ p ≤ hi)%Z)
    as Hgen by (rewrite Hgen, ports_of_empty; set_solver).
  induction containers as [|c cs IH]; intros m; simpl; [set_solver|].
  rewrite IH. clear IH. setoid_rewrite elem_of_cons. case_bool_decide as Hc.
  - naive_solver.
  - rewrite foldl_add_spec. naive_solver.
Qed.

Lemma lowest_free_port_Some lo hi taken p :
  lowest_free_port lo hi taken = Some p → (lo ≤ p ≤ hi)%Z ∧ p ∉ taken.
Proof.
  intros [Hr Hf]%first_match_Some. apply elem_of_zrange in Hr. apply bool_decide_eq_true in Hf.
  split; [lia|done].
Qed.

Lemma lowest_free_port_None lo hi taken :
  lowest_free_port lo hi taken = None ↔ ∀ p, (lo ≤ p ≤ hi)%Z → p ∈ taken.
Proof.
  unfold lowest_free_port. rewrite first_match_None. setoid_rewrite elem_of_zrange. split.
  - intros H p ?. specialize (H p ltac:(lia)). apply bool_decide_eq_false in H. by destruct (decide (p ∈ taken)).
  - intros H p ?. apply bool_decide_eq_false. intros []. apply H. lia.
Qed.

(** ** One allocation *)
Section allocation.
Context (k : call) (sticky : gmap string Z) (occupied others : ports_map).

(** What the chosen host port of one L4 port satisfies; [earlier] are the
    (protocol, port) pairs this call already handed out. *)
Record host_ok (earlier : list (string * Z)) (p : port_info) (h : Z) : Prop := {
  ok_daemon : h ∉ ports_of (proto_of p) occupied;
  ok_pending : h ∉ ports_of (proto_of p) others;
  ok_earlier : (proto_of p, h) ∉ earlier;
  ok_range : sticky !! port_name p = Some h ∨ (k_range_start k ≤ h ≤ k_range_end k)%Z;
  ok_same_port : same_port p = true → is_tunnel k = false →
    ∀ q, sticky !! port_name p = Some q → h = q;
  ok_rotate : ∀ q, sticky !! port_name p = Some q → h = q ∨
    q ∈ ports_of (proto_of p) occupied ∨ q ∈ ports_of (proto_of p) others ∨
    (proto_of p, q) ∈ earlier;
}.

(** The (protocol, port) pairs handed out so far. *)
Definition granted (l : list (nat * port_info)) (hs : list (nat * Z)) : list (string * Z) :=
  zip_with (λ ip ih, (proto_of ip.2, ih.2)) l hs.

Definition named (l : list (nat * port_info)) (hs : list (nat * Z)) : list (string * Z) :=
  zip_with (λ ip ih, (port_name ip.2, ih.2)) l hs.

(** Hosts are chosen left to right, each against its predecessors. *)
Inductive chosen : list (nat * port_info) → list (nat * Z) → Prop :=
  | chosen_nil : chosen [] []
  | chosen_snoc l hs i p h : chosen l hs → host_ok (granted l hs) p h →
      chosen (l ++ [(i, p)]) (hs ++ [(i, h)]).

Lemma chosen_length l hs : chosen l hs → length l = length hs.
Proof. induction 1; [done|]. rewrite !length_app. simpl. lia. Qed.

Lemma granted_snoc l hs i p h : length l = length hs →
  granted (l ++ [(i, p)]) (hs ++ [(i, h)]) = (granted l hs ++ [(proto_of p, h)])%list.
Proof. intros ?. unfold granted. by rewrite zip_with_app. Qed.

Lemma named_snoc l hs i p h : length l = length hs →
  named (l ++ [(i, p)]) (hs ++ [(i, h)]) = (named l hs ++ [(port_name p, h)])%list.
Proof. intros ?. unfold named. by rewrite zip_with_app. Qed.

Lemma chosen_granted_NoDup l hs : chosen l hs → NoDup (granted l hs).
Proof.
  induction 1 as [|l hs i p h Hc IH Hh]; [constructor|].
  rewrite granted_snoc by by apply chosen_length. apply NoDup_app. split_and!; [done| |apply NoDup_singleton].
  intros x Hx ->%list_elem_of_singleton. by apply (ok_earlier _ _ _ Hh).
Qed.

Lemma pick_ok earlier taken p h :
  (∀ q, q ∈ taken ↔ q ∈ ports_of (proto_of p) occupied ∨ q ∈ ports_of (proto_of p) others ∨
                    (proto_of p, q) ∈ earlier) →
  pick k (sticky !! port_name p) taken p = Ok h → host_ok earlier p h.
Proof.
  intros Ht Hp.
  assert (h ∉ taken ∧ (sticky !! port_name p = Some h ∨ (k_range_start k ≤ h ≤ k_range_end k)%Z) ∧
    (same_port p = true → is_tunnel k = false → ∀ q, sticky !! port_name p = Some q → h = q) ∧
    (∀ q, sticky !! port_name p = Some q → h = q ∨ q ∈ taken)) as (H1 & H2 & H3 & H4).
  { unfold pick in Hp. destruct (sticky !! port_name p) as [q|] eqn:Hq.
    - case_bool_decide as Hf.
      + injection Hp as ->. split_and!; auto; by intros; simplify_eq; auto.
      + destruct (same_port p && negb (is_tunnel k)) eqn:Hsame; [done|].
        destruct (lowest_free_port _ _ _) eqn:Hl; [|done]. injection Hp as ->.
        apply lowest_free_port_Some in Hl as [? ?]. split_and!; auto.
        * intros Hs Htn. by rewrite Hs, Htn in Hsame.
        * intros q' [= <-]. by right.
    - destruct (lowest_free_port _ _ _) eqn:Hl; [|done]. injection Hp as ->.
      apply lowest_free_port_Some in Hl as [? ?]. by split_and!; auto. }
  rewrite Ht in H1. split; [naive_solver..|].
  intros q Hq. destruct (H4 q Hq); [by left|right]. by apply Ht.
Qed.

(** The reservations a call may add: its own, on ports it may take. *)
Definition reserved (p0 p1 : pending_map) : Prop := ∀ proto p,
  pget proto p p1 = pget proto p p0 ∨
  (pget proto p p1 = Some ((k_now k + k_ttl k)%Z, k_instance k) ∧
   p ∉ ports_of proto occupied ∧ p ∉ ports_of proto others).

Record assigned (s0 : l4_state) (l : list (nat * port_info)) (acc : picks) (s : l4_state) : Prop := {
  as_chosen : chosen l (hosts acc);
  as_batch : ∀ proto p, p ∈ ports_of proto (batch acc) ↔ (proto, p) ∈ granted l (hosts acc);
  as_pending : ∀ proto p, (proto, p) ∈ granted l (hosts acc) →
    pget proto p (pending s) = Some ((k_now k + k_ttl k)%Z, k_instance k);
  as_reserved : reserved (pending s0) (pending s);
  as_sidecars : sidecars s = sidecars s0;
  as_sticky : new_sticky acc = foldl (λ m nh, <[nh.1 := nh.2]> m) ∅ (named l (hosts acc));
}.

Lemma assign_one_ok s0 l acc s ip :
  assigned s0 l acc s →
  wp (assign_one k sticky occupied others acc ip)
    (λ r s', match r with
             | Ok acc' => assigned s0 (l ++ [ip]) acc' s'
             | Raise _ => reserved (pending s0) (pending s') ∧ sidecars s' = sidecars s0
             end) s.
Proof.
  intros [Hc Hb Hp Hr Hs Hst]. destruct ip as [i p]. unfold assign_one.
  apply wp_bind, wp_lift. destruct (pick _ _ _ _) as [h|e] eqn:Hpick; [|done].
  apply wp_bind, wp_modify, wp_ret. pose proof (chosen_length _ _ Hc) as Hlen.
  apply (pick_ok (granted l (hosts acc))) in Hpick.
  2: { intros q. rewrite !elem_of_union, Hb. tauto. }
  split; simpl.
  - by constructor.
  - intros proto q. rewrite ports_of_add, Hb, granted_snoc, elem_of_app, list_elem_of_singleton by done.
    naive_solver.
  - intros proto q. rewrite granted_snoc, elem_of_app, list_elem_of_singleton, pget_mark by done.
    destruct (decide _); [done|]. intros [?|[= -> ->]]; [by apply Hp|naive_solver].
  - intros proto q. rewrite pget_mark. destruct (decide _) as [[-> ->]|_]; [|apply Hr].
    right. split_and!; [done|apply (ok_daemon _ _ _ Hpick)|apply (ok_pending _ _ _ Hpick)].
  - done.
  - by rewrite named_snoc, foldl_snoc, Hst by done.
Qed.
End allocation.

(** Everything a run of [allocate] does, for the success and the failure. *)
Definition allocate_post (k : call) (s : l4_state) (r : result alloc_error (list (nat * Z)))
    (s' : l4_state) : Prop :=
  match r with
  | Ok hs => l4_indices (k_ports k) = [] ∧ hs = [] ∧ s' = s ∨
      ∃ sticky occupied others p0,
        load (default Missing (sidecars s !! k_instance k)) = Ok sticky ∧
        published_l4_ports (k_range_start k) (k_range_end k) (Some (k_instance k)) (k_listing k)
          = Ok occupied ∧
        pending_and_prune occupied (k_instance k) (k_now k) (pending s) = (others, p0) ∧
        chosen k sticky occupied others (l4_indices (k_ports k)) hs ∧
        reserved k occupied others p0 (pending s') ∧
        (∀ proto p, (proto, p) ∈ granted (l4_indices (k_ports k)) hs →
          pget proto p (pending s') = Some ((k_now k + k_ttl k)%Z, k_instance k)) ∧
        sidecars s' = <[k_instance k := save (foldl (λ m nh, <[nh.1 := nh.2]> m) ∅
          (named (l4_indices (k_ports k)) hs))]> (sidecars s)
  | Raise _ => sidecars s' = sidecars s ∧ (s' = s ∨
      ∃ occupied others p0,
        published_l4_ports (k_range_start k) (k_range_end k) (Some (k_instance k)) (k_listing k)
          = Ok occupied ∧
        pending_and_prune occupied (k_instance k) (k_now k) (pending s) = (others, p0) ∧
        reserved k occupied others p0 (pending s'))
  end.

Lemma reserved_refl k occ oth p0 : reserved k occ oth p0 p0.
Proof. intros proto p. by left. Qed.

Lemma allocate_spec k s : wp (allocate k) (allocate_post k s) s.
Proof.
  unfold allocate. case_bool_decide as Hl; [by left|].
  apply wp_bind, wp_gets, wp_bind, wp_lift.
  destruct (load _) as [sticky|e] eqn:Hload; [|by split; [|left]].
  apply wp_bind, wp_lift.
  destruct (published_l4_ports _ _ _ _) as [occ|e] eqn:Hpub; [|by split; [|left]].
  apply wp_bind. destruct (pending_and_prune occ (k_instance k) (k_now k) (pending s)) as [oth p0] eqn:Hpr.
  unfold wp at 1. rewrite Hpr. cbn [fst snd]. apply wp_bind.
  eapply wp_mono; [apply (wp_foldS_prefix _
    (λ l acc s', assigned k sticky occ oth (set_pending p0 s) l acc s')
    (λ _ s', reserved k occ oth p0 (pending s') ∧ sidecars s' = sidecars s))|].
  - intros done [i p] acc s1 _ Ha. eapply wp_mono; [by apply assign_one_ok|]. done.
  - split; simpl; auto.
    + constructor.
    + intros proto p. rewrite ports_of_empty. set_solver.
    + set_solver.
    + apply reserved_refl.
  - intros [acc|e] s1; cbn [allocate_post].
    + intros [Hc _ Hp Hr Hs Hst]. apply wp_bind, wp_modify, wp_ret. right.
      exists sticky, occ, oth, p0. split_and!; auto. simpl. by rewrite Hs, Hst.
    + intros [Hr Hs]. split; [done|]. right. by exists occ, oth, p0.
Qed.

Lemma allocate_run k s r s' : allocate k s = (r, s') → allocate_post k s r s'.
Proof. intros H. pose proof (allocate_spec k s) as Hw. unfold wp in Hw. by rewrite H in Hw. Qed.

Lemma chosen_lookup k sticky occ oth l hs j i p :
  chosen k sticky occ oth l hs → l !! j = Some (i, p) →
  ∃ h, hs !! j = Some (i, h) ∧ host_ok k sticky occ oth (granted (take j l) (take j hs)) p h.
Proof.
  induction 1 as [|l hs i' p' h' Hc IH Hh]; [done|].
  pose proof (chosen_length _ _ _ _ _ _ Hc) as Hlen.
  destruct (decide (j < length l)%nat) as [Hj|Hj].
  - rewrite lookup_app_l by done. intros Hl. destruct (IH Hl) as (h & Hhs & Hok). exists h.
    rewrite lookup_app_l by lia. rewrite !take_app_le by lia. done.
  - rewrite lookup_app_r by lia. intros Hl.
    assert (j = length l) as -> by (apply lookup_lt_Some in Hl; simpl in Hl; lia).
    rewrite Nat.sub_diag in Hl. injection Hl as -> ->. exists h'.
    rewrite take_app_length, Hlen, take_app_length. split; [|done].
    by rewrite lookup_app_r, Nat.sub_diag by lia.
Qed.

Lemma granted_lookup l hs j i p i' h : l !! j = Some (i, p) → hs !! j = Some (i', h) →
  granted l hs !! j = Some (proto_of p, h).
Proof. intros Hl Hh. unfold granted. by rewrite (lookup_zip_with), Hl; simpl; rewrite Hh. Qed.

(** C1: when an allocation succeeds, every L4 port gets a host port that no other instance holds an
    unexpired reservation for and no other port of the same call and protocol got, and that is
    reserved for the instance until the TTL.  It lies in the configured range and no running
    container of another project publishes it, or it lies outside and is the port recorded for
    this name: of those the daemon is not asked ([stale_range_reused]). *)
Theorem allocate_exclusive k s hs s' containers j i p :
  allocate k s = (Ok hs, s') → k_listing k = Some containers →
  l4_indices (k_ports k) !! j = Some (i, p) →
  ∃ h, hs !! j = Some (i, h) ∧
    (∀ e o, pget (proto_of p) h (pending s) = Some (e, o) → o = k_instance k ∨ (e ≤ k_now k)%Z) ∧
    (∀ j' i' p' h', j' ≠ j → l4_indices (k_ports k) !! j' = Some (i', p') →
      hs !! j' = Some (i', h') → proto_of p' = proto_of p → h' ≠ h) ∧
    ((k_range_start k ≤ h ≤ k_range_end k)%Z ∧
       ¬ publishes (Some (k_instance k)) containers (proto_of p) h ∨
     ¬ (k_range_start k ≤ h ≤ k_range_end k)%Z ∧ ∃ sticky,
       load (default Missing (sidecars s !! k_instance k)) = Ok sticky ∧ sticky !! port_name p = Some h) ∧
    pget (proto_of p) h (pending s') = Some ((k_now k + k_ttl k)%Z, k_instance k).
Proof.
  intros H%allocate_run Hlist Hj. cbn [allocate_post] in H. destruct H as [(Hl & _)|H].
  { by rewrite Hl in Hj. }
  destruct H as (sticky & occ & oth & p0 & Hload & Hpub & Hpr & Hc & _ & Hg & _).
  destruct (chosen_lookup _ _ _ _ _ _ _ _ _ Hc Hj) as (h & Hh & Hok). exists h.
  rewrite Hlist in Hpub. destruct (published_l4_ports_spec (k_range_start k) (k_range_end k)
    (Some (k_instance k)) containers) as (m & Hm & Hspec).
  rewrite Hpub in Hm. injection Hm as <-.
  pose proof (granted_lookup _ _ _ _ _ _ _ Hj Hh) as Hgj.
  split_and!; [done| | | |].
  - intros e o Hp. destruct (decide (o = k_instance k)) as [?|Ho]; [by left|right].
    destruct (decide (e ≤ k_now k)%Z) as [?|He]; [done|exfalso].
    apply (ok_pending _ _ _ _ _ _ _ Hok).
    replace oth with (pending_and_prune occ (k_instance k) (k_now k) (pending s)).1 by by rewrite Hpr.
    apply elem_of_others. exists e, o. split; [|done]. apply pget_prune.
    split_and!; [done|lia|apply (ok_daemon _ _ _ _ _ _ _ Hok)].
  - intros j' i' p' h' Hne Hj' Hh' Hpp ->. apply Hne.
    pose proof (granted_lookup _ _ _ _ _ _ _ Hj' Hh') as Hgj'. rewrite Hpp in Hgj'.
    by eapply NoDup_lookup; [eapply chosen_granted_NoDup| |].
  - destruct (decide (k_range_start k ≤ h ≤ k_range_end k)%Z) as [Hr|Hr].
    + left. split; [done|]. intros (c & spec & ? & ? & ? & ? & ?).
      apply (ok_daemon _ _ _ _ _ _ _ Hok), Hspec. exists c, spec. by repeat (split; [done|]).
    + right. split; [done|]. destruct (ok_range _ _ _ _ _ _ _ Hok); [by exists sticky|done].
  - apply Hg. by eapply list_elem_of_lookup_2.
Qed.

(** a proxy-mode [same_port] endpoint is never rotated: once a host port is recorded for it,
    an allocation that succeeds returns that very port. *)
Theorem allocate_same_port k s hs s' sticky j i p q :
  allocate k s = (Ok hs, s') →
  load (default Missing (sidecars s !! k_instance k)) = Ok sticky → sticky !! port_name p = Some q →
  l4_indices (k_ports k) !! j = Some (i, p) → same_port p = true → k_bind k ≠ "127.0.0.1" →
  hs !! j = Some (i, q).
Proof.
  intros H%allocate_run Hload Hq Hj Hs Hb. cbn [allocate_post] in H. destruct H as [(Hl & _)|H].
  { by rewrite Hl in Hj. }
  destruct H as (sticky' & occ & oth & p0 & Hload' & _ & _ & Hc & _).
  rewrite Hload in Hload'. injection Hload' as <-.
  destruct (chosen_lookup _ _ _ _ _ _ _ _ _ Hc Hj) as (h & Hh & Hok).
  rewrite (ok_same_port _ _ _ _ _ _ _ Hok Hs) with (q := q) in Hh; [done| |done].
  unfold is_tunnel. by apply String.eqb_neq.
Qed.

(** ** The process over time *)

(** A host port handed out and not yet shown by the daemon. *)
Record grant : Type := { g_owner : string; g_proto : string; g_port : Z; g_until : Z }.

Record system : Type := { sys_l4 : l4_state; sys_clock : Z; sys_grants : list grant }.

(** A grant is outstanding until its TTL, or until the daemon has shown the
    port published to some allocation. *)
Definition outstanding (now : Z) (k : call) (g : grant) : Prop :=
  (now < g_until g)%Z ∧ ∀ occupied,
    published_l4_ports (k_range_start k) (k_range_end k) (Some (k_instance k)) (k_listing k)
      = Ok occupied → g_port g ∉ ports_of (g_proto g) occupied.

Definition new_grants (k : call) (hs : list (nat * Z)) : list grant :=
  (λ ph, {| g_owner := k_instance k; g_proto := ph.1; g_port := ph.2;
            g_until := (k_now k + k_ttl k)%Z |}) <$> granted (l4_indices (k_ports k)) hs.

(** One allocation of the process.  The TTL is read once, at import; the
    listing and the clock are whatever the daemon and the host say. *)
Inductive sys_step (ttl : Z) (st : system) : system → Prop :=
  | step_allocate k r l4' gs :
      (sys_clock st ≤ k_now k)%Z → k_ttl k = ttl →
      allocate k (sys_l4 st) = (r, l4') →
      (∀ g, g ∈ gs → g ∈ sys_grants st ∧ outstanding (k_now k) k g ∨
        ∃ hs, r = Ok hs ∧ g ∈ new_grants k hs) →
      sys_step ttl st {| sys_l4 := l4'; sys_clock := k_now k; sys_grants := gs |}.

(** The process starts with an empty table and the files earlier processes left. *)
Definition sys_init (files : gmap string sidecar) (clock : Z) : system :=
  {| sys_l4 := {| pending := ∅; sidecars := files |}; sys_clock := clock; sys_grants := [] |}.

Inductive reachable (ttl : Z) : system → Prop :=
  | reach_init files clock : reachable ttl (sys_init files clock)
  | reach_step st st' : reachable ttl st → sys_step ttl st st' → reachable ttl st'.

(** Every outstanding grant is backed by a reservation of its owner. *)
Definition grants_reserved (st : system) : Prop :=
  ∀ g, g ∈ sys_grants st → ∃ e, (g_until g ≤ e)%Z ∧
    pget (g_proto g) (g_port g) (pending (sys_l4 st)) = Some (e, g_owner g).

Lemma grant_survives k g occ oth p0 p1 st :
  grants_reserved st → g ∈ sys_grants st → outstanding (k_now k) k g →
  (g_until g ≤ k_now k + k_ttl k)%Z →
  published_l4_ports (k_range_start k) (k_range_end k) (Some (k_instance k)) (k_listing k) = Ok occ →
  pending_and_prune occ (k_instance k) (k_now k) (pending (sys_l4 st)) = (oth, p0) →
  reserved k occ oth p0 p1 →
  ∃ e, (g_until g ≤ e)%Z ∧ pget (g_proto g) (g_port g) p1 = Some (e, g_owner g).
Proof.
  intros Hinv Hg [Hlive Hseen] Huntil Hpub Hpr Hr.
  destruct (Hinv g Hg) as (e & He & Hp).
  assert (pget (g_proto g) (g_port g) p0 = Some (e, g_owner g)) as Hp0.
  { replace p0 with (pending_and_prune occ (k_instance k) (k_now k) (pending (sys_l4 st))).2 by by rewrite Hpr.
    apply pget_prune. split_and!; [done|lia|by apply Hseen]. }
  destruct (Hr (g_proto g) (g_port g)) as [->|(-> & _ & Hoth)]; [by exists e|].
  destruct (decide (g_owner g = k_instance k)) as [->|Hne]; [by exists (k_now k + k_ttl k)%Z|].
  exfalso. apply Hoth.
  replace oth with (pending_and_prune occ (k_instance k) (k_now k) (pending (sys_l4 st))).1 by by rewrite Hpr.
  apply elem_of_others. exists e, (g_owner g). by rewrite Hpr.
Qed.

Lemma reachable_grants ttl st : reachable ttl st →
  grants_reserved st ∧ ∀ g, g ∈ sys_grants st → (g_until g ≤ sys_clock st + ttl)%Z.
Proof.
  induction 1 as [|st st' Hr [Hinv Huntil] Hstep].
  { split; intros g Hg; simpl in Hg; set_solver. }
  destruct Hstep as [k r l4' gs Hclock Httl Hrun Hgs]. apply allocate_run in Hrun.
  split; intros g Hg; simpl in Hg |- *; destruct (Hgs g Hg) as [[Hold Hout]|(hs & -> & Hnew)].
  - pose proof (Huntil g Hold) as Hu.
    destruct r as [hs|e]; cbn [allocate_post] in Hrun.
    + destruct Hrun as [(_ & _ & ->)|(sticky & occ & oth & p0 & _ & Hpub & Hpr & _ & Hres & _)];
        [by apply Hinv|]. eapply (grant_survives k g occ); eauto. lia.
    + destruct Hrun as [_ [->|(occ & oth & p0 & Hpub & Hpr & Hres)]]; [by apply Hinv|].
      eapply (grant_survives k g occ); eauto. lia.
  - cbn [allocate_post] in Hrun. apply list_elem_of_fmap in Hnew as ([proto p] & -> & Hin). simpl.
    destruct Hrun as [(Hl & -> & _)|(sticky & occ & oth & p0 & _ & _ & _ & _ & _ & Hget & _)].
    + unfold granted in Hin. rewrite Hl in Hin. simpl in Hin. set_solver.
    + eexists; split; [|by apply Hget]. done.
  - pose proof (Huntil g Hold). lia.
  - apply list_elem_of_fmap in Hnew as ([proto p] & -> & _). simpl. lia.
Qed.

(** C2: concurrent starts never share a port: in every run of the process, an allocation for one
    instance hands out no port that another instance was granted and whose container has not
    been seen by the daemon yet, whatever the listings, until the grant's TTL lapses. *)
Theorem allocations_disjoint ttl st k hs l4' g j i p h :
  reachable ttl st → allocate k (sys_l4 st) = (Ok hs, l4') →
  g ∈ sys_grants st → (k_now k < g_until g)%Z → g_owner g ≠ k_instance k →
  l4_indices (k_ports k) !! j = Some (i, p) → hs !! j = Some (i, h) →
  (proto_of p, h) ≠ (g_proto g, g_port g).
Proof.
  intros [Hinv _]%reachable_grants H%allocate_run Hg Hlive Hne Hj Hh [= Hp ->].
  destruct (Hinv g Hg) as (e & He & Hget). cbn [allocate_post] in H.
  destruct H as [(Hl & _)|(sticky & occ & oth & p0 & _ & Hpub & Hpr & Hc & _)]; [by rewrite Hl in Hj|].
  destruct (chosen_lookup _ _ _ _ _ _ _ _ _ Hc Hj) as (h & Hh' & Hok).
  rewrite Hh in Hh'. injection Hh' as <-.
  apply (ok_pending _ _ _ _ _ _ _ Hok). rewrite Hp.
  replace oth with (pending_and_prune occ (k_instance k) (k_now k) (pending (sys_l4 st))).1 by by rewrite Hpr.
  apply elem_of_others. exists e, (g_owner g). split; [|done]. apply pget_prune.
  split_and!; [done|lia|rewrite <-Hp; apply (ok_daemon _ _ _ _ _ _ _ Hok)].
Qed.

(** ** Sticky reuse *)
Lemma foldl_insert (out : gmap string Z) (l : list (string * Z)) :
  NoDup l.*1 → foldl (λ m nh, <[nh.1 := nh.2]> m) out l = list_to_map l ∪ out.
Proof.
  revert out. induction l as [|[n h] l IH]; intros out; cbn [foldl list_to_map foldr].
  { intros _. by rewrite (left_id_L ∅ (∪)). }
  rewrite fmap_cons. intros [Hn Hnd]%NoDup_cons. rewrite IH by done. simpl.
  rewrite <-insert_union_r; [apply insert_union_l|]. by apply not_elem_of_list_to_map_1.
Qed.

(** The sidecar round trip: what [save] wrote, [load] reads back. *)
Lemma load_save m : load (save m) = Ok m.
Proof.
  unfold load, save.
  assert (∀ l out, foldR (E:=alloc_error) (λ out np, v ← json_int np.2;
      mret (match v with Some z => <[np.1 := z]> out | None => out end)) out
      ((λ kv : string * Z, (kv.1, JInt kv.2)) <$> l) = Ok (foldl (λ m kv, <[kv.1 := kv.2]> m) out l)) as ->.
  { induction l as [|[n h] l IH]; intros out; [done|]. rewrite fmap_cons. simpl. apply IH. }
  rewrite foldl_insert by apply NoDup_fst_map_to_list.
  by rewrite list_to_map_to_list, (right_id_L ∅ (∪)).
Qed.

Lemma assign_sticky k sticky occ oth l qs acc s :
  length l = length qs →
  (∀ j i p q, l !! j = Some (i, p) → qs !! j = Some (i, q) →
    sticky !! port_name p = Some q ∧ q ∉ ports_of (proto_of p) occ ∧ q ∉ ports_of (proto_of p) oth ∧
    q ∉ ports_of (proto_of p) (batch acc)) →
  (∀ j i p, l !! j = Some (i, p) → ∃ q, qs !! j = Some (i, q)) →
  NoDup (granted l qs) →
  ∃ acc' s', foldS (assign_one k sticky occ oth) acc l s = (Ok acc', s') ∧
    hosts acc' = (hosts acc ++ qs)%list.
Proof.
  revert qs acc s. induction l as [|[i p] l IH]; intros qs acc s Hlen Hfree Hall Hnd.
  { destruct qs; [|done]. exists acc, s. by rewrite app_nil_r. }
  destruct qs as [|[i0 q] qs]; [done|]. injection Hlen as Hlen.
  destruct (Hall 0%nat i p) as (q0 & [= -> ->]); [done|].
  destruct (Hfree 0%nat i p q0) as (Hq & H1 & H2 & H3); [done..|].
  assert (pick k (sticky !! port_name p)
    (ports_of (proto_of p) occ ∪ ports_of (proto_of p) oth ∪ ports_of (proto_of p) (batch acc)) p
    = Ok q0) as Hpick by (unfold pick; rewrite Hq, bool_decide_eq_true_2 by set_solver; done).
  set (acc1 := {| batch := add_port_to (proto_of p) q0 (batch acc);
    new_sticky := <[port_name p := q0]> (new_sticky acc); hosts := (hosts acc ++ [(i, q0)])%list |}).
  assert (∃ s1, assign_one k sticky occ oth acc (i, p) s = (Ok acc1, s1)) as [s1 Hs1].
  { unfold assign_one, lift, mbind, M_bind. rewrite Hpick. by eexists. }
  unfold granted in Hnd. simpl in Hnd. apply NoDup_cons in Hnd as [Hni Hnd].
  destruct (IH qs acc1 s1) as (acc' & s' & Hrun & Hh); [done| |intros j; apply (Hall (S j))|done|].
  - intros j i' p' q' Hj Hq'. destruct (Hfree (S j) i' p' q') as (? & ? & ? & ?); [done..|].
    split_and!; [done..|]. simpl. rewrite ports_of_add. intros [[Hp ->]|?]; [|done].
    apply Hni. apply list_elem_of_lookup. exists j. rewrite <-Hp. by eapply granted_lookup.
  - exists acc', s'. cbn [foldS]. unfold mbind, M_bind. rewrite Hs1. split; [done|].
    rewrite Hh. simpl. by rewrite <-app_assoc.
Qed.

Lemma named_fst l hs : length l = length hs → (named l hs).*1 = (λ ip, port_name ip.2) <$> l.
Proof.
  revert hs. induction l as [|[i p] l IH]; intros [|[j h] hs] Hl; try done.
  injection Hl as Hl. unfold named in *. cbn [zip_with]. rewrite !fmap_cons, IH by done. done.
Qed.

Lemma l4_names_NoDup ports : NoDup (port_name <$> ports) →
  NoDup ((λ ip : nat * port_info, port_name ip.2) <$> l4_indices ports).
Proof.
  intros Hnd. unfold l4_indices.
  assert ((λ ip : nat * port_info, port_name ip.2) <$> indexed ports = port_name <$> ports) as Heq.
  { unfold indexed. change (λ ip : nat * port_info, port_name ip.2) with (port_name ∘ snd (A:=nat)).
    by rewrite list_fmap_compose, snd_zip by by rewrite length_seq. }
  rewrite <-Heq in Hnd. clear Heq. induction (indexed ports) as [|ip l IH]; simpl; [constructor|].
  rewrite fmap_cons in Hnd. apply NoDup_cons in Hnd as [Hn Hnd]. destruct (is_l4 ip.2); [|by apply IH].
  rewrite fmap_cons. constructor; [|by apply IH].
  intros (ip' & Heq & Hin)%list_elem_of_fmap. apply Hn, list_elem_of_fmap. exists ip'. split; [done|].
  apply list_elem_of_In, filter_In in Hin as [Hin _]. by apply list_elem_of_In.
Qed.

(** an instance keeps its endpoints: after a successful allocation, a later start of the same
    instance with the same ports gets the same host ports, as long as its sidecar is intact and no
    other instance has come to publish or reserve one of them. *)
Theorem redeploy_keeps_ports k s hs s1 k' s2 containers :
  allocate k s = (Ok hs, s1) → NoDup (port_name <$> k_ports k) →
  k_instance k' = k_instance k → k_ports k' = k_ports k → k_listing k' = Some containers →
  sidecars s2 !! k_instance k = sidecars s1 !! k_instance k →
  (∀ j i p h, l4_indices (k_ports k) !! j = Some (i, p) → hs !! j = Some (i, h) →
    ¬ published (k_range_start k') (k_range_end k') (Some (k_instance k)) containers (proto_of p) h ∧
    ∀ e o, pget (proto_of p) h (pending s2) = Some (e, o) → o = k_instance k ∨ (e ≤ k_now k')%Z) →
  ∃ s3, allocate k' s2 = (Ok hs, s3).
Proof.
  intros H%allocate_run Hnd Hi Hp Hl Hside Hfree. cbn [allocate_post] in H.
  unfold allocate. rewrite Hp, Hi, Hl. destruct H as [(He & -> & _)|H].
  { rewrite bool_decide_eq_true_2 by done. by eexists. }
  destruct H as (sticky & occ & oth & p0 & _ & _ & _ & Hc & _ & _ & Hs1).
  case_bool_decide as He. { rewrite He in Hc. inversion Hc; [by eexists|]. by destruct l. }
  pose proof (chosen_length _ _ _ _ _ _ Hc) as Hlen.
  destruct (published_l4_ports_spec (k_range_start k') (k_range_end k') (Some (k_instance k)) containers)
    as (occ' & Hpub & Hspec).
  unfold gets, lift, mbind, M_bind, modify. rewrite Hside, Hs1, lookup_insert_eq.
  cbn [default from_option]. unfold id. rewrite load_save. rewrite Hpub.
  set (sticky' := foldl _ _ _).
  assert (sticky' = list_to_map (named (l4_indices (k_ports k)) hs)) as Hst.
  { unfold sticky'. rewrite foldl_insert, (right_id_L ∅ (∪)); [done|].
    rewrite named_fst by done. by apply l4_names_NoDup. }
  destruct (pending_and_prune occ' (k_instance k) (k_now k') (pending s2)) as [oth' p0'] eqn:Hpr.
  destruct (assign_sticky k' sticky' occ' oth' (l4_indices (k_ports k)) hs
    {| batch := ∅; new_sticky := ∅; hosts := [] |} (set_pending p0' s2)) as (acc & s3 & Hrun & Hh); [done| | | |].
  - intros j i p h Hj Hhj. destruct (Hfree j i p h Hj Hhj) as [Hn Hpend]. split_and!.
    + rewrite Hst. apply elem_of_list_to_map_1.
      { rewrite named_fst by done. by apply l4_names_NoDup. }
      apply list_elem_of_lookup. exists j. unfold named. rewrite lookup_zip_with, Hj. simpl. by rewrite Hhj.
    + by rewrite Hspec.
    + replace oth' with (pending_and_prune occ' (k_instance k) (k_now k') (pending s2)).1 by by rewrite Hpr.
      rewrite elem_of_others. intros (e & o & (Hg & ? & _)%pget_prune & Ho). destruct (Hpend e o Hg); [done|lia].
    + by rewrite ports_of_empty; apply not_elem_of_empty.
  - intros j i p Hj. destruct (chosen_lookup _ _ _ _ _ _ _ _ _ Hc Hj) as (h & ? & _). by exists h.
  - by eapply chosen_granted_NoDup.
  - rewrite Hrun, Hh. by eexists.
Qed.

(** ** Concrete runs *)
Definition l4_port (name proto : string) (same : bool) : port_info :=
  {| port_container := "51820"; container_name := "wg"; port_name := name; url := VNull;
     protocol := VStr proto; exposure_tier := VStr "l4"; same_port := same; streaming := false;
     port_host := None |}.

(** Another instance runs with udp 20000 published. *)
Definition busy : list container :=
  [{| c_project := Some "other";
      c_ports := [Some {| public_port := Some 20000%Z; spec_type := Some "udp" |}; None] |}].

Definition sample_call (id : string) (now : Z) (ports : list port_info) : call :=
  {| k_instance := id; k_range_start := 20000; k_range_end := 20003; k_bind := "0.0.0.0";
     k_now := now; k_ttl := 300000; k_listing := Some busy; k_ports := ports |}.

Definition two_ports : list port_info := [l4_port "wg_1" "udp" true; l4_port "wg_2" "tcp" false].

Definition after_first : l4_state :=
  (allocate (sample_call "a" 5 two_ports) {| pending := ∅; sidecars := ∅ |}).2.

Lemma allocate_exclusive_witness : ∃ h,
  [(0%nat, 20001%Z); (1%nat, 20000%Z)] !! 0%nat = Some (0%nat, h) ∧
  pget "udp" h (pending after_first) = Some (300005%Z, "a").
Proof.
  destruct (allocate_exclusive (sample_call "a" 5 two_ports) {| pending := ∅; sidecars := ∅ |}
    [(0%nat, 20001%Z); (1%nat, 20000%Z)] after_first busy 0%nat 0%nat (l4_port "wg_1" "udp" true))
    as (h & Hh & _ & _ & _ & Hp); [by vm_compute..|]. by exists h.
Defined.

Lemma allocate_same_port_witness :
  [(0%nat, 20001%Z); (1%nat, 20000%Z)] !! 0%nat = Some (0%nat, 20001%Z).
Proof.
  apply (allocate_same_port (sample_call "a" 9 two_ports) after_first _
    (allocate (sample_call "a" 9 two_ports) after_first).2
    {[ "wg_1" := 20001%Z; "wg_2" := 20000%Z ]} 0 0 (l4_port "wg_1" "udp" true));
    by vm_compute.
Defined.

Definition one_grant : system :=
  {| sys_l4 := after_first; sys_clock := 5;
     sys_grants := [{| g_owner := "a"; g_proto := "udp"; g_port := 20001; g_until := 300005 |}] |}.

Lemma allocations_disjoint_witness : ("udp", 20002%Z) ≠ ("udp", 20001%Z).
Proof.
  apply (allocations_disjoint 300000 one_grant (sample_call "b" 6 two_ports)
    [(0%nat, 20002%Z); (1%nat, 20001%Z)] (allocate (sample_call "b" 6 two_ports) after_first).2
    {| g_owner := "a"; g_proto := "udp"; g_port := 20001; g_until := 300005 |}
    0 0 (l4_port "wg_1" "udp" true) 20002); [|by vm_compute|left|by vm_compute|done|done|done].
  eapply reach_step; [apply (reach_init _ ∅ 0%Z)|].
  apply (step_allocate _ _ (sample_call "a" 5 two_ports) (Ok [(0%nat, 20001%Z); (1%nat, 20000%Z)]));
    [done|done|by vm_compute|].
  intros g ->%list_elem_of_singleton. right. eexists; split; [done|]. by left.
Defined.

Lemma redeploy_keeps_ports_witness : ∃ s3,
  allocate (sample_call "a" 7 two_ports) after_first = (Ok [(0%nat, 20001%Z); (1%nat, 20000%Z)], s3).
Proof.
  apply (redeploy_keeps_ports (sample_call "a" 5 two_ports) {| pending := ∅; sidecars := ∅ |}
    [(0%nat, 20001%Z); (1%nat, 20000%Z)] after_first (sample_call "a" 7 two_ports) after_first busy).
  - by vm_compute.
  - refine (bool_decide_eq_true_1 _ _); by vm_compute.
  - done.
  - done.
  - done.
  - done.
  - intros j i p h Hj Hh.
    destruct (published_l4_ports_spec 20000 20003 (Some "a") busy) as (m & Hm & Hs).
    cbn [k_range_start k_range_end k_instance sample_call]. rewrite <-Hs.
    vm_compute in Hm. injection Hm as <-.
    destruct j as [|[|j]]; [| |discriminate Hh];
      (vm_compute in Hj, Hh; injection Hj as <- <-; injection Hh as <-;
       split; [refine (bool_decide_eq_true_1 _ _); by vm_compute|];
       intros e o Hp; vm_compute in Hp; injection Hp as <- <-; by left).
Defined.

(** A port added before an existing one takes the existing one's host port: the pinned proxy
    endpoint is then refused although no other instance holds it. *)
Example new_port_steals_sticky :
  let ports := [l4_port "new_1" "udp" false; l4_port "wg_1" "udp" true] in
  let s := {| pending := ∅; sidecars := {[ "a" := Ports [("wg_1", JInt 20001)] ]} |} in
  (allocate (sample_call "a" 5 ports) s).1 = Raise (L4SamePortConflict "wg_1" 20001).
Proof. by vm_compute. Qed.

(** A sidecar port outside the configured range is reused unseen: the daemon listing is filtered
    to the range, so the running container that holds it is invisible. *)
Example stale_range_reused :
  let s := {| pending := ∅; sidecars := {[ "a" := Ports [("wg_1", JInt 20000)] ]} |} in
  let k := {| k_instance := "a"; k_range_start := 30000; k_range_end := 30003; k_bind := "0.0.0.0";
              k_now := 5; k_ttl := 300000; k_listing := Some busy;
              k_ports := [l4_port "wg_1" "udp" false] |} in
  (allocate k s).1 = Ok [(0%nat, 20000%Z)].
Proof. by vm_compute. Qed.
