(* ===== verification/CertRenewal.v ===== *)
(** [app/workers/cert_renewal.py]: renewing the upstream certificate of every
    instance of a node.

    The world outside the process (the manager, the sidecars, docker, the
    clocks) is the argument [E : env]: each answer may depend on everything
    that happened before, which the state keeps as [log], newest first.  Every
    call that leaves the process appends an [event] with its answer, so the
    theorems read the order of effects off the log, for every environment. *)
From Stdlib Require Import Ascii String.
From S2P Require Import Prelude PyValue.
Import Text.
Local Open Scope string_scope.

(** ** Answers and effects *)
Record cert : Type := { serial_number : option string }.

(** An HTTP exchange: a transport failure, or a status, a body and what the body
    is as JSON: [Some None] for [null], [Some (Some c)] for the object of a
    certificate, [None] for what is no JSON or has no [get]. *)
Inductive http : Type :=
  | NoAnswer
  | Answer (status : Z) (text : string) (json : option (option cert)).

Definition served : Type := option string * option Z.

Inductive event : Type :=
  | EProbe (id : string) (answer : served)
  | EMint (id : string) (answer : http)
  | EInstall (id : string) (ok : bool)
  | EReload (id : string) (ok : bool)
  | ERestart (id : string) (ok : bool)
  | EReport (id : string) (serial : option string) (answer : http)
  | ESave (ledger : gmap string string)
  | ELock (id : string) (refusal : option string)
  | EUnlock (id : string)
  | ESleep (ms : Z).

Notation history := (list event).

Record env : Type := {
  probe_answer : history → string → served;
  mint_answer : history → string → http;
  install_answer : history → string → bool;
  reload_answer : history → string → bool;
  restart_answer : history → string → bool;
  report_answer : history → string → http;
  lock_answer : history → string → option string;  (** [None]: acquired *)
  compose_inflight : history → string → bool;
  started_at : history → string → option Z;        (** [State.StartedAt], UTC ms *)
  rendered_compose : history → string → option value;
  disk_writable : history → bool;
  monotonic : history → Z;                          (** ms *)
  utc_now : history → Z;                            (** ms *)
  stop_is_set : history → bool;
  statuses : history → list (string * string);
  pass_lock_free : history → bool;
}.

Record settings : Type := {
  cert_renewal_interval : Z;      (** seconds *)
  cert_renewal_window_days : Z;
}.

Inductive exc : Type :=
  | RenewalUnavailable | NodeRateLimited | NodeAuthLost | NodeCapped
  | InstanceNotFound | RenewalAlreadyRunning | OtherException.

Inductive status : Type := RENEWED | NOT_DUE | SKIPPED | FAILED.
Global Instance status_eq_dec : EqDecision status.
Proof. solve_decision. Defined.

Record outcome : Type := Outcome {
  o_status : status; o_serial : option string; o_reason : option string }.

Record pass_result : Type := PassResult {
  considered : Z; renewed : Z; skipped : Z; errors : Z;
  selected : option status; deferred : Z }.

(** ** Constants *)
Definition _REPORT_ATTEMPTS : nat := 3.
Definition _REPORT_RETRY_SECONDS : Z := 2.
Definition _SETTLE_SECONDS : Z := 20.
Definition _SETTLE_POLL_MS : Z := 500.
Definition _COMPOSE_SETTLE_SECONDS : Z := 90.
Definition _BLIND_STREAK_ABORT : Z := 3.
Definition _DEFERRED_RETRY_SECONDS : Z := 120.
Definition _CAPPED_RETRY_SECONDS : Z := 3600.
Definition _BACKOFF_CAP_SECONDS : Z := 86400.
Definition _STARTUP_JITTER_SECONDS : Z := 300.
Definition _TRANSIENT_SKIPS : list string :=
  ["instance_busy"; "compose_inflight"; "sidecar_settling"].

Definition is_some {A} (o : option A) : bool := match o with Some _ => true | None => false end.

(** Polls of the settle loop: [_SETTLE_SECONDS / _SETTLE_POLL_SECONDS] and one. *)
Definition settle_fuel : nat := 41.

(** ** Pure helpers *)
Definition norm_serial (s : string) : string := lstrip_char "0" (lower (strip s)).

Definition _same_serial (a b : option string) : bool :=
  match a, b with
  | Some a, Some b =>
      if bool_decide (a = "") || bool_decide (b = "") then false
      else String.eqb (norm_serial a) (norm_serial b)
  | _, _ => false
  end.

Definition _due_for_renewal (not_after : option Z) (now window_days : Z) : bool :=
  match not_after with
  | None => true
  | Some t => (t - now <=? window_days * 86400000)%Z
  end.

(** The host side of the first mapping that has one. *)
Definition host_of_mapping (m : value) : option Z :=
  let host := strip (fst (partition ":" (match m with VStr s => s | VInt z => pretty z | _ => "" end))) in
  if isdigit host then Some (int_of_digits host) else None.

(** [d.get(k, {})] of a value that must be a dict. *)
Definition get_dict (k : string) (v : value) : result exc value :=
  match v with
  | VDict d => mret (default (VDict []) (dict_get k d))
  | _ => Raise OtherException
  end.

Definition _sidecar_host_port (rendered : option value) : result exc (option Z) :=
  match rendered with
  | None => mret None
  | Some r =>
      services ← get_dict "services" (if truthy r then r else VDict []);
      nginx ← get_dict "greffon_nginx" services;
      match (if truthy nginx then nginx else VDict []) with
      | VDict d =>
          match get_or_null "ports" d with
          | VList ports => mret (head (omap host_of_mapping ports))
          | v => if truthy v then Raise OtherException else mret None
          end
      | _ => Raise OtherException
      end
  end.

(** ** State *)
Record state : Type := {
  unconfirmed : gmap string string;
  ledger_file : gmap string string;
  backoff : gmap string (Z * Z);
  blind_streak : Z;
  log : history;
}.

Definition set_unconfirmed u s := {| unconfirmed := u; ledger_file := ledger_file s;
  backoff := backoff s; blind_streak := blind_streak s; log := log s |}.
Definition set_backoff b s := {| unconfirmed := unconfirmed s; ledger_file := ledger_file s;
  backoff := b; blind_streak := blind_streak s; log := log s |}.
Definition set_blind n s := {| unconfirmed := unconfirmed s; ledger_file := ledger_file s;
  backoff := backoff s; blind_streak := n; log := log s |}.
Definition record e s := {| unconfirmed := unconfirmed s; ledger_file := ledger_file s;
  backoff := backoff s; blind_streak := blind_streak s; log := e :: log s |}.
Definition write_ledger s := {| unconfirmed := unconfirmed s; ledger_file := unconfirmed s;
  backoff := backoff s; blind_streak := blind_streak s; log := ESave (unconfirmed s) :: log s |}.

(** What one report attempt leaves to do. *)
Inductive verdict : Type := Settled | Stop | Retry.

Section renewal.
Context (E : env) (cfg : settings).
Notation R := (M state exc).

(** An effect: ask the world, record the answer. *)
Definition ask {A} (f : history → A) (ev : A → event) : R A := λ s,
  let a := f (log s) in (Ok a, record (ev a) s).

Definition probe (id : string) : R served := ask (λ h, probe_answer E h id) (EProbe id).
Definition sleep (ms : Z) : R unit := modify (record (ESleep ms)).

(** ** The owed-confirmation ledger *)
Definition _save_unconfirmed : R unit := λ s,
  if disk_writable E (log s) then (Ok tt, write_ledger s) else (Ok tt, s).

Definition _load_unconfirmed : R unit :=
  modify (λ s, set_unconfirmed (unconfirmed s ∪ ledger_file s) s).

Definition owes (id : string) (s : state) : bool := is_some (unconfirmed s !! id).

Definition owe (id serial : string) : R unit :=
  modify (λ s, set_unconfirmed (<[id := serial]> (unconfirmed s)) s);; _save_unconfirmed.

Definition _clear_debt (id : string) : R unit :=
  owed ← gets (owes id);
  when owed (modify (λ s, set_unconfirmed (delete id (unconfirmed s)) s);; _save_unconfirmed).

(** ** Backoff *)
Definition _in_backoff (id : string) : R bool :=
  gets (λ s, match backoff s !! id with
             | Some (_, deadline) => (monotonic E (log s) <? deadline)%Z
             | None => false
             end).

Definition backoff_delay (failures : Z) : Z :=
  Z.min (cert_renewal_interval cfg * 2 ^ (failures - 1)) _BACKOFF_CAP_SECONDS.

Definition _note_failure (id : string) : R unit :=
  modify (λ s,
    let failures := (fst (default (0, 0) (backoff s !! id)) + 1)%Z in
    set_backoff (<[id := (failures, monotonic E (log s) + backoff_delay failures * 1000)%Z]>
      (backoff s)) s).

Definition _clear_backoff (id : string) : R unit :=
  modify (λ s, set_backoff (delete id (backoff s)) s).

(** ** The manager *)
Definition _mint (id : string) : R (option cert) :=
  a ← ask (λ h, mint_answer E h id) (EMint id);
  match a with
  | NoAnswer => throw OtherException
  | Answer st text json =>
      if (st =? 404)%Z then
        if contains "not_found" text then mret None else throw RenewalUnavailable
      else if (st =? 429)%Z then
        if contains "rate_limited" text then throw NodeRateLimited
        else _note_failure id;; mret None
      else if ((st =? 401) || (st =? 403))%Z then throw NodeAuthLost
      else if negb (st =? 200)%Z then _note_failure id;; mret None
      else match json with Some c => mret c | None => throw OtherException end
  end.

Definition report_verdict (a : http) : verdict :=
  match a with
  | NoAnswer => Retry
  | Answer st text _ =>
      if ((st =? 200) || (st =? 409))%Z then Settled
      else if ((st =? 401) || (st =? 403))%Z then Stop
      else if (st =? 404)%Z && negb (contains "not_found" text) then Stop
      else if (st <? 500)%Z then Settled
      else Retry
  end.

Fixpoint report_attempts (rest : nat) (attempt : Z) (id : string) (serial : option string) : R unit :=
  match rest with
  | O => mret tt
  | S rest =>
      a ← ask (λ h, report_answer E h id) (EReport id serial);
      match report_verdict a with
      | Settled => _clear_debt id
      | Stop => mret tt
      | Retry =>
          when (attempt + 1 <? Z.of_nat _REPORT_ATTEMPTS)%Z
            (sleep (_REPORT_RETRY_SECONDS * (attempt + 1) * 1000));;
          report_attempts rest (attempt + 1) id serial
      end
  end.

Definition _report (id : string) (serial : option string) : R unit :=
  owe id (default "" serial);;
  report_attempts _REPORT_ATTEMPTS 0 id serial.

(** ** The sidecar *)
Definition _sidecar_settling (id : string) : R bool :=
  gets (λ s, match started_at E (log s) id with
             | Some t => (utc_now E (log s) - t <? _COMPOSE_SETTLE_SECONDS * 1000)%Z
             | None => false
             end).

(** Poll until the wanted serial appears or the deadline passes. *)
Fixpoint await_loop (fuel : nat) (deadline : Z) (id : string) (wanted : option string)
    (now : served) : R served :=
  late ← gets (λ s, negb (monotonic E (log s) <? deadline)%Z);
  if _same_serial (fst now) wanted || late then mret now
  else match fuel with
  | O => mret now
  | S fuel =>
      sleep _SETTLE_POLL_MS;;
      now ← probe id;
      await_loop fuel deadline id wanted now
  end.

Definition _await_serial (id : string) (wanted : option string) : R served :=
  deadline ← gets (λ s, monotonic E (log s) + _SETTLE_SECONDS * 1000)%Z;
  now ← probe id;
  await_loop settle_fuel deadline id wanted now.

Definition host_port (id : string) : R (option Z) :=
  r ← gets (λ s, rendered_compose E (log s) id);
  lift (_sidecar_host_port r).

(** ** One instance *)

(** What the sidecar serves in the end: a look after the reload and, only when
    it shows another certificate, a restart and a second look. *)
Definition verify (id : string) (wanted : option string) (reloaded : bool) : R (option string) :=
  seen ← (if reloaded then _await_serial id wanted else probe id);
  match fst seen with
  | None => mret None
  | Some s =>
      if _same_serial (Some s) wanted then mret (Some s)
      else
        restarted ← ask (λ h, restart_answer E h id) (ERestart id);
        if (restarted : bool) then now ← _await_serial id wanted; mret (fst now)
        else mret (Some s)
  end.

(** After a mint: install, reload, look, restart on a mismatch, report. *)
Definition install_and_verify (id : string) (before : option string) (c : cert) : R outcome :=
  let wanted := serial_number c in
  installed ← ask (λ h, install_answer E h id) (EInstall id);
  if negb installed then
    _report id before;; _note_failure id;; mret (Outcome FAILED before None)
  else
    reloaded ← ask (λ h, reload_answer E h id) (EReload id);
    final ← verify id wanted reloaded;
    _report id final;;
    if _same_serial final wanted
    then _clear_backoff id;; mret (Outcome RENEWED final None)
    else _note_failure id;; mret (Outcome FAILED final None).

Definition definitive (e : exc) : bool :=
  match e with RenewalUnavailable | NodeRateLimited | NodeAuthLost => true | _ => false end.

Definition mint_and_install (id : string) (before : option string) : R outcome :=
  owed_before ← gets (owes id);
  when (negb owed_before) (owe id (default "" before));;
  c ← catch (_mint id)
        (λ e, when (definitive e && negb owed_before) (_clear_debt id);; throw e);
  match c with
  | None => when (negb owed_before) (_clear_debt id);; mret (Outcome FAILED before None)
  | Some c => install_and_verify id before c
  end.

Definition _renew_locked (id : string) (force : bool) : R outcome :=
  in_backoff ← _in_backoff id;
  if in_backoff && negb force then mret (Outcome SKIPPED None None)
  else
    port ← host_port id;
    match port with
    | None => mret (Outcome SKIPPED None None)
    | Some _ =>
        inflight ← gets (λ s, compose_inflight E (log s) id);
        if (inflight : bool) then mret (Outcome SKIPPED None (Some "compose_inflight"))
        else
          settling ← _sidecar_settling id;
          if (settling : bool) then mret (Outcome SKIPPED None (Some "sidecar_settling"))
          else
            before ← probe id;
            modify (λ s, set_blind (if is_some (fst before) then 0 else blind_streak s + 1)%Z s);;
            due ← gets (λ s, _due_for_renewal (snd before) (utc_now E (log s))
                               (cert_renewal_window_days cfg));
            if negb force && negb due
            then _clear_backoff id;; mret (Outcome NOT_DUE (fst before) None)
            else mint_and_install id (fst before)
    end.

Definition acquire_unless_handoff (id : string) : R (option string) :=
  ask (λ h, lock_answer E h id) (ELock id).
Definition release (id : string) : R unit := modify (record (EUnlock id)).

(** The probe of the debt path, under the lock. *)
Definition probe_for_debt (id : string) : R (option (option string)) :=
  inflight ← gets (λ s, compose_inflight E (log s) id);
  settling ← _sidecar_settling id;
  if (inflight : bool) || (settling : bool) then mret None
  else
    refusal ← acquire_unless_handoff id;
    match refusal with
    | Some _ => mret None
    | None =>
        finally
          (port ← host_port id;
           match port with
           | None => mret None
           | Some _ => now ← probe id; mret (Some (fst now))
           end)
          (release id)
    end.

Definition settle_debt (id : string) : R unit :=
  probed ← probe_for_debt id;
  match probed with
  | Some serial => _report id serial
  | None => mret tt
  end.

Definition renew_one (id : string) (force : bool) : R outcome :=
  owed ← gets (owes id);
  when owed (settle_debt id);;
  refusal ← acquire_unless_handoff id;
  match refusal with
  | Some reason => mret (Outcome SKIPPED None (Some reason))
  | None => finally (_renew_locked id force) (release id)
  end.

(** ** One pass over the node *)
Record tally : Type := Tally {
  t_considered : Z; t_renewed : Z; t_skipped : Z; t_errors : Z;
  t_selected : option status; t_deferred : Z;
  t_unauthorized : bool; t_capped : bool; t_done : bool;  (** the loop's [break] *)
}.

Definition count_outcome (chosen : bool) (o : outcome) (t : tally) : tally := {|
  t_considered := t_considered t;
  t_renewed := (t_renewed t + if decide (o_status o = RENEWED) then 1 else 0)%Z;
  t_skipped := (t_skipped t + if decide (o_status o = SKIPPED) then 1 else 0)%Z;
  t_errors := (t_errors t + if decide (o_status o = FAILED) then 1 else 0)%Z;
  t_selected := if chosen then Some (o_status o) else t_selected t;
  t_deferred := (t_deferred t +
    if decide (o_status o = SKIPPED)
    then match o_reason o with
         | Some r => if mem r _TRANSIENT_SKIPS then 1 else 0 | None => 0 end
    else 0)%Z;
  t_unauthorized := t_unauthorized t; t_capped := t_capped t; t_done := t_done t |}.

Definition consider (t : tally) : tally := {|
  t_considered := (t_considered t + 1)%Z; t_renewed := t_renewed t; t_skipped := t_skipped t;
  t_errors := t_errors t; t_selected := t_selected t; t_deferred := t_deferred t;
  t_unauthorized := t_unauthorized t; t_capped := t_capped t; t_done := t_done t |}.

Definition stop_pass (unauthorized capped : bool) (t : tally) : tally := {|
  t_considered := t_considered t; t_renewed := t_renewed t; t_skipped := t_skipped t;
  t_errors := t_errors t; t_selected := t_selected t; t_deferred := t_deferred t;
  t_unauthorized := unauthorized || t_unauthorized t; t_capped := capped || t_capped t;
  t_done := true |}.

Definition count_unavailable (chosen : bool) (t : tally) : tally := {|
  t_considered := t_considered t; t_renewed := t_renewed t; t_skipped := (t_skipped t + 1)%Z;
  t_errors := t_errors t; t_selected := if chosen then Some SKIPPED else t_selected t;
  t_deferred := t_deferred t; t_unauthorized := t_unauthorized t; t_capped := t_capped t;
  t_done := t_done t |}.

Definition count_error (chosen : bool) (t : tally) : tally := {|
  t_considered := t_considered t; t_renewed := t_renewed t; t_skipped := t_skipped t;
  t_errors := (t_errors t + 1)%Z; t_selected := if chosen then Some FAILED else t_selected t;
  t_deferred := t_deferred t; t_unauthorized := t_unauthorized t; t_capped := t_capped t;
  t_done := t_done t |}.

(** [if _blind_streak >= _BLIND_STREAK_ABORT: break] *)
Definition check_blind (t : tally) : R tally :=
  blind ← gets (λ s, (_BLIND_STREAK_ABORT <=? blind_streak s)%Z);
  mret (if (blind : bool) then stop_pass false false t else t).

Definition visit (only : option string) (force : bool) (t : tally) (instance : string * string) :
    R tally :=
  let '(id, st) := instance in
  let chosen := bool_decide (only = Some id) in
  if t_done t || (is_some only && negb chosen) || negb (String.eqb st "running")
  then mret t
  else
    stopping ← gets (λ s, stop_is_set E (log s));
    if (stopping : bool) then mret (stop_pass false false t)
    else
      let t := consider t in
      r ← attempt (renew_one id force);
      match r with
      | Ok o => check_blind (count_outcome chosen o t)
      | Raise RenewalUnavailable => mret (stop_pass false false (count_unavailable chosen t))
      | Raise NodeAuthLost => mret (stop_pass true false t)
      | Raise NodeRateLimited => mret (stop_pass false true t)
      | Raise _ => _note_failure id;; check_blind (count_error chosen t)
      end.

Definition forget_departed (ids : list string) : R unit :=
  modify (λ s, set_backoff (filter (λ kv, kv.1 ∈ ids) (backoff s)) s);;
  modify (λ s, set_unconfirmed (filter (λ kv, kv.1 ∈ ids) (unconfirmed s)) s);;
  _save_unconfirmed.

Definition empty_tally : tally := Tally 0 0 0 0 None 0 false false false.

Definition to_result (t : tally) : pass_result :=
  PassResult (t_considered t) (t_renewed t) (t_skipped t) (t_errors t) (t_selected t) (t_deferred t).

Definition _renew_all_locked (only : option string) (force : bool) : R pass_result :=
  _load_unconfirmed;;
  modify (set_blind 0);;
  stopping ← gets (λ s, stop_is_set E (log s));
  if (stopping : bool) then mret (to_result empty_tally)
  else
    all ← gets (λ s, statuses E (log s));
    stopping ← gets (λ s, stop_is_set E (log s));
    if (stopping : bool) then mret (to_result empty_tally)
    else if match only with Some i => negb (mem i all.*1) | None => false end
    then throw InstanceNotFound
    else
      t ← foldS (visit only force) empty_tally all;
      forget_departed all.*1;;
      if t_unauthorized t then throw NodeAuthLost
      else if t_capped t then throw NodeCapped
      else mret (to_result t).

Definition renew_all (only : option string) (force : bool) : R pass_result :=
  free ← gets (λ s, pass_lock_free E (log s));
  if (free : bool) then _renew_all_locked only force else throw RenewalAlreadyRunning.

(** ** The worker's schedule: the delay before the next pass. *)
Definition first_delay (jitter : Z) : Z := Z.min jitter (cert_renewal_interval cfg).

Definition next_delay (r : result exc pass_result) : Z :=
  let interval := cert_renewal_interval cfg in
  match r with
  | Ok p => if (deferred p =? 0)%Z then interval else Z.min _DEFERRED_RETRY_SECONDS interval
  | Raise (RenewalAlreadyRunning | NodeAuthLost) => Z.min _DEFERRED_RETRY_SECONDS interval
  | Raise NodeCapped => Z.min _CAPPED_RETRY_SECONDS interval
  | Raise _ => interval
  end.
End renewal.

(** ** What a computation appends to the log *)
(** Right-nested appends, empty ones removed. *)
Ltac norm_app := rewrite ?app_nil_l, <-?app_assoc; cbn [app].

Section emits.
Context (E : env) (cfg : settings).

Definition emits {A} (m : M state exc A) (P : history → result exc A → Prop) : Prop :=
  ∀ s, wp m (λ r s', ∃ new, log s' = (new ++ log s)%list ∧ P new r) s.

Lemma emits_mono {A} (m : M state exc A) (P Q : history → result exc A → Prop) :
  emits m P → (∀ new r, P new r → Q new r) → emits m Q.
Proof. intros Hm H s. eapply wp_mono; [apply Hm|]. cbv beta. naive_solver. Qed.

Lemma emits_bind {A B} (m : M state exc A) (k : A → M state exc B) P Q :
  emits m P →
  (∀ new a, P new (Ok a) → emits (k a) (λ new' r, Q (new' ++ new)%list r)) →
  (∀ new e, P new (Raise e) → Q new (Raise e)) →
  emits (m ≫= k) Q.
Proof.
  intros Hm Hk He s. apply wp_bind. eapply wp_mono; [apply Hm|].
  intros [a|e] s' (new & Hl & HP); cbv beta iota.
  - eapply wp_mono; [by eapply Hk|]. intros r s'' (new' & Hl' & HQ).
    exists (new' ++ new)%list. by rewrite Hl', Hl, app_assoc.
  - eauto.
Qed.

Lemma emits_catch {A} (m : M state exc A) h (P Q : history → result exc A → Prop) :
  emits m P → (∀ new a, P new (Ok a) → Q new (Ok a)) →
  (∀ new e, P new (Raise e) → emits (h e) (λ new' r, Q (new' ++ new)%list r)) →
  emits (catch m h) Q.
Proof.
  intros Hm Ha He s. apply wp_catch. eapply wp_mono; [apply Hm|].
  intros [a|e] s' (new & Hl & HP); cbv beta iota; [by eauto|].
  eapply wp_mono; [by eapply He|]. intros r s'' (new' & Hl' & HQ).
  exists (new' ++ new)%list. by rewrite Hl', Hl, app_assoc.
Qed.

Lemma emits_finally_release {A} (m : M state exc A) id (P Q : history → result exc A → Prop) :
  emits m P → (∀ new r, P new r → Q (EUnlock id :: new) r) → emits (finally m (release id)) Q.
Proof.
  intros Hm HQ s. apply wp_finally. eapply wp_mono; [apply Hm|].
  intros r s' (new & Hl & HP). exists (EUnlock id :: new). simpl. rewrite Hl. auto.
Qed.

(** A computation that leaves the log alone. *)
Lemma emits_quiet {A} (m : M state exc A) (P : history → result exc A → Prop) :
  (∀ s, log (m s).2 = log s ∧ P [] (m s).1) → emits m P.
Proof. intros H s. destruct (H s) as [Hl HP]. exists []. by rewrite Hl. Qed.

Lemma emits_ret {A} (a : A) (P : history → result exc A → Prop) : P [] (Ok a) → emits (mret a) P.
Proof. intros HP. by apply emits_quiet. Qed.

Lemma emits_throw {A} e (P : history → result exc A → Prop) : P [] (Raise e) → emits (throw e) P.
Proof. intros HP. apply emits_quiet. intros s. by split. Qed.

Lemma emits_gets {A} (f : state → A) (P : history → result exc A → Prop) :
  (∀ s, P [] (Ok (f s))) → emits (gets f) P.
Proof. intros HP. apply emits_quiet. intros s. split; [done|apply HP]. Qed.

Lemma emits_ask {A} (f : history → A) ev (P : history → result exc A → Prop) :
  (∀ h, P [ev (f h)] (Ok (f h))) → emits (ask f ev) P.
Proof. intros HP s. exists [ev (f (log s))]. split; [done|apply HP]. Qed.

Lemma emits_gets_bind {A B} (f : state → A) (k : A → M state exc B) Q :
  (∀ a, emits (k a) Q) → emits (gets f ≫= k) Q.
Proof. intros Hk s. apply wp_bind, wp_gets, Hk. Qed.

Lemma emits_modify_bind {B} (f : state → state) (k : unit → M state exc B) Q :
  (∀ s, log (f s) = log s) → emits (k tt) Q → emits (modify f ≫= k) Q.
Proof. intros Hf Hk s. apply wp_bind, wp_modify. rewrite <-(Hf s). apply Hk. Qed.

Lemma emits_when b (m : M state exc unit) (Q : history → result exc unit → Prop) :
  (b = true → emits m Q) → (b = false → Q [] (Ok tt)) → emits (when b m) Q.
Proof. destruct b; simpl; intros H1 H2; [auto|]. apply emits_ret; auto. Qed.

(** Bookkeeping events: the ledger is written, time passes. *)
Definition bookkeeping (e : event) : Prop :=
  match e with ESave _ | ESleep _ => True | _ => False end.

Definition reporting (id : string) (serial : option string) (e : event) : Prop :=
  bookkeeping e ∨ ∃ a, e = EReport id serial a.

Lemma bookkeeping_reporting id serial l : Forall bookkeeping l → Forall (reporting id serial) l.
Proof. intros Hl. eapply Forall_impl; [exact Hl|]. intros e He. by left. Qed.

Definition looking (id : string) (e : event) : Prop :=
  bookkeeping e ∨ ∃ a, e = EProbe id a.

Lemma save_emits : emits (_save_unconfirmed E) (λ new r, r = Ok tt ∧ Forall bookkeeping new).
Proof.
  intros s. unfold wp, _save_unconfirmed. destruct (disk_writable E (log s)).
  - exists [ESave (unconfirmed s)]. by repeat constructor.
  - by exists [].
Qed.

Lemma owe_emits id v : emits (owe E id v) (λ new r, r = Ok tt ∧ Forall bookkeeping new).
Proof. apply emits_modify_bind; [done|]. apply save_emits. Qed.

Lemma clear_emits id : emits (_clear_debt E id) (λ new r, r = Ok tt ∧ Forall bookkeeping new).
Proof.
  apply emits_gets_bind. intros b. apply emits_when; [|done].
  intros _. apply emits_modify_bind; [done|]. apply save_emits.
Qed.

Lemma sleep_emits ms : emits (sleep ms) (λ new r, r = Ok tt ∧ new = [ESleep ms]).
Proof. intros s. by exists [ESleep ms]. Qed.

Lemma note_emits id : emits (_note_failure E cfg id) (λ new r, r = Ok tt ∧ new = []).
Proof. apply emits_quiet. intros s. by split_and!. Qed.

Lemma report_attempts_emits n k id serial :
  emits (report_attempts E n k id serial) (λ new r, r = Ok tt ∧
    Forall (reporting id serial) new ∧ (n ≠ O → ∃ a, EReport id serial a ∈ new)).
Proof.
  revert k. induction n as [|n IH]; intros k; cbn [report_attempts].
  { apply emits_ret. by repeat constructor. }
  eapply emits_bind; [by apply (emits_ask _ _ (λ new r, ∃ a, new = [EReport id serial a] ∧ r = Ok a)); eauto| |].
  2: { by intros new e (a & _ & ?). }
  intros new a (a' & -> & [= ->]).
  assert (∀ new', Forall (reporting id serial) new' →
    Forall (reporting id serial) (new' ++ [EReport id serial a'])) as Happ.
  { intros new' Hn. apply Forall_app. split; [done|]. constructor; [right; by exists a'|constructor]. }
  assert (∀ new', ∃ a, EReport id serial a ∈ (new' ++ [EReport id serial a'])%list) as Hex.
  { intros new'. exists a'. apply elem_of_app. right. left. }
  destruct (report_verdict a').
  - eapply emits_mono; [apply clear_emits|]. intros new' r [-> Hn]. split_and!; [done| |by intros _].
    apply Happ. by apply bookkeeping_reporting.
  - apply emits_ret. split_and!; [done|by apply (Happ [])|intros _; apply (Hex [])].
  - eapply emits_bind.
    + apply (emits_when _ _ (λ new r, r = Ok tt ∧ Forall bookkeeping new)).
      * intros _. eapply emits_mono; [apply sleep_emits|]. intros ? ? [-> ->]. by repeat constructor.
      * by repeat constructor.
    + intros new' [] [_ Hn]. eapply emits_mono; [apply IH|].
      intros new'' r (-> & Hr & _). split_and!; [done| |intros _; apply Hex].
      apply Happ, Forall_app. split; [done|].
      by apply bookkeeping_reporting.
    + by intros new' e [? _].
Qed.

Lemma report_emits id serial :
  emits (_report E id serial) (λ new r, r = Ok tt ∧ Forall (reporting id serial) new ∧
    ∃ a, EReport id serial a ∈ new).
Proof.
  eapply emits_bind; [apply owe_emits| |by intros new e [? _]].
  intros new [] [_ Hn]. eapply emits_mono; [apply report_attempts_emits|].
  intros new' r (-> & Hr & Ha). destruct Ha as [a Ha]; [done|]. split_and!; [done| |].
  - apply Forall_app. split; [done|]. by apply bookkeeping_reporting.
  - exists a. apply elem_of_app. by left.
Qed.

Lemma await_loop_emits fuel deadline id wanted now :
  emits (await_loop E fuel deadline id wanted now) (λ new r, ∃ now', r = Ok now' ∧
    Forall (looking id) new ∧ (new = [] ∧ now' = now ∨ ∃ rest, new = EProbe id now' :: rest)).
Proof.
  revert now. induction fuel as [|fuel IH]; intros now; cbn [await_loop];
    apply emits_gets_bind; intros late; destruct (_ || _).
  1-3: apply emits_ret; exists now; split_and!; [done|constructor|by left].
  eapply emits_bind; [apply (sleep_emits _SETTLE_POLL_MS)| |].
  2: by intros new e [? _].
  intros new [] [_ ->].
  eapply emits_bind; [by apply (emits_ask _ _ (λ new r, ∃ a, new = [EProbe id a] ∧ r = Ok a)); eauto| |].
  2: by intros new e (? & _ & ?).
  intros new a (a' & -> & [= ->]). eapply emits_mono; [apply IH|].
  intros new r (now' & -> & Hn & Hlast). exists now'. split_and!; [done| |].
  - rewrite <-app_assoc. apply Forall_app. split; [done|].
    constructor; [by right; exists a'|by repeat constructor].
  - right. destruct Hlast as [[-> ->]|(rest & ->)]; by eexists.
Qed.

Lemma await_emits id wanted :
  emits (_await_serial E id wanted) (λ new r, ∃ now rest, r = Ok now ∧
    new = EProbe id now :: rest ∧ Forall (looking id) new).
Proof.
  apply emits_gets_bind. intros deadline.
  eapply emits_bind; [by apply (emits_ask _ _ (λ new r, ∃ a, new = [EProbe id a] ∧ r = Ok a)); eauto| |].
  2: by intros new e (? & _ & ?).
  intros new a (a' & -> & [= ->]). eapply emits_mono; [apply await_loop_emits|].
  intros new r (now' & -> & Hn & Hlast).
  destruct Hlast as [[-> ->]|(rest & ->)]; do 2 eexists; (split_and!; [done|done|]).
  - constructor; [right; by eexists|constructor].
  - change (EProbe id now' :: rest ++ [EProbe id a'])%list with ((EProbe id now' :: rest) ++ [EProbe id a'])%list.
    apply Forall_app. split; [done|]. constructor; [right; by eexists|constructor].
Qed.

(** Every restart in the log is of this sidecar and comes right after a look
    at it that showed another certificate than the wanted one. *)
Fixpoint restarts_ok (id : string) (wanted : option string) (h : history) : Prop :=
  match h with
  | [] => True
  | e :: h' =>
      match e with
      | ERestart i _ => i = id ∧ ∃ s t l, h' = EProbe id (Some s, t) :: l ∧
          _same_serial (Some s) wanted = false
      | _ => True
      end ∧ restarts_ok id wanted h'
  end.

Definition no_restart (e : event) : Prop := match e with ERestart _ _ => False | _ => True end.

Lemma restarts_ok_app id wanted a b :
  restarts_ok id wanted a → restarts_ok id wanted b → restarts_ok id wanted (a ++ b).
Proof.
  induction a as [|e a IH]; simpl; [done|]. intros [He Ha] Hb. split; [|by apply IH].
  destruct e; try done. destruct He as (-> & s & t & l & -> & ?). split; [done|].
  exists s, t, (l ++ b)%list. done.
Qed.

Lemma restarts_ok_none id wanted l : Forall no_restart l → restarts_ok id wanted l.
Proof. induction 1 as [|e l He _ IH]; simpl; [done|]. split; [by destruct e|done]. Qed.

Lemma reporting_no_restart id serial l : Forall (reporting id serial) l → Forall no_restart l.
Proof. intros H. eapply Forall_impl; [exact H|]. intros [] [?|[? [=]]]; done. Qed.
Lemma looking_no_restart id l : Forall (looking id) l → Forall no_restart l.
Proof. intros H. eapply Forall_impl; [exact H|]. intros [] [?|[? [=]]]; done. Qed.
Lemma bookkeeping_no_restart l : Forall bookkeeping l → Forall no_restart l.
Proof. intros H. eapply Forall_impl; [exact H|]. by intros []. Qed.

(** A renewal that counts: the last look before the report showed the minted
    certificate, and that is what was reported. *)
Definition renewed_ok (id : string) (wanted : option string) (new : history) (o : outcome) : Prop :=
  o_status o = RENEWED → ∃ s t l1 l2 a, new = (l1 ++ EProbe id (Some s, t) :: l2)%list ∧
    o_serial o = Some s ∧ _same_serial (Some s) wanted = true ∧
    Forall (λ e, reporting id (Some s) e ∨ e = EUnlock id) l1 ∧ EReport id (Some s) a ∈ l1.

Definition installed_ok (id : string) (c : cert) (new : history) (r : result exc outcome) : Prop :=
  restarts_ok id (serial_number c) new ∧ (∃ serial a, EReport id serial a ∈ new) ∧
  ∃ o, r = Ok o ∧ renewed_ok id (serial_number c) new o ∧ (o_status o = RENEWED ∨ o_status o = FAILED).

Lemma probe_emits id : emits (probe E id) (λ new r, ∃ now, r = Ok now ∧ new = [EProbe id now]).
Proof. apply (emits_ask _ _ (λ new r, ∃ now, r = Ok now ∧ new = [EProbe id now])). eauto. Qed.

Lemma look_emits id wanted (reloaded : bool) :
  emits (if reloaded then _await_serial E id wanted else probe E id)
    (λ new r, ∃ now rest, r = Ok now ∧ new = EProbe id now :: rest ∧ Forall (looking id) new).
Proof.
  destruct reloaded; [apply await_emits|]. eapply emits_mono; [apply probe_emits|].
  intros new r (now & -> & ->). exists now, []. split_and!; [done|done|].
  constructor; [right; by eexists|constructor].
Qed.

Lemma verify_emits id wanted reloaded :
  emits (verify E id wanted reloaded) (λ new r, ∃ final, r = Ok final ∧
    restarts_ok id wanted new ∧
    (_same_serial final wanted = true →
      ∃ s t l, final = Some s ∧ new = EProbe id (Some s, t) :: l)).
Proof.
  eapply emits_bind; [apply look_emits| |by intros new e (? & ? & ? & _)].
  intros new now ([seen t] & rest & [= ->] & -> & Hl). cbn [fst].
  assert (restarts_ok id wanted (EProbe id (seen, t) :: rest)) as Hr
    by by apply restarts_ok_none, (looking_no_restart id).
  destruct seen as [s|]; [|by apply emits_ret; exists None].
  destruct (_same_serial (Some s) wanted) eqn:Hs.
  { apply emits_ret. exists (Some s). split_and!; [done|done|]. intros _. by exists s, t, rest. }
  eapply emits_bind; [apply (emits_ask _ _ (λ new r, ∃ ok, new = [ERestart id ok] ∧ r = Ok ok)); eauto| |].
  2: by intros new e (? & _ & ?).
  intros new ok (ok' & -> & [= ->]).
  assert (restarts_ok id wanted ([ERestart id ok'] ++ EProbe id (Some s, t) :: rest)) as Hr2.
  { split; [|done]. split; [done|]. by exists s, t, rest. }
  destruct ok'; [|apply emits_ret; exists (Some s); split_and!; [done|done|by rewrite Hs]].
  eapply emits_bind; [apply await_emits| |by intros new e (? & ? & ? & _)].
  intros new now ([seen t'] & rest' & [= ->] & -> & Hl'). apply emits_ret. exists seen.
  split_and!; [done| |].
  - norm_app. rewrite app_comm_cons. apply restarts_ok_app; [|done].
    by apply restarts_ok_none, (looking_no_restart id).
  - destruct seen as [s'|]; [|done]. intros _. by eexists s', t', _.
Qed.

Lemma installed_ok_failed id c new serial a o :
  Forall no_restart new → EReport id serial a ∈ new → o_status o = FAILED →
  installed_ok id c new (Ok o).
Proof.
  intros Hn Ha Ho. split_and!; [by apply restarts_ok_none|by exists serial, a|].
  exists o. split_and!; [done| |by right]. intros He. by rewrite Ho in He.
Qed.

Lemma install_emits id before c : emits (install_and_verify E cfg id before c) (installed_ok id c).
Proof.
  unfold install_and_verify.
  eapply emits_bind; [apply (emits_ask _ _ (λ new r, ∃ ok, new = [EInstall id ok] ∧ r = Ok ok)); eauto| |].
  2: by intros new e (? & _ & ?).
  intros new ok (ok' & -> & [= ->]). destruct ok'; cbn [negb].
  - eapply emits_bind; [apply (emits_ask _ _ (λ new r, ∃ ok, new = [EReload id ok] ∧ r = Ok ok)); eauto| |].
    2: by intros new e (? & _ & ?).
    intros new ok (ok' & -> & [= ->]).
    eapply emits_bind; [apply verify_emits| |by intros new e (? & ? & _)].
    intros new final (final' & [= <-] & Hr & Hseen).
    eapply emits_bind; [apply report_emits| |by intros new' e (? & _)].
    intros new' [] (_ & Hrep & a & Ha).
    assert (∀ o, (o_status o = RENEWED → renewed_ok id (serial_number c) (new' ++ new ++ [EReload id ok'; EInstall id true]) o) →
      (o_status o = RENEWED ∨ o_status o = FAILED) →
      installed_ok id c (new' ++ new ++ [EReload id ok'; EInstall id true]) (Ok o)) as Hgoal.
    { intros o Hren Ho. split_and!.
      - apply restarts_ok_app; [by eapply restarts_ok_none, reporting_no_restart|].
        apply restarts_ok_app; [done|]. by repeat constructor.
      - exists final, a. apply elem_of_app. by left.
      - exists o. split_and!; [done| |done]. intros Ho'. by apply Hren. }
    destruct (_same_serial final (serial_number c)) eqn:Hs.
    + apply emits_modify_bind; [done|]. apply emits_ret. norm_app. apply Hgoal; [|by left].
      intros _ _. destruct (Hseen eq_refl) as (s & t & l & -> & ->).
      exists s, t, new', (l ++ [EReload id ok'; EInstall id true])%list, a. split_and!; try done.
      eapply Forall_impl; [exact Hrep|]. by left.
    + eapply emits_bind; [apply note_emits| |by intros new'' e [? _]].
      intros new'' [] [_ ->]. apply emits_ret. norm_app. apply Hgoal; [|by right].
      intros [=].
  - eapply emits_bind; [apply report_emits| |by intros new' e (? & _)].
    intros new' [] (_ & Hrep & a & Ha).
    eapply emits_bind; [apply note_emits| |by intros new'' e [? _]].
    intros new'' [] [_ ->]. apply emits_ret. norm_app.
    apply (installed_ok_failed _ _ _ before a); [|apply elem_of_app; by left|done].
    apply Forall_app. split; [by eapply reporting_no_restart|by repeat constructor].
Qed.

(** What one whole renewal may append: either nothing was restarted and
    nothing renewed, or a certificate was minted first. *)
Definition attempt_ok (id : string) (new : history) (r : result exc outcome) : Prop :=
  (Forall no_restart new ∧ ∀ o, r = Ok o → o_status o ≠ RENEWED) ∨
  ∃ txt c l1 l2, new = (l1 ++ EMint id (Answer 200 txt (Some (Some c))) :: l2)%list ∧
    Forall no_restart l2 ∧ restarts_ok id (serial_number c) l1 ∧
    (∃ serial a, EReport id serial a ∈ l1) ∧
    ∀ o, r = Ok o → renewed_ok id (serial_number c) l1 o.

Lemma attempt_ok_before id new old r :
  Forall no_restart old → attempt_ok id new r → attempt_ok id (new ++ old) r.
Proof.
  intros Hold [[Hn Ho]|(txt & c & l1 & l2 & -> & Hl2 & H)].
  - left. split; [by apply Forall_app|done].
  - right. exists txt, c, l1, (l2 ++ old)%list. norm_app. split_and!; [done|by apply Forall_app|apply H..].
Qed.

(** [_mint] appends the request alone; a certificate comes only from a 200. *)
Lemma mint_emits id :
  emits (_mint E cfg id) (λ new r, ∃ a, new = [EMint id a] ∧
    ∀ c, r = Ok (Some c) → ∃ txt, a = Answer 200 txt (Some (Some c))).
Proof.
  unfold _mint.
  eapply emits_bind; [apply (emits_ask _ _ (λ new r, ∃ a, new = [EMint id a] ∧ r = Ok a)); eauto| |].
  2: by intros new e (? & _ & ?).
  intros new a (a' & -> & [= ->]).
  assert (∀ r : result exc (option cert), (∀ c, r = Ok (Some c) → ∃ txt, a' = Answer 200 txt (Some (Some c))) →
    ∃ a, ([] ++ [EMint id a'])%list = [EMint id a] ∧
      ∀ c, r = Ok (Some c) → ∃ txt, a = Answer 200 txt (Some (Some c))) as Hq by (intros r Hr; by exists a').
  destruct a' as [|st text json]; [by apply emits_throw, Hq|].
  destruct (st =? 404)%Z; [destruct (contains _ _); [by apply emits_ret, Hq|by apply emits_throw, Hq]|].
  destruct (st =? 429)%Z.
  { destruct (contains _ _); [by apply emits_throw, Hq|].
    apply emits_modify_bind; [done|]. by apply emits_ret, Hq. }
  destruct ((st =? 401) || (st =? 403))%Z; [by apply emits_throw, Hq|].
  destruct (st =? 200)%Z eqn:H200; cbn [negb].
  - apply Z.eqb_eq in H200 as ->. destruct json as [c|]; [|by apply emits_throw, Hq].
    apply emits_ret, Hq. intros c' [= ->]. by eexists.
  - apply emits_modify_bind; [done|]. by apply emits_ret, Hq.
Qed.

Lemma mint_and_install_emits id before : emits (mint_and_install E cfg id before) (attempt_ok id).
Proof.
  apply emits_gets_bind. intros owed. eapply emits_bind.
  { apply (emits_when _ _ (λ new r, r = Ok tt ∧ Forall bookkeeping new)); [intros _; apply owe_emits|].
    by repeat constructor. }
  2: by intros new e [? _].
  intros new0 [] [_ H0]. apply bookkeeping_no_restart in H0.
  eapply emits_bind.
  { apply (emits_catch _ _ (λ new r, (∃ a, new = [EMint id a] ∧
      ∀ c, r = Ok (Some c) → ∃ txt, a = Answer 200 txt (Some (Some c))))
      (λ new r, Forall no_restart new ∧ ∀ c, r = Ok (Some c) → ∃ txt, new = [EMint id (Answer 200 txt (Some (Some c)))])).
    - apply mint_emits.
    - intros new a (a' & -> & Ha). split; [by repeat constructor|].
      intros c [= ->]. destruct (Ha c) as [txt ->]; [done|]. by exists txt.
    - intros new e (a' & -> & _). eapply emits_bind.
      { apply (emits_when _ _ (λ new r, r = Ok tt ∧ Forall bookkeeping new)); [intros _; apply clear_emits|].
        by repeat constructor. }
      2: by intros new e' [? _].
      intros new [] [_ Hb]. apply emits_throw. norm_app. split; [|by intros].
      apply Forall_app. split; [by apply bookkeeping_no_restart|by repeat constructor]. }
  2: { intros new e [Hn _]. apply (attempt_ok_before _ new new0); [done|]. left. split; [done|by intros]. }
  intros new c [Hn Hc]. destruct c as [c|].
  - destruct (Hc c eq_refl) as [txt ->]. eapply emits_mono; [apply install_emits|].
    intros l1 r (Hr & Hrep & o & -> & Ho & _). right. exists txt, c, l1, new0. norm_app.
    split_and!; [done|done|done|done|]. by intros o' [= <-].
  - eapply emits_bind.
    { apply (emits_when _ _ (λ new r, r = Ok tt ∧ Forall bookkeeping new)); [intros _; apply clear_emits|].
      by repeat constructor. }
    2: by intros new' e' [? _].
    intros new' [] [_ Hb]. apply emits_ret. norm_app. left. split.
    + apply Forall_app. split; [by apply bookkeeping_no_restart|]. by apply Forall_app.
    + by intros o [= <-].
Qed.

Lemma host_port_emits id : emits (host_port E id) (λ new _, new = []).
Proof. apply emits_quiet. by intros s. Qed.

Lemma renew_locked_emits id force : emits (_renew_locked E cfg id force) (attempt_ok id).
Proof.
  assert (∀ o, o_status o ≠ RENEWED → attempt_ok id [] (Ok o)) as Hskip
    by (intros o Ho; left; split; [constructor|by intros ? [= <-]]).
  apply emits_gets_bind. intros b. destruct (b && negb force); [by apply emits_ret, Hskip|].
  eapply emits_bind; [apply host_port_emits| |].
  2: { intros new e ->. left. by split. }
  intros new port ->. destruct port as [port|]; [|by apply emits_ret, Hskip].
  apply emits_gets_bind. intros inflight. destruct inflight; [by apply emits_ret, Hskip|].
  apply emits_gets_bind. intros settling. destruct settling; [by apply emits_ret, Hskip|].
  eapply emits_bind; [apply probe_emits| |by intros new e (? & ? & _)].
  intros new before (now & _ & ->). apply emits_modify_bind; [done|]. apply emits_gets_bind. intros due.
  destruct (negb force && negb due).
  - apply emits_modify_bind; [done|]. apply emits_ret. left. split; [by repeat constructor|by intros o [= <-]].
  - eapply emits_mono; [apply mint_and_install_emits|]. intros new r H. norm_app.
    apply attempt_ok_before; [by repeat constructor|done].
Qed.

(** Releasing the lock comes last. *)
Lemma attempt_ok_release id new r : attempt_ok id new r → attempt_ok id (EUnlock id :: new) r.
Proof.
  intros [[Hn Ho]|(txt & c & l1 & l2 & -> & Hl2 & Hr & (sr & a & Ha) & Ho)].
  - left. split; [by constructor|done].
  - right. exists txt, c, (EUnlock id :: l1), l2. split_and!; [done|done|done| |].
    + exists sr, a. by right.
    + intros o Hok Hst. destruct (Ho o Hok Hst) as (s & t & k1 & k2 & a' & -> & ? & ? & Hf & Hin).
      exists s, t, (EUnlock id :: k1), k2, a'. split_and!; [done|done|done| |by right].
      constructor; [by right|done].
Qed.

Lemma probe_for_debt_emits id : emits (probe_for_debt E id) (λ new _, Forall no_restart new).
Proof.
  apply emits_gets_bind. intros inflight. apply emits_gets_bind. intros settling.
  destruct (inflight || settling); [by apply emits_ret|].
  eapply emits_bind; [by apply (emits_ask _ _ (λ new r, ∃ a, new = [ELock id a] ∧ r = Ok a)); eauto| |].
  2: by intros new e (? & _ & ?).
  intros new a (a' & -> & [= ->]). destruct a'; [by apply emits_ret; repeat constructor|].
  eapply emits_finally_release with (P := λ new _, Forall no_restart new).
  - eapply emits_bind; [apply host_port_emits| |by intros new e ->].
    intros new port ->. destruct port; [|by apply emits_ret].
    eapply emits_bind; [apply probe_emits| |by intros new e (? & ? & _)].
    intros new before (now & _ & ->). apply emits_ret. by repeat constructor.
  - intros new r Hn. norm_app. constructor; [done|]. apply Forall_app. split; [done|by repeat constructor].
Qed.

Lemma settle_debt_emits id : emits (settle_debt E id) (λ new r, Forall no_restart new).
Proof.
  eapply emits_bind; [apply probe_for_debt_emits| |by intros new e ?].
  intros new probed Hn. destruct probed; [|by apply emits_ret].
  eapply emits_mono; [apply report_emits|]. intros new' r (_ & Hr & _).
  apply Forall_app. split; [by eapply reporting_no_restart|done].
Qed.

Lemma renew_one_emits id force : emits (renew_one E cfg id force) (attempt_ok id).
Proof.
  apply emits_gets_bind. intros owed. eapply emits_bind.
  { apply (emits_when _ _ (λ new r, Forall no_restart new)); [intros _; apply settle_debt_emits|done]. }
  2: { intros new e Hn. left. by split. }
  intros new0 [] H0.
  eapply emits_bind; [by apply (emits_ask _ _ (λ new r, ∃ a, new = [ELock id a] ∧ r = Ok a)); eauto| |].
  2: by intros new e (? & _ & ?).
  intros new a (a' & -> & [= ->]). destruct a' as [reason|].
  - apply emits_ret. norm_app. apply (attempt_ok_before _ [ELock id (Some reason)]); [done|].
    left. split; [by repeat constructor|by intros o [= <-]].
  - eapply emits_finally_release; [apply renew_locked_emits|]. intros new r H. norm_app.
    rewrite app_comm_cons. change (EUnlock id :: new ++ ELock id None :: new0)%list
      with ((EUnlock id :: new) ++ ELock id None :: new0)%list.
    apply attempt_ok_before; [by constructor|]. by apply attempt_ok_release.
Qed.
End emits.

(** C6: a renewal is only claimed when it is seen: when [renew_one] answers [RENEWED] a
    certificate was minted in this call, the last look at the sidecar before the report showed
    that very certificate, and what was shown is what was reported. *)
Theorem renewed_is_served E cfg id force s o s' :
  renew_one E cfg id force s = (Ok o, s') → o_status o = RENEWED →
  ∃ new txt c serial t l1 l2 a, log s' = (new ++ log s)%list ∧
    new = (l1 ++ EProbe id (Some serial, t) :: l2)%list ∧
    EMint id (Answer 200 txt (Some (Some c))) ∈ l2 ∧
    _same_serial (Some serial) (serial_number c) = true ∧ o_serial o = Some serial ∧
    EReport id (Some serial) a ∈ l1 ∧
    Forall (λ e, reporting id (Some serial) e ∨ e = EUnlock id) l1.
Proof.
  intros Hrun Ho. pose proof (renew_one_emits E cfg id force s) as H. unfold wp in H. rewrite Hrun in H.
  destruct H as (new & Hl & [[_ H]|(txt & c & l1 & l2 & -> & _ & _ & _ & H)]); [by destruct (H o)|].
  destruct (H o eq_refl Ho) as (serial & t & k1 & k2 & a & -> & Hs & Hsame & Hf & Hin).
  eexists _, txt, c, serial, t, k1, _, a. split_and!; [exact Hl|by norm_app| |done..].
  apply elem_of_app. right. left.
Qed.

(** an unobservable sidecar is never restarted: every restart of a renewal is of its own
    sidecar, after a certificate was minted, and comes right after a look that showed a different
    certificate than the minted one; and every renewal that minted one reports to the manager. *)
Theorem restart_needs_mismatch E cfg id force s r s' :
  renew_one E cfg id force s = (r, s') →
  ∃ new, log s' = (new ++ log s)%list ∧
    (Forall no_restart new ∨ ∃ txt c l1 l2, new = (l1 ++ EMint id (Answer 200 txt (Some (Some c))) :: l2)%list ∧
      Forall no_restart l2 ∧ restarts_ok id (serial_number c) l1 ∧
      ∃ serial a, EReport id serial a ∈ l1).
Proof.
  intros Hrun. pose proof (renew_one_emits E cfg id force s) as H. unfold wp in H. rewrite Hrun in H.
  destruct H as (new & Hl & [[Hn _]|(txt & c & l1 & l2 & Hnew & ? & ? & ? & _)]); exists new; eauto 12.
Qed.

(** ** The owed-confirmation ledger survives a crash *)

(** Answers to a mint the code does not take as a refusal: none at all, or a 200
    other than [null].  Every other status counts as one, also the 502 of a proxy
    whose manager had issued the certificate ([lost_behind_a_proxy]). *)
Definition unrefused (a : http) : bool :=
  match a with
  | NoAnswer => true
  | Answer st _ json => (st =? 200)%Z && negb match json with Some None => true | _ => false end
  end.

(** Read off the log: a mint for [id] was not refused and no terminal report has
    settled it. *)
Fixpoint outstanding (id : string) (h : history) : bool :=
  match h with
  | [] => false
  | EMint i a :: h => (String.eqb i id && unrefused a) || outstanding id h
  | EReport i _ a :: h =>
      if String.eqb i id && match report_verdict a with Settled => true | _ => false end
      then false else outstanding id h
  | _ :: h => outstanding id h
  end.

(** The content of the ledger file after a log. *)
Fixpoint file_after (base : gmap string string) (h : history) : gmap string string :=
  match h with
  | [] => base
  | ESave ledger :: _ => ledger
  | _ :: h => file_after base h
  end.

(** At every point of the log an outstanding certificate of an instance in [kept] is on disk. *)
Fixpoint durable (kept : string → Prop) (base : gmap string string) (h : history) : Prop :=
  (∀ id, kept id → outstanding id h = true → is_Some (file_after base h !! id)) ∧
  match h with [] => True | _ :: h => durable kept base h end.

Record safe (kept : string → Prop) (base : gmap string string) (s : state) : Prop := {
  safe_durable : durable kept base (log s);
  safe_file : file_after base (log s) = ledger_file s;
  safe_memory : unconfirmed s = ledger_file s;
}.

(** Events that change neither the debts nor the file. *)
Definition neutral (e : event) : Prop :=
  match e with
  | EMint _ a => unrefused a = false
  | EReport _ _ a => report_verdict a ≠ Settled
  | ESave _ => False
  | _ => True
  end.

Section ledger.
Context (E : env) (cfg : settings) (base : gmap string string).
Context (Hdisk : ∀ h, disk_writable E h = true).
Context (kept : string → Prop) (Hkept : ∀ id h, kept id → id ∈ (statuses E h).*1).

Lemma safe_owed id s : safe kept base s → kept id → outstanding id (log s) = true → is_Some (unconfirmed s !! id).
Proof.
  intros [Hd Hf Hm] Hk Ho. rewrite Hm, <-Hf. destruct (log s); by apply Hd.
Qed.

Lemma outstanding_neutral e id h : neutral e → outstanding id (e :: h) = outstanding id h.
Proof.
  destruct e as [ |i a| | | |i sr a| | | |]; simpl; intros He; try done.
  - by rewrite He, andb_false_r.
  - by destruct (report_verdict a); rewrite ?andb_false_r.
Qed.

Lemma file_neutral e h : neutral e → file_after base (e :: h) = file_after base h.
Proof. by destruct e. Qed.

(** A computation after which the ledger is safe and the debts are as before. *)
Definition keeps (P : state → state → Prop) {A} (m : M state exc A) : Prop :=
  ∀ s, safe kept base s → wp m (λ _ s', safe kept base s' ∧ P s s') s.

Definition same_debts (s s' : state) : Prop := ∀ id, outstanding id (log s') = outstanding id (log s).

Lemma safe_record e s : neutral e → safe kept base s → safe kept base (record e s).
Proof.
  intros He [Hd Hf Hm]. split; simpl log.
  - split; [|done]. intros id. rewrite outstanding_neutral, file_neutral by done.
    destruct (log s); apply Hd.
  - by rewrite file_neutral.
  - done.
Qed.

(** Saving writes what the memory holds. *)
Lemma safe_write u s : safe kept base s →
  (∀ id, kept id → outstanding id (log s) = true → is_Some (u !! id)) →
  safe kept base (write_ledger (set_unconfirmed u s)).
Proof. intros [Hd Hf Hm] Hu. split; [|done|done]. split; [exact Hu|exact Hd]. Qed.

Lemma wp_save u s (Q : result exc unit → state → Prop) :
  Q (Ok tt) (write_ledger (set_unconfirmed u s)) → wp (_save_unconfirmed E) Q (set_unconfirmed u s).
Proof. intros HQ. unfold wp, _save_unconfirmed. by rewrite Hdisk. Qed.

Lemma owe_keeps id v s : safe kept base s →
  wp (owe E id v) (λ r s', r = Ok tt ∧ safe kept base s' ∧ same_debts s s' ∧ is_Some (unconfirmed s' !! id)) s.
Proof.
  intros Hs. apply wp_bind, wp_modify, wp_save. split_and!; [done| |by intros i|].
  - apply safe_write; [done|]. intros i Hki Hi. destruct (decide (id = i)) as [->|Hne].
    + rewrite lookup_insert_eq. by eexists.
    + rewrite lookup_insert_ne by done. by apply safe_owed.
  - simpl. rewrite lookup_insert_eq. by eexists.
Qed.

Lemma clear_keeps id s : safe kept base s → (kept id → outstanding id (log s) = false) →
  wp (_clear_debt E id) (λ r s', r = Ok tt ∧ safe kept base s' ∧ same_debts s s') s.
Proof.
  intros Hs Ho. apply wp_bind, wp_gets, wp_when; intros _; [|by split_and!].
  apply wp_bind, wp_modify, wp_save. split_and!; [done| |by intros i].
  apply safe_write; [done|]. intros i Hki Hi.
  rewrite lookup_delete_ne by (intros ->; rewrite Ho in Hi; done).
  by apply safe_owed.
Qed.

Lemma ask_keeps {A} (f : history → A) ev s :
  (∀ a, neutral (ev a)) → safe kept base s →
  wp (ask f ev) (λ r s', r = Ok (f (log s)) ∧ safe kept base s' ∧ same_debts s s' ∧
                          unconfirmed s' = unconfirmed s) s.
Proof.
  intros He Hs. unfold wp, ask. simpl. split_and!; [done|by apply safe_record| |done].
  intros id. by apply outstanding_neutral.
Qed.

Lemma report_attempts_keeps n k id serial s : safe kept base s → is_Some (unconfirmed s !! id) →
  wp (report_attempts E n k id serial) (λ r s', r = Ok tt ∧ safe kept base s') s.
Proof.
  revert k s. induction n as [|n IH]; intros k s Hs Hid; cbn [report_attempts]; [by apply wp_ret|].
  apply wp_bind. unfold ask at 1, wp at 1. cbn [fst snd].
  set (a := report_answer E (log s) id).
  destruct (report_verdict a) eqn:Hv.
  - assert (outstanding id (log (record (EReport id serial a) s)) = false) as Ho
      by (simpl; by rewrite String.eqb_refl, Hv).
    assert (safe kept base (record (EReport id serial a) s)) as Hs'.
    { destruct Hs as [Hd Hf Hm]. split; [|done|done]. split; [|exact Hd].
      intros i Hki Hi. simpl in Hi |- *.
      destruct (String.eqb id i && _) eqn:?; [done|]. destruct (log s); by apply Hd. }
    eapply wp_mono; [apply clear_keeps; [exact Hs'|done]|]. naive_solver.
  - apply wp_ret. split; [done|]. apply safe_record; [|done]. simpl. by rewrite Hv.
  - assert (safe kept base (record (EReport id serial a) s)) as Hs'
      by (apply safe_record; [simpl; by rewrite Hv|done]).
    apply wp_bind, wp_when; intros _; [apply wp_modify|].
    + apply IH; [by apply safe_record|done].
    + by apply IH.
Qed.

Lemma report_keeps id serial s : safe kept base s →
  wp (_report E id serial) (λ r s', r = Ok tt ∧ safe kept base s') s.
Proof.
  intros Hs. apply wp_bind. eapply wp_mono; [by apply owe_keeps|].
  intros r s' (-> & Hs' & _ & Hid). by apply report_attempts_keeps.
Qed.

Lemma await_loop_keeps fuel deadline id wanted now s : safe kept base s →
  wp (await_loop E fuel deadline id wanted now)
    (λ _ s', safe kept base s' ∧ same_debts s s' ∧ unconfirmed s' = unconfirmed s) s.
Proof.
  revert now s. induction fuel as [|fuel IH]; intros now s Hs; cbn [await_loop];
    apply wp_bind, wp_gets; destruct (_ || _); try by apply wp_ret.
  apply wp_bind, wp_modify, wp_bind.
  eapply wp_mono; [apply (ask_keeps (λ h, probe_answer E h id) (EProbe id)); [done|by apply safe_record]|].
  intros r s' (-> & Hs' & Hd & Hu). eapply wp_mono; [by apply IH|].
  intros r' s'' (? & Hd' & Hu'). split_and!; [done| |by rewrite Hu', Hu].
  intros i. rewrite (Hd' i), (Hd i). by apply outstanding_neutral.
Qed.

Lemma look_keeps id wanted (reloaded : bool) s : safe kept base s →
  wp (if reloaded then _await_serial E id wanted else probe E id)
    (λ _ s', safe kept base s' ∧ unconfirmed s' = unconfirmed s) s.
Proof.
  intros Hs. destruct reloaded.
  - apply wp_bind, wp_gets, wp_bind.
    eapply wp_mono; [by apply (ask_keeps (λ h, probe_answer E h id) (EProbe id))|].
    intros r s' (-> & Hs' & _ & Hu). eapply wp_mono; [by apply await_loop_keeps|].
    intros r' s'' (? & _ & Hu'). by rewrite Hu', Hu.
  - eapply wp_mono; [by apply (ask_keeps (λ h, probe_answer E h id) (EProbe id))|]. naive_solver.
Qed.

Lemma verify_keeps id wanted reloaded s : safe kept base s →
  wp (verify E id wanted reloaded) (λ _ s', safe kept base s' ∧ unconfirmed s' = unconfirmed s) s.
Proof.
  intros Hs. apply wp_bind. eapply wp_mono; [by apply look_keeps|].
  intros [[seen t]|e] s' [Hs' Hu]; [|done]. destruct seen as [sr|]; [|by apply wp_ret].
  cbn [fst]. destruct (_same_serial _ _); [by apply wp_ret|].
  apply wp_bind. eapply wp_mono; [by apply (ask_keeps (λ h, restart_answer E h id) (ERestart id))|].
  intros r s1 (-> & Hs1 & _ & Hu1). destruct (restart_answer _ _ _); [|apply wp_ret; by rewrite Hu1].
  apply wp_bind. eapply wp_mono; [by apply (look_keeps id wanted true)|].
  intros [?|?] s2 [? Hu2]; [apply wp_ret|]; by rewrite Hu2, Hu1.
Qed.

Lemma note_keeps id s : safe kept base s →
  wp (_note_failure E cfg id) (λ r s', r = Ok tt ∧ safe kept base s' ∧ log s' = log s) s.
Proof. intros [? ? ?]. apply wp_modify. by split_and!. Qed.

Lemma install_keeps id before c s : safe kept base s →
  wp (install_and_verify E cfg id before c) (λ _ s', safe kept base s') s.
Proof.
  intros Hs. apply wp_bind.
  eapply wp_mono; [by apply (ask_keeps (λ h, install_answer E h id) (EInstall id))|].
  intros r s1 (-> & Hs1 & _). destruct (negb _).
  - apply wp_bind. eapply wp_mono; [by apply report_keeps|]. intros r s2 [-> Hs2].
    apply wp_bind. eapply wp_mono; [by apply note_keeps|]. intros r s3 (-> & Hs3 & _). by apply wp_ret.
  - apply wp_bind. eapply wp_mono; [by apply (ask_keeps (λ h, reload_answer E h id) (EReload id))|].
    intros r s2 (-> & Hs2 & _). apply wp_bind. eapply wp_mono; [by apply verify_keeps|].
    intros [final|e] s3 [Hs3 _]; [|done].
    apply wp_bind. eapply wp_mono; [by apply report_keeps|]. intros r s4 [-> Hs4].
    destruct (_same_serial _ _); apply wp_bind; [apply wp_modify, wp_ret; by destruct Hs4|].
    eapply wp_mono; [by apply note_keeps|]. intros r s5 (-> & Hs5 & _). by apply wp_ret.
Qed.

(** Answers of the mint that leave the debts as they were. *)
Definition settles (r : result exc (option cert)) : bool :=
  match r with Ok None => true | Raise e => definitive e | Ok (Some _) => false end.

Lemma mint_keeps id s : safe kept base s → is_Some (unconfirmed s !! id) →
  wp (_mint E cfg id) (λ r s', safe kept base s' ∧
    (settles r = true → outstanding id (log s') = outstanding id (log s))) s.
Proof.
  intros Hs Hid. apply wp_bind. unfold ask at 1, wp at 1. cbn [fst snd].
  set (a := mint_answer E (log s) id).
  assert (safe kept base (record (EMint id a) s)) as Hs1.
  { destruct Hs as [Hd Hf Hm]. split; [|done|done]. split; [|exact Hd]. intros i Hki Hi. simpl in Hi |- *.
    apply orb_prop in Hi as [[->%String.eqb_eq _]%andb_prop|Hi].
    - rewrite Hf, <-Hm. done.
    - destruct (log s); by apply Hd. }
  assert (unrefused a = false → outstanding id (log (record (EMint id a) s)) = outstanding id (log s)) as Hrefused.
  { intros Hi. by apply outstanding_neutral. }
  destruct a as [|st text json]; [by apply wp_throw|]. cbn [unrefused] in Hrefused.
  destruct (st =? 404)%Z eqn:H1.
  { apply Z.eqb_eq in H1 as ->. destruct (contains _ _); [apply wp_ret|apply wp_throw]; auto. }
  destruct (st =? 429)%Z eqn:H2.
  { apply Z.eqb_eq in H2 as ->. destruct (contains _ _); [apply wp_throw; auto|].
    apply wp_bind. eapply wp_mono; [by apply note_keeps|]. intros r s' (-> & Hs' & Hl).
    apply wp_ret. rewrite Hl. auto. }
  destruct ((st =? 401) || (st =? 403))%Z eqn:H3.
  { apply wp_throw. split; [done|]. intros _. apply Hrefused. by apply orb_prop in H3 as [->%Z.eqb_eq| ->%Z.eqb_eq]. }
  destruct (st =? 200)%Z eqn:H4; cbn [negb].
  - destruct json as [[c|]|]; [by apply wp_ret| |by apply wp_throw].
    apply Z.eqb_eq in H4 as ->. apply wp_ret. auto.
  - apply wp_bind. eapply wp_mono; [by apply note_keeps|]. intros r s' (-> & Hs' & Hl).
    apply wp_ret. rewrite Hl. auto.
Qed.

Lemma clear_if_keeps b id s : safe kept base s → (b = true → kept id → outstanding id (log s) = false) →
  wp (when b (_clear_debt E id)) (λ r s', r = Ok tt ∧ safe kept base s') s.
Proof.
  intros Hs Hb. apply wp_when; intros H; [|done].
  eapply wp_mono; [apply clear_keeps; auto|]. naive_solver.
Qed.

Lemma mint_and_install_keeps id before s : safe kept base s →
  wp (mint_and_install E cfg id before) (λ _ s', safe kept base s') s.
Proof.
  intros Hs. apply wp_bind, wp_gets. set (owed := owes id s).
  assert (owed = false → kept id → outstanding id (log s) = false) as Hclear.
  { unfold owed, owes. intros Ho Hk. destruct (outstanding id (log s)) eqn:Hout; [|done].
    destruct (safe_owed _ _ Hs Hk Hout) as [v Hv]. by rewrite Hv in Ho. }
  assert (∃ s1, when (negb owed) (owe E id (default "" before)) s = (Ok tt, s1) ∧ safe kept base s1 ∧
    same_debts s s1 ∧ is_Some (unconfirmed s1 !! id)) as (s1 & Hrun & Hs1 & Hd1 & Hid).
  { unfold owed, owes. destruct (unconfirmed s !! id) eqn:Hu; cbn [is_some negb when].
    - exists s. split_and!; [done|done|by intros i|by rewrite Hu].
    - pose proof (owe_keeps id (default "" before) s Hs) as Hw. unfold wp in Hw.
      destruct (owe E id _ s) as [r s1]. destruct Hw as (Hr & ? & ? & ?). simpl in Hr. subst r. by exists s1. }
  apply wp_bind. unfold wp at 1. rewrite Hrun. cbn [fst snd].
  apply wp_bind, wp_catch. eapply wp_mono; [by apply mint_keeps|].
  intros [c|e] s2 [Hs2 Hset].
  - destruct c as [c|]; [by apply install_keeps|].
    apply wp_bind. eapply wp_mono; [apply clear_if_keeps; [done|]|].
    { intros Ho%negb_true_iff Hk. rewrite Hset, (Hd1 id); auto. }
    intros r s3 [-> Hs3]. by apply wp_ret.
  - apply wp_bind. eapply wp_mono; [apply clear_if_keeps; [done|]|].
    { intros [Hdef Ho%negb_true_iff]%andb_prop Hk. rewrite Hset, (Hd1 id); auto. }
    intros r s3 [-> Hs3]. by apply wp_throw.
Qed.

Lemma renew_locked_keeps id force s : safe kept base s →
  wp (_renew_locked E cfg id force) (λ _ s', safe kept base s') s.
Proof.
  intros Hs. apply wp_bind, wp_gets. destruct (_ && negb force); [by apply wp_ret|].
  apply wp_bind, wp_bind, wp_gets, wp_lift. destruct (_sidecar_host_port _) as [[port|]|e]; [|by apply wp_ret|done].
  apply wp_bind, wp_gets. destruct (compose_inflight _ _ _); [by apply wp_ret|].
  apply wp_bind, wp_gets. match goal with |- context [if ?b then _ else _] => destruct b end; [by apply wp_ret|].
  apply wp_bind. eapply wp_mono; [by apply (ask_keeps (λ h, probe_answer E h id) (EProbe id))|].
  intros r s1 (-> & Hs1 & _). apply wp_bind, wp_modify, wp_bind, wp_gets.
  destruct (negb force && negb _).
  - apply wp_bind, wp_modify, wp_ret. by destruct Hs1.
  - apply mint_and_install_keeps. by destruct Hs1.
Qed.

Lemma settle_debt_keeps id s : safe kept base s →
  wp (settle_debt E id) (λ _ s', safe kept base s') s.
Proof.
  intros Hs. apply wp_bind. eapply (wp_mono _ (λ _ s', safe kept base s')).
  - apply wp_bind, wp_gets, wp_bind, wp_gets. destruct (_ || _); [by apply wp_ret|].
    apply wp_bind. eapply wp_mono; [by apply (ask_keeps (λ h, lock_answer E h id) (ELock id))|].
    intros r s1 (-> & Hs1 & _). destruct (lock_answer _ _ _); [by apply wp_ret|].
    apply wp_finally. eapply (wp_mono _ (λ _ s', safe kept base s')).
    + apply wp_bind, wp_bind, wp_gets, wp_lift.
      destruct (_sidecar_host_port _) as [[port|]|e]; [|by apply wp_ret|done].
      apply wp_bind. eapply wp_mono; [by apply (ask_keeps (λ h, probe_answer E h id) (EProbe id))|].
      intros r s2 (-> & Hs2 & _). by apply wp_ret.
    + intros r s2 Hs2. apply wp_modify. by apply safe_record.
  - intros [[serial|]|e] s1 Hs1; [|by apply wp_ret|done].
    eapply wp_mono; [by apply report_keeps|]. naive_solver.
Qed.

Lemma renew_one_keeps id force s : safe kept base s → wp (renew_one E cfg id force) (λ _ s', safe kept base s') s.
Proof.
  intros Hs. apply wp_bind, wp_gets, wp_bind, (wp_mono _ (λ _ s', safe kept base s')).
  { apply wp_when; intros _; [by apply settle_debt_keeps|done]. }
  intros [[]|e] s1 Hs1; [|done].
  apply wp_bind. eapply wp_mono; [by apply (ask_keeps (λ h, lock_answer E h id) (ELock id))|].
  intros r s2 (-> & Hs2 & _). destruct (lock_answer _ _ _); [by apply wp_ret|].
  apply wp_finally. eapply wp_mono; [by apply renew_locked_keeps|].
  intros r s3 Hs3. apply wp_modify. by apply safe_record.
Qed.
Lemma visit_keeps only force t instance s : safe kept base s →
  wp (visit E cfg only force t instance) (λ _ s', safe kept base s') s.
Proof.
  intros Hs. destruct instance as [id st]. unfold visit. destruct (_ || _); [by apply wp_ret|].
  apply wp_bind, wp_gets. destruct (stop_is_set _ _); [by apply wp_ret|].
  apply wp_bind, wp_attempt. eapply wp_mono; [by apply renew_one_keeps|]. intros r s1 Hs1.
  assert (∀ t', wp (check_blind t') (λ _ s', safe kept base s') s1) as Hblind
    by (intros t'; by apply wp_bind, wp_gets, wp_ret).
  destruct r as [o|[]]; [apply Hblind|by apply wp_ret..| | | |];
    (apply wp_bind; eapply wp_mono; [by apply note_keeps|]; intros r s2 (-> & Hs2 & _);
     by apply wp_bind, wp_gets, wp_ret).
Qed.

Lemma forget_keeps h s : safe kept base s →
  wp (forget_departed E (statuses E h).*1) (λ r s', r = Ok tt ∧ safe kept base s') s.
Proof.
  intros Hs. apply wp_bind, wp_modify, wp_bind, wp_modify, wp_save. split; [done|].
  apply safe_write; [by destruct Hs|]. intros i Hki Hi. destruct (safe_owed i s Hs Hki Hi) as [v Hv].
  exists v. apply map_lookup_filter_Some. split; [done|]. by apply Hkept.
Qed.

(** A pass begins by reading the file: what a new process has in memory does not matter. *)
Definition booted (s : state) : Prop :=
  durable kept base (log s) ∧ file_after base (log s) = ledger_file s ∧
  (unconfirmed s = ledger_file s ∨ unconfirmed s = ∅).

Lemma safe_booted s : safe kept base s → booted s.
Proof. intros [? ? ?]. split_and!; auto. Qed.

Lemma booted_loaded s : booted s → safe kept base (set_unconfirmed (unconfirmed s ∪ ledger_file s) s).
Proof.
  intros (? & ? & Hm). split; [done|done|]. cbn. destruct Hm as [->| ->]; [apply map_union_idemp|by rewrite (left_id_L ∅ (∪))].
Qed.

Lemma renew_all_keeps only force s : booted s →
  wp (renew_all E cfg only force) (λ _ s', booted s') s.
Proof.
  intros Hs. apply wp_bind, wp_gets. destruct (pass_lock_free _ _); [|by apply wp_throw].
  apply wp_bind, wp_modify. pose proof (booted_loaded s Hs) as Hl.
  apply wp_bind, wp_modify, wp_bind, wp_gets. set (s1 := set_blind 0 _).
  assert (safe kept base s1) as Hs1 by (by destruct Hl). clearbody s1.
  eapply (wp_mono _ (λ _ s', safe kept base s')); [|by intros r s' ?%safe_booted].
  destruct (stop_is_set _ _); [by apply wp_ret|]. apply wp_bind, wp_gets. set (h := log s1) at 1.
  apply wp_bind, wp_gets. destruct (stop_is_set _ _); [by apply wp_ret|].
  match goal with |- context [if ?b then _ else _] => destruct b end; [by apply wp_throw|].
  apply wp_bind. eapply wp_mono.
  { apply (wp_foldS _ (λ _ s', safe kept base s') (λ _ s', safe kept base s')); [|exact Hs1].
    intros t x s2 _ Hs2. eapply wp_mono; [by apply visit_keeps|]. by intros []. }
  intros [t|e] s2 Hs2; [|done]. apply wp_bind. eapply wp_mono; [by apply forget_keeps|].
  intros r s3 [-> Hs3]. repeat case_match; by apply wp_ret || by apply wp_throw.
Qed.
End ledger.

(** The process over time: passes of the worker and of the operator, and a kill
    at any point of one of them, after which a new process starts with an empty
    memory. *)
Definition restarted (base : gmap string string) (h : history) : state := {|
  unconfirmed := ∅; ledger_file := file_after base h; backoff := ∅; blind_streak := 0; log := h |}.

Inductive process (E : env) (cfg : settings) (base : gmap string string) : state → Prop :=
  | process_boot : process E cfg base (restarted base [])
  | process_pass s only force r s' :
      process E cfg base s → renew_all E cfg only force s = (r, s') → process E cfg base s'
  | process_crash s only force r s' done rest :
      process E cfg base s → renew_all E cfg only force s = (r, s') →
      log s' = (done ++ rest)%list → process E cfg base (restarted base rest).

Lemma durable_suffix kept base h1 h2 : durable kept base (h1 ++ h2) → durable kept base h2.
Proof. induction h1 as [|e h1 IH]; simpl; [done|]. intros [_ ?]. by apply IH. Qed.

Lemma process_booted E cfg base kept s :
  (∀ h, disk_writable E h = true) → (∀ id h, kept id → id ∈ (statuses E h).*1) →
  process E cfg base s → booted base kept s.
Proof.
  intros Hdisk Hkept. induction 1 as [|s only force r s' Hp IH Hrun|s only force r s' done' rest Hp IH Hrun Hlog].
  - split_and!; [|done|by right]. split; [|done]. by intros id.
  - pose proof (renew_all_keeps E cfg base Hdisk kept Hkept only force s IH) as Hw. unfold wp in Hw. by rewrite Hrun in Hw.
  - pose proof (renew_all_keeps E cfg base Hdisk kept Hkept only force s IH) as Hw. unfold wp in Hw. rewrite Hrun in Hw.
    destruct Hw as [Hd _]. simpl in Hd. rewrite Hlog in Hd. apply durable_suffix in Hd. split_and!; [done..|by right].
Qed.


(** ** Backoff *)
Lemma backoff_delay_bounds cfg n :
  (1 ≤ n)%Z → (0 < cert_renewal_interval cfg ≤ _BACKOFF_CAP_SECONDS)%Z →
  (cert_renewal_interval cfg ≤ backoff_delay cfg n ≤ _BACKOFF_CAP_SECONDS)%Z ∧
  backoff_delay cfg (n + 1) = Z.min (2 * backoff_delay cfg n) _BACKOFF_CAP_SECONDS.
Proof.
  unfold backoff_delay, _BACKOFF_CAP_SECONDS. intros Hn Hi.
  assert (1 ≤ 2 ^ (n - 1))%Z by (apply (Z.pow_le_mono_r 2 0); lia).
  replace (n + 1 - 1)%Z with (Z.succ (n - 1)) by lia. rewrite Z.pow_succ_r by lia. split; [nia|lia].
Qed.

(** backoff is bounded, doubling and respected: the [n]-th failure in a row keeps an instance
    out for the interval doubled [n-1] times and at most a day, and for that long an unforced
    renewal of it touches nothing at all. *)
Theorem backoff_respected E cfg id s n d0 :
  backoff s !! id = Some (n, d0) → (0 ≤ n)%Z →
  (0 < cert_renewal_interval cfg ≤ _BACKOFF_CAP_SECONDS)%Z →
  ∃ delay, delay = backoff_delay cfg (n + 1) ∧
    (cert_renewal_interval cfg ≤ delay ≤ _BACKOFF_CAP_SECONDS)%Z ∧
    (1 ≤ n → delay = Z.min (2 * backoff_delay cfg n) _BACKOFF_CAP_SECONDS)%Z ∧
    ∃ s1, _note_failure E cfg id s = (Ok tt, s1) ∧
      backoff s1 !! id = Some ((n + 1)%Z, (monotonic E (log s) + delay * 1000)%Z) ∧
      ∀ s2, backoff s2 !! id = backoff s1 !! id →
        (monotonic E (log s2) < monotonic E (log s) + delay * 1000)%Z →
        _renew_locked E cfg id false s2 = (Ok (Outcome SKIPPED None None), s2).
Proof.
  intros Hb Hn Hi. eexists; split; [done|]. split; [apply backoff_delay_bounds; [lia|done]|].
  split; [intros; apply backoff_delay_bounds; [lia|done]|].
  eexists; split; [done|]. simpl. rewrite Hb. simpl. rewrite lookup_insert_eq.
  split; [done|]. intros s2 Hs2 Hlt. unfold _renew_locked, _in_backoff, gets, mbind, M_bind.
  rewrite Hs2. by rewrite (proj2 (Z.ltb_lt _ _)).
Qed.

(** ** The settle loop *)
Section settle.
Context (E : env).
Context (Hmono : ∀ h e, (monotonic E h ≤ monotonic E (e :: h))%Z).
Context (Hsleep : ∀ h ms, (monotonic E h + ms ≤ monotonic E (ESleep ms :: h))%Z).

Lemma await_loop_ends fuel deadline id wanted now s :
  (deadline ≤ monotonic E (log s) + Z.of_nat fuel * _SETTLE_POLL_MS)%Z →
  wp (await_loop E fuel deadline id wanted now)
    (λ r s', ∃ now', r = Ok now' ∧
      (_same_serial (fst now') wanted = true ∨ (deadline ≤ monotonic E (log s'))%Z)) s.
Proof.
  revert now s. induction fuel as [|fuel IH]; intros now s Hf; cbn [await_loop]; apply wp_bind, wp_gets.
  - destruct (_ || _) eqn:Hb; apply wp_ret; exists now; (split; [done|]); right; lia.
  - destruct (_ || _) eqn:Hb.
    + apply wp_ret. exists now. split; [done|]. apply orb_prop in Hb as [?|Hb%negb_true_iff%Z.ltb_ge]; auto.
    + apply wp_bind, wp_modify, wp_bind. unfold probe, ask at 1, wp at 1. cbn [fst snd]. apply IH.
      simpl log. pose proof (Hsleep (log s) _SETTLE_POLL_MS).
      specialize (Hmono (ESleep _SETTLE_POLL_MS :: log s)
        (EProbe id (probe_answer E (ESleep _SETTLE_POLL_MS :: log s) id))). lia.
Qed.
End settle.

(** the settle loop ends by its own condition: under a clock that never goes back and a sleep
    that sleeps, the bound on the number of polls is never what stops it: it returns once the wanted
    certificate is served or the deadline has passed. *)
Theorem await_serial_settles E id wanted s :
  (∀ h e, (monotonic E h ≤ monotonic E (e :: h))%Z) →
  (∀ h ms, (monotonic E h + ms ≤ monotonic E (ESleep ms :: h))%Z) →
  ∃ now s', _await_serial E id wanted s = (Ok now, s') ∧
    (_same_serial (fst now) wanted = true ∨
     (monotonic E (log s) + _SETTLE_SECONDS * 1000 ≤ monotonic E (log s'))%Z).
Proof.
  intros Hmono Hsleep. set (deadline := (monotonic E (log s) + _SETTLE_SECONDS * 1000)%Z).
  set (s1 := record (EProbe id (probe_answer E (log s) id)) s).
  pose proof (await_loop_ends E Hmono Hsleep settle_fuel deadline id wanted (probe_answer E (log s) id) s1) as H.
  unfold wp in H. destruct (await_loop E settle_fuel deadline id wanted (probe_answer E (log s) id) s1) as [r s'] eqn:Hr.
  cbn [fst snd] in H. destruct H as (now & -> & Hnow).
  - specialize (Hmono (log s) (EProbe id (probe_answer E (log s) id))). unfold deadline, s1.
    change (Z.of_nat settle_fuel * _SETTLE_POLL_MS)%Z with 20500%Z. unfold _SETTLE_SECONDS. simpl log. lia.
  - exists now, s'. by rewrite <-Hr.
Qed.

(** ** Node-wide answers *)
Definition keeps_backoff {A} (m : M state exc A) : Prop := ∀ s, backoff (m s).2 = backoff s.

Lemma kb_bind {A B} (m : M state exc A) (k : A → M state exc B) :
  keeps_backoff m → (∀ a, keeps_backoff (k a)) → keeps_backoff (m ≫= k).
Proof.
  intros Hm Hk s. unfold mbind, M_bind. specialize (Hm s). destruct (m s) as [[a|e] s']; [|done].
  simpl in Hm. by rewrite <-Hm, Hk.
Qed.
Lemma kb_when b (m : M state exc unit) : keeps_backoff m → keeps_backoff (when b m).
Proof. by destruct b. Qed.
Lemma kb_finally {A} (m : M state exc A) f :
  keeps_backoff m → keeps_backoff f → keeps_backoff (finally m f).
Proof.
  intros Hm Hf s. unfold finally. specialize (Hm s). destruct (m s) as [r s']. specialize (Hf s').
  destruct (f s') as [[] s'']; simpl in *; congruence.
Qed.
Lemma kb_save E : keeps_backoff (_save_unconfirmed E).
Proof. intros s. unfold _save_unconfirmed. by destruct (disk_writable _ _). Qed.
Lemma kb_ask {A} (f : history → A) ev : keeps_backoff (ask f ev).
Proof. done. Qed.
Lemma kb_clear E id : keeps_backoff (_clear_debt E id).
Proof. apply kb_bind; [done|]. intros b. apply kb_when, kb_bind; [done|]. intros _. apply kb_save. Qed.
Lemma kb_owe E id v : keeps_backoff (owe E id v).
Proof. apply kb_bind; [done|]. intros _. apply kb_save. Qed.

Lemma kb_report E id serial : keeps_backoff (_report E id serial).
Proof.
  apply kb_bind; [apply kb_owe|]. intros _. generalize 0%Z. induction _REPORT_ATTEMPTS as [|n IH]; intros k; [done|].
  cbn [report_attempts]. apply kb_bind; [apply kb_ask|]. intros a. destruct (report_verdict a); [apply kb_clear|done|].
  apply kb_bind; [by apply kb_when|]. intros _. apply IH.
Qed.

Lemma kb_settle E id : keeps_backoff (settle_debt E id).
Proof.
  apply kb_bind; [|intros []; [apply kb_report|done]].
  apply kb_bind; [done|]. intros ?. apply kb_bind; [done|]. intros ?. destruct (_ || _); [done|].
  apply kb_bind; [apply kb_ask|]. intros []; [done|]. apply kb_finally; [|done].
  apply kb_bind; [by intros s|]. intros []; [|done]. by apply kb_bind.
Qed.

Lemma mint_raise_backoff E cfg id s :
  wp (_mint E cfg id) (λ r s', ∀ e, r = Raise e → backoff s' = backoff s) s.
Proof.
  apply wp_bind. unfold ask at 1, wp at 1. cbn [fst snd].
  destruct (mint_answer E (log s) id) as [|st text json]; [by apply wp_throw|].
  destruct (st =? 404)%Z; [by destruct (contains _ _); [apply wp_ret|apply wp_throw]|].
  destruct (st =? 429)%Z; [by destruct (contains _ _); [apply wp_throw|apply wp_bind, wp_modify, wp_ret]|].
  destruct ((st =? 401) || (st =? 403))%Z; [by apply wp_throw|].
  destruct (negb _); [by apply wp_bind, wp_modify, wp_ret|].
  by destruct json; [apply wp_ret|apply wp_throw].
Qed.

Lemma wp_kb {A} (m : M state exc A) s :
  keeps_backoff m → wp m (λ _ s', backoff s' = backoff s) s.
Proof. intros H. apply H. Qed.

Lemma mint_and_install_raise_backoff E cfg id before s :
  wp (mint_and_install E cfg id before) (λ r s', ∀ e, r = Raise e → backoff s' = backoff s) s.
Proof.
  apply wp_bind, wp_gets, wp_bind. eapply wp_mono; [apply wp_kb, kb_when, kb_owe|].
  intros [u|e] s1 H1; [|by intros].
  apply wp_bind, wp_catch. eapply wp_mono; [apply mint_raise_backoff|].
  intros [[c|]|e] s2 H2.
  - eapply wp_mono; [apply (install_emits E cfg id before)|]. by intros r s3 (new & _ & _ & _ & o & -> & _).
  - apply wp_bind, (wp_mono _ (λ r _, r = Ok tt)); [|by intros r s3 ->; apply wp_ret].
    apply wp_when; intros _; [|done]. eapply wp_mono; [apply clear_emits|]. by intros r s3 (new & _ & -> & _).
  - apply wp_bind. eapply wp_mono; [apply wp_kb, kb_when, kb_clear|].
    intros [[]|e'] s3 H3; [apply wp_throw|]; intros e0 _; rewrite H3; rewrite (H2 e); done.
Qed.

(** A renewal that raises has charged its instance nothing. *)
Lemma renew_one_raise_backoff E cfg id force s :
  wp (renew_one E cfg id force) (λ r s', ∀ e, r = Raise e → backoff s' = backoff s) s.
Proof.
  apply wp_bind, wp_gets, wp_bind. eapply wp_mono; [apply wp_kb, kb_when, kb_settle|].
  intros [u|e] s1 H1; [|by intros]. rewrite <-H1. clear H1.
  apply wp_bind. eapply wp_mono; [apply wp_kb, kb_ask|].
  intros [refusal|e] s2 H2; [|by intros]. rewrite <-H2. clear H2.
  destruct refusal; [by apply wp_ret|]. apply wp_finally.
  eapply (wp_mono _ (λ r s', ∀ e, r = Raise e → backoff s' = backoff s2)); [|by intros; apply wp_modify].
  apply wp_bind, wp_gets. destruct (_ && negb force); [by apply wp_ret|].
  apply wp_bind, wp_bind, wp_gets, wp_lift.
  destruct (_sidecar_host_port _) as [[port|]|e]; [|by apply wp_ret|by intros].
  apply wp_bind, wp_gets. destruct (compose_inflight _ _ _); [by apply wp_ret|].
  apply wp_bind, wp_gets. match goal with |- context [if ?b then _ else _] => destruct b end; [by apply wp_ret|].
  apply wp_bind. eapply wp_mono; [apply wp_kb, kb_ask|].
  intros [before|e] s3 H3; [|by intros]. rewrite <-H3. clear H3.
  apply wp_bind, wp_modify, wp_bind, wp_gets.
  destruct (negb force && negb _); [by apply wp_bind, wp_modify, wp_ret|].
  eapply wp_mono; [apply mint_and_install_raise_backoff|]. naive_solver.
Qed.

(** The rest of a pass that has stopped. *)
Lemma visit_done E cfg only force t all s :
  t_done t = true → foldS (visit E cfg only force) t all s = (Ok t, s).
Proof.
  intros Ht. induction all as [|[id st] all IH]; [done|]. cbn [foldS]. unfold mbind, M_bind.
  assert (visit E cfg only force t (id, st) s = (Ok t, s)) as -> by (unfold visit; by rewrite Ht).
  exact IH.
Qed.

(** a node-wide refusal charges no instance: when the manager answers that renewal is off,
    the token is rejected or the node's cap is reached, the pass stops at once, no later instance is
    touched, no error is counted and no instance's backoff changes. *)
Theorem node_fault_charges_nobody E cfg only force t id all s e s1 :
  t_done t = false → (only = None ∨ only = Some id) → stop_is_set E (log s) = false →
  renew_one E cfg id force s = (Raise e, s1) → definitive e = true →
  ∃ t', foldS (visit E cfg only force) t ((id, "running") :: all) s = (Ok t', s1) ∧
    t_done t' = true ∧ t_errors t' = t_errors t ∧ t_considered t' = (t_considered t + 1)%Z ∧
    t_unauthorized t' = (match e with NodeAuthLost => true | _ => t_unauthorized t end) ∧
    t_capped t' = (match e with NodeRateLimited => true | _ => t_capped t end) ∧
    backoff s1 = backoff s.
Proof.
  intros Ht Honly Hstop Hrun He.
  assert (backoff s1 = backoff s) as Hb.
  { pose proof (renew_one_raise_backoff E cfg id force s) as H. unfold wp in H. rewrite Hrun in H. by apply (H e). }
  set (chosen := bool_decide (only = Some id)).
  assert (∃ t', visit E cfg only force t (id, "running") s = (Ok t', s1) ∧ t_done t' = true ∧
    t_errors t' = t_errors t ∧ t_considered t' = (t_considered t + 1)%Z ∧
    t_unauthorized t' = (match e with NodeAuthLost => true | _ => t_unauthorized t end) ∧
    t_capped t' = (match e with NodeRateLimited => true | _ => t_capped t end)) as (t' & Hv & Hd & Hrest).
  { unfold visit. rewrite Ht. fold chosen.
    assert ((is_some only && negb chosen) = false) as ->.
    { unfold chosen. destruct Honly as [->| ->]; [done|]. by rewrite bool_decide_eq_true_2. }
    cbn [orb negb String.eqb Ascii.eqb Bool.eqb]. unfold gets, mbind, M_bind. rewrite Hstop.
    unfold attempt. rewrite Hrun. destruct e; try discriminate He; eexists; split_and!. all: reflexivity. }
  exists t'. cbn [foldS]. unfold mbind, M_bind. rewrite Hv. rewrite visit_done by done. tauto.
Qed.

(** ** A concrete world *)
Definition slept (h : history) : Z :=
  foldr (λ e n, match e with ESleep ms => n + Z.max 0 ms | _ => n end)%Z 0%Z h.

Definition was_reloaded (h : history) : bool :=
  existsb (λ e, match e with EReload _ ok => ok | _ => false end) h.
Definition was_restarted (h : history) : bool :=
  existsb (λ e, match e with ERestart _ ok => ok | _ => false end) h.

Definition sample_rendered : value :=
  VDict [(VStr "services", VDict [(VStr "greffon_nginx",
    VDict [(VStr "ports", VList [VStr "45347:8000"])])])].

(** The sidecar serves the new certificate once [takes] says so. *)
Definition sample_env (takes : history → bool) (mint : http) (report : Z) : env := {|
  probe_answer h _ := if takes h then (Some "00AB", None) else (Some "01", None);
  mint_answer _ _ := mint;
  install_answer _ _ := true;
  reload_answer _ _ := true;
  restart_answer _ _ := true;
  report_answer _ _ := Answer report "" None;
  lock_answer _ _ := None;
  compose_inflight _ _ := false;
  started_at _ _ := None;
  rendered_compose _ _ := Some sample_rendered;
  disk_writable _ := true;
  monotonic := slept;
  utc_now := slept;
  stop_is_set _ := false;
  statuses _ := [("i", "running")];
  pass_lock_free _ := true;
|}.

Definition issues : http := Answer 200 "" (Some (Some {| serial_number := Some "ab" |})).
Definition sample_settings : settings :=
  {| cert_renewal_interval := 21600; cert_renewal_window_days := 7 |}.
Definition fresh : state := restarted ∅ [].

Lemma renewed_is_served_witness :
  let E := sample_env was_restarted issues 200 in
  ∃ txt c t l1 l2 a,
    log (renew_one E sample_settings "i" false fresh).2 = (l1 ++ EProbe "i" (Some "00AB", t) :: l2)%list ∧
    EMint "i" (Answer 200 txt (Some (Some c))) ∈ l2 ∧ EReport "i" (Some "00AB") a ∈ l1.
Proof.
  intros E.
  destruct (renewed_is_served E sample_settings "i" false fresh (Outcome RENEWED (Some "00AB") None)
    (renew_one E sample_settings "i" false fresh).2)
    as (new & txt & c & serial & t & l1 & l2 & a & Hl & Hn & Hm & _ & Hs & Hr & _);
    [by vm_compute|done|].
  injection Hs as <-. exists txt, c, t, l1, l2, a. split_and!; [|done|done].
  rewrite Hl, Hn. by rewrite app_nil_r.
Defined.

Lemma restart_needs_mismatch_witness :
  let E := sample_env was_restarted issues 200 in
  ∃ new, log (renew_one E sample_settings "i" false fresh).2 = (new ++ [])%list ∧
    (Forall no_restart new ∨ ∃ txt c l1 l2, new = (l1 ++ EMint "i" (Answer 200 txt (Some (Some c))) :: l2)%list ∧
      Forall no_restart l2 ∧ restarts_ok "i" (serial_number c) l1 ∧
      ∃ serial a, EReport "i" serial a ∈ l1).
Proof.
  intros E. apply (restart_needs_mismatch E sample_settings "i" false fresh
    (renew_one E sample_settings "i" false fresh).1). by vm_compute.
Defined.


(** A proxy answers 502 for a mint the manager did: it is taken as a refusal, and nothing is owed. *)
Example lost_behind_a_proxy :
  let s := (renew_all (sample_env was_reloaded (Answer 502 "bad gateway" None) 503) sample_settings None false fresh).2 in
  EMint "i" (Answer 502 "bad gateway" None) ∈ log s ∧ ledger_file s = ∅.
Proof. vm_compute. split; [|done]. repeat (first [by left | right]). Qed.

Lemma backoff_respected_witness :
  let E := sample_env was_reloaded issues 200 in
  let s := set_backoff {[ "i" := (1%Z, 0%Z) ]} fresh in
  ∃ delay, delay = 43200%Z ∧ ∃ s1, _note_failure E sample_settings "i" s = (Ok tt, s1) ∧
    backoff s1 !! "i" = Some (2%Z, 43200000%Z).
Proof.
  intros E s.
  destruct (backoff_respected E sample_settings "i" s 1 0) as (d & Hd & _ & _ & s1 & H1 & H2 & _);
    [by vm_compute|lia|by vm_compute|].
  exists d. split; [by rewrite Hd|]. exists s1. split; [done|]. rewrite H2. by rewrite Hd.
Defined.

Lemma await_serial_settles_witness :
  let E := sample_env (λ _, false) issues 200 in
  ∃ now s', _await_serial E "i" (Some "ab") fresh = (Ok now, s') ∧
    (_same_serial (fst now) (Some "ab") = true ∨ (0 + 20000 ≤ slept (log s'))%Z).
Proof.
  intros E. apply (await_serial_settles E "i" (Some "ab") fresh).
  - intros h e. simpl. destruct e; lia.
  - intros h ms. simpl. lia.
Defined.

Lemma node_fault_charges_nobody_witness :
  let E := sample_env was_reloaded (Answer 403 "" None) 200 in
  ∃ t', foldS (visit E sample_settings None false) empty_tally
    [("i", "running"); ("j", "running")] fresh = (Ok t', (renew_one E sample_settings "i" false fresh).2) ∧
    t_done t' = true ∧ t_errors t' = 0%Z.
Proof.
  intros E.
  destruct (node_fault_charges_nobody E sample_settings None false empty_tally "i" [("j", "running")]
    fresh NodeAuthLost (renew_one E sample_settings "i" false fresh).2) as (t' & H1 & H2 & H3 & _);
    [done|by left|done|by vm_compute|done|]. by exists t'.
Defined.
