(* ===== verification/Backup.v ===== *)
(** [app/backup.py]: the backup and restore jobs of one instance, the repo-wide
    prune and check, and boot reconciliation.

    A job talks to docker, to the restic sidecar, to the instance directory and
    to the manager; these answer through [E : env], each answer depending on the
    whole history of the job, which the state keeps in [log], newest first.
    restic's standard output is the list of the JSON values on its lines. *)
From Stdlib Require Import Ascii String.
From stdpp Require Import sorting.
From S2P Require Import Prelude PyValue GreffonInfo.
Import Text.
Local Open Scope string_scope.

(** ** Settings *)
Record settings : Type := {
  greffer_backup_repo : string;
  restic_password_file : string;
  restic_password : string;
  aws_access_key_id : string;
  aws_secret_access_key : string;
  greffer_backup_repo_per_instance : bool;
  backup_stop_timeout_seconds : Z;
  backup_safety_keep_last : Z;
  backup_keep_daily : Z; backup_keep_weekly : Z; backup_keep_monthly : Z;
}.

(** A destination the manager brokers. *)
Record destination : Type := {
  d_repo : string; d_password : string; d_key_id : string; d_secret : string }.

Definition nonempty (s : string) : bool := negb (String.eqb s "").
Definition or_str (a b : string) : string := if nonempty a then a else b.

Definition brokered (s : settings) (d : destination) : settings := {|
  greffer_backup_repo := d_repo d;
  restic_password_file := "";
  restic_password := d_password d;
  aws_access_key_id := or_str (d_key_id d) (aws_access_key_id s);
  aws_secret_access_key := or_str (d_secret d) (aws_secret_access_key s);
  greffer_backup_repo_per_instance := greffer_backup_repo_per_instance s;
  backup_stop_timeout_seconds := backup_stop_timeout_seconds s;
  backup_safety_keep_last := backup_safety_keep_last s;
  backup_keep_daily := backup_keep_daily s; backup_keep_weekly := backup_keep_weekly s;
  backup_keep_monthly := backup_keep_monthly s |}.

Definition per_instance (s : settings) (repo : string) : settings := {|
  greffer_backup_repo := repo;
  restic_password_file := restic_password_file s;
  restic_password := restic_password s;
  aws_access_key_id := aws_access_key_id s;
  aws_secret_access_key := aws_secret_access_key s;
  greffer_backup_repo_per_instance := greffer_backup_repo_per_instance s;
  backup_stop_timeout_seconds := backup_stop_timeout_seconds s;
  backup_safety_keep_last := backup_safety_keep_last s;
  backup_keep_daily := backup_keep_daily s; backup_keep_weekly := backup_keep_weekly s;
  backup_keep_monthly := backup_keep_monthly s |}.

(** [s.rstrip('/')] *)
Definition rstrip_slash (s : string) : string := String.rev (lstrip_char "/" (String.rev s)).

Definition _effective_settings (s : settings) (d : option destination) (id : option string) : settings :=
  match d with
  | Some d => brokered s d
  | None =>
      match id with
      | Some id =>
          if nonempty id && greffer_backup_repo_per_instance s && nonempty (greffer_backup_repo s)
          then per_instance s (rstrip_slash (greffer_backup_repo s) +:+ "/" +:+ id)
          else s
      | None => s
      end
  end.

Inductive job_exc : Type := BackupError (code : string) | OtherError.

(** The variables restic is given; it gets its repository and secrets from no
    other place. *)
Definition restic_env (s : settings) : result job_exc (list (string * string)) :=
  if negb (nonempty (greffer_backup_repo s)) then Raise (BackupError "repo_uninitialized")
  else
    pw ← (if nonempty (restic_password_file s)
          then Ok [("RESTIC_PASSWORD_FILE", restic_password_file s)]
          else if nonempty (restic_password s) then Ok [("RESTIC_PASSWORD", restic_password s)]
          else Raise (BackupError "repo_uninitialized"));
    mret (([("PATH", "/usr/local/bin:/usr/bin:/bin");
            ("RESTIC_REPOSITORY", greffer_backup_repo s)] ++ pw ++
      (if nonempty (aws_access_key_id s) then [("AWS_ACCESS_KEY_ID", aws_access_key_id s)] else []) ++
      (if nonempty (aws_secret_access_key s)
       then [("AWS_SECRET_ACCESS_KEY", aws_secret_access_key s)] else []))%list).

(** The [docker run] arguments of the sidecar: variables by NAME only. *)
Definition sidecar_argv (env : list (string * string)) (mounts : list (string * string))
    (read_only : bool) (image : string) (args : list string) : list string :=
  (["docker"; "run"; "--rm"] ++
   flat_map (λ kv, if mem (fst kv) ["PATH"; "HOME"] then [] else ["--env"; fst kv]) env ++
   flat_map (λ m, ["-v"; fst m +:+ ":" +:+ snd m +:+ (if read_only then ":ro" else "")]) mounts ++
   ["--entrypoint"; "restic"; image] ++ args)%list.

(** ** Error classes *)
Definition any_in (ws : list string) (text : string) : bool := existsb (λ w, contains w text) ws.

Definition _classify (stderr : string) : string :=
  let text := lower stderr in
  if any_in ["wrong password"; "invalid password"] text then "auth_failed"
  else if any_in ["unable to open config"; "does not exist"] text then "repo_uninitialized"
  else if any_in ["no space"; "disk full"; "out of space"] text then "disk_full"
  else if any_in ["connection refused"; "timeout"; "no route"; "dial tcp"] text then "repo_unreachable"
  else "snapshot_failed".

Definition _restore_classify (stderr : string) : string :=
  let base := _classify stderr in
  if String.eqb base "snapshot_failed" then "restore_failed" else base.

Definition _repo_op_error_code (stderr : string) : string :=
  if any_in ["already locked"; "unable to create lock"] (lower stderr) then "repo_busy"
  else _classify stderr.

(** ** The world *)
Inductive restic_op : Type :=
  | Snapshot (tag : string) (mounts : list (string * string))
  | Overwrite (snapshot : string) (mounts : list (string * string))
      (** [restore --delete] *)
  | CatConfig | Init | Unlock | Stats | Prune | RepoCheck
  | Forget (tag : string) (keep : list (string * Z))
  | ForgetSnapshot (snapshot : string).

(** A sidecar run: its exit code and output, or an exception (a timeout). *)
Inductive restic_answer : Type := Exit (rc : Z) (out : list value) (err : string) | Crash.

(** A pipe [producer | consumer]: both exit codes, the timeout, or an exception
    of [Popen]. *)
Inductive pipe_answer : Type :=
  | Pipe (producer_rc consumer_rc : Z) (out : list value) (err : string) | PipeTimeout | PipeCrash.

Record db_container : Type := {
  dc_name : string; dc_service : option string; dc_id : string; dc_running : bool;
  dc_dump : option string; dc_restore : option string; dc_health : option string;
  dc_volumes : list string;
}.

Inductive run_status : Type := SRunning | SStopped | SUnknown (any_container : bool).

Record payload : Type := Payload {
  p_success : bool; p_error : string; p_snapshot : option string; p_bytes : option Z;
  p_manifest : list (string * string); p_safety : option string;
  p_already_running : bool; p_repo_bytes : option Z }.

Definition failed_payload (code : string) : payload :=
  Payload false code None None [] None false None.

Inductive event : Type :=
  | EStatus (st : run_status)
  | EMarker (present : bool)         (** written, or not; removed (a failing removal is ignored) *)
  | EStop (ok : bool)
  | ERestart (ok : bool)
  | EStartServices (services : list string) (ok : bool)
  | ERestic (repo : string) (op : restic_op) (a : restic_answer)
  | EDump (container : string) (argv : list string) (a : pipe_answer)
  | EDbRestore (container : string) (argv : list string) (snapshot : string) (a : pipe_answer)
  | ESleep
  | ERestoreState (p : payload) (written : bool)
  | EOverwriting (safety : string) (written : bool)
  | EStateRemoved
  | EReserve
  | ERelease
  | ECallback (p : payload) (ack : bool).

Notation history := (list event).

Record env : Type := {
  status_answer : history → option run_status;     (** [None]: docker raises *)
  stop_answer : history → bool;
  restart_answer : history → bool;
  start_services_answer : history → bool;
  restic : history → string → restic_op → restic_answer;
  dump_answer : history → string → list string → pipe_answer;
  restore_answer : history → string → list string → string → pipe_answer;
  volumes : history → option (list string);        (** [client.volumes.list]; [None]: docker raises *)
  l4_file : history → option string;               (** path of [l4_ports.json] *)
  containers : history → option (list db_container);
  callback_answer : history → bool;
  disk_writable : history → bool;                  (** a file of the instance directory can be written *)
  monotonic : history → Z;                         (** seconds *)
  py_repr : value → string;                        (** [str] of a list, a dictionary or a float *)
}.

(** ** The state of a job *)
Record state : Type := {
  log : history;
  pay : payload;
  stopped : bool;            (** [stopped_for_backup] / [started_stopped] *)
  safety_id : string;
  overwrite_started : bool;
  db_started : bool;
  lock_held : bool;          (** [_release_once]'s flag *)
}.

Definition record (e : event) (s : state) : state := {|
  log := e :: log s; pay := pay s; stopped := stopped s; safety_id := safety_id s;
  overwrite_started := overwrite_started s; db_started := db_started s; lock_held := lock_held s |}.
Definition set_pay (p : payload) (s : state) : state := {|
  log := log s; pay := p; stopped := stopped s; safety_id := safety_id s;
  overwrite_started := overwrite_started s; db_started := db_started s; lock_held := lock_held s |}.
Definition set_stopped (b : bool) (s : state) : state := {|
  log := log s; pay := pay s; stopped := b; safety_id := safety_id s;
  overwrite_started := overwrite_started s; db_started := db_started s; lock_held := lock_held s |}.
Definition set_safety (i : string) (s : state) : state := {|
  log := log s; pay := pay s; stopped := stopped s; safety_id := i;
  overwrite_started := overwrite_started s; db_started := db_started s; lock_held := lock_held s |}.
Definition set_overwrite (s : state) : state := {|
  log := log s; pay := pay s; stopped := stopped s; safety_id := safety_id s;
  overwrite_started := true; db_started := db_started s; lock_held := lock_held s |}.
Definition set_db_started (s : state) : state := {|
  log := log s; pay := pay s; stopped := stopped s; safety_id := safety_id s;
  overwrite_started := overwrite_started s; db_started := true; lock_held := lock_held s |}.
Definition set_released (s : state) : state := {|
  log := ERelease :: log s; pay := pay s; stopped := stopped s; safety_id := safety_id s;
  overwrite_started := overwrite_started s; db_started := db_started s; lock_held := false |}.

Definition set_error (code : string) (p : payload) : payload :=
  Payload (p_success p) code (p_snapshot p) (p_bytes p) (p_manifest p) (p_safety p)
    (p_already_running p) (p_repo_bytes p).
Definition set_payload_safety (i : string) (p : payload) : payload :=
  Payload (p_success p) (p_error p) (p_snapshot p) (p_bytes p) (p_manifest p) (Some i)
    (p_already_running p) (p_repo_bytes p).
Definition set_repo_bytes (n : Z) (p : payload) : payload :=
  Payload (p_success p) (p_error p) (p_snapshot p) (p_bytes p) (p_manifest p) (p_safety p)
    (p_already_running p) (Some n).

(** The last [summary] line: the snapshot id, at most 64 characters, and the bytes added;
    [repr] is [str] of a list, a dictionary or a float. *)
Definition _parse_summary (repr : value → string) (out : list value) : string * option Z :=
  foldl (λ acc obj,
    match obj with
    | VDict d =>
        if eq_str (get_or_null "message_type" d) "summary" then
          (let snapshot_id := get_or_null "snapshot_id" d in
           if truthy snapshot_id then substring 0 64 (py_str repr snapshot_id) else "",
           match get_or_null "data_added" d with
           | VInt n => Some n | VBool b => Some (if b then 1 else 0)%Z | _ => snd acc end)
        else acc
    | _ => acc
    end) ("", None) out.

Definition _NGINX_VOLUME_SUFFIX : string := "_nginx_volume".
Definition _DUMP_TIMEOUT_SECONDS : Z := 3600.
Definition _DB_READY_TIMEOUT_SECONDS : Z := 180.

Section job.
Context (E : env) (cfg : settings) (id : string).
Notation J := (M state job_exc).

Definition ask {A} (f : history → A) (ev : A → event) : J A := λ s,
  let a := f (log s) in (Ok a, record (ev a) s).

(** A call that returns nothing and may raise. *)
Definition call (f : history → bool) (ev : bool → event) : J unit :=
  ok ← ask f ev; if (ok : bool) then mret tt else throw OtherError.

(** A file of the instance directory; an [OSError] is only logged. *)
Definition _write_json (ev : bool → event) : J unit := ask (disk_writable E) ev;; mret tt.

Definition get_status : J run_status := λ s,
  match status_answer E (log s) with
  | Some st => (Ok st, record (EStatus st) s)
  | None => (Raise OtherError, s)
  end.

(** A query of the docker daemon, which may raise and leaves no trace. *)
Definition query {A} (f : history → option A) : J A := λ s,
  match f (log s) with Some a => (Ok a, s) | None => (Raise OtherError, s) end.

Definition compose_stop : J unit := call (stop_answer E) EStop.
Definition _restart : J unit := call (restart_answer E) ERestart.

(** [_run_restic]: the environment is built first and may refuse. *)
Definition _run_restic (op : restic_op) : J (Z * list value * string) :=
  lift (restic_env cfg);;
  a ← ask (λ h, restic E h (greffer_backup_repo cfg) op) (ERestic (greffer_backup_repo cfg) op);
  match a with
  | Exit rc out err => mret (rc, out, err)
  | Crash => throw OtherError
  end.

Definition ensure_repo : J unit :=
  '(rc, _, _) ← _run_restic CatConfig;
  when (negb (rc =? 0)%Z)
    ('(init_rc, _, init_err) ← _run_restic Init;
     when (negb (init_rc =? 0)%Z) (throw (BackupError (_classify init_err))));;
  _run_restic Unlock;;
  mret tt.

(** ** Volumes *)
Definition _data_volumes : J (list string) :=
  vols ← query (volumes E);
  mret (merge_sort String.le
    (List.filter (λ v, startswith (id +:+ "_") v && negb (endswith _NGINX_VOLUME_SUFFIX v)) vols)).

Definition mount_of (vol : string) : string * string := (vol, "/data/" +:+ vol).

Definition l4_mount : J (list (string * string)) :=
  gets (λ s, match l4_file E (log s) with
             | Some path => [(path, "/data/_l4_ports.json")] | None => [] end).

Definition _backup_mounts : J (list (string * string)) :=
  vols ← _data_volumes;
  l4 ← l4_mount;
  mret ((mount_of <$> vols) ++ l4)%list.

Definition compose_name (vol : string) : string :=
  if startswith (id +:+ "_") vol
  then substring (String.length id + 1) (String.length vol) vol else vol.

(** The [data] volumes; an unclassified one is refused. *)
Fixpoint hot_mounts (classes : list (string * string)) (vols : list string) :
    result job_exc (list (string * string)) :=
  match vols with
  | [] => Ok []
  | vol :: vols =>
      match snd <$> first_match (λ kc, String.eqb (fst kc) (compose_name vol)) classes with
      | Some "data" => ms ← hot_mounts classes vols; mret (mount_of vol :: ms)
      | Some "regenerable" | Some "database" => hot_mounts classes vols
      | _ => Raise (BackupError "volume_unclassified")
      end
  end.

Definition _hot_backup_mounts (classes : list (string * string)) : J (list (string * string)) :=
  vols ← _data_volumes;
  ms ← lift (hot_mounts classes vols);
  match ms with
  | [] => mret []
  | _ => l4 ← l4_mount; mret (ms ++ l4)%list
  end.

(** ** Database artifacts *)
Definition with_timeout (cmd : string) : result job_exc (list string) :=
  match Shlex.split cmd with
  | Some argv => Ok ("timeout" :: pretty _DUMP_TIMEOUT_SECONDS :: argv)
  | None => Raise OtherError
  end.

Definition _dump_hooks : J (list (string * string * list string)) :=
  cs ← query (containers E);
  hooks ← lift (mapR (λ c,
    match dc_dump c with
    | Some cmd =>
        if dc_running c && nonempty cmd
        then argv ← with_timeout cmd;
             mret (Some (match dc_service c with Some sv => or_str sv (dc_name c) | None => dc_name c end,
                         dc_id c, argv))
        else mret None
    | None => mret None
    end) cs);
  mret (omap (λ h, h) hooks).

(** Dual exit gating: the producer first, then restic, then the byte count. *)
Definition dump_result (a : pipe_answer) : result job_exc (string * Z) :=
  match a with
  | PipeTimeout => Raise (BackupError "timeout")
  | PipeCrash => Raise OtherError
  | Pipe producer_rc consumer_rc out err =>
      if negb (producer_rc =? 0)%Z then Raise (BackupError "dump_failed")
      else if negb (consumer_rc =? 0)%Z then Raise (BackupError (_classify err))
      else match _parse_summary (py_repr E) out with
      | (snapshot, Some bytes) =>
          if (bytes =? 0)%Z then Raise (BackupError "dump_empty") else Ok (snapshot, bytes)
      | (_, None) => Raise (BackupError "dump_empty")
      end
  end.

Definition _dump_and_backup (container : string) (argv : list string) : J (string * Z) :=
  lift (restic_env cfg);;
  a ← ask (λ h, dump_answer E h container argv) (EDump container argv);
  lift (dump_result a).

Definition restore_result (a : pipe_answer) : result job_exc unit :=
  match a with
  | PipeTimeout => Raise (BackupError "timeout")
  | PipeCrash => Raise OtherError
  | Pipe producer_rc consumer_rc _ _ =>
      if negb (producer_rc =? 0)%Z then Raise (BackupError "restore_dump_failed")
      else if negb (consumer_rc =? 0)%Z then Raise (BackupError "restore_failed")
      else Ok tt
  end.

Definition _restore_database (container : string) (argv : list string) (snapshot : string) : J unit :=
  lift (restic_env cfg);;
  a ← ask (λ h, restore_answer E h container argv snapshot) (EDbRestore container argv snapshot);
  lift (restore_result a).

Definition default_bytes (b : option Z) : Z := default 0%Z b.

Definition run_dumps (hooks : list (string * string * list string))
    (acc : list (string * string) * Z) : J (list (string * string) * Z) :=
  foldS (λ acc hook,
    let '(service, container, argv) := hook in
    '(snapshot, bytes) ← _dump_and_backup container argv;
    mret ((fst acc ++ [("db:" +:+ service, snapshot)])%list, (snd acc + bytes)%Z)) acc hooks.

Definition _run_hot_backup (classes : list (string * string)) : J payload :=
  let db_volumes := List.filter (λ kc, String.eqb (snd kc) "database") classes in
  mounts ← _hot_backup_mounts classes;
  if bool_decide (mounts = []) && bool_decide (db_volumes = [])
  then throw (BackupError "no_data_volumes")
  else
    hooks ← (if bool_decide (db_volumes = []) then mret [] else _dump_hooks);
    if negb (bool_decide (db_volumes = [])) &&
       ((1 <? length db_volumes)%nat || (1 <? length hooks)%nat)
    then throw (BackupError "multiple_database_unsupported")
    else if negb (bool_decide (db_volumes = [])) && bool_decide (hooks = [])
    then throw (BackupError "no_dump_hook")
    else
      ensure_repo;;
      data ←
        (if bool_decide (mounts = []) then mret ([], 0%Z)
         else
           '(rc, out, err) ← _run_restic (Snapshot ("instance:" +:+ id) mounts);
           if negb (rc =? 0)%Z then throw (BackupError (_classify err))
           else let '(snapshot, bytes) := _parse_summary (py_repr E) out in
                mret ([("data", snapshot)], default_bytes bytes));
      '(manifest, total) ← run_dumps hooks data;
      let primary := default "" (snd <$> first_match (λ kv, String.eqb (fst kv) "data") manifest) in
      mret (Payload true "" (Some (or_str primary (default "" (snd <$> head manifest))))
              (Some total) manifest None false None).

(** ** Retention *)
Definition safety_keep : list (string * Z) := [("--keep-last", Z.max 1 (backup_safety_keep_last cfg))].
Definition instance_keep : list (string * Z) :=
  [("--keep-daily", Z.max 0 (backup_keep_daily cfg));
   ("--keep-weekly", Z.max 0 (backup_keep_weekly cfg));
   ("--keep-monthly", Z.max 0 (backup_keep_monthly cfg))].

(** Best effort: no outcome of it reaches the caller. *)
Definition _forget (safety : bool) : J unit :=
  let op := if safety then Forget ("safety:" +:+ id) safety_keep
            else Forget ("instance:" +:+ id) instance_keep in
  attempt (_run_restic op);; mret tt.

Definition forget_snapshot (snapshot : string) : J bool :=
  r ← attempt ('(rc, _, _) ← _run_restic (ForgetSnapshot snapshot); mret (rc =? 0)%Z);
  mret match r with Ok clean => clean | Raise _ => false end.

(** [restic stats]: the last line that carries a total. *)
Definition _restic_stats_total_size (out : list value) : option value :=
  head (omap (λ obj, match obj with VDict d => dict_get "total_size" d | _ => None end) (reverse out)).

Definition _repo_stats : J (option Z) :=
  r ← attempt (_run_restic Stats);
  mret match r with
  | Ok (rc, out, _) =>
      if (rc =? 0)%Z then
        match _restic_stats_total_size out with
        | Some (VInt n) => Some n
        | Some (VBool b) => Some (if b then 1 else 0)%Z
        | Some (VStr t) => int_of_string t
        | _ => None
        end
      else None
  | Raise _ => None
  end.

(** ** Waiting *)
Definition quiesced (missing_is_stopped : bool) (st : run_status) : bool :=
  match st with
  | SStopped => true
  | SUnknown any => missing_is_stopped && negb any
  | SRunning => false
  end.

Fixpoint wait_loop (fuel : nat) (deadline : Z) (missing : bool) : J bool :=
  late ← gets (λ s, negb (monotonic E (log s) <? deadline)%Z);
  if (late : bool) then st ← get_status; mret (quiesced missing st)
  else match fuel with
  | O => st ← get_status; mret (quiesced missing st)
  | S fuel =>
      st ← get_status;
      if quiesced missing st then mret true
      else modify (record ESleep);; wait_loop fuel deadline missing
  end.

(** One poll per second until the timeout. *)
Definition _wait_stopped (timeout : Z) (missing : bool) : J bool :=
  deadline ← gets (λ s, monotonic E (log s) + timeout)%Z;
  wait_loop (S (Z.to_nat timeout)) deadline missing.

Definition find_service (service : string) (cs : list db_container) : option db_container :=
  first_match (λ c, match dc_service c with Some s => String.eqb s service | None => false end) cs.

Fixpoint healthy_loop (fuel : nat) (deadline : Z) (service : string) : J bool :=
  late ← gets (λ s, negb (monotonic E (log s) <? deadline)%Z);
  if (late : bool) then mret false
  else match fuel with
  | O => mret false
  | S fuel =>
      cs ← query (containers E);
      let healthy := match find_service service cs with
                     | Some c => bool_decide (dc_health c = Some "healthy") | None => false end in
      if (healthy : bool) then mret true
      else modify (record ESleep);; healthy_loop fuel deadline service
  end.

Definition _wait_db_healthy (service : string) (timeout : Z) : J bool :=
  deadline ← gets (λ s, monotonic E (log s) + timeout)%Z;
  healthy_loop (S (Z.to_nat timeout)) deadline service.

Definition _restore_hook_for_service (service : string) : J (option (string * list string)) :=
  cs ← query (containers E);
  match find_service service cs with
  | Some c =>
      if dc_running c then
        match dc_restore c with
        | Some cmd =>
            if nonempty cmd then argv ← lift (with_timeout cmd); mret (Some (dc_id c, argv))
            else mret None
        | None => mret None
        end
      else mret None
  | None => mret None
  end.

Definition _db_volumes_from_containers (services : list string) : J (list string) :=
  cs ← query (containers E);
  mret (flat_map (λ c,
    match dc_service c with
    | Some sv => if mem sv services then List.filter nonempty (dc_volumes c) else []
    | None => []
    end) cs).

(** ** The lock: released once, early or at the end of the job. *)
Definition release_lock : J unit := λ s,
  if lock_held s then (Ok tt, set_released s) else (Ok tt, s).

Definition post_callback : J bool := λ s,
  let ack := callback_answer E (log s) in (Ok ack, record (ECallback (pay s) ack) s).

(** The [except] clauses of a job: they only touch the payload. *)
Definition handle (with_safety : bool) (e : job_exc) : J unit :=
  modify (λ s,
    let p := match e with
             | BackupError code => set_error code (pay s)
             | OtherError => if with_safety then pay s else set_error "snapshot_failed" (pay s)
             end in
    set_pay (if with_safety then set_payload_safety (safety_id s) p else p) s).

(** ** Backup *)
Definition cold_backup (was_running : bool) : J unit :=
  quiet ←
    (if was_running then
       _write_json EMarker;;
       compose_stop;;
       modify (set_stopped true);;
       _wait_stopped (backup_stop_timeout_seconds cfg) false
     else mret true);
  if negb quiet then modify (λ s, set_pay (set_error "stop_timeout" (pay s)) s)
  else
    mounts ← _backup_mounts;
    ensure_repo;;
    '(rc, out, err) ← _run_restic (Snapshot ("instance:" +:+ id) mounts);
    if negb (rc =? 0)%Z then modify (λ s, set_pay (set_error (_classify err) (pay s)) s)
    else let '(snapshot, bytes) := _parse_summary (py_repr E) out in
         modify (set_pay (Payload true "" (Some snapshot) bytes [] None false None)).

Definition backup_body (classes : list (string * string)) (was_running : bool) : J unit :=
  st ← get_status;
  match st with
  | SUnknown _ => modify (λ s, set_pay (set_error "instance_missing" (pay s)) s)
  | _ =>
      if bool_decide (classes = []) then cold_backup was_running
      else p ← _run_hot_backup classes; modify (set_pay p)
  end.

Definition backup_finally (metered : bool) : J unit :=
  back ← gets stopped;
  when back (attempt _restart;; mret tt);;
  modify (record (EMarker false));;
  done ← gets (λ s, p_success (pay s));
  when done
    (_forget false;;
     when metered
       (n ← _repo_stats;
        match n with Some n => modify (λ s, set_pay (set_repo_bytes n (pay s)) s) | None => mret tt end));;
  release_lock;;
  post_callback;;
  mret tt.

Definition backup_instance (metered : bool) (classes : list (string * string)) : J unit :=
  modify (set_pay (failed_payload "snapshot_failed"));;
  st ← get_status;
  catch (backup_body classes (match st with SRunning => true | _ => false end)) (handle false);;
  backup_finally metered.

(** ** Restore *)

(** [manifest]'s [db:<service>] entries. *)
Definition db_artifacts (manifest : list (string * string)) : list (string * string) :=
  omap (λ kv, if startswith "db:" (fst kv)
              then Some (substring 3 (String.length (fst kv)) (fst kv), snd kv) else None) manifest.

Definition fail_with (code : string) : J unit :=
  modify (λ s, set_pay (set_payload_safety (safety_id s) (failed_payload code)) s).

(** One database artifact; [false] when the payload already says why not. *)
Definition restore_db (service snapshot : string) : J bool :=
  healthy ← _wait_db_healthy service _DB_READY_TIMEOUT_SECONDS;
  if negb healthy then fail_with "db_not_ready";; mret false
  else
    hook ← _restore_hook_for_service service;
    match hook with
    | None => fail_with "no_restore_hook";; mret false
    | Some (container, argv) => _restore_database container argv snapshot;; mret true
    end.

Fixpoint restore_dbs (artifacts : list (string * string)) : J bool :=
  match artifacts with
  | [] => mret true
  | (service, snapshot) :: artifacts =>
      ok ← restore_db service snapshot;
      if (ok : bool) then restore_dbs artifacts else mret false
  end.

Definition restore_success (already_running : bool) : J unit :=
  modify (λ s, set_pay (Payload true "" None None [] (Some (safety_id s)) already_running None) s);;
  _forget true.

(** After the data volumes: the databases, then the whole instance. *)
Definition restore_databases (artifacts : list (string * string)) : J unit :=
  if bool_decide (artifacts = []) then restore_success false
  else
    modify set_db_started;;
    call (start_services_answer E) (EStartServices artifacts.*1);;
    ok ← restore_dbs artifacts;
    when ok (_restart;; restore_success true).

(** The irreversible part: the data volumes, behind the database guard. *)
Definition overwrite_data (artifacts : list (string * string)) (data_snap : string)
    (data_mounts : list (string * string)) : J unit :=
  misclassified ←
    (if bool_decide (artifacts = []) then mret false
     else db_vols ← _db_volumes_from_containers artifacts.*1;
          mret (existsb (λ m, mem (fst m) db_vols) data_mounts));
  if (misclassified : bool) then fail_with "db_volume_misclassified"
  else
    overwritten ←
      (if bool_decide (data_mounts = []) then mret true
       else
         '(rc, _, err) ← _run_restic (Overwrite data_snap data_mounts);
         if negb (rc =? 0)%Z then fail_with (_restore_classify err);; mret false else mret true);
    when overwritten (restore_databases artifacts).

Definition restore_body (snapshot : string) (manifest classes : list (string * string)) : J unit :=
  let artifacts := db_artifacts manifest in
  running ← gets stopped;
  quiet ← (if (running : bool)
           then compose_stop;; _wait_stopped (backup_stop_timeout_seconds cfg) false
           else mret true);
  if negb quiet then modify (λ s, set_pay (set_error "stop_timeout" (pay s)) s)
  else
    ensure_repo;;
    if negb (bool_decide (artifacts = [])) && bool_decide (classes = [])
    then modify (λ s, set_pay (set_error "volume_unclassified" (pay s)) s)
    else
      safety_mounts ← _backup_mounts;
      '(rc, out, _) ← _run_restic (Snapshot ("safety:" +:+ id) safety_mounts);
      if negb (rc =? 0)%Z then modify (λ s, set_pay (set_error "safety_snapshot_failed" (pay s)) s)
      else
        modify (set_safety (fst (_parse_summary (py_repr E) out)));;
        safety ← gets safety_id;
        _write_json (EOverwriting safety);;
        modify set_overwrite;;
        let data_snap := or_str
          (default "" (snd <$> first_match (λ kv, String.eqb (fst kv) "data") manifest)) snapshot in
        data_mounts ← (if bool_decide (artifacts = []) then mret safety_mounts
                       else _hot_backup_mounts classes);
        overwrite_data artifacts data_snap data_mounts.

Definition restore_finally : J unit :=
  s ← get;
  (if stopped s && negb (overwrite_started s) && negb (p_success (pay s))
   then attempt _restart;; mret tt
   else when (db_started s && negb (p_success (pay s)))
     (attempt (compose_stop;; _wait_stopped (backup_stop_timeout_seconds cfg) true);; mret tt));;
  outcome ← gets pay;
  _write_json (ERestoreState outcome);;
  reserve ← gets (λ s, p_success (pay s) && negb (p_already_running (pay s)));
  when reserve (modify (record EReserve));;
  release_lock;;
  ack ← post_callback;
  when ack (modify (record EStateRemoved)).

Definition restore_instance (snapshot : string) (manifest classes : list (string * string)) : J unit :=
  modify (set_pay (failed_payload "restore_failed"));;
  st ← get_status;
  modify (set_stopped (match st with SRunning => true | _ => false end));;
  catch (restore_body snapshot manifest classes) (handle true);;
  restore_finally.

(** [_locked_job]: whatever the job did, the lock is released. *)
Definition _locked_job (job : J unit) : J unit := finally job release_lock.

(** ** Boot reconciliation of one instance directory *)
Definition reconcile_restart (marker : bool) : J unit :=
  when marker
    (attempt (st ← get_status; when (match st with SStopped => true | _ => false end) _restart);;
     modify (record (EMarker false))).

(** Re-post every readable restore state; an acked one is removed. *)
Fixpoint reconcile_states (states : list (option payload)) : J (list (option payload)) :=
  match states with
  | [] => mret []
  | None :: states => rest ← reconcile_states states; mret (None :: rest)
  | Some p :: states =>
      modify (set_pay p);;
      ack ← post_callback;
      when ack (modify (record EStateRemoved));;
      rest ← reconcile_states states;
      mret (if (ack : bool) then rest else Some p :: rest)
  end.

Definition reconcile_on_boot (marker : bool) (states : list (option payload)) :
    J (list (option payload)) :=
  reconcile_restart marker;; reconcile_states states.

(** ** Repo-wide operations *)
Inductive repo_op_result : Type := OpSuccess | OpFailed (code : string).

Definition repo_op (op : restic_op) (crash_code : string) : J repo_op_result :=
  r ← attempt (ensure_repo;;
               '(rc, _, err) ← _run_restic op;
               mret (if (rc =? 0)%Z then OpSuccess else OpFailed (_repo_op_error_code err)));
  mret match r with Ok o => o | Raise _ => OpFailed crash_code end.

Definition prune_repo : J repo_op_result := repo_op Prune "prune_failed".
Definition check_repo : J repo_op_result := repo_op RepoCheck "check_failed".

Definition _repo_missing : J bool :=
  '(rc, _, err) ← _run_restic CatConfig;
  mret (negb (rc =? 0)%Z && String.eqb (_classify err) "repo_uninitialized").
End job.

Definition _per_instance_fanout (cfg : settings) (d : option destination) : bool :=
  match d with
  | Some _ => false
  | None => greffer_backup_repo_per_instance cfg && nonempty (greffer_backup_repo cfg)
  end.

(** One sub-repository after the other; a missing one is skipped, a failing
    one does not stop the rest. *)
Definition _per_instance_repo_op_job (E : env) (cfg : settings) (prune : bool) (ids : list string) :
    M state job_exc unit :=
  forS ids (λ iid,
    let eff := _effective_settings cfg None (Some iid) in
    attempt (missing ← _repo_missing E eff;
             if (missing : bool) then mret OpSuccess
             else if prune then prune_repo E eff else check_repo E eff);;
    mret tt).

(** ** A concrete world, for the examples *)
Module Demo.

(** Answers as a healthy host would give them: docker follows the last command. *)
Definition status (h : history) : option run_status :=
  Some match first_match (λ e, match e with EStop _ | ERestart _ | EStartServices _ _ => true | _ => false end) h with
       | Some (EStop true) => SStopped
       | _ => SRunning
       end.

Definition summary (snapshot : string) (bytes : Z) : list value :=
  [VDict [(VStr "message_type", VStr "summary"); (VStr "snapshot_id", VStr snapshot);
          (VStr "data_added", VInt bytes)]].

Definition world : env := {|
  status_answer := status;
  stop_answer := λ _, true;
  restart_answer := λ _, true;
  start_services_answer := λ _, true;
  restic := λ _ _ op, match op with Snapshot tag _ => Exit 0 (summary ("snap-" +:+ tag) 10) "" | _ => Exit 0 [] "" end;
  dump_answer := λ _ _ _, Pipe 0 0 (summary "snap-db" 20) "";
  restore_answer := λ _ _ _ _, Pipe 0 0 [] "";
  volumes := λ _, Some ["i_db"; "i_files"; "i_nginx_volume"; "other_files"];
  l4_file := λ _, None;
  containers := λ _, Some [
    {| dc_name := "i-app-1"; dc_service := Some "app"; dc_id := "c1"; dc_running := true; dc_dump := None;
       dc_restore := None; dc_health := None; dc_volumes := ["i_files"] |};
    {| dc_name := "i-pg-1"; dc_service := Some "pg"; dc_id := "c2"; dc_running := true;
       dc_dump := Some "pg_dump -U app"; dc_restore := Some "pg_restore -d app"; dc_health := Some "healthy";
       dc_volumes := ["i_db"] |}];
  callback_answer := λ _, true;
  disk_writable := λ _, true;
  monotonic := λ h, Z.of_nat (length h);
  py_repr := λ _, "?" |}.

Definition config : settings := {|
  greffer_backup_repo := "s3:bucket"; restic_password_file := ""; restic_password := "pw";
  aws_access_key_id := "k"; aws_secret_access_key := "s"; greffer_backup_repo_per_instance := false;
  backup_stop_timeout_seconds := 30; backup_safety_keep_last := 3;
  backup_keep_daily := 7; backup_keep_weekly := 4; backup_keep_monthly := 6 |}.

Definition classes : list (string * string) := [("db", "database"); ("files", "data")].
Definition manifest : list (string * string) := [("data", "snap1"); ("db:pg", "snap2")].

(** A job just admitted. *)
Definition admitted : state := {|
  log := []; pay := failed_payload ""; stopped := false; safety_id := ""; overwrite_started := false;
  db_started := false; lock_held := true |}.
End Demo.

(** ** Computations that only observe and snapshot *)

(** Events that neither change the instance nor the lock. *)
Definition benign (e : event) : Prop :=
  match e with
  | ERestic _ (Overwrite _ _) _ => False
  | EStatus _ | ESleep | ERestic _ _ _ | EDump _ _ _ => True
  | _ => False
  end.

Definition same_flags (s s' : state) : Prop :=
  pay s' = pay s ∧ stopped s' = stopped s ∧ safety_id s' = safety_id s ∧
  overwrite_started s' = overwrite_started s ∧ db_started s' = db_started s ∧
  lock_held s' = lock_held s.

(** [s'] is [s] with some more events, all in [P]. *)
Definition extends (P : event → Prop) (s s' : state) : Prop :=
  ∃ new, log s' = (new ++ log s)%list ∧ Forall P new.

Definition quiet (P : event → Prop) {A} (m : M state job_exc A) : Prop :=
  ∀ s, wp m (λ _ s', extends P s s' ∧ same_flags s s') s.

Lemma same_flags_refl s : same_flags s s.
Proof. by repeat split. Qed.
Lemma same_flags_trans s1 s2 s3 : same_flags s1 s2 → same_flags s2 s3 → same_flags s1 s3.
Proof. unfold same_flags. intuition congruence. Qed.
Lemma extends_refl P s : extends P s s.
Proof. by exists []. Qed.
Lemma extends_trans P s1 s2 s3 : extends P s1 s2 → extends P s2 s3 → extends P s1 s3.
Proof.
  intros (n1 & H1 & F1) (n2 & H2 & F2). exists (n2 ++ n1)%list. rewrite H2, H1, app_assoc.
  split; [done|]. by apply Forall_app.
Qed.
Lemma extends_mono (P Q : event → Prop) s s' :
  (∀ e, P e → Q e) → extends P s s' → extends Q s s'.
Proof. intros H (n & Hn & F). exists n. split; [done|]. eapply Forall_impl; eauto. Qed.
#[export] Hint Resolve same_flags_refl extends_refl : greffer.

Lemma quiet_mono (P Q : event → Prop) {A} (m : M state job_exc A) :
  (∀ e, P e → Q e) → quiet P m → quiet Q m.
Proof.
  intros H Hm s. eapply wp_mono; [apply Hm|]. intros r s' [? ?]. split; [|done].
  by eapply extends_mono.
Qed.

Lemma quiet_bind P {A B} (m : M state job_exc A) (k : A → M state job_exc B) :
  quiet P m → (∀ a, quiet P (k a)) → quiet P (m ≫= k).
Proof.
  intros Hm Hk s. apply wp_bind. eapply wp_mono; [apply Hm|].
  intros [a|e] s1 [He Hf]; [|done]. eapply wp_mono; [apply Hk|].
  intros r s2 [He2 Hf2]. split; [by eapply extends_trans|by eapply same_flags_trans].
Qed.

Lemma quiet_pure P {A} (m : M state job_exc A) : (∀ s, (m s).2 = s) → quiet P m.
Proof. intros H s. unfold wp. rewrite H. split; [apply extends_refl|apply same_flags_refl]. Qed.

Lemma quiet_ask P {A} (f : history → A) ev : (∀ a, P (ev a)) → quiet P (ask f ev).
Proof.
  intros H s. unfold wp, ask. simpl. split; [|by repeat split].
  exists [ev (f (log s))]. by repeat constructor.
Qed.

Lemma quiet_query P {A} (f : history → option A) : quiet P (query f).
Proof. apply quiet_pure. intros s. unfold query. by destruct (f (log s)). Qed.

Lemma quiet_record P e : P e → quiet P (modify (record e)).
Proof.
  intros H s. apply wp_modify. split; [|by repeat split]. exists [e]. by repeat constructor.
Qed.

Lemma quiet_when P b (m : M state job_exc unit) : quiet P m → quiet P (when b m).
Proof. destruct b; [done|]. by intros _; apply quiet_pure. Qed.

Lemma quiet_attempt P {A} (m : M state job_exc A) : quiet P m → quiet P (attempt m).
Proof. intros H s. apply wp_attempt, H. Qed.

Lemma quiet_foldS P {A B} (f : B → A → M state job_exc B) b l :
  (∀ b x, quiet P (f b x)) → quiet P (foldS f b l).
Proof.
  intros H. revert b. induction l as [|x l IH]; intros b; [by apply quiet_pure|].
  cbn [foldS]. apply quiet_bind; [apply H|]. intros b'. apply IH.
Qed.

(** One rule per construct; stops at what is not yet known to be quiet. *)
Ltac quiet_step :=
  lazymatch goal with
  | |- quiet _ (mbind _ _) => apply quiet_bind; [|intros ?]
  | |- quiet _ (mret _) => by apply quiet_pure
  | |- quiet _ (gets _) => by apply quiet_pure
  | |- quiet _ (lift _) => by apply quiet_pure
  | |- quiet _ (throw _) => by apply quiet_pure
  | |- quiet _ (query _) => apply quiet_query
  | |- quiet _ (ask _ _) => apply quiet_ask; intros ?
  | |- quiet _ (modify (record _)) => apply quiet_record
  | |- quiet _ (when _ _) => apply quiet_when
  | |- quiet _ (attempt _) => apply quiet_attempt
  | |- quiet _ (if ?b then _ else _) => destruct b
  | |- quiet _ (match ?x with _ => _ end) => destruct x
  end.
Ltac quiet := repeat (quiet_step; try done); eauto with greffer.

Section quiet_parts.
Context (E : env) (cfg : settings) (id : string).

Lemma quiet_run_restic P op : (∀ a, P (ERestic (greffer_backup_repo cfg) op a)) →
  quiet P (_run_restic E cfg op).
Proof. intros H. unfold _run_restic. quiet. Qed.

Lemma quiet_status P : (∀ st, P (EStatus st)) → quiet P (get_status E).
Proof.
  intros H s. unfold wp, get_status. destruct (status_answer E (log s)) as [st|]; simpl.
  - split; [exists [EStatus st]; by repeat constructor|by repeat split].
  - split; [apply extends_refl|apply same_flags_refl].
Qed.

Lemma quiet_ensure_repo : quiet benign (ensure_repo E cfg).
Proof. unfold ensure_repo. quiet; by apply quiet_run_restic. Qed.

Lemma quiet_backup_mounts : quiet benign (_backup_mounts E id).
Proof. unfold _backup_mounts, _data_volumes, l4_mount. quiet. Qed.

Lemma quiet_hot_mounts classes : quiet benign (_hot_backup_mounts E id classes).
Proof. unfold _hot_backup_mounts, _data_volumes, l4_mount. quiet. Qed.

Lemma quiet_wait timeout missing : quiet benign (_wait_stopped E timeout missing).
Proof.
  unfold _wait_stopped. apply quiet_bind; [by apply quiet_pure|]. intros deadline.
  generalize (S (Z.to_nat timeout)). intros fuel. induction fuel as [|fuel IH]; cbn [wait_loop];
    quiet; try by apply quiet_status.
Qed.

Lemma quiet_healthy service timeout : quiet benign (_wait_db_healthy E service timeout).
Proof.
  unfold _wait_db_healthy. apply quiet_bind; [by apply quiet_pure|]. intros deadline.
  generalize (S (Z.to_nat timeout)). intros fuel. induction fuel as [|fuel IH]; cbn [healthy_loop]; quiet.
Qed.

Lemma quiet_dump container argv : quiet benign (_dump_and_backup E cfg container argv).
Proof. unfold _dump_and_backup. quiet. Qed.

Lemma quiet_run_dumps hooks acc : quiet benign (run_dumps E cfg hooks acc).
Proof.
  apply quiet_foldS. intros b [[service container] argv]. apply quiet_bind; [apply quiet_dump|].
  intros [snapshot bytes]. by apply quiet_pure.
Qed.

Lemma quiet_hot_backup classes : quiet benign (_run_hot_backup E cfg id classes).
Proof.
  unfold _run_hot_backup, _dump_hooks. apply quiet_bind; [apply quiet_hot_mounts|]. intros mounts.
  quiet; first [apply quiet_ensure_repo | apply quiet_run_dumps | by apply quiet_run_restic | idtac].
Qed.

Lemma quiet_forget safety : quiet benign (_forget E cfg id safety).
Proof. unfold _forget. quiet. destruct safety; by apply quiet_run_restic. Qed.

Lemma quiet_repo_stats : quiet benign (_repo_stats E cfg).
Proof.
  unfold _repo_stats. apply quiet_bind; [apply quiet_attempt; by apply quiet_run_restic|].
  intros r. by apply quiet_pure.
Qed.
End quiet_parts.
