(* ===== verification/BackupSafety.v ===== *)
(** The guarantees of the backup and restore jobs of [Backup]: what the history
    of a whole job looks like, for every behaviour of docker, restic and the
    manager. Histories are newest first, so "before" is further right. *)
From Stdlib Require Import Ascii String.
From stdpp Require Import sorting.
From S2P Require Import Prelude PyValue Backup.
Import Text.
Local Open Scope string_scope.
Local Open Scope list_scope.

(** ** Reasoning about a job part *)

(** [s'] adds events of [P] to [s] and leaves the flags. *)
Definition quietly (P : event → Prop) (s s' : state) : Prop := extends P s s' ∧ same_flags s s'.

Lemma wp_quiet P {A} (m : M state job_exc A) (Q : result job_exc A → state → Prop) s :
  quiet P m → (∀ r s', quietly P s s' → Q r s') → wp m Q s.
Proof. intros Hm HQ. eapply wp_mono; [apply Hm|]. intros r s' H. by apply HQ. Qed.

Lemma wp_ask {A} (f : history → A) ev (Q : result job_exc A → state → Prop) s :
  Q (Ok (f (log s))) (record (ev (f (log s))) s) → wp (ask f ev) Q s.
Proof. done. Qed.

Lemma wp_query {A} (f : history → option A) (Q : result job_exc A → state → Prop) s :
  (∀ a, f (log s) = Some a → Q (Ok a) s) → (f (log s) = None → Q (Raise OtherError) s) →
  wp (query f) Q s.
Proof. intros H1 H2. unfold wp, query. destruct (f (log s)); cbn; auto. Qed.

Lemma wp_call f ev (Q : result job_exc unit → state → Prop) s :
  (f (log s) = true → Q (Ok tt) (record (ev true) s)) →
  (f (log s) = false → Q (Raise OtherError) (record (ev false) s)) → wp (call f ev) Q s.
Proof.
  intros Ht Hf. unfold call. apply wp_bind, wp_ask. destruct (f (log s)); [apply wp_ret|apply wp_throw]; auto.
Qed.

Lemma wp_status E (Q : result job_exc run_status → state → Prop) s :
  (∀ st, Q (Ok st) (record (EStatus st) s)) → Q (Raise OtherError) s → wp (get_status E) Q s.
Proof. intros H1 H2. unfold wp, get_status. destruct (status_answer E (log s)); cbn; auto. Qed.

Lemma wp_run_restic E cfg op (Q : result job_exc (Z * list value * string) → state → Prop) s :
  (∀ rc out err, Q (Ok (rc, out, err)) (record (ERestic (greffer_backup_repo cfg) op (Exit rc out err)) s)) →
  Q (Raise OtherError) (record (ERestic (greffer_backup_repo cfg) op Crash) s) →
  (∀ e, Q (Raise e) s) → wp (_run_restic E cfg op) Q s.
Proof.
  intros H1 H2 H3. unfold _run_restic. apply wp_bind, wp_lift.
  destruct (restic_env cfg) as [env|e]; [|done]. apply wp_bind, wp_ask.
  destruct (restic E _ _ op); [apply wp_ret|apply wp_throw]; auto.
Qed.

Lemma rel_quiet (R : state → state → Prop) P {A} (m : M state job_exc A) :
  (∀ s s', quietly P s s' → R s s') → quiet P m → rel R m.
Proof. intros H Hm s. eapply wp_mono; [apply Hm|]. intros r s' Hs. by apply H. Qed.

Ltac rel_step :=
  lazymatch goal with
  | |- rel _ (query ?f) =>
      apply rel_pure; [typeclasses eauto|intros ?; unfold query; by case_match]
  | |- _ => Prelude.rel_step
  end.

(** *** Two histories with one event of a kind in them *)
Lemma split_unique {A} (P : A → Prop) (l1 l2 m1 m2 : list A) x y :
  l1 ++ x :: l2 = m1 ++ y :: m2 → P x → P y →
  Forall (λ e, ¬ P e) m1 → Forall (λ e, ¬ P e) m2 → l1 = m1 ∧ x = y ∧ l2 = m2.
Proof.
  intros H Hx Hy. revert m1 H. induction l1 as [|a l1 IH]; intros [|b m1]; simpl; intros [= -> H] F1 F2.
  - auto.
  - inversion F1; subst. done.
  - subst. rewrite Forall_app, Forall_cons in F2. tauto.
  - inversion F1; subst. destruct (IH m1) as (-> & -> & ->); auto.
Qed.

(** *** The polls of [_wait_stopped] *)
Lemma wait_loop_true E fuel deadline s :
  wp (wait_loop E fuel deadline false) (λ r s', r = Ok true → EStatus SStopped ∈ log s') s.
Proof.
  revert s. induction fuel as [|fuel IH]; intros s; cbn [wait_loop].
  all: apply wp_bind, wp_gets; destruct (negb _); apply wp_bind; unfold get_status at 1;
    unfold wp at 1; destruct (status_answer _ _) as [st|]; cbn; try done.
  1-3: apply wp_ret; destruct st; try done; intros _; left.
  destruct st; try (apply wp_ret; intros _; left); apply wp_bind, wp_modify, IH.
Qed.

Lemma wait_stopped_true E timeout s :
  wp (_wait_stopped E timeout false)
     (λ r s', quietly benign s s' ∧ (r = Ok true → EStatus SStopped ∈ log s')) s.
Proof.
  apply wp_conj; [apply quiet_wait|]. unfold _wait_stopped. apply wp_bind, wp_gets.
  apply wait_loop_true.
Qed.

(** ** What a job's end does *)
Section ends.
Context (E : env) (cfg : settings) (id : string).

Lemma wp_forget safety (Q : result job_exc unit → state → Prop) s :
  (∀ s', quietly benign s s' → Q (Ok tt) s') → wp (_forget E cfg id safety) Q s.
Proof.
  intros HQ. unfold _forget. apply wp_bind, wp_attempt.
  apply (wp_quiet benign); [destruct safety; by apply quiet_run_restic|].
  intros r s' H. by apply wp_ret, HQ.
Qed.

Lemma wp_repo_stats (Q : result job_exc (option Z) → state → Prop) s :
  (∀ n s', quietly benign s s' → Q (Ok n) s') → wp (_repo_stats E cfg) Q s.
Proof.
  intros HQ. unfold _repo_stats. apply wp_bind, wp_attempt.
  apply (wp_quiet benign); [by apply quiet_run_restic|]. intros r s' H. by apply wp_ret, HQ.
Qed.

Lemma wp_attempt_restart (Q : result job_exc unit → state → Prop) s :
  (∀ ok, Q (Ok tt) (record (ERestart ok) s)) → wp (attempt (_restart E);; mret tt) Q s.
Proof.
  intros HQ. apply wp_bind, wp_attempt, wp_call; intros _; apply wp_ret, HQ.
Qed.

Lemma wp_release (Q : result job_exc unit → state → Prop) s :
  (lock_held s = true → Q (Ok tt) (set_released s)) → (lock_held s = false → Q (Ok tt) s) →
  wp release_lock Q s.
Proof. unfold wp, release_lock. destruct (lock_held s); auto. Qed.

Definition released (s : state) : history := if lock_held s then [ERelease] else [].

(** The end of a backup: the restart when it stopped the instance, the marker,
    then retention and metering, the release, the callback. *)
Lemma wp_backup_finally metered s :
  wp (backup_finally E cfg id metered)
     (λ r s', r = Ok tt ∧ lock_held s' = false ∧ ∃ new mid p ack,
        log s' = ECallback p ack :: released s ++ new ++ EMarker false :: mid ++ log s ∧
        Forall benign new ∧ (mid = [] ∧ stopped s = false ∨
                             ∃ ok, mid = [ERestart ok] ∧ stopped s = true) ∧
        p_success p = p_success (pay s) ∧ p_error p = p_error (pay s)) s.
Proof.
  unfold backup_finally. apply wp_bind, wp_gets, wp_bind.
  eapply (wp_mono _ (λ r s1, r = Ok tt ∧ ∃ mid, log s1 = mid ++ log s ∧ pay s1 = pay s ∧
    lock_held s1 = lock_held s ∧
    (mid = [] ∧ stopped s = false ∨ ∃ ok, mid = [ERestart ok] ∧ stopped s = true))).
  { apply wp_when; intros Hst.
    - apply wp_attempt_restart. intros ok. split; [done|]. exists [ERestart ok]. split_and!; try done. right. by exists ok.
    - split; [done|]. exists []. split_and!; auto. }
  intros r s1 (-> & mid & Hl1 & Hp1 & Hk1 & Hmid).
  apply wp_bind, wp_modify, wp_bind, wp_gets, wp_bind.
  eapply (wp_mono _ (λ r s2, r = Ok tt ∧ lock_held s2 = lock_held s ∧ ∃ new,
    log s2 = new ++ EMarker false :: mid ++ log s ∧ Forall benign new ∧
    p_success (pay s2) = p_success (pay s) ∧ p_error (pay s2) = p_error (pay s))).
  - apply wp_when; cbn; rewrite Hp1; intros Hs.
    + apply wp_bind, wp_forget. intros s2 [(n & Hn & Fn) Hf]. cbn in Hn.
      destruct Hf as (Hp & _ & _ & _ & _ & Hk). cbn in Hp, Hk.
      apply wp_when; intros _.
      2:{ split_and!; [done|congruence|]. exists n. rewrite Hn, Hl1, Hp, Hp1. auto. }
      apply wp_bind, wp_repo_stats. intros m s3 [(n' & Hn' & Fn') Hf']. cbn in Hn'.
      destruct Hf' as (Hp' & _ & _ & _ & _ & Hk'). cbn in Hp', Hk'.
      destruct m as [m|]; [apply wp_modify|apply wp_ret]; cbn;
        (split_and!; [done|congruence|]); exists (n' ++ n);
        rewrite Hn', Hn, Hl1, Hp', Hp, Hp1, <- app_assoc; rewrite Forall_app; auto.
    + split_and!; [done|done|]. exists []. cbn. rewrite Hl1. auto.
  - intros r s2 (-> & Hk2 & new & Hl2 & Fn & Hps & Hpe). apply wp_bind.
    unfold released. apply wp_release; rewrite Hk2; intros Hk; rewrite Hk; apply wp_bind; unfold wp; cbn.
    all: split_and!; [done|done || congruence|]; eexists new, mid, _, _; rewrite Hl2; auto.
Qed.
End ends.

(** ** The body of a backup *)
Definition backup_event (e : event) : Prop :=
  benign e ∨ (∃ b, e = EMarker b) ∨ (∃ b, e = EStop b).

(** A cold backup notes in [stopped] that it stopped the instance. *)
Definition cold_step (s s' : state) : Prop :=
  ∃ new, log s' = new ++ log s ∧ Forall backup_event new ∧ lock_held s' = lock_held s ∧
    (stopped s' = true ↔ EStop true ∈ new ∨ stopped s = true).

Definition hot_step (s s' : state) : Prop :=
  ∃ new, log s' = new ++ log s ∧ Forall benign new ∧ lock_held s' = lock_held s ∧
    stopped s' = stopped s.

#[export] Instance cold_step_preorder : PreOrder cold_step.
Proof.
  split.
  - intros s. exists []. rewrite elem_of_nil. split_and!; auto. tauto.
  - intros s1 s2 s3 (n1 & H1 & F1 & L1 & S1) (n2 & H2 & F2 & L2 & S2). exists (n2 ++ n1).
    rewrite H2, H1, L2, L1, app_assoc, Forall_app, elem_of_app, S2, S1. tauto.
Qed.

#[export] Instance hot_step_preorder : PreOrder hot_step.
Proof.
  split.
  - intros s. exists []. auto.
  - intros s1 s2 s3 (n1 & H1 & F1 & L1 & S1) (n2 & H2 & F2 & L2 & S2). exists (n2 ++ n1).
    rewrite H2, H1, L2, L1, app_assoc, Forall_app. split_and!; congruence || auto.
Qed.

Lemma quietly_cold s s' : quietly benign s s' → cold_step s s'.
Proof.
  intros [(n & Hn & Fn) (_ & Hs & _ & _ & _ & Hk)]. exists n. rewrite Hs. split_and!; try done.
  - eapply Forall_impl; [exact Fn|]. intros e ?. by left.
  - split; [tauto|]. intros [He|?]; [|done]. rewrite Forall_forall in Fn. by apply Fn in He.
Qed.

Lemma quietly_hot s s' : quietly benign s s' → hot_step s s'.
Proof. intros [(n & Hn & Fn) (_ & Hs & _ & _ & _ & Hk)]. by exists n. Qed.

Lemma cold_silent f : (∀ s, log (f s) = log s ∧ lock_held (f s) = lock_held s ∧ stopped (f s) = stopped s) →
  rel cold_step (modify f : M state job_exc unit).
Proof.
  intros H. apply rel_modify. intros s. destruct (H s) as (Hl & Hk & Hs). exists [].
  rewrite elem_of_nil, Hs. split_and!; auto. tauto.
Qed.

Lemma hot_silent f : (∀ s, log (f s) = log s ∧ lock_held (f s) = lock_held s ∧ stopped (f s) = stopped s) →
  rel hot_step (modify f : M state job_exc unit).
Proof. intros H. apply rel_modify. intros s. destruct (H s) as (Hl & Hk & Hs). by exists []. Qed.

Section backup.
Context (E : env) (cfg : settings) (id : string).

Lemma rel_status : rel cold_step (get_status E).
Proof. eapply (rel_quiet _ benign); [apply quietly_cold|by apply quiet_status]. Qed.

(** The stop and the flag that remembers it are one step. *)
Lemma rel_stop_noted {A} (m : M state job_exc A) : rel cold_step m →
  rel cold_step (compose_stop E;; modify (set_stopped true);; m).
Proof.
  intros Hk s. apply wp_bind, wp_call; intros _.
  - apply wp_bind, wp_modify. eapply wp_mono; [apply Hk|]. intros r s' Hs'. etransitivity; [|exact Hs'].
    exists [EStop true]. cbn. split_and!; try done.
    + apply Forall_singleton. right. right. by eexists.
    + split; [|done]. intros _. left. by left.
  - exists [EStop false]. cbn. split_and!; try done.
    + apply Forall_singleton. right. right. by eexists.
    + rewrite list_elem_of_singleton. split; [by right|]. intros [?|?]; done.
Qed.

Lemma rel_calm {A} (m : M state job_exc A) : quiet benign m → rel cold_step m.
Proof. apply rel_quiet. apply quietly_cold. Qed.

Lemma rel_cold_backup was_running : rel cold_step (cold_backup E cfg id was_running).
Proof.
  unfold cold_backup. rel_step.
  - destruct was_running; [|by rel_step]. rel_step.
    + intros s. apply wp_bind, wp_ask, wp_ret. exists [EMarker (disk_writable E (log s))].
      rewrite list_elem_of_singleton. split_and!; try done.
      * apply Forall_singleton. right. left. by eexists.
      * split; [by right|]. by intros [?|?].
    + apply rel_stop_noted, rel_calm, quiet_wait.
  - destruct (negb _); [by apply cold_silent|]. rel_step; [apply rel_calm, quiet_backup_mounts|].
    rel_step; [apply rel_calm, quiet_ensure_repo|].
    rel_step; [by apply rel_calm, quiet_run_restic|]. repeat (first [by apply cold_silent | rel_step]).
Qed.

Lemma rel_hot {A} (m : M state job_exc A) : quiet benign m → rel hot_step m.
Proof. apply rel_quiet. apply quietly_hot. Qed.

(** The whole [try] block. *)
Lemma rel_backup_try classes was_running :
  rel (if bool_decide (classes = []) then cold_step else hot_step)
      (catch (backup_body E cfg id classes was_running) (handle false)).
Proof.
  unfold backup_body. destruct (bool_decide (classes = [])).
  - repeat (first [by apply cold_silent | apply rel_status | apply rel_cold_backup | rel_step]).
  - repeat (first [by apply hot_silent | apply rel_hot; by apply quiet_status
                  | apply rel_hot, quiet_hot_backup | rel_step]).
Qed.
(** [_locked_job] on a job that already released, or left no trace. *)
Lemma wp_locked_job (m : M state job_exc unit) (Q : result job_exc unit → state → Prop) s :
  wp m (λ r s', (lock_held s' = true → Q r (set_released s')) ∧ (lock_held s' = false → Q r s')) s →
  wp (_locked_job m) Q s.
Proof.
  intros H. apply wp_finally. eapply wp_mono; [exact H|]. intros r s' [H1 H2].
  by apply wp_release.
Qed.

Lemma catch_handle_ok (m : M state job_exc unit) b s :
  wp (catch m (handle b)) (λ r _, r = Ok tt) s.
Proof. apply wp_catch. unfold wp at 1. destruct (m s).1 as [[]|e]; [done|]. by apply wp_modify. Qed.

(** The history of a whole backup job that reported. *)
Definition backup_trace (classes : list (string * string)) (h : history) : Prop :=
  ∃ p ack tail restarts body,
    h = ECallback p ack :: ERelease :: tail ++ EMarker false :: restarts ++ body ∧
    Forall benign tail ∧ Forall backup_event body ∧
    (restarts = [] ∧ EStop true ∉ body ∨ ∃ ok, restarts = [ERestart ok] ∧ EStop true ∈ body) ∧
    (classes ≠ [] → restarts = [] ∧ Forall benign body).

Lemma wp_backup_instance metered classes s :
  log s = [] → lock_held s = true → stopped s = false →
  wp (backup_instance E cfg id metered classes)
     (λ r s', r = Raise OtherError ∧ lock_held s' = true ∧ log s' = [] ∨
              r = Ok tt ∧ lock_held s' = false ∧ backup_trace classes (log s')) s.
Proof.
  intros Hl Hk Hs. unfold backup_instance. apply wp_bind, wp_modify, wp_bind, wp_status; [|by left].
  intros st. apply wp_bind. eapply wp_mono.
  { apply wp_conj; [apply catch_handle_ok|apply rel_backup_try]. }
  intros r s1 [-> Hstep]. eapply wp_mono; [apply wp_backup_finally|].
  intros r s2 (-> & Hk2 & new & mid & p & ack & Hl2 & Fn & Hmid & _ & _). right.
  split_and!; [done..|].
  assert (∃ body, log s1 = body ++ [EStatus st] ∧ Forall backup_event body ∧
    lock_held s1 = true ∧ (stopped s1 = true ↔ EStop true ∈ body) ∧ (classes ≠ [] → Forall benign body))
    as (body & Hl1 & Fb & Hk1 & Hs1 & Hhot).
  { destruct (bool_decide_reflect (classes = [])) as [Hc|Hc]; cbn in Hstep.
    - destruct Hstep as (nw & Hn & Fn' & Hk' & Hs'). exists nw. cbn in *. rewrite Hl in Hn. rewrite Hk', Hk.
      split_and!; try done. rewrite Hs', Hs. naive_solver.
    - destruct Hstep as (nw & Hn & Fn' & Hk' & Hs'). exists nw. cbn in *. rewrite Hl in Hn. rewrite Hk', Hk.
      split_and!; try done; [eapply Forall_impl; [exact Fn'|]; intros; by left|].
      rewrite Hs', Hs. split; [done|]. rewrite Forall_forall in Fn'. by intros ?%Fn'. }
  unfold released in Hl2. rewrite Hk1 in Hl2. exists p, ack, new, mid, (body ++ [EStatus st]).
  rewrite Hl2, Hl1. split_and!; try done.
  - apply Forall_app. split; [done|]. apply Forall_singleton. by left.
  - destruct Hmid as [[-> Hst]|(ok & -> & Hst)]; [left|right; exists ok]; (split; [done|]);
      rewrite elem_of_app, list_elem_of_singleton, <- Hs1, Hst; [by intros [?|?]|by left].
  - intros Hc. specialize (Hhot Hc). split; [|apply Forall_app; by repeat constructor].
    destruct Hmid as [[-> _]|(ok & _ & Hst)]; [done|]. apply Hs1 in Hst.
    rewrite Forall_forall in Hhot. by apply Hhot in Hst.
Qed.

(** A backup job that was admitted holding the lock releases it exactly
    once and, unless docker refused the very first status request, reports to
    the manager exactly once, after the release. Between its start and its end
    it only observes, snapshots and stops; when it stopped the instance it runs
    [up] again, whatever failed in between, and when it did not it never does; a
    hot backup (one with volume classes) never stops nor restarts it. *)
Theorem backup_job_trace metered classes s :
  log s = [] → lock_held s = true → stopped s = false →
  let s' := (_locked_job (backup_instance E cfg id metered classes) s).2 in
  lock_held s' = false ∧ (log s' = [ERelease] ∨ backup_trace classes (log s')).
Proof.
  intros Hl Hk Hs. cbn zeta.
  enough (wp (_locked_job (backup_instance E cfg id metered classes)) (λ _ s', lock_held s' = false ∧
    (log s' = [ERelease] ∨ backup_trace classes (log s'))) s) as H by exact H.
  apply wp_locked_job. eapply wp_mono; [by apply wp_backup_instance|].
  intros r s' [(-> & Hk' & Hl')|(-> & Hk' & Ht)]; rewrite Hk'; split; try done; intros _; cbn.
  - rewrite Hl'. auto.
  - auto.
Qed.
End backup.

(** ** What a successful hot backup holds *)
Section hot.
Context (E : env) (cfg : settings) (id : string).

Definition volume_class (classes : list (string * string)) (vol : string) : option string :=
  snd <$> first_match (λ kc, String.eqb (fst kc) (compose_name id vol)) classes.

(** A volume of the instance, nginx's cache aside. *)
Definition instance_volume (vol : string) : Prop :=
  startswith (id +:+ "_") vol = true ∧ endswith _NGINX_VOLUME_SUFFIX vol = false.

Definition dumped (new : history) (manifest : list (string * string))
    (hook : string * string * list string) : Prop :=
  ∃ out err snapshot bytes,
    EDump hook.1.2 hook.2 (Pipe 0 0 out err) ∈ new ∧ _parse_summary (py_repr E) out = (snapshot, Some bytes) ∧
    bytes ≠ 0%Z ∧ ("db:" +:+ hook.1.1, snapshot) ∈ manifest.

Lemma hot_mounts_ok classes vols ms v :
  hot_mounts id classes vols = Ok ms → v ∈ vols →
  volume_class classes v = Some "data" ∧ mount_of v ∈ ms ∨
  volume_class classes v = Some "regenerable" ∨ volume_class classes v = Some "database".
Proof.
  revert ms. induction vols as [|v' vols IH]; intros ms H Hv; [by apply elem_of_nil in Hv|].
  cbn [hot_mounts] in H. fold (volume_class classes v') in H.
  apply elem_of_cons in Hv. destruct (volume_class classes v') as [c|] eqn:Hc; [|done].
  destruct (decide (c = "data")) as [->|]; [cbn in H; inv_result; naive_solver set_solver|].
  destruct (decide (c = "regenerable")) as [->|]; [naive_solver|].
  destruct (decide (c = "database")) as [->|]; [naive_solver|]. exfalso.
  repeat (case_match; try done).
Qed.

Lemma dump_result_ok a snapshot bytes :
  dump_result E a = Ok (snapshot, bytes) →
  ∃ out err, a = Pipe 0 0 out err ∧ _parse_summary (py_repr E) out = (snapshot, Some bytes) ∧ bytes ≠ 0%Z.
Proof.
  unfold dump_result. destruct a as [prc crc out err| |]; [|done..].
  destruct (Z.eqb_spec prc 0), (Z.eqb_spec crc 0); try done; cbn.
  destruct (_parse_summary (py_repr E) out) as [sn [b|]] eqn:?; [|done].
  destruct (Z.eqb_spec b 0); [done|]. intros [= -> ->]. subst. eauto.
Qed.

Lemma wp_run_dumps hooks data s :
  wp (run_dumps E cfg hooks data)
     (λ r s', ∀ m, r = Ok m → ∃ new, log s' = new ++ log s ∧ data.1 ⊆ m.1 ∧
                                Forall (dumped new m.1) hooks) s.
Proof.
  unfold run_dumps. eapply wp_mono.
  { apply (wp_foldS_prefix _ (λ done m s', ∃ new, log s' = new ++ log s ∧ data.1 ⊆ m.1 ∧
      Forall (dumped new m.1) done) (λ _ _, True)).
    2:{ exists []. auto. }
    intros done [[service container] argv] m s1 _ (new & Hl & Hd & F).
    apply wp_bind. unfold _dump_and_backup. apply wp_bind, wp_lift.
    destruct (restic_env cfg); [|done]. apply wp_bind, wp_ask, wp_lift.
    destruct (dump_result _ _) as [[sn b]|] eqn:Hr; [|done]. apply wp_ret.
    apply dump_result_ok in Hr as (out & err & Ha & Hp & Hb). rewrite Ha. cbn.
    eexists (_ :: new). rewrite Hl. split; [done|]. split; [set_solver|].
    apply Forall_app. split.
    - eapply Forall_impl; [exact F|]. intros h (o & e & sn' & b' & ? & ? & ? & ?).
      exists o, e, sn', b'. set_solver.
    - apply Forall_singleton. exists out, err, sn, b. cbn. set_solver. }
  intros [m|e] s' H m' Hm'; [injection Hm' as <-|done]. exact H.
Qed.

Lemma wp_hot_backup_mounts classes (Q : result job_exc (list (string * string)) → state → Prop) s :
  (∀ vols ms, volumes E (log s) = Some vols →
     (∀ v, v ∈ vols → instance_volume v →
        volume_class classes v = Some "data" ∧ mount_of v ∈ ms ∨
        volume_class classes v = Some "regenerable" ∨ volume_class classes v = Some "database") →
     Q (Ok ms) s) →
  (∀ e, Q (Raise e) s) →
  wp (_hot_backup_mounts E id classes) Q s.
Proof.
  intros Hok Hr. unfold _hot_backup_mounts, _data_volumes. apply wp_bind, wp_bind, wp_query; [|auto].
  intros vols Hv. apply wp_ret, wp_bind, wp_lift.
  destruct (hot_mounts _ _ _) as [ms|e] eqn:Hm; [|auto].
  assert (Hin : ∀ v, v ∈ vols → instance_volume v →
    v ∈ merge_sort String.le (List.filter (λ v, startswith (id +:+ "_") v && negb (endswith _NGINX_VOLUME_SUFFIX v)) vols)).
  { intros v Hin [H1 H2]. rewrite merge_sort_Permutation. apply list_elem_of_In, filter_In.
    rewrite <- list_elem_of_In, H1, H2. done. }
  assert (Hms : ∀ v, v ∈ vols → instance_volume v →
        volume_class classes v = Some "data" ∧ mount_of v ∈ ms ∨
        volume_class classes v = Some "regenerable" ∨ volume_class classes v = Some "database").
  { intros v H1 H2. eapply hot_mounts_ok; eauto. }
  destruct ms as [|m ms]; [by apply wp_ret, (Hok vols)|]. unfold l4_mount.
  apply wp_bind, wp_gets, wp_ret, (Hok vols); [done|]. intros v H1 H2.
  destruct (Hms v H1 H2) as [[??]|?]; [left|by right]. split; [done|]. apply elem_of_app. by left.
Qed.

Lemma wp_dump_hooks (Q : result job_exc (list (string * string * list string)) → state → Prop) s :
  (∀ cs hooks, containers E (log s) = Some cs →
     (∀ service container argv, (service, container, argv) ∈ hooks → ∃ c cmd, c ∈ cs ∧ dc_running c = true ∧
        dc_id c = container ∧ dc_dump c = Some cmd ∧ with_timeout cmd = Ok argv) → Q (Ok hooks) s) →
  (∀ e, Q (Raise e) s) →
  wp (_dump_hooks E) Q s.
Proof.
  intros Hok Hr. unfold _dump_hooks. apply wp_bind, wp_query; [|auto]. intros cs Hcs.
  apply wp_bind, wp_lift. destruct (mapR _ cs) as [hooks|] eqn:Hm; [|auto]. apply wp_ret, (Hok cs); [done|].
  intros service container argv Hh. apply list_elem_of_omap in Hh as (h & Hh & ->).
  apply mapR_ok, Forall2_flip in Hm. apply list_elem_of_lookup_1 in Hh as [i Hi].
  destruct (Forall2_lookup_l _ _ _ _ _ Hm Hi) as (c & Hc & Hf). cbn in Hf.
  apply list_elem_of_lookup_2 in Hc. destruct (dc_dump c) as [cmd|] eqn:Hd; [|done].
  destruct (dc_running c) eqn:Hrun; [|done]. destruct (nonempty cmd); [|done]. cbn in Hf. inv_result.
  exists c, cmd. auto.
Qed.

Lemma wp_data_snapshot mounts s :
  wp (if bool_decide (mounts = []) then mret ([], 0%Z)
      else '(rc, out, err) ← _run_restic E cfg (Snapshot ("instance:" +:+ id) mounts);
           if negb (rc =? 0)%Z then throw (BackupError (_classify err))
           else let '(snapshot, bytes) := _parse_summary (py_repr E) out in
                mret ([("data", snapshot)], default_bytes bytes))
     (λ r s', ∀ data, r = Ok data → ∃ new, log s' = new ++ log s ∧
        (mounts ≠ [] → ∃ out err, ("data", fst (_parse_summary (py_repr E) out)) ∈ data.1 ∧
           ERestic (greffer_backup_repo cfg) (Snapshot ("instance:" +:+ id) mounts) (Exit 0 out err) ∈ new)) s.
Proof.
  case_bool_decide as Hm; [apply wp_ret; intros ? _; by exists []|].
  apply wp_bind, wp_run_restic; [|done..]. intros rc out err. destruct (Z.eqb_spec rc 0); [subst|done]. cbn [negb].
  destruct (_parse_summary (py_repr E) out) as [sn b] eqn:Hp. apply wp_ret. intros data [= <-].
  eexists [_]. split; [done|]. intros _. exists out, err. rewrite Hp. cbn. set_solver.
Qed.

Lemma in_databases (classes : list (string * string)) vol :
  (vol, "database") ∈ classes ↔ (vol, "database") ∈ List.filter (λ kc, String.eqb (snd kc) "database") classes.
Proof. rewrite !list_elem_of_In, filter_In. cbn. split; [done|tauto]. Qed.

Lemma db_nonempty (classes : list (string * string)) vol : (vol, "database") ∈ classes →
  List.filter (λ kc, String.eqb (snd kc) "database") classes ≠ [].
Proof. intros H%in_databases Hn. rewrite Hn in H. by apply elem_of_nil in H. Qed.

Lemma one_database (classes : list (string * string)) vol vol' :
  (1 <? length (List.filter (λ kc, String.eqb (snd kc) "database") classes))%nat = false →
  (vol, "database") ∈ classes → (vol', "database") ∈ classes → vol = vol'.
Proof.
  intros H H1%in_databases H2%in_databases. apply Nat.ltb_ge in H.
  destruct (List.filter _ classes) as [|x [|y l]]; cbn in H; [by apply elem_of_nil in H1| |lia].
  apply list_elem_of_singleton in H1, H2. congruence.
Qed.

(** The hooks a backup runs: only with a database volume, each a running container's. *)
Lemma wp_hooks_wanted (unwanted : bool) s :
  wp (if unwanted then mret [] else _dump_hooks E)
     (λ r s1, s1 = s ∧ ∀ hooks, r = Ok hooks → ∃ cs, (cs = [] ∨ containers E (log s) = Some cs) ∧
        ∀ service container argv, (service, container, argv) ∈ hooks → ∃ c cmd, c ∈ cs ∧ dc_running c = true ∧
          dc_id c = container ∧ dc_dump c = Some cmd ∧ with_timeout cmd = Ok argv) s.
Proof.
  destruct unwanted; [apply wp_ret; split; [done|]; intros hooks [= <-]; exists []; set_solver|].
  apply wp_dump_hooks; [|done]. intros cs hooks Hcs Hh. split; [done|]. intros ? [= <-]. eauto.
Qed.

(** What the manifest of a backup must account for. *)
Record hot_complete (classes : list (string * string)) (vols : list string) (cs : list db_container)
    (new : history) (p : payload) : Prop := {
  hc_success : p_success p = true;
  hc_classified v : v ∈ vols → instance_volume v →
    volume_class classes v = Some "data" ∨ volume_class classes v = Some "regenerable" ∨
    volume_class classes v = Some "database";
  hc_data v : v ∈ vols → instance_volume v → volume_class classes v = Some "data" →
    ∃ mounts out err, mount_of v ∈ mounts ∧
      ERestic (greffer_backup_repo cfg) (Snapshot ("instance:" +:+ id) mounts) (Exit 0 out err) ∈ new ∧
      ("data", fst (_parse_summary (py_repr E) out)) ∈ p_manifest p;
  hc_database vol : (vol, "database") ∈ classes →
    ∃ service c cmd argv, c ∈ cs ∧ dc_running c = true ∧ dc_dump c = Some cmd ∧
      with_timeout cmd = Ok argv ∧ dumped new (p_manifest p) (service, dc_id c, argv);
  hc_one_database vol vol' :
    (vol, "database") ∈ classes → (vol', "database") ∈ classes → vol = vol' }.

End hot.

(** *** The theorems on a concrete host *)
Lemma backup_job_trace_witness :
  let s' := (_locked_job (backup_instance Demo.world Demo.config "i" true []) Demo.admitted).2 in
  EStop true ∈ log s' ∧ lock_held s' = false ∧ (log s' = [ERelease] ∨ backup_trace [] (log s')).
Proof.
  split; [vm_compute; repeat (first [by left | right])|].
  by apply backup_job_trace.
Defined.

