(* ===== verification/RestoreSafety.v ===== *)
(** The guarantees of the restore job of [Backup]: the destructive step is
    guarded, happens at most once and keeps its rollback point; how the instance
    is left; when the lock is released. Histories are newest first. *)
From Stdlib Require Import Ascii String.
From stdpp Require Import sorting.
From S2P Require Import Prelude PyValue Backup BackupSafety.
Import Text.
Local Open Scope string_scope.
Local Open Scope list_scope.

(** ** The destructive step of a restore *)
Definition not_overwrite (e : event) : Prop :=
  match e with ERestic _ (Overwrite _ _) _ => False | _ => True end.

(** What the history [h] must hold below an overwrite of [mounts]. *)
Record overwrite_guarded (E : env) (cfg : settings) (id : string)
    (manifest classes : list (string * string)) (sid : string)
    (mounts : list (string * string)) (h : history) : Prop := {
  og_safety : ∃ ms out err older written, sid = fst (_parse_summary (py_repr E) out) ∧
    h = EOverwriting sid written ::
        ERestic (greffer_backup_repo cfg) (Snapshot ("safety:" +:+ id) ms) (Exit 0 out err) :: older ∧
    (∃ vols, volumes E older = Some vols ∧ ∀ v, v ∈ vols → instance_volume id v → mount_of v ∈ ms);
  og_database : db_artifacts manifest ≠ [] →
    classes ≠ [] ∧ ∃ cs, containers E h = Some cs ∧
    ∀ c sv v m, c ∈ cs → dc_service c = Some sv → sv ∈ (db_artifacts manifest).*1 →
      v ∈ dc_volumes c → v ≠ "" → m ∈ mounts → m.1 ≠ v;
  og_stopped : last h = Some (EStatus SRunning) → EStop true ∈ h ∧ EStatus SStopped ∈ h;
  og_first : Forall not_overwrite h }.

Section restore.
Context (E : env) (cfg : settings) (id : string).

Lemma wp_backup_mounts (Q : result job_exc (list (string * string)) → state → Prop) s :
  (∀ vols ms, volumes E (log s) = Some vols →
     (∀ v, v ∈ vols → instance_volume id v → mount_of v ∈ ms) → Q (Ok ms) s) →
  (∀ e, Q (Raise e) s) →
  wp (_backup_mounts E id) Q s.
Proof.
  intros Hok Hr. unfold _backup_mounts, _data_volumes, l4_mount. apply wp_bind, wp_bind, wp_query; [|auto].
  intros vols Hv. apply wp_ret, wp_bind, wp_gets, wp_ret, (Hok vols); [done|].
  intros v Hin [H1 H2]. apply elem_of_app. left. apply list_elem_of_fmap. exists v. split; [done|].
  rewrite merge_sort_Permutation. apply list_elem_of_In, filter_In. rewrite <- list_elem_of_In, H1, H2. done.
Qed.

Lemma in_db_volumes cs services c sv v :
  c ∈ cs → dc_service c = Some sv → sv ∈ services → v ∈ dc_volumes c → v ≠ "" →
  v ∈ flat_map (λ c, match dc_service c with
    | Some sv => if mem sv services then List.filter nonempty (dc_volumes c) else []
    | None => [] end) cs.
Proof.
  intros Hc Hsv Hin Hv Hne. rewrite list_elem_of_In, in_flat_map. exists c.
  rewrite <- !list_elem_of_In, Hsv, (proj2 (mem_true _ _)) by done. split; [done|].
  rewrite list_elem_of_In, filter_In, <- list_elem_of_In. split; [done|].
  unfold nonempty. by destruct (String.eqb_spec v "").
Qed.

(** From the overwrite on: nothing overwrites again, the rollback point stays. *)
Definition later_step (s s' : state) : Prop :=
  extends not_overwrite s s' ∧ safety_id s' = safety_id s.

#[local] Instance later_step_preorder : PreOrder later_step.
Proof.
  split; [by intros s; split; [apply extends_refl|]|].
  intros s1 s2 s3 [H1 E1] [H2 E2]. split; [by eapply extends_trans|congruence].
Qed.

Lemma benign_not_overwrite e : benign e → not_overwrite e.
Proof. destruct e as [| | | | |? []| | | | | | | | |]; done. Qed.

Lemma quietly_later s s' : quietly benign s s' → later_step s s'.
Proof.
  intros [Hx (_ & _ & Hs & _)]. split; [|done]. eapply extends_mono; [|exact Hx]. apply benign_not_overwrite.
Qed.

Lemma later_calm {A} (m : M state job_exc A) : quiet benign m → rel later_step m.
Proof. apply rel_quiet, quietly_later. Qed.

Lemma later_silent f : (∀ s, log (f s) = log s ∧ safety_id (f s) = safety_id s) → rel later_step (modify f : M state job_exc unit).
Proof. intros H. apply rel_modify. intros s. destruct (H s) as [Hl Hs]. split; [|done]. by exists []. Qed.

Lemma later_call f ev : (∀ b, not_overwrite (ev b)) → rel later_step (call f ev).
Proof. intros H s. apply wp_call; intros _; (split; [|done]); eexists [_]; (split; [done|]); by apply Forall_singleton. Qed.

Lemma later_ask {A} (f : history → A) ev : (∀ a, not_overwrite (ev a)) → rel later_step (ask f ev).
Proof. intros H s. apply wp_ask. split; [|done]. eexists [_]. split; [done|]. by apply Forall_singleton. Qed.

Ltac later := repeat (first
  [ by apply later_silent | by apply later_call | by apply later_ask
  | apply later_calm; first [ apply quiet_healthy | apply quiet_forget ] | rel_step ]).

Lemma later_restore_databases artifacts : rel later_step (restore_databases E cfg id artifacts).
Proof.
  unfold restore_databases, restore_success, _restart. later.
  induction artifacts as [|[service snapshot] artifacts IH]; cbn [restore_dbs]; [by rel_step|].
  unfold restore_db, fail_with, _restore_hook_for_service, _restore_database. later. apply IH.
Qed.

(** A payload the code fills in names the rollback point. *)
Definition names_safety (s : state) : Prop := p_safety (pay s) = Some (safety_id s).

Lemma wp_fail_with code s : wp (fail_with code) (λ r s', r = Ok tt ∧ names_safety s') s.
Proof. by apply wp_modify. Qed.

Lemma wp_restore_dbs artifacts s :
  wp (restore_dbs E cfg artifacts) (λ r s', r = Ok false → names_safety s') s.
Proof.
  revert s. induction artifacts as [|[service snapshot] artifacts IH]; intros s; [done|].
  cbn [restore_dbs]. apply wp_bind.
  eapply (wp_mono _ (λ r s', r = Ok false → names_safety s')).
  2:{ intros [[]|e] s' H; [apply IH|apply wp_ret; auto|done]. }
  unfold restore_db. apply wp_bind, (wp_quiet benign); [apply quiet_healthy|]. intros [[]|e] s1 _; [|by apply wp_bind|done].
  cbn. apply wp_bind. unfold wp at 1.
  destruct ((_restore_hook_for_service E service s1).1) as [[[container argv]|]|e]; [|by apply wp_bind|done].
  apply wp_bind. unfold wp at 1. by destruct (_ _).1 as [[]|].
Qed.

Lemma wp_restore_success running s :
  wp (restore_success E cfg id running) (λ r s', r = Ok tt ∧ names_safety s') s.
Proof.
  unfold restore_success. apply wp_bind, wp_modify, wp_forget. intros s' [_ (Hp & _ & Hs & _)].
  split; [done|]. unfold names_safety. by rewrite Hp, Hs.
Qed.

Lemma wp_restore_databases artifacts s :
  wp (restore_databases E cfg id artifacts) (λ r s', r = Ok tt → names_safety s') s.
Proof.
  unfold restore_databases. case_bool_decide.
  { eapply wp_mono; [apply wp_restore_success|]. by intros r s' [_ ?]. }
  apply wp_bind, wp_modify, wp_bind, wp_call; intros _; [|done].
  apply wp_bind. eapply wp_mono; [apply wp_restore_dbs|]. intros [[]|e] s1 H1; [|by apply wp_ret; auto|done].
  cbn [when]. apply wp_bind, wp_call; intros _; [|done].
  eapply wp_mono; [apply wp_restore_success|]. by intros r s' [_ ?].
Qed.

(** [overwrite_data] overwrites at most once, behind the database guard. *)
Lemma wp_overwrite_data artifacts snap mounts s :
  wp (overwrite_data E cfg id artifacts snap mounts)
     (λ r s', (r = Ok tt → names_safety s') ∧ safety_id s' = safety_id s ∧
        (extends not_overwrite s s' ∨
         ∃ after a, log s' = after ++ ERestic (greffer_backup_repo cfg) (Overwrite snap mounts) a :: log s ∧
           Forall not_overwrite after ∧
           (artifacts ≠ [] → ∃ cs, containers E (log s) = Some cs ∧ ∀ c sv v m,
              c ∈ cs → dc_service c = Some sv → sv ∈ artifacts.*1 → v ∈ dc_volumes c → v ≠ "" →
              m ∈ mounts → m.1 ≠ v))) s.
Proof.
  unfold overwrite_data. apply wp_bind.
  eapply (wp_mono _ (λ r s1, s1 = s ∧ (r = Ok false → artifacts ≠ [] →
    ∃ cs, containers E (log s) = Some cs ∧ ∀ c sv v m,
      c ∈ cs → dc_service c = Some sv → sv ∈ artifacts.*1 → v ∈ dc_volumes c → v ≠ "" →
      m ∈ mounts → m.1 ≠ v))).
  { case_bool_decide; [by apply wp_ret|]. unfold _db_volumes_from_containers.
    apply wp_bind, wp_bind, wp_query; [|done]. intros cs Hcs. apply wp_ret, wp_ret. split; [done|].
    intros [= Hno] _. exists cs. split; [done|]. intros c sv v m Hc Hsv Hin Hv Hne Hm Heq. subst v.
    rewrite <- not_true_iff_false in Hno. apply Hno, existsb_exists. exists m.
    rewrite <- list_elem_of_In. split; [done|]. apply mem_true. by eapply in_db_volumes. }
  intros [[]|e] s1 [-> Hguard].
  - apply wp_modify. split_and!; try done. left. by exists [].
  - specialize (Hguard eq_refl). apply wp_bind. case_bool_decide.
    + apply wp_ret. cbn [when]. eapply wp_mono.
      { apply wp_conj; [apply wp_restore_databases|apply later_restore_databases]. }
      intros r s' (? & ? & ?). auto.
    + apply wp_bind, wp_run_restic.
      * intros rc out err. destruct (negb _).
        -- apply wp_bind, wp_modify, wp_ret, wp_ret. split_and!; try done. right. eexists [], _. by cbn.
        -- apply wp_ret. cbn [when]. eapply wp_mono.
           { apply wp_conj; [apply wp_restore_databases|apply later_restore_databases]. }
           intros r s' (? & (new & Hn & Fn) & ?). split_and!; try done. right. eexists new, _. by rewrite Hn.
      * split_and!; try done. right. eexists [], _. by cbn.
      * intros e. split_and!; try done. left. apply extends_refl.
  - split_and!; try done. left. apply extends_refl.
Qed.

(** The entry stop: when the instance ran, a poll saw it stopped. *)
Lemma wp_entry_stop run s :
  wp (if (run : bool) then compose_stop E;; _wait_stopped E (backup_stop_timeout_seconds cfg) false else mret true)
     (λ r s', later_step s s' ∧ (r = Ok true → run = true → EStop true ∈ log s' ∧ EStatus SStopped ∈ log s')) s.
Proof.
  destruct run; [|by apply wp_ret].
  apply wp_bind, wp_call; intros _; [|split; [|done]; split; [|done]; eexists [_]; by repeat constructor].
  eapply wp_mono; [apply wait_stopped_true|]. intros r s' [Hq Hr].
  assert (Hl : later_step s s').
  { etransitivity; [|by apply quietly_later]. split; [|done]. eexists [_]. by repeat constructor. }
  split; [done|]. intros ? _. split; [|auto]. destruct Hq as [(n & -> & _) _]. set_solver.
Qed.

(** The history of a restore: either nothing was overwritten, or once, guarded. *)
Definition guarded_restore (snapshot : string) (manifest classes : list (string * string))
    (sid : string) (h : history) : Prop :=
  Forall not_overwrite h ∨
  ∃ after mounts a before,
    h = after ++ ERestic (greffer_backup_repo cfg)
      (Overwrite (or_str (default "" (snd <$> first_match (λ kv, String.eqb (fst kv) "data") manifest)) snapshot) mounts) a
      :: before ∧
    overwrite_guarded E cfg id manifest classes sid mounts before ∧ Forall not_overwrite after.

Lemma later_forall s s' : later_step s s' → Forall not_overwrite (log s) → Forall not_overwrite (log s').
Proof. intros [(n & -> & Fn) _] F. by apply Forall_app. Qed.

(** The last part of the body, from the safety snapshot's answer on. *)
Lemma wp_restore_tail snapshot manifest classes ms out err older vols s :
  let data_snap := or_str
    (default "" (snd <$> first_match (λ kv, String.eqb (fst kv) "data") manifest)) snapshot in
  let artifacts := db_artifacts manifest in
  log s = ERestic (greffer_backup_repo cfg) (Snapshot ("safety:" +:+ id) ms) (Exit 0 out err) :: older →
  Forall not_overwrite older → (artifacts = [] ∨ classes ≠ []) →
  volumes E older = Some vols → (∀ v, v ∈ vols → instance_volume id v → mount_of v ∈ ms) →
  (last older = Some (EStatus SRunning) → EStop true ∈ older ∧ EStatus SStopped ∈ older) →
  wp (modify (set_safety (fst (_parse_summary (py_repr E) out)));;
      safety ← gets safety_id;
      _write_json E (EOverwriting safety);;
      modify set_overwrite;;
      data_mounts ← (if bool_decide (artifacts = []) then mret ms else _hot_backup_mounts E id classes);
      overwrite_data E cfg id artifacts data_snap data_mounts)
     (λ r s', guarded_restore snapshot manifest classes (safety_id s') (log s') ∧
              (r = Ok tt → names_safety s')) s.
Proof.
  cbn zeta. intros Hl Fo Hcl Hvols Hms Hstop. apply wp_bind, wp_modify, wp_bind, wp_gets, wp_bind.
  apply wp_bind, wp_ask, wp_ret, wp_bind, wp_modify. cbn [set_safety record log safety_id].
  set (written := disk_writable E _).
  set (s1 := set_overwrite _).
  assert (Hl1 : log s1 = EOverwriting (fst (_parse_summary (py_repr E) out)) written :: log s) by done.
  assert (Hs1 : safety_id s1 = fst (_parse_summary (py_repr E) out)) by done. clearbody s1.
  assert (F1 : Forall not_overwrite (log s1)) by (rewrite Hl1, Hl; by repeat constructor).
  apply wp_bind. eapply (wp_mono _ (λ _ s', s' = s1)).
  { case_bool_decide; [done|]. by apply wp_hot_backup_mounts. }
  intros [mounts|e] ? ->; [|split; [by left|done]].
  eapply wp_mono; [apply wp_overwrite_data|]. intros r s' (Hr & Hs' & Hlog). split; [|done].
  destruct Hlog as [(n & Hn & Fn)|(after & a & Hn & Fn & Hdb)].
  { left. rewrite Hn. by apply Forall_app. }
  right. exists after, mounts, a, (log s1). split; [done|]. split; [|done]. rewrite Hs', Hs1. split.
  - exists ms, out, err, older, written. rewrite Hl1, Hl. split_and!; eauto.
  - intros Ha. split; [by destruct Hcl|]. auto.
  - rewrite Hl1, Hl. intros Hlast. destruct Hstop; [by destruct older|]. split; by do 2 right.
  - done.
Qed.

Lemma wp_restore_body snapshot manifest classes st s :
  log s = [EStatus st] → (stopped s = true ↔ st = SRunning) →
  wp (restore_body E cfg id snapshot manifest classes)
     (λ r s', Forall not_overwrite (log s') ∨
        guarded_restore snapshot manifest classes (safety_id s') (log s') ∧ (r = Ok tt → names_safety s')) s.
Proof.
  intros Hl Hst. unfold restore_body.
  apply wp_bind, wp_gets, wp_bind. eapply wp_mono; [apply wp_entry_stop|]. intros r s1 [H1 Hq].
  assert (F1 : Forall not_overwrite (log s1)) by (eapply later_forall; [exact H1|]; rewrite Hl; by repeat constructor).
  destruct r as [[]|e]; cbn [negb]; [|by left..].
  apply wp_bind, (wp_quiet benign); [apply quiet_ensure_repo|]. intros r s2 H2.
  pose proof (later_forall _ _ (quietly_later _ _ H2) F1) as F2. destruct r as [[]|e]; [|by left].
  destruct (negb _ && _) eqn:Hcl; [by left|].
  apply wp_bind, wp_backup_mounts; [|by left]. intros vols ms Hvols Hms.
  apply wp_bind, wp_run_restic; [|left; by constructor|by left].
  intros rc out err. destruct (Z.eqb_spec rc 0) as [->|]; cbn [negb]; [|left; by constructor].
  eapply wp_mono; [eapply wp_restore_tail|]; [done|exact F2| |exact Hvols|exact Hms| |by right].
  - case_bool_decide; [by left|]. case_bool_decide; [done|by right].
  - destruct H1 as [(n1 & Hn1 & _) _], H2 as [(n2 & Hn2 & _) _]. rewrite Hn2, Hn1, Hl, app_assoc, last_snoc.
    intros [= ->]. destruct Hq as [Hq1 Hq2]; [done|tauto|]. rewrite <- app_assoc, <- Hl, <- Hn1.
    split; apply elem_of_app; by right.
Qed.

(** What the end of a restore does to the instance. *)
Inductive closing (s : state) : history → Prop :=
  | closing_restart ok : stopped s = true → overwrite_started s = false → p_success (pay s) = false →
      closing s [ERestart ok]
  | closing_abort ok polls : (stopped s = false ∨ overwrite_started s = true) →
      db_started s = true → p_success (pay s) = false →
      Forall benign polls → closing s (polls ++ [EStop ok])
  | closing_none : p_success (pay s) = true ∨
      (stopped s = false ∨ overwrite_started s = true) ∧ db_started s = false → closing s [].

Definition reserves (p : payload) : history :=
  if p_success p && negb (p_already_running p) then [EReserve] else [].

Definition restore_end (p : payload) (written ack : bool) (held : history) : history :=
  (if ack then [EStateRemoved] else []) ++ ECallback p ack :: held ++ reserves p ++ [ERestoreState p written].

Lemma wp_closing s :
  wp (if stopped s && negb (overwrite_started s) && negb (p_success (pay s))
      then attempt (_restart E);; mret tt
      else when (db_started s && negb (p_success (pay s)))
        (attempt (compose_stop E;; _wait_stopped E (backup_stop_timeout_seconds cfg) true);; mret tt))
     (λ r s', r = Ok tt ∧ pay s' = pay s ∧ lock_held s' = lock_held s ∧
              ∃ new, log s' = new ++ log s ∧ closing s new) s.
Proof.
  destruct (stopped s && negb (overwrite_started s) && negb (p_success (pay s))) eqn:Hc.
  - apply wp_attempt_restart. intros ok. split_and!; try done. exists [ERestart ok]. split; [done|].
    rewrite !andb_true_iff, !negb_true_iff in Hc. destruct Hc as [[??]?]. by apply closing_restart.
  - assert (Hno : p_success (pay s) = true ∨ stopped s = false ∨ overwrite_started s = true).
    { destruct (p_success (pay s)), (stopped s), (overwrite_started s); auto; done. }
    apply wp_when; intros Hd.
    + rewrite andb_true_iff, negb_true_iff in Hd. destruct Hd as [Hd Hp].
      destruct Hno as [?|Hno]; [congruence|].
      apply wp_bind, wp_attempt, wp_bind, wp_call; intros _.
      * apply (wp_quiet benign); [apply quiet_wait|]. intros r s' [(n & Hn & Fn) (Hp' & _ & _ & _ & _ & Hk')].
        apply wp_ret. split_and!; [done|done..|]. exists (n ++ [EStop true]). rewrite Hn, <- app_assoc.
        split; [done|]. by apply closing_abort.
      * apply wp_ret. split_and!; try done. exists ([] ++ [EStop false]). split; [done|].
        by apply closing_abort.
    + split_and!; try done. exists []. split; [done|]. apply closing_none.
      destruct Hno as [?|Hno]; [by left|]. destruct (p_success (pay s)); [by left|].
      right. split; [done|]. by destruct (db_started s).
Qed.

Lemma wp_restore_finally s :
  wp (restore_finally E cfg)
     (λ r s', r = Ok tt ∧ lock_held s' = false ∧ ∃ written ack new, closing s new ∧
        log s' = restore_end (pay s) written ack (released s) ++ new ++ log s) s.
Proof.
  unfold restore_finally. apply wp_bind, wp_get, wp_bind. eapply wp_mono; [apply wp_closing|].
  intros r s1 (-> & Hp1 & Hk1 & new & Hl1 & Hc). apply wp_bind, wp_gets, wp_bind, wp_bind, wp_ask, wp_ret.
  set (written := disk_writable E (log s1)). apply wp_bind, wp_gets, wp_bind.
  cbn [record pay]. rewrite Hp1.
  eapply (wp_mono _ (λ r s2, r = Ok tt ∧ pay s2 = pay s ∧ lock_held s2 = lock_held s ∧
    log s2 = reserves (pay s) ++ ERestoreState (pay s) written :: new ++ log s)).
  { unfold reserves. apply wp_when; intros ->; [apply wp_modify|]; cbn; by rewrite Hp1, Hl1. }
  intros r s2 (-> & Hp2 & Hk2 & Hl2). apply wp_bind.
  eapply (wp_mono _ (λ r s3, r = Ok tt ∧ pay s3 = pay s ∧ lock_held s3 = false ∧
    log s3 = released s ++ log s2)).
  { apply wp_release; intros Hk; unfold released; rewrite <- Hk2, Hk; split_and!; done. }
  intros r s3 (-> & Hp3 & Hk3 & Hl3). apply wp_bind. unfold wp at 1, post_callback. cbn.
  unfold restore_end. destruct (callback_answer E (log s3)) eqn:Hack; cbn [when].
  - apply wp_modify. split_and!; [done|done|]. exists written, true, new. split; [done|].
    cbn. rewrite Hp3, Hl3, Hl2, <- !app_assoc. done.
  - apply wp_ret. split_and!; [done|done|]. exists written, false, new. split; [done|].
    cbn. rewrite Hp3, Hl3, Hl2, <- !app_assoc. done.
Qed.
End restore.

(** ** How a restore leaves the instance *)
Section ending.
Context (E : env) (cfg : settings) (id : string).

(** The last command that started or stopped containers. *)
Definition is_control (e : event) : bool :=
  match e with EStop _ | ERestart _ | EStartServices _ _ => true | _ => false end.
Definition control (h : history) : option event := first_match is_control h.

Definition is_overwriting (e : event) : bool := match e with EOverwriting _ _ => true | _ => false end.
Definition is_db_start (e : event) : bool := match e with EStartServices _ _ => true | _ => false end.

(** The events of a job's body: neither the lock nor the manager. *)
Definition body_event (e : event) : Prop :=
  match e with ERestoreState _ _ | EStateRemoved | EReserve | ERelease | ECallback _ _ => False | _ => True end.

Definition body_step (s s' : state) : Prop :=
  extends body_event s s' ∧ lock_held s' = lock_held s ∧ stopped s' = stopped s.

#[local] Instance body_step_preorder : PreOrder body_step.
Proof.
  split; [by intros s; split_and!; [apply extends_refl| |]|].
  intros s1 s2 s3 (H1 & K1 & S1) (H2 & K2 & S2). split_and!; [by eapply extends_trans|congruence..].
Qed.

Lemma body_calm {A} (m : M state job_exc A) : quiet benign m → rel body_step m.
Proof.
  apply rel_quiet. intros s s' [Hx (_ & Hs & _ & _ & _ & Hk)]. split_and!; [|done..].
  eapply extends_mono; [|exact Hx]. by intros [].
Qed.

Lemma body_silent f : (∀ s, log (f s) = log s ∧ lock_held (f s) = lock_held s ∧ stopped (f s) = stopped s) →
  rel body_step (modify f : M state job_exc unit).
Proof. intros H. apply rel_modify. intros s. destruct (H s) as (Hl & Hk & Hs). split_and!; [by exists []|done..]. Qed.

Lemma body_logged f : (∀ s, ∃ e, log (f s) = e :: log s ∧ body_event e ∧
    lock_held (f s) = lock_held s ∧ stopped (f s) = stopped s) → rel body_step (modify f : M state job_exc unit).
Proof.
  intros H. apply rel_modify. intros s. destruct (H s) as (e & Hl & He & Hk & Hs). split_and!; [|done..].
  exists [e]. split; [done|by apply Forall_singleton].
Qed.

Lemma body_call f ev : (∀ b, body_event (ev b)) → rel body_step (call f ev).
Proof. intros H s. apply wp_call; intros _; (split_and!; [|done..]); eexists [_]; (split; [done|]); by apply Forall_singleton. Qed.

Lemma body_ask {A} (f : history → A) ev : (∀ a, body_event (ev a)) → rel body_step (ask f ev).
Proof. intros H s. apply wp_ask. split_and!; [|done..]. eexists [_]. split; [done|]. by apply Forall_singleton. Qed.

Ltac body := repeat (first
  [ by apply body_silent | by apply body_logged; intros ?; eexists | by apply body_call | by apply body_ask
  | apply body_calm; first [ apply quiet_healthy | apply quiet_forget | apply quiet_wait
      | apply quiet_ensure_repo | apply quiet_backup_mounts | apply quiet_hot_mounts ]
  | rel_step ]).

Lemma body_restore_try snapshot manifest classes :
  rel body_step (catch (restore_body E cfg id snapshot manifest classes) (handle true)).
Proof.
  apply rel_catch; [typeclasses eauto| |by intros e; apply body_silent].
  unfold restore_body, overwrite_data, _db_volumes_from_containers, fail_with, restore_databases,
    restore_success, compose_stop, _restart, _run_restic. body.
  all: induction (db_artifacts manifest) as [|[service sn] artifacts IH]; cbn [restore_dbs]; [by rel_step|].
  all: unfold restore_db, fail_with, _restore_hook_for_service, _restore_database; body; apply IH.
Qed.

(** A part that cannot make the payload a success nor move the flags. *)
Definition failing_step (s s' : state) : Prop :=
  extends (λ e, is_overwriting e = false ∧ is_db_start e = false ∧ is_control e = false) s s' ∧
  db_started s' = db_started s ∧ overwrite_started s' = overwrite_started s ∧ stopped s' = stopped s ∧
  (p_success (pay s) = false → p_success (pay s') = false).

#[local] Instance failing_step_preorder : PreOrder failing_step.
Proof.
  split; [by intros s; split_and!; [apply extends_refl|..]|].
  intros s1 s2 s3 (H1 & D1 & O1 & S1 & P1) (H2 & D2 & O2 & S2 & P2).
  split_and!; [by eapply extends_trans|congruence..|auto].
Qed.

Lemma quietly_failing s s' : quietly benign s s' → failing_step s s'.
Proof.
  intros [Hx (Hp & Hs & _ & Ho & Hd & _)]. split_and!; [|done..|by rewrite Hp].
  eapply extends_mono; [|exact Hx]. by intros [].
Qed.

Lemma failing_calm {A} (m : M state job_exc A) : quiet benign m → rel failing_step m.
Proof. apply rel_quiet, quietly_failing. Qed.

Lemma failing_fail_with code : rel failing_step (fail_with code).
Proof. apply rel_modify. intros s. split_and!; [by exists []|done..]. Qed.

Lemma failing_restore_dbs artifacts : rel failing_step (restore_dbs E cfg artifacts).
Proof.
  induction artifacts as [|[service sn] artifacts IH]; cbn [restore_dbs]; [by rel_step|].
  unfold restore_db, _restore_hook_for_service, _restore_database.
  repeat (first [apply failing_fail_with | apply failing_calm, quiet_healthy | apply IH
    | apply rel_modify | rel_step ]).
  intros ?. apply wp_ask. split_and!; [|done..]. eexists [_]. split; [done|]. by apply Forall_singleton.
Qed.

Lemma control_skip new h : Forall (λ e, is_control e = false) new → control (new ++ h) = control h.
Proof. unfold control. induction 1 as [|e new He _ IH]; [done|]. cbn. by rewrite He. Qed.

Lemma existsb_skip (f : event → bool) new h :
  Forall (λ e, f e = false) new → existsb f (new ++ h) = existsb f h.
Proof. induction 1 as [|e new He _ IH]; [done|]. cbn. by rewrite He. Qed.

Lemma failing_log s s' : failing_step s s' →
  control (log s') = control (log s) ∧ existsb is_overwriting (log s') = existsb is_overwriting (log s) ∧
  existsb is_db_start (log s') = existsb is_db_start (log s).
Proof.
  intros [(n & -> & Fn) _]. rewrite control_skip, !existsb_skip; [done|..].
  all: eapply Forall_impl; [exact Fn|]; by intros e (? & ? & ?).
Qed.

(** How the [try] block of a restore ends; [run]: the instance was running. *)
Inductive ended (run : bool) (s : state) : Prop :=
  | ended_before : overwrite_started s = false → db_started s = false → p_success (pay s) = false →
      existsb is_overwriting (log s) = false → existsb is_db_start (log s) = false →
      (run = false → control (log s) = None) → ended run s
  | ended_data : overwrite_started s = true → db_started s = false → 
      existsb is_overwriting (log s) = true → existsb is_db_start (log s) = false →
      (p_success (pay s) = true → p_already_running (pay s) = false) →
      control (log s) = (if run then Some (EStop true) else None) → ended run s
  | ended_db : overwrite_started s = true → db_started s = true →
      existsb is_overwriting (log s) = true → existsb is_db_start (log s) = true →
      (p_success (pay s) = true → p_already_running (pay s) = true ∧ control (log s) = Some (ERestart true)) →
      ended run s.

(** The state between the overwrite flag and the databases. *)
Definition overwriting (run : bool) (s : state) : Prop :=
  overwrite_started s = true ∧ db_started s = false ∧ p_success (pay s) = false ∧
  existsb is_overwriting (log s) = true ∧ existsb is_db_start (log s) = false ∧
  control (log s) = (if run then Some (EStop true) else None).

Lemma overwriting_ended run s : overwriting run s → ended run s.
Proof. intros (? & ? & Hp & ? & ? & ?). apply ended_data; try done. by rewrite Hp. Qed.

Lemma failing_overwriting run s s' : failing_step s s' → overwriting run s → overwriting run s'.
Proof.
  intros Hf (H1 & H2 & H3 & H4 & H5 & H6). destruct (failing_log _ _ Hf) as (L1 & L2 & L3).
  destruct Hf as (_ & Hd & Ho & _ & Hp). unfold overwriting. rewrite Hd, Ho, L1, L2, L3. split_and!; auto.
Qed.

Lemma wp_success_ended (run already : bool) s :
  overwrite_started s = true → existsb is_overwriting (log s) = true →
  db_started s = already → existsb is_db_start (log s) = already →
  control (log s) = (if already then Some (ERestart true) else if run then Some (EStop true) else None) →
  wp (restore_success E cfg id already) (λ _ s', ended run s') s.
Proof.
  intros Ho Hl Hd Hs Hc. unfold restore_success. apply wp_bind, wp_modify, wp_forget.
  intros s' Hq. destruct (failing_log _ _ (quietly_failing _ _ Hq)) as (L1 & L2 & L3).
  destruct Hq as [_ (Hp & _ & _ & Ho' & Hd' & _)]. cbn in *. destruct already.
  - apply ended_db; rewrite ?L1, ?L2, ?L3, ?Hp; congruence || auto.
  - apply ended_data; rewrite ?L1, ?L2, ?L3, ?Hp; congruence || auto.
Qed.

Lemma wp_databases_ended run artifacts s :
  overwriting run s → wp (restore_databases E cfg id artifacts) (λ _ s', ended run s') s.
Proof.
  intros (Ho & Hd & Hp & Hl & Hs & Hc). unfold restore_databases. case_bool_decide; [by apply wp_success_ended|].
  apply wp_bind, wp_modify, wp_bind, wp_call; intros _.
  2:{ apply ended_db; cbn; try done. by rewrite Hp. }
  apply wp_bind. eapply wp_mono; [apply failing_restore_dbs|]. intros r s1 Hf.
  destruct (failing_log _ _ Hf) as (L1 & L2 & L3). destruct Hf as (_ & Hd' & Ho' & _ & Hp'). cbn in *.
  specialize (Hp' Hp). rewrite Hl in L2.
  assert (Hend : ended run s1) by (apply ended_db; try congruence; by rewrite Hp').
  destruct r as [[]|e]; [|done..]. cbn [when]. apply wp_bind, wp_call; intros _.
  - apply wp_success_ended; cbn; congruence.
  - apply ended_db; cbn; try congruence. 
Qed.

Lemma wp_overwrite_ended run artifacts snap mounts s :
  overwriting run s → wp (overwrite_data E cfg id artifacts snap mounts) (λ _ s', ended run s') s.
Proof.
  intros Hov. unfold overwrite_data. apply wp_bind.
  eapply (wp_mono _ (λ _ s1, s1 = s)).
  { case_bool_decide; [done|]. unfold _db_volumes_from_containers.
    apply wp_bind, wp_bind, wp_query; [intros cs _; by apply wp_ret, wp_ret|done]. }
  intros [[]|e] s1 ->; [|apply wp_bind|by apply overwriting_ended].
  { eapply wp_mono; [apply failing_fail_with|]. intros r s' Hf. apply overwriting_ended. eapply failing_overwriting; [exact Hf|done]. }
  case_bool_decide; [by apply wp_ret, wp_databases_ended|].
  apply wp_bind, wp_run_restic.
  - intros rc out err. destruct (negb _); [|apply wp_ret, wp_databases_ended; exact Hov].
    apply wp_bind, wp_modify, wp_ret, wp_ret, overwriting_ended.
    destruct Hov as (?&?&?&?&?&?). by split_and!.
  - apply overwriting_ended. exact Hov.
  - intros _. by apply overwriting_ended.
Qed.

(** The part before the overwrite flag. *)
Definition waiting (run : bool) (s : state) : Prop :=
  overwrite_started s = false ∧ db_started s = false ∧ p_success (pay s) = false ∧
  existsb is_overwriting (log s) = false ∧ existsb is_db_start (log s) = false ∧
  (run = false → control (log s) = None).

Lemma waiting_ended run s : waiting run s → ended run s.
Proof. intros (? & ? & ? & ? & ? & ?). by apply ended_before. Qed.

Lemma failing_waiting run s s' : failing_step s s' → waiting run s → waiting run s'.
Proof.
  intros Hf (H1 & H2 & H3 & H4 & H5 & H6). destruct (failing_log _ _ Hf) as (L1 & L2 & L3).
  destruct Hf as (_ & Hd & Ho & _ & Hp). unfold waiting. rewrite Hd, Ho, L1, L2, L3. split_and!; auto.
Qed.

Lemma wp_entry_control run s : waiting run s → stopped s = run →
  control (log s) = None →
  wp (if run then compose_stop E;; _wait_stopped E (backup_stop_timeout_seconds cfg) false else mret true)
     (λ r s', waiting run s' ∧
        (r = Ok true → control (log s') = (if run then Some (EStop true) else None))) s.
Proof.
  intros Hw Hs Hc. destruct run; [|by apply wp_ret].
  assert (Hw' : ∀ ok, waiting true (record (EStop ok) s)).
  { intros ok. destruct Hw as (?&?&?&?&?&?). by split_and!. }
  apply wp_bind, wp_call; intros _; [|split; [apply Hw'|done]].
  apply (wp_quiet benign); [apply quiet_wait|]. intros r s' Hq. apply quietly_failing in Hq.
  split; [by eapply failing_waiting; [exact Hq|]|]. intros _. by destruct (failing_log _ _ Hq) as [-> _].
Qed.

Lemma wp_body_ended snapshot manifest classes run s :
  waiting run s → stopped s = run → control (log s) = None →
  wp (restore_body E cfg id snapshot manifest classes) (λ _ s', ended run s') s.
Proof.
  intros Hw Hs Hc. unfold restore_body. apply wp_bind, wp_gets, wp_bind. rewrite Hs.
  eapply wp_mono; [by apply wp_entry_control|]. intros r s1 [Hw1 Hc1].
  pose proof (waiting_ended _ _ Hw1) as He1. destruct r as [[]|e]; cbn [negb]; [|by apply wp_modify, waiting_ended; exact Hw1|exact He1].
  specialize (Hc1 eq_refl).
  apply wp_bind, (wp_quiet benign); [apply quiet_ensure_repo|]. intros r s2 Hq%quietly_failing.
  pose proof (failing_waiting _ _ _ Hq Hw1) as Hw2. destruct (failing_log _ _ Hq) as [Hc2 _].
  rewrite Hc1 in Hc2. pose proof (waiting_ended _ _ Hw2) as He2.
  destruct r as [[]|e]; [|exact He2]. destruct (negb _ && _); [by apply wp_modify, waiting_ended; exact Hw2|].
  apply wp_bind, wp_backup_mounts; [|intros; exact He2]. intros vols ms _ _.
  apply wp_bind, wp_run_restic; [|apply waiting_ended; exact Hw2|intros; exact He2].
  intros rc out err. destruct (negb _); [by apply wp_modify, waiting_ended; exact Hw2|].
  apply wp_bind, wp_modify, wp_bind, wp_gets, wp_bind.
  apply wp_bind, wp_ask, wp_ret, wp_bind, wp_modify. apply wp_bind.
  match goal with |- wp _ _ ?s3 => assert (Hov : overwriting run s3) end.
  { destruct Hw2 as (?&?&?&?&?&?). by split_and!. }
  eapply (wp_mono _ (λ _ s', s' = _)).
  { case_bool_decide; [reflexivity|]. by apply wp_hot_backup_mounts. }
  intros [mounts|e] ? ->; [by apply wp_overwrite_ended|by apply overwriting_ended].
Qed.

Lemma handle_ended run b e s : ended run s → wp (handle b e) (λ _ s', ended run s') s.
Proof.
  intros H. apply wp_modify.
  destruct H; [apply ended_before|apply ended_data|apply ended_db]; cbn; destruct b, e; auto.
Qed.

(** *** The whole job *)
Definition is_running (st : run_status) : bool := match st with SRunning => true | _ => false end.

Record restore_run (snapshot : string) (manifest classes : list (string * string)) (held : bool)
    (st : run_status) (h : history) (s1 : state) (written ack : bool) (close : history) : Prop := {
  rr_closing : closing s1 close;
  rr_log : h = restore_end (pay s1) written ack (released s1) ++ close ++ log s1;
  rr_held : lock_held s1 = held;
  rr_first : last (log s1) = Some (EStatus st);
  rr_stopped : stopped s1 = is_running st;
  rr_body : Forall body_event (log s1);
  rr_ended : ended (is_running st) s1;
  rr_guarded : Forall not_overwrite (log s1) ∨
    guarded_restore E cfg id snapshot manifest classes (safety_id s1) (log s1) ∧ names_safety s1 }.

Lemma wp_restore_instance snapshot manifest classes s :
  log s = [] → overwrite_started s = false → db_started s = false →
  wp (restore_instance E cfg id snapshot manifest classes)
     (λ r s', r = Raise OtherError ∧ lock_held s' = lock_held s ∧ log s' = [] ∨
        r = Ok tt ∧ lock_held s' = false ∧
        ∃ st s1 written ack close, restore_run snapshot manifest classes (lock_held s) st (log s') s1 written ack close) s.
Proof.
  intros Hl Ho Hd. unfold restore_instance. apply wp_bind, wp_modify, wp_bind, wp_status; [|by left].
  intros st. apply wp_bind, wp_modify. fold (is_running st).
  set (s0 := set_stopped _ _).
  assert (H0 : log s0 = [EStatus st]) by (cbn; by rewrite Hl).
  assert (Hw : waiting (is_running st) s0) by (unfold waiting; rewrite H0; by split_and!).
  assert (Hk0 : lock_held s0 = lock_held s) by done. assert (Hs0 : stopped s0 = is_running st) by done.
  clearbody s0. apply wp_bind.
  eapply (wp_mono _ (λ r s1, (r = Ok tt ∧ body_step s0 s1) ∧ ended (is_running st) s1 ∧
    (Forall not_overwrite (log s1) ∨
     guarded_restore E cfg id snapshot manifest classes (safety_id s1) (log s1) ∧ names_safety s1))).
  { apply wp_conj; [apply wp_conj; [apply catch_handle_ok|apply body_restore_try]|]. apply wp_catch.
    eapply wp_mono.
    { apply wp_conj; [by apply (wp_body_ended snapshot manifest classes _ _ Hw); rewrite ?H0|].
      apply (wp_restore_body E cfg id snapshot manifest classes st); [done|]. rewrite Hs0. by destruct st. }
    intros [[]|e] s1 [He Hg]; [split; [done|naive_solver]|].
    apply wp_conj; [by apply handle_ended|]. apply wp_modify. cbn. destruct Hg as [?|[? _]]; [by left|by right]. }
  intros r s1 ([-> Hb] & He & Hg). eapply wp_mono; [apply wp_restore_finally|].
  intros r s2 (-> & Hk2 & written & ack & new & Hc & Hl2). right. split_and!; [done..|].
  destruct Hb as ((n & Hn & Fn) & Hk1 & Hs1). exists st, s1, written, ack, new. split; try done.
  - congruence.
  - by rewrite Hn, H0, last_snoc.
  - congruence.
  - rewrite Hn, H0. apply Forall_app. split; [done|]. by apply Forall_singleton.
Qed.

(** What a restore job must have done to the instance by the time it reports
    [p]; [run]: whether the instance was running when the job began. *)
Definition left_as (h : history) (run : bool) (p : payload) : Prop :=
  if p_success p
  then control h = (if p_already_running p then Some (ERestart true)
                    else if run then Some (EStop true) else None)
  else if existsb is_db_start h then ∃ ok, control h = Some (EStop ok)
  else if existsb is_overwriting h then control h = (if run then Some (EStop true) else None)
  else if run then ∃ ok, control h = Some (ERestart ok) else control h = None.

Lemma closing_control run s new : closing s new → ended run s → stopped s = run →
  left_as (new ++ log s) run (pay s).
Proof.
  intros Hc He Hs. unfold left_as. destruct Hc as [ok ? ? Hp|ok polls ? ? Hp F|Hn].
  - rewrite Hp. destruct He as [? ? ? Hov Hdb ?|? ? Hov Hdb ? ?|? ? Hov Hdb ?]; try congruence.
    cbn. rewrite Hdb, Hov. subst run. replace (stopped s) with true by congruence. by exists ok.
  - rewrite Hp. destruct He as [? ? ? Hov Hdb ?|? ? Hov Hdb ? ?|? ? Hov Hdb ?]; try congruence.
    rewrite <- app_assoc, control_skip, (existsb_skip is_db_start polls); [cbn; rewrite Hdb; by exists ok|..].
    all: eapply Forall_impl; [exact F|]; by intros [].
  - cbn. destruct He as [? ? Hp Hov Hdb Hc|? ? Hov Hdb Hp Hc|? Hdb' Hov Hdb Hp]; rewrite ?Hdb, ?Hov.
    + rewrite Hp. destruct Hn as [?|[[?|?] _]]; [congruence| |congruence].
      subst run. replace (stopped s) with false in * by congruence. auto.
    + destruct (p_success (pay s)); [|done]. by rewrite Hp.
    + destruct (p_success (pay s)); [by destruct Hp as [-> ?]|]. destruct Hn as [?|[_ ?]]; congruence.
Qed.

Lemma closing_events s new : closing s new → Forall body_event new ∧ Forall not_overwrite new.
Proof.
  destruct 1 as [ok|ok polls ? ? ? F|]; [by repeat constructor| |by repeat constructor].
  rewrite !Forall_app, !Forall_singleton. split_and!; try done; (eapply Forall_impl; [exact F|]).
  - by intros [].
  - apply benign_not_overwrite.
Qed.

Lemma restore_end_callback p q written ack ack' s h :
  Forall body_event h → ECallback q ack ∈ restore_end p written ack' (released s) ++ h → q = p.
Proof.
  intros F [H|H]%elem_of_app; [|rewrite Forall_forall in F; by apply F in H].
  unfold restore_end, released, reserves in H.
  destruct ack', (lock_held s), (_ && _); cbn in H;
    repeat (apply elem_of_cons in H as [H|H]; [congruence|]); by apply elem_of_nil in H.
Qed.

(** The history of a restore job, with the lock or without. *)
Lemma restore_job_run snapshot manifest classes s :
  log s = [] → overwrite_started s = false → db_started s = false →
  let s' := (_locked_job (restore_instance E cfg id snapshot manifest classes) s).2 in
  lock_held s' = false ∧
  (log s' = (if lock_held s then [ERelease] else []) ∨
   ∃ st s1 written ack close, restore_run snapshot manifest classes (lock_held s) st (log s') s1 written ack close).
Proof.
  intros Hl Ho Hd. cbn zeta.
  enough (wp (_locked_job (restore_instance E cfg id snapshot manifest classes)) (λ _ s', lock_held s' = false ∧
    (log s' = (if lock_held s then [ERelease] else []) ∨ ∃ st s1 written ack close,
      restore_run snapshot manifest classes (lock_held s) st (log s') s1 written ack close)) s) as H by exact H.
  apply wp_locked_job. eapply wp_mono; [by apply wp_restore_instance|].
  intros r s' [(-> & Hk & Hl')|(-> & Hk & Hr)].
  - rewrite Hk. split; intros Hh; rewrite Hh; cbn; rewrite Hl'; auto.
  - rewrite Hk. split; [done|]. auto.
Qed.


(** A restore job that was admitted holding the lock releases it exactly
    once. Unless docker refused the very first status request, everything it
    does to the instance comes first, then it persists its outcome, reserves the
    handoff exactly when the manager is going to chain a start (success, not
    already running), releases the lock and only then reports, once; the durable
    outcome is dropped only when the manager acknowledged it. *)
Theorem restore_job_trace snapshot manifest classes s :
  log s = [] → overwrite_started s = false → db_started s = false → lock_held s = true →
  let s' := (_locked_job (restore_instance E cfg id snapshot manifest classes) s).2 in
  lock_held s' = false ∧
  (log s' = [ERelease] ∨
   ∃ p written ack body, log s' = restore_end p written ack [ERelease] ++ body ∧ Forall body_event body).
Proof.
  intros Hl Ho Hd Hk. destruct (restore_job_run snapshot manifest classes s Hl Ho Hd) as [Hk' [Hr|Hr]];
    rewrite Hk in *; (split; [done|]); [by left|right].
  destruct Hr as (st & s1 & written & ack & close & [Hc Hh Hheld _ _ Hb _ _]).
  unfold released in Hh. rewrite Hheld in Hh. exists (pay s1), written, ack, (close ++ log s1).
  split; [done|]. apply Forall_app. by split; [apply (closing_events s1)|].
Qed.

(** A restore never leaves the instance in between. By the time it reports:
    after a success the last command on the instance is the [up] of the whole
    instance (databases restored, reported already running) or its entry stop
    (the manager starts it); after a failure it is a stop once a database was
    started, the entry stop once the data were touched, and otherwise an
    instance that was running has been brought [up] again. *)
Theorem restore_leaves_instance snapshot manifest classes s st p ack :
  log s = [] → overwrite_started s = false → db_started s = false →
  let h := log (_locked_job (restore_instance E cfg id snapshot manifest classes) s).2 in
  last h = Some (EStatus st) → ECallback p ack ∈ h → left_as h (is_running st) p.
Proof.
  intros Hl Ho Hd. cbn zeta. destruct (restore_job_run snapshot manifest classes s Hl Ho Hd) as [_ [->|Hr]].
  { destruct (lock_held s); [by intros [=]|done]. }
  destruct Hr as (st' & s1 & written & ack' & close & [Hc Hh _ Hfirst Hs1 Hb He _]). rewrite Hh. intros Hst Hin.
  apply restore_end_callback in Hin as ->; [|by apply Forall_app; split; [apply (closing_events s1)|]].
  assert (st' = st) as ->.
  { rewrite app_assoc, last_app, Hfirst in Hst. congruence. }
  pose proof (closing_control _ _ _ Hc He Hs1) as Hleft. revert Hleft. unfold left_as.
  set (e := restore_end _ _ _ _).
  assert (Fe : Forall (λ e, is_control e = false ∧ is_db_start e = false ∧ is_overwriting e = false) e).
  { unfold e, restore_end, released, reserves. destruct ack', (lock_held s1), (_ && _); by repeat constructor. }
  rewrite (control_skip e), (existsb_skip is_db_start e), (existsb_skip is_overwriting e); [done|..].
  all: eapply Forall_impl; [exact Fe|]; by intros ? (? & ? & ?).
Qed.
End ending.

(** *** The theorems on a concrete host *)
Definition demo_history : history :=
  log (_locked_job (restore_instance Demo.world Demo.config "i" "s0" Demo.manifest Demo.classes) Demo.admitted).2.


Lemma restore_job_trace_witness :
  lock_held (_locked_job (restore_instance Demo.world Demo.config "i" "s0" [] []) Demo.admitted).2 = false ∧
  ∃ p written ack body, log (_locked_job (restore_instance Demo.world Demo.config "i" "s0" [] []) Demo.admitted).2
    = restore_end p written ack [ERelease] ++ body ∧ Forall body_event body.
Proof.
  destruct (restore_job_trace Demo.world Demo.config "i" "s0" [] [] Demo.admitted) as [Hk [H|H]];
    [reflexivity..|by vm_compute in H|done].
Defined.

Definition demo_report : payload := Payload true "" None None [] (Some "snap-safety:i") true None.

Lemma restore_leaves_instance_witness :
  let h := log (_locked_job (restore_instance Demo.world Demo.config "i" "s0" Demo.manifest Demo.classes)
                  Demo.admitted).2 in
  ECallback demo_report true ∈ h ∧ left_as h true demo_report.
Proof.
  intros h. assert (Hin : ECallback demo_report true ∈ h) by (vm_compute; right; left).
  split; [exact Hin|]. revert Hin.
  apply (restore_leaves_instance Demo.world Demo.config "i" "s0" Demo.manifest Demo.classes Demo.admitted
    SRunning demo_report true); [reflexivity..|]. vm_compute. reflexivity.
Defined.

(** A database volume the manager classified [data] is refused before anything
    is overwritten, but after the overwrite flag: the instance that was running
    stays stopped. *)
Example misclassified_leaves_stopped :
  let h := log (_locked_job (restore_instance Demo.world Demo.config "i" "s0" Demo.manifest
    [("db", "data"); ("files", "data")]) Demo.admitted).2 in
  Forall not_overwrite h ∧ control h = Some (EStop true) ∧ last h = Some (EStatus SRunning).
Proof. vm_compute. split; [by repeat constructor|done]. Qed.

(** The rollback pointer that cannot be written does not hold the overwrite back. *)
Definition full_disk : env :=
  {| status_answer := status_answer Demo.world; stop_answer := stop_answer Demo.world;
     restart_answer := restart_answer Demo.world; start_services_answer := start_services_answer Demo.world;
     restic := restic Demo.world; dump_answer := dump_answer Demo.world;
     restore_answer := restore_answer Demo.world; volumes := volumes Demo.world; l4_file := l4_file Demo.world;
     containers := containers Demo.world; callback_answer := λ _, false; disk_writable := λ _, false;
     monotonic := monotonic Demo.world; py_repr := py_repr Demo.world |}.

Example pointer_not_written :
  let h := log (_locked_job (restore_instance full_disk Demo.config "i" "s0" [] []) Demo.admitted).2 in
  EOverwriting "snap-safety:i" false ∈ h ∧ ¬ Forall not_overwrite h ∧
  Forall (λ e, match e with ERestoreState _ written => written = false | _ => True end) h.
Proof.
  vm_compute. split_and!; [repeat (first [by left | right])| |by repeat constructor].
  rewrite !Forall_cons. cbn. tauto.
Qed.
