(* ===== verification/Locks.v ===== *)
(** The locks of [app/backup.py]: the per-instance lock with its one-shot
    releases and the handoff reservation, shared by the backup and restore jobs,
    the control handlers ([_serialize_instance_op] of [app/routers/controller.py])
    and certificate renewal; and the registry of per-repository locks.

    One action is one atomic step of one thread (what the code does under a
    guard, or one operation of a [threading.Lock]); a schedule is a list of
    actions, in any order. [threading.Lock] has no owner: a release by anybody
    opens it. *)
From S2P Require Import Prelude.
Local Open Scope Z_scope.

(** ** One instance *)
Module Instance.

(** What a thread that went through the lock of the instance is doing. *)
Inductive phase : Type :=
  | JobHolds      (** a backup or restore whose [_release_once] is still armed *)
  | JobReleased   (** the same, after its early release *)
  | ControlHolds  (** a start/stop, lock taken, reservation not consumed yet *)
  | ControlCleared
  | RenewalHolds.

Record state : Type := {
  locked : bool;
  handoff : option Z;       (** [_handoff[id]], a deadline *)
  clock : Z;                (** [time.monotonic()] *)
  threads : gmap nat phase;
}.

Definition _HANDOFF_WINDOW_SECONDS : Z := 90.

Definition initial : state := {| locked := false; handoff := None; clock := 0; threads := ∅ |}.

Definition set_lock (b : bool) (s : state) : state :=
  {| locked := b; handoff := handoff s; clock := clock s; threads := threads s |}.
Definition set_handoff (h : option Z) (s : state) : state :=
  {| locked := locked s; handoff := h; clock := clock s; threads := threads s |}.
Definition set_thread (n : nat) (p : option phase) (s : state) : state :=
  {| locked := locked s; handoff := handoff s; clock := clock s;
     threads := match p with Some p => <[n := p]> (threads s) | None => delete n (threads s) end |}.

Inductive action : Type :=
  | Tick (d : Z)
  | SpawnJob (n : nat)          (** [spawn_backup], [spawn_restore] *)
  | Reserve (n : nat)           (** [reserve_handoff], from [restore_instance] *)
  | Release (n : nat)           (** the job's [release_lock()] *)
  | FinishJob (n : nat)         (** [_locked_job]'s [finally] *)
  | EnterControl (n : nat) | ClearHandoff (n : nat) | ExitControl (n : nat)
  | EnterRenewal (n : nat) | ExitRenewal (n : nat).

Inductive reply : Type := Done | Granted | Busy | Handoff.

Definition reserve_handoff (s : state) : state :=
  set_handoff (Some (clock s + _HANDOFF_WINDOW_SECONDS)) s.

(** [_pending_locked]: an expired reservation is deleted on the way. *)
Definition _pending_locked (s : state) : bool * state :=
  match handoff s with
  | None => (false, s)
  | Some deadline => if clock s >=? deadline then (false, set_handoff None s) else (true, s)
  end.

Definition handoff_pending (s : state) : bool := fst (_pending_locked s).
Definition clear_handoff (s : state) : state := set_handoff None s.

(** [lock.acquire(blocking=False)] by a new thread. *)
Definition acquire (n : nat) (p : phase) (s : state) : reply * state :=
  if locked s then (Busy, s)
  else match threads s !! n with
       | Some _ => (Busy, s)  (* not a new thread *)
       | None => (Granted, set_thread n (Some p) (set_lock true s))
       end.

Definition acquire_unless_handoff (n : nat) (s : state) : reply * state :=
  let (pending, s) := _pending_locked s in
  if pending then (Handoff, s) else acquire n RenewalHolds s.

(** The closure of [_release_once]. *)
Definition _release_once (n : nat) (s : state) : state :=
  match threads s !! n with
  | Some JobHolds => set_thread n (Some JobReleased) (set_lock false s)
  | _ => s
  end.

Definition step (a : action) (s : state) : reply * state :=
  match a with
  | Tick d => (Done, {| locked := locked s; handoff := handoff s; clock := clock s + Z.max 0 d;
                        threads := threads s |})
  | SpawnJob n => acquire n JobHolds s
  | Reserve n => match threads s !! n with
                 | Some JobHolds => (Done, reserve_handoff s) | _ => (Done, s) end
  | Release n => (Done, _release_once n s)
  | FinishJob n => match threads s !! n with
                   | Some JobHolds | Some JobReleased => (Done, set_thread n None (_release_once n s))
                   | _ => (Done, s) end
  | EnterControl n => acquire n ControlHolds s
  | ClearHandoff n => match threads s !! n with
                      | Some ControlHolds => (Done, set_thread n (Some ControlCleared) (clear_handoff s))
                      | _ => (Done, s) end
  | ExitControl n => match threads s !! n with
                     | Some ControlCleared => (Done, set_thread n None (set_lock false s))
                     | _ => (Done, s) end
  | EnterRenewal n => acquire_unless_handoff n s
  | ExitRenewal n => match threads s !! n with
                     | Some RenewalHolds => (Done, set_thread n None (set_lock false s))
                     | _ => (Done, s) end
  end.

Definition run (acts : list action) (s : state) : state := foldl (λ s a, snd (step a s)) s acts.

(** *** Who holds the lock *)
Definition holds (p : phase) : bool := match p with JobReleased => false | _ => true end.
Definition holder (s : state) (n : nat) : Prop := ∃ p, threads s !! n = Some p ∧ holds p = true.

Record ok (s : state) : Prop := {
  ok_locked n : holder s n → locked s = true;
  ok_unique n m : holder s n → holder s m → n = m;
  ok_held : locked s = true → ∃ n, holder s n;
  ok_handoff n : handoff_pending s = true → threads s !! n ≠ Some RenewalHolds }.

(** *** The invariant, one kind of change at a time *)
Lemma pending_spec s : handoff_pending s = true ↔ ∃ d, handoff s = Some d ∧ clock s < d.
Proof.
  unfold handoff_pending, _pending_locked. destruct (handoff s) as [d|]; [|naive_solver].
  destruct (Z.geb_spec (clock s) d); cbn; split; try done.
  - intros (d' & [= <-] & ?). lia.
  - intros _. exists d. auto.
Qed.

Lemma pending_ext s s' : handoff s' = handoff s → clock s' = clock s → handoff_pending s' = handoff_pending s.
Proof. intros H1 H2. apply eq_true_iff_eq. by rewrite !pending_spec, H1, H2. Qed.

Lemma pending_state s :
  threads (snd (_pending_locked s)) = threads s ∧ locked (snd (_pending_locked s)) = locked s ∧
  clock (snd (_pending_locked s)) = clock s ∧
  handoff_pending (snd (_pending_locked s)) = handoff_pending s.
Proof.
  unfold handoff_pending, _pending_locked. destruct (handoff s) as [d|] eqn:Hh; cbn; [|by rewrite Hh].
  destruct (clock s >=? d) eqn:?; cbn; [done|]. rewrite Hh. by destruct (clock s >=? d).
Qed.

(** Only the reservation or the clock moved. *)
Lemma ok_time s s' :
  threads s' = threads s → locked s' = locked s →
  (handoff_pending s' = true → handoff_pending s = true ∨ ∃ n, threads s !! n = Some JobHolds) →
  ok s → ok s'.
Proof.
  intros Ht Hl Hp [H1 H2 H3 H4]. assert (Hh : ∀ n, holder s' n ↔ holder s n) by (intros; unfold holder; by rewrite Ht).
  split; rewrite ?Hl.
  - intros n Hn%Hh. by apply (H1 n).
  - intros n m Hn%Hh Hm%Hh. by apply H2.
  - intros (n & Hn)%H3. exists n. by apply Hh.
  - intros n. rewrite Ht. intros [Hs|[m Hm]]%Hp; [by apply H4|]. intros Hn.
    assert (n = m) as -> by (apply H2; eexists; eauto). congruence.
Qed.

(** An open lock taken by a new thread. *)
Lemma ok_grant n p s :
  locked s = false → threads s !! n = None → holds p = true →
  (p = RenewalHolds → handoff_pending s = false) →
  ok s → ok (set_thread n (Some p) (set_lock true s)).
Proof.
  intros Hl Hn Hp Hr [H1 H2 H3 H4].
  assert (Hno : ∀ m, ¬ holder s m) by (intros m Hm%H1; congruence).
  assert (Hhold : ∀ m, holder (set_thread n (Some p) (set_lock true s)) m ↔ m = n).
  { intros m. unfold holder; cbn. split.
    - destruct (decide (m = n)) as [|Hne]; [done|]. rewrite lookup_insert_ne by done. intros Hm. by destruct (Hno m).
    - intros ->. rewrite lookup_insert_eq. eauto. }
  split; cbn.
  - done.
  - intros a b ->%Hhold ->%Hhold. done.
  - intros _. exists n. by apply Hhold.
  - intros m Hpend. rewrite (pending_ext s) in Hpend by done.
    destruct (decide (m = n)) as [->|]; [rewrite lookup_insert_eq|rewrite lookup_insert_ne by done; by apply H4].
    intros [= ->]. by rewrite Hr in Hpend.
Qed.

(** The holder opens the lock. *)
Lemma ok_open n p q s :
  threads s !! n = Some p → holds p = true → (q = None ∨ q = Some JobReleased) →
  ok s → ok (set_thread n q (set_lock false s)).
Proof.
  intros Hn Hp Hq [H1 H2 H3 H4].
  assert (Hlook : ∀ m, threads (set_thread n q (set_lock false s)) !! m = if decide (m = n) then q else threads s !! m).
  { intros m. cbn. destruct (decide (m = n)) as [->|]; destruct q; by simplify_map_eq. }
  assert (Hno : ∀ m, ¬ holder (set_thread n q (set_lock false s)) m).
  { intros m (p' & Hm & Hh). rewrite Hlook in Hm. destruct (decide (m = n)) as [->|Hne].
    - destruct Hq as [->| ->]; [done|]. by injection Hm as <-.
    - apply Hne, H2; eexists; eauto. }
  split; cbn.
  - intros m Hm. by destruct (Hno m).
  - intros m ? Hm. by destruct (Hno m).
  - done.
  - intros m Hpend. intros Hm. apply (Hno m). exists RenewalHolds. auto.
Qed.

(** A phase changes between two of the same standing. *)
Lemma ok_relabel n p q s :
  threads s !! n = Some p → holds q = holds p → q ≠ RenewalHolds →
  ok s → ok (set_thread n (Some q) s).
Proof.
  intros Hn Hpq Hq [H1 H2 H3 H4].
  assert (Hh : ∀ m, holder (set_thread n (Some q) s) m ↔ holder s m).
  { intros m. unfold holder; cbn. destruct (decide (m = n)) as [->|]; simplify_map_eq; [|done].
    rewrite ?Hn. split; intros (? & [= <-] & ?); eexists; (split; [done|]); congruence. }
  split; cbn.
  - intros m Hm%Hh. by apply (H1 m).
  - intros m m' Hm%Hh Hm'%Hh. by apply H2.
  - intros (m & Hm)%H3. exists m. by apply Hh.
  - intros m Hpend. rewrite (pending_ext s) in Hpend by done.
    destruct (decide (m = n)) as [->|]; simplify_map_eq; [congruence|by apply H4].
Qed.

(** A thread that holds nothing ends. *)
Lemma ok_gone n s : threads s !! n = Some JobReleased → ok s → ok (set_thread n None s).
Proof.
  intros Hn [H1 H2 H3 H4].
  assert (Hh : ∀ m, holder (set_thread n None s) m ↔ holder s m).
  { intros m. unfold holder; cbn. destruct (decide (m = n)) as [->|]; simplify_map_eq; [|done].
    rewrite ?Hn. split; [by intros (? & ? & ?)|]. by intros (? & [= <-] & ?). }
  split; cbn.
  - intros m Hm%Hh. by apply (H1 m).
  - intros m m' Hm%Hh Hm'%Hh. by apply H2.
  - intros (m & Hm)%H3. exists m. by apply Hh.
  - intros m Hpend. rewrite (pending_ext s) in Hpend by done.
    destruct (decide (m = n)) as [->|]; simplify_map_eq; [done|by apply H4].
Qed.

Lemma ok_acquire n p s :
  holds p = true → (p = RenewalHolds → handoff_pending s = false) → ok s → ok (snd (acquire n p s)).
Proof.
  intros Hp Hr Hs. unfold acquire. destruct (locked s) eqn:Hl; [done|].
  destruct (threads s !! n) eqn:Hn; [done|]. by apply ok_grant.
Qed.

Lemma ok_step a s : ok s → ok (snd (step a s)).
Proof.
  intros Hs. destruct a as [d|n|n|n|n|n|n|n|n|n]; cbn.
  - apply (ok_time s); [done..| |done]. rewrite !pending_spec. cbn. intros (d' & ? & ?). left. exists d'.
    split; [done|lia].
  - by apply ok_acquire.
  - destruct (threads s !! n) as [[]|] eqn:Hn; try done. apply (ok_time s); [done..| |done]. eauto.
  - unfold _release_once. destruct (threads s !! n) as [[]|] eqn:Hn; try done.
    eapply ok_open; [exact Hn|done|by right|done].
  - destruct (threads s !! n) as [[]|] eqn:Hn; try done; unfold _release_once; rewrite Hn.
    + cbn. apply ok_gone; [by cbn; simplify_map_eq|]. eapply ok_open; [exact Hn|done|by right|done].
    + by apply ok_gone.
  - by apply ok_acquire.
  - destruct (threads s !! n) as [[]|] eqn:Hn; try done.
    eapply ok_relabel; [exact Hn|done|done|]. by apply (ok_time s).
  - destruct (threads s !! n) as [[]|] eqn:Hn; try done. eapply ok_open; [exact Hn|done|by left|done].
  - unfold acquire_unless_handoff. destruct (pending_state s) as (Ht & Hl & Hc & Hp).
    assert (Hs' : ok (snd (_pending_locked s))) by (apply (ok_time s); rewrite ?Hp; auto).
    unfold handoff_pending in Hp at 2. destruct (_pending_locked s) as [[] s']; cbn in *; [done|].
    by apply ok_acquire.
  - destruct (threads s !! n) as [[]|] eqn:Hn; try done. eapply ok_open; [exact Hn|done|by left|done].
Qed.

Lemma ok_initial : ok initial.
Proof.
  assert (Hno : ∀ n, ¬ holder initial n) by (intros n (? & ? & ?); done).
  split; try done; intros; exfalso; eapply Hno; eauto.
Qed.

Lemma ok_run acts s : ok s → ok (run acts s).
Proof. revert s. induction acts as [|a acts IH]; intros s Hs; [done|]. cbn. by apply IH, ok_step. Qed.

(** C20: Whatever threads come and go in whatever order, at most one of a
    backup, a restore, a control handler and a certificate renewal is inside the
    lock of an instance; the lock is closed exactly while one is, so that no
    release, early, repeated or final, ever opens somebody else's lock and none
    leaves it closed; and while a handoff is reserved no renewal is inside. *)
Theorem instance_lock_exclusive acts :
  let s := run acts initial in
  (∀ n m, holder s n → holder s m → n = m) ∧
  (locked s = true ↔ ∃ n, holder s n) ∧
  (handoff_pending s = true → ∀ n, threads s !! n ≠ Some RenewalHolds).
Proof.
  cbn zeta. destruct (ok_run acts initial ok_initial) as [H1 H2 H3 H4].
  split_and!; [done| |auto]. split; [done|]. by intros [n ?%H1].
Qed.

(** *** The reservation over time *)
Definition no_clear (a : action) : Prop := match a with ClearHandoff _ => False | _ => True end.

(** A reservation at least until [d]. *)
Definition reserved (d : Z) (s : state) : Prop := ∃ d', handoff s = Some d' ∧ d ≤ d'.

Lemma handoff_acquire n p s : handoff (snd (acquire n p s)) = handoff s ∧ clock (snd (acquire n p s)) = clock s.
Proof. unfold acquire. destruct (locked s); [done|]. by destruct (threads s !! n). Qed.

Lemma step_clock a s : clock s ≤ clock (snd (step a s)).
Proof.
  destruct a as [d|n|n|n|n|n|n|n|n|n]; cbn; unfold _release_once;
    rewrite ?(proj2 (handoff_acquire _ _ _)); try lia.
  all: try (destruct (threads s !! n) as [[]|]; cbn; lia).
  unfold acquire_unless_handoff. destruct (pending_state s) as (_ & _ & <- & _).
  destruct (_pending_locked s) as [[] s']; cbn; [lia|]. rewrite (proj2 (handoff_acquire _ _ _)). lia.
Qed.

Lemma run_clock acts s : clock s ≤ clock (run acts s).
Proof.
  revert s. induction acts as [|a acts IH]; intros s; cbn; [lia|].
  pose proof (step_clock a s). pose proof (IH (snd (step a s))). unfold run in *. lia.
Qed.

Lemma step_reserved a d s : no_clear a → reserved d s → d ≤ clock s + _HANDOFF_WINDOW_SECONDS →
  clock s < d → reserved d (snd (step a s)).
Proof.
  intros Ha (d' & Hh & Hd) Hw Hc. unfold reserved.
  destruct a as [x|n|n|n|n|n|n|n|n|n]; try done; cbn; unfold _release_once;
    rewrite ?(proj1 (handoff_acquire _ _ _)); eauto.
  all: try (destruct (threads s !! n) as [[]|]; cbn; by eauto).
  unfold acquire_unless_handoff, _pending_locked. rewrite Hh.
  destruct (Z.geb_spec (clock s) d'); [lia|]. cbn. eauto.
Qed.

Lemma run_reserved acts d s : Forall no_clear acts → reserved d s →
  d ≤ clock s + _HANDOFF_WINDOW_SECONDS → clock (run acts s) < d → reserved d (run acts s).
Proof.
  intros F. revert s. induction F as [|a acts Ha F IH]; intros s Hr Hw Hc; [done|].
  cbn in *. pose proof (step_clock a s). pose proof (run_clock acts (snd (step a s))). unfold run in *.
  apply IH; [|lia|done]. apply step_reserved; auto; lia.
Qed.

(** The handoff of a restore works. After a restore that holds the lock
    reserves and releases it, the control operation the manager chains is
    admitted, while for the next ninety seconds, until a control operation
    consumes the reservation, every attempt of certificate renewal on the
    instance is refused, whatever else is scheduled in between. *)
Theorem handoff_protects n s acts :
  threads s !! n = Some JobHolds →
  let s1 := run [Reserve n; Release n] s in
  (∀ m, threads s !! m = None → fst (step (EnterControl m) s1) = Granted) ∧
  (Forall no_clear acts → clock (run acts s1) < clock s + _HANDOFF_WINDOW_SECONDS →
   ∀ m, fst (step (EnterRenewal m) (run acts s1)) = Handoff).
Proof.
  intros Hn. cbn zeta.
  assert (H1 : run [Reserve n; Release n] s
    = set_thread n (Some JobReleased) (set_lock false (reserve_handoff s))).
  { cbn. unfold _release_once. rewrite Hn. cbn. by rewrite ?Hn. }
  rewrite H1. split.
  - intros m Hm. cbn. unfold acquire. cbn. rewrite lookup_insert_ne by congruence. by rewrite Hm.
  - intros F Hc m. set (s1 := set_thread _ _ _) in *.
    destruct (run_reserved acts (clock s + _HANDOFF_WINDOW_SECONDS) s1) as (d & Hd & Hle); [done| |cbn; lia|done|].
    { exists (clock s + _HANDOFF_WINDOW_SECONDS). split; [done|lia]. }
    cbn. unfold acquire_unless_handoff, _pending_locked. rewrite Hd.
    destruct (Z.geb_spec (clock (run acts s1)) d); [lia|done].
Qed.

Lemma handoff_protects_witness :
  let s := run [SpawnJob 1; Tick 5] initial in
  threads s !! 1%nat = Some JobHolds ∧
  fst (step (EnterControl 2) (run [Reserve 1; Release 1] s)) = Granted ∧
  fst (step (EnterRenewal 3) (run [Tick 60; EnterRenewal 4] (run [Reserve 1; Release 1] s))) = Handoff.
Proof.
  split; [reflexivity|].
  destruct (handoff_protects 1 (run [SpawnJob 1; Tick 5] initial) [Tick 60; EnterRenewal 4]) as [H1 H2]; [reflexivity|].
  split; [apply H1; reflexivity|]. apply H2; [by repeat constructor|]. vm_compute. reflexivity.
Defined.

(** No reservation reaches further than one window into the future. *)
Lemma step_window a s :
  (∀ d, handoff s = Some d → d ≤ clock s + _HANDOFF_WINDOW_SECONDS) →
  ∀ d, handoff (snd (step a s)) = Some d → d ≤ clock (snd (step a s)) + _HANDOFF_WINDOW_SECONDS.
Proof.
  intros H. destruct a as [x|n|n|n|n|n|n|n|n|n]; cbn; unfold _release_once;
    rewrite ?(proj1 (handoff_acquire _ _ _)), ?(proj2 (handoff_acquire _ _ _)); auto.
  { intros d Hd%H. lia. }
  all: try (destruct (threads s !! n) as [[]|]; cbn; try done; by auto).
  - destruct (threads s !! n) as [[]|]; cbn; auto. intros d [= <-]. lia.
  - unfold acquire_unless_handoff, _pending_locked. destruct (handoff s) as [d|] eqn:Hd.
    + destruct (clock s >=? d); cbn; rewrite ?(proj1 (handoff_acquire _ _ _)), ?(proj2 (handoff_acquire _ _ _)); [done|].
      rewrite Hd. auto.
    + rewrite (proj1 (handoff_acquire _ _ _)), (proj2 (handoff_acquire _ _ _)), Hd. done.
Qed.

Lemma run_window acts s :
  (∀ d, handoff s = Some d → d ≤ clock s + _HANDOFF_WINDOW_SECONDS) →
  ∀ d, handoff (run acts s) = Some d → d ≤ clock (run acts s) + _HANDOFF_WINDOW_SECONDS.
Proof. revert s. induction acts as [|a acts IH]; intros s H; [done|]. apply IH. by apply step_window. Qed.

(** A lost manager cannot mute renewal. In every reachable state, once a
    window has passed without a new reservation, a renewal that finds the lock
    open gets it. *)
Theorem handoff_never_pins acts x n :
  let s := run acts initial in
  _HANDOFF_WINDOW_SECONDS ≤ x → locked s = false → threads s !! n = None →
  fst (step (EnterRenewal n) (run [Tick x] s)) = Granted.
Proof.
  cbn zeta. intros Hx Hl Hn. set (s := run acts initial) in *.
  assert (Hw : ∀ d, handoff s = Some d → d ≤ clock s + _HANDOFF_WINDOW_SECONDS) by (by apply run_window).
  clearbody s. cbn. unfold acquire_unless_handoff, _pending_locked. cbn.
  destruct (handoff s) as [d|] eqn:Hd; cbn.
  - specialize (Hw d eq_refl). unfold _HANDOFF_WINDOW_SECONDS in *.
    destruct (Z.geb_spec (clock s + Z.max 0 x) d); [|lia]. unfold acquire. cbn. by rewrite Hl, Hn.
  - unfold acquire. cbn. by rewrite Hl, Hn.
Qed.

Lemma handoff_never_pins_witness :
  handoff_pending (run [SpawnJob 1; Reserve 1; FinishJob 1] initial) = true ∧
  fst (step (EnterRenewal 2) (run [Tick 90] (run [SpawnJob 1; Reserve 1; FinishJob 1] initial))) = Granted.
Proof. split; [reflexivity|]. apply handoff_never_pins; [done|reflexivity..]. Defined.
End Instance.

(** ** The repositories: [_REPO_OP_LOCKS] *)
Module Repo.

(** Between [_repo_op_lock] and the acquire; inside the operation; between the
    two halves of [_reap_repo_op_lock]. *)
Inductive phase : Type := Fetched | Working | Popped.

(** A [threading.Lock] is its identity; [closed] are those that are locked. *)
Record state : Type := {
  registry : gmap string nat;
  closed : gset nat;
  fresh : nat;
  threads : gmap nat (string * nat * phase);
}.

Definition initial : state := {| registry := ∅; closed := ∅; fresh := 0; threads := ∅ |}.

Inductive action : Type :=
  | Fetch (n : nat) (repo : string)   (** [_repo_op_lock]: [setdefault] under the guard *)
  | Acquire (n : nat)                 (** [lock.acquire(blocking=False)], or [BusyError] *)
  | Pop (n : nat)                     (** the guarded half of [_reap_repo_op_lock] *)
  | Open (n : nat).                   (** [lock.release()] *)

(** [setdefault(repo, threading.Lock())] *)
Definition _repo_op_lock (repo : string) (s : state) : nat * state :=
  match registry s !! repo with
  | Some lock => (lock, s)
  | None => (fresh s, {| registry := <[repo := fresh s]> (registry s); closed := closed s;
                         fresh := S (fresh s); threads := threads s |})
  end.

Definition set_thread (n : nat) (t : option (string * nat * phase)) (s : state) : state :=
  {| registry := registry s; closed := closed s; fresh := fresh s;
     threads := match t with Some t => <[n := t]> (threads s) | None => delete n (threads s) end |}.
Definition set_closed (c : gset nat) (s : state) : state :=
  {| registry := registry s; closed := c; fresh := fresh s; threads := threads s |}.
Definition set_registry (r : gmap string nat) (s : state) : state :=
  {| registry := r; closed := closed s; fresh := fresh s; threads := threads s |}.

Definition fetch (n : nat) (repo : string) (s : state) : state :=
  match threads s !! n with
  | Some _ => s (* not a new thread *)
  | None => let (lock, s) := _repo_op_lock repo s in set_thread n (Some (repo, lock, Fetched)) s
  end.

Definition try_acquire (n : nat) (s : state) : state :=
  match threads s !! n with
  | Some (repo, lock, Fetched) =>
      if bool_decide (lock ∈ closed s) then set_thread n None s
      else set_thread n (Some (repo, lock, Working)) (set_closed ({[lock]} ∪ closed s) s)
  | _ => s
  end.

Definition pop_registry (repo : string) (lock : nat) (s : state) : state :=
  if bool_decide (registry s !! repo = Some lock) then set_registry (delete repo (registry s)) s else s.

Definition step (a : action) (s : state) : state :=
  match a with
  | Fetch n repo => fetch n repo s
  | Acquire n => try_acquire n s
  | Pop n => match threads s !! n with
             | Some (repo, lock, Working) => set_thread n (Some (repo, lock, Popped)) (pop_registry repo lock s)
             | _ => s end
  | Open n => match threads s !! n with
              | Some (_, lock, Popped) => set_thread n None (set_closed (closed s ∖ {[lock]}) s)
              | _ => s end
  end.

Definition run (acts : list action) (s : state) : state := foldl (λ s a, step a s) s acts.

(** Thread [n] is running an operation on [repo]. *)
Definition working (s : state) (n : nat) (repo : string) : Prop :=
  ∃ lock, threads s !! n = Some (repo, lock, Working).

(** A schedule in which no other thread gets between [_repo_op_lock] and the
    acquire of a spawn. *)
Inductive block : Type := Spawn (n : nat) (repo : string) | Reap1 (n : nat) | Reap2 (n : nat).
Definition actions_of (b : block) : list action :=
  match b with
  | Spawn n repo => [Fetch n repo; Acquire n]
  | Reap1 n => [Pop n]
  | Reap2 n => [Open n]
  end.

Record ok (s : state) : Prop := {
  ok_working n repo lock : threads s !! n = Some (repo, lock, Working) → registry s !! repo = Some lock;
  ok_fetched n repo lock : threads s !! n ≠ Some (repo, lock, Fetched);
  ok_held n repo lock p : threads s !! n = Some (repo, lock, p) → lock ∈ closed s;
  ok_one n m repo repo' lock p q :
    threads s !! n = Some (repo, lock, p) → threads s !! m = Some (repo', lock, q) → n = m;
  ok_fresh lock : lock ∈ closed s → (lock < fresh s)%nat;
  ok_registry repo lock : registry s !! repo = Some lock → (lock < fresh s)%nat }.

Lemma repo_ok_initial : ok initial.
Proof. split; cbn; try done. Qed.

(** The registry's lock for [repo] is open and a new thread takes it. *)
Lemma ok_take n repo lock s r f :
  ok s → threads s !! n = None → lock ∉ closed s →
  (∀ m repo' lock', threads s !! m = Some (repo', lock', Working) → r !! repo' = Some lock') →
  r !! repo = Some lock → (lock < f)%nat → (fresh s ≤ f)%nat →
  (∀ repo' lock', r !! repo' = Some lock' → (lock' < f)%nat) →
  ok {| registry := r; closed := {[lock]} ∪ closed s; fresh := f;
        threads := <[n := (repo, lock, Working)]> (threads s) |}.
Proof.
  intros [H1 H2 H3 H4 H5 H6] Hn Hopen Hw Hr Hf Hle Hreg. split; cbn.
  - intros m repo' lock' [[-> [= -> ->]]|[_ Hm]]%lookup_insert_Some; [done|by eapply Hw].
  - intros m repo' lock' [[-> [=]]|[_ Hm]]%lookup_insert_Some. by eapply H2.
  - intros m repo' lock' p [[-> [= -> -> <-]]|[_ Hm%H3]]%lookup_insert_Some; set_solver.
  - intros m m' repo1 repo2 lock' p q [[<- [= <- <- <-]]|[_ Hm]]%lookup_insert_Some
      [[<- [= <- <-]]|[_ Hm']]%lookup_insert_Some; try done.
    + by apply H3 in Hm'.
    + simplify_eq. by apply H3 in Hm.
    + by eapply H4.
  - intros lock' [->%elem_of_singleton|Hc%H5]%elem_of_union; lia.
  - done.
Qed.

Lemma ok_spawn n repo s : ok s → ok (run (actions_of (Spawn n repo)) s).
Proof.
  intros Hs. pose proof Hs as [H1 H2 H3 H4 H5 H6]. cbn. unfold fetch. destruct (threads s !! n) as [[[r l] p]|] eqn:Hn.
  { unfold try_acquire. rewrite Hn. destruct p; [|done..]. by apply H2 in Hn. }
  unfold _repo_op_lock. destruct (registry s !! repo) as [lock|] eqn:Hr; unfold try_acquire; cbn;
    rewrite lookup_insert_eq; case_bool_decide as Hc.
  - unfold set_thread; cbn. rewrite delete_insert_id by done. by destruct s.
  - unfold set_thread; cbn. rewrite insert_insert_eq. apply ok_take; try done; eauto.
  - unfold set_thread; cbn in *. apply H5 in Hc. lia.
  - unfold set_thread; cbn. rewrite insert_insert_eq. apply ok_take; try done; [..|lia|lia|].
    + intros m repo' lock' Hm. rewrite lookup_insert_ne; [by eapply H1|]. intros ->. apply H1 in Hm. congruence.
    + by rewrite lookup_insert_eq.
    + intros repo' lock' [[_ <-]|[_ Hl%H6]]%lookup_insert_Some; lia.
Qed.

Lemma ok_pop n s : ok s → ok (step (Pop n) s).
Proof.
  intros Hs. pose proof Hs as [H1 H2 H3 H4 H5 H6]. cbn.
  destruct (threads s !! n) as [[[repo lock] []]|] eqn:Hn; try done.
  unfold pop_registry. rewrite bool_decide_true by (by eapply H1). split; cbn.
  - intros m repo' lock' [[-> [=]]|[Hne Hm]]%lookup_insert_Some.
    rewrite lookup_delete_ne; [by eapply H1|]. intros <-. apply Hne.
    apply (H4 n m repo repo lock Working Working); [done|]. apply H1 in Hn. pose proof (H1 _ _ _ Hm). congruence.
  - intros m repo' lock' [[-> [=]]|[_ Hm]]%lookup_insert_Some. by eapply H2.
  - intros m repo' lock' p [[-> [= -> -> <-]]|[_ Hm]]%lookup_insert_Some; eauto.
  - intros m m' repo1 repo2 lock' p q [[<- [= <- <- <-]]|[_ Hm]]%lookup_insert_Some
      [[<- [= <- <-]]|[_ Hm']]%lookup_insert_Some; try done; simplify_eq; eauto.
  - done.
  - intros repo' lock' [_ Hl]%lookup_delete_Some. eauto.
Qed.

Lemma repo_ok_open n s : ok s → ok (step (Open n) s).
Proof.
  intros Hs. pose proof Hs as [H1 H2 H3 H4 H5 H6]. cbn.
  destruct (threads s !! n) as [[[repo lock] []]|] eqn:Hn; try done. split; cbn.
  - intros m repo' lock' [_ Hm]%lookup_delete_Some. eauto.
  - intros m repo' lock' [_ Hm]%lookup_delete_Some. by eapply H2.
  - intros m repo' lock' p [Hne Hm]%lookup_delete_Some. apply elem_of_difference. split; [by eapply H3|].
    intros ->%elem_of_singleton. by apply Hne, (H4 n m repo repo' lock Popped p).
  - intros m m' repo1 repo2 lock' p q [_ Hm]%lookup_delete_Some [_ Hm']%lookup_delete_Some. eauto.
  - intros lock' [Hl _]%elem_of_difference. auto.
  - done.
Qed.

(** When no other thread runs between the two halves of a spawn, prune and
    check of one repository never overlap: at most one thread works on a
    repository, while different repositories do not contend. *)
Theorem repo_ops_exclusive bs :
  let s := run (bs ≫= actions_of) initial in
  (∀ n m repo, working s n repo → working s m repo → n = m) ∧
  (∀ n repo, threads s !! n = None →
     working (run (actions_of (Spawn n repo)) s) n repo ∨ ∃ lock, registry s !! repo = Some lock ∧ lock ∈ closed s).
Proof.
  cbn zeta.
  assert (Hok : ok (run (bs ≫= actions_of) initial)).
  { assert (Hgen : ∀ s, ok s → ok (run (bs ≫= actions_of) s)); [|apply Hgen, repo_ok_initial].
    induction bs as [|b bs IH]; intros s Hs; [done|]. cbn. unfold run in *. rewrite foldl_app. apply IH.
    destruct b; [by apply ok_spawn|by apply ok_pop|by apply repo_ok_open]. }
  set (s := run _ _) in *. clearbody s. destruct Hok as [H1 H2 H3 H4 H5 H6]. split.
  - intros n m repo [l1 Hn] [l2 Hm]. pose proof (H1 _ _ _ Hn). pose proof (H1 _ _ _ Hm). simplify_eq. eauto.
  - intros n repo Hn. cbn. unfold fetch. rewrite Hn. unfold _repo_op_lock, working.
    destruct (registry s !! repo) as [lock|] eqn:Hr; unfold try_acquire; cbn; rewrite lookup_insert_eq;
      case_bool_decide as Hc; cbn in *.
    + right. eauto.
    + left. exists lock. by rewrite lookup_insert_eq.
    + apply H5 in Hc. lia.
    + left. exists (fresh s). by rewrite lookup_insert_eq.
Qed.

(** Otherwise they can: the second spawn fetched the lock before the first
    operation popped it and acquires it after the release, while the third gets
    a new lock. *)
Example repo_ops_overlap :
  let s := run [Fetch 1 "r"; Acquire 1; Fetch 2 "r"; Pop 1; Open 1; Acquire 2; Fetch 3 "r"; Acquire 3]%string
             initial in
  working s 2 "r"%string ∧ working s 3 "r"%string.
Proof. split; [by exists 0%nat|by exists 1%nat]. Qed.
End Repo.
