(* ===== verification/LockSpec.v ===== *)
(** What the per-instance lock promises: a mutex with an owner, and a quiet period
    in which certificate renewal stays out. [Locks.Instance], with its boolean
    lock that anybody can open, its one-shot release closures and its lazily
    expired reservations, is shown to answer every schedule as this one does. *)
From S2P Require Import Prelude Locks.
Import Locks.Instance.
Local Open Scope Z_scope.

Inductive role : Type := Job | Control | ControlDone | Renewal.

Record mutex : Type := Mutex {
  owner : option (nat * role);
  retired : gset nat;          (** jobs that have let go and still run *)
  quiet_until : Z;
  time : Z }.

Definition mutex_initial : mutex := Mutex None ∅ 0 0.

Definition owns (a : mutex) (n : nat) (r : role) : Prop := owner a = Some (n, r).
#[export] Instance role_eq : EqDecision role.
Proof. solve_decision. Defined.
#[export] Instance owns_dec a n r : Decision (owns a n r).
Proof. unfold owns. apply _. Defined.

(** A newcomer gets a free mutex. *)
Definition enter (n : nat) (r : role) (a : mutex) : reply * mutex :=
  if decide (owner a = None ∧ n ∉ retired a) then (Granted, Mutex (Some (n, r)) (retired a) (quiet_until a) (time a))
  else (Busy, a).

Definition leave (a : mutex) : mutex := Mutex None (retired a) (quiet_until a) (time a).

Definition spec_step (x : action) (a : mutex) : reply * mutex :=
  match x with
  | Tick d => (Done, Mutex (owner a) (retired a) (quiet_until a) (time a + Z.max 0 d))
  | SpawnJob n => enter n Job a
  | Reserve n => (Done, if decide (owns a n Job)
                        then Mutex (owner a) (retired a) (time a + _HANDOFF_WINDOW_SECONDS) (time a) else a)
  | Release n => (Done, if decide (owns a n Job)
                        then Mutex None ({[n]} ∪ retired a) (quiet_until a) (time a) else a)
  | FinishJob n => (Done, if decide (owns a n Job) then leave a
                          else Mutex (owner a) (retired a ∖ {[n]}) (quiet_until a) (time a))
  | EnterControl n => enter n Control a
  | ClearHandoff n => (Done, if decide (owns a n Control)
                             then Mutex (Some (n, ControlDone)) (retired a) (time a) (time a) else a)
  | ExitControl n => (Done, if decide (owns a n ControlDone) then leave a else a)
  | EnterRenewal n => if time a <? quiet_until a then (Handoff, a) else enter n Renewal a
  | ExitRenewal n => (Done, if decide (owns a n Renewal) then leave a else a)
  end.

(** ** The simulation *)
Definition role_of (p : phase) : option role :=
  match p with
  | JobHolds => Some Job
  | JobReleased => None
  | ControlHolds => Some Control
  | ControlCleared => Some ControlDone
  | RenewalHolds => Some Renewal
  end.

Record simulates (s : state) (a : mutex) : Prop := {
  sim_owner n r : threads s !! n ≫= role_of = Some r ↔ owns a n r;
  sim_retired n : threads s !! n = Some JobReleased ↔ n ∈ retired a;
  sim_locked : locked s = bool_decide (owner a ≠ None);
  sim_time : clock s = time a;
  sim_quiet : match handoff s with Some d => quiet_until a = d | None => quiet_until a ≤ time a end }.

Lemma sim_update n q s s' a a' : simulates s a →
  (∀ m, threads s' !! m = if decide (m = n) then q else threads s !! m) →
  (∀ r, q ≫= role_of = Some r ↔ owns a' n r) → (∀ m r, m ≠ n → owns a' m r ↔ owns a m r) →
  (q = Some JobReleased ↔ n ∈ retired a') → (∀ m, m ≠ n → m ∈ retired a' ↔ m ∈ retired a) →
  locked s' = bool_decide (owner a' ≠ None) → clock s' = time a' →
  match handoff s' with Some d => quiet_until a' = d | None => quiet_until a' ≤ time a' end → simulates s' a'.
Proof.
  intros [Ho Hr _ _ _] Ht Hq Hown Hret Hrest Hl Hc Hh. split; try done.
  - intros m r. rewrite Ht. destruct (decide (m = n)) as [->|]; [apply Hq|]. rewrite Hown by done. apply Ho.
  - intros m. rewrite Ht. destruct (decide (m = n)) as [->|]; [apply Hret|]. rewrite Hrest by done. apply Hr.
Qed.

Lemma set_thread_lookup n q s m :
  threads (set_thread n q s) !! m = if decide (m = n) then q else threads s !! m.
Proof. cbn. destruct q, (decide (m = n)) as [->|]; by simplify_map_eq. Qed.

Lemma owns_fun a n m r r' : owns a n r → owns a m r' → n = m ∧ r = r'.
Proof. unfold owns. intros H1 H2. rewrite H1 in H2. by injection H2. Qed.

(** The phase of a thread, from what the mutex says of it. *)
Lemma sim_phase s a n : simulates s a →
  match threads s !! n with
  | None => (∀ r, ¬ owns a n r) ∧ n ∉ retired a
  | Some JobReleased => n ∈ retired a ∧ ∀ r, ¬ owns a n r
  | Some p => (∃ r, role_of p = Some r ∧ owns a n r) ∧ n ∉ retired a
  end.
Proof.
  intros [Ho Hr _ _ _]. pose proof (Hr n) as Hr'. pose proof (Ho n) as Ho'.
  destruct (threads s !! n) as [p|]; [destruct p|]; cbn in Ho'; naive_solver.
Qed.

Lemma sim_acquire n p r s a : simulates s a → role_of p = Some r →
  (acquire n p s).1 = (enter n r a).1 ∧ simulates (acquire n p s).2 (enter n r a).2.
Proof.
  intros S Hp. unfold acquire, enter. pose proof (sim_phase s a n S) as Hph. pose proof S as [Ho Hr Hl Hc Hh].
  rewrite Hl. destruct (owner a) as [[m r']|] eqn:Hown.
  { rewrite bool_decide_true by done. destruct (decide _) as [[? _]|_]; done. }
  rewrite bool_decide_false by (by intros []).
  destruct (threads s !! n) as [p'|] eqn:Hn.
  - assert (Hret : n ∈ retired a).
    { destruct p'; try (destruct Hph as [(? & _ & Hx) _]; unfold owns in Hx; congruence). apply Hph. }
    destruct (decide _) as [[_ ?]|_]; done.
  - destruct Hph as [_ Hret]. destruct (decide _) as [_|Hd]; [|naive_solver]. split; [done|].
    apply (sim_update n (Some p) s _ a); cbn; try done.
    + intros m. apply (set_thread_lookup n (Some p)).
    + intros r''. unfold owns; cbn. split; [intros; congruence|intros [= ->]; done].
    + intros m r'' Hne. unfold owns; cbn. rewrite Hown. split; [intros [= ? ?]; congruence|done].
    + destruct p; naive_solver.
Qed.

(** The owner lets go. *)
Lemma sim_leave n p r s a : simulates s a → threads s !! n = Some p → role_of p = Some r →
  simulates (set_thread n None (set_lock false s)) (leave a).
Proof.
  intros S Hn Hp. pose proof S as [Ho Hr Hl Hc Hh].
  assert (Hown : owns a n r) by (apply Ho; by rewrite Hn). assert (Hret : n ∉ retired a).
  { rewrite <- Hr, Hn. intros [= ->]. done. }
  apply (sim_update n None s _ a); cbn; try done.
  - intros m. apply (set_thread_lookup n None).
  - intros m r' Hne. unfold owns; cbn. split; [done|]. intros Hm. by destruct (owns_fun a n m r r').
Qed.

Lemma sim_release n s a : simulates s a → threads s !! n = Some JobHolds →
  simulates (set_thread n (Some JobReleased) (set_lock false s)) (Mutex None ({[n]} ∪ retired a) (quiet_until a) (time a)).
Proof.
  intros S Hn. pose proof S as [Ho Hr Hl Hc Hh]. assert (Hown : owns a n Job) by (apply Ho; by rewrite Hn).
  apply (sim_update n (Some JobReleased) s _ a); cbn; try done.
  - intros m. apply (set_thread_lookup n (Some JobReleased)).
  - intros m r' Hne. unfold owns; cbn. split; [done|]. intros Hm. by destruct (owns_fun a n m Job r').
  - set_solver.
  - set_solver.
Qed.

Lemma sim_retime s s' a a' : simulates s a → threads s' = threads s → locked s' = locked s →
  owner a' = owner a → (∀ n, n ∈ retired a' ↔ n ∈ retired a) → clock s' = time a' →
  match handoff s' with Some d => quiet_until a' = d | None => quiet_until a' ≤ time a' end → simulates s' a'.
Proof.
  intros [Ho Hr Hl _ _] Ht Hlk Hown Hret Hc Hh. split; try done.
  - intros n r. unfold owns. rewrite Ht, Hown. apply Ho.
  - intros n. by rewrite Ht, Hret.
  - by rewrite Hlk, Hown.
Qed.

(** A reservation is pending while the quiet period lasts. *)
Lemma sim_pending s a : simulates s a →
  (_pending_locked s).1 = (time a <? quiet_until a) ∧ simulates (_pending_locked s).2 a.
Proof.
  intros S. pose proof S as [_ _ _ Hc Hh]. unfold _pending_locked. rewrite Hc. destruct (handoff s) as [d|] eqn:Hd.
  - rewrite Hh, Z.geb_leb, Z.ltb_antisym. destruct (Z.leb_spec d (time a)); (split; [done|]); [|done].
    apply (sim_retime s _ a); cbn; try done; lia.
  - split; [|done]. cbn. symmetry. apply Z.ltb_ge. lia.
Qed.

(** Case by case on the phase of the thread and whether it owns the mutex so. *)
Ltac by_phase n r :=
  lazymatch goal with S : simulates ?s ?a, Ho : ∀ n r, _ ↔ owns _ _ _ |- _ =>
    destruct (threads s !! n) as [[]|] eqn:Hn; destruct (decide (owns a n r)) as [Hown|Hown];
    rewrite <- Ho, Hn in Hown; cbn in Hown; try done
  end.

Lemma sim_finish n s a : simulates s a →
  (step (FinishJob n) s).1 = (spec_step (FinishJob n) a).1 ∧
  simulates (step (FinishJob n) s).2 (spec_step (FinishJob n) a).2.
Proof.
  intros S. pose proof S as [Ho Hr Hl Hc Hh]. pose proof (Hr n) as Hrn. cbn [step spec_step].
  assert (Hkeep : n ∉ retired a → simulates s (Mutex (owner a) (retired a ∖ {[n]}) (quiet_until a) (time a))).
  { intros Hret. apply (sim_retime s _ a); cbn; try done. set_solver. }
  by_phase n Job; cbn [fst snd]; (split; [done|]); unfold _release_once; rewrite ?Hn;
    try (apply Hkeep; rewrite <- Hr, Hn; by intros [=]).
  - (* still holding: the release closure fires, then the thread ends *)
    pose proof (sim_leave n _ _ s a S Hn eq_refl) as H. destruct H as [Ho' Hr' Hl' Hc' Hh']. split; try done.
    + intros m r. rewrite <- Ho', !set_thread_lookup. by destruct (decide _).
    + intros m. rewrite <- Hr', !set_thread_lookup. by destruct (decide _).
  - (* released before *)
    apply (sim_update n None s _ a); cbn; try done.
    + intros m. apply (set_thread_lookup n None).
    + intros r. rewrite <- (Ho n r), Hn. done.
    + set_solver.
    + set_solver.
Qed.

Lemma sim_step x s a : simulates s a →
  (step x s).1 = (spec_step x a).1 ∧ simulates (step x s).2 (spec_step x a).2.
Proof.
  intros S. pose proof S as [Ho Hr Hl Hc Hh].
  destruct x as [d|n|n|n|n|n|n|n|n|n]; [|by apply sim_acquire| | |by apply sim_finish|by apply sim_acquire|..];
    cbn [step spec_step].
  - split; [done|]. apply (sim_retime s _ a); cbn; try done; [lia|]. destruct (handoff s); [done|lia].
  - by_phase n Job. split; [done|]. apply (sim_retime s _ a); cbn; try done. by rewrite Hc.
  - unfold _release_once. by_phase n Job. split; [done|]. by apply sim_release.
  - by_phase n Control. split; [done|]. apply (sim_update n (Some ControlCleared) s _ a); cbn; try done.
    + intros m. apply (set_thread_lookup n (Some ControlCleared)).
    + intros r. unfold owns; cbn. naive_solver.
    + intros m r Hne. unfold owns; cbn. split; [intros [= ->]; done|]. intros Hm.
      assert (Hown' : owns a n Control) by (apply Ho; by rewrite Hn). by destruct (owns_fun a n m Control r).
    + rewrite <- Hr, Hn. split; [done|]. by intros [=].
    + rewrite Hl. assert (Hown' : owns a n Control) by (apply Ho; by rewrite Hn). unfold owns in Hown'. by rewrite Hown'.
  - by_phase n ControlDone. split; [done|]. by eapply sim_leave.
  - unfold acquire_unless_handoff. destruct (sim_pending s a S) as [Hp S']. destruct (_pending_locked s) as [pending s1].
    cbn in Hp, S'. rewrite <- Hp. destruct pending; [done|]. by apply sim_acquire.
  - by_phase n Renewal. split; [done|]. by eapply sim_leave.
Qed.

Lemma sim_initial : simulates initial mutex_initial.
Proof. by split; cbn. Qed.

(** ** The contract *)
Fixpoint replies {S} (f : action → S → reply * S) (acts : list action) (s : S) : list reply :=
  match acts with [] => [] | x :: acts => let '(r, s) := f x s in r :: replies f acts s end.

Definition spec_run (acts : list action) (a : mutex) : mutex := foldl (λ a x, (spec_step x a).2) a acts.

(** C21: The per-instance lock is a mutex with an owner. For every schedule of
    every number of threads, the lock of the code, which is a boolean that any
    thread's release opens and a deadline that is dropped when somebody happens
    to look, grants, refuses and defers exactly as a mutex that only its owner
    can leave, with a period in which renewal is deferred; and afterwards each
    thread stands as the mutex says. *)
Theorem instance_lock_refines acts :
  replies step acts initial = replies spec_step acts mutex_initial ∧
  simulates (run acts initial) (spec_run acts mutex_initial).
Proof.
  generalize mutex_initial, initial, sim_initial. intros a s S. revert s a S.
  induction acts as [|x acts IH]; intros s a S; [done|]. cbn.
  destruct (sim_step x s a S) as [H1 H2]. destruct (step x s) as [r s1], (spec_step x a) as [r' a1]. cbn in *.
  subst r'. destruct (IH s1 a1 H2) as [-> H]. split; [done|exact H].
Qed.
