(* ===== verification/NodeImages.v ===== *)
(** [cli/greffer_cli/compose.py]: how the updater rewrites the image lines of
    the node's compose file, and the checks it makes on that file.

    A file is the list of its characters as [read_text] returns them, ASCII,
    with every line end already translated to a newline. *)
From Stdlib Require Import Ascii String.
From S2P Require Import Prelude PyValue.
Local Open Scope list_scope.

Notation text := (list ascii).

(** A literal. *)
Definition lit (s : string) : text := list_ascii_of_string s.

(** ** Regular expression pieces *)
Definition is_space : ascii → bool := Text.is_space.
Definition newline : ascii := ascii_of_N 10.

(** Where [str.splitlines] breaks; a carriage return cannot occur. *)
Definition is_break (c : ascii) : bool :=
  let n := N_of_ascii c in (n =? 10)%N || (n =? 11)%N || (n =? 12)%N || ((28 <=? n)%N && (n <=? 30)%N).

Definition name_char (c : ascii) : bool :=
  Text.is_alpha c || Text.is_digit c || Ascii.eqb c "." || Ascii.eqb c "_" || Ascii.eqb c "-".
Definition tag_char (c : ascii) : bool := negb (is_space c) && negb (Ascii.eqb c "@").
Definition hex_char (c : ascii) : bool :=
  let n := N_of_ascii c in
  Text.is_digit c || ((65 <=? n)%N && (n <=? 70)%N) || ((97 <=? n)%N && (n <=? 102)%N).

(** The longest prefix of characters of a class, and the rest. *)
Fixpoint span (f : ascii → bool) (s : text) : text * text :=
  match s with
  | [] => ([], [])
  | c :: s' => if f c then let '(a, b) := span f s' in (c :: a, b) else ([], s)
  end.

Fixpoint strip_prefix (p s : text) : option text :=
  match p, s with
  | [], _ => Some s
  | a :: p, b :: s => if Ascii.eqb a b then strip_prefix p s else None
  | _ :: _, [] => None
  end.

(** [(?::[^\s@]+|@sha256:[0-9a-fA-F]{64})?]: what it takes, and the rest. *)
Definition match_ref (s : text) : text * text :=
  match strip_prefix (lit ":") s with
  | Some r => let '(tag, rest) := span tag_char r in
              if bool_decide (tag = []) then ([], s) else (lit ":" ++ tag, rest)
  | None =>
      match strip_prefix (lit "@sha256:") s with
      | Some r => if bool_decide (length (take 64 r) = 64) && forallb hex_char (take 64 r)
                  then (lit "@sha256:" ++ take 64 r, drop 64 r) else ([], s)
      | None => ([], s)
      end
  end.

(** A match of [_IMAGE_LINE_RE]: the groups [indent], [repo] and [trail], and
    the reference between the last two. *)
Record image_line : Type := ImageLine { indent : text; repo : text; ref : text; trail : text }.

Definition _IMAGE_LINE_RE (line : text) : option image_line :=
  let '(ws1, r) := span is_space line in
  match strip_prefix (lit "image:") r with
  | None => None
  | Some r =>
      let '(ws2, r) := span is_space r in
      match strip_prefix (lit "greffon/") r with
      | None => None
      | Some r =>
          let '(name, r) := span name_char r in
          let '(rf, r) := match_ref r in
          if negb (bool_decide (name = [])) && forallb is_space r
          then Some (ImageLine (ws1 ++ lit "image:" ++ ws2) (lit "greffon/" ++ name) rf r)
          else None
      end
  end.

(** ** Tags *)
Definition is_valid_image_tag (tag : text) : bool :=
  match tag with
  | [] => false
  | c :: rest => (Text.is_alpha c || Text.is_digit c || Ascii.eqb c "_") &&
                 forallb name_char rest && (length rest <=? 127)%nat
  end.

(** ** Rewriting *)
Fixpoint splitlines (s : text) : list text :=
  match s with
  | [] => []
  | c :: s =>
      if is_break c then [c] :: splitlines s
      else match splitlines s with
           | [] => [[c]]
           | l :: ls => (c :: l) :: ls
           end
  end.

(** [s.rstrip(chars)], [s.lstrip(chars)], [s.strip()]. *)
Fixpoint lstrip (f : ascii → bool) (s : text) : text :=
  match s with [] => [] | c :: s' => if f c then lstrip f s' else s end.
Definition rstrip (f : ascii → bool) (s : text) : text := reverse (lstrip f (reverse s)).
Definition strip (s : text) : text := rstrip is_space (lstrip is_space s).
Definition is_newline (c : ascii) : bool := Ascii.eqb c newline.
Definition endswith_newline (s : text) : bool := match last s with Some c => is_newline c | None => false end.

Notation refs := (gmap (list ascii) (list ascii)).

(** One line: what it becomes, and the reference it held. *)
Definition rewrite_line (resolve : text → text → option text) (line : text) : text * option (text * text) :=
  let nl := if endswith_newline line then [newline] else [] in
  match _IMAGE_LINE_RE (rstrip is_newline line) with
  | None => (line, None)
  | Some m =>
      let old_ref := strip (drop (length (lit "image:")) (strip line)) in
      (match resolve (repo m) old_ref with
       | None => line
       | Some new_ref => indent m ++ new_ref ++ nl
       end, Some (repo m, old_ref))
  end.

Definition _rewrite_image_lines (resolve : text → text → option text) (file : text) : text * refs :=
  let results := rewrite_line resolve <$> splitlines file in
  (concat results.*1,
   foldl (λ old r, match r with Some (repo, old_ref) => <[repo := old_ref]> old | None => old end)
         ∅ results.*2).

(** [None]: ValueError, nothing written. *)
Definition set_image_tag (target file : text) : option (text * refs) :=
  if is_valid_image_tag target
  then Some (_rewrite_image_lines (λ repo _, Some (repo ++ lit ":" ++ target)) file)
  else None.

Definition set_image_refs (rs : refs) (file : text) : text :=
  fst (_rewrite_image_lines (λ repo _, rs !! repo) file).

(** ** Checks on the file *)

(** [[A-Za-z0-9][A-Za-z0-9_.-]*], the whole of it *)
Definition volume_name (s : text) : bool :=
  match s with
  | [] => false
  | c :: s => (Text.is_alpha c || Text.is_digit c) && forallb name_char s
  end.

Definition opt_char (c : ascii) : bool := Text.is_alpha c || Ascii.eqb c ",".
Definition src_char (c : ascii) : bool := negb (is_space c) && negb (Ascii.eqb c ":").

(** [_DATA_MOUNT_RE]: the source of [- <source>:/data[:opts]]. *)
Definition _DATA_MOUNT_RE (line : text) : option text :=
  let '(_, r) := span is_space line in
  match strip_prefix (lit "-") r with
  | None => None
  | Some r =>
      let '(_, r) := span is_space r in
      let '(src, r) := span src_char r in
      if bool_decide (src = []) then None else
      match strip_prefix (lit ":/data") r with
      | None => None
      | Some r =>
          let r := match strip_prefix (lit ":") r with
                   | Some r' => let '(opts, r'') := span opt_char r' in
                                if bool_decide (opts = []) then r else r''
                   | None => r end in
          if forallb is_space r then Some src else None
      end
  end.

Definition without_break (line : text) : text := rstrip is_break line.

Definition data_mount (file : text) : option text :=
  head (omap (λ line, _DATA_MOUNT_RE (without_break line)) (splitlines file)).

Definition data_volume_is_named (file : text) : bool :=
  match data_mount file with Some src => volume_name src | None => false end.

(** [name:\s*(\S+)\s*$] *)
Definition project_of_line (line : text) : option text :=
  match strip_prefix (lit "name:") line with
  | None => None
  | Some r =>
      let '(_, r) := span is_space r in
      let '(name, r) := span (λ c, negb (is_space c)) r in
      if negb (bool_decide (name = [])) && forallb is_space r then Some name else None
  end.
Definition _compose_project_name (file : text) : option text :=
  head (omap (λ line, project_of_line (without_break line)) (splitlines file)).

(** The volume whose mountpoint holds the update lock. *)
Definition data_volume (file : text) : option text :=
  match _compose_project_name file, data_mount file with
  | Some project, Some src => if volume_name src then Some (project ++ lit "_" ++ src) else None
  | _, _ => None
  end.

(** ** The pieces *)
Definition all (f : ascii → bool) (s : text) : Prop := Forall (λ c, f c = true) s.
Definition stops (f : ascii → bool) (s : text) : Prop :=
  match s with [] => True | c :: _ => f c = false end.

Lemma all_app f a b : all f (a ++ b) ↔ all f a ∧ all f b.
Proof. apply Forall_app. Qed.

Lemma forallb_all f s : forallb f s = true ↔ all f s.
Proof. unfold all. rewrite forallb_forall, Forall_forall. by setoid_rewrite list_elem_of_In. Qed.

Lemma span_app f a b : all f a → stops f b → span f (a ++ b) = (a, b).
Proof.
  intros Ha Hb. induction Ha as [|c a Hc _ IH]; cbn.
  - destruct b as [|c b]; [done|]. cbn in *. by rewrite Hb.
  - by rewrite Hc, IH.
Qed.

Lemma span_spec f s : s = (span f s).1 ++ (span f s).2 ∧ all f (span f s).1 ∧ stops f (span f s).2.
Proof.
  unfold all. induction s as [|c s (IH1 & IH2 & IH3)]; cbn; [by repeat constructor|].
  destruct (f c) eqn:Hc; [|by repeat constructor]. destruct (span f s) as [a b]. cbn in *.
  split_and!; [by f_equal|by constructor|done].
Qed.

Lemma strip_prefix_app p s : strip_prefix p (p ++ s) = Some s.
Proof. induction p as [|c p IH]; [done|]. cbn. by rewrite Ascii.eqb_refl. Qed.

Lemma strip_prefix_ne a p b s : a ≠ b → strip_prefix (a :: p) (b :: s) = None.
Proof. intros H. cbn. by destruct (Ascii.eqb_spec a b). Qed.

Lemma strip_prefix_Some p s r : strip_prefix p s = Some r → s = p ++ r.
Proof.
  revert s. induction p as [|c p IH]; intros [|d s]; cbn; try done; [by intros [= ->]..|].
  destruct (Ascii.eqb_spec c d); [|done]. intros H. subst. f_equal. by apply IH.
Qed.

Lemma lstrip_app f a b : all f a → stops f b → lstrip f (a ++ b) = b.
Proof.
  intros Ha Hb. induction Ha as [|c a Hc _ IH]; cbn; [|by rewrite Hc].
  destruct b; [done|]. cbn in *. by rewrite Hb.
Qed.

Lemma all_reverse f a : all f a → all f (reverse a).
Proof. unfold all. by rewrite Forall_reverse. Qed.

Lemma rstrip_app f a b : all f b → stops f (reverse a) → rstrip f (a ++ b) = a.
Proof.
  intros Hb Ha. unfold rstrip. rewrite reverse_app, lstrip_app, reverse_involutive; [done| |done].
  by apply all_reverse.
Qed.

(** A text that begins and ends with characters outside of [f]. *)
Definition firm (f : ascii → bool) (s : text) : Prop := stops f s ∧ stops f (reverse s).

Lemma firm_none f s : Forall (λ c, f c = false) s → firm f s.
Proof.
  intros H. split; [by destruct H|]. rewrite <- Forall_reverse in H. by destruct H.
Qed.

Lemma stops_reverse_app f a b : b ≠ [] → stops f (reverse b) → stops f (reverse (a ++ b)).
Proof.
  intros Hb. rewrite reverse_app. destruct (reverse b) eqn:Hr; [|done].
  apply (f_equal reverse) in Hr. by rewrite reverse_involutive in Hr.
Qed.

Lemma strip_app a b c : all is_space a → all is_space c → firm is_space b → strip (a ++ b ++ c) = b.
Proof.
  intros Ha Hc [Hb1 Hb2]. unfold strip. destruct b as [|x b].
  - cbn. assert (H : lstrip is_space (a ++ c) = []).
    { rewrite <- (app_nil_r (a ++ c)). apply lstrip_app; [|done]. by apply all_app. }
    by rewrite H.
  - rewrite lstrip_app by done. by apply rstrip_app.
Qed.

(** *** Character classes *)
Ltac classes := unfold name_char, tag_char, hex_char, is_space, is_break, Text.is_space, Text.is_alpha, Text.is_digit.

(** What holds of every character is checked on all of them. *)
Lemma all_chars_dec (P : ascii → bool) :
  forallb P (ascii_of_nat <$> seq 0 256) = true → ∀ c, P c = true.
Proof.
  rewrite forallb_forall. intros H c. apply H. apply list_elem_of_In, list_elem_of_fmap.
  exists (nat_of_ascii c). split; [by rewrite ascii_nat_embedding|].
  apply elem_of_seq. pose proof (nat_ascii_bounded c). lia.
Qed.

(** Two classes that no character is in. *)
Lemma disjoint_chars (f g : ascii → bool) :
  forallb (λ c, negb (f c && g c)) (ascii_of_nat <$> seq 0 256) = true → ∀ c, f c = true → g c = false.
Proof. intros H c Hf. pose proof (all_chars_dec _ H c) as Hc. cbn in Hc. rewrite Hf in Hc. by destruct (g c). Qed.

Lemma name_not_space c : name_char c = true → is_space c = false.
Proof. revert c. by apply disjoint_chars. Qed.
Lemma name_not_break c : name_char c = true → is_break c = false.
Proof. revert c. by apply disjoint_chars. Qed.
Lemma name_tag_char c : name_char c = true → tag_char c = true.
Proof.
  intros H. pose proof (disjoint_chars name_char (λ c, negb (tag_char c)) eq_refl c H) as Hc. cbn in Hc.
  by apply negb_false_iff in Hc.
Qed.
Lemma hex_not_space c : hex_char c = true → is_space c = false.
Proof. revert c. by apply disjoint_chars. Qed.
Lemma space_not_name c : is_space c = true → name_char c = false.
Proof. intros H. destruct (name_char c) eqn:Hn; [|done]. apply name_not_space in Hn. congruence. Qed.
Lemma space_not_tag c : is_space c = true → tag_char c = false.
Proof. unfold tag_char. by intros ->. Qed.
Lemma tag_not_space c : tag_char c = true → is_space c = false.
Proof. unfold tag_char. by destruct (is_space c). Qed.

Lemma all_none f g s : (∀ c, f c = true → g c = false) → all f s → Forall (λ c, g c = false) s.
Proof. intros H Hs. eapply Forall_impl; [exact Hs|]. auto. Qed.

Lemma all_impl f g s : (∀ c, f c = true → g c = true) → all f s → all g s.
Proof. intros H Hs. eapply Forall_impl; [exact Hs|]. auto. Qed.

Lemma stops_all f g s : (∀ c, f c = true → g c = false) → all f s → stops g s.
Proof. intros H Hs. destruct Hs; cbn; auto. Qed.

(** ** Image lines *)
Inductive good_ref : text → Prop :=
  | ref_none : good_ref []
  | ref_tag t : t ≠ [] → all tag_char t → good_ref (lit ":" ++ t)
  | ref_digest h : length h = 64 → all hex_char h → good_ref (lit "@sha256:" ++ h).

Record good_line (m : image_line) : Prop := {
  gl_indent : ∃ ws1 ws2, indent m = ws1 ++ lit "image:" ++ ws2 ∧ all is_space ws1 ∧ all is_space ws2;
  gl_repo : ∃ name, repo m = lit "greffon/" ++ name ∧ name ≠ [] ∧ all name_char name;
  gl_ref : good_ref (ref m);
  gl_trail : all is_space (trail m) }.

Definition image_text (m : image_line) : text := indent m ++ repo m ++ ref m ++ trail m.

Lemma match_ref_sound s : s = (match_ref s).1 ++ (match_ref s).2 ∧ good_ref (match_ref s).1.
Proof.
  unfold match_ref. destruct (strip_prefix (lit ":") s) as [r|] eqn:H1.
  - apply strip_prefix_Some in H1. destruct (span_spec tag_char r) as (Hr & Ht & _).
    destruct (span tag_char r) as [t rest]. cbn in *. case_bool_decide; cbn; [by split; [|constructor]|].
    split; [by rewrite H1, Hr|]. by constructor.
  - destruct (strip_prefix (lit "@sha256:") s) as [r|] eqn:H2; [|by split; [|constructor]].
    apply strip_prefix_Some in H2. destruct (bool_decide _ && _) eqn:Hb; [|by split; [|constructor]].
    apply andb_prop in Hb as [Hl%bool_decide_eq_true Hh%forallb_all]. cbn [fst snd].
    split; [by rewrite H2, <- app_assoc, take_drop|]. by constructor.
Qed.

Lemma match_ref_complete rf tl : good_ref rf → all is_space tl → match_ref (rf ++ tl) = (rf, tl).
Proof.
  intros Hr Ht. unfold match_ref. destruct Hr as [|t Hne Ha|h Hl Ha].
  - destruct tl as [|c tl]; [done|]. inversion_clear Ht as [|? ? Hc _]. cbn [app].
    rewrite (strip_prefix_ne ":" []), (strip_prefix_ne "@" (lit "sha256:")); [done|..];
      intros <-; discriminate Hc.
  - rewrite <- app_assoc, strip_prefix_app, span_app; [|done|by eapply stops_all; [apply space_not_tag|]].
    by rewrite bool_decide_false.
  - rewrite <- app_assoc. change (strip_prefix (lit ":") _) with (@None text).
    rewrite strip_prefix_app, take_app_length', drop_app_length' by done.
    by rewrite bool_decide_true, (proj2 (forallb_all _ _) Ha).
Qed.

Lemma image_line_sound line m : _IMAGE_LINE_RE line = Some m → line = image_text m ∧ good_line m.
Proof.
  unfold _IMAGE_LINE_RE, image_text. destruct (span_spec is_space line) as (H1 & Hs1 & _).
  destruct (span is_space line) as [ws1 r1]. cbn [fst snd] in *.
  destruct (strip_prefix (lit "image:") r1) as [r2|] eqn:H2; [|done]. apply strip_prefix_Some in H2.
  destruct (span_spec is_space r2) as (H3 & Hs2 & _). destruct (span is_space r2) as [ws2 r3]. cbn [fst snd] in *.
  destruct (strip_prefix (lit "greffon/") r3) as [r4|] eqn:H4; [|done]. apply strip_prefix_Some in H4.
  destruct (span_spec name_char r4) as (H5 & Hn & _). destruct (span name_char r4) as [name r5]. cbn [fst snd] in *.
  destruct (match_ref_sound r5) as [H6 Hr]. destruct (match_ref r5) as [rf r6]. cbn [fst snd] in *.
  destruct (negb _ && _) eqn:Hb; [|done]. apply andb_prop in Hb as [Hne%negb_true_iff%bool_decide_eq_false Ht%forallb_all].
  intros [= <-]. cbn [indent repo ref trail]. split.
  - by rewrite H1, H2, H3, H4, H5, H6, <- !app_assoc.
  - split; cbn [indent repo ref trail]; [by exists ws1, ws2|by exists name|done|done].
Qed.

Lemma lit_stops f p s : stops f (lit p) → p ≠ ""%string → stops f (lit p ++ s).
Proof. destruct p; [done|]. done. Qed.

Lemma ref_stops_name rf tl : good_ref rf → all is_space tl → stops name_char (rf ++ tl).
Proof.
  intros Hr Ht. destruct Hr as [|t ? ?|h ? ?]; cbn; [|done..].
  eapply stops_all; [apply space_not_name|done].
Qed.

Lemma image_line_complete m : good_line m → _IMAGE_LINE_RE (image_text m) = Some m.
Proof.
  intros [(ws1 & ws2 & Hi & Hs1 & Hs2) (name & Hr & Hne & Hn) Href Ht].
  destruct m as [ind rp rf tl]. cbn [indent repo ref trail] in *. subst ind rp.
  unfold _IMAGE_LINE_RE, image_text. cbn [indent repo ref trail].
  rewrite <- !app_assoc, span_app, strip_prefix_app, span_app, strip_prefix_app, span_app,
    match_ref_complete; try done; [|by apply ref_stops_name].
  by rewrite bool_decide_false, (proj2 (forallb_all _ _) Ht).
Qed.

Lemma good_ref_not_space rf : good_ref rf → Forall (λ c, is_space c = false) rf.
Proof.
  destruct 1 as [|t _ Ha|h _ Ha]; [done|..]; apply Forall_app; (split; [by repeat constructor|]).
  - by eapply all_none; [apply tag_not_space|].
  - by eapply all_none; [apply hex_not_space|].
Qed.

Lemma ref_text_firm m : good_line m → firm is_space (repo m ++ ref m).
Proof.
  intros [_ (name & Hr & _ & Hn) Href _]. apply firm_none. rewrite Hr, !Forall_app.
  split_and!; [by repeat constructor|by eapply all_none; [apply name_not_space|]|by apply good_ref_not_space].
Qed.

(** [line.strip()[len("image:"):].strip()] is the reference. *)
Lemma old_ref_spec m nl : good_line m → all is_space nl →
  strip (drop (length (lit "image:")) (strip (image_text m ++ nl))) = repo m ++ ref m.
Proof.
  intros Hm Hnl. pose proof (ref_text_firm m Hm) as Hf.
  destruct Hm as [(ws1 & ws2 & Hi & Hs1 & Hs2) (name & Hr & _ & Hn) Href Ht].
  assert (H : strip (image_text m ++ nl) = lit "image:" ++ ws2 ++ repo m ++ ref m).
  { replace (image_text m ++ nl) with (ws1 ++ (lit "image:" ++ ws2 ++ repo m ++ ref m) ++ (trail m ++ nl))
      by (unfold image_text; by rewrite Hi, <- !app_assoc).
    apply strip_app; [done|by apply all_app|].
    split; [done|]. rewrite !app_assoc, <- app_assoc.
    apply stops_reverse_app; [by rewrite Hr|apply Hf]. }
  rewrite H, drop_app_length. pose proof (strip_app ws2 (repo m ++ ref m) []) as Hs.
  rewrite app_nil_r in Hs. apply Hs; [done|by constructor|done].
Qed.

(** ** Files of lines *)

(** A file: the bodies of its complete lines, and what follows the last newline. *)
Definition file_of (bodies : list text) (rest : text) : text :=
  concat ((λ b, b ++ [newline]) <$> bodies) ++ rest.
Definition no_break (s : text) : Prop := Forall (λ c, is_break c = false) s.

(** Only newlines break the lines of the file. *)
Definition plain (file : text) : Prop := Forall (λ c, is_break c = true → c = newline) file.

Lemma splitlines_body b s : no_break b → splitlines (b ++ newline :: s) = (b ++ [newline]) :: splitlines s.
Proof. induction 1 as [|c b Hc _ IH]; [done|]. cbn [app splitlines]. by rewrite Hc, IH. Qed.

Lemma splitlines_rest b : no_break b → splitlines b = if bool_decide (b = []) then [] else [b].
Proof.
  induction 1 as [|c b Hc _ IH]; [done|]. cbn [splitlines]. rewrite Hc, IH.
  rewrite (bool_decide_false (c :: b = [])) by done. case_bool_decide; [by subst|done].
Qed.

Lemma splitlines_file bodies rest : Forall no_break bodies → no_break rest →
  splitlines (file_of bodies rest) =
  ((λ b, b ++ [newline]) <$> bodies) ++ (if bool_decide (rest = []) then [] else [rest]).
Proof.
  intros Hb Hr. unfold file_of. induction Hb as [|b bodies Hb _ IH]; [by apply splitlines_rest|].
  cbn [fmap list_fmap concat]. rewrite <- !app_assoc. cbn [app]. by rewrite splitlines_body, IH.
Qed.

(** Every plain file has that form. *)
Lemma plain_file file : plain file →
  ∃ bodies rest, file = file_of bodies rest ∧ Forall no_break bodies ∧ no_break rest.
Proof.
  induction 1 as [|c file Hc _ (bodies & rest & -> & Hb & Hr)].
  { exists [], []. by repeat constructor. }
  destruct (is_break c) eqn:Hbr.
  - rewrite (Hc eq_refl). exists ([] :: bodies), rest. split_and!; [done|constructor; [by constructor|done]|done].
  - destruct bodies as [|b bodies].
    + exists [], (c :: rest). split_and!; [done..|]. by constructor.
    + inversion_clear Hb. exists ((c :: b) :: bodies), rest. split_and!; [done| |done].
      constructor; [by constructor|done].
Qed.

(** What a body becomes. *)
Definition rewrite_body (resolve : text → text → option text) (b : text) : text :=
  match _IMAGE_LINE_RE b with
  | None => b
  | Some m => match resolve (repo m) (repo m ++ ref m) with None => b | Some r => indent m ++ r end
  end.
Definition body_ref (b : text) : option (text * text) :=
  m ← _IMAGE_LINE_RE b; Some (repo m, repo m ++ ref m).

Lemma not_newline c : is_break c = false → is_newline c = false.
Proof. intros H. unfold is_newline. destruct (Ascii.eqb_spec c newline) as [->|]; [discriminate H|done]. Qed.

Lemma no_break_newline b : no_break b → stops is_newline (reverse b).
Proof.
  intros H. apply Forall_reverse in H. destruct H as [|c l Hc _]; [done|]. by apply not_newline.
Qed.

Lemma rstrip_body b : no_break b → rstrip is_newline (b ++ [newline]) = b ∧ rstrip is_newline b = b.
Proof.
  intros H%no_break_newline. split; [apply rstrip_app; [by repeat constructor|done]|].
  rewrite <- (app_nil_r b) at 1. apply rstrip_app; [by constructor|done].
Qed.

Lemma endswith_body b : no_break b → endswith_newline b = false.
Proof.
  intros H. unfold endswith_newline. destruct (last b) as [c|] eqn:Hl; [|done].
  apply last_Some_elem_of in Hl. apply not_newline. by eapply (proj1 (Forall_forall _ _) H).
Qed.

Lemma rewrite_line_body resolve b : no_break b →
  rewrite_line resolve (b ++ [newline]) = (rewrite_body resolve b ++ [newline], body_ref b) ∧
  rewrite_line resolve b = (rewrite_body resolve b, body_ref b).
Proof.
  intros Hb. destruct (rstrip_body b Hb) as [H1 H2]. unfold rewrite_line, rewrite_body, body_ref.
  rewrite H1, H2, (endswith_body b) by done. unfold endswith_newline. rewrite last_snoc. cbn [is_newline].
  destruct (_IMAGE_LINE_RE b) as [m|] eqn:Hm; [|done]. cbn [mbind option_bind].
  apply image_line_sound in Hm as [-> Hm]. rewrite old_ref_spec by (done || by repeat constructor).
  replace (strip (drop _ (strip (image_text m)))) with (repo m ++ ref m)
    by (rewrite <- (app_nil_r (image_text m)), old_ref_spec; [done..|by constructor]).
  destruct (resolve _ _); rewrite ?app_nil_r, <- ?app_assoc; done.
Qed.

Definition collect (rs : list (option (text * text))) : refs :=
  foldl (λ old r, match r with Some (repo, old_ref) => <[repo := old_ref]> old | None => old end) ∅ rs.

Lemma rewrite_file resolve bodies rest : Forall no_break bodies → no_break rest →
  _rewrite_image_lines resolve (file_of bodies rest) =
  (file_of (rewrite_body resolve <$> bodies) (rewrite_body resolve rest),
   collect (body_ref <$> (bodies ++ [rest]))).
Proof.
  intros Hb Hr. unfold _rewrite_image_lines. rewrite splitlines_file by done. unfold file_of.
  assert (Hbs : rewrite_line resolve <$> ((λ b, b ++ [newline]) <$> bodies) =
                (λ b, (rewrite_body resolve b ++ [newline], body_ref b)) <$> bodies).
  { rewrite <- list_fmap_compose. apply list_fmap_ext. intros i b Hi.
    apply rewrite_line_body. by eapply Forall_lookup_1. }
  assert (Hrs : rewrite_line resolve <$> (if bool_decide (rest = []) then [] else [rest]) =
                if bool_decide (rest = []) then [] else [(rewrite_body resolve rest, body_ref rest)]).
  { case_bool_decide; [done|]. cbn. f_equal. by apply rewrite_line_body. }
  rewrite fmap_app, Hbs, Hrs, !fmap_app, concat_app, <- !list_fmap_compose. f_equal.
  - f_equal. case_bool_decide; [by subst|]. cbn. by rewrite app_nil_r.
  - unfold collect. rewrite !foldl_app. case_bool_decide; [by subst|done].
Qed.

(** ** Retagging and restoring *)
Definition retag (target : text) (m : image_line) : image_line :=
  ImageLine (indent m) (repo m) (lit ":" ++ target) [].

Lemma valid_tag target : is_valid_image_tag target = true → target ≠ [] ∧ all name_char target.
Proof.
  unfold is_valid_image_tag. destruct target as [|c t]; [done|].
  rewrite !andb_true_iff, forallb_all. intros [[Hc Ht] _]. split; [done|]. constructor; [|done].
  unfold name_char. rewrite !orb_true_iff in *. tauto.
Qed.

Lemma good_retag target m : is_valid_image_tag target = true → good_line m → good_line (retag target m).
Proof.
  intros [Hne Ht]%valid_tag [Hi Hr _ _]. split; cbn; [done..| |by constructor].
  apply (ref_tag target); [done|]. eapply all_impl; [apply name_tag_char|done].
Qed.

Definition tag_of (target : text) : text → text → option text := λ repo _, Some (repo ++ lit ":" ++ target).

Lemma retag_body target b m : is_valid_image_tag target = true → _IMAGE_LINE_RE b = Some m →
  rewrite_body (tag_of target) b = image_text (retag target m) ∧
  _IMAGE_LINE_RE (rewrite_body (tag_of target) b) = Some (retag target m).
Proof.
  intros Ht Hm. assert (H : rewrite_body (tag_of target) b = image_text (retag target m)).
  { unfold rewrite_body, image_text. rewrite Hm. cbn. by rewrite app_nil_r. }
  split; [done|]. rewrite H. apply image_line_complete, good_retag; [done|]. by apply image_line_sound in Hm as [_ ?].
Qed.

Lemma no_break_app a b : no_break (a ++ b) ↔ no_break a ∧ no_break b.
Proof. apply Forall_app. Qed.

Lemma retag_no_break target b : is_valid_image_tag target = true → no_break b →
  no_break (rewrite_body (tag_of target) b).
Proof.
  intros [_ Ht]%valid_tag Hb. unfold rewrite_body. destruct (_IMAGE_LINE_RE b) as [m|] eqn:Hm; [|done].
  apply image_line_sound in Hm as [-> _]. unfold image_text in Hb. rewrite !no_break_app in Hb.
  cbn [tag_of]. unfold tag_of. rewrite !no_break_app. split_and!; try tauto; [by repeat constructor|].
  eapply all_none; [apply name_not_break|done].
Qed.

Lemma rewrite_body_nil resolve b : rewrite_body resolve b = [] → b = [] ∨ ∃ m, _IMAGE_LINE_RE b = Some m.
Proof. unfold rewrite_body. destruct (_IMAGE_LINE_RE b); eauto. Qed.

Lemma retag_nil target b : rewrite_body (tag_of target) b = [] → b = [].
Proof.
  unfold rewrite_body. destruct (_IMAGE_LINE_RE b) as [m|] eqn:Hm; [|done].
  apply image_line_sound in Hm as [_ [(ws1 & ws2 & Hi & _) _ _ _]]. rewrite Hi.
  intros H. apply app_eq_nil in H as [H _]. by destruct ws1.
Qed.

Definition lines_of (bodies : list text) (rest : text) : list text :=
  ((λ b, b ++ [newline]) <$> bodies) ++ (if bool_decide (rest = []) then [] else [rest]).

(** The values the restore needs are the ones that were collected. *)
Lemma collect_lookup rs rp :
  (∀ r1 r2, Some (rp, r1) ∈ rs → Some (rp, r2) ∈ rs → r1 = r2) →
  ∀ r, Some (rp, r) ∈ rs → collect rs !! rp = Some r.
Proof.
  unfold collect. induction rs as [|x rs IH] using rev_ind; intros Hc r Hr; [by apply elem_of_nil in Hr|].
  rewrite foldl_snoc. destruct x as [[rp' r']|].
  - destruct (decide (rp' = rp)) as [->|Hne].
    + rewrite lookup_insert_eq. f_equal. apply Hc; set_solver.
    + rewrite lookup_insert_ne by done. apply IH; [intros ? ? ? ?; apply Hc; set_solver|set_solver].
  - apply IH; [intros ? ? ? ?; apply Hc; set_solver|set_solver].
Qed.

Lemma collect_some rs rp r : Some (rp, r) ∈ rs → is_Some (collect rs !! rp).
Proof.
  unfold collect. induction rs as [|x rs IH] using rev_ind; intros Hr; [by apply elem_of_nil in Hr|].
  rewrite foldl_snoc. destruct x as [[rp' r']|].
  - destruct (decide (rp' = rp)) as [->|Hne]; [rewrite lookup_insert_eq; eauto|].
    rewrite lookup_insert_ne by done. apply IH. set_solver.
  - apply IH. set_solver.
Qed.

Definition image_of (line : text) : option image_line := _IMAGE_LINE_RE (rstrip is_newline line).

(** An update rewrites nothing but image lines. For every tag that is
    accepted and every file whose lines end in newlines, the new file has the
    same lines in the same order: a line that is not a node image is kept as it
    is, and an image line keeps its indentation and repository and names the
    target tag, so a tag can add no line, key or repository; the reference every
    rewritten repository had is remembered. *)
Theorem set_image_tag_pins target file file' rs :
  set_image_tag target file = Some (file', rs) → plain file →
  Forall2 (λ l l', match image_of l with
    | None => l' = l
    | Some m => image_of l' = Some (retag target m) ∧ endswith_newline l' = endswith_newline l ∧
                is_Some (rs !! repo m)
    end) (splitlines file) (splitlines file').
Proof.
  unfold set_image_tag. destruct (is_valid_image_tag target) eqn:Ht; [|done]. intros H%(inj Some) Hp.
  destruct (plain_file file Hp) as (bodies & rest & -> & Hb & Hr). fold (tag_of target) in H.
  rewrite rewrite_file in H by done. injection H as <- <-.
  assert (Hb' : Forall no_break (rewrite_body (tag_of target) <$> bodies)).
  { apply Forall_fmap. eapply Forall_impl; [exact Hb|]. intros b. by apply retag_no_break. }
  rewrite !splitlines_file by (done || by apply retag_no_break).
  assert (Hbody : ∀ b, b ∈ bodies ++ [rest] → no_break b → match _IMAGE_LINE_RE b with
    | None => rewrite_body (tag_of target) b = b
    | Some m => _IMAGE_LINE_RE (rewrite_body (tag_of target) b) = Some (retag target m) ∧
                is_Some (collect (body_ref <$> (bodies ++ [rest])) !! repo m)
    end).
  { intros b Hin _. destruct (_IMAGE_LINE_RE b) as [m|] eqn:Hm; [|by unfold rewrite_body; rewrite Hm].
    split; [by eapply retag_body|]. apply (collect_some _ _ (repo m ++ ref m)).
    apply list_elem_of_fmap. exists b. split; [|done]. unfold body_ref. by rewrite Hm. }
  apply Forall2_app.
  - rewrite <- list_fmap_compose. apply Forall2_fmap_2, Forall_Forall2_diag, Forall_forall. intros b Hin.
    pose proof (proj1 (Forall_forall _ _) Hb b Hin) as Hnb.
    specialize (Hbody b ltac:(set_solver) Hnb). unfold image_of, compose.
    rewrite (proj1 (rstrip_body b Hnb)), (proj1 (rstrip_body _ (retag_no_break _ _ Ht Hnb))).
    destruct (_IMAGE_LINE_RE b); [|by rewrite Hbody]. destruct Hbody.
    unfold endswith_newline. rewrite !last_snoc. auto.
  - specialize (Hbody rest ltac:(set_solver) Hr). case_bool_decide as He.
    { subst. by constructor. }
    rewrite bool_decide_false by (by intros ?%retag_nil). constructor; [|done]. unfold image_of.
    rewrite (proj2 (rstrip_body _ Hr)), (proj2 (rstrip_body _ (retag_no_break _ _ Ht Hr))).
    rewrite !endswith_body by (done || by apply retag_no_break).
    destruct (_IMAGE_LINE_RE rest); [naive_solver|done].
Qed.

(** A file as the installer renders it: newlines only, no blanks after an image,
    one reference per repository. *)
Record rendered (file : text) : Prop := {
  rd_plain : plain file;
  rd_trail l m : l ∈ splitlines file → image_of l = Some m → trail m = [];
  rd_one l1 l2 m1 m2 : l1 ∈ splitlines file → l2 ∈ splitlines file →
    image_of l1 = Some m1 → image_of l2 = Some m2 → repo m1 = repo m2 → ref m1 = ref m2 }.

Lemma rendered_bodies bodies rest :
  Forall no_break bodies → no_break rest → rendered (file_of bodies rest) →
  (∀ b m, b ∈ bodies ++ [rest] → _IMAGE_LINE_RE b = Some m → trail m = []) ∧
  (∀ b1 b2 m1 m2, b1 ∈ bodies ++ [rest] → b2 ∈ bodies ++ [rest] →
     _IMAGE_LINE_RE b1 = Some m1 → _IMAGE_LINE_RE b2 = Some m2 → repo m1 = repo m2 → ref m1 = ref m2).
Proof.
  intros Hb Hr [_ H1 H2].
  assert (Hin : ∀ b m, b ∈ bodies ++ [rest] → _IMAGE_LINE_RE b = Some m →
    ∃ l, l ∈ splitlines (file_of bodies rest) ∧ image_of l = Some m).
  { intros b m Hin Hm. rewrite splitlines_file by done. apply elem_of_app in Hin as [Hin|Hin].
    - exists (b ++ [newline]). split; [apply elem_of_app; left; apply list_elem_of_fmap; eauto|].
      unfold image_of. by rewrite (proj1 (rstrip_body b (proj1 (Forall_forall _ _) Hb b Hin))).
    - apply list_elem_of_singleton in Hin as ->. exists rest. rewrite bool_decide_false.
      + split; [apply elem_of_app; right; by left|]. unfold image_of. by rewrite (proj2 (rstrip_body _ Hr)).
      + intros ->. discriminate Hm. }
  split.
  - intros b m Hb' Hm. destruct (Hin b m Hb' Hm) as (l & Hl & Hi). eauto.
  - intros b1 b2 m1 m2 Hb1 Hb2 Hm1 Hm2. destruct (Hin _ _ Hb1 Hm1) as (? & ? & ?), (Hin _ _ Hb2 Hm2) as (? & ? & ?). eauto.
Qed.

(** What is remembered of a body, when each repository has one reference. *)
Lemma collected_ref bodies b m :
  (∀ b1 b2 m1 m2, b1 ∈ bodies → b2 ∈ bodies → _IMAGE_LINE_RE b1 = Some m1 → _IMAGE_LINE_RE b2 = Some m2 →
     repo m1 = repo m2 → ref m1 = ref m2) →
  b ∈ bodies → _IMAGE_LINE_RE b = Some m →
  collect (body_ref <$> bodies) !! repo m = Some (repo m ++ ref m).
Proof.
  intros Hone Hin Hm. apply collect_lookup.
  - intros r1 r2 (b1 & H1 & Hb1)%list_elem_of_fmap (b2 & H2 & Hb2)%list_elem_of_fmap.
    unfold body_ref in H1, H2.
    destruct (_IMAGE_LINE_RE b1) as [m1|] eqn:Hm1; [|done]. destruct (_IMAGE_LINE_RE b2) as [m2|] eqn:Hm2; [|done].
    cbn in H1, H2. injection H1 as Hr1 ->. injection H2 as Hr2 ->. f_equal; [congruence|].
    apply (Hone b1 b2); congruence || done.
  - apply list_elem_of_fmap. exists b. split; [|done]. unfold body_ref. by rewrite Hm.
Qed.

(** Restoring a rendered file that is already as it was changes nothing. *)
Lemma set_image_refs_id file : rendered file →
  set_image_refs (snd (_rewrite_image_lines (λ _ _, None) file)) file = file.
Proof.
  intros Hrd. destruct (plain_file file (rd_plain _ Hrd)) as (bodies & rest & -> & Hb & Hr).
  destruct (rendered_bodies _ _ Hb Hr Hrd) as [Htrail Hone]. unfold set_image_refs.
  rewrite !rewrite_file by done. cbn [fst snd].
  assert (Hback : ∀ b, b ∈ bodies ++ [rest] →
    rewrite_body (λ repo _, collect (body_ref <$> (bodies ++ [rest])) !! repo) b = b).
  { intros b Hin. unfold rewrite_body. destruct (_IMAGE_LINE_RE b) as [m|] eqn:Hm; [|done].
    rewrite (collected_ref _ b m Hone Hin Hm). pose proof (Htrail b m Hin Hm) as Htr.
    apply image_line_sound in Hm as [-> _]. unfold image_text. by rewrite Htr, app_nil_r. }
  f_equal; [|apply Hback, elem_of_app; right; by left].
  etransitivity; [|apply list_fmap_id]. apply list_fmap_ext. intros i b Hi.
  apply Hback, elem_of_app. left. by eapply list_elem_of_lookup_2.
Qed.

(** The references do not depend on what the lines become. *)
Lemma refs_collected r1 r2 file : snd (_rewrite_image_lines r1 file) = snd (_rewrite_image_lines r2 file).
Proof.
  unfold _rewrite_image_lines. cbn [snd]. f_equal. rewrite <- !list_fmap_compose. apply list_fmap_ext.
  intros i l _. cbn. unfold rewrite_line. by destruct (_IMAGE_LINE_RE _).
Qed.

Lemma restore_file target file file' rs :
  set_image_tag target file = Some (file', rs) → rendered file →
  set_image_refs rs file' = file.
Proof.
  unfold set_image_tag. destruct (is_valid_image_tag target) eqn:Ht; [|done]. intros H%(inj Some) Hrd.
  destruct (plain_file file (rd_plain _ Hrd)) as (bodies & rest & -> & Hb & Hr).
  destruct (rendered_bodies _ _ Hb Hr Hrd) as [Htrail Hone]. fold (tag_of target) in H.
  rewrite rewrite_file in H by done. injection H as <- <-.
  set (rs := collect _).
  assert (Hb' : Forall no_break (rewrite_body (tag_of target) <$> bodies)).
  { apply Forall_fmap. eapply Forall_impl; [exact Hb|]. intros b. by apply retag_no_break. }
  unfold set_image_refs. rewrite rewrite_file by (done || by apply retag_no_break). cbn [fst].
  assert (Hback : ∀ b, b ∈ bodies ++ [rest] →
    rewrite_body (λ repo _, rs !! repo) (rewrite_body (tag_of target) b) = b).
  { intros b Hin. destruct (_IMAGE_LINE_RE b) as [m|] eqn:Hm.
    - destruct (retag_body target b m Ht Hm) as [_ Hm']. unfold rewrite_body at 1. rewrite Hm'. cbn [repo retag].
      assert (Hlook : rs !! repo m = Some (repo m ++ ref m)) by (by eapply collected_ref).
      rewrite Hlook. pose proof (Htrail b m Hin Hm) as Htr. apply image_line_sound in Hm as [-> _].
      unfold image_text. cbn [indent retag]. by rewrite Htr, app_nil_r.
    - unfold rewrite_body. by rewrite Hm, Hm. }
  f_equal.
  - rewrite <- list_fmap_compose. etransitivity; [|apply list_fmap_id]. apply list_fmap_ext. intros i b Hi.
    apply Hback, elem_of_app. left. by eapply list_elem_of_lookup_2.
  - apply Hback, elem_of_app. right. by left.
Qed.

Lemma restore_twice target file file' rs :
  set_image_tag target file = Some (file', rs) → rendered file → set_image_refs rs file = file.
Proof.
  unfold set_image_tag. destruct (is_valid_image_tag target); [|done]. intros H%(inj Some) Hrd.
  rewrite <- (set_image_refs_id file Hrd) at 2. f_equal.
  change rs with (file', rs).2. rewrite <- H. apply refs_collected.
Qed.

(** A rollback restores the file. Rewriting a rendered file to any accepted
    tag and then the image lines to the remembered references gives back the
    file, character for character; and doing so once more changes nothing. *)
Theorem set_image_refs_restores target file file' rs :
  set_image_tag target file = Some (file', rs) → rendered file →
  set_image_refs rs file' = file ∧ set_image_refs rs file = file.
Proof.
  intros H Hrd. split; [by eapply restore_file|by eapply restore_twice].
Qed.

(** ** An example *)
Definition demo_file : text := lit "name: greffer
services:
  greffer:
    image: greffon/greffer:0.5.0
    volumes:
      - greffon-data:/data
  nginx:
    image: greffon/greffer-nginx:0.5.0
".

Lemma set_image_tag_pins_witness : Forall2 (λ l l', match image_of l with
    | None => l' = l
    | Some m => image_of l' = Some (retag (lit "0.9.0") m) ∧ endswith_newline l' = endswith_newline l ∧
                is_Some (default ∅ (snd <$> set_image_tag (lit "0.9.0") demo_file) !! repo m)
    end) (splitlines demo_file) (splitlines (default [] (fst <$> set_image_tag (lit "0.9.0") demo_file))).
Proof.
  apply (set_image_tag_pins (lit "0.9.0") demo_file); [vm_compute; reflexivity|].
  refine (bool_decide_eq_true_1 _ _). vm_compute. reflexivity.
Defined.

Lemma demo_rendered : rendered demo_file.
Proof.
  split.
  - refine (bool_decide_eq_true_1 _ _). vm_compute. reflexivity.
  - assert (H : Forall (λ l, match image_of l with Some m => trail m = [] | None => True end) (splitlines demo_file))
      by (vm_compute; repeat constructor).
    intros l m Hl Hm. eapply Forall_forall in H; [|exact Hl]. cbn in H. by rewrite Hm in H.
  - assert (H : Forall (λ l, match image_of l with
        | Some m => ref m = lit ":0.5.0" | None => True end) (splitlines demo_file))
      by (vm_compute; repeat constructor).
    intros l1 l2 m1 m2 H1 H2 Hm1 Hm2 _.
    pose proof (proj1 (Forall_forall _ _) H l1 H1) as E1. pose proof (proj1 (Forall_forall _ _) H l2 H2) as E2.
    cbn in E1, E2. rewrite Hm1 in E1. rewrite Hm2 in E2. congruence.
Qed.

Lemma set_image_refs_restores_witness :
  let r := set_image_tag (lit "0.9.0") demo_file in
  set_image_refs (default ∅ (snd <$> r)) (default [] (fst <$> r)) = demo_file ∧
  set_image_refs (default ∅ (snd <$> r)) demo_file = demo_file.
Proof.
  intros r. apply (set_image_refs_restores (lit "0.9.0")); [vm_compute; reflexivity|exact demo_rendered].
Defined.
