(* ===== verification/EnvFile.v ===== *)
(** [cli/greffer_cli/env_file.py]: the operator's [env.env], its parser and its
    writer. Text is as in [NodeImages]: lines end in a newline, which is what
    reading the file in text mode gives. *)
From Stdlib Require Import Ascii String.
From stdpp Require Import sorting.
From S2P Require Import Prelude PyValue NodeImages.
Local Open Scope list_scope.

Definition quote : ascii := ascii_of_N 34.
Definition backslash : ascii := ascii_of_N 92.
Definition is_quote (c : ascii) : bool := Ascii.eqb c quote.
Definition is_upper (c : ascii) : bool := let n := N_of_ascii c in (65 <=? n)%N && (n <=? 90)%N.
Definition key_start (c : ascii) : bool := is_upper c || Ascii.eqb c "_".
Definition key_char (c : ascii) : bool := key_start c || Text.is_digit c.

Notation values := (gmap (list ascii) (list ascii)).

(** ** Reading *)

(** An optional quote, then blanks up to the end. *)
Definition value_ends (s : text) : bool :=
  forallb is_space s || match s with c :: s => is_quote c && forallb is_space s | [] => false end.

(** The value: any characters, as few as possible before that. *)
Fixpoint lazy_value (s : text) : option text :=
  if value_ends s then Some []
  else match s with
       | [] => None
       | c :: s => if is_newline c then None else cons c <$> lazy_value s
       end.

(** A key in capitals, an equals sign, and the value between optional quotes. *)
Definition _LINE_RE (line : text) : option (text * text) :=
  let '(_, r) := span is_space line in
  if negb (match r with c :: _ => key_start c | [] => false end) then None
  else
    let '(key, r) := span key_char r in
    let '(_, r) := span is_space r in
    r ← strip_prefix (lit "=") r;
    let '(_, r) := span is_space r in
    let r := match r with c :: r' => if is_quote c then r' else r | [] => [] end in
    v ← lazy_value r;
    Some (key, v).

Definition from_line (line : text) : option (text * text) :=
  let stripped := strip line in
  match stripped with
  | [] => None
  | c :: _ => if Ascii.eqb c "#" then None else _LINE_RE stripped
  end.

(** A later line overrides an earlier one. *)
Definition read_line (vs : values) (line : text) : values :=
  match from_line line with Some (k, v) => <[k := v]> vs | None => vs end.
Definition from_text (s : text) : values := foldl read_line ∅ (splitlines s).

(** ** Writing *)

(** Strings in the order of their characters. *)
Fixpoint text_le (a b : text) : bool :=
  match a, b with
  | [], _ => true
  | _ :: _, [] => false
  | c :: a, d :: b => (N_of_ascii c <? N_of_ascii d)%N || (Ascii.eqb c d && text_le a b)
  end.

(** The value with a backslash before each quote. *)
Definition escaped (value : text) : text := value ≫= λ c, if is_quote c then [backslash; quote] else [c].

Definition to_line (k v : text) : text := k ++ lit "=" ++ [quote] ++ escaped v ++ [quote].

(** [sep.join(lines)] *)
Fixpoint join (sep : text) (lines : list text) : text :=
  match lines with
  | [] => []
  | [l] => l
  | l :: lines => l ++ sep ++ join sep lines
  end.

Definition to_text (vs : values) : text :=
  join [newline] ((λ k, to_line k (default [] (vs !! k))) <$> merge_sort (λ a b, Is_true (text_le a b)) (elements (dom vs)))
  ++ [newline].

(** ** Names and values that stay on their line *)
Definition good_key (k : text) : Prop := match k with c :: _ => key_start c = true | [] => False end ∧ all key_char k.
Record good (vs : values) : Prop := {
  good_keys k v : vs !! k = Some v → good_key k;
  good_values k v : vs !! k = Some v → no_break v }.

Lemma key_not_space c : key_char c = true → is_space c = false.
Proof. revert c. by apply disjoint_chars. Qed.
Lemma key_not_break c : key_char c = true → is_break c = false.
Proof. revert c. by apply disjoint_chars. Qed.
Lemma key_not_hash c : key_char c = true → Ascii.eqb c "#" = false.
Proof. revert c. by apply (disjoint_chars _ (λ c, Ascii.eqb c "#")). Qed.

(** The shortest value before a last quote is everything before it. *)
Lemma lazy_before_quote s : no_break s → lazy_value (s ++ [quote]) = Some s.
Proof.
  induction 1 as [|c s Hc Hs IH]; [done|].
  assert (He : value_ends ((c :: s) ++ [quote]) = false).
  { unfold value_ends. rewrite forallb_app. cbn [app forallb]. rewrite !andb_false_r. cbn [orb].
    rewrite forallb_app. cbn [forallb]. by rewrite !andb_false_r. }
  cbn [app] in *. cbn [lazy_value]. rewrite He. rewrite (not_newline c Hc), IH. done.
Qed.

Lemma escaped_no_break v : no_break v → no_break (escaped v).
Proof.
  unfold escaped. induction 1 as [|c v Hc _ IH]; [constructor|]. cbn. apply Forall_app. split; [|exact IH].
  destruct (is_quote c); repeat constructor; done.
Qed.

Lemma escaped_id v : quote ∉ v → escaped v = v.
Proof.
  induction v as [|c v IH]; [done|]. intros [Hc Hq]%not_elem_of_cons.
  change (escaped (c :: v)) with ((if is_quote c then [backslash; quote] else [c]) ++ escaped v).
  unfold is_quote. destruct (Ascii.eqb_spec c quote); [congruence|]. cbn. by rewrite IH.
Qed.

Lemma to_line_no_break k v : good_key k → no_break v → no_break (to_line k v).
Proof.
  intros [_ Hk] Hv. unfold to_line. repeat (apply no_break_app; split); try (by repeat constructor).
  - eapply Forall_impl; [exact Hk|]. apply key_not_break.
  - by apply escaped_no_break.
Qed.

Lemma span_stop f s : stops f s → span f s = ([], s).
Proof. apply (span_app f []). constructor. Qed.

(** A written line reads back, with its escapes. *)
Lemma from_to_line k v nl : good_key k → no_break v → all is_space nl →
  from_line (to_line k v ++ nl) = Some (k, escaped v).
Proof.
  intros [Hs Hk] Hv Hnl. unfold from_line.
  assert (Hstrip : strip (to_line k v ++ nl) = to_line k v).
  { rewrite <- (app_nil_l (to_line k v ++ nl)). apply strip_app; [by constructor|done|].
    unfold to_line. split.
    - destruct k as [|c k]; [done|]. cbn. apply Forall_cons in Hk as [Hc _]. by apply key_not_space.
    - rewrite !app_assoc, reverse_app. done. }
  rewrite Hstrip. destruct k as [|c k]; [done|]. pose proof (proj1 (proj1 (Forall_cons _ _ _) Hk)) as Hc.
  assert (Hline : to_line (c :: k) v = c :: k ++ lit "=" ++ quote :: escaped v ++ [quote]) by done.
  rewrite Hline, (key_not_hash c Hc). unfold _LINE_RE. rewrite span_stop by by apply key_not_space.
  rewrite Hs. cbn [negb]. change (c :: k ++ ?r) with ((c :: k) ++ r). rewrite (span_app key_char (c :: k)) by done.
  rewrite span_stop by done. rewrite (strip_prefix_app (lit "=")). cbn [mbind option_bind].
  rewrite span_stop by done. change (is_quote quote) with true. cbn iota.
  by rewrite lazy_before_quote by by apply escaped_no_break.
Qed.

(** ** Writing and reading back *)
Lemma join_file lines : lines ≠ [] → join [newline] lines ++ [newline] = file_of lines [].
Proof.
  unfold file_of. rewrite app_nil_r. induction lines as [|l lines IH]; [done|]. intros _. destruct lines as [|l' lines].
  - cbn. by rewrite app_nil_r.
  - change (join [newline] (l :: l' :: lines)) with (l ++ [newline] ++ join [newline] (l' :: lines)).
    rewrite <- !app_assoc, IH by done. cbn. by rewrite <- !app_assoc.
Qed.

(** Reading the lines of some keys, one after the other. *)
Lemma read_lines (vs : values) (ks : list text) (vs0 : values) : good vs → (∀ k, k ∈ ks → is_Some (vs !! k)) → ∀ k : text,
  foldl read_line vs0 ((λ k : text, to_line k (default [] (vs !! k)) ++ [newline]) <$> ks) !! k =
  if decide (k ∈ ks) then escaped <$> vs !! k else vs0 !! k.
Proof.
  intros Hg. revert vs0. induction ks as [|k0 ks IH]; intros vs0 Hks k; cbn [fmap list_fmap foldl].
  { by rewrite decide_False by apply not_elem_of_nil. }
  destruct (Hks k0) as [v Hv]; [left|]. rewrite Hv. cbn [default]. unfold read_line at 2.
  rewrite from_to_line; [|by eapply good_keys|by eapply good_values|by repeat constructor].
  rewrite IH by (intros k' Hk'; apply Hks; by right). destruct (decide (k ∈ ks)) as [Hin|Hin].
  - rewrite decide_True by by right. done.
  - destruct (decide (k = k0)) as [->|Hne].
    + rewrite lookup_insert_eq, decide_True by left. by rewrite Hv.
    + rewrite lookup_insert_ne, decide_False by (done || by intros [->|?]%elem_of_cons). done.
Qed.

(** Reading what was written, escapes and all. *)
Lemma from_to_text vs : good vs → from_text (to_text vs) = escaped <$> vs.
Proof.
  intros Hg. unfold from_text, to_text. set (ks := merge_sort _ _).
  assert (Hks : ∀ k, k ∈ ks ↔ is_Some (vs !! k)).
  { intros k. unfold ks. rewrite merge_sort_Permutation, elem_of_elements. apply elem_of_dom. }
  apply map_eq. intros k. rewrite lookup_fmap. destruct (decide (ks = [])) as [He|Hne].
  - rewrite He. destruct (vs !! k) eqn:Hk; [|done]. destruct (not_elem_of_nil k). rewrite <- He. apply Hks. eauto.
  - rewrite join_file by by destruct ks. rewrite splitlines_file; [|apply Forall_fmap, Forall_forall|constructor].
    + rewrite app_nil_r, <- list_fmap_compose. rewrite (read_lines vs ks ∅ Hg) by by intros k' ?%Hks.
      destruct (decide (k ∈ ks)) as [|Hk]; [done|]. rewrite Hks, <- eq_None_not_Some in Hk. by rewrite Hk, lookup_empty.
    + intros k' [v Hv]%Hks. cbn. rewrite Hv. apply to_line_no_break; [by eapply good_keys|by eapply good_values].
Qed.

Lemma escaped_all (vs : values) : (∀ k v, vs !! k = Some v → quote ∉ v) → escaped <$> vs = vs.
Proof.
  intros Hq. apply map_eq. intros k. rewrite lookup_fmap. destruct (vs !! k) as [v|] eqn:Hv; [|done].
  cbn. f_equal. by apply escaped_id, (Hq k).
Qed.

(** C40: For any settings of ASCII text whose names are a capital or an underscore and
    then capitals, digits and underscores, and whose values hold no line break, reading
    what was written gives the same settings, whatever else the values hold, but for
    a backslash in front of each double quote, which the writer adds and the reader
    does not take away; values without double quotes come back exactly. The
    conditions are needed, and [greffer up] checks neither: a value with a line break
    comes back cut ([newline_cut]), and an address may end in one
    ([Cli.Demo.address_newline]). *)
Theorem env_file_roundtrip vs : good vs →
  from_text (to_text vs) = escaped <$> vs ∧
  ((∀ k v, vs !! k = Some v → quote ∉ v) → from_text (to_text vs) = vs).
Proof.
  intros Hg. split; [by apply from_to_text|]. intros Hq. by rewrite from_to_text, escaped_all.
Qed.

(** ** An example *)
#[export] Instance good_key_dec k : Decision (good_key k).
Proof. unfold good_key, all. destruct k; apply _. Defined.
#[export] Instance no_break_dec s : Decision (no_break s).
Proof. unfold no_break. apply _. Defined.

Definition demo_env : values :=
  {[lit "GREFFER_ID" := lit "0b8f"; lit "GREFFER_MODE" := lit "tunnel"; lit "NOTE" := lit " a # b=c "]}.
Definition demo_text : text := lit "GREFFER_ID=" ++ [quote] ++ lit "0b8f" ++ [quote; newline] ++
  lit "GREFFER_MODE=" ++ [quote] ++ lit "tunnel" ++ [quote; newline] ++
  lit "NOTE=" ++ [quote] ++ lit " a # b=c " ++ [quote; newline].

Example env_text : to_text demo_env = demo_text ∧
  from_text (lit "  A = 1
# B=2
export C=3
A=" ++ [quote] ++ lit "4") = {[lit "A" := lit "4"]}.
Proof. split; vm_compute; reflexivity. Qed.

(** A value with a line break comes back without its rest. *)
Example newline_cut :
  from_text (to_text {[lit "GREFFER_ADDRESS" := lit "node.example.org" ++ [newline]; lit "GREFFER_ID" := lit "a" ++ [newline] ++ lit "b"]}) =
  {[lit "GREFFER_ADDRESS" := lit "node.example.org"; lit "GREFFER_ID" := lit "a"]}.
Proof. vm_compute. reflexivity. Qed.

(** Each rewrite of the file adds another backslash. *)
Example quote_grows :
  let vs := {[lit "NOTE" := [quote]]} in
  from_text (to_text (from_text (to_text vs))) = {[lit "NOTE" := [backslash; backslash; quote]]}.
Proof. vm_compute. reflexivity. Qed.

Lemma env_file_roundtrip_witness : from_text (to_text demo_env) = demo_env.
Proof.
  assert (Hall : map_Forall (λ k v, good_key k ∧ no_break v ∧ quote ∉ v) demo_env).
  { refine (bool_decide_eq_true_1 _ _). vm_compute. reflexivity. }
  apply env_file_roundtrip.
  - split; intros k v Hv; by apply (Hall k v).
  - intros k v Hv. by apply (Hall k v).
Defined.
