(* ===== verification/NodeVersion.v ===== *)
(** [cli/greffer_cli/update.py]: what an update decides from, shared by
    [greffer update] and the remote updater: exit codes, the version manifest, the
    order of versions, and the reading of a node's /readyz. *)
From Stdlib Require Import Ascii String.
From S2P Require Import Prelude PyValue NodeImages.
Local Open Scope list_scope.
Local Open Scope Z_scope.

Definition EXIT_OK : Z := 0.
Definition EXIT_FAILED_ROLLED_BACK : Z := 1.
Definition EXIT_FAILED_ROLLBACK_FAILED : Z := 2.
Definition EXIT_PREFLIGHT_REFUSED : Z := 3.

(** ** The version manifest *)
Record manifest : Type := Manifest {
  latest : option string; min_supported : option string; no_rollback_from : list string }.

(** The body as parsed by [json.loads]. Of [no_rollback_from] the strings are
    kept: the text of any other JSON value holds no [->] between a version and a
    valid tag at its end. *)
Definition parse_manifest (data : value) : option manifest :=
  match data with
  | VDict d =>
      let str k := match get_or_null k d with VStr s => Some s | _ => None end in
      let nrf := match get_or_null "no_rollback_from" d with VList l => l | _ => [] end in
      Some (Manifest (str "latest"%string) (str "min_supported"%string)
              (omap (λ v, match v with VStr s => Some s | _ => None end) nrf))
  | _ => None
  end.

Definition nonempty (o : option string) : option string :=
  s ← o; if String.eqb s "" then None else Some s.

Definition resolve_target (explicit_to : option string) (m : option manifest) : option string :=
  match nonempty explicit_to with
  | Some to => if is_valid_image_tag (lit to) then Some to else None
  | None =>
      l ← m ≫= (λ m, nonempty (latest m));
      if is_valid_image_tag (lit l) then Some l else None
  end.

(** ** Versions *)
Definition version_tuple (value : option string) : option (list Z) :=
  v ← nonempty value;
  let parts := Text.split "." v in
  if forallb (λ p, Text.isdigit p && (String.length p <=? 18)%nat) parts
  then Some (Text.int_of_digits <$> parts) else None.

(** [a < b] on tuples. *)
Fixpoint tuple_lt (a b : list Z) : bool :=
  match a, b with
  | [], [] => false
  | [], _ :: _ => true
  | _ :: _, [] => false
  | x :: a, y :: b => (x <? y) || ((x =? y) && tuple_lt a b)
  end.

(** [t + (0,) * (width - len(t))] *)
Definition pad (width : nat) (t : list Z) : list Z := t ++ replicate (width - length t) 0.
Definition padded_lt (a b : list Z) : bool :=
  let width := Nat.max (length a) (length b) in tuple_lt (pad width a) (pad width b).

Definition is_downgrade (current target : option string) : option bool :=
  cur ← version_tuple current; tgt ← version_tuple target; Some (padded_lt tgt cur).

Definition below_floor (target min_supported : option string) : option bool :=
  floor ← nonempty min_supported;
  tgt ← version_tuple target; flr ← version_tuple (Some floor); Some (padded_lt tgt flr).

Definition no_rollback_blocked (m : option manifest) (current : option string) (target : string) : option bool :=
  m ← m; current ← current;
  Some (Text.mem (current +:+ "->" +:+ target) (no_rollback_from m)).

Definition is_true (o : option bool) : bool := match o with Some b => b | None => false end.


(** ** Readiness *)
Record readiness : Type := Readiness {
  r_id : value; r_status : value; r_reasons : list value }.

(** [None]: no response, or not a JSON object ([ok=False]). *)
Definition parse_readyz (body : option value) : option readiness :=
  match body with
  | Some (VDict d) =>
      Some (Readiness (get_or_null "id" d) (get_or_null "status" d)
              (match get_or_null "reasons" d with VList l => l | _ => [] end))
  | _ => None
  end.

(** [{"registration_pending"}] *)
Definition TOLERABLE_DEGRADED_REASONS (reason : value) : bool := eq_str reason "registration_pending".

Definition active_services (mode : string) : list string :=
  ["greffer"; "nginx"]%string ++ (if String.eqb mode "tunnel" then ["tunnel-sidecar"]%string else []).

Inductive gate : Type :=
  | GATE_READY | GATE_TIMEOUT | GATE_FATAL | GATE_WRONG_ID | GATE_NOT_APPLIED | GATE_DEGRADED_OTHER
  | GATE_CRASH_LOOP.

(** [greffer_id and r.id and r.id != greffer_id] *)
Definition wrong_id (greffer_id : option string) (r : readiness) : bool :=
  match nonempty greffer_id with
  | Some i => truthy (r_id r) && negb (eq_str (r_id r) i)
  | None => false
  end.

(** A poll sleeps two seconds. *)
Definition rounds (timeout : Z) : nat := S (Z.to_nat timeout).

(** ** The order of versions *)

(** Component [i] of a version, which has as many as one cares to look at. *)
Definition component (t : list Z) (i : nat) : Z := default 0 (t !! i).

(** The order the guards are about: the first component that differs decides. *)
Definition older (a b : list Z) : Prop :=
  ∃ i, component a i < component b i ∧ ∀ j, (j < i)%nat → component a j = component b j.

Definition same_version (a b : list Z) : Prop := ∀ i, component a i = component b i.

Lemma component_pad w t i : component (pad w t) i = component t i.
Proof.
  unfold component, pad. destruct (decide (i < length t)%nat) as [H|H].
  - by rewrite lookup_app_l.
  - rewrite lookup_app_r, (lookup_ge_None_2 t) by lia.
    destruct (replicate _ _ !! _) eqn:Hr; [|done]. by apply lookup_replicate in Hr as [-> _].
Qed.

Lemma length_pad w t : (length t ≤ w)%nat → length (pad w t) = w.
Proof. intros H. unfold pad. rewrite length_app, length_replicate. lia. Qed.

Lemma tuple_lt_spec a b : length a = length b → tuple_lt a b = true ↔ older a b.
Proof.
  revert b. induction a as [|x a IH]; intros [|y b] Hl; [|done..|injection Hl as Hl]; cbn [tuple_lt].
  - split; [done|]. intros (i & H & _). unfold component in H. rewrite !lookup_nil in H. cbn in H. lia.
  - rewrite orb_true_iff, andb_true_iff, Z.ltb_lt, Z.eqb_eq, IH by done. split.
    + intros [H|[-> (i & H & Hj)]]; [by exists O; split; [|lia]|].
      exists (S i). split; [done|]. intros [|j] ?; [done|]. by apply Hj; lia.
    + intros ([|i] & H & Hj); [by left|]. right. split; [apply (Hj O); lia|].
      exists i. split; [done|]. intros j ?. by apply (Hj (S j)); lia.
Qed.

Lemma padded_lt_spec a b : padded_lt a b = true ↔ older a b.
Proof.
  unfold padded_lt. rewrite tuple_lt_spec by (rewrite !length_pad; lia).
  unfold older. by setoid_rewrite component_pad.
Qed.

Lemma older_irrefl a b : same_version a b → ¬ older a b.
Proof. intros Hs (i & H & _). rewrite Hs in H. lia. Qed.

Lemma older_trans a b c : older a b → older b c → older a c.
Proof.
  intros (i & Hi & Hi') (j & Hj & Hj'). destruct (lt_eq_lt_dec i j) as [[H| ->]|H].
  - exists i. split; [by rewrite <- Hj'|]. intros k ?. by rewrite Hi', Hj' by lia.
  - exists j. split; [lia|]. intros k ?. by rewrite Hi', Hj' by lia.
  - exists j. split; [by rewrite Hi'|]. intros k ?. by rewrite Hi', Hj' by lia.
Qed.

(** Two versions are ordered one way, the other way, or are the same. *)
Lemma older_total a b : older a b ∨ older b a ∨ same_version a b.
Proof.
  pose (n := Nat.max (length a) (length b)).
  assert (H : ∀ k, older a b ∨ older b a ∨ ∀ j, (j < k)%nat → component a j = component b j).
  { induction k as [|k [H|[H|H]]]; [right; right; lia|auto..|].
    destruct (Z.lt_trichotomy (component a k) (component b k)) as [Hk|[Hk|Hk]].
    - left. by exists k.
    - right; right. intros j ?. destruct (decide (j = k)) as [->|]; [done|]. apply H. lia.
    - right; left. exists k. split; [done|]. intros j ?. symmetry. by apply H. }
  destruct (H n) as [?|[?|Hn]]; [auto..|]. right; right. intros i.
  destruct (decide (i < n)%nat); [by apply Hn|]. unfold component. by rewrite !lookup_ge_None_2 by lia.
Qed.

(** ** Parsing *)
Lemma int_of_digits_bound s : Text.all_chars Text.is_digit s = true →
  0 ≤ Text.int_of_digits s < 10 ^ Z.of_nat (String.length s).
Proof.
  intros Hs. split; [by apply Text.int_of_digits_nonneg|]. unfold Text.int_of_digits.
  enough (H : ∀ n, foldl (λ n c, n * 10 + Text.digit_val c) n (list_ascii_of_string s) <
    (n + 1) * 10 ^ Z.of_nat (String.length s)) by (specialize (H 0); lia).
  revert Hs. induction s as [|c s IH]; [cbn; lia|]. intros [Hc%Text.digit_val_bounds Hs]%andb_prop n.
  cbn [list_ascii_of_string foldl String.length]. specialize (IH Hs (n * 10 + Text.digit_val c)).
  rewrite Nat2Z.inj_succ, Z.pow_succ_r by lia.
  pose proof (Z.pow_pos_nonneg 10 (Z.of_nat (String.length s))). nia.
Qed.

Lemma version_tuple_Some value t : version_tuple value = Some t → ∃ v,
  value = Some v ∧ t = Text.int_of_digits <$> Text.split "." v ∧
  Forall (λ p, Text.isdigit p = true ∧ (String.length p ≤ 18)%nat) (Text.split "." v).
Proof.
  unfold version_tuple. intros (v & Hv & H)%bind_Some. exists v.
  unfold nonempty in Hv. destruct value as [w|]; [|done]. cbn in Hv.
  destruct (String.eqb w ""); [done|]. injection Hv as ->.
  destruct (forallb _ _) eqn:Hf; [|done]. injection H as <-. split_and!; [done..|].
  apply Forall_forall. intros p Hp. rewrite forallb_forall in Hf. apply list_elem_of_In, Hf in Hp.
  apply andb_prop in Hp as [H1 H2%Nat.leb_le]. done.
Qed.

(** The guards order versions as versions are ordered. Two versions that can
    be ordered are compared component by component, a shorter one reading as if
    it went on with zeros, and the first difference decides: [is_downgrade] says
    exactly whether the target is older than what runs, [below_floor] whether it
    is older than the floor; when neither side is older they are the same version
    up to trailing zeros. *)
Theorem is_downgrade_order current target cur tgt :
  version_tuple current = Some cur → version_tuple target = Some tgt →
  (∃ b, is_downgrade current target = Some b ∧ (b = true ↔ older tgt cur)) ∧
  (∃ b, below_floor target current = Some b ∧ (b = true ↔ older tgt cur)) ∧
  (is_downgrade current target = Some false → is_downgrade target current = Some false → same_version cur tgt) ∧
  (is_downgrade current target = Some true → is_downgrade target current = Some false).
Proof.
  intros Hc Ht. pose proof (padded_lt_spec tgt cur) as H1. pose proof (padded_lt_spec cur tgt) as H2.
  assert (Hd1 : is_downgrade current target = Some (padded_lt tgt cur)) by (unfold is_downgrade; by rewrite Hc, Ht).
  assert (Hd2 : is_downgrade target current = Some (padded_lt cur tgt)) by (unfold is_downgrade; by rewrite Hc, Ht).
  assert (Hf : below_floor target current = Some (padded_lt tgt cur)).
  { unfold below_floor. pose proof Hc as (v & Hv & _)%version_tuple_Some.
    assert (Hn : nonempty current = Some v).
    { unfold version_tuple in Hc. destruct (nonempty current) as [w|] eqn:Hw; [|done]. subst current.
      unfold nonempty in Hw. cbn in Hw. by destruct (String.eqb v ""). }
    rewrite Hn, Ht. cbn [mbind option_bind]. subst current. by rewrite Hc. }
  rewrite Hd1, Hd2, Hf. split; [eauto|]. split; [eauto|].
  split.
  - intros [= F1] [= F2]. rewrite F1 in H1. rewrite F2 in H2.
    destruct (older_total cur tgt) as [H|[H|H]]; [by apply H2 in H|by apply H1 in H|done].
  - intros [= F1]. destruct (padded_lt cur tgt); [|done]. exfalso.
    apply (older_irrefl cur cur); [by intros i|]. apply (older_trans _ tgt); [by apply H2|by apply H1].
Qed.

Lemma is_downgrade_order_witness :
  (∃ b, is_downgrade (Some "0.9.0") (Some "0.10") = Some b ∧ (b = true ↔ older [0; 10] [0; 9; 0])) ∧
  is_downgrade (Some "0.9.0") (Some "0.10") = Some false ∧ is_downgrade (Some "0.9.0") (Some "0.8.7") = Some true ∧
  is_downgrade (Some "0.9.0") (Some "latest") = None.
Proof.
  split; [|by vm_compute].
  exact (proj1 (is_downgrade_order (Some "0.9.0") (Some "0.10") [0; 9; 0] [0; 10] eq_refl eq_refl)).
Defined.

(** [version_tuple] never lets [int] see text it would choke on: whatever the
    manifest says, the components it parses are at least one, each of them a
    number of at most 18 digits; any other text is refused, never guessed. *)
Theorem version_tuple_bounded value :
  match version_tuple value with
  | Some t => t ≠ [] ∧ Forall (λ x, 0 ≤ x < 10 ^ 18) t
  | None => let v := default ""%string value in v = ""%string ∨
      ∃ p, p ∈ Text.split "." v ∧ (Text.isdigit p = false ∨ (18 < String.length p)%nat)
  end.
Proof.
  destruct (version_tuple value) as [t|] eqn:H.
  - apply version_tuple_Some in H as (v & -> & -> & Hf). split.
    + destruct v as [|d v]; [done|]. cbn. destruct (Ascii.eqb d "."); [done|]. by destruct (Text.split _ v).
    + apply Forall_fmap. eapply Forall_impl; [exact Hf|]. intros p [[_ Hd]%Text.isdigit_spec Hlen].
      apply int_of_digits_bound in Hd. cbn. split; [lia|]. eapply Z.lt_le_trans; [apply Hd|].
      apply Z.pow_le_mono_r; lia.
  - destruct value as [v|]; [|by left]. cbn. unfold version_tuple, nonempty in H. cbn in H. destruct (String.eqb_spec v ""); [by left|right].
    cbn in H. destruct (forallb _ _) eqn:Hf; [done|].
    assert (Hn : ¬ Forall (λ p, Text.isdigit p = true ∧ (String.length p ≤ 18)%nat) (Text.split "." v)).
    { intros Ha. apply not_true_iff_false in Hf. apply Hf, forallb_forall. intros p Hp%list_elem_of_In.
      eapply Forall_forall in Ha as [Hp1 Hp2]; [|exact Hp]. by rewrite Hp1, (proj2 (Nat.leb_le _ _) Hp2). }
    apply not_Forall_Exists in Hn; [|apply _]. apply Exists_exists in Hn as (p & Hp & Hbad). exists p. split; [done|].
    destruct (Text.isdigit p) eqn:Hd; [right|by left]. apply Nat.nle_gt. intros Hl. by apply Hbad.
Qed.
