(* ===== verification/NodeUpdate.v ===== *)
(** [cli/greffer_cli/update.py]: [greffer update], which moves a running node to
    another image tag and back again when the new one does not come up.

    Docker, the manifest server and the operator's signals answer through
    [E : env], each answer depending on everything done and seen before, which
    the state keeps in [log], newest first. *)
From Stdlib Require Import Ascii String.
From S2P Require Import Prelude PyValue NodeImages NodeVersion.
Local Open Scope list_scope.
Local Open Scope Z_scope.

(** ** The world *)
Inductive signal : Type := CtrlC | Sigterm.
Inductive exc : Type := KeyboardInterrupt | SystemExit (code : Z) | ValueError.
Inductive lock_file : Type := DataLock | ConfigLock.

Inductive event : Type :=
  | EManifest (body : option value)
  | EVersion (v : option string)          (** of the running greffer *)
  | EServices (running : gmap string bool)
  | EContainer (cid : option string)      (** of the greffer service *)
  | ERestarts (n : Z)
  | EHealthz (ok : bool)
  | EReadyz (body : option value)
  | ERunningImage (img : option string)
  | EImage (ref : string) (img : option string)
  | EMountpoint (path : option string)
  | EOpenLock (ok : bool)
  | EFlock (f : lock_file) (got : bool)
  | EUnlock
  | ESleep
  | EWrite (file : text)
  | EPull (ok : bool)
  | EUp (file : text) (ok : bool).        (** what the node is recreated into *)

Notation history := (list event).

Record env : Type := {
  manifest_answer : history → option value;
  version_answer : history → option string;
  services_answer : history → gmap string bool;
  container_answer : history → option string;
  restarts_answer : history → Z;
  healthz_answer : history → bool;
  readyz_answer : history → option value;
  running_image_answer : history → option string;
  image_answer : history → string → option string;
  mountpoint_answer : history → option string;
  open_lock_answer : history → bool;
  flock_answer : history → bool;
  has_fcntl : bool;
  pull_answer : history → bool;
  up_answer : history → bool;
  monotonic : history → Z;                 (** seconds *)
  interrupted : history → option signal;   (** before the next call *)
}.

Record state : Type := {
  file : text;               (** the compose file *)
  log : history;
  gate_passed : bool;
}.

Definition record (e : event) (s : state) : state := {| file := file s; log := e :: log s; gate_passed := gate_passed s |}.
Definition write (f : text) (s : state) : state := {| file := f; log := EWrite f :: log s; gate_passed := gate_passed s |}.
Definition arm (s : state) : state := {| file := file s; log := log s; gate_passed := false |}.
Definition pass_gate (s : state) : state := {| file := file s; log := log s; gate_passed := true |}.

(** The options of a run, and what the configuration says. *)
Record config : Type := {
  target : option string;
  timeout : Z;
  confirm_no_rollback : bool;
  check_only : bool;
  GREFFER_ID : option string;
  GREFFER_MODE : option string;
}.

Section update.
Context (E : env).
Notation J := (M state exc).

Definition ask {A} (f : history → A) (ev : A → event) : J A := λ s,
  let a := f (log s) in (Ok a, record (ev a) s).
Definition now : J Z := gets (λ s, monotonic E (log s)).

(** [_disarm]: back to the prior references unless the gate has passed. *)
Definition _disarm (old_refs : refs) : J unit := λ s,
  if gate_passed s then (Ok tt, s) else (Ok tt, write (set_image_refs old_refs (file s)) s).

(** A signal that arrives before the next call of the guarded window; SIGTERM
    runs [_on_sigterm], Ctrl-C raises. *)
Definition signalled (old_refs : refs) : J unit :=
  sig ← gets (λ s, interrupted E (log s));
  match sig with
  | None => mret tt
  | Some CtrlC => throw KeyboardInterrupt
  | Some Sigterm =>
      _disarm old_refs;;
      passed ← gets gate_passed;
      throw (SystemExit (if (passed : bool) then EXIT_OK else 143))
  end.

(** ** The health gate *)
Definition _version_applied (ref : string) : J bool :=
  running ← ask (running_image_answer E) ERunningImage;
  target_id ← ask (λ h, image_answer E h ref) (EImage ref);
  mret match running, target_id with Some a, Some b => String.eqb a b | _, _ => false end.

Definition all_running (services : list string) : J bool :=
  svcs ← ask (services_answer E) EServices;
  mret (negb (bool_decide (svcs = ∅)) && forallb (λ s, default false (svcs !! s)) services).

(** One poll: [None] when nothing is decided yet. *)
Definition poll (check : J unit) (greffer_id : option string) (ref : string) (services : list string) :
    J (option gate) :=
  check;;
  live ← ask (healthz_answer E) EHealthz;
  if negb live then mret None
  else
    check;;
    body ← ask (readyz_answer E) EReadyz;
    match parse_readyz body with
    | None => mret None
    | Some r =>
        if wrong_id greffer_id r then mret (Some GATE_WRONG_ID)
        else if eq_str (r_status r) "fatal" then mret (Some GATE_FATAL)
        else if eq_str (r_status r) "degraded" && negb (forallb TOLERABLE_DEGRADED_REASONS (r_reasons r))
        then mret (Some GATE_DEGRADED_OTHER)
        else if eq_str (r_status r) "ready" then
          check;;
          applied ← _version_applied ref;
          if negb applied then mret (Some GATE_NOT_APPLIED)
          else
            check;;
            up ← all_running services;
            mret (if (up : bool) then Some GATE_READY else None)
        else mret None
    end.

Definition crash_looping (check : J unit) (cid : option string) (base_restarts : Z) : J bool :=
  match cid with
  | None => mret false
  | Some _ => check;; n ← ask (restarts_answer E) ERestarts; mret (1 <? n - base_restarts)
  end.

Fixpoint gate_loop (fuel : nat) (check : J unit) (greffer_id : option string) (ref : string)
    (services : list string) (cid : option string) (base_restarts deadline : Z) : J gate :=
  t ← now;
  if negb (t <? deadline) then mret GATE_TIMEOUT
  else match fuel with
  | O => mret GATE_TIMEOUT
  | S fuel =>
      decided ← poll check greffer_id ref services;
      match decided with
      | Some g => mret g
      | None =>
          crashing ← crash_looping check cid base_restarts;
          if (crashing : bool) then mret GATE_CRASH_LOOP
          else check;; modify (record ESleep);;
               gate_loop fuel check greffer_id ref services cid base_restarts deadline
      end
  end.

Definition health_gate (check : J unit) (greffer_id : option string) (ref : string)
    (services : list string) (timeout : Z) : J gate :=
  t ← now;
  check;;
  cid ← ask (container_answer E) EContainer;
  base_restarts ← match cid with
                  | Some _ => check;; ask (restarts_answer E) ERestarts | None => mret 0 end;
  gate_loop (rounds timeout) check greffer_id ref services cid base_restarts (t + timeout).

(** ** Rollback *)
Definition healthy_again (check : J unit) (greffer_id : option string) (services : list string) : J bool :=
  check;;
  live ← ask (healthz_answer E) EHealthz;
  if negb live then mret false
  else
    check;;
    body ← ask (readyz_answer E) EReadyz;
    match parse_readyz body with
    | None => mret false
    | Some r =>
        if eq_str (r_status r) "ready" && negb (wrong_id greffer_id r)
        then check;; all_running services else mret false
    end.

Fixpoint rollback_loop (fuel : nat) (check : J unit) (greffer_id : option string)
    (services : list string) (deadline : Z) : J bool :=
  t ← now;
  if negb (t <? deadline) then mret false
  else match fuel with
  | O => mret false
  | S fuel =>
      ok ← healthy_again check greffer_id services;
      if (ok : bool) then mret true
      else check;; modify (record ESleep);; rollback_loop fuel check greffer_id services deadline
  end.

Definition _rollback_health (check : J unit) (greffer_id : option string) (services : list string)
    (timeout : Z) : J bool :=
  t ← now; rollback_loop (rounds timeout) check greffer_id services (t + timeout).

Definition compose_up : J bool := λ s,
  let ok := up_answer E (log s) in (Ok ok, record (EUp (file s) ok) s).

Definition _rollback (check : J unit) (old_refs : refs) (greffer_id : option string)
    (services : list string) (timeout : Z) : J Z :=
  modify (λ s, write (set_image_refs old_refs (file s)) s);;
  check;;
  up ← compose_up;
  healthy ← (if (up : bool) then _rollback_health check greffer_id services (Z.min timeout 120) else mret false);
  mret (if (healthy : bool) then EXIT_FAILED_ROLLED_BACK else EXIT_FAILED_ROLLBACK_FAILED).

(** ** The host lock *)
Fixpoint flock_loop (attempts : nat) (f : lock_file) : J bool :=
  match attempts with
  | O => mret false
  | S attempts =>
      got ← ask (flock_answer E) (EFlock f);
      if (got : bool) then mret true else flock_loop attempts f
  end.

(** [false]: another run holds it. *)
Definition _acquire_update_lock : J bool :=
  if negb (has_fcntl E) then mret true
  else
    path ← ask (mountpoint_answer E) EMountpoint;
    opened ← match path with Some _ => ask (open_lock_answer E) EOpenLock | None => mret false end;
    flock_loop 20 (if (opened : bool) then DataLock else ConfigLock).

(** ** The run *)
Definition _resolve_mode (c : config) : J string :=
  match nonempty (GREFFER_MODE c) with
  | Some m => mret m
  | None =>
      running ← ask (services_answer E) EServices;
      mret (if bool_decide (is_Some (running !! "tunnel-sidecar"%string)) then "tunnel" else "proxy")%string
  end.

Definition greffer_ref (tag : string) : string := "greffon/greffer:" +:+ tag.

(** Steps 3 to 5, between the retag and the end of the guarded window. *)
Definition mutate (c : config) (mode resolved : string) (old_refs : refs) : J Z :=
  let check := signalled old_refs in
  let services := active_services mode in
  check;;
  pulled ← ask (pull_answer E) EPull;
  if negb pulled then mret EXIT_FAILED_ROLLED_BACK
  else
    check;;
    up ← compose_up;
    if negb up then _rollback check old_refs (GREFFER_ID c) services (timeout c)
    else
      outcome ← health_gate check (GREFFER_ID c) (greffer_ref resolved) services (timeout c);
      match outcome with
      | GATE_READY => modify pass_gate;; check;; mret EXIT_OK
      | _ => _rollback check old_refs (GREFFER_ID c) services (timeout c)
      end.

(** [set_image_tag] and the window that disarms it; the tag is valid. *)
Definition retag_and_run (c : config) (mode resolved : string) : J Z :=
  f ← gets file;
  match set_image_tag (lit resolved) f with
  | None => throw ValueError
  | Some (f', old_refs) =>
      modify (λ s, arm (write f' s));;
      finally (mutate c mode resolved old_refs) (_disarm old_refs)
  end.

(** The refusals that depend on the running version. *)
Definition version_refused (c : config) (m : option manifest) (current : option string) (resolved : string) : bool :=
  (is_true (is_downgrade current (Some resolved)) && bool_decide (target c = None)) ||
  (negb (bool_decide (no_rollback_blocked m current resolved = Some false)) && negb (confirm_no_rollback c)).

Definition locked_run (c : config) (m : option manifest) (mode resolved : string) (current : option string) : J Z :=
  locked ← ask (version_answer E) EVersion;
  if negb (bool_decide (locked = current)) && version_refused c m locked resolved
  then mret EXIT_PREFLIGHT_REFUSED
  else retag_and_run c mode resolved.

Definition run_update (c : config) : J Z :=
  mode ← _resolve_mode c;
  body ← ask (manifest_answer E) EManifest;
  let m := body ≫= parse_manifest in
  current ← ask (version_answer E) EVersion;
  match resolve_target (target c) m with
  | None => mret EXIT_PREFLIGHT_REFUSED
  | Some resolved =>
      if check_only c then mret EXIT_OK
      else if bool_decide (nonempty (GREFFER_ID c) = None) then mret EXIT_PREFLIGHT_REFUSED
      else
        f ← gets file;
        if negb (data_volume_is_named f) then mret EXIT_PREFLIGHT_REFUSED
        else if is_true (below_floor (Some resolved) (m ≫= min_supported)) then mret EXIT_PREFLIGHT_REFUSED
        else if version_refused c m current resolved then mret EXIT_PREFLIGHT_REFUSED
        else
          applied ← _version_applied (greffer_ref resolved);
          if (applied : bool) then mret EXIT_OK
          else
            got ← _acquire_update_lock;
            if negb got then mret EXIT_PREFLIGHT_REFUSED
            else finally (locked_run c m mode resolved current) (modify (record EUnlock))
  end.
End update.

(** ** Computations that only observe the node *)
Definition observes (e : event) : Prop :=
  match e with EWrite _ | EPull _ | EUp _ _ | EFlock _ _ | EUnlock => False | _ => True end.

Definition only (P : event → Prop) (s s' : state) : Prop :=
  ∃ new, log s' = new ++ log s ∧ Forall P new.

Lemma only_refl P s : only P s s.
Proof. by exists []. Qed.
Lemma only_trans P s1 s2 s3 : only P s1 s2 → only P s2 s3 → only P s1 s3.
Proof.
  intros (n1 & H1 & F1) (n2 & H2 & F2). exists (n2 ++ n1). rewrite H2, H1, app_assoc.
  split; [done|]. by apply Forall_app.
Qed.
Lemma only_one (P : event → Prop) e s f g : P e → only P s {| file := f; log := e :: log s; gate_passed := g |}.
Proof. intros H. exists [e]. split; [done|]. by apply Forall_singleton. Qed.
#[export] Hint Resolve only_refl : greffer.

Lemma wp_disarm rs (Q : result exc unit → state → Prop) s :
  (gate_passed s = true → Q (Ok tt) s) →
  (gate_passed s = false → Q (Ok tt) (write (set_image_refs rs (file s)) s)) → wp (_disarm rs) Q s.
Proof. intros H1 H2. unfold wp, _disarm. destruct (gate_passed s); cbn; auto. Qed.

Section window.
Context (E : env) (rs : refs) (f0 f1 : text).
Context (Hback0 : set_image_refs rs f0 = f0) (Hback1 : set_image_refs rs f1 = f0).
Notation J := (M state exc).

(** Between the retag and the disarm the file is the old or the new one. *)
Definition in_window (s : state) : Prop := gate_passed s = false ∧ (file s = f0 ∨ file s = f1).

(** A part of the window: on return it has only observed; a signal may have
    put the old file back. *)
Definition watches {A} (m : J A) : Prop := ∀ s, in_window s →
  wp m (λ r s', in_window s' ∧ match r with
                | Ok _ => file s' = file s ∧ only observes s s'
                | Raise e => (file s' = file s ∨ file s' = f0) ∧ (e = KeyboardInterrupt ∨ e = SystemExit 143)
                end) s.

Lemma watches_bind {A B} (m : J A) (k : A → J B) : watches m → (∀ a, watches (k a)) → watches (m ≫= k).
Proof.
  intros Hm Hk s Hs. apply wp_bind. eapply wp_mono; [by apply Hm|].
  intros [a|e] s1 [Hw H1]; [|done]. destruct H1 as [Hf Ho]. eapply wp_mono; [by apply Hk|].
  intros [b|e] s2 [Hw2 H2]; (split; [done|]); rewrite <- Hf; [|done]. destruct H2.
  split; [done|]. by eapply only_trans.
Qed.

Lemma watches_pure {A} (m : J A) : (∀ s, ∃ a, m s = (Ok a, s)) → watches m.
Proof. intros H s Hs. destruct (H s) as [a Ha]. unfold wp. rewrite Ha. cbn. auto with greffer. Qed.

Lemma watches_ret {A} (a : A) : watches (mret a : J A).
Proof. apply watches_pure. eauto. Qed.

Lemma watches_gets {A} (f : state → A) : watches (gets f : J A).
Proof. apply watches_pure. eauto. Qed.

Lemma watches_ask {A} (f : history → A) ev : (∀ a, observes (ev a)) → watches (ask f ev).
Proof. intros H s Hs. unfold wp, ask. cbn. split_and!; [exact Hs|done|]. by apply only_one. Qed.

Lemma watches_sleep : watches (modify (record ESleep) : J unit).
Proof. intros s Hs. apply wp_modify. split_and!; [exact Hs|done|]. by apply only_one. Qed.

Lemma watches_signalled : watches (signalled E rs).
Proof.
  intros s Hs. unfold signalled. apply wp_bind, wp_gets.
  destruct (interrupted E (log s)) as [[]|]; [|..|by apply watches_ret].
  - apply wp_throw. auto.
  - destruct Hs as [Hg Hf].
    assert (Hb : set_image_refs rs (file s) = f0) by (destruct Hf as [-> | ->]; done).
    apply wp_bind, wp_disarm; rewrite Hg; [done|]. intros _. rewrite Hb. apply wp_bind, wp_gets, wp_throw.
    cbn. rewrite Hg. unfold in_window. cbn. auto.
Qed.

Ltac watch_step :=
  lazymatch goal with
  | |- watches (mbind _ _) => apply watches_bind; [|intros ?]
  | |- watches (mret _) => apply watches_ret
  | |- watches (gets _) => apply watches_gets
  | |- watches (signalled _ _) => apply watches_signalled
  | |- watches (ask _ _) => by apply watches_ask
  | |- watches (modify (record ESleep)) => apply watches_sleep
  | |- watches (if ?b then _ else _) => destruct b
  | |- watches (match ?x with _ => _ end) => destruct x
  end.
Ltac watch := repeat watch_step.

Lemma watches_poll gid ref services : watches (poll E (signalled E rs) gid ref services).
Proof. unfold poll, _version_applied, all_running. watch. Qed.

Lemma watches_crash_looping cid base : watches (crash_looping E (signalled E rs) cid base).
Proof. unfold crash_looping. watch. Qed.

Lemma watches_gate_loop fuel gid ref services cid base deadline :
  watches (gate_loop E fuel (signalled E rs) gid ref services cid base deadline).
Proof.
  induction fuel as [|fuel IH]; cbn [gate_loop]; unfold now;
    repeat first [apply watches_poll | apply watches_crash_looping | apply IH | watch_step].
Qed.

Lemma watches_health_gate gid ref services timeout :
  watches (health_gate E (signalled E rs) gid ref services timeout).
Proof. unfold health_gate, now. watch; apply watches_gate_loop. Qed.

Lemma watches_rollback_health gid services timeout :
  watches (_rollback_health E (signalled E rs) gid services timeout).
Proof.
  unfold _rollback_health, now. apply watches_bind; [apply watches_gets|]. intros t.
  generalize (t + timeout), (rounds timeout). intros deadline fuel.
  induction fuel as [|fuel IH]; cbn [rollback_loop]; unfold now, healthy_again, all_running;
    repeat first [apply IH | watch_step].
Qed.
End window.

(** ** What the gate and the rollback check have seen *)

(** The last answers in [h] are those of a poll that found the node ready. *)
Definition ready_seen (gid : option string) (ref : string) (services : list string) (h : history) : Prop :=
  ∃ m i body r older,
    h = EServices m :: EImage ref (Some i) :: ERunningImage (Some i) :: EReadyz body :: EHealthz true :: older ∧
    parse_readyz body = Some r ∧ wrong_id gid r = false ∧ eq_str (r_status r) "ready" = true ∧
    Forall (λ sv, m !! sv = Some true) services.

(** The same for the node that was rolled back; its version is not asked. *)
Definition healthy_seen (gid : option string) (services : list string) (h : history) : Prop :=
  ∃ m body r older,
    h = EServices m :: EReadyz body :: EHealthz true :: older ∧
    parse_readyz body = Some r ∧ wrong_id gid r = false ∧ eq_str (r_status r) "ready" = true ∧
    Forall (λ sv, m !! sv = Some true) services.

Section seen.
Context (E : env) (rs : refs).
Notation J := (M state exc).

Lemma wp_signalled (Q : result exc unit → state → Prop) s :
  Q (Ok tt) s → (∀ e s', Q (Raise e) s') → wp (signalled E rs) Q s.
Proof.
  intros H1 H2. unfold signalled. apply wp_bind, wp_gets. destruct (interrupted E (log s)) as [[]|].
  - apply wp_throw, H2.
  - apply wp_bind, wp_disarm; intros _; apply wp_bind, wp_gets, wp_throw, H2.
  - by apply wp_ret.
Qed.

Lemma wp_answer {A} (f : history → A) ev (Q : result exc A → state → Prop) s :
  Q (Ok (f (log s))) (record (ev (f (log s))) s) → wp (ask f ev) Q s.
Proof. done. Qed.

Lemma wp_all_running services (Q : result exc bool → state → Prop) s :
  (∀ m b, (b = true → Forall (λ sv, m !! sv = Some true) services) → Q (Ok b) (record (EServices m) s)) →
  wp (all_running E services) Q s.
Proof.
  intros HQ. unfold all_running. apply wp_bind, wp_answer, wp_ret, HQ.
  intros [_ H]%andb_prop. rewrite forallb_forall in H. apply Forall_forall. intros sv Hsv.
  apply list_elem_of_In, H in Hsv. by destruct (_ !! sv) as [[]|].
Qed.

Lemma wp_version_applied ref (Q : result exc bool → state → Prop) s :
  (∀ i, Q (Ok true) (record (EImage ref (Some i)) (record (ERunningImage (Some i)) s))) →
  (∀ a b, Q (Ok false) (record (EImage ref b) (record (ERunningImage a) s))) →
  wp (_version_applied E ref) Q s.
Proof.
  intros H1 H2. unfold _version_applied. apply wp_bind, wp_answer, wp_bind, wp_answer, wp_ret.
  destruct (running_image_answer E _) as [a|]; [|apply H2].
  destruct (image_answer E _ ref) as [b|]; [|apply H2].
  destruct (String.eqb_spec a b) as [->|]; [apply H1|apply H2].
Qed.

Lemma wp_poll_ready gid ref services s :
  wp (poll E (signalled E rs) gid ref services)
     (λ r s', r = Ok (Some GATE_READY) → ready_seen gid ref services (log s')) s.
Proof.
  unfold poll. apply wp_bind, wp_signalled; [|done]. apply wp_bind, wp_answer.
  destruct (healthz_answer E (log s)); [|done]. cbn [negb].
  apply wp_bind, wp_signalled; [|done]. apply wp_bind, wp_answer.
  destruct (parse_readyz _) as [r|] eqn:Hr; [|done]. destruct (wrong_id gid r) eqn:Hid; [done|].
  destruct (eq_str (r_status r) "fatal"); [done|]. destruct (_ && _); [done|].
  destruct (eq_str (r_status r) "ready") eqn:Hready; [|done].
  apply wp_bind, wp_signalled; [|done]. apply wp_bind, wp_version_applied; [intros i|done]. cbn [negb].
  apply wp_bind, wp_signalled; [|done]. apply wp_bind, wp_all_running. intros m [] Hm; [|by apply wp_ret].
  apply wp_ret. intros _. eexists m, i, _, r, _. split; [reflexivity|]. auto.
Qed.

Lemma wp_gate_loop_ready fuel gid ref services cid base deadline s :
  wp (gate_loop E fuel (signalled E rs) gid ref services cid base deadline)
     (λ r s', r = Ok GATE_READY → ready_seen gid ref services (log s')) s.
Proof.
  revert s. induction fuel as [|fuel IH]; intros s; cbn [gate_loop]; apply wp_bind, wp_gets;
    destruct (negb _); [done..|].
  apply wp_bind. eapply wp_mono; [apply wp_poll_ready|]. intros [[g|]|e] s1 H; [|clear H|done].
  { apply wp_ret. intros [= ->]. by apply H. }
  apply wp_bind. eapply (wp_mono _ (λ _ _, True)); [done|]. intros [[]|e] s2 _; [done| |done].
  apply wp_bind, wp_signalled; [|done]. apply wp_bind, wp_modify, IH.
Qed.

Lemma wp_health_gate_ready gid ref services timeout s :
  wp (health_gate E (signalled E rs) gid ref services timeout)
     (λ r s', r = Ok GATE_READY → ready_seen gid ref services (log s')) s.
Proof.
  unfold health_gate. apply wp_bind, wp_gets, wp_bind, wp_signalled; [|done]. apply wp_bind, wp_answer, wp_bind.
  eapply (wp_mono _ (λ _ _, True)); [done|]. intros [b|e] s1 _; [apply wp_gate_loop_ready|done].
Qed.

Lemma wp_rollback_health_seen gid services timeout s :
  wp (_rollback_health E (signalled E rs) gid services timeout)
     (λ r s', r = Ok true → healthy_seen gid services (log s')) s.
Proof.
  unfold _rollback_health. apply wp_bind, wp_gets. generalize (monotonic E (log s) + timeout), (rounds timeout).
  intros deadline fuel. revert s. induction fuel as [|fuel IH]; intros s; cbn [rollback_loop];
    apply wp_bind, wp_gets; destruct (negb _); [done..|].
  apply wp_bind. eapply (wp_mono _ (λ r s', r = Ok true → healthy_seen gid services (log s'))).
  2:{ intros [[]|e] s1 H; [by apply wp_ret; auto| |done].
      apply wp_bind, wp_signalled; [|done]. apply wp_bind, wp_modify, IH. }
  unfold healthy_again. apply wp_bind, wp_signalled; [|done]. apply wp_bind, wp_answer.
  destruct (healthz_answer E (log s)); [|done]. cbn [negb].
  apply wp_bind, wp_signalled; [|done]. apply wp_bind, wp_answer.
  destruct (parse_readyz _) as [r|] eqn:Hr; [|done].
  destruct (eq_str (r_status r) "ready" && _) eqn:Hready; [|done].
  apply andb_prop in Hready as [Hready Hid%negb_true_iff].
  apply wp_bind, wp_signalled; [|done]. apply wp_all_running. intros m b Hm [= ->].
  eexists m, _, r, _. split; [reflexivity|]. auto.
Qed.
End seen.

(** ** The guarded window *)

(** After a rollback that returned [code], the last thing done to the node was to
    recreate it from [f0]; 1 means that it was then seen healthy. *)
Definition rolled_back (f0 : text) (gid : option string) (services : list string) (code : Z) (h : history) : Prop :=
  (code = EXIT_FAILED_ROLLED_BACK ∨ code = EXIT_FAILED_ROLLBACK_FAILED) ∧
  ∃ seen ok older, h = seen ++ EUp f0 ok :: older ∧ Forall observes seen ∧
    (code = EXIT_FAILED_ROLLED_BACK → ok = true ∧ healthy_seen gid services h).

Section guarded.
Context (E : env) (rs : refs) (f0 f1 : text).
Context (Hback0 : set_image_refs rs f0 = f0) (Hback1 : set_image_refs rs f1 = f0).
Notation J := (M state exc).
Notation in_window := (in_window f0 f1).

Lemma watches_wp {A} (m : J A) (Q : result exc A → state → Prop) s :
  watches f0 f1 m → in_window s →
  (∀ a s', in_window s' → file s' = file s → only observes s s' → Q (Ok a) s') →
  (∀ e s', in_window s' → (e = KeyboardInterrupt ∨ e = SystemExit 143) → Q (Raise e) s') →
  wp m Q s.
Proof.
  intros Hm Hs H1 H2. eapply wp_mono; [by apply Hm|]. intros [a|e] s' [Hw H].
  - destruct H as [Hf Ho]. by apply H1.
  - destruct H as [_ He]. by apply H2.
Qed.

Lemma wp_compose_up (Q : result exc bool → state → Prop) s :
  (∀ ok, Q (Ok ok) (record (EUp (file s) ok) s)) → wp (compose_up E) Q s.
Proof. intros H. unfold wp, compose_up. cbn. apply H. Qed.

Lemma in_window_record e s : in_window s → in_window (record e s).
Proof. done. Qed.

Lemma wp_rollback gid services timeout s : in_window s →
  wp (_rollback E (signalled E rs) rs gid services timeout)
     (λ r s', in_window s' ∧ match r with
        | Ok code => rolled_back f0 gid services code (log s')
        | Raise e => e = KeyboardInterrupt ∨ e = SystemExit 143 end) s.
Proof.
  intros Hs. unfold _rollback. apply wp_bind, wp_modify.
  assert (Hf : set_image_refs rs (file s) = f0) by (destruct Hs as [_ [-> | ->]]; done).
  rewrite Hf. set (s1 := write f0 s). assert (Hs1 : in_window s1) by (destruct Hs; split; [done|by left]).
  assert (Hf1 : file s1 = f0) by done. clearbody s1.
  apply wp_bind, (watches_wp _ _ _ (watches_signalled E rs f0 f1 Hback0 Hback1) Hs1); [|done].
  intros [] s2 Hs2 Hf2 _. apply wp_bind, wp_compose_up. intros ok. rewrite Hf2, Hf1. apply wp_bind.
  eapply (wp_mono _ (λ r s3, in_window s3 ∧ match r with
    | Ok b => ∃ seen, log s3 = seen ++ EUp f0 ok :: log s2 ∧ Forall observes seen ∧
                      (b = true → ok = true ∧ healthy_seen gid services (log s3))
    | Raise e => e = KeyboardInterrupt ∨ e = SystemExit 143 end)).
  { destruct ok; [|apply wp_ret; split; [done|]; exists []; by split_and!].
    eapply wp_mono.
    { apply wp_conj; [by apply (watches_rollback_health E rs f0 f1 Hback0 Hback1)|apply wp_rollback_health_seen]. }
    intros [b|e] s3 [[Hw Ho] Hh]; (split; [done|]); [|by destruct Ho].
    destruct Ho as [_ (new & Hn & Fn)]. exists new. split; [done|]. split; [done|]. intros ->. auto. }
  intros [b|e] s3 [Hw H3]; [|done]. destruct H3 as (seen & Hl & Fs & Hb). apply wp_ret. split; [done|].
  split; [destruct b; auto|]. exists seen, ok, (log s2). split; [done|]. split; [done|].
  destruct b; [auto|done].
Qed.

(** What [mutate] leaves, in every case. *)
Definition mutated (gid : option string) (ref : string) (services : list string)
    (r : result exc Z) (s s' : state) : Prop :=
  gate_passed s' = true ∧ file s' = f1 ∧ ready_seen gid ref services (log s') ∧
    (r = Ok EXIT_OK ∨ r = Raise KeyboardInterrupt ∨ r = Raise (SystemExit EXIT_OK)) ∨
  in_window s' ∧ match r with
  | Ok code => code = EXIT_FAILED_ROLLED_BACK ∧ log s' = EPull false :: log s ∨
               rolled_back f0 gid services code (log s')
  | Raise e => e = KeyboardInterrupt ∨ e = SystemExit 143
  end.

Lemma wp_signalled_passed (Q : result exc unit → state → Prop) s : gate_passed s = true →
  Q (Ok tt) s → Q (Raise KeyboardInterrupt) s → Q (Raise (SystemExit EXIT_OK)) s → wp (signalled E rs) Q s.
Proof.
  intros Hg H1 H2 H3. unfold signalled. apply wp_bind, wp_gets. destruct (interrupted E (log s)) as [[]|].
  - by apply wp_throw.
  - apply wp_bind, wp_disarm; [|congruence]. intros _. apply wp_bind, wp_gets. rewrite Hg. by apply wp_throw.
  - by apply wp_ret.
Qed.

Lemma signalled_id s s' : (signalled E rs s) = (Ok tt, s') → s' = s.
Proof.
  intros H. pose proof (wp_signalled E rs (λ r s', r = Ok tt → s' = s) s) as Hw.
  unfold wp in Hw. rewrite H in Hw. by apply Hw.
Qed.

Lemma wp_mutate c mode resolved s : in_window s → file s = f1 →
  wp (mutate E c mode resolved rs)
     (λ r s', mutated (GREFFER_ID c) (greffer_ref resolved) (active_services mode) r s s') s.
Proof.
  intros Hs Hf. unfold mutate. pose proof (watches_signalled E rs f0 f1 Hback0 Hback1) as Hsig.
  apply wp_bind. eapply wp_mono; [apply wp_conj; [by apply Hsig|apply (wp_signalled E rs (λ r s', r = Ok tt → s' = s)); done]|].
  intros [[]|e] s1 [[Hw1 H1] Heq]; [|right; split; [done|by destruct H1]]. rewrite (Heq eq_refl) in *. clear Heq s1 Hw1 H1.
  apply wp_bind, wp_answer. destruct (pull_answer E (log s)); [|apply wp_ret; right; split; [done|by left; auto]].
  cbn [negb]. apply wp_bind, (watches_wp _ _ _ Hsig (in_window_record _ _ Hs)); [|by right].
  intros [] s2 Hs2 Hf2 _. apply wp_bind, wp_compose_up. intros ok.
  assert (Hroll : ∀ s3, in_window s3 → wp (_rollback E (signalled E rs) rs (GREFFER_ID c) (active_services mode) (timeout c))
    (λ r s', mutated (GREFFER_ID c) (greffer_ref resolved) (active_services mode) r s s') s3).
  { intros s3 Hs3. eapply wp_mono; [by apply wp_rollback|]. intros [code|e] s4 [Hw4 H4]; right; (split; [done|]); auto. }
  destruct ok; cbn [negb]; [|by apply Hroll].
  apply wp_bind. eapply wp_mono.
  { apply wp_conj; [by apply (watches_health_gate E rs f0 f1 Hback0 Hback1)|apply wp_health_gate_ready]. }
  intros [g|e] s3 [[Hw3 H3] Hready]; [|right; split; [done|by destruct H3]].
  destruct H3 as [Hf3 _]. destruct g; try by apply Hroll.
  apply wp_bind, wp_modify, wp_bind. specialize (Hready eq_refl).
  assert (Hdone : ∀ r : result exc Z, (r = Ok EXIT_OK ∨ r = Raise KeyboardInterrupt ∨ r = Raise (SystemExit EXIT_OK)) →
    mutated (GREFFER_ID c) (greffer_ref resolved) (active_services mode) r s (pass_gate s3)).
  { intros r Hr. left. cbn in *. split_and!; try done. congruence. }
  apply wp_signalled_passed; [done|apply wp_ret|..]; apply Hdone; auto.
Qed.
End guarded.

(** ** The whole run *)
Definition grows : state → state → Prop := only (λ _, True).

#[export] Instance only_preorder P : PreOrder (only P).
Proof. split; [intros s; apply only_refl|intros s1 s2 s3; apply only_trans]. Qed.

#[export] Instance grows_preorder : PreOrder grows.
Proof. apply only_preorder. Qed.

Section whole.
Context (E : env).
Notation J := (M state exc).

Lemma grows_ask {A} (f : history → A) ev : rel grows (ask f ev).
Proof. intros s. apply wp_answer. by apply only_one. Qed.
Lemma grows_disarm rs : rel grows (_disarm rs).
Proof. intros s. apply wp_disarm; intros _; [reflexivity|]. by apply only_one. Qed.
Lemma grows_up : rel grows (compose_up E).
Proof. intros s. apply wp_compose_up. intros ok. by apply only_one. Qed.
Lemma grows_signalled rs : rel grows (signalled E rs).
Proof. unfold signalled. repeat first [apply grows_disarm | rel_step]. Qed.

Ltac grow := repeat first
  [ apply grows_ask | apply grows_disarm | apply grows_up | apply grows_signalled
  | apply rel_modify; intros ?; (apply only_one || apply only_refl); done | rel_step ].

Lemma grows_poll rs gid ref services : rel grows (poll E (signalled E rs) gid ref services).
Proof. unfold poll, _version_applied, all_running. grow. Qed.
Lemma grows_crash_looping rs cid base : rel grows (crash_looping E (signalled E rs) cid base).
Proof. unfold crash_looping. grow. Qed.
Lemma grows_healthy_again rs gid services : rel grows (healthy_again E (signalled E rs) gid services).
Proof. unfold healthy_again, all_running. grow. Qed.

Lemma grows_gate_loop rs gid ref services cid base deadline fuel :
  rel grows (gate_loop E fuel (signalled E rs) gid ref services cid base deadline).
Proof.
  induction fuel as [|fuel IH]; cbn [gate_loop]; unfold now; grow;
    first [apply grows_poll | apply grows_crash_looping | apply IH].
Qed.

Lemma grows_rollback rs gid services timeout :
  rel grows (_rollback E (signalled E rs) rs gid services timeout).
Proof.
  unfold _rollback, _rollback_health, now. grow.
  generalize (rounds (Z.min timeout 120)) as fuel; intros fuel. induction fuel as [|fuel IH];
    cbn [rollback_loop]; unfold now; grow; first [apply grows_healthy_again | apply IH].
Qed.

Lemma grows_mutate c mode resolved rs : rel grows (mutate E c mode resolved rs).
Proof.
  unfold mutate, health_gate, now. grow; first [apply grows_gate_loop | apply grows_rollback | by exists []].
Qed.

(** What must hold for a run to touch the node: [locked] is the version of the
    running greffer read under the lock. *)
Record admitted (c : config) (f0 : text) (m : option manifest) (resolved : string)
    (locked : option string) : Prop := {
  ad_target : resolve_target (target c) m = Some resolved;
  ad_id : nonempty (GREFFER_ID c) ≠ None;
  ad_volume : data_volume_is_named f0 = true;
  ad_floor : is_true (below_floor (Some resolved) (m ≫= min_supported)) = false;
  ad_version : version_refused c m locked resolved = false }.

Definition untouched (e : event) : Prop :=
  match e with EWrite _ | EPull _ | EUp _ _ => False | _ => True end.

(** How the guarded window ends; [older] is the history at its start. *)
Definition window_end (c : config) (mode resolved : string) (f0 f1 : text) (older : history)
    (r : result exc Z) (f : text) (h : history) : Prop :=
  f = f1 ∧ ready_seen (GREFFER_ID c) (greffer_ref resolved) (active_services mode) h ∧
    (r = Ok EXIT_OK ∨ r = Raise KeyboardInterrupt ∨ r = Raise (SystemExit EXIT_OK)) ∨
  f = f0 ∧ ∃ h', h = EWrite f0 :: h' ∧ match r with
  | Ok code => code = EXIT_FAILED_ROLLED_BACK ∧ h' = EPull false :: older ∨
               rolled_back f0 (GREFFER_ID c) (active_services mode) code h'
  | Raise e => e = KeyboardInterrupt ∨ e = SystemExit 143
  end.

Lemma wp_retag_and_run c mode resolved s : rendered (file s) → is_valid_image_tag (lit resolved) = true →
  wp (retag_and_run E c mode resolved)
     (λ r s', ∃ f1 rs new, set_image_tag (lit resolved) (file s) = Some (f1, rs) ∧
        log s' = new ++ EWrite f1 :: log s ∧
        window_end c mode resolved (file s) f1 (EWrite f1 :: log s) r (file s') (log s')) s.
Proof.
  intros Hrd Ht. unfold retag_and_run. apply wp_bind, wp_gets.
  destruct (set_image_tag (lit resolved) (file s)) as [[f1 rs]|] eqn:Hset.
  2:{ unfold set_image_tag in Hset. by rewrite Ht in Hset. }
  pose proof (restore_file _ _ _ _ Hset Hrd) as Hback1. pose proof (restore_twice _ _ _ _ Hset Hrd) as Hback0.
  apply wp_bind, wp_modify, wp_finally. cbv beta. set (s1 := arm (write f1 s)).
  assert (Hs1 : in_window (file s) f1 s1) by (split; [done|by right]).
  eapply wp_mono.
  { apply wp_conj; [by apply (wp_mutate E rs (file s) f1 Hback0 Hback1)|apply grows_mutate]. }
  intros r s2 [Hm (new & Hn & _)]. cbn in Hn. destruct Hm as [(Hg & Hf & Hr & Ho)|[[Hg Hw] Hm]].
  - apply wp_disarm; [|congruence]. intros _. exists f1, rs, new. split; [done|]. split; [done|]. by left.
  - assert (Hb : set_image_refs rs (file s2) = file s) by (destruct Hw as [-> | ->]; done).
    apply wp_disarm; [congruence|]. intros _. rewrite Hb. exists f1, rs, (EWrite (file s) :: new). cbn.
    split; [done|]. split; [by rewrite Hn|]. right. split; [done|]. exists (log s2). split; [done|].
    destruct r; exact Hm.
Qed.

(** Up to the lock, and when refused, a run only asks. *)
Definition asks (s s' : state) : Prop := file s' = file s ∧ only untouched s s'.

Lemma asks_record e s s' : untouched e → asks s s' → asks s (record e s').
Proof. intros He [Hf Ho]. split; [done|]. etransitivity; [exact Ho|]. by apply only_one. Qed.

Lemma asks_refl s : asks s s.
Proof. split; [done|]. reflexivity. Qed.

Lemma wp_resolve_mode c (Q : result exc string → state → Prop) s :
  (∀ mode s', asks s s' → Q (Ok mode) s') → wp (_resolve_mode E c) Q s.
Proof.
  intros HQ. unfold _resolve_mode. destruct (nonempty (GREFFER_MODE c)); [by apply wp_ret, HQ, asks_refl|].
  apply wp_bind, wp_answer, wp_ret, HQ. by apply asks_record, asks_refl.
Qed.

(** The lock is the last thing taken, where the platform has one. *)
Definition took_lock (h : history) : Prop := has_fcntl E = true → ∃ f older, h = EFlock f true :: older.

Lemma wp_flock_loop n f (Q : result exc bool → state → Prop) s :
  (∀ s', asks s s' → Q (Ok false) s') → (∀ s', asks s s' → took_lock (log s') → Q (Ok true) s') →
  wp (flock_loop E n f) Q s.
Proof.
  intros H1 H2. assert (H0 : asks s s) by apply asks_refl. revert H0. generalize s at 2 3.
  induction n as [|n IH]; intros s1 H0; cbn [flock_loop]; [by apply wp_ret, H1|].
  apply wp_bind, wp_answer. assert (Ha : asks s (record (EFlock f (flock_answer E (log s1))) s1)) by by apply asks_record.
  destruct (flock_answer E (log s1)); [|by apply IH]. apply wp_ret, H2; [done|]. intros _. cbn. eauto.
Qed.

Lemma wp_acquire_update_lock (Q : result exc bool → state → Prop) s :
  (∀ s', asks s s' → Q (Ok false) s') → (∀ s', asks s s' → took_lock (log s') → Q (Ok true) s') →
  wp (_acquire_update_lock E) Q s.
Proof.
  intros H1 H2. unfold _acquire_update_lock. destruct (has_fcntl E) eqn:Hfc; cbn [negb].
  2:{ apply wp_ret, H2; [apply asks_refl|]. unfold took_lock. by rewrite Hfc. }
  assert (Hf : ∀ f s1, asks s s1 → wp (flock_loop E 20 f) Q s1).
  { intros f s1 [Hf Ho]. apply wp_flock_loop; intros s2 [Hf2 Ho2]; [apply H1|apply H2];
      (split; [congruence|by etransitivity]). }
  apply wp_bind, wp_answer, wp_bind. destruct (mountpoint_answer E (log s)).
  - apply wp_answer, Hf. by apply asks_record, asks_record, asks_refl.
  - apply wp_ret, Hf. by apply asks_record, asks_refl.
Qed.

(** A run that touches nothing. *)
Definition left_alone (c : config) (s : state) (r : result exc Z) (s' : state) : Prop :=
  asks s s' ∧ (r = Ok EXIT_PREFLIGHT_REFUSED ∨ r = Ok EXIT_OK ∧ (check_only c = true ∨
     ∃ img ref older, log s' = EImage ref (Some img) :: ERunningImage (Some img) :: older)).

(** A run that reaches the retag: what it read, and what its window leaves. *)
Definition went_on (c : config) (s : state) (r : result exc Z) (s' : state) : Prop :=
  ∃ body mode resolved locked pre f1 rs new,
    let start := EVersion locked :: pre ++ log s in
    log s' = EUnlock :: new ++ EWrite f1 :: start ∧ Forall untouched pre ∧ EManifest body ∈ pre ∧ took_lock pre ∧
    admitted c (file s) (body ≫= parse_manifest) resolved locked ∧
    set_image_tag (lit resolved) (file s) = Some (f1, rs) ∧
    window_end c mode resolved (file s) f1 (EWrite f1 :: start) r (file s') (new ++ EWrite f1 :: start).

Lemma resolve_target_valid to m resolved : resolve_target to m = Some resolved → is_valid_image_tag (lit resolved) = true.
Proof.
  unfold resolve_target. destruct (nonempty to) as [t|].
  - by destruct (is_valid_image_tag (lit t)) eqn:H; intros [= <-].
  - intros (l & _ & H)%bind_Some. by destruct (is_valid_image_tag (lit l)) eqn:Hl; simplify_eq.
Qed.

Lemma wp_locked_run c m mode resolved current s0 s body pre :
  rendered (file s0) → file s = file s0 → log s = pre ++ log s0 → Forall untouched pre →
  EManifest body ∈ pre → took_lock pre → m = body ≫= parse_manifest →
  (∀ locked, (locked = current → version_refused c m current resolved = false) →
     version_refused c m locked resolved = false → admitted c (file s0) m resolved locked) →
  version_refused c m current resolved = false → is_valid_image_tag (lit resolved) = true →
  wp (finally (locked_run E c m mode resolved current) (modify (record EUnlock)))
     (λ r s', left_alone c s0 r s' ∨ went_on c s0 r s') s.
Proof.
  intros Hrd Hf Hl Hpre Hbody Hlock -> Hadm Hcur Hval. apply wp_finally. unfold locked_run. apply wp_bind, wp_answer.
  set (locked := version_answer E (log s)). set (s1 := record _ s).
  destruct (negb (bool_decide (locked = current)) && version_refused c _ locked resolved) eqn:Href.
  { apply wp_ret, wp_modify. left. split; [|by left]. apply asks_record; [done|]. apply asks_record; [done|].
    split; [done|]. by exists pre. }
  assert (Hok : version_refused c (body ≫= parse_manifest) locked resolved = false).
  { apply andb_false_iff in Href as [H%negb_false_iff%bool_decide_eq_true|H]; [|done]. by rewrite H. }
  eapply wp_mono; [apply wp_retag_and_run; [cbn; by rewrite Hf|done]|].
  intros r s2 (f1 & rs & new & Hset & Hlog & Hend). apply wp_modify. right.
  exists body, mode, resolved, locked, pre, f1, rs, new. cbn in *. rewrite Hf, Hl in *.
  rewrite Hlog in *. split_and!; auto.
Qed.

Lemma wp_run_update c s : rendered (file s) →
  wp (run_update E c) (λ r s', left_alone c s r s' ∨ went_on c s r s') s.
Proof.
  intros Hrd.
  assert (Hno : ∀ s', asks s s' → left_alone c s (Ok EXIT_PREFLIGHT_REFUSED) s') by (intros s' H; split; auto).
  unfold run_update. apply wp_bind, wp_resolve_mode. intros mode s1 Hs1.
  apply wp_bind, wp_answer. set (body := manifest_answer E (log s1)). apply wp_bind, wp_answer.
  set (s2 := record (EManifest body) s1). set (current := version_answer E (log s2)).
  set (s3 := record (EVersion current) s2).
  assert (Hs3 : asks s s3) by (by apply asks_record, asks_record).
  assert (Hb : ∀ s', asks s3 s' → ∃ pre, log s' = pre ++ log s ∧ Forall untouched pre ∧ EManifest body ∈ pre).
  { destruct Hs1 as [_ (n1 & Hn1 & F1)]. intros s' [_ (n2 & Hn2 & F2)].
    exists (n2 ++ EVersion current :: EManifest body :: n1). cbn in Hn2. rewrite Hn2, Hn1, <- !app_assoc.
    split; [done|]. split; [|apply elem_of_app; right; right; left]. apply Forall_app. split; [done|].
    by do 2 (apply Forall_cons; split; [done|]). }
  clearbody s3. destruct (resolve_target (target c) _) as [resolved|] eqn:Htarget; [|by apply wp_ret; auto].
  destruct (check_only c) eqn:Hcheck; [apply wp_ret; left; split; [done|]; right; auto|].
  case_bool_decide as Hid; [by apply wp_ret; auto|]. apply wp_bind, wp_gets.
  replace (file s3) with (file s) by (symmetry; apply Hs3).
  destruct (data_volume_is_named (file s)) eqn:Hvol; [|by apply wp_ret; auto]. cbn [negb].
  destruct (is_true (below_floor _ _)) eqn:Hfloor; [by apply wp_ret; auto|].
  destruct (version_refused c _ current resolved) eqn:Hcur; [by apply wp_ret; auto|].
  apply wp_bind, wp_version_applied.
  { intros i. apply wp_ret. left. split; [by apply asks_record, asks_record|]. right. split; [done|]. right. cbn. eauto. }
  intros a b. assert (Hs4 : asks s3 (record (EImage (greffer_ref resolved) b) (record (ERunningImage a) s3))) by
    (by apply asks_record, asks_record, asks_refl).
  apply wp_bind, wp_acquire_update_lock.
  - intros s5 [Hf5 Ho5]. apply wp_ret; left; apply Hno. destruct Hs3, Hs4. split; [congruence|].
    etransitivity; [|exact Ho5]. by etransitivity.
  - intros s5 [Hf5 Ho5] Hlock. assert (H35 : asks s3 s5).
    { destruct Hs4. split; [congruence|]. by etransitivity. }
    destruct (Hb _ H35) as (pre & Hl & Fp & Hin). eapply wp_locked_run; try done.
    + destruct H35, Hs3. congruence.
    + intros Hfc. destruct (Hlock Hfc) as (f & older & Ho). rewrite Hl in Ho.
      destruct pre as [|e pre]; [by apply elem_of_nil in Hin|]. injection Ho as -> _. eauto.
    + by eapply resolve_target_valid.
Qed.
End whole.

(** ** The loops end by their deadline *)

(** The clock does not go back, and a second passes while a loop sleeps. *)
Record ticks (E : env) : Prop := {
  ticks_on new h : monotonic E h ≤ monotonic E (new ++ h);
  ticks_sleep h : monotonic E h + 1 ≤ monotonic E (ESleep :: h) }.

Section loops.
Context (E : env) (HE : ticks E) (rs : refs) (gid : option string) (services : list string).
Notation clock s := (monotonic E (log s)).

Lemma clock_grows s s' : grows s s' → clock s ≤ clock s'.
Proof. intros (new & -> & _). by apply ticks_on. Qed.

Lemma clock_sleep s s' : grows s s' → clock s + 1 ≤ clock (record ESleep s').
Proof. intros H%clock_grows. pose proof (ticks_sleep E HE (log s')). cbn. lia. Qed.

Lemma gate_loop_fuel ref cid base deadline n1 n2 s :
  deadline - clock s ≤ Z.of_nat n1 → deadline - clock s ≤ Z.of_nat n2 →
  gate_loop E n1 (signalled E rs) gid ref services cid base deadline s =
  gate_loop E n2 (signalled E rs) gid ref services cid base deadline s.
Proof.
  revert n2 s. induction n1 as [|n1 IH]; intros [|n2] s H1 H2; cbn [gate_loop]; unfold now;
    apply bind_ext; intros t s0 [= <- <-];
    (destruct (negb (_ <? _)) eqn:Ht; [done|apply negb_false_iff, Z.ltb_lt in Ht; try lia]).
  apply bind_ext. intros [g|] s1 Hp; [done|]. apply (rel_run _ _ _ _ _ (grows_poll E rs gid ref services)) in Hp.
  apply bind_ext. intros [] s2 Hc; [done|]. apply (rel_run _ _ _ _ _ (grows_crash_looping E rs cid base)) in Hc.
  apply bind_ext. intros [] s3 Hs%(rel_run _ _ _ _ _ (grows_signalled E rs)).
  apply bind_ext. intros [] s4 [= <-]. assert (Hz : grows s s3) by (etransitivity; [exact Hp|by etransitivity]).
  apply clock_sleep in Hz. apply IH; lia.
Qed.

Lemma rollback_loop_fuel deadline n1 n2 s :
  deadline - clock s ≤ Z.of_nat n1 → deadline - clock s ≤ Z.of_nat n2 →
  rollback_loop E n1 (signalled E rs) gid services deadline s =
  rollback_loop E n2 (signalled E rs) gid services deadline s.
Proof.
  revert n2 s. induction n1 as [|n1 IH]; intros [|n2] s H1 H2; cbn [rollback_loop]; unfold now;
    apply bind_ext; intros t s0 [= <- <-];
    (destruct (negb (_ <? _)) eqn:Ht; [done|apply negb_false_iff, Z.ltb_lt in Ht; try lia]).
  apply bind_ext. intros [] s1 Hp; [done|]. apply (rel_run _ _ _ _ _ (grows_healthy_again E rs gid services)) in Hp.
  apply bind_ext. intros [] s2 Hs%(rel_run _ _ _ _ _ (grows_signalled E rs)).
  apply bind_ext. intros [] s3 [= <-]. assert (Hz : grows s s2) by by etransitivity.
  apply clock_sleep in Hz. apply IH; lia.
Qed.
End loops.

Definition start (f : text) : state := {| file := f; log := []; gate_passed := false |}.

(** The file is the old one, or the target's, and then it was seen ready. *)
Definition all_or_nothing (c : config) (f0 : text) (r : result exc Z) (s' : state) : Prop :=
  file s' = f0 ∨
  ∃ mode resolved rs seen, set_image_tag (lit resolved) f0 = Some (file s', rs) ∧ log s' = EUnlock :: seen ∧
    ready_seen (GREFFER_ID c) (greffer_ref resolved) (active_services mode) seen ∧
    (r = Ok EXIT_OK ∨ r = Raise KeyboardInterrupt ∨ r = Raise (SystemExit EXIT_OK)).


(** What an exit code says of a run from [f0] that left the file [f]; [h] is what
    it did, newest first. *)
Definition exit_means (c : config) (f0 f : text) (h : history) (code : Z) : Prop :=
  code = EXIT_PREFLIGHT_REFUSED ∧ f = f0 ∧ Forall untouched h ∨
  code = EXIT_OK ∧ f = f0 ∧ Forall untouched h ∧
    (check_only c = true ∨ ∃ img ref older, h = EImage ref (Some img) :: ERunningImage (Some img) :: older) ∨
  code = EXIT_OK ∧ (∃ mode resolved rs seen, set_image_tag (lit resolved) f0 = Some (f, rs) ∧ h = EUnlock :: seen ∧
    ready_seen (GREFFER_ID c) (greffer_ref resolved) (active_services mode) seen) ∨
  code = EXIT_FAILED_ROLLED_BACK ∧ f = f0 ∧ (∃ older, h = EUnlock :: EWrite f0 :: EPull false :: older) ∨
  f = f0 ∧ ∃ mode seen, h = EUnlock :: EWrite f0 :: seen ∧ rolled_back f0 (GREFFER_ID c) (active_services mode) code seen.

(** A run exits 3 only having touched nothing. It exits 0 with the file
    changed only when the gate passed, and otherwise only for [--check] or a
    node already on the target image. It exits 1 only with the file restored, and
    either the pull had failed, before any recreate, or the last thing done to
    the node was to recreate it from the prior file and it was then seen healthy.
    It exits 2 only after recreating it from the prior file. No other
    code is returned. *)
Theorem update_exit_codes E c f0 : rendered f0 →
  wp (run_update E c) (λ r s', ∀ code, r = Ok code → exit_means c f0 (file s') (log s') code) (start f0).
Proof.
  intros Hrd. eapply wp_mono; [by apply wp_run_update|]. unfold exit_means. intros r s' [[[Hf Ho] Hr]|H] code ->.
  { destruct Ho as (new & Hl & Fn). cbn in Hl. rewrite app_nil_r in Hl. rewrite Hl in *.
    destruct Hr as [Hr|[Hr Hwhy]]; injection Hr as ->; [by left|]. right; left. auto. }
  destruct H as (body & mode & resolved & locked & pre & f1 & rs & new & Hl & _ & _ & _ & _ & Hset & Hend).
  cbn zeta in Hl, Hend. destruct Hend as [(Hf & Hseen & Hr)|(Hf & h' & Hh & [[-> Hpull]|Hback])].
  - destruct Hr as [Hr|[Hr|Hr]]; [|done..]. injection Hr as ->. right; right; left. split; [done|].
    exists mode, resolved, rs. eexists. rewrite Hf. split; [exact Hset|]. by split.
  - right; right; right; left. rewrite Hl, Hh, Hpull. eauto.
  - right; right; right; right. rewrite Hl, Hh. split; [done|]. by exists mode, h'.
Qed.

(** Whatever touched the node came after a version was read under the lock, for
    which the run is admitted. *)
Definition admitted_first (E : env) (c : config) (f0 : text) (h : history) : Prop :=
  ∀ e, e ∈ h → ¬ untouched e →
    ∃ body resolved locked later before, h = later ++ EVersion locked :: before ∧
      took_lock E before ∧ Forall untouched before ∧ EManifest body ∈ before ∧
      admitted c f0 (body ≫= parse_manifest) resolved locked.

(** Nothing is pulled, rewritten or recreated unless the run was
    admitted: the target came from [--to] or the manifest it fetched and is not
    below the manifest's floor, the node has an id and a named data volume, and,
    for the version read after the host lock was taken, before anything was
    touched, the move is not an unasked downgrade and is known to be reversible
    or confirmed. *)
Theorem update_admitted E c f0 : rendered f0 →
  wp (run_update E c) (λ _ s', admitted_first E c f0 (log s')) (start f0).
Proof.
  intros Hrd. eapply wp_mono; [by apply wp_run_update|]. intros r s' [[[_ Ho] _]|H] e He Ht.
  { destruct Ho as (new & Hl & Fn). cbn in Hl. rewrite app_nil_r in Hl. rewrite Hl in He.
    rewrite Forall_forall in Fn. by apply Fn in He. }
  destruct H as (body & mode & resolved & locked & pre & f1 & rs & new & Hl & Fp & Hb & Hlock & Had & _).
  cbn in Hl. rewrite app_nil_r in Hl.
  exists body, resolved, locked, (EUnlock :: new ++ [EWrite f1]), pre. split; [|done].
  rewrite Hl. cbn. by rewrite <- app_assoc.
Qed.

(** The waits of an update end by their deadline and by nothing else: while a
    second passes at every sleep, the rounds the model grants the health gate and
    the rollback check are enough, from any point at or after the moment their
    timeout was set: granting more gives the same verdict and does
    the same things. *)
Theorem gate_rounds_suffice E rs gid ref services cid base timeout n s s' : ticks E → grows s s' →
  (rounds timeout ≤ n)%nat →
  let deadline := monotonic E (log s) + timeout in
  gate_loop E n (signalled E rs) gid ref services cid base deadline s' =
    gate_loop E (rounds timeout) (signalled E rs) gid ref services cid base deadline s' ∧
  rollback_loop E n (signalled E rs) gid services deadline s' =
    rollback_loop E (rounds timeout) (signalled E rs) gid services deadline s'.
Proof.
  intros HE Hg Hn deadline. apply (clock_grows E HE) in Hg. unfold deadline, rounds in *.
  split; [apply gate_loop_fuel|apply rollback_loop_fuel]; (done || lia).
Qed.

(** ** A node that updates, and one whose new image does not come up *)
Module Demo.
Definition id : string := "0b8f2a5c".
Definition manifest_body : value := VDict [(VStr "latest", VStr "0.9.0"); (VStr "min_supported", VStr "0.4.0")]%string.
Definition readyz (status : string) : value := VDict [(VStr "id", VStr id); (VStr "status", VStr status)]%string.

(** The tag the node was last recreated into; it starts on 0.5.0. *)
Fixpoint runs_new (h : history) : bool :=
  match h with
  | EUp f _ :: _ => negb (bool_decide (f = demo_file))
  | _ :: h => runs_new h
  | [] => false
  end.
#[local] Instance sleep_dec (e : event) : Decision (e = ESleep).
Proof. destruct e; first [by left | by right]. Defined.

Definition sleeps (h : history) : Z := Z.of_nat (length (filter (λ e, e = ESleep) h)).

Definition node (comes_up : bool) : env := {|
  manifest_answer _ := Some manifest_body;
  version_answer h := Some (if runs_new h then "0.9.0" else "0.5.0")%string;
  services_answer _ := {["greffer" := true; "nginx" := true]}%string;
  container_answer _ := Some "cid"%string;
  restarts_answer _ := 0;
  healthz_answer _ := true;
  readyz_answer h := Some (readyz (if runs_new h && negb comes_up then "fatal" else "ready"));
  running_image_answer h := Some (if runs_new h then "sha256:9" else "sha256:5")%string;
  image_answer _ _ := Some "sha256:9"%string;
  mountpoint_answer _ := Some "/var/lib/docker/volumes/greffer_greffon-data/_data"%string;
  open_lock_answer _ := true;
  flock_answer _ := true;
  has_fcntl := true;
  pull_answer _ := true;
  up_answer _ := true;
  monotonic h := 2 * sleeps h;
  interrupted _ := None |}.

Definition options : config := {|
  target := None; timeout := 600; confirm_no_rollback := false; check_only := false;
  GREFFER_ID := Some id; GREFFER_MODE := Some "proxy"%string |}.

(** What happens to each: the file's image lines and the exit code. *)
Definition outcome (E : env) : result exc Z * text := let r := run_update E options (start demo_file) in (r.1, file r.2).

Example node_updates :
  outcome (node true) = (Ok EXIT_OK, default [] (fst <$> set_image_tag (lit "0.9.0") demo_file)).
Proof. vm_compute. reflexivity. Qed.

Example node_rolls_back : outcome (node false) = (Ok EXIT_FAILED_ROLLED_BACK, demo_file).
Proof. vm_compute. reflexivity. Qed.

Lemma ticks_node b : ticks (node b).
Proof.
  split; [|intros h; cbn; unfold sleeps; rewrite filter_cons_True by done; cbn; lia].
  intros new h. cbn. unfold sleeps. rewrite filter_app, length_app. lia.
Qed.
End Demo.


Lemma update_exit_codes_witness :
  let run b := run_update (Demo.node b) Demo.options (start demo_file) in
  exit_means Demo.options demo_file (file (run true).2) (log (run true).2) EXIT_OK ∧
  exit_means Demo.options demo_file (file (run false).2) (log (run false).2) EXIT_FAILED_ROLLED_BACK.
Proof.
  split; (eapply update_exit_codes; [exact demo_rendered|vm_compute; reflexivity]).
Defined.

Lemma update_admitted_witness :
  wp (run_update (Demo.node true) Demo.options)
     (λ _ s', admitted_first (Demo.node true) Demo.options demo_file (log s')) (start demo_file).
Proof. apply update_admitted, demo_rendered. Defined.

Lemma gate_rounds_suffice_witness :
  let E := Demo.node false in
  gate_loop E 1000 (signalled E ∅) (Some Demo.id) "greffon/greffer:0.9.0" ["greffer"]%string None 0 600 (start demo_file) =
  gate_loop E 601 (signalled E ∅) (Some Demo.id) "greffon/greffer:0.9.0" ["greffer"]%string None 0 600 (start demo_file).
Proof.
  intros E. refine (proj1 (gate_rounds_suffice E ∅ (Some Demo.id) "greffon/greffer:0.9.0" ["greffer"]%string None 0
    600 1000 (start demo_file) (start demo_file) (Demo.ticks_node false) _ _)); [reflexivity|].
  apply Nat.leb_le. vm_compute. reflexivity.
Defined.
