(* ===== verification/Recreate.v ===== *)
(** [cli/greffer_cli/updater/recreate.py]: the arguments that recreate a container
    from another image, out of what [docker inspect] said of it.

    A field that docker leaves out or null reads as empty, which is how the code
    reads it ([x or {}]). *)
From Stdlib Require Import Ascii String.
From S2P Require Import Prelude PyValue.
Local Open Scope list_scope.
Local Open Scope Z_scope.

(** ** What docker says of a container and of an image *)

(** A JSON object of strings, in order. *)
Notation dict := (list (string * string)).

Record healthcheck : Type := Healthcheck {
  Test : list string; Interval : Z; Timeout : Z; StartPeriod : Z; Retries : Z }.

#[export] Instance healthcheck_eq : EqDecision healthcheck.
Proof. solve_decision. Defined.

Definition no_healthcheck : healthcheck := Healthcheck [] 0 0 0 0.

(** [.Config], of a container or of an image. *)
Record docker_config : Type := DockerConfig {
  Env : list string; Labels : dict; Health : healthcheck;
  User : string; WorkingDir : string; StopSignal : string;
  Entrypoint : list string; Cmd : list string }.

Definition empty_config : docker_config := DockerConfig [] [] no_healthcheck "" "" "" [] [].

Record mount : Type := Mount {
  m_type : string; m_name : string; m_source : string; m_destination : string; m_rw : option bool }.

Record host_config : Type := HostConfig {
  NetworkMode : string;
  restart_name : string; MaximumRetryCount : Z;
  log_type : string; log_config : dict;
  ExtraHosts : list string;
  PortBindings : list (string * list (string * string)) }.   (** [HostIp], [HostPort] *)

Record container : Type := Container {
  Name : string; c_config : docker_config; host : host_config; Mounts : list mount }.

(** ** Dictionaries *)
Fixpoint get (k : string) (d : dict) : option string :=
  match d with
  | [] => None
  | (k', v) :: d => if String.eqb k' k then Some v else get k d
  end.

(** [d[k] = v] *)
Fixpoint put (k v : string) (d : dict) : dict :=
  match d with
  | [] => [(k, v)]
  | (k', v') :: d => if String.eqb k' k then (k', v) :: d else (k', v') :: put k v d
  end.

(** [k, _, v = s.partition(c)] *)
Definition partition (c : ascii) (s : string) : string * string :=
  let '(k, v) := Text.partition c s in (k, default ""%string v).

Definition _kv_list_to_dict (env_list : list string) : dict :=
  foldl (λ out item, let '(k, v) := partition "=" item in put k v out) [] env_list.

(** [{k: v for k, v in d.items() if base.get(k) != v}] *)
Definition delta (base d : dict) : dict :=
  List.filter (λ kv, negb (bool_decide (get kv.1 base = Some kv.2))) d.

Definition _env_delta (container_env old_image_env : list string) : dict :=
  delta (_kv_list_to_dict old_image_env) (_kv_list_to_dict container_env).
Definition _dict_delta (container_map old_image_map : dict) : dict := delta old_image_map container_map.

(** ** Durations *)

(** [f"{seconds}s"] for a whole number of nanoseconds from 0.1 ms to eleven days,
    where the shortest decimal of the quotient is the quotient. *)
Fixpoint digits (n : nat) (z : Z) : string :=
  match n with
  | O => ""
  | S n => digits n (z / 10) +:+ pretty (z mod 10)
  end%string.
Definition rstrip_zeros (s : string) : string := String.rev (Text.lstrip_char "0" (String.rev s)).
Definition _duration (ns : Z) : string :=
  let whole := ns / 1000000000 in
  let rest := ns mod 1000000000 in
  (if (rest =? 0)%Z then pretty whole +:+ "s"
  else pretty whole +:+ "." +:+ rstrip_zeros (digits 9 rest) +:+ "s")%string.

(** ** The groups of arguments *)
Definition _network_args (h : host_config) (service : string) : list string :=
  let mode := NetworkMode h in
  if String.eqb mode "host" then ["--network"; "host"]%string
  else if String.eqb mode "none" then ["--network"; "none"]%string
  else if Text.mem mode [""; "default"; "bridge"]%string then []
  else ["--network"; mode]%string ++ (if String.eqb service "" then [] else ["--network-alias"; service]%string).

Definition _restart_args (h : host_config) : list string :=
  let name := restart_name h in
  if String.eqb name "" || String.eqb name "no" then []
  else if String.eqb name "on-failure" then
    let n := MaximumRetryCount h in
    if n =? 0 then ["--restart"; "on-failure"]%string else ["--restart"; "on-failure:" +:+ pretty n]%string
  else ["--restart"; name]%string.

(** [for k, v in d.items(): args += [flag, f"{k}={v}"]] *)
Definition pair_args (flag : string) (d : dict) : list string :=
  d ≫= λ '(k, v), [flag; (k +:+ "=" +:+ v)%string].

Definition _log_args (h : host_config) : list string :=
  if String.eqb (log_type h) "" then []
  else ["--log-driver"; log_type h]%string ++ pair_args "--log-opt" (log_config h).

Definition mount_spec (m : mount) : option string :=
  let src := if String.eqb (m_type m) "volume" then m_name m
             else if String.eqb (m_type m) "bind" then m_source m else ""%string in
  if String.eqb (m_destination m) "" || String.eqb src "" then None
  else Some (src +:+ ":" +:+ m_destination m +:+ (if bool_decide (m_rw m = Some false) then ":ro" else ""))%string.

Definition _mount_args (mounts : list mount) : list string :=
  omap mount_spec mounts ≫= λ spec, ["-v"; spec]%string.

Definition port_spec (container_port : string) (b : string * string) : string :=
  let '(cp, proto) := partition "/" container_port in
  let '(host_ip, host_port) := b in
  let spec := (if negb (String.eqb host_ip "") then host_ip +:+ ":" +:+ host_port +:+ ":" +:+ cp
               else if negb (String.eqb host_port "") then host_port +:+ ":" +:+ cp else cp)%string in
  (if negb (String.eqb proto "") && negb (String.eqb proto "tcp") then spec +:+ "/" +:+ proto else spec)%string.

Definition _port_args (port_bindings : list (string * list (string * string))) : list string :=
  port_bindings ≫= λ '(container_port, binds),
  binds ≫= λ b, ["-p"; port_spec container_port b]%string.

Definition health_cmd (test : list string) : string :=
  match test with
  | [] => ""%string
  | kind :: words =>
      if String.eqb kind "CMD-SHELL" && negb (bool_decide (words = [])) then default ""%string (head words)
      else if String.eqb kind "CMD" then String.concat " " words
      else String.concat " " test
  end.

Definition _healthcheck_args (cont_hc old_img_hc : healthcheck) : list string :=
  if bool_decide (cont_hc = old_img_hc) then []
  else if bool_decide (Test cont_hc = []) || bool_decide (Test cont_hc = ["NONE"%string])
  then if bool_decide (old_img_hc = no_healthcheck) then [] else ["--no-healthcheck"]%string
  else
    ["--health-cmd"%string; health_cmd (Test cont_hc)] ++
    ([("--health-interval", Interval cont_hc); ("--health-timeout", Timeout cont_hc);
      ("--health-start-period", StartPeriod cont_hc)]%string ≫= λ '(flag, ns),
       if ns =? 0 then [] else [flag; _duration ns]) ++
    (if Retries cont_hc =? 0 then [] else ["--health-retries"%string; pretty (Retries cont_hc)]).

Definition _SCALAR_FIELDS : list ((docker_config → string) * string) :=
  [(User, "--user"); (WorkingDir, "--workdir"); (StopSignal, "--stop-signal")]%string.

Definition _scalar_delta_args (cont_cfg old_img_cfg : docker_config) : list string :=
  _SCALAR_FIELDS ≫= λ '(key, flag),
    let cval := key cont_cfg in
    if negb (String.eqb cval "") && negb (String.eqb cval (key old_img_cfg)) then [flag; cval] else [].

Definition _entrypoint_override (cont_ep old_img_ep : list string) : option string :=
  if bool_decide (cont_ep = old_img_ep) then None else head cont_ep.

Definition _cmd_override (cont_cmd old_img_cmd : list string) : list string :=
  if bool_decide (cont_cmd = old_img_cmd) then [] else cont_cmd.

Definition container_name (c : container) : string := Text.lstrip_char "/" (Name c).

Definition build_create_argv (c : container) (old_cfg : docker_config) (image_ref service : string) : list string :=
  let cfg := c_config c in
  ["create"; "--name"; container_name c]%string ++
  _network_args (host c) service ++
  _restart_args (host c) ++
  _log_args (host c) ++
  (ExtraHosts (host c) ≫= λ h, ["--add-host"%string; h]) ++
  pair_args "-e" (_env_delta (Env cfg) (Env old_cfg)) ++
  pair_args "--label" (_dict_delta (Labels cfg) (Labels old_cfg)) ++
  _mount_args (Mounts c) ++
  _port_args (PortBindings (host c)) ++
  _healthcheck_args (Health cfg) (Health old_cfg) ++
  _scalar_delta_args cfg old_cfg ++
  match _entrypoint_override (Entrypoint cfg) (Entrypoint old_cfg) with
  | Some entrypoint => ["--entrypoint"%string; entrypoint]
  | None => []
  end ++
  [image_ref] ++
  _cmd_override (Cmd cfg) (Cmd old_cfg).

(** ** What the overlay amounts to *)

(** What a container has of a variable or label: its own overlay, or the image's. *)
Definition effective (image overlay : dict) (k : string) : option string :=
  match get k overlay with Some v => Some v | None => get k image end.

(** A value of the old container survives unless the old image baked that same
    value, in which case it is the new image's to choose. *)
Definition carried (cont old new : dict) (k : string) : option string :=
  match get k cont with
  | Some v => if bool_decide (get k old = Some v) then get k new else Some v
  | None => get k new
  end.

(** ** Dictionaries *)
Lemma get_put k v d k' : get k' (put k v d) = if String.eqb k k' then Some v else get k' d.
Proof.
  induction d as [|[j w] d IH]; cbn; [done|]. destruct (String.eqb_spec j k) as [->|Hj]; cbn.
  - by destruct (String.eqb k k').
  - rewrite IH. destruct (String.eqb_spec j k') as [->|]; [|done]. by destruct (String.eqb_spec k k'); subst.
Qed.

Lemma put_keys k v d : (put k v d).*1 = match get k d with Some _ => d.*1 | None => d.*1 ++ [k] end.
Proof.
  induction d as [|[j w] d IH]; csimpl; [done|]. destruct (String.eqb j k); csimpl; [done|].
  rewrite IH. by destruct (get k d).
Qed.

Lemma get_None k d : get k d = None ↔ k ∉ d.*1.
Proof.
  induction d as [|[j w] d IH]; csimpl; [by split; [intros _ ?%elem_of_nil|]|].
  rewrite elem_of_cons. destruct (String.eqb_spec j k); naive_solver.
Qed.

Lemma get_elem k v d : get k d = Some v → (k, v) ∈ d.
Proof.
  induction d as [|[j w] d IH]; cbn; [done|].
  destruct (String.eqb_spec j k) as [->|]; [intros [= ->]; left|right; auto].
Qed.

(** Plain keys: each once, none with the separator. *)
Definition plain_keys (d : dict) : Prop := NoDup d.*1 ∧ Forall (λ k, Text.has_char "=" k = false) d.*1.

Lemma plain_put k v d : Text.has_char "=" k = false → plain_keys d → plain_keys (put k v d).
Proof.
  intros Hk [Hn Hf]. unfold plain_keys. rewrite put_keys. destruct (get k d) eqn:Hg; [done|].
  apply get_None in Hg. split; [|by apply Forall_app; split; [|apply Forall_singleton]].
  apply NoDup_app. split; [done|]. split; [|apply NoDup_singleton]. by intros x Hx ->%list_elem_of_singleton.
Qed.

Lemma partition_plain c s : Text.has_char c (partition c s).1 = false.
Proof.
  unfold partition, Text.has_char. induction s as [|d s IH]; [done|]. cbn.
  destruct (Ascii.eqb d c) eqn:Hd; [done|]. destruct (Text.partition c s) as [k v]. cbn in *. by rewrite Hd.
Qed.

Lemma partition_join c k v : Text.has_char c k = false → partition c (k +:+ String c v) = (k, v).
Proof.
  unfold partition, Text.has_char. induction k as [|d k IH].
  - change ("" +:+ String c v)%string with (String c v). cbn. by rewrite Ascii.eqb_refl.
  - change (String d k +:+ String c v)%string with (String d (k +:+ String c v)). cbn.
    destruct (Ascii.eqb d c); [done|]. cbn. intros H%IH. destruct (Text.partition c _). cbn in *. congruence.
Qed.

Lemma kv_list_plain l : plain_keys (_kv_list_to_dict l).
Proof.
  unfold _kv_list_to_dict. assert (H : plain_keys []) by (split; constructor). revert H.
  generalize (@nil (string * string)). induction l as [|s l IH]; intros d Hd; [done|]. cbn. apply IH.
  pose proof (partition_plain "=" s) as Hp. destruct (partition "=" s) as [k v]. by apply plain_put.
Qed.

Lemma delta_plain base d : plain_keys d → plain_keys (delta base d).
Proof.
  intros [Hn Hf]. assert (Hs : (delta base d).*1 `sublist_of` d.*1).
  { unfold delta. clear. induction d as [|x d IH]; cbn; [done|].
    destruct (negb _); cbn; by constructor. }
  split; [by eapply sublist_NoDup|]. eapply Forall_forall. intros k Hk.
  eapply Forall_forall in Hf; [exact Hf|]. by eapply elem_of_submseteq, sublist_submseteq.
Qed.

(** Reading back the pairs that [pair_args] writes. *)
Lemma kv_list_pairs d : plain_keys d →
  ∀ k, get k (_kv_list_to_dict ((λ kv, kv.1 +:+ "=" +:+ kv.2)%string <$> d)) = get k d.
Proof.
  intros [Hn Hf] k. unfold _kv_list_to_dict.
  enough (H : ∀ a, get k (foldl (λ out item, let '(k0, v) := partition "=" item in put k0 v out) a
    ((λ kv, kv.1 +:+ "=" +:+ kv.2)%string <$> d)) = match get k d with Some v => Some v | None => get k a end)
    by (rewrite H; by destruct (get k d)).
  induction d as [|[j w] d IH]; intros a; [done|]. csimpl in *.
  apply NoDup_cons in Hn as [Hj Hn]. apply Forall_cons in Hf as [Hp Hf].
  change (j +:+ "=" +:+ w)%string with (j +:+ String "=" w)%string.
  rewrite (partition_join "=" j w Hp), IH, get_put by done.
  destruct (String.eqb_spec j k) as [->|]; [|done]. apply get_None in Hj. by rewrite Hj.
Qed.

Lemma get_delta base d k : NoDup d.*1 →
  get k (delta base d) = match get k d with
                         | Some v => if bool_decide (get k base = Some v) then None else Some v
                         | None => None end.
Proof.
  unfold delta. induction d as [|[j w] d IH]; csimpl; [done|]. intros [Hj Hn]%NoDup_cons.
  destruct (String.eqb_spec j k) as [->|Hne].
  - case_bool_decide; csimpl; [|by rewrite String.eqb_refl]. rewrite IH by done.
    apply get_None in Hj. by rewrite Hj.
  - case_bool_decide; csimpl; [by apply IH|]. rewrite (proj2 (String.eqb_neq _ _) Hne). by apply IH.
Qed.

Lemma effective_delta cont base new k : plain_keys cont →
  effective new (_kv_list_to_dict ((λ kv, kv.1 +:+ "=" +:+ kv.2)%string <$> delta base cont)) k = carried cont base new k.
Proof.
  intros Hp. unfold effective, carried. rewrite kv_list_pairs, get_delta by (apply Hp || by apply delta_plain).
  destruct (get k cont); [by case_bool_decide|done].
Qed.

(** Whatever image replaces the old one, every variable and every label the
    recreated container is given on top of it leaves it what the old container had,
    unless the old image had baked that same value, which is then the new image's to
    set. *)
Theorem overlay_carries c old new k : plain_keys (Labels (c_config c)) →
  let env config := _kv_list_to_dict (Env config) in
  let told d := _kv_list_to_dict ((λ kv, kv.1 +:+ "=" +:+ kv.2)%string <$> d) in
  effective (env new) (told (_env_delta (Env (c_config c)) (Env old))) k
    = carried (env (c_config c)) (env old) (env new) k ∧
  effective (Labels new) (told (_dict_delta (Labels (c_config c)) (Labels old))) k
    = carried (Labels (c_config c)) (Labels old) (Labels new) k.
Proof. intros Hl. split; apply effective_delta; [apply kv_list_plain|done]. Qed.

(** ** An example *)
Module Demo.
Local Open Scope string_scope.

(** An image that bakes a path and a maintainer, and a container of it whose
    compose file sets an id, a label that looks like a flag and a read-only mount. *)
Definition old_image : docker_config :=
  DockerConfig ["PATH=/usr/bin"; "UPDATER=sha256:1"] [("maintainer", "greffon")] no_healthcheck "" "/app" "" [] ["uvicorn"].
Definition greffer : container := Container "/greffer-greffer-1"
  (DockerConfig ["PATH=/usr/bin"; "UPDATER=sha256:1"; "GREFFER_ID=a=b"]
     [("maintainer", "greffon"); ("com.docker.compose.service", "--privileged")]
     (Healthcheck ["CMD-SHELL"; "pgrep rathole"] 1500000000 0 0 3) "" "/app" "" [] ["uvicorn"; "--reload"])
  (HostConfig "greffer_internal" "unless-stopped" 0 "json-file" [("max-size", "10m")] [] [("8000/tcp", [("", "8000")])])
  [Mount "volume" "greffer_greffon-data" "" "/data" (Some true); Mount "bind" "" "/etc/ssl" "/ssl" (Some false)].

Example greffer_argv : build_create_argv greffer old_image "greffon/greffer:latest" "greffer" =
  ["create"; "--name"; "greffer-greffer-1"; "--network"; "greffer_internal"; "--network-alias"; "greffer";
   "--restart"; "unless-stopped"; "--log-driver"; "json-file"; "--log-opt"; "max-size=10m"; "-e"; "GREFFER_ID=a=b";
   "--label"; "com.docker.compose.service=--privileged"; "-v"; "greffer_greffon-data:/data"; "-v"; "/etc/ssl:/ssl:ro";
   "-p"; "8000:8000"; "--health-cmd"; "pgrep rathole"; "--health-interval"; "1.5s"; "--health-retries"; "3";
   "greffon/greffer:latest"; "uvicorn"; "--reload"].
Proof. vm_compute. reflexivity. Qed.
End Demo.
