(* ===== verification/RemoteUpdate.v ===== *)
(** [cli/greffer_cli/updater]: the remote update, which runs in a container of its
    own, verifies every image of the stack, recreates the containers one by one
    ([Recreate]) and rolls all of them back when the node does not come up.

    Docker, cosign and the clock answer through [E : env], each answer depending
    on everything done and seen before, which the state keeps in [log], newest
    first. A call can also fail to run at all ([unexpected]): the exceptions that
    [subprocess.run] raises and [_run] does not catch. *)
From Stdlib Require Import Ascii String.
From S2P Require Import Prelude PyValue NodeImages NodeVersion Recreate.
Local Open Scope list_scope.
Local Open Scope Z_scope.

Definition EXIT_REFUSED : Z := EXIT_PREFLIGHT_REFUSED.
Definition GREFFER_SERVICE : string := "greffer".

Definition RECREATE_ORDER : list string := ["nginx"; "greffer"; "tunnel-sidecar"]%string.
Definition SERVICE_REPO : dict :=
  [("greffer", "greffon/greffer"); ("nginx", "greffon/greffer-nginx"); ("tunnel-sidecar", "greffon/tunnel-sidecar")]%string.

Record stack_container : Type := StackContainer { service : string; container_id : string; repo : string }.

(** What [docker inspect] says, with the image the container runs. *)
Record inspection : Type := Inspection { i_container : container; i_image : option string }.

(** ** The world *)
Inductive event : Type :=
  | EFlock (got : bool)
  | ERelease
  | EFind (cid : option string)                          (** of the greffer *)
  | EProject (project : option string)
  | EStack (lines : option (list string))
  | EVersion (ref : string) (v : option string)
  | EManifest (ref : string) (body : option value)       (** [buildx imagetools inspect] *)
  | ECosign (repo digest : string) (ok : bool)
  | EPull (by_digest : string) (ok : bool)
  | EInspect (cid : string) (i : option inspection)
  | EImage (ref : string) (id : option string)
  | EImageConfig (id : string) (cfg : option docker_config)
  | ETag (src dst : string) (ok : bool)
  | EStop (ref : string)
  | ERm (ref : string) (ok : bool)
  | ECreate (argv : list string) (ok : bool)
  | EStart (name : string) (ok : bool)
  | EReadyz (name : string) (body : option value)
  | ERestarts (name : string) (n : Z)
  | EImageOf (name : string) (id : option string)
  | ERunning (name : string) (up : bool)
  | ESleep
  | EPrune
  | ERaised.                                             (** a call that raised *)

Notation history := (list event).

Record env : Type := {
  has_fcntl : bool;
  flock_answer : history → bool;
  find_answer : history → option string;
  project_answer : history → option string;
  stack_answer : history → option (list string);
  version_answer : history → option string;
  manifest_answer : history → string → option value;
  cosign_answer : history → bool;
  pull_answer : history → bool;
  inspect_answer : history → option inspection;
  image_answer : history → string → option string;
  image_config_answer : history → string → option docker_config;
  ok_answer : history → bool;                (** tag, rm, create, start *)
  readyz_answer : history → option value;
  restarts_answer : history → Z;
  image_of_answer : history → string → option string;
  running_answer : history → string → bool;
  clock : history → Z;                       (** seconds *)
  unexpected : history → bool;               (** the next call raises *)
}.

Inductive exc : Type := VerifyError | Unexpected.

(** A container to recreate: its snapshot, its name and the image it runs. *)
Record snap : Type := Snap {
  s_container : stack_container; s_inspected : inspection; s_name : string; s_old : option string }.

Record state : Type := State { log : history; done_ : list snap }.

Section updater.
Context (E : env).
Notation J := (M state exc).

Definition record (e : event) (s : state) : state := State (e :: log s) (done_ s).
Definition append_done (x : snap) (s : state) : state := State (log s) (done_ s ++ [x]).

(** A call: it raises, or answers. *)
Definition ask {A} (f : history → A) (ev : A → event) : J A := λ s,
  if unexpected E (log s) then (Raise Unexpected, record ERaised s)
  else let a := f (log s) in (Ok a, record (ev a) s).
Definition now : J Z := gets (λ s, clock E (log s)).

(** ** Provenance *)
Definition hex_lower (c : ascii) : bool :=
  let n := N_of_ascii c in Text.is_digit c || ((97 <=? n)%N && (n <=? 102)%N).

Definition manifest_digest (body : option value) : option string :=
  match body with
  | Some (VDict d) =>
      match get_or_null "digest" d with
      | VStr digest =>
          let hexpart := substring 7 (String.length digest) digest in
          if Text.startswith "sha256:" digest && (String.length hexpart =? 64)%nat && Text.all_chars hex_lower hexpart
          then Some digest else None
      | _ => None
      end
  | _ => None
  end.

Definition resolve_digest (ref : string) : J (option string) :=
  body ← ask (λ h, manifest_answer E h ref) (EManifest ref); mret (manifest_digest body).
Definition cosign_verify (repo digest : string) : J bool := ask (cosign_answer E) (ECosign repo digest).

Definition at_digest (repo digest : string) : string := repo +:+ "@" +:+ digest.
Definition latest_of (repo : string) : string := repo +:+ ":latest".

Definition verify_and_pull (repo tag : string) : J string :=
  digest ← resolve_digest (repo +:+ ":" +:+ tag);
  match digest with
  | None => throw VerifyError
  | Some digest =>
      signed ← cosign_verify repo digest;
      if negb signed then throw VerifyError
      else pulled ← ask (pull_answer E) (EPull (at_digest repo digest));
           if (pulled : bool) then mret digest else throw VerifyError
  end.

(** ** Discovery *)
Definition tab : ascii := ascii_of_N 9.

Definition stack_line (line : string) : option stack_container :=
  match Text.split tab (Text.strip line) with
  | [a; b] =>
      let cid := Text.strip a in
      let svc := Text.strip b in
      repo ← nonempty (get svc SERVICE_REPO);
      if String.eqb cid "" then None else Some (StackContainer svc cid repo)
  | _ => None
  end.

(** The first line of each service, in the order to recreate. *)
Definition ordered_stack (lines : list string) : list stack_container :=
  let found := omap stack_line lines in
  omap (λ svc, first_match (λ c, String.eqb (service c) svc) found) RECREATE_ORDER.

Definition discover_stack : J (list stack_container) :=
  greffer_id ← ask (find_answer E) EFind;
  match nonempty greffer_id with
  | None => mret []
  | Some _ =>
      project ← ask (project_answer E) EProject;
      match nonempty project with
      | None => mret []
      | Some _ => lines ← ask (stack_answer E) EStack; mret (ordered_stack (default [] lines))
      end
  end.

(** ** Tags and recreation *)
Definition tag (src dst : string) : J bool := ask (ok_answer E) (ETag src dst).
Definition tag_previous (repo : string) (image_id : option string) : J unit :=
  match nonempty image_id with
  | None => mret tt
  | Some id => _ ← tag id (repo +:+ ":previous"); mret tt
  end.
Definition retag_latest (repo digest : string) : J bool := tag (at_digest repo digest) (latest_of repo).
Definition restore_latest (repo image_id : string) : J bool := tag image_id (latest_of repo).

Definition image_config (id : option string) : J docker_config :=
  match nonempty id with
  | None => mret empty_config
  | Some id => cfg ← ask (λ h, image_config_answer E h id) (EImageConfig id); mret (default empty_config cfg)
  end.

Definition _do_recreate (i : inspection) (image_ref : string) (baseline : option string) (svc ref : string) : J bool :=
  old_cfg ← image_config baseline;
  let name := container_name (i_container i) in
  if String.eqb name "" then mret false
  else
    ask (λ _, tt) (λ _, EStop ref);;
    removed ← ask (ok_answer E) (ERm ref);
    if negb removed then mret false
    else
      created ← ask (ok_answer E) (ECreate (build_create_argv (i_container i) old_cfg image_ref svc));
      if negb created then mret false else ask (ok_answer E) (EStart name).

Definition recreate_one (x : snap) : J bool :=
  let c := s_container x in
  _do_recreate (s_inspected x) (latest_of (repo c)) (s_old x) (service c) (container_id c).
Definition rollback_one (x : snap) (old_image_id : string) : J bool :=
  _do_recreate (s_inspected x) old_image_id (Some old_image_id) (service (s_container x))
    (container_name (i_container (s_inspected x))).

(** ** The gate *)
Notation applied_ids := (gmap string (option string)).

(** No container is known to be on another image than the one verified for it. *)
Fixpoint all_applied (ids : applied_ids) (names : list string) : J bool :=
  match names with
  | [] => mret true
  | n :: names =>
      match nonempty (default None (ids !! n)) with
      | None => all_applied ids names
      | Some expected =>
          id ← ask (λ h, image_of_answer E h n) (EImageOf n);
          if bool_decide (id = Some expected) then all_applied ids names else mret false
      end
  end.

Fixpoint all_running (names : list string) : J bool :=
  match names with
  | [] => mret true
  | n :: names =>
      up ← ask (λ h, running_answer E h n) (ERunning n);
      if (up : bool) then all_running names else mret false
  end.

Definition poll (greffer_name : string) (greffer_id : option string) (ids : option applied_ids)
    (names : list string) : J (option gate) :=
  body ← ask (readyz_answer E) (EReadyz greffer_name);
  match parse_readyz body with
  | None => mret None
  | Some r =>
      if wrong_id greffer_id r then mret (Some GATE_WRONG_ID)
      else if eq_str (r_status r) "fatal" then mret (Some GATE_FATAL)
      else if eq_str (r_status r) "degraded" && negb (forallb TOLERABLE_DEGRADED_REASONS (r_reasons r))
      then mret (Some GATE_DEGRADED_OTHER)
      else if eq_str (r_status r) "ready" then
        applied ← match ids with Some ids => all_applied ids names | None => mret true end;
        if negb applied then mret (Some GATE_NOT_APPLIED)
        else up ← all_running names; mret (if (up : bool) then Some GATE_READY else None)
      else mret None
  end.

Fixpoint gate_loop (fuel : nat) (greffer_name : string) (greffer_id : option string) (ids : option applied_ids)
    (names : list string) (base_restarts deadline : Z) : J gate :=
  t ← now;
  if negb (t <? deadline) then mret GATE_TIMEOUT
  else match fuel with
  | O => mret GATE_TIMEOUT
  | S fuel =>
      decided ← poll greffer_name greffer_id ids names;
      match decided with
      | Some g => mret g
      | None =>
          n ← ask (restarts_answer E) (ERestarts greffer_name);
          if 1 <? n - base_restarts then mret GATE_CRASH_LOOP
          else modify (record ESleep);; gate_loop fuel greffer_name greffer_id ids names base_restarts deadline
      end
  end.

(** [ids]: [None] when the images are not checked ([check_version=False]). *)
Definition health_gate (greffer_name : string) (greffer_id : option string) (ids : option applied_ids)
    (names : list string) (timeout : Z) : J gate :=
  t ← now;
  base_restarts ← ask (restarts_answer E) (ERestarts greffer_name);
  gate_loop (rounds timeout) greffer_name greffer_id ids names base_restarts (t + timeout).

(** ** Rollback *)
Fixpoint rollback_all (l : list snap) : J bool :=
  match l with
  | [] => mret true
  | x :: l =>
      match nonempty (s_old x) with
      | None => _ ← rollback_all l; mret false
      | Some old =>
          ok ← rollback_one x old;
          _ ← restore_latest (repo (s_container x)) old;
          rest ← rollback_all l;
          mret ((ok : bool) && rest)
      end
  end.

Definition _rollback (greffer_name : string) (greffer_id : option string) (names : list string) (timeout : Z) : J Z :=
  recreated ← gets done_;
  all_ok ← rollback_all (reverse recreated);
  if (all_ok : bool) && negb (String.eqb greffer_name "") then
    outcome ← health_gate greffer_name greffer_id None names (Z.min timeout 120);
    mret (match outcome with GATE_READY => EXIT_FAILED_ROLLED_BACK | _ => EXIT_FAILED_ROLLBACK_FAILED end)
  else mret EXIT_FAILED_ROLLBACK_FAILED.

(** ** The run *)

(** The digest verified for each repository. *)
Notation digests := (gmap string string).

Fixpoint verify_all (stack : list stack_container) (tag : string) (verified : digests) : J digests :=
  match stack with
  | [] => mret verified
  | c :: stack => d ← verify_and_pull (repo c) tag; verify_all stack tag (<[repo c := d]> verified)
  end.

Definition snapshot_one (c : stack_container) : J (option snap) :=
  i ← ask (inspect_answer E) (EInspect (container_id c));
  match i with
  | None => mret None
  | Some i =>
      old ← match nonempty (i_image i) with
            | Some id => mret (Some id)
            | None => ask (λ h, image_answer E h (latest_of (repo c))) (EImage (latest_of (repo c)))
            end;
      mret (Some (Snap c i (container_name (i_container i)) old))
  end.

Fixpoint snapshot (stack : list stack_container) : J (option (list snap)) :=
  match stack with
  | [] => mret (Some [])
  | c :: stack =>
      x ← snapshot_one c;
      match x with
      | None => mret None
      | Some x => rest ← snapshot stack; mret (cons x <$> rest)
      end
  end.

(** [false] once a retag or a recreate fails. *)
Fixpoint recreate_all (verified : digests) (snaps : list snap) : J bool :=
  match snaps with
  | [] => mret true
  | x :: snaps =>
      let c := s_container x in
      tag_previous (repo c) (s_old x);;
      retagged ← retag_latest (repo c) (default ""%string (verified !! repo c));
      if negb retagged then mret false
      else
        ok ← recreate_one x;
        modify (append_done x);;
        if (ok : bool) then recreate_all verified snaps else mret false
  end.

Fixpoint applied_image_ids (verified : digests) (snaps : list snap) (ids : applied_ids) : J applied_ids :=
  match snaps with
  | [] => mret ids
  | x :: snaps =>
      let r := repo (s_container x) in
      let ref := at_digest r (default ""%string (verified !! r)) in
      id ← ask (λ h, image_answer E h ref) (EImage ref);
      applied_image_ids verified snaps (<[s_name x := id]> ids)
  end.

Definition went_back (v old : option string) : bool := is_true (is_downgrade old v).

Definition mutate (greffer_id : option string) (timeout : Z) (old_version : option string) (verified : digests)
    (snaps : list snap) : J Z :=
  let names := s_name <$> snaps in
  let greffer_name := default ""%string
    (s_name <$> first_match (λ x, String.eqb (service (s_container x)) GREFFER_SERVICE) snaps) in
  let rb := _rollback greffer_name greffer_id names timeout in
  catch
    (recreated ← recreate_all verified snaps;
     if negb recreated then rb
     else
       ids ← applied_image_ids verified snaps ∅;
       outcome ← health_gate greffer_name greffer_id (Some ids) names timeout;
       match outcome with
       | GATE_READY =>
           v ← ask (version_answer E) (EVersion greffer_name);
           if went_back v old_version then rb
           else ask (λ _, tt) (λ _, EPrune);; mret EXIT_OK
       | _ => rb
       end)
    (λ _, rb).

Record config : Type := { greffer_id : option string; target_tag : option string; timeout : Z }.

Definition run_remote_update (c : config) : J Z :=
  stack ← discover_stack;
  match first_match (λ x, String.eqb (service x) GREFFER_SERVICE) stack with
  | None => mret EXIT_REFUSED
  | Some greffer =>
      old_version ← ask (version_answer E) (EVersion (container_id greffer));
      let target := nonempty (target_tag c) in
      if bool_decide (target ≠ None) && went_back target old_version then mret EXIT_REFUSED
      else
        verified ← catch (v ← verify_all stack (default "latest"%string target) ∅; mret (Some v))
                     (λ e, match e with VerifyError => mret None | Unexpected => throw Unexpected end);
        match verified with
        | None => mret EXIT_REFUSED
        | Some verified =>
            snaps ← snapshot stack;
            match snaps with
            | None => mret EXIT_REFUSED
            | Some snaps => mutate (greffer_id c) (timeout c) old_version verified snaps
            end
        end
  end.

(** ** The entry point *)
Fixpoint flock_loop (attempts : nat) : J bool :=
  match attempts with
  | O => mret false
  | S attempts =>
      got ← ask (flock_answer E) EFlock;
      if (got : bool) then mret true else flock_loop attempts
  end.
Definition acquire_lock : J bool := if has_fcntl E then flock_loop 20 else mret true.

Definition main (c : config) : J Z :=
  handle ← acquire_lock;
  if negb handle then mret EXIT_REFUSED
  else finally (run_remote_update c) (modify (record ERelease)).
End updater.

(** ** What a computation adds to the history *)
Definition grew (P : event → Prop) (s s' : state) : Prop :=
  ∃ new, log s' = new ++ log s ∧ Forall P new.

#[export] Instance grew_preorder P : PreOrder (grew P).
Proof.
  split; [intros s; by exists []|]. intros s1 s2 s3 (n1 & H1 & F1) (n2 & H2 & F2). exists (n2 ++ n1).
  rewrite H2, H1, app_assoc. split; [done|]. by apply Forall_app.
Qed.

Lemma grew_impl (P Q : event → Prop) s s' : (∀ e, P e → Q e) → grew P s s' → grew Q s s'.
Proof. intros H (new & Hl & F). exists new. split; [done|]. by eapply Forall_impl. Qed.

Lemma grew_elem P s s' e : grew P s s' → e ∈ log s → e ∈ log s'.
Proof. intros (new & -> & _) H. apply elem_of_app. by right. Qed.

(** What changes the node. *)
Definition touches (e : event) : Prop :=
  match e with
  | ETag _ _ _ | EStop _ | ERm _ _ | ECreate _ _ | EStart _ _ | EPrune => True
  | _ => False
  end.

(** Neither touches the node nor hands the lock over. *)
Definition looks (e : event) : Prop := ¬ touches e ∧ e ≠ ERelease.

(** And leaves the list of recreated containers alone. *)
Definition went (P : event → Prop) (s s' : state) : Prop := grew P s s' ∧ done_ s' = done_ s.
Notation looked := (went looks).

#[export] Instance went_preorder P : PreOrder (went P).
Proof.
  split; [by intros s|]. intros s1 s2 s3 [G1 D1] [G2 D2]. split; [by etransitivity|congruence].
Qed.

Section grows.
Context (E : env).
Notation J := (M state exc).

Lemma wp_asked {A} (f : history → A) ev (Q : result exc A → state → Prop) s :
  (unexpected E (log s) = true → Q (Raise Unexpected) (record ERaised s)) →
  (unexpected E (log s) = false → Q (Ok (f (log s))) (record (ev (f (log s))) s)) → wp (ask E f ev) Q s.
Proof. unfold wp, ask. destruct (unexpected E (log s)); cbn; auto. Qed.

Lemma went_record (P : event → Prop) e s : P e → went P s (record e s).
Proof. intros He. split; [|done]. exists [e]. split; [done|]. by apply Forall_singleton. Qed.

Lemma went_ask {A} (P : event → Prop) (f : history → A) ev : P ERaised → (∀ a, P (ev a)) → rel (went P) (ask E f ev).
Proof. intros H0 H s. apply wp_asked; intros _; by apply went_record. Qed.
Lemma looked_sleep : rel looked (modify (record ESleep) : J unit).
Proof. apply rel_modify. intros s. apply went_record. by split; [cbn; tauto|]. Qed.
End grows.

Ltac look := repeat first
  [ apply went_ask; [by split; [cbn; tauto|]|intros ?; by split; [cbn; tauto|]] | apply looked_sleep | rel_step ].

Section facts.
Context (E : env).
Notation J := (M state exc).

Lemma looks_discover : rel looked (discover_stack E).
Proof. unfold discover_stack. look. Qed.

Lemma looks_verify repo tag : rel looked (verify_and_pull E repo tag).
Proof. unfold verify_and_pull, resolve_digest, cosign_verify. look. Qed.

Lemma looks_verify_all stack tag verified : rel looked (verify_all E stack tag verified).
Proof.
  revert verified. induction stack as [|c stack IH]; intros verified; cbn [verify_all]; [look|].
  apply rel_bind; [apply _|apply looks_verify|]. intros d. apply IH.
Qed.

Lemma looks_snapshot stack : rel looked (snapshot E stack).
Proof. induction stack as [|c stack IH]; cbn [snapshot]; unfold snapshot_one; look; apply IH. Qed.

Lemma looks_poll g gid ids names : rel looked (poll E g gid ids names).
Proof.
  assert (Ha : ∀ ids, rel looked (all_applied E ids names)).
  { intros ids'. induction names as [|n names' IH]; cbn [all_applied]; look; apply IH. }
  assert (Hr : rel looked (all_running E names)).
  { clear Ha. induction names as [|n names' IH]; cbn [all_running]; look; apply IH. }
  unfold poll. look; first [apply Ha | apply Hr].
Qed.

Lemma looks_gate g gid ids names timeout : rel looked (health_gate E g gid ids names timeout).
Proof.
  unfold health_gate, now. apply rel_bind; [apply _|look|]. intros t. apply rel_bind; [apply _|look|]. intros base.
  generalize (t + timeout), (rounds timeout). intros deadline fuel.
  induction fuel as [|fuel IH]; cbn [gate_loop]; unfold now; look; first [apply looks_poll | apply IH].
Qed.

Lemma looks_lock : rel looked (acquire_lock E).
Proof.
  unfold acquire_lock. destruct (has_fcntl E); [|look]. generalize 20%nat. intros n.
  induction n as [|n IH]; cbn [flock_loop]; look; apply IH.
Qed.

(** ** Verification *)

(** The digest recorded for a repository was signed for it and pulled. *)
Definition proven (verified : gmap string string) (h : history) (r : string) : Prop :=
  ∃ d, verified !! r = Some d ∧ ECosign r d true ∈ h ∧ EPull (at_digest r d) true ∈ h.

Lemma wp_verify_and_pull repo tag s :
  wp (verify_and_pull E repo tag) (λ r s', ∀ d, r = Ok d →
    ECosign repo d true ∈ log s' ∧ EPull (at_digest repo d) true ∈ log s') s.
Proof.
  unfold verify_and_pull, resolve_digest, cosign_verify. apply wp_bind, wp_bind, wp_asked; [done|]. intros _.
  apply wp_ret. destruct (manifest_digest _) as [digest|]; [|done].
  apply wp_bind, wp_asked; [done|]. intros _. destruct (cosign_answer E _) eqn:Hc; [|done]. cbn [negb].
  apply wp_bind, wp_asked; [done|]. intros _. destruct (pull_answer E _) eqn:Hp; [|done].
  apply wp_ret. intros d [= <-]. cbn. split; [right; left|left].
Qed.

Lemma wp_verify_all stack tag verified s :
  wp (verify_all E stack tag verified) (λ r s', ∀ v, r = Ok v →
    (∀ c, c ∈ stack → proven v (log s') (repo c)) ∧ ∀ r, proven verified (log s) r → proven v (log s') r) s.
Proof.
  revert verified s. induction stack as [|c stack IH]; intros verified s; cbn [verify_all].
  { apply wp_ret. intros v [= <-]. split; [|auto]. by intros c ?%elem_of_nil. }
  apply wp_bind. eapply wp_mono.
  { apply wp_conj; [apply wp_verify_and_pull|apply (looks_verify (repo c) tag)]. }
  intros [d|e] s1 [Hd Hg]; [|done]. eapply wp_mono; [apply IH|]. intros r s2 H2 v ->.
  destruct (H2 v eq_refl) as [H3 H4]. destruct (Hd d eq_refl) as [Hd1 Hd2]. destruct Hg as [Hg _].
  split.
  - intros c' [->|Hc]%elem_of_cons; [|by apply H3]. apply H4. exists d. by rewrite lookup_insert_eq.
  - intros r' (d' & Hv & Hc & Hp). apply H4. destruct (decide (repo c = r')) as [<-|Hne].
    + exists d. by rewrite lookup_insert_eq.
    + exists d'. rewrite lookup_insert_ne by done. split; [done|]. split; by eapply grew_elem.
Qed.
End facts.

(** ** The mutating window *)

(** What may be done to the node on behalf of one container of the stack. *)
Definition about (verified : gmap string string) (x : snap) (e : event) : Prop :=
  let r := repo (s_container x) in
  let i := i_container (s_inspected x) in
  match e with
  | ETag src dst _ =>
      dst = latest_of r ∧ (src = at_digest r (default ""%string (verified !! r)) ∨ s_old x = Some src) ∨
      dst = (r +:+ ":previous")%string ∧ s_old x = Some src
  | EStop ref | ERm ref _ => ref = container_id (s_container x) ∨ ref = container_name i
  | ECreate argv _ => ∃ cfg image, argv = build_create_argv i cfg image (service (s_container x)) ∧
      (image = latest_of r ∨ s_old x = Some image)
  | EStart name _ => name = container_name i
  | _ => False
  end.

(** What [:latest] of a repository was last pointed at in this run. *)
Fixpoint points_at (r : string) (h : history) : option string :=
  match h with
  | ETag src dst true :: h => if String.eqb dst (latest_of r) then Some src else points_at r h
  | _ :: h => points_at r h
  | [] => None
  end.

(** The same after the history [h]: a container is created from [:latest] only while that is the
    digest verified for its repository. *)
Definition about_in (verified : gmap string string) (x : snap) (e : event) (h : history) : Prop :=
  match e with
  | ECreate argv _ => ∃ cfg image,
      argv = build_create_argv (i_container (s_inspected x)) cfg image (service (s_container x)) ∧
      (s_old x = Some image ∨ image = latest_of (repo (s_container x)) ∧ ∃ d,
         verified !! repo (s_container x) = Some d ∧
         points_at (repo (s_container x)) h = Some (at_digest (repo (s_container x)) d))
  | e => about verified x e
  end.

Lemma about_in_about verified x e h : about_in verified x e h → about verified x e.
Proof.
  destruct e; try done. intros (cfg & image & -> & [?|[-> _]]); eexists cfg, _; auto.
Qed.

Definition allowed (verified : gmap string string) (snaps : list snap) (e : event) (h : history) : Prop :=
  looks e ∨ e = EPrune ∨ ∃ x, x ∈ snaps ∧ about_in verified x e h.

(** Every event of [new] is right after what was before it. *)
Fixpoint steps (P : event → history → Prop) (new base : history) : Prop :=
  match new with [] => True | e :: new => P e (new ++ base) ∧ steps P new base end.

Lemma steps_app P n2 n1 base : steps P (n2 ++ n1) base ↔ steps P n2 (n1 ++ base) ∧ steps P n1 base.
Proof. induction n2 as [|e n2 IH]; cbn; [tauto|]. rewrite IH, app_assoc. tauto. Qed.

Lemma steps_forall (P : event → Prop) new base : steps (λ e _, P e) new base ↔ Forall P new.
Proof. induction new as [|e new IH]; cbn; [by split|]. by rewrite IH, Forall_cons. Qed.

Lemma nonempty_Some o s : nonempty o = Some s → o = Some s.
Proof. unfold nonempty. destruct o as [t|]; cbn; [|done]. by destruct (String.eqb t ""). Qed.

Section window.
Context (E : env) (verified : gmap string string) (snaps : list snap) (P : event → history → Prop).
Context (Plooks : ∀ e h, looks e → P e h) (Pabout : ∀ x e h, x ∈ snaps → about_in verified x e h → P e h).
Notation J := (M state exc).

(** What was recreated is of the stack, and only the allowed is done. *)
Definition kept (s s' : state) : Prop :=
  Forall (λ x, x ∈ snaps) (done_ s) →
  Forall (λ x, x ∈ snaps) (done_ s') ∧ ∃ new, log s' = new ++ log s ∧ steps P new (log s).

#[export] Instance kept_preorder : PreOrder kept.
Proof.
  split; [by intros s H; split; [|exists []]|]. intros s1 s2 s3 H12 H23 H1.
  destruct (H12 H1) as [H2 (n12 & L12 & S12)], (H23 H2) as [H3 (n23 & L23 & S23)].
  split; [done|]. exists (n23 ++ n12). rewrite L23, L12, <- app_assoc, steps_app, <- L12. done.
Qed.

Lemma kept_record e s : P e (log s) → kept s (record e s).
Proof. intros He Hs. split; [done|]. by exists [e]. Qed.

Lemma kept_ask {A} (f : history → A) ev : (∀ a h, P (ev a) h) → rel kept (ask E f ev).
Proof.
  intros H s. apply wp_asked; intros _; apply kept_record; [|done]. apply Plooks. by split; [cbn; tauto|].
Qed.

Lemma kept_append x : x ∈ snaps → rel kept (modify (append_done x) : J unit).
Proof.
  intros Hx. apply rel_modify. intros s Hs. split; [|by exists []]. apply Forall_app.
  split; [done|]. by apply Forall_singleton.
Qed.

Lemma kept_sleep : rel kept (modify (record ESleep) : J unit).
Proof. apply rel_modify. intros s. apply kept_record, Plooks. by split; [cbn; tauto|]. Qed.

Ltac keep_step := first
  [ apply kept_sleep
  | apply kept_append; assumption
  | apply kept_ask; intros ? ?; first [apply Plooks; split; [cbn; tauto|done] |
      eapply Pabout; [eassumption|]; cbn; by eauto 6]
  | rel_step ].

Lemma kept_do_recreate x image baseline ref : x ∈ snaps → s_old x = Some image →
  ref = container_id (s_container x) ∨ ref = container_name (i_container (s_inspected x)) →
  rel kept (_do_recreate E (s_inspected x) image baseline (service (s_container x)) ref).
Proof. intros Hx Hi Hr. unfold _do_recreate, image_config. repeat keep_step. Qed.

(** Forward: while [:latest] points at the digest. *)
Definition holding (r : string) (s s' : state) : Prop := kept s s' ∧ points_at r (log s') = points_at r (log s).

#[export] Instance holding_preorder r : PreOrder (holding r).
Proof. split; [by intros s|]. intros s1 s2 s3 [K1 H1] [K2 H2]. split; [by etransitivity|congruence]. Qed.

Lemma holding_ask {A} r (f : history → A) ev :
  (∀ a h, P (ev a) h) → (∀ a h, points_at r (ev a :: h) = points_at r h) → rel (holding r) (ask E f ev).
Proof.
  intros H Hp s. apply wp_asked; intros _; (split; [apply kept_record|]); [|done|done|apply Hp].
  apply Plooks. by split; [cbn; tauto|].
Qed.

Lemma kept_recreate_one x d s : x ∈ snaps →
  verified !! repo (s_container x) = Some d →
  points_at (repo (s_container x)) (log s) = Some (at_digest (repo (s_container x)) d) →
  wp (recreate_one E x) (λ _ s', kept s s') s.
Proof.
  intros Hx Hd Hp. unfold recreate_one, _do_recreate.
  assert (Habout : ∀ e h, about verified x e → (∀ argv ok, e ≠ ECreate argv ok) → P e h).
  { intros e h He Hne. apply (Pabout x); [done|]. destruct e; try done. by destruct (Hne argv ok). }
  assert (H : ∀ A (m : J A) (Q : result exc A → state → Prop) s0, rel (holding (repo (s_container x))) m → holding (repo (s_container x)) s s0 →
    (∀ r s', holding (repo (s_container x)) s s' → Q r s') → wp m Q s0).
  { intros A m Q s0 Hm Hs HQ. eapply wp_mono; [apply Hm|]. intros r s' Hs'. apply HQ. by etransitivity. }
  apply wp_bind, H; [|done|].
  { unfold image_config. repeat first [apply holding_ask; [intros ? ?; apply Plooks; by split; [cbn; tauto|]|done] | rel_step]. }
  intros [cfg|e] s1 H1; [|by destruct H1]. destruct (String.eqb _ ""); [by destruct H1|].
  apply wp_bind, H; [|done|].
  { apply holding_ask; [|done]. intros ? ?. apply Habout; [by left|done]. }
  intros [[]|e] s2 H2; [|by destruct H2]. apply wp_bind, H; [|done|].
  { apply holding_ask; [|done]. intros ? ?. apply Habout; [by left|done]. }
  intros [[]|e] s3 H3; [|by destruct H3..]. apply wp_bind. destruct H3 as [K3 P3].
  assert (Hc : ∀ ok, kept s (record (ECreate (build_create_argv (i_container (s_inspected x)) cfg
    (latest_of (repo (s_container x))) (service (s_container x))) ok) s3)).
  { intros ok. etransitivity; [exact K3|]. apply kept_record, (Pabout x); [done|].
    exists cfg, (latest_of (repo (s_container x))). split; [done|]. right. split; [done|]. exists d. by rewrite P3. }
  assert (Hr : ∀ s4, kept s s4 → kept s (record ERaised s4)).
  { intros s4 K. etransitivity; [exact K|]. apply kept_record, Plooks. by split; [cbn; tauto|]. }
  apply wp_asked; intros _; [by apply Hr|]. destruct (ok_answer E _); cbn [negb]; [|by apply wp_ret].
  apply wp_asked; intros _; [by apply Hr|]. etransitivity; [apply Hc|]. apply kept_record, Habout; done.
Qed.

Lemma kept_recreate_all l : Forall (λ x, x ∈ snaps) l →
  Forall (λ x, is_Some (verified !! repo (s_container x))) l → rel kept (recreate_all E verified l).
Proof.
  induction 1 as [|x l Hx Hl IH]; cbn [recreate_all]; intros [[d Hd] Hv]%Forall_cons || intros _; [repeat keep_step|].
  apply rel_bind; [apply _| |].
  { unfold tag_previous, tag. destruct (nonempty (s_old x)) as [old|] eqn:Hold; [apply nonempty_Some in Hold|]; repeat keep_step. }
  intros []. unfold retag_latest, tag. rewrite Hd. cbn [default from_option].
  intros s. apply wp_bind, wp_asked; intros _; [by apply kept_record, Plooks; split; [cbn; tauto|]|].
  assert (K : ∀ ok, kept s (record (ETag (at_digest (repo (s_container x)) d) (latest_of (repo (s_container x))) ok) s)).
  { intros ok. apply kept_record, (Pabout x); [done|]. left. split; [done|]. left. unfold id. by rewrite Hd. }
  destruct (ok_answer E (log s)); cbn [negb]; [|by apply wp_ret].
  apply wp_bind. eapply wp_mono; [apply (kept_recreate_one x d); [done|done|]|].
  { cbn. by rewrite String.eqb_refl. }
  intros [ok|e] s2 K2; [|by etransitivity; [apply (K true)|]].
  eapply wp_mono; [refine (rel_bind kept _ _ (kept_append x Hx) _ s2)|].
  { intros []. destruct ok; [by apply IH|keep_step]. }
  intros r s3 K3. etransitivity; [apply (K true)|]. by etransitivity.
Qed.

Lemma kept_poll g gid ids names : rel kept (poll E g gid ids names).
Proof.
  assert (Ha : ∀ ids, rel kept (all_applied E ids names)).
  { intros ids'. induction names as [|n names' IH]; cbn [all_applied]; repeat first [apply IH | keep_step]. }
  assert (Hr : rel kept (all_running E names)).
  { clear Ha. induction names as [|n names' IH]; cbn [all_running]; repeat first [apply IH | keep_step]. }
  unfold poll. repeat first [apply Ha | apply Hr | keep_step].
Qed.

Lemma kept_gate g gid ids names timeout : rel kept (health_gate E g gid ids names timeout).
Proof.
  unfold health_gate, now. generalize (rounds timeout). intros fuel. repeat keep_step.
  match goal with |- rel _ (gate_loop _ _ _ _ _ _ _ ?d) => generalize d end. intros deadline.
  induction fuel as [|fuel IH]; cbn [gate_loop]; unfold now; repeat first [apply kept_poll | apply IH | keep_step].
Qed.

Lemma kept_rollback_all l : Forall (λ x, x ∈ snaps) l → rel kept (rollback_all E l).
Proof.
  induction 1 as [|x l Hx Hl IH]; cbn [rollback_all]; [repeat keep_step|].
  destruct (nonempty (s_old x)) as [old|] eqn:Hold; [apply nonempty_Some in Hold|].
  - unfold restore_latest, tag, rollback_one. repeat first [apply kept_do_recreate; by auto | apply IH | keep_step].
  - repeat first [apply IH | keep_step].
Qed.

Lemma kept_rollback g gid names timeout : rel kept (_rollback E g gid names timeout).
Proof.
  intros s. unfold _rollback. apply wp_bind, wp_gets. intros Hs.
  refine ((rel_bind kept _ _ (kept_rollback_all _ _) _) s Hs); [by apply Forall_reverse|].
  intros ok. repeat first [apply kept_gate | keep_step].
Qed.

Lemma kept_mutate gid timeout old_version : (∀ h, P EPrune h) →
  (∀ x, x ∈ snaps → is_Some (verified !! repo (s_container x))) → rel kept (mutate E gid timeout old_version verified snaps).
Proof.
  intros Pprune Hall. unfold mutate. set (rb := _rollback _ _ _ _ _).
  assert (Hrb : rel kept rb) by apply kept_rollback. clearbody rb.
  apply rel_catch; [apply _| |intros _; exact Hrb].
  apply rel_bind; [apply _|by apply kept_recreate_all; apply Forall_forall|]. intros ok.
  assert (Hids : ∀ l ids, rel kept (applied_image_ids E verified l ids)).
  { intros l. induction l as [|x l IH]; intros ids; cbn [applied_image_ids]; repeat first [apply IH | keep_step]. }
  destruct (negb ok); [exact Hrb|]. apply rel_bind; [apply _|apply Hids|]. intros ids.
  apply rel_bind; [apply _|apply kept_gate|]. intros g. destruct g; try exact Hrb.
  repeat first [exact Hrb | keep_step | apply kept_ask; intros ?; exact Pprune].
Qed.
End window.

(** ** The whole run *)
Section run.
Context (E : env).
Notation J := (M state exc).

(** A part that only looks: its answer, or an exception. *)
Lemma wp_looked {A} (m : J A) (Q : result exc A → state → Prop) s : rel looked m →
  (∀ a s', looked s s' → m s = (Ok a, s') → Q (Ok a) s') → (∀ e s', looked s s' → Q (Raise e) s') → wp m Q s.
Proof.
  intros Hm H1 H2. specialize (Hm s). unfold wp in *. destruct (m s) as [[a|e] s']; cbn in *; auto.
Qed.

(** The container was inspected, and [s_old] is the image it ran, or [:latest] when that is unknown. *)
Definition was_running (h : history) (x : snap) : Prop :=
  EInspect (container_id (s_container x)) (Some (s_inspected x)) ∈ h ∧
  ∀ old, s_old x = Some old →
    i_image (s_inspected x) = Some old ∨ EImage (latest_of (repo (s_container x))) (Some old) ∈ h.

Lemma was_running_grows P s s' x : grew P s s' → was_running (log s) x → was_running (log s') x.
Proof. intros G [H1 H2]. split; [by eapply grew_elem|]. intros old [?|?]%H2; [by left|right; by eapply grew_elem]. Qed.

Lemma wp_snapshot_one c s :
  wp (snapshot_one E c) (λ r s', ∀ x, r = Ok (Some x) → s_container x = c ∧ was_running (log s') x) s.
Proof.
  unfold snapshot_one. apply wp_bind, wp_asked; [done|]. intros _.
  destruct (inspect_answer E (log s)) as [i|] eqn:Hi; [|done]. apply wp_bind.
  destruct (nonempty (i_image i)) as [id|] eqn:Hid.
  - apply nonempty_Some in Hid. apply wp_ret, wp_ret. intros x [= <-]. split; [done|]. split; [by left|].
    intros old [= <-]. by left.
  - apply wp_asked; [done|]. intros _. apply wp_ret. intros x [= <-]. split; [done|]. split; [by right; left|].
    intros old Ho. right. cbn in Ho |- *. rewrite Ho. left.
Qed.

Lemma wp_snapshot stack s :
  wp (snapshot E stack) (λ r s', ∀ snaps, r = Ok (Some snaps) →
    s_container <$> snaps = stack ∧ Forall (was_running (log s')) snaps) s.
Proof.
  revert s. induction stack as [|c stack IH]; intros s; cbn [snapshot]; [by apply wp_ret; intros ? [= <-]|].
  apply wp_bind. eapply wp_mono; [apply wp_snapshot_one|].
  intros [[x|]|e] s1 Hx; [|done..]. apply wp_bind. eapply wp_mono; [apply wp_conj; [apply IH|apply (looks_snapshot E stack)]|].
  intros [[rest|]|e] s2 [Hr [G _]]; [|done..]. apply wp_ret. intros snaps [= <-]. csimpl.
  destruct (Hx x eq_refl) as [-> Hw], (Hr rest eq_refl) as [-> Hws]. split; [done|]. apply Forall_cons. split; [|done].
  by eapply was_running_grows.
Qed.

Lemma wp_run_remote_update c (Q : result exc Z → state → Prop) s :
  (∀ r s', looked s s' → (r = Ok EXIT_REFUSED ∨ ∃ e, r = Raise e) → Q r s') →
  (∀ s1 old verified snaps, looked s s1 → (∃ cid, EVersion cid old ∈ log s1) →
     (∀ x, x ∈ snaps → proven verified (log s1) (repo (s_container x))) → Forall (was_running (log s1)) snaps →
     wp (mutate E (greffer_id c) (timeout c) old verified snaps) Q s1) →
  wp (run_remote_update E c) Q s.
Proof.
  intros Hno Hgo. unfold run_remote_update.
  apply wp_bind, (wp_looked _ _ _ (looks_discover E)); [|by eauto]. intros stack s1 L1 _.
  destruct (first_match _ stack) as [g|]; [|by apply wp_ret; auto].
  assert (L : ∀ ev : option string → event, (∀ a, looks (ev a)) → rel looked (ask E (version_answer E) ev)) by
    (intros; apply went_ask; [by split; [cbn; tauto|]|done]).
  apply wp_bind, wp_looked; [apply L; by split; [cbn; tauto|]| |intros e s2 L2; apply Hno; [by etransitivity|eauto]].
  intros old s2 L2 Hold. assert (L02 : looked s s2) by by etransitivity.
  assert (Hv : EVersion (container_id g) old ∈ log s2).
  { unfold ask in Hold. destruct (unexpected E (log s1)); [done|]. injection Hold as <- <-. left. }
  clear Hold. destruct (_ && _); [by apply wp_ret; auto|].
  set (tag := default _ _). apply wp_bind, wp_catch, wp_bind. eapply wp_mono.
  { apply wp_conj; [apply (wp_verify_all E stack tag ∅)|apply (looks_verify_all E stack tag ∅)]. }
  intros [verified|[]] s3 [Hver L3]; assert (L03 : looked s s3) by (by etransitivity).
  2:{ by apply wp_ret, wp_ret; auto. } 2:{ by apply wp_throw; eauto. }
  apply wp_ret, wp_bind. destruct (Hver verified eq_refl) as [Hp _]. eapply wp_mono.
  { apply wp_conj; [apply (wp_snapshot stack)|apply (looks_snapshot E stack)]. }
  intros [[snaps|]|e] s4 [Hs L4]; assert (L04 : looked s s4) by (by etransitivity);
    [|by apply wp_ret; auto|by apply Hno; eauto].
  destruct (Hs snaps eq_refl) as [Hstack Hran]. apply Hgo; [done| | |exact Hran].
  { exists (container_id g). destruct L3 as [G3 _], L4 as [G4 _]. by eapply grew_elem, grew_elem. }
  intros x Hx. destruct (Hp (s_container x)) as (d & Hd & Hc & Hpull).
  { rewrite <- Hstack. apply list_elem_of_fmap. eauto. }
  exists d. destruct L4 as [G4 _]. split; [done|]. split; by eapply grew_elem.
Qed.

(** The lock taken, last of what came before, where the platform has one. *)
Definition took_lock (h : history) : Prop := has_fcntl E = true → head h = Some (EFlock true).

Lemma wp_acquire_lock s :
  wp (acquire_lock E) (λ r s', looked s s' ∧ (r = Ok true → took_lock (log s'))) s.
Proof.
  apply wp_conj; [apply looks_lock|]. unfold acquire_lock, took_lock. destruct (has_fcntl E); [|by apply wp_ret].
  generalize 20%nat. intros n. revert s. induction n as [|n IH]; intros s; cbn [flock_loop]; [by apply wp_ret|].
  apply wp_bind, wp_asked; [done|]. intros _. destruct (flock_answer E (log s)); [by apply wp_ret|apply IH].
Qed.
End run.

Definition start : state := State [] [].

(** The history [h] of a run that touched the node: under the lock it verified,
    then it did what is allowed, then it released. *)
Definition verified_first (E : env) (h : history) : Prop :=
  ∃ verified snaps acts looked_at locked, h = ERelease :: acts ++ looked_at ++ locked ∧
    took_lock E locked ∧ Forall looks (looked_at ++ locked) ∧
    (∀ x, x ∈ snaps → proven verified (looked_at ++ locked) (repo (s_container x))) ∧
    Forall (was_running (looked_at ++ locked)) snaps ∧
    steps (allowed verified snaps) acts (looked_at ++ locked).

(** C14: A remote update touches the node only with what it verified. In every run,
    whatever Docker answers and whichever calls fail or raise, either no tag is
    moved and no container stopped, removed, created or started, or all of that
    happened under the update lock (where the platform has one), after every image
    of the stack had been resolved to a digest, found signed for its own repository
    and pulled by that digest. Then [:latest] was only ever pointed at the digest
    verified for its repository or back at the image the container ran, and a
    container was only created, with its own arguments, from [:latest] at a time when
    it was last pointed at that digest, or from the image it ran: the one its
    inspection gave, or [:latest] of before when it gave none. *)
Theorem remote_update_verified E c :
  wp (main E c) (λ _ s', (∃ e, e ∈ log s' ∧ touches e) → verified_first E (log s')) start.
Proof.
  unfold main. apply wp_bind. eapply wp_mono; [apply wp_acquire_lock|].
  assert (Hno : ∀ s s' : state, Forall looks (log s) → looked s s' → ¬ ∃ e, e ∈ log s' ∧ touches e).
  { intros s s' Hs [(new & -> & Hn) _] (e & He & Ht).
    destruct (proj1 (Forall_forall _ _) (Forall_app_2 _ _ _ Hn Hs) e He) as [H _]. by apply H. }
  intros [[]|e] s1 [L1 Hlock].
  2: { by apply wp_ret; intros ?%(Hno start). } 2: { by intros ?%(Hno start). }
  assert (F1 : Forall looks (log s1)) by (destruct L1 as [(new & -> & Hn) _]; rewrite app_nil_r; done).
  specialize (Hlock eq_refl). cbn [negb]. apply wp_finally, wp_run_remote_update.
  - intros r s2 L2 _. apply wp_modify. intros (e & [->|He]%elem_of_cons & Ht); [done|].
    exfalso. apply (Hno s1 s2); eauto.
  - intros s2 old verified snaps L2 _ Hp Hran. eapply wp_mono.
    { apply (kept_mutate E verified snaps (allowed verified snaps)); [by left|by right; right; eauto|by right; left|].
      intros x Hx. destruct (Hp x Hx) as (d & Hd & _). by exists d. }
    intros r s3 K. apply wp_modify. intros _. destruct L1 as [_ D1], L2 as [(n2 & Hl2 & F2) D2].
    destruct K as [_ (n3 & Hl3 & F3)]; [by rewrite D2, D1|]. cbn. rewrite Hl3.
    exists verified, snaps, n3, n2, (log s1). rewrite <- Hl2. split; [done|]. split; [done|].
    split; [rewrite Hl2; by apply Forall_app|]. by split_and!.
Qed.

(** ** Runs in which every call answers *)
Section calm.
Context (E : env) (Hcalm : ∀ h, unexpected E h = false).
Notation J := (M state exc).

Definition returns {A} (m : J A) : Prop := ∀ s, wp m (λ r _, ∃ a, r = Ok a) s.

Lemma returns_ask {A} (f : history → A) ev : returns (ask E f ev).
Proof. intros s. apply wp_asked; [by rewrite Hcalm|eauto]. Qed.
Lemma returns_ret {A} (a : A) : returns (mret a : J A).
Proof. intros s. apply wp_ret. eauto. Qed.
Lemma returns_gets {A} (f : state → A) : returns (gets f : J A).
Proof. intros s. apply wp_gets. eauto. Qed.
Lemma returns_modify f : returns (modify f : J unit).
Proof. intros s. apply wp_modify. eauto. Qed.
Lemma returns_bind {A B} (m : J A) (k : A → J B) : returns m → (∀ a, returns (k a)) → returns (m ≫= k).
Proof.
  intros Hm Hk s. apply wp_bind. eapply wp_mono; [apply Hm|]. intros r s' [a ->]. apply Hk.
Qed.

Ltac return_step := lazymatch goal with
  | |- returns (mbind _ _) => apply returns_bind; [|intros ?]
  | |- returns (ask _ _ _) => apply returns_ask
  | |- returns (mret _) => apply returns_ret
  | |- returns (gets _) => apply returns_gets
  | |- returns (modify _) => apply returns_modify
  | |- returns (if ?b then _ else _) => destruct b
  | |- returns (match ?x with _ => _ end) => destruct x
  end.
Ltac return_ := repeat return_step.

Lemma returns_do_recreate i image baseline svc ref : returns (_do_recreate E i image baseline svc ref).
Proof. unfold _do_recreate, image_config. return_. Qed.

Lemma returns_tag_previous r id : returns (tag_previous E r id).
Proof. unfold tag_previous, tag. return_. Qed.

Lemma returns_poll g gid ids names : returns (poll E g gid ids names).
Proof.
  assert (Ha : ∀ ids, returns (all_applied E ids names)).
  { intros ids'. induction names as [|n names' IH]; cbn [all_applied]; return_; apply IH. }
  assert (Hr : returns (all_running E names)).
  { clear Ha. induction names as [|n names' IH]; cbn [all_running]; return_; apply IH. }
  unfold poll. return_; first [apply Ha | apply Hr].
Qed.

Lemma returns_gate g gid ids names timeout : returns (health_gate E g gid ids names timeout).
Proof.
  unfold health_gate, now. generalize (rounds timeout). intros fuel. return_.
  match goal with |- returns (gate_loop _ _ _ _ _ _ _ ?d) => generalize d end. intros deadline.
  induction fuel as [|fuel IH]; cbn [gate_loop]; unfold now; return_; first [apply returns_poll | apply IH].
Qed.

Lemma returns_rollback g gid names timeout : returns (_rollback E g gid names timeout).
Proof.
  unfold _rollback. apply returns_bind; [return_|]. intros recreated. apply returns_bind.
  - induction (reverse recreated) as [|x l IH]; cbn [rollback_all]; unfold rollback_one, restore_latest, tag;
      return_; first [apply returns_do_recreate | apply IH].
  - intros ok. return_; apply returns_gate.
Qed.

Lemma returns_snapshot stack : returns (snapshot E stack).
Proof. induction stack as [|c stack IH]; cbn [snapshot]; unfold snapshot_one; return_; apply IH. Qed.

Lemma returns_applied verified snaps ids : returns (applied_image_ids E verified snaps ids).
Proof. revert ids. induction snaps as [|x l IH]; intros ids; cbn [applied_image_ids]; return_; apply IH. Qed.

(** ** What the steps of a run have done *)
Lemma wp_answered {A} (f : history → A) ev (Q : result exc A → state → Prop) s :
  Q (Ok (f (log s))) (record (ev (f (log s))) s) → wp (ask E f ev) Q s.
Proof. intros H. apply wp_asked; [by rewrite Hcalm|done]. Qed.

Lemma wp_returns {A} (m : J A) (Q : result exc A → state → Prop) s : returns m →
  (∀ a s', m s = (Ok a, s') → Q (Ok a) s') → wp m Q s.
Proof. intros Hm H. specialize (Hm s). unfold wp in *. destruct (m s) as [[a|e] s']; destruct Hm as [a' Ha]; [by apply H|done].
Qed.

(** The container was removed, created from [image] with its own arguments and
    started; [ref] is what it was removed by. *)
Definition remade (x : snap) (image ref : string) (h : history) : Prop :=
  ∃ cfg older, h = EStart (container_name (i_container (s_inspected x))) true ::
    ECreate (build_create_argv (i_container (s_inspected x)) cfg image (service (s_container x))) true ::
    ERm ref true :: EStop ref :: older.

Lemma wp_do_recreate x image baseline ref s :
  wp (_do_recreate E (s_inspected x) image baseline (service (s_container x)) ref)
     (λ r s', r = Ok true → remade x image ref (log s')) s.
Proof.
  unfold _do_recreate. apply wp_bind. eapply (wp_mono _ (λ _ _, True)); [done|]. intros [cfg|e] s1 _; [|done].
  destruct (String.eqb _ ""); [done|]. apply wp_bind, wp_answered, wp_bind, wp_answered.
  destruct (ok_answer E _); [|done]. cbn [negb]. apply wp_bind, wp_answered. destruct (ok_answer E _); [|done].
  apply wp_answered.
  destruct (ok_answer E _); [intros _; by exists cfg, (log s1)|done].
Qed.

(** The container was brought back to the image it ran, and [:latest] told so. *)
Definition restored (h : history) (x : snap) : Prop :=
  ∃ old ok later older, s_old x = Some old ∧
    h = later ++ ETag old (latest_of (repo (s_container x))) ok :: older ∧
    remade x old (container_name (i_container (s_inspected x))) older.

Notation grows := (grew (λ _, True)).

Lemma restored_grows s s' x : grows s s' → restored (log s) x → restored (log s') x.
Proof.
  intros (new & -> & _) (old & ok & later & older & H1 & -> & H2). exists old, ok, (new ++ later), older.
  by rewrite <- app_assoc.
Qed.

Lemma grows_rollback_all l : rel (went (λ _, True)) (rollback_all E l).
Proof.
  induction l as [|x l IH]; cbn [rollback_all]; unfold rollback_one, restore_latest, tag, _do_recreate, image_config;
    repeat first [by apply went_ask | apply IH | rel_step].
Qed.

Lemma wp_rollback_all l s : wp (rollback_all E l)
  (λ r s', ∀ b, r = Ok b → b = true → Forall (restored (log s')) l) s.
Proof.
  revert s. induction l as [|x l IH]; intros s; cbn [rollback_all]; [by apply wp_ret|].
  destruct (nonempty (s_old x)) as [old|] eqn:Hold.
  2:{ apply wp_bind. eapply (wp_mono _ (λ _ _, True)); [done|]. intros [b|e] s1 _; [|done]. by apply wp_ret; intros b' [= <-]. }
  apply nonempty_Some in Hold. apply wp_bind. eapply wp_mono; [apply wp_do_recreate|].
  intros [ok|e] s1 Hmade; [|done]. apply wp_bind, wp_answered. set (tagged := ok_answer E (log s1)).
  apply wp_bind. eapply wp_mono; [apply wp_conj; [apply IH|apply (grows_rollback_all l)]|].
  intros [rest|e] s2 [Hrest Hg]; [|done]. apply wp_ret. intros b [= <-] [-> ->]%andb_prop.
  apply Forall_cons. split; [|by apply (Hrest true)]. eapply restored_grows; [apply Hg|].
  exists old, tagged, [], (log s1). split; [done|]. split; [done|]. by apply Hmade.
Qed.

(** Forward. *)
Definition recreated (verified : gmap string string) (h : history) (x : snap) : Prop :=
  let r := repo (s_container x) in
  ∃ later older, h = later ++ older ∧ remade x (latest_of r) (container_id (s_container x)) older ∧
    ETag (at_digest r (default ""%string (verified !! r))) (latest_of r) true ∈ older.

(** Only containers among [tried] were touched; tags were moved for one more at most. *)
Definition on (verified : gmap string string) (tried : list snap) (e : event) : Prop :=
  looks e ∨ (∃ src dst ok, e = ETag src dst ok) ∨ ∃ x, x ∈ tried ∧ about verified x e.

Lemma on_more verified tried tried' e : tried ⊆ tried' → on verified tried e → on verified tried' e.
Proof. intros H [?|[?|(x & Hx & He)]]; [by left|by right; left|]. right; right. eauto. Qed.

Lemma on_recreate_one verified x : rel (went (on verified [x])) (recreate_one E x).
Proof.
  assert (Hl : ∀ e, looks e → on verified [x] e) by (by left).
  assert (Ha : ∀ e, about verified x e → on verified [x] e) by (intros e He; right; right; exists x; by split; [left|]).
  unfold recreate_one, _do_recreate, image_config.
  repeat first [apply went_ask; [apply Hl; by split; [cbn; tauto|]|intros ?;
    first [apply Hl; split; [cbn; tauto|done] | apply Ha; cbn; by eauto 6]] | rel_step].
Qed.

Lemma on_tags verified x : rel (went (on verified [])) (tag_previous E (repo (s_container x)) (s_old x)).
Proof.
  unfold tag_previous, tag. repeat first [apply went_ask; [left; by split; [cbn; tauto|]|intros ?; right; left; by eauto] | rel_step].
Qed.

Lemma recreated_grows verified s s' x : grows s s' → recreated verified (log s) x → recreated verified (log s') x.
Proof.
  intros (new & -> & _) (later & older & -> & H2 & H3). exists (new ++ later), older. by rewrite <- app_assoc.
Qed.

Lemma went_any P s s' : went P s s' → grows s s'.
Proof. intros [H _]. by eapply grew_impl, H. Qed.

Lemma went_more verified tried tried' s s' : tried ⊆ tried' → went (on verified tried) s s' → went (on verified tried') s s'.
Proof. intros H [G D]. split; [|done]. eapply grew_impl, G. intros e. by apply on_more. Qed.

Lemma wp_recreate_one verified x s : ETag (at_digest (repo (s_container x))
    (default ""%string (verified !! repo (s_container x)))) (latest_of (repo (s_container x))) true ∈ log s →
  wp (recreate_one E x) (λ r s', went (on verified [x]) s s' ∧ ∃ b, r = Ok b ∧ (b = true → recreated verified (log s') x)) s.
Proof.
  intros Ht. eapply wp_mono.
  { apply wp_conj; [apply returns_do_recreate|]. apply wp_conj; [apply wp_do_recreate|apply on_recreate_one]. }
  intros r s' ([b ->] & Hmade & Hw). split; [exact Hw|]. exists b. split; [done|]. intros ->.
  exists [], (log s'). split; [done|]. split; [by apply Hmade|]. destruct Hw as [Hg _]. by eapply grew_elem.
Qed.

Lemma wp_recreate_all verified l s : wp (recreate_all E verified l) (λ r s', ∃ b tried rest, r = Ok b ∧
    l = tried ++ rest ∧ done_ s' = done_ s ++ tried ∧ grew (on verified tried) s s' ∧
    (b = true → rest = [] ∧ Forall (recreated verified (log s')) tried)) s.
Proof.
  revert s. induction l as [|x l IH]; intros s; cbn [recreate_all].
  { apply wp_ret. exists true, [], []. rewrite !app_nil_r. by split_and!. }
  apply wp_bind. eapply wp_mono.
  { apply wp_conj; [apply returns_tag_previous|apply (on_tags verified x)]. }
  intros r s1 [[[] ->] W1]. apply wp_bind, wp_answered. set (s2 := record _ s1).
  assert (W2 : went (on verified []) s s2).
  { etransitivity; [exact W1|]. apply went_record. right; left. eauto. }
  destruct (ok_answer E (log s1)) eqn:Hok; cbn [negb].
  2:{ apply wp_ret. exists false, [], (x :: l). destruct W2. rewrite !app_nil_r. by split_and!. }
  apply wp_bind. eapply wp_mono; [apply (wp_recreate_one verified); left|]. intros r s3 [W3 (b & -> & Hb)].
  assert (W : went (on verified [x]) s s3).
  { etransitivity; [|exact W3]. eapply went_more, W2. apply list_subseteq_nil. }
  apply wp_bind, wp_modify. destruct W as [G D]. destruct b.
  2:{ apply wp_ret. exists false, [x], l. split_and!; try done. cbn. by rewrite D. }
  eapply wp_mono; [apply IH|]. intros r s4 (b & tried & rest & -> & -> & Hd & Hg & Hall).
  exists b, (x :: tried), rest. split; [done|]. split; [done|]. split; [rewrite Hd; cbn; by rewrite D, <- app_assoc|].
  split.
  - transitivity (append_done x s3).
    + refine (grew_impl _ _ _ _ (λ e, on_more verified [x] _ e _) G). intros y ->%list_elem_of_singleton. left.
    + refine (grew_impl _ _ _ _ (λ e, on_more verified tried _ e _) Hg). intros y Hy. by right.
  - intros ->. destruct (Hall eq_refl) as [-> Ht]. split; [done|]. apply Forall_cons. split; [|done].
    apply (recreated_grows _ (append_done x s3)); [|by apply Hb]. by refine (grew_impl _ _ _ _ _ Hg).
Qed.

(** ** What the gate has seen *)

(** The last /readyz was that of a ready node with the right id, and since then
    every container was seen running and, where the images are checked, on the
    image expected of it. *)
Definition came_up (g : string) (gid : option string) (ids : option (gmap string (option string))) (names : list string)
    (h : history) : Prop :=
  ∃ new body r older, h = new ++ EReadyz g body :: older ∧ Forall looks new ∧
    parse_readyz body = Some r ∧ wrong_id gid r = false ∧ eq_str (r_status r) "ready" = true ∧
    ∀ n, n ∈ names → ERunning n true ∈ new ∧
      ∀ m i, ids = Some m → nonempty (default None (m !! n)) = Some i → EImageOf n (Some i) ∈ new.

(** Looked, and saw [P] of the new events. *)
Definition saw (P : history → Prop) (s s' : state) : Prop :=
  ∃ new, log s' = new ++ log s ∧ Forall looks new ∧ P new.

Lemma saw_step (P Q : history → Prop) e s s' : looks e → (∀ new, P new → Q (new ++ [e])) →
  saw P (record e s) s' → saw Q s s'.
Proof.
  intros He H (new & Hl & F & Hp). exists (new ++ [e]). rewrite <- app_assoc. split; [exact Hl|].
  split; [|by apply H]. apply Forall_app. split; [done|]. by apply Forall_singleton.
Qed.

Lemma wp_all_applied ids names s :
  wp (all_applied E ids names) (λ r s', r = Ok true → saw (λ new, ∀ n i, n ∈ names →
    nonempty (default None (ids !! n)) = Some i → EImageOf n (Some i) ∈ new) s s') s.
Proof.
  revert s. induction names as [|n names IH]; intros s; cbn [all_applied].
  { apply wp_ret. intros _. exists []. split; [done|]. split; [done|]. by intros n i ?%elem_of_nil. }
  destruct (nonempty _) as [expected|] eqn:Hn.
  - apply wp_bind, wp_answered. case_bool_decide as Hid; [|done]. eapply wp_mono; [apply IH|].
    intros r s' H ->. eapply saw_step; [| |by apply H]; [by split; [cbn; tauto|]|].
    intros new Hp n' i [->|Hin]%elem_of_cons Hi; apply elem_of_app; [right|left; by apply Hp].
    rewrite Hid. simplify_eq. left.
  - eapply wp_mono; [apply IH|]. intros r s' H ->. destruct (H eq_refl) as (new & Hl & F & Hp).
    exists new. split; [done|]. split; [done|]. intros n' i [->|Hin]%elem_of_cons Hi; [congruence|by apply Hp].
Qed.

Lemma wp_stack_running names s :
  wp (all_running E names) (λ r s', r = Ok true → saw (λ new, ∀ n, n ∈ names → ERunning n true ∈ new) s s') s.
Proof.
  revert s. induction names as [|n names IH]; intros s; cbn [all_running].
  { apply wp_ret. intros _. exists []. split; [done|]. split; [done|]. by intros n ?%elem_of_nil. }
  apply wp_bind, wp_answered. destruct (running_answer E (log s) n) eqn:Hr; [|done].
  eapply wp_mono; [apply IH|]. intros r s' H ->. eapply saw_step; [| |by apply H]; [by split; [cbn; tauto|]|].
  intros new Hp n' [->|Hin]%elem_of_cons; apply elem_of_app; [right; left|left; by apply Hp].
Qed.

Lemma wp_poll_up g gid ids names s :
  wp (poll E g gid ids names) (λ r s', r = Ok (Some GATE_READY) → came_up g gid ids names (log s')) s.
Proof.
  unfold poll. apply wp_bind, wp_answered. set (body := readyz_answer E (log s)).
  destruct (parse_readyz body) as [rd|] eqn:Hrd; [|done]. destruct (wrong_id gid rd) eqn:Hid; [done|].
  destruct (eq_str (r_status rd) "fatal"); [done|]. destruct (_ && _); [done|].
  destruct (eq_str (r_status rd) "ready") eqn:Hready; [|done]. set (s1 := record _ s).
  apply wp_bind. eapply (wp_mono _ (λ r s', r = Ok true → saw (λ new, ∀ m n i, ids = Some m → n ∈ names →
    nonempty (default None (m !! n)) = Some i → EImageOf n (Some i) ∈ new) s1 s')).
  { destruct ids as [m|].
    - eapply wp_mono; [apply wp_all_applied|]. intros r s' H ->. destruct (H eq_refl) as (new & Hl & F & Hp).
      exists new. split; [done|]. split; [done|]. intros m' n i [= <-]. by apply Hp.
    - apply wp_ret. intros _. by exists []. }
  intros [[]|e] s2 Happ; [|done..]. cbn [negb]. destruct (Happ eq_refl) as (n1 & Hl1 & F1 & P1).
  apply wp_bind. eapply wp_mono; [apply wp_stack_running|]. intros [[]|e] s3 Hrun; [|done..].
  destruct (Hrun eq_refl) as (n2 & Hl2 & F2 & P2). apply wp_ret. intros _.
  exists (n2 ++ n1), body, rd, (log s). rewrite Hl2, Hl1, app_assoc. split; [done|]. split; [by apply Forall_app|].
  split_and!; [done..|]. intros n Hn. split; [apply elem_of_app; left; by apply P2|].
  intros m i Hm Hi. apply elem_of_app. right. by eapply P1.
Qed.

Lemma wp_gate_up g gid ids names timeout s :
  wp (health_gate E g gid ids names timeout) (λ r s', r = Ok GATE_READY → came_up g gid ids names (log s')) s.
Proof.
  unfold health_gate. apply wp_bind, wp_gets, wp_bind, wp_answered.
  generalize (record (ERestarts g (restarts_answer E (log s))) s). intros s0.
  generalize (clock E (log s) + timeout), (rounds timeout), (restarts_answer E (log s)). intros deadline fuel base.
  revert s0. induction fuel as [|fuel IH]; intros s0; cbn [gate_loop]; apply wp_bind, wp_gets;
    destruct (negb _); [done..|].
  apply wp_bind. eapply wp_mono; [apply wp_poll_up|]. intros [[d|]|e] s1 H; [|clear H|done].
  { apply wp_ret. intros [= ->]. by apply H. }
  apply wp_bind, wp_answered. destruct (1 <? _); [done|]. apply wp_bind, wp_modify, IH.
Qed.

(** ** How a run ends *)
Lemma wp_rollback_code verified g gid names timeout s :
  wp (_rollback E g gid names timeout) (λ r s', ∃ code, r = Ok code ∧
    (code = EXIT_FAILED_ROLLED_BACK ∨ code = EXIT_FAILED_ROLLBACK_FAILED) ∧ grew (on verified (done_ s)) s s' ∧
    (code = EXIT_FAILED_ROLLED_BACK → came_up g gid None names (log s') ∧ Forall (restored (log s')) (done_ s))) s.
Proof.
  assert (K : wp (_rollback E g gid names timeout) (λ _ s', grew (on verified (done_ s)) s s') s).
  { eapply wp_mono.
    - apply (kept_rollback E verified (done_ s) (λ e _, on verified (done_ s) e)); [by left|].
      intros x e h Hx He%about_in_about. right; right. by exists x.
    - intros r s' K. destruct K as [_ (new & Hl & Hs)]; [by apply Forall_forall|]. exists new. by rewrite <- steps_forall. }
  assert (C : wp (_rollback E g gid names timeout) (λ r s', ∀ code, r = Ok code →
    (code = EXIT_FAILED_ROLLED_BACK ∨ code = EXIT_FAILED_ROLLBACK_FAILED) ∧
    (code = EXIT_FAILED_ROLLED_BACK → came_up g gid None names (log s') ∧ Forall (restored (log s')) (done_ s))) s).
  2:{ eapply wp_mono; [exact (wp_conj _ _ _ _ (returns_rollback g gid names timeout s) (wp_conj _ _ _ _ K C))|].
      intros r s' ([code ->] & Hg & H). destruct (H code eq_refl) as [H1 H2]. exists code.
      split; [done|]. split; [exact H1|]. split; [exact Hg|exact H2]. }
  clear K. unfold _rollback. apply wp_bind, wp_gets, wp_bind. eapply wp_mono; [apply wp_rollback_all|].
  intros [ok|e] s1 Hok; [|done]. destruct ok; cbn [andb]; [|apply wp_ret; intros code [= <-]; by split; [right|]].
  destruct (negb (String.eqb g "")); [|apply wp_ret; intros code [= <-]; by split; [right|]].
  apply wp_bind. eapply wp_mono; [apply wp_conj; [apply wp_gate_up|apply looks_gate]|].
  intros [o|e] s2 [Hup [Hg _]]; [|done]. apply wp_ret.
  destruct o; intros code [= <-]; (split; [by (left + right)|]); try done. intros _. split; [by apply Hup|].
  specialize (Hok true eq_refl eq_refl). apply Forall_reverse in Hok. rewrite reverse_involutive in Hok.
  eapply Forall_impl; [exact Hok|]. intros x. apply restored_grows. by eapply grew_impl, Hg.
Qed.

(** The images whose ids the gate expects. *)
Definition expected_ids (verified : gmap string string) (snaps : list snap) (ids : gmap string (option string))
    (h : history) : Prop :=
  (∀ x, x ∈ snaps → is_Some (ids !! s_name x)) ∧
  ∀ n i, ids !! n = Some i → ∃ x, x ∈ snaps ∧ s_name x = n ∧
    EImage (at_digest (repo (s_container x)) (default ""%string (verified !! repo (s_container x)))) i ∈ h.

Lemma wp_applied_image_ids verified l ids s before : expected_ids verified before ids (log s) →
  wp (applied_image_ids E verified l ids) (λ r s', looked s s' ∧ ∃ ids', r = Ok ids' ∧
     expected_ids verified (before ++ l) ids' (log s')) s.
Proof.
  revert ids s before. induction l as [|x l IH]; intros ids s before Hids; cbn [applied_image_ids].
  { apply wp_ret. rewrite app_nil_r. split; [done|]. by exists ids. }
  apply wp_bind, wp_answered. set (ref := at_digest _ _). set (i := image_answer E (log s) ref).
  assert (L : looked s (record (EImage ref i) s)) by (apply went_record; by split; [cbn; tauto|]).
  eapply wp_mono; [apply (IH _ _ (before ++ [x]))|].
  - destruct Hids as [H1 H2]. split.
    + intros y [Hy| ->%list_elem_of_singleton]%elem_of_app; [|by rewrite lookup_insert_eq].
      destruct (decide (s_name x = s_name y)) as [->|]; [by rewrite lookup_insert_eq|].
      rewrite lookup_insert_ne by done. by apply H1.
    + intros n j. destruct (decide (s_name x = n)) as [<-|Hne].
      * rewrite lookup_insert_eq. intros [= <-]. exists x. split; [apply elem_of_app; right; left|]. split; [done|left].
      * rewrite lookup_insert_ne by done. intros (y & Hy & Hn & He)%H2. exists y.
        split; [apply elem_of_app; by left|]. split; [done|by right].
  - intros r s' (L' & ids' & -> & H). rewrite <- app_assoc in H. split; [by etransitivity|eauto].
Qed.

Definition gate_name (snaps : list snap) : string :=
  default ""%string (s_name <$> first_match (λ x, String.eqb (service (s_container x)) GREFFER_SERVICE) snaps).

(** The update is applied: every container was recreated from the digest verified
    for it, the gate then saw all of them running those images, and the version
    did not go back; nothing but the pruning came after. *)
Definition applied (gid : option string) (old : option string) (verified : gmap string string) (snaps : list snap)
    (h : history) : Prop :=
  ∃ v ids seen, h = EPrune :: EVersion (gate_name snaps) v :: seen ∧ went_back v old = false ∧
    came_up (gate_name snaps) gid (Some ids) (s_name <$> snaps) seen ∧
    expected_ids verified snaps ids seen ∧ Forall (recreated verified seen) snaps.

(** The update was taken back: of the stack only [tried] was touched; 1 means that
    each of these was brought back to its image and the node seen up again. *)
Definition taken_back (gid : option string) (verified : gmap string string) (snaps : list snap) (code : Z)
    (before h : history) : Prop :=
  ∃ tried rest new, snaps = tried ++ rest ∧ h = new ++ before ∧ Forall (on verified tried) new ∧
    (code = EXIT_FAILED_ROLLED_BACK →
       came_up (gate_name snaps) gid None (s_name <$> snaps) h ∧ Forall (restored h) tried).

(** What every outcome of the window is. *)
Definition ended (gid : option string) (old : option string) (verified : gmap string string) (snaps : list snap)
    (before : history) (r : result exc Z) (s' : state) : Prop :=
  ∃ code, r = Ok code ∧
    (code = EXIT_OK ∧ applied gid old verified snaps (log s') ∨
     (code = EXIT_FAILED_ROLLED_BACK ∨ code = EXIT_FAILED_ROLLBACK_FAILED) ∧
     taken_back gid verified snaps code before (log s')).

Lemma wp_rollback_ended gid timeout old verified snaps tried rest s s1 :
  snaps = tried ++ rest → done_ s1 = tried → grew (on verified tried) s s1 →
  wp (_rollback E (gate_name snaps) gid (s_name <$> snaps) timeout) (ended gid old verified snaps (log s)) s1.
Proof.
  intros Hsn Hd1 G1. eapply wp_mono; [apply (wp_rollback_code verified)|].
  intros r s2 (code & -> & Hcode & G2 & Hup). rewrite Hd1 in *. exists code. split; [done|]. right. split; [done|].
  destruct G1 as (n1 & Hl1 & F1), G2 as (n2 & Hl2 & F2). exists tried, rest, (n2 ++ n1).
  rewrite Hl2, Hl1, app_assoc in *. split_and!; try done. by apply Forall_app.
Qed.

Lemma expected_ids_grows verified snaps ids s s' :
  grows s s' → expected_ids verified snaps ids (log s) → expected_ids verified snaps ids (log s').
Proof.
  intros G [H1 H2]. split; [done|]. intros n i (x & Hx & Hn & He)%H2. exists x. split_and!; [done..|].
  by eapply grew_elem.
Qed.

(** Once every container was recreated. *)
Lemma wp_gate_and_finish gid timeout old verified snaps s s1 : done_ s1 = snaps → grew (on verified snaps) s s1 →
  Forall (recreated verified (log s1)) snaps →
  let rb := _rollback E (gate_name snaps) gid (s_name <$> snaps) timeout in
  wp (ids ← applied_image_ids E verified snaps ∅;
      outcome ← health_gate E (gate_name snaps) gid (Some ids) (s_name <$> snaps) timeout;
      match outcome with
      | GATE_READY =>
          v ← ask E (version_answer E) (EVersion (gate_name snaps));
          if went_back v old then rb
          else ask E (λ _, tt) (λ _, EPrune);; mret EXIT_OK
      | _ => rb
      end) (ended gid old verified snaps (log s)) s1.
Proof.
  intros D1 G1 Hrec rb.
  assert (Hon : ∀ s2, looked s1 s2 → grew (on verified snaps) s s2).
  { intros s2 [G _]. etransitivity; [exact G1|]. eapply grew_impl, G. by left. }
  assert (Hback : ∀ s2, looked s1 s2 → wp rb (ended gid old verified snaps (log s)) s2).
  { intros s2 L. apply (wp_rollback_ended _ _ _ _ _ snaps []); [by rewrite app_nil_r| |by apply Hon]. destruct L; congruence. }
  apply wp_bind. eapply wp_mono.
  { apply (wp_applied_image_ids verified snaps ∅ s1 []). split; [by intros x ?%elem_of_nil|]. intros n i. by rewrite lookup_empty. }
  intros r s2 (L2 & ids & -> & Hids).
  apply wp_bind. eapply wp_mono; [apply wp_conj; [apply returns_gate|apply wp_conj; [apply wp_gate_up|apply looks_gate]]|].
  intros r s3 ([g ->] & Hup & L3). assert (L13 : looked s1 s3) by by etransitivity.
  destruct g; try by apply Hback.
  apply wp_bind, wp_answered. set (v := version_answer E (log s3)). destruct (went_back v old) eqn:Hv.
  { apply Hback. etransitivity; [exact L13|]. apply went_record. by split; [cbn; tauto|]. }
  apply wp_bind, wp_answered, wp_ret. exists EXIT_OK. split; [done|]. left. split; [done|].
  exists v, ids, (log s3). specialize (Hup eq_refl). split_and!; [done..| |].
  - eapply expected_ids_grows, Hids. by eapply went_any.
  - eapply Forall_impl; [exact Hrec|]. intros x. apply recreated_grows. by eapply went_any.
Qed.

Lemma wp_mutate_code gid timeout old verified snaps s : done_ s = [] →
  wp (mutate E gid timeout old verified snaps) (ended gid old verified snaps (log s)) s.
Proof.
  intros Hd. unfold mutate. fold (gate_name snaps).
  assert (HQ : ∀ (m : J Z) s1, wp m (ended gid old verified snaps (log s)) s1 →
    wp m (λ r s', match r with Ok _ => ended gid old verified snaps (log s) r s' | Raise _ => False end) s1).
  { intros m s1 H. eapply wp_mono; [exact H|]. intros r s' Hq. destruct r; [done|]. by destruct Hq as (code & ? & _). }
  apply wp_catch. eapply (wp_mono _ (λ r s', match r with Ok _ => ended gid old verified snaps (log s) r s' | Raise _ => False end));
    [|by intros [] s'].
  apply wp_bind. eapply wp_mono; [apply (wp_recreate_all verified)|].
  intros r s1 (b & tried & rest & -> & Hsn & Hd1 & G1 & Hall). rewrite Hd in Hd1. cbn in Hd1. apply HQ.
  destruct b; cbn [negb]; [|by eapply wp_rollback_ended]. destruct (Hall eq_refl) as [-> Hrec].
  rewrite app_nil_r in Hsn. subst tried. by apply wp_gate_and_finish.
Qed.

(** Before the window only a verification can fail, and it is caught. *)
Lemma verify_no_unexpected stack tag verified s :
  wp (verify_all E stack tag verified) (λ r _, r ≠ Raise Unexpected) s.
Proof.
  revert verified s. induction stack as [|c stack IH]; intros verified s; cbn [verify_all]; [done|].
  apply wp_bind. eapply (wp_mono _ (λ r _, r ≠ Raise Unexpected)).
  2:{ intros [d|[]] s1 H; [apply IH|done|done]. }
  unfold verify_and_pull, resolve_digest, cosign_verify. apply wp_bind, wp_bind, wp_answered, wp_ret.
  destruct (manifest_digest _) as [digest|]; [|done]. apply wp_bind, wp_answered. destruct (cosign_answer E _); [|done].
  apply wp_bind, wp_answered. by destruct (pull_answer E _).
Qed.

Lemma returns_lock : returns (acquire_lock E).
Proof.
  unfold acquire_lock. destruct (has_fcntl E); [|return_]. generalize 20%nat. intros n.
  induction n as [|n IH]; cbn [flock_loop]; return_; apply IH.
Qed.

Lemma returns_run c : returns (run_remote_update E c).
Proof.
  unfold run_remote_update. apply returns_bind; [unfold discover_stack; return_|]. intros stack.
  destruct (first_match _ stack) as [g|]; [|return_]. apply returns_bind; [return_|]. intros old.
  destruct (_ && _); [return_|]. apply returns_bind.
  - intros s. apply wp_catch, wp_bind. eapply wp_mono; [apply verify_no_unexpected|].
    intros [v|[]] s' H; [apply wp_ret; eauto|apply wp_ret; eauto|done].
  - intros [verified|]; [|return_]. apply returns_bind; [apply returns_snapshot|]. intros [snaps|]; [|return_].
    unfold mutate. set (rb := _rollback _ _ _ _ _). intros s. apply wp_catch. eapply (wp_mono _ (λ _ _, True)); [done|].
    intros [code|e] s' _; [eauto|]. apply returns_rollback.
Qed.
End calm.

(** What the code of a whole run says; [h] is what it did, newest first. *)
Definition remote_exit_means (c : config) (h : history) (code : Z) : Prop :=
  code = EXIT_REFUSED ∧ Forall (λ e, ¬ touches e) h ∨
  ∃ old verified snaps before acts, h = ERelease :: acts ∧ Forall looks before ∧ (∃ cid, EVersion cid old ∈ before) ∧
    (code = EXIT_OK ∧ applied (greffer_id c) old verified snaps acts ∨
     (code = EXIT_FAILED_ROLLED_BACK ∨ code = EXIT_FAILED_ROLLBACK_FAILED) ∧
     taken_back (greffer_id c) verified snaps code before acts).

(** When every call answers, a remote update always returns a code, and
    the code is the truth. 3: no tag was moved and no container touched. 0: every
    container of the stack was removed and recreated, from the digest verified for
    it; after that the gate saw the greffer ready with the right id and every
    container running the expected image; and the version it then
    reported is not older than before. 1: only a first part of the stack was
    touched, each container of it was recreated from the image it ran before, with
    [:latest] pointed back, and then the node was seen up. 2: only a
    first part of the stack was touched. *)
Theorem remote_update_exit_codes E c : (∀ h, unexpected E h = false) →
  wp (main E c) (λ r s', ∃ code, r = Ok code ∧ remote_exit_means c (log s') code) start.
Proof.
  intros Hcalm. unfold main. apply wp_bind. eapply wp_mono.
  { exact (wp_conj _ _ _ _ (returns_lock E Hcalm start) (looks_lock E start)). }
  intros r s1 ([locked ->] & L1). assert (F1 : Forall looks (log s1)).
  { destruct L1 as [(new & -> & F) _]. by rewrite app_nil_r. }
  assert (Hrefused : ∀ h, Forall looks h → remote_exit_means c h EXIT_REFUSED).
  { intros h Hh. left. split; [done|]. eapply Forall_impl; [exact Hh|]. by intros e [? _]. }
  destruct locked; cbn [negb]; [|apply wp_ret; by eauto].
  assert (C : wp (run_remote_update E c) (λ r s', ∀ code, r = Ok code → remote_exit_means c (ERelease :: log s') code) s1).
  { apply wp_run_remote_update.
    - intros r s2 [(n2 & Hl2 & F2) _] [->|[e ->]] code; [|done]. intros [= <-]. left. split; [done|].
      apply Forall_cons. split; [cbn; tauto|]. rewrite Hl2. eapply Forall_impl; [by apply Forall_app|]. by intros e [? _].
    - intros s2 old verified snaps L2 Hold _ _. destruct L1 as [_ D1], L2 as [(n2 & Hl2 & F2) D2].
      eapply wp_mono; [apply (wp_mutate_code E Hcalm); by rewrite D2, D1|]. intros r s3 (code' & -> & H) code [= <-].
      right. exists old, verified, snaps, (log s2), (log s3). split_and!; try done.
      rewrite Hl2. by apply Forall_app. }
  apply wp_finally. eapply wp_mono; [exact (wp_conj _ _ _ _ (returns_run E Hcalm c s1) C)|].
  intros r s2 ([code ->] & H). apply wp_modify. exists code. split; [done|]. by apply H.
Qed.

(** ** Nodes that update, roll back, and break half way *)
Module Remote.
Local Open Scope string_scope.

Definition bare (name : string) : container :=
  Container ("/" +:+ name) empty_config (HostConfig "greffer_internal" "always" 0 "" [] [] []) [].

Fixpoint fill (n : nat) (s : string) : string := match n with O => "" | S n => s +:+ fill n s end.
Definition digest : string := "sha256:" +:+ fill 64 "a".

(** Whether [name], first under the id [cid], runs: by the last start or removal. *)
Fixpoint is_up (name cid : string) (h : history) : bool :=
  match h with
  | EStart n true :: h => if String.eqb n name then true else is_up name cid h
  | ERm r true :: h => if String.eqb r name || String.eqb r cid then false else is_up name cid h
  | _ :: h => is_up name cid h
  | [] => true
  end.

(** The image it was last created from: the new one by way of [:latest]. *)
Fixpoint on_new (name : string) (h : history) : bool :=
  match h with
  | ECreate argv _ :: h => if Text.mem name argv then existsb (Text.endswith ":latest") argv else on_new name h
  | _ :: h => on_new name h
  | [] => false
  end.

Definition cid_of (name : string) : string := if String.eqb name "greffer-1" then "c-greffer" else "c-nginx".

(** [ready]: the new greffer comes up; [breaks]: after which event the next call raises. *)
Definition node (ready : bool) (breaks : event → bool) : env := {|
  has_fcntl := true;
  flock_answer _ := true;
  find_answer _ := Some "c-greffer";
  project_answer _ := Some "greffer";
  stack_answer _ := Some ["c-greffer" +:+ String tab "greffer"; "c-nginx" +:+ String tab "nginx"; "x" +:+ String tab "app"];
  version_answer h := Some (if on_new "greffer-1" h then "0.9.0" else "0.5.0");
  manifest_answer _ _ := Some (VDict [(VStr "digest", VStr digest)]);
  cosign_answer _ := true;
  pull_answer _ := true;
  inspect_answer h :=
    match h with
    | EInspect _ _ :: _ => Some (Inspection (bare "greffer-1") (Some "sha:old"))
    | _ => Some (Inspection (bare "nginx-1") (Some "sha:old"))
    end;
  image_answer _ _ := Some "sha:new";
  image_config_answer _ _ := None;
  ok_answer _ := true;
  readyz_answer h := Some (VDict [(VStr "id", VStr "me");
    (VStr "status", VStr (if on_new "greffer-1" h && negb ready then "fatal" else "ready"))]);
  restarts_answer _ := 0;
  image_of_answer h name := Some (if on_new name h then "sha:new" else "sha:old");
  running_answer h name := is_up name (cid_of name) h;
  clock h := 2 * Z.of_nat (length (List.filter (λ e, match e with ESleep => true | _ => false end) h));
  unexpected h := match h with e :: _ => breaks e | [] => false end |}.

Definition options : config := {| greffer_id := Some "me"; target_tag := None; timeout := 600 |}.
Definition outcome (E : env) : result exc Z * history := let r := main E options start in (r.1, log r.2).

Example stack_found : ordered_stack (default [] (stack_answer (node true (λ _, false)) [])) =
  [StackContainer "nginx" "c-nginx" "greffon/greffer-nginx"; StackContainer "greffer" "c-greffer" "greffon/greffer"].
Proof. vm_compute. reflexivity. Qed.

Example remote_codes :
  ((outcome (node true (λ _, false))).1, (outcome (node false (λ _, false))).1) =
  (Ok EXIT_OK, Ok EXIT_FAILED_ROLLED_BACK).
Proof. vm_compute. reflexivity. Qed.

(** An exception between the removal of a container and its recreation leaves it
    out of the rollback: the greffer is gone, and nothing tries to create it
    again. *)
Definition raises_after_removal (e : event) : bool :=
  match e with ERm ref _ => String.eqb ref "c-greffer" | _ => false end.

Example lost_container :
  let '(r, h) := outcome (node true raises_after_removal) in
  r = Ok EXIT_FAILED_ROLLBACK_FAILED ∧ is_up "greffer-1" "c-greffer" h = false ∧
  existsb (λ e, match e with ECreate argv _ => Text.mem "greffer-1" argv | _ => false end) h = false.
Proof. vm_compute. auto. Qed.
End Remote.

Lemma remote_update_exit_codes_witness :
  Forall (λ ready, wp (main (Remote.node ready (λ _, false)) Remote.options)
    (λ r s', ∃ code, r = Ok code ∧ remote_exit_means Remote.options (log s') code) start) [true; false].
Proof.
  apply Forall_cons; split; [|apply Forall_singleton]; apply remote_update_exit_codes; by intros [].
Defined.
