(* ===== verification/Migrations.v ===== *)
(** [apps/utils/ops_migrations] (the framework: [base.py], [registry.py],
    [ledger.py], [runner.py]) and the [apply_ops_migrations] command of
    [app/cli.py], which the container runs before it starts the server.

    A migration is what its class says it is: flags and two methods that may do
    anything to the world [W] outside the ledger (docker, files, the clock) and
    may raise.  The ledger file, the legacy sentinel beside it and the ledger
    object in memory are the state; file operations succeed or raise as [W] says,
    so an answer may depend on everything that happened before.  A kill between
    two operations is the next one raising [Interrupt], which nothing catches. *)
From Stdlib Require Import Ascii String.
From stdpp Require Import sorting.
From S2P Require Import Prelude PyValue.
Local Open Scope list_scope.
Local Open Scope Z_scope.

Notation dict := (list (value * value)).

(** [Exception_] is any other [Exception]; [Interrupt] any [BaseException] that
    is not one ([SystemExit], [KeyboardInterrupt], a kill). *)
Inductive exc : Type :=
  | TypeError | ValueError | KeyError | AttributeError | OverflowError | OSError | Exception_ | Interrupt.
Definition is_exception (e : exc) : bool := match e with Interrupt => false | _ => true end.

(** ** [base.py] *)

(** A regular expression that ends in [$] also matches before a last newline. *)
Definition newline : ascii := ascii_of_N 10.
Definition chomp (s : string) : string :=
  if Text.endswith (String newline "") s then substring 0 (String.length s - 1) s else s.

Definition is_lower (c : ascii) : bool :=
  let n := N_of_ascii c in (97 <=? n)%N && (n <=? 122)%N.
Definition id_char (c : ascii) : bool := is_lower c || Text.is_digit c || Ascii.eqb c "_".

Definition ID_RE (s : string) : bool :=
  match chomp s with
  | String a (String b (String c (String d (String u (String l rest))))) =>
      Text.is_digit a && Text.is_digit b && Text.is_digit c && Text.is_digit d &&
      Ascii.eqb u "_" && is_lower l && Text.all_chars id_char rest
  | _ => false
  end.

Record migration {W : Type} : Type := Migration {
  id : string;
  stop_on_failure : bool;
  advisory : bool;
  check_preconditions : W → result exc unit * W;
  run : W → result exc value * W;
}.
Arguments migration : clear implicits.
Arguments Migration {W} _ _ _ _ _.

(** Why a run failed; [error] of a [Result] is its text. *)
Inductive failure : Type :=
  | Raised (e : exc) | NotADict | MalformedBackups | MalformedErrors | ItemErrors (n : Z).

Record outcome : Type := Result { r_id : string; ok : bool; summary : dict; error : option failure }.

(** ** Python on parsed values *)

(** [int(v)]; [int_other] answers for the values that [VOther] stands for. *)
Definition py_int (int_other : value → result exc Z) (v : value) : result exc Z :=
  match v with
  | VInt z => Ok z
  | VBool b => Ok (if b then 1 else 0)
  | VStr s =>
      if (4300 <? String.length s)%nat then Raise ValueError
      else match Text.int_of_string s with Some z => Ok z | None => Raise ValueError end
  | VOther _ _ => int_other v
  | _ => Raise TypeError
  end.

Definition chars (s : string) : list value := (λ c, VStr (String c "")) <$> list_ascii_of_string s.

(** [list(v)]: [None] for [TypeError]. *)
Definition py_list (list_other : value → option (list value)) (v : value) : option (list value) :=
  match v with
  | VList l => Some l
  | VDict d => Some d.*1
  | VStr s => Some (chars s)
  | VOther _ _ => list_other v
  | _ => None
  end.

Definition or_else (v w : value) : value := if truthy v then v else w.
Definition setdefault (k : string) (v : value) (d : dict) : dict :=
  match dict_get k d with Some _ => d | None => dict_set k v d end.
Definition dict_pop (k : string) (d : dict) : dict := List.filter (λ kv, negb (eq_str kv.1 k)) d.

(** ** [registry.py] *)
Section registry.
Context {W : Type}.
Implicit Types m : migration W.

Inductive registry_error : Type := InvalidMigrationId | NoId | AdvisoryHalts | DuplicateMigrationId.

Definition init_subclass m : result registry_error (migration W) :=
  if negb (String.eqb (id m) "") && negb (ID_RE (id m)) then Raise InvalidMigrationId else Ok m.

(** [_REGISTRY] in insertion order; its keys are the ids of its values. *)
Definition register (_REGISTRY : list (migration W)) m : result registry_error (list (migration W)) :=
  if String.eqb (id m) "" then Raise NoId
  else if advisory m && stop_on_failure m then Raise AdvisoryHalts
  else if Text.mem (id m) (id <$> _REGISTRY) then Raise DuplicateMigrationId
  else Ok (_REGISTRY ++ [m]).

(** Importing modules that each declare and register one class. *)
Definition import_migrations (classes : list (migration W)) : result registry_error (list (migration W)) :=
  foldR (λ reg c, c ← init_subclass c; register reg c) [] classes.

Definition by_id (a b : migration W) : Prop := String.le (id a) (id b).
Global Instance by_id_dec a b : Decision (by_id a b).
Proof. unfold by_id. apply _. Defined.

Definition all_migrations (_REGISTRY : list (migration W)) : list (migration W) := merge_sort by_id _REGISTRY.
End registry.

(** ** [ledger.py] *)

(** The ledger file: [Unreadable] when opening raises [OSError] or the text is
    not JSON, [Undecodable] when reading raises anything else. *)
Inductive file : Type := Absent | Unreadable (why : string) | Undecodable | Doc (v : value).

Definition LEGACY_SENTINEL_MIGRATES : string := "0001_namespace_catalog_volumes".
Definition CURRENT_VERSION : value := VInt 1.

Definition empty_view : dict := [(VStr "version", CURRENT_VERSION); (VStr "applied", VList [])].

Definition _read_or_empty (f : file) : result exc dict :=
  match f with
  | Absent => Ok empty_view
  | Unreadable why => Ok (empty_view ++ [(VStr "_read_error", VStr why)])
  | Undecodable => Raise ValueError
  | Doc (VDict d) => Ok (setdefault "applied" (VList []) (setdefault "version" CURRENT_VERSION d))
  | Doc _ => Ok (empty_view ++ [(VStr "_read_error", VStr "not-an-object")])
  end.

(** [for entry in data.get("applied", [])]; the only other value of a JSON
    document is a float. *)
Definition entries (data : dict) : result exc (list value) :=
  match default (VList []) (dict_get "applied" data) with
  | VList l => Ok l
  | VDict d => Ok d.*1
  | VStr s => Ok (chars s)
  | _ => Raise TypeError
  end.

(** [entry["id"]] and [entry.get("id")], as members of a set. *)
Definition as_member (v : value) : result exc value := if hashable v then Ok v else Raise TypeError.
Definition entry_id (entry : value) : result exc value :=
  match entry with
  | VDict d => match dict_get "id" d with Some i => as_member i | None => Raise KeyError end
  | _ => Raise TypeError
  end.
Definition entry_get_id (entry : value) : result exc value :=
  match entry with VDict d => as_member (get_or_null "id" d) | _ => Raise AttributeError end.

Definition holds (i : string) (ids : list value) : bool := existsb (λ v, eq_str v i) ids.

Definition applied_ids (data : dict) : result exc (list value) := es ← entries data; mapR entry_id es.
Definition is_applied (i : string) (data : dict) : result exc bool :=
  ids ← applied_ids data; mret (holds i ids).

Definition ledger_entry (i : string) (applied_at duration : value) (summary : dict) (backups : list value) : value :=
  VDict [(VStr "id", VStr i); (VStr "applied_at", applied_at); (VStr "duration_seconds", duration);
         (VStr "summary", VDict summary); (VStr "backups", VList backups)].

(** [data.setdefault("applied", []).append(entry)] *)
Definition append_entry (entry : value) (data : dict) : result exc dict :=
  match dict_get "applied" (setdefault "applied" (VList []) data) with
  | Some (VList l) => Ok (dict_set "applied" (VList (l ++ [entry])) data)
  | _ => Raise AttributeError
  end.

(** ** The state of a run *)
Inductive event : Type :=
  | EStarted (i : string)
  | ERan (i : string) (r : result exc value).

Record env {W : Type} : Type := Env {
  skip : bool;                              (** [GREFFER_SKIP_OPS_MIGRATIONS] *)
  lock_io : W → result exc unit * W;        (** making the data root, opening and locking *)
  write_io : W → result exc unit * W;       (** the temporary file and [os.replace] *)
  unlink_io : W → result exc unit * W;
  now : W → value;
  duration : W → value;
}.
Arguments env : clear implicits.

Record state {W : Type} : Type := State {
  world : W;
  disk : file;
  sentinel : bool;
  mem : dict;                               (** [Ledger._data] *)
  log : list event;                         (** newest first *)
}.
Arguments state : clear implicits.
Arguments State {W} _ _ _ _ _.
Arguments Env {W} _ _ _ _ _ _.

(** What the command was given. *)
Record args : Type := Args {
  restore : option string; only : option string; dry_run : bool; fail_fast : bool }.
(** The command line of the container: no flag. *)
Definition boot : args := Args None None false false.

Inductive verdict : Type := WARN | OK | FAIL.

Section runner.
Context {W : Type} (int_other : value → result exc Z) (list_other : value → option (list value)).
Context (E : env W).
Notation state := (state W).
Notation L := (M state exc).
Implicit Types m : migration W.

Definition call {A} (f : W → result exc A * W) : L A := λ s,
  match f (world s) with (r, w) => (r, State w (disk s) (sentinel s) (mem s) (log s)) end.
Definition set_mem (d : dict) (s : state) : state := State (world s) (disk s) (sentinel s) d (log s).
Definition set_disk (f : file) (s : state) : state := State (world s) f (sentinel s) (mem s) (log s).
Definition set_sentinel (b : bool) (s : state) : state := State (world s) (disk s) b (mem s) (log s).
Definition record (e : event) (s : state) : state := State (world s) (disk s) (sentinel s) (mem s) (e :: log s).

(** The file is the old one until [os.replace], and then the new one. *)
Definition _write : L unit := call (write_io E);; modify (λ s, set_disk (Doc (VDict (mem s))) s).

(** [try: os.unlink(sentinel) except OSError: ...] *)
Definition unlink_sentinel : L unit :=
  catch (call (unlink_io E);; modify (set_sentinel false))
        (λ e, match e with OSError => mret tt | _ => throw e end).

Definition _apply_legacy_sentinel_shim : L unit :=
  there ← gets sentinel;
  if negb there then mret tt
  else data ← gets mem;
       ids ← lift (es ← entries data; mapR entry_get_id es);
       if holds LEGACY_SENTINEL_MIGRATES ids then unlink_sentinel
       else at_ ← gets (λ s, now E (world s));
            data ← lift (append_entry (ledger_entry LEGACY_SENTINEL_MIGRATES at_ (VOther "float" false)
                           [(VStr "source", VStr "legacy-sentinel-shim")] []) data);
            modify (set_mem data);; _write;; unlink_sentinel.

Definition load : L unit :=
  f ← gets disk; data ← lift (_read_or_empty f); modify (set_mem data);;
  _apply_legacy_sentinel_shim.

Definition mark_applied (i : string) (sm : dict) (duration_seconds : value) (backups : list value) : L unit :=
  data ← gets mem;
  known ← lift (is_applied i data);
  if (known : bool) then mret tt
  else at_ ← gets (λ s, now E (world s));
       data ← lift (append_entry (ledger_entry i at_ duration_seconds sm backups) data);
       modify (set_mem data);; _write.

(** ** [runner.py] *)

(** What a returned value says: the summary without its backups and why it is a
    failure, or the summary and its backups. *)
Definition judge (v : value) : result exc (dict * failure + dict * list value) :=
  match or_else v (VDict []) with
  | VDict d =>
      let sm := dict_pop "backups" d in
      match py_list list_other (or_else (default (VList []) (dict_get "backups" d)) (VList [])) with
      | None => Ok (inl (sm, MalformedBackups))
      | Some backups =>
          match py_int int_other (or_else (get_or_null "errors" sm) (VInt 0)) with
          | Ok error_count => if 0 <? error_count then Ok (inl (sm, ItemErrors error_count)) else Ok (inr (sm, backups))
          | Raise TypeError | Raise ValueError => Ok (inl (sm, MalformedErrors))
          | Raise e => Raise e
          end
      end
  | _ => Ok (inl ([], NotADict))
  end.

Definition _run_single m : L outcome :=
  modify (record (EStarted (id m)));;
  r ← attempt (call (check_preconditions m);;
               r ← attempt (call (run m));
               modify (record (ERan (id m) r));;
               lift r);
  match r with
  | Raise e => if is_exception e then mret (Result (id m) false [] (Some (Raised e))) else throw e
  | Ok v =>
      j ← lift (judge v);
      match j with
      | inl (sm, why) => mret (Result (id m) false sm (Some why))
      | inr (sm, backups) =>
          d ← gets (λ s, duration E (world s));
          (if advisory m then mret tt else mark_applied (id m) sm d backups);;
          mret (Result (id m) true sm None)
      end
  end.

(** The result that does not gate the boot. *)
Definition downgrade (r : outcome) : outcome :=
  Result (r_id r) true (dict_set "advisory_failed" (VBool true) (summary r)) (error r).

Definition selected (a : args) m : bool := match only a with Some i => String.eqb (id m) i | None => true end.

(** The loop of [apply_pending]; its [break] drops the rest. *)
Fixpoint batch (a : args) (migs : list (migration W)) : L (list outcome) :=
  match migs with
  | [] => mret []
  | m :: migs =>
      if negb (selected a m) then batch a migs
      else
        data ← gets mem;
        known ← lift (is_applied (id m) data);
        if known && negb (advisory m) then batch a migs
        else if dry_run a then
          rs ← batch a migs;
          mret (Result (id m) true [(VStr "dry_run", VBool true)] None :: rs)
        else
          r ← _run_single m;
          let halting := negb (ok r) && (stop_on_failure m || fail_fast a) in
          let r := if advisory m && negb (ok r) && negb halting then downgrade r else r in
          if halting then mret [r]
          else rs ← batch a migs; mret (r :: rs)
  end.

Definition apply_pending (a : args) (migs : list (migration W)) : L (list outcome) :=
  if skip E then mret [] else call (lock_io E);; load;; batch a migs.

(** ** [app/cli.py] *)
Definition line (r : outcome) : string * verdict :=
  (r_id r, if negb (ok r) then FAIL
           else if truthy (get_or_null "advisory_failed" (summary r)) then WARN else OK).

Definition unknown (a : args) (migs : list (migration W)) : bool :=
  match only a with
  | Some i => negb (String.eqb i "") && negb (Text.mem i (id <$> migs))
  | None => false
  end.

Definition prints_backups (a : args) : bool :=
  match restore a with Some i => negb (String.eqb i "") | None => false end.

(** The exit code and the lines about the migrations. *)
Definition _apply_ops_migrations (a : args) (migs : list (migration W)) : L (Z * list (string * verdict)) :=
  if prints_backups a then mret (0, [])
  else if unknown a migs then mret (2, [])
  else rs ← apply_pending a migs;
       mret (if forallb ok rs then 0 else 1, line <$> rs).
End runner.

(** ** What a ledger records *)
Definition raw_id (e : value) : option value := match e with VDict d => dict_get "id" d | _ => None end.
Definition ledger_ids (data : dict) : list value :=
  match entries data with Ok es => omap raw_id es | Raise _ => [] end.
Definition disk_ids (f : file) : list value := match f with Doc (VDict d) => ledger_ids d | _ => [] end.
Definition recorded (i : string) (f : file) : bool := holds i (disk_ids f).

Lemma holds_true i ids : holds i ids = true ↔ VStr i ∈ ids.
Proof.
  unfold holds. rewrite existsb_exists. setoid_rewrite list_elem_of_In. setoid_rewrite eq_str_true. naive_solver.
Qed.

Lemma holds_false i ids : holds i ids = false ↔ VStr i ∉ ids.
Proof. rewrite <-not_true_iff_false, holds_true. done. Qed.

Lemma applied_ids_ids data ids : applied_ids data = Ok ids → ids = ledger_ids data.
Proof.
  unfold applied_ids, ledger_ids. intros (es & -> & H%mapR_ok)%bindR_ok.
  induction H as [|e i es ids He _ IH]; csimpl; [done|]. destruct e; try discriminate He. simpl in *.
  destruct (dict_get "id" d) as [j|]; [|done]. unfold as_member in He.
  destruct (hashable j); [|done]. injection He as ->. by f_equal.
Qed.

Lemma is_applied_ids i data b : is_applied i data = Ok b → b = holds i (ledger_ids data).
Proof. unfold is_applied. intros (ids & ->%applied_ids_ids & [= <-])%bindR_ok. done. Qed.

Lemma shim_ids data es ids i :
  entries data = Ok es → mapR entry_get_id es = Ok ids → holds i ids = holds i (ledger_ids data).
Proof.
  unfold ledger_ids. intros -> H%mapR_ok.
  induction H as [|e j es ids He _ IH]; csimpl; [done|]. destruct e; try discriminate He. simpl in *.
  unfold as_member, get_or_null in He. destruct (hashable _); [|done]. injection He as <-.
  destruct (dict_get "id" d) as [j|]; simpl; by rewrite IH.
Qed.

Lemma setdefault_get k v data : dict_get k (setdefault k v data) = Some (default v (dict_get k data)).
Proof. unfold setdefault. destruct (dict_get k data) eqn:H; simpl; [done|]. apply dict_get_set_eq. Qed.

Lemma append_entry_ids i at_ du sm b data data' :
  append_entry (ledger_entry i at_ du sm b) data = Ok data' → ledger_ids data' = ledger_ids data ++ [VStr i].
Proof.
  unfold append_entry, ledger_ids, entries. rewrite setdefault_get.
  destruct (default _ _) as [| | | |l| |]; try done. intros [= <-]. rewrite dict_get_set_eq. simpl.
  by rewrite omap_app.
Qed.

Lemma read_or_empty_ids f data : _read_or_empty f = Ok data → ledger_ids data = disk_ids f.
Proof.
  destruct f as [|why| |v]; simpl; try by intros [= <-].
  destruct v as [| | | | |d|]; try by intros [= <-]. intros [= <-]. unfold ledger_ids, entries, setdefault at 1.
  destruct (dict_get "applied" (setdefault _ _ d)) eqn:H.
  - rewrite H. unfold setdefault in H. destruct (dict_get "version" d); [by rewrite H|].
    rewrite dict_get_set_ne in H by done. by rewrite H.
  - rewrite dict_get_set_eq. unfold setdefault in H. destruct (dict_get "version" d); [by rewrite H|].
    rewrite dict_get_set_ne in H by done. by rewrite H.
Qed.

(** ** One run of the framework *)
Section steps.
Context {W : Type} (int_other : value → result exc Z) (list_other : value → option (list value)).
Notation judge := (judge int_other list_other).
Notation L := (M (state W) exc).
Implicit Types (m : migration W) (s : state W) (all migs : list (migration W)) (E : env W).

(** A run of [i] that returned a summary without errors. *)
Definition clean_run (i : string) (evs : list event) : Prop :=
  ∃ v sm b, ERan i (Ok v) ∈ evs ∧ judge v = Ok (inr (sm, b)).

(** The ledger object agrees with the file. *)
Definition synced s : Prop := ledger_ids (mem s) = disk_ids (disk s).

(** How a run of the migrations [all] may move the state: entries are only
    added, each for a migration that ran clean in between, and no migration that
    is recorded is started unless it is advisory. *)
Definition advances all s s' : Prop :=
  disk_ids (disk s) `prefix_of` disk_ids (disk s') ∧ sentinel s' = sentinel s ∧
  ∃ evs, log s' = evs ++ log s ∧
    (∀ i, EStarted i ∈ evs → ∃ m, m ∈ all ∧ id m = i ∧ (advisory m = true ∨ VStr i ∉ disk_ids (disk s))) ∧
    (∀ v, v ∈ disk_ids (disk s') → v ∈ disk_ids (disk s) ∨
          ∃ m, m ∈ all ∧ v = VStr (id m) ∧ clean_run (id m) evs).

Lemma clean_run_mono i evs evs' : clean_run i evs → evs ⊆ evs' → clean_run i evs'.
Proof. intros (v & sm & b & Hin & Hj) Hs. exists v, sm, b. auto. Qed.

#[global] Instance advances_pre all : PreOrder (advances all).
Proof.
  split.
  - intros s. split_and!; [done..|]. exists []. split_and!; [done|by intros i ?%elem_of_nil|auto].
  - intros s1 s2 s3 (P1 & S1 & e1 & L1 & A1 & C1) (P2 & S2 & e2 & L2 & A2 & C2).
    split_and!; [by etransitivity|congruence|].
    exists (e2 ++ e1). rewrite L2, L1, app_assoc. split_and!; [done| |].
    + intros i [Hi|Hi]%elem_of_app; [|auto]. destruct (A2 i Hi) as (m & Hm & Hid & Ha).
      exists m. split_and!; [done..|]. destruct Ha as [?|Hn]; [by left|]. right. contradict Hn.
      by eapply elem_of_prefix.
    + intros v [Hv|(m & Hm & -> & Hc)]%C2; [destruct (C1 v Hv) as [?|(m & Hm & -> & Hc)]; [by left|]|];
        right; exists m; split_and!; try done; eapply clean_run_mono; try exact Hc; set_solver.
Qed.

(** What does not touch the file, the sentinel or the log. *)
Lemma advances_same all s s' :
  disk s' = disk s → sentinel s' = sentinel s → log s' = log s → advances all s s'.
Proof.
  intros Hd Hs Hl. unfold advances. rewrite Hd, Hs, Hl. split_and!; [done..|].
  exists []. split_and!; [done|by intros i ?%elem_of_nil|auto].
Qed.

Lemma wp_outside {A} (f : W → result exc A * W) (Q : result exc A → state W → Prop) s :
  (∀ r w, Q r (State w (disk s) (sentinel s) (mem s) (log s))) → wp (call f) Q s.
Proof. intros H. unfold wp, call. destruct (f (world s)) as [r w]. apply H. Qed.

Lemma wp_outside_eq {A} (f : W → result exc A * W) (Q : result exc A → state W → Prop) s r w :
  f (world s) = (r, w) → Q r (State w (disk s) (sentinel s) (mem s) (log s)) → wp (call f) Q s.
Proof. intros Hf H. unfold wp, call. by rewrite Hf. Qed.

Lemma wp_write E s :
  wp (_write E) (λ r s', sentinel s' = sentinel s ∧ log s' = log s ∧ mem s' = mem s ∧
    match r with Ok _ => disk s' = Doc (VDict (mem s)) | Raise _ => disk s' = disk s end) s.
Proof.
  apply wp_bind, wp_outside. intros [[]|e] w; [|done]. by apply wp_modify.
Qed.

Lemma wp_unlink E s :
  wp (unlink_sentinel E) (λ r s', disk s' = disk s ∧ log s' = log s ∧ mem s' = mem s ∧
    (sentinel s' = true → sentinel s = true)) s.
Proof.
  apply wp_catch, wp_bind, wp_outside. intros [[]|e] w.
  - by apply wp_modify.
  - by destruct e.
Qed.

Ltac unmoved := simpl; split_and!; first [done|reflexivity|by auto|by intros|by intros; congruence|by intros _; unfold synced].

(** Opening the ledger only adds the migration the sentinel stands for. *)
Definition opens s s' : Prop :=
  log s' = log s ∧ (sentinel s' = true → sentinel s = true) ∧
  disk_ids (disk s) `prefix_of` disk_ids (disk s') ∧
  ∀ v, v ∈ disk_ids (disk s') → v ∈ disk_ids (disk s) ∨ (v = VStr LEGACY_SENTINEL_MIGRATES ∧ sentinel s = true).

Lemma wp_load E s : wp (load E) (λ r s', opens s s' ∧ (r = Ok tt → synced s')) s.
Proof.
  unfold opens, load, _apply_legacy_sentinel_shim. apply wp_bind, wp_gets, wp_bind, wp_lift.
  destruct (_read_or_empty (disk s)) as [d|e] eqn:Hd; [|unmoved]. apply read_or_empty_ids in Hd.
  apply wp_bind, wp_modify, wp_bind, wp_gets. cbn [sentinel set_mem].
  destruct (sentinel s) eqn:Hs; cbn [negb]; [|apply wp_ret; unmoved].
  apply wp_bind, wp_gets, wp_bind, wp_lift. cbn [mem set_mem].
  destruct (entries d) as [es|e] eqn:He; cbn [mbind result_bind]; [|unmoved].
  destruct (mapR entry_get_id es) as [ids|e] eqn:Hi; [|unmoved].
  pose proof (shim_ids _ _ _ LEGACY_SENTINEL_MIGRATES He Hi) as Hh.
  destruct (holds _ ids) eqn:Hl.
  - eapply wp_mono; [apply wp_unlink|]. cbn [disk log mem sentinel set_mem]. intros r s' (Hds & Hlg & Hm & _).
    unfold synced. rewrite Hds, Hlg, Hm. unmoved.
  - apply wp_bind, wp_gets, wp_bind, wp_lift. destruct (append_entry _ d) as [d'|e] eqn:Ha; [|unmoved].
    apply append_entry_ids in Ha. apply wp_bind, wp_modify, wp_bind. eapply wp_mono; [apply wp_write|].
    cbn [disk log mem sentinel set_mem]. intros [[]|e] s1 (H1 & H2 & H3 & H4).
    + eapply wp_mono; [apply wp_unlink|]. intros r s2 (K1 & K2 & K3 & K4). unfold synced.
      rewrite K1, K2, K3, H3, H4, H2. simpl. rewrite Ha, Hd. split_and!; try done.
      * by apply prefix_app_r.
      * intros v [?| ->%list_elem_of_singleton]%elem_of_app; auto.
    + rewrite H4. unmoved.
Qed.

Lemma wp_mark_applied E i sm du b s :
  synced s →
  wp (mark_applied E i sm du b) (λ r s', sentinel s' = sentinel s ∧ log s' = log s ∧
    match r with
    | Ok _ => synced s' ∧ VStr i ∈ disk_ids (disk s') ∧
              (disk_ids (disk s') = disk_ids (disk s) ∨ disk_ids (disk s') = disk_ids (disk s) ++ [VStr i])
    | Raise _ => disk s' = disk s
    end) s.
Proof.
  intros Hs. unfold synced in Hs. unfold mark_applied. apply wp_bind, wp_gets, wp_bind, wp_lift.
  destruct (is_applied i (mem s)) as [k|e] eqn:Hk; [|done]. apply is_applied_ids in Hk.
  destruct k; [apply wp_ret|].
  { symmetry in Hk. rewrite holds_true, Hs in Hk. split_and!; auto. }
  apply wp_bind, wp_gets, wp_bind, wp_lift. destruct (append_entry _ _) as [d'|e] eqn:Ha; [|done].
  apply append_entry_ids in Ha. apply wp_bind, wp_modify. eapply wp_mono; [apply wp_write|].
  cbn [disk log mem sentinel set_mem]. intros [[]|e] s1 (H1 & H2 & H3 & H4); [|done].
  unfold synced in *. rewrite H4, H3. simpl. rewrite Ha, Hs. split_and!; try done; [|by right].
  apply elem_of_app. right. by apply list_elem_of_singleton.
Qed.

(** What one migration leaves: a returned result says whether it is recorded. *)
Definition settles all m s (r : result exc outcome) s' : Prop :=
  advances all s s' ∧
  ∀ o, r = Ok o → synced s' ∧ r_id o = id m ∧ (∃ evs, log s' = evs ++ log s ∧ EStarted (id m) ∈ evs) ∧
    (ok o = true → advisory m = true ∨ VStr (id m) ∈ disk_ids (disk s')) ∧
    (ok o = false → disk s' = disk s).

Lemma wp_run_single all E m s :
  m ∈ all → (advisory m = true ∨ VStr (id m) ∉ disk_ids (disk s)) → synced s →
  wp (_run_single int_other list_other E m) (settles all m s) s.
Proof.
  intros Hall Hp Hs. unfold _run_single. apply wp_bind, wp_modify, wp_bind, wp_attempt.
  apply (wp_mono _ (λ r s', disk s' = disk s ∧ sentinel s' = sentinel s ∧ mem s' = mem s ∧
    ∃ evs, log s' = evs ++ log s ∧ EStarted (id m) ∈ evs ∧ (∀ i, EStarted i ∈ evs → i = id m) ∧
           (∀ v, r = Ok v → ERan (id m) (Ok v) ∈ evs))).
  { apply wp_bind, wp_outside. intros [[]|e] w.
    - apply wp_bind, wp_attempt, wp_outside. intros r w'. apply wp_bind, wp_modify, wp_lift. cbn.
      split_and!; [done..|]. exists [ERan (id m) r; EStarted (id m)]. split_and!; [done|set_solver|set_solver|].
      intros v ->. left.
    - cbn. split_and!; [done..|]. exists [EStarted (id m)]. split_and!; [done|set_solver|set_solver|done]. }
  intros r s1 (Hd & Hse & Hm & evs & Hl & Hst & Hown & Hran). destruct s1 as [w d1 se1 m1 l1]; cbn in *. subst d1 se1 m1 l1.
  assert (advances all s (State w (disk s) (sentinel s) (mem s) (evs ++ log s))) as Hadv.
  { split_and!; [done..|]. exists evs. split_and!; [done| |auto]. intros i ->%Hown. eauto. }
  assert (∀ o, r_id o = id m → (ok o = true → advisory m = true) →
    settles all m s (Ok o) (State w (disk s) (sentinel s) (mem s) (evs ++ log s))) as Hsettle.
  { intros o Ho Hok. split; [done|]. intros ? [= <-]. split_and!; eauto. }
  destruct r as [v|e].
  2:{ destruct (is_exception e); [by apply wp_ret, Hsettle|]. by apply wp_throw. }
  apply wp_bind, wp_lift. destruct (judge v) as [[[sm why]|[sm b]]|e] eqn:Hj; [by apply wp_ret, Hsettle| |done].
  apply wp_bind, wp_gets, wp_bind. destruct (advisory m) eqn:Ha.
  { apply wp_ret, wp_ret, Hsettle; auto. }
  destruct Hp as [?|Hp]; [congruence|].
  eapply wp_mono; [by apply wp_mark_applied|]. cbn. intros [[]|e] s2 (K1 & K2 & K3).
  - destruct K3 as (Hs2 & Hin & Hids). apply wp_ret. split; [|intros ? [= <-]; split_and!; eauto; done].
    split_and!; [destruct Hids as [-> | ->]; [done|by apply prefix_app_r]|done|].
    exists evs. split_and!; [done|intros i ->%Hown; eauto|].
    intros x Hx. destruct Hids as [Hids|Hids]; rewrite Hids in Hx; [by left|].
    apply elem_of_app in Hx as [?| ->%list_elem_of_singleton]; [by left|]. right. exists m.
    split_and!; [done..|]. exists v, sm, b. auto.
  - split; [|done]. destruct Hadv as (H1 & H2 & H3). unfold advances. rewrite K1, K2, K3. done.
Qed.

Lemma wp_batch all E a migs s :
  migs ⊆ all → synced s →
  wp (batch int_other list_other E a migs) (λ r s', advances all s s' ∧ ∀ rs, r = Ok rs → synced s') s.
Proof.
  revert s. induction migs as [|m migs IH]; intros s Hsub Hs; [by apply wp_ret|].
  assert (migs ⊆ all) as Hsub' by set_solver. assert (m ∈ all) as Hm by set_solver.
  cbn [batch]. destruct (negb (selected a m)); [by apply IH|].
  apply wp_bind, wp_gets, wp_bind, wp_lift. destruct (is_applied _ _) as [k|e] eqn:Hk; [|done].
  apply is_applied_ids in Hk. unfold synced in Hs. rewrite Hs in Hk.
  destruct (k && negb (advisory m)) eqn:Hskip; [by apply IH|].
  assert (advisory m = true ∨ VStr (id m) ∉ disk_ids (disk s)) as Hp.
  { destruct (advisory m); [by left|]. right. rewrite andb_true_r in Hskip. rewrite <-holds_false. congruence. }
  destruct (dry_run a).
  { apply wp_bind. eapply wp_mono; [by apply IH|]. intros [rs|e] s' [H1 H2]; [|done]. apply wp_ret. eauto. }
  apply wp_bind. eapply wp_mono; [by apply wp_run_single|]. intros [o|e] s1 [H1 H2]; [|done].
  destruct (H2 o eq_refl) as (Hs1 & _). cbv zeta. destruct (negb (ok o) && _); [by apply wp_ret|].
  apply wp_bind. eapply wp_mono; [by apply IH|].
  intros [rs|e] s' [H3 H4]; [apply wp_ret|]; (split; [by etransitivity|]); [eauto|done].
Qed.

(** The entries a batch may add. *)
Lemma advances_from migs s s' v :
  advances migs s s' → v ∈ disk_ids (disk s') → v ∈ disk_ids (disk s) ∨ v ∈ VStr ∘ id <$> migs.
Proof.
  intros (_ & _ & evs & _ & _ & H) [?|(m & Hm & -> & _)]%H; [by left|]. right.
  apply list_elem_of_fmap. eauto.
Qed.

Lemma advances_keeps migs s s' v : advances migs s s' → v ∈ disk_ids (disk s) → v ∈ disk_ids (disk s').
Proof. intros (H & _) ?. by eapply elem_of_prefix. Qed.

(** What the results of a boot say about the ledger. *)
Definition reports migs s (rs : list outcome) s' : Prop :=
  if forallb ok rs
  then ∃ evs, log s' = evs ++ log s ∧
       ∀ m, m ∈ migs → if advisory m then EStarted (id m) ∈ evs else VStr (id m) ∈ disk_ids (disk s')
  else ∃ m, m ∈ migs ∧ advisory m = false ∧ VStr (id m) ∉ disk_ids (disk s').

Lemma reports_cons m migs s s1 rs s' :
  (if advisory m then ∃ evs, log s1 = evs ++ log s ∧ EStarted (id m) ∈ evs
   else VStr (id m) ∈ disk_ids (disk s') ∧ ∃ evs, log s1 = evs ++ log s) →
  reports migs s1 rs s' → reports (m :: migs) s rs s'.
Proof.
  unfold reports. intros Hm. destruct (forallb ok rs).
  - intros (evs & Hl & H). destruct (advisory m) eqn:Ha.
    + destruct Hm as (e1 & H1 & Hst). exists (evs ++ e1). rewrite Hl, H1, app_assoc. split; [done|].
      intros n [->|Hn]%elem_of_cons; [rewrite Ha; set_solver|]. specialize (H n Hn).
      destruct (advisory n); [set_solver|done].
    + destruct Hm as (Hr & e1 & H1). exists (evs ++ e1). rewrite Hl, H1, app_assoc. split; [done|].
      intros n [->|Hn]%elem_of_cons; [by rewrite Ha|]. specialize (H n Hn).
      destruct (advisory n); [set_solver|done].
  - intros (n & Hn & H). exists n. by split; [right|].
Qed.

Lemma reports_ok migs s o rs s' : ok o = true → reports migs s rs s' → reports migs s (o :: rs) s'.
Proof. intros Ho. unfold reports. simpl. by rewrite Ho. Qed.

Lemma wp_batch_boot E migs s :
  NoDup (id <$> migs) → Forall (λ m, advisory m && stop_on_failure m = false) migs → synced s →
  wp (batch int_other list_other E boot migs) (λ r s', ∀ rs, r = Ok rs → reports migs s rs s') s.
Proof.
  revert s. induction migs as [|m migs IH]; intros s Hnd Hst Hs.
  { apply wp_ret. intros ? [= <-]. exists []. split; [done|]. by intros m ?%elem_of_nil. }
  inversion Hnd as [|x l Hnew Hnd' Heq]; subst. inversion Hst as [|x l Hst1 Hst' Heq]; subst.
  assert (∀ s1, synced s1 → wp (batch int_other list_other E boot migs) (λ r s',
    (∀ rs, r = Ok rs → reports migs s1 rs s') ∧ advances migs s1 s') s1) as Hrest.
  { intros s1 Hs1. apply wp_conj; [by apply IH|]. eapply wp_mono; [by apply (wp_batch migs)|]. by intros r s' []. }
  cbn [batch]. change (selected boot m) with true. cbn [negb dry_run boot fail_fast].
  apply wp_bind, wp_gets, wp_bind, wp_lift. destruct (is_applied _ _) as [k|e] eqn:Hk; [|done].
  apply is_applied_ids in Hk. unfold synced in Hs. rewrite Hs in Hk.
  destruct (k && negb (advisory m)) eqn:Hskip.
  { apply andb_prop in Hskip as [-> Ha%negb_true_iff]. symmetry in Hk. rewrite holds_true in Hk.
    eapply wp_mono; [by apply Hrest|]. intros r s' [H1 H2] rs ->. apply (reports_cons _ _ _ s); [|auto].
    rewrite Ha. split; [by eapply advances_keeps|by exists []]. }
  assert (advisory m = true ∨ VStr (id m) ∉ disk_ids (disk s)) as Hp.
  { destruct (advisory m); [by left|]. right. rewrite andb_true_r in Hskip. rewrite <-holds_false. congruence. }
  apply wp_bind. eapply wp_mono; [by apply (wp_run_single [m]); [left|..]|].
  intros [o|e] s1 [H1 H2]; [|done]. destruct (H2 o eq_refl) as (Hs1 & _ & Hlog & Hok & Hno). clear H2.
  rewrite orb_false_r. cbv zeta.
  assert (∀ s', advances migs s1 s' → ok o = true ∨ advisory m = true →
    if advisory m then ∃ evs, log s1 = evs ++ log s ∧ EStarted (id m) ∈ evs
    else VStr (id m) ∈ disk_ids (disk s') ∧ ∃ evs, log s1 = evs ++ log s) as Hmine.
  { intros s' Hadv Hor. destruct (advisory m); [done|]. destruct Hor as [Ho|]; [|done].
    destruct Hlog as (evs & ? & _). split; [|by exists evs].
    destruct (Hok Ho) as [?|?]; [done|]. by eapply advances_keeps. }
  destruct (ok o) eqn:Ho; cbn [negb andb].
  { rewrite andb_false_r. apply wp_bind. eapply wp_mono; [by apply Hrest|]. intros [rs|e] s' [H3 H4]; [|done].
    apply wp_ret. intros ? [= <-].
    apply (reports_ok _ _ _ _ _ Ho), (reports_cons _ _ _ s1); [apply (Hmine s'); auto|auto]. }
  destruct (stop_on_failure m).
  { rewrite andb_true_r in Hst1. rewrite Hst1. cbn [andb]. apply wp_ret. intros ? [= <-]. unfold reports. simpl. rewrite Ho. cbn [andb].
    exists m. rewrite Hno by done. split_and!; [left|done|]. destruct Hp; [congruence|done]. }
  cbn [negb]. rewrite !andb_true_r. apply wp_bind. eapply wp_mono; [by apply Hrest|].
  intros [rs|e] s' [H3 H4]; [|done]. apply wp_ret. intros ? [= <-]. destruct (advisory m) eqn:Ha.
  { apply reports_ok; [done|]. apply (reports_cons _ _ _ s1); [|auto]. rewrite Ha. apply (Hmine s'); auto. }
  unfold reports. simpl. rewrite Ho. cbn [andb]. exists m. split_and!; [left|done|].
  intros Hin. destruct (advances_from _ _ _ _ H4 Hin) as [Hin1|Hin1].
  - rewrite Hno in Hin1 by done. destruct Hp; [congruence|done].
  - apply Hnew. apply list_elem_of_fmap in Hin1 as (n & [= ->] & Hn). apply list_elem_of_fmap. eauto.
Qed.

Lemma wp_apply_pending E a migs s :
  wp (apply_pending int_other list_other E a migs) (λ _ s', ∃ s1, opens s s1 ∧ advances migs s1 s') s.
Proof.
  assert (opens s s) as Hid by (unfold opens; unmoved).
  unfold apply_pending. destruct (skip E); [by apply wp_ret; exists s|].
  apply wp_bind, wp_outside. intros [[]|e] w.
  2:{ exists s. split; [done|]. by apply advances_same. }
  apply wp_bind. eapply wp_mono; [apply wp_load|]. intros [[]|e] s1 [H1 H2]; [|by exists s1].
  eapply wp_mono; [by apply (wp_batch migs); auto|]. intros r s' [H3 _]. by exists s1.
Qed.

Lemma wp_apply_boot E migs s :
  skip E = false → NoDup (id <$> migs) → Forall (λ m, advisory m && stop_on_failure m = false) migs →
  wp (apply_pending int_other list_other E boot migs) (λ r s', ∀ rs, r = Ok rs → reports migs s rs s') s.
Proof.
  intros Hsk Hnd Hst. unfold apply_pending. rewrite Hsk. apply wp_bind, wp_outside. intros [[]|e] w; [|done].
  apply wp_bind. eapply wp_mono; [apply wp_load|]. intros [[]|e] s1 [(H1 & _) H2]; [|done].
  eapply wp_mono; [by apply wp_batch_boot; auto|]. intros r s' H3 rs Hr. specialize (H3 rs Hr).
  unfold reports in *. by rewrite H1 in H3.
Qed.

Lemma wp_command E a migs s :
  wp (_apply_ops_migrations int_other list_other E a migs) (λ _ s', ∃ s1, opens s s1 ∧ advances migs s1 s') s.
Proof.
  assert (opens s s) as Hid by (unfold opens; unmoved).
  unfold _apply_ops_migrations. destruct (prints_backups a); [by apply wp_ret; exists s|].
  destruct (unknown a migs); [by apply wp_ret; exists s|].
  apply wp_bind. eapply wp_mono; [apply wp_apply_pending|]. by intros [rs|e] s'.
Qed.

(** ** Runs that return *)

(** A ledger that the code can read: [applied] is a list of objects with ids. *)
Definition well_formed (data : dict) : bool :=
  match default (VList []) (dict_get "applied" data) with
  | VList l => forallb (λ e, match entry_id e with Ok _ => true | Raise _ => false end) l
  | _ => false
  end.
Definition readable (f : file) : bool :=
  match f with Undecodable => false | Doc (VDict d) => well_formed d | _ => true end.

Lemma well_formed_ids data :
  well_formed data = true → ∃ l ids, dict_get "applied" (setdefault "applied" (VList []) data) = Some (VList l) ∧
    entries data = Ok l ∧ mapR entry_id l = Ok ids ∧ ∃ ids', mapR entry_get_id l = Ok ids'.
Proof.
  unfold well_formed, entries. rewrite setdefault_get. destruct (default _ _) as [| | | |l| |]; try done.
  intros H. exists l. enough (∃ ids, mapR entry_id l = Ok ids ∧ mapR entry_get_id l = Ok ids) by naive_solver.
  induction l as [|e l IH]; simpl in *; [eauto|]. apply andb_prop in H as [He Hl].
  destruct (IH Hl) as (ids & -> & ->). destruct e as [| | | | |d|]; try done. simpl in *. unfold get_or_null.
  destruct (dict_get "id" d) as [i|]; [|done]. simpl. destruct (as_member i) as [j|]; [|done]. eauto.
Qed.

Lemma well_formed_append i at_ du sm b data :
  well_formed data = true → ∃ data', append_entry (ledger_entry i at_ du sm b) data = Ok data' ∧ well_formed data' = true.
Proof.
  intros H. destruct (well_formed_ids _ H) as (l & _ & Hl & _). unfold append_entry. rewrite Hl.
  eexists. split; [done|]. unfold well_formed in *. rewrite setdefault_get in Hl. injection Hl as Hl.
  rewrite Hl in H. rewrite dict_get_set_eq. simpl. rewrite forallb_app. by rewrite H.
Qed.

Lemma well_formed_read f : readable f = true → ∃ data, _read_or_empty f = Ok data ∧ well_formed data = true.
Proof.
  destruct f as [|why| |v]; try done; [eauto..|]. destruct v as [| | | | |d|]; [eauto..| |eauto].
  simpl. intros H. eexists. split; [done|]. unfold well_formed in *. rewrite setdefault_get. simpl.
  unfold setdefault. destruct (dict_get "version" d); [done|]. by rewrite dict_get_set_ne.
Qed.

(** Nothing goes wrong outside the migrations: the lock, the file and the number
    conversions work, and no migration ends the process.  Migrations may fail. *)
Record untroubled (E : env W) (all : list (migration W)) : Prop := {
  lock_works : ∀ w, (lock_io E w).1 = Ok tt;
  write_works : ∀ w, (write_io E w).1 = Ok tt;
  unlink_works : ∀ w, (unlink_io E w).1 = Ok tt ∨ (unlink_io E w).1 = Raise OSError;
  ints_convert : ∀ v e, int_other v = Raise e → e = TypeError ∨ e = ValueError;
  no_interrupt : ∀ m w, m ∈ all → (check_preconditions m w).1 ≠ Raise Interrupt ∧ (run m w).1 ≠ Raise Interrupt;
}.

Definition returns {A} (r : result exc A) s' : Prop := (∃ a, r = Ok a) ∧ well_formed (mem s') = true.

Lemma judge_returns v : (∀ v e, int_other v = Raise e → e = TypeError ∨ e = ValueError) → ∃ j, judge v = Ok j.
Proof.
  intros H. unfold judge. destruct (or_else v _) as [| | | | |d|]; try by eexists.
  destruct (py_list _ _); [|by eexists].
  assert (∀ v e, py_int int_other v = Raise e → e = TypeError ∨ e = ValueError) as Hi.
  { intros u e. unfold py_int. destruct u as [| | |t| | |]; try (by intros [= <-]; auto); try by intros [=].
    - destruct (4300 <? _)%nat; [intros [= <-]; auto|]. destruct (Text.int_of_string _); intros [= <-]; auto.
    - apply H. }
  destruct (py_int _ _) as [n|e] eqn:He; [destruct (0 <? n); by eexists|].
  destruct (Hi _ _ He) as [-> | ->]; by eexists.
Qed.

Section calm.
Context (E : env W) (all : list (migration W)) (Hcalm : untroubled E all).

Lemma write_returns s : well_formed (mem s) = true → wp (_write E) returns s.
Proof.
  intros H. pose proof (write_works _ _ Hcalm (world s)) as Hw.
  destruct (write_io E (world s)) as [r w] eqn:Hc. simpl in Hw. subst r.
  apply wp_bind, (wp_outside_eq _ _ _ _ _ Hc), wp_modify. split; [by exists tt|done].
Qed.

Lemma unlink_returns s : well_formed (mem s) = true → wp (unlink_sentinel E) returns s.
Proof.
  intros H. pose proof (unlink_works _ _ Hcalm (world s)) as Hw.
  destruct (unlink_io E (world s)) as [r w] eqn:Hc. apply wp_catch, wp_bind, (wp_outside_eq _ _ _ _ _ Hc).
  simpl in Hw. destruct Hw as [-> | ->].
  - apply wp_modify. split; [by exists tt|done].
  - apply wp_ret. split; [by exists tt|done].
Qed.

Lemma load_returns s : readable (disk s) = true → wp (load E) returns s.
Proof.
  intros H. unfold load, _apply_legacy_sentinel_shim. apply wp_bind, wp_gets, wp_bind, wp_lift.
  destruct (well_formed_read _ H) as (d & -> & Hd). apply wp_bind, wp_modify, wp_bind, wp_gets.
  destruct (negb _); [apply wp_ret; split; [by exists tt|done]|]. apply wp_bind, wp_gets, wp_bind, wp_lift.
  destruct (well_formed_ids _ Hd) as (l & _ & _ & He & _ & ids & Hids). cbn [mem set_mem]. rewrite He.
  cbn [mbind result_bind]. rewrite Hids. destruct (holds _ _); [by apply unlink_returns|].
  apply wp_bind, wp_gets, wp_bind, wp_lift.
  edestruct well_formed_append as (d' & -> & Hd'); [exact Hd|]. apply wp_bind, wp_modify, wp_bind.
  eapply wp_mono; [by apply write_returns|]. intros r s1 [[[] ->] H1]. by apply unlink_returns.
Qed.

Lemma is_applied_returns i data : well_formed data = true → ∃ b, is_applied i data = Ok b.
Proof.
  intros H. destruct (well_formed_ids _ H) as (l & ids & _ & He & Hids & _).
  unfold is_applied, applied_ids. rewrite He. simpl. rewrite Hids. by eexists.
Qed.

Lemma mark_applied_returns i sm du b s : well_formed (mem s) = true → wp (mark_applied E i sm du b) returns s.
Proof.
  intros H. unfold mark_applied. apply wp_bind, wp_gets, wp_bind, wp_lift.
  destruct (is_applied_returns i _ H) as [[] ->]; [apply wp_ret; split; [by exists tt|done]|].
  apply wp_bind, wp_gets, wp_bind, wp_lift. edestruct well_formed_append as (d' & -> & Hd'); [exact H|].
  apply wp_bind, wp_modify. by apply write_returns.
Qed.

Lemma run_single_returns m s :
  m ∈ all → well_formed (mem s) = true → wp (_run_single int_other list_other E m) returns s.
Proof.
  intros Hm H. unfold _run_single. apply wp_bind, wp_modify, wp_bind, wp_attempt.
  apply (wp_mono _ (λ r s', r ≠ Raise Interrupt ∧ well_formed (mem s') = true)).
  { destruct (no_interrupt _ _ Hcalm m (world s) Hm) as [Hni _].
    destruct (check_preconditions m (world s)) as [r w] eqn:Hc. apply wp_bind, (wp_outside_eq _ _ (record _ s) _ _ Hc).
    destruct r as [[]|e]; [|simpl in *; split; [congruence|done]].
    destruct (no_interrupt _ _ Hcalm m w Hm) as [_ Hni']. destruct (run m w) as [r w'] eqn:Hr.
    apply wp_bind, wp_attempt, (wp_outside_eq _ _ (State w _ _ _ _) _ _ Hr), wp_bind, wp_modify, wp_lift. done. }
  intros r s1 [Hr H1]. destruct r as [v|e].
  2:{ destruct e; try done; apply wp_ret; split; eauto. }
  apply wp_bind, wp_lift. destruct (judge_returns v (ints_convert _ _ Hcalm)) as [[[sm why]|[sm b]] ->].
  - apply wp_ret. split; eauto.
  - apply wp_bind, wp_gets, wp_bind. destruct (advisory m).
    + apply wp_ret, wp_ret. split; eauto.
    + eapply wp_mono; [by apply mark_applied_returns|]. intros ? s2 [[[] ->] H2]. apply wp_ret. split; eauto.
Qed.

Lemma batch_returns a migs s :
  migs ⊆ all → well_formed (mem s) = true → wp (batch int_other list_other E a migs) returns s.
Proof.
  revert s. induction migs as [|m migs IH]; intros s Hsub H; [apply wp_ret; split; eauto|].
  assert (migs ⊆ all) as Hsub' by set_solver. assert (m ∈ all) as Hm by set_solver.
  cbn [batch]. destruct (negb (selected a m)); [by apply IH|]. apply wp_bind, wp_gets, wp_bind, wp_lift.
  destruct (is_applied_returns (id m) _ H) as [k ->]. destruct (k && _); [by apply IH|]. destruct (dry_run a).
  { apply wp_bind. eapply wp_mono; [by apply IH|]. intros r s' [[rs ->] H1]. apply wp_ret. split; eauto. }
  apply wp_bind. eapply wp_mono; [by apply run_single_returns|]. intros r s1 [[o ->] H1]. cbv zeta.
  destruct (negb (ok o) && _); [apply wp_ret; split; eauto|].
  apply wp_bind. eapply wp_mono; [by apply IH|]. intros r s' [[rs ->] H2]. apply wp_ret. split; eauto.
Qed.

Lemma apply_pending_returns a migs s :
  migs ⊆ all → readable (disk s) = true →
  wp (apply_pending int_other list_other E a migs) (λ r _, ∃ rs, r = Ok rs) s.
Proof.
  intros Hsub H. unfold apply_pending. destruct (skip E); [apply wp_ret; eauto|].
  pose proof (lock_works _ _ Hcalm (world s)) as Hw. destruct (lock_io E (world s)) as [r w] eqn:Hc.
  simpl in Hw. subst r. apply wp_bind, (wp_outside_eq _ _ _ _ _ Hc), wp_bind.
  eapply wp_mono; [by apply load_returns|]. intros r s1 [[[] ->] H1].
  eapply wp_mono; [by apply batch_returns|]. by intros r s2 [H2 _].
Qed.
End calm.
End steps.

(** ** The registry *)
Section registry_facts.
Context {W : Type}.
Implicit Types (m : migration W) (reg classes : list (migration W)).

(** What importing the modules guarantees of the registry. *)
Definition registered reg : Prop :=
  NoDup (id <$> reg) ∧ Forall (λ m, advisory m && stop_on_failure m = false) reg ∧ Forall (λ m, ID_RE (id m) = true) reg.

Lemma import_registered classes reg : import_migrations classes = Ok reg → registered reg.
Proof.
  apply (foldR_inv registered); [|split_and!; constructor].
  intros r c r' _ (Hnd & Hst & Hid) Hr. apply bindR_ok in Hr as (c' & Hc & Hr). unfold init_subclass in Hc.
  destruct (negb _ && _) eqn:Hn; [done|]. injection Hc as <-. unfold register in Hr.
  destruct (String.eqb (id c) "") eqn:He; [done|]. simpl in Hn. apply negb_false_iff in Hn.
  destruct (advisory c && stop_on_failure c) eqn:Ha; [done|]. destruct (Text.mem _ _) eqn:Hm; [done|].
  injection Hr as <-. apply Text.mem_false in Hm. split_and!.
  - rewrite fmap_app. apply NoDup_app. split_and!; [done| |apply NoDup_singleton].
    by intros x Hx ->%list_elem_of_singleton.
  - apply Forall_app. auto.
  - apply Forall_app. auto.
Qed.

Lemma all_migrations_Permutation reg : all_migrations reg ≡ₚ reg.
Proof. apply merge_sort_Permutation. Qed.

Lemma all_migrations_sorted reg : StronglySorted by_id (all_migrations reg).
Proof.
  apply StronglySorted_merge_sort.
  - intros a b c. unfold by_id. apply transitivity.
  - intros a b. apply (total String.le).
Qed.
End registry_facts.

(** ** The theorems *)
Section theorems.
Context {W : Type} (int_other : value → result exc Z) (list_other : value → option (list value)).
Notation command := (_apply_ops_migrations int_other list_other).
Implicit Types (m : migration W) (s : state W) (reg : list (migration W)) (E : env W).

(** The state required by the server: every state migration is recorded. *)
Definition migrated reg s : Prop := ∀ m, m ∈ reg → advisory m = false → recorded (id m) (disk s) = true.

(** What the exit code of the boot command says. *)
Definition gates E reg s (r : result exc (Z * list (string * verdict))) s' : Prop :=
  (∀ c lines, r = Ok (c, lines) →
    (c = 0 ∧ migrated reg s' ∧
     ∃ evs, log s' = evs ++ log s ∧ ∀ m, m ∈ reg → advisory m = true → EStarted (id m) ∈ evs) ∨
    (c = 1 ∧ ¬ migrated reg s')) ∧
  (untroubled int_other E reg → readable (disk s) = true → ∃ c lines, r = Ok (c, lines)).


(** What can happen to the ledger: runs of the command with any flags, for any
    environment and set of migrations, among changes of the rest of the world and
    losses of the file. *)
Inductive reach (sentinel0 : bool) : state W → Prop :=
  | reach_fresh w d : reach sentinel0 (State w Absent sentinel0 d [])
  | reach_run E a migs s : reach sentinel0 s → reach sentinel0 (command E a migs s).2
  | reach_world w s : reach sentinel0 s → reach sentinel0 (State w (disk s) (sentinel s) (mem s) (log s))
  | reach_lost f s : reach sentinel0 s → disk_ids f = [] → reach sentinel0 (set_disk f s).

(** Each recorded migration returned a summary without errors, but for the one
    the legacy sentinel stood for. *)
Definition earned (sentinel0 : bool) s : Prop :=
  ∀ v, v ∈ disk_ids (disk s) →
    (∃ i, v = VStr i ∧ clean_run int_other list_other i (log s)) ∨
    (v = VStr LEGACY_SENTINEL_MIGRATES ∧ sentinel0 = true).

(** A run keeps what is recorded, and starts none of it again. *)
Definition kept s : Prop := ∀ E a migs i,
  recorded i (disk s) = true → (∀ m, m ∈ migs → id m = i → advisory m = false) →
  let s' := (command E a migs s).2 in
  recorded i (disk s') = true ∧ ∃ evs, log s' = evs ++ log s ∧ EStarted i ∉ evs.

Lemma command_keeps s : kept s.
Proof.
  intros E a migs i Hi Ha s'. destruct (wp_command int_other list_other E a migs s) as (s1 & Ho & Hadv).
  fold s' in Hadv. destruct Ho as (Hl & _ & Hpre & _). unfold recorded in *. rewrite holds_true in *.
  assert (VStr i ∈ disk_ids (disk s1)) as Hi1 by (by eapply elem_of_prefix).
  split; [by eapply advances_keeps|]. destruct Hadv as (_ & _ & evs & Hevs & Hst & _). exists evs.
  split; [by rewrite Hevs, Hl|]. intros (m & Hm & Hid & [Hadv|?])%Hst; [|done]. rewrite (Ha m Hm Hid) in Hadv. done.
Qed.

(** C10: However the command was run, interrupted or failed before, a migration is
    recorded in the ledger only after a run of it that returned a summary without
    errors (or for the sentinel of the old installation), the ledger never
    forgets one while the file stands, and a recorded state migration is never
    started again. *)
Theorem ledger_earned (sentinel0 : bool) s (Hr : reach sentinel0 s) : earned sentinel0 s ∧ kept s.
Proof.
  split; [|apply command_keeps]. enough (earned sentinel0 s ∧ (sentinel s = true → sentinel0 = true)) by naive_solver.
  induction Hr as [w d|E a migs s Hr [IH IHs]|w s Hr [IH IHs]|f s Hr [IH IHs] Hf].
  - split; [|done]. by intros v ?%elem_of_nil.
  - destruct (wp_command int_other list_other E a migs s) as (s1 & (Hl & Hsen & _ & Hnew) & _ & Hsen2 & evs & Hlog & _ & Hc).
    split; [|rewrite Hsen2; auto]. intros v [Hv|(m & _ & -> & Hclean)]%Hc.
    + destruct (Hnew v Hv) as [[(i & -> & Hi)| ?]%IH|[-> ?]]; [left|by right|right; auto].
      exists i. split; [done|]. eapply clean_run_mono; [exact Hi|]. rewrite Hlog, Hl. set_solver.
    + left. exists (id m). split; [done|]. eapply clean_run_mono; [exact Hclean|]. rewrite Hlog. set_solver.
  - done.
  - split; [|done]. intros v. simpl. rewrite Hf. by intros ?%elem_of_nil.
Qed.
End theorems.

(** ** Concrete runs *)
Module Demo.
Local Open Scope string_scope.

Definition int_other (v : value) : result exc Z := Raise OverflowError. (** [int(float("inf"))] *)
Definition list_other (v : value) : option (list value) := None.
Notation command := (_apply_ops_migrations int_other list_other).

(** The world counts the runs. *)
Definition fine (w : nat) : result exc unit * nat := (Ok tt, w).
Definition quiet : env nat := Env false fine fine fine (λ _, VStr "2026-04-18T09:12:03Z") (λ _, VInt 0).
Definition mig (i : string) (adv : bool) (answer : nat → result exc value) : migration nat :=
  Migration i false adv fine (λ w, (answer w, S w)).

(** Two items fail at the first run and none later; a cleanup that always fails. *)
Definition copies := mig "0001_copies" false (λ w, Ok (VDict [(VStr "errors", VInt (if (w =? 0)%nat then 2 else 0))])).
Definition cleanup := mig "0002_cleanup" true (λ _, Raise OSError).
Definition reg : list (migration nat) := [cleanup; copies].

Definition fresh (sen : bool) (f : file) : state nat := State 0%nat f sen [] [].
Definition boot1 := command quiet boot (all_migrations reg) (fresh false Absent).
Definition boot2 := command quiet boot (all_migrations reg) boot1.2.

Example demo_registered : import_migrations reg = Ok reg.
Proof. vm_compute. reflexivity. Qed.
Example demo_boots :
  (boot1.1, boot2.1) =
  (Ok (1, [("0001_copies", FAIL); ("0002_cleanup", WARN)]), Ok (0, [("0001_copies", OK); ("0002_cleanup", WARN)])).
Proof. vm_compute. reflexivity. Qed.

(** An unreadable ledger is replaced by the empty view at the first migration
    that is applied: what it recorded is run again and then lost. *)
Example unreadable_replaced :
  let s := (command quiet boot [copies] (State 1%nat (Unreadable "bad") false [] [])).2 in
  disk_ids (disk s) = [VStr "0001_copies"] ∧
  match disk s with Doc (VDict d) => dict_get "_read_error" d | _ => None end = Some (VStr "bad").
Proof. vm_compute. done. Qed.

(** [--dry-run] writes the ledger and removes the sentinel. *)
Example dry_run_seeds :
  let s := (command quiet (Args None None true false) reg (fresh true Absent)).2 in
  recorded LEGACY_SENTINEL_MIGRATES (disk s) = true ∧ sentinel s = false.
Proof. vm_compute. done. Qed.

(** [--only ""] is no id, and yet selects nothing and succeeds. *)
Example only_empty :
  (command quiet (Args None (Some "") false false) reg (fresh false Absent)).1 = Ok (0, []).
Proof. vm_compute. reflexivity. Qed.

(** A count of infinity in an advisory migration keeps the node down. *)
Example infinite_errors :
  let m := mig "0002_cleanup" true (λ _, Ok (VDict [(VStr "errors", VOther "float" true)])) in
  (command quiet boot [m] (fresh false Absent)).1 = Raise OverflowError.
Proof. vm_compute. reflexivity. Qed.


Lemma ledger_earned_witness :
  recorded "0001_copies" (disk boot2.2) = true ∧
  earned int_other list_other false boot2.2 ∧ kept int_other list_other boot2.2.
Proof.
  split; [vm_compute; reflexivity|]. apply (ledger_earned int_other list_other false boot2.2).
  apply reach_run, reach_run, reach_fresh.
Defined.
End Demo.
