(* ===== verification/RenderBudget.v ===== *)
(** [apps/utils/docker/render_budget.py]: rendering the string leaves of an
    untrusted document in a child process, under caps on its input and output,
    and the one-worker process pool that is recycled when a render dies, wedges
    or exhausts its memory.

    Jinja is a parameter: what compiling a source and generating its chunks give.
    A string is the UTF-8 text, so its length is the number of bytes the caps
    count.  The memory and time limits show as what [future.result] raises. *)
From Stdlib Require Import Ascii String.
From S2P Require Import Prelude PyValue.
Local Open Scope list_scope.
Local Open Scope Z_scope.

(** [RenderBudgetExceeded(code, cap)] and the exceptions the code tells apart;
    [ChildError] is any other one of the child, by its class. *)
Inductive exc : Type :=
  | RenderBudgetExceeded (code : string) (cap : Z)
  | BrokenProcessPool
  | CancelledError
  | RuntimeError
  | TimeoutError
  | MemoryError
  | ValueError
  | AttributeError
  | ChildError (class : string).

Definition bytes (s : string) : Z := Z.of_nat (String.length s).

(** ** The knobs *)
Definition _DEFAULT_INPUT : Z := 1048576.
Definition _DEFAULT_OUTPUT : Z := 4194304.
Definition _DEFAULT_MEM : Z := 268435456.

(** [_knob(name, default)] on the text of the variable. *)
Definition _knob (raw : option string) (default : Z) : Z :=
  match raw with
  | None => default
  | Some raw =>
      if String.eqb (Text.strip raw) "" then default
      else if (4300 <? String.length raw)%nat then default
      else match Text.int_of_string raw with Some z => if z <? 0 then default else z | None => default end
  end.

(** ** In the child *)

(** What Jinja does with a source: compiling it raises or not, and generating
    yields chunks and may then raise. *)
Record jinja : Type := Jinja {
  from_string : string → option exc;
  generate : string → list string * option exc;
  rebuilds : exc → bool;            (** [type(exc)(message)] succeeds *)
}.

Section child.
Context (J : jinja) (max_out : Z).

(** The loop over the chunks, and what it returns joined. *)
Fixpoint accumulate (total : Z) (chunks : list string) : result exc string :=
  match chunks with
  | [] => Ok ""%string
  | c :: chunks =>
      let total := total + bytes c in
      if max_out <? total then Raise (RenderBudgetExceeded "output_too_large" max_out)
      else rest ← accumulate total chunks; mret (c +:+ rest)
  end.

Fixpoint join (chunks : list string) : string :=
  match chunks with [] => "" | c :: chunks => c +:+ join chunks end.

(** [except RenderBudgetExceeded: raise; except Exception: ...] *)
Definition reraise (e : exc) : exc :=
  match e with
  | RenderBudgetExceeded _ _ => e
  | _ => if rebuilds J e then e else RenderBudgetExceeded "child_error" 8192
  end.

Definition _child_render (source : string) : result exc string :=
  match from_string J source with
  | Some e => Raise e
  | None =>
      let '(chunks, err) := generate J source in
      match (if max_out =? 0 then Ok (join chunks) else accumulate 0 chunks), err with
      | Raise e, _ => Raise e
      | Ok _, Some e => Raise (reraise e)
      | Ok text, None => Ok text
      end
  end.

(** The document-wide budget is the state. *)
Notation T := (M Z exc).

Definition render_leaf (s : string) : T value :=
  out ← lift (_child_render s);
  budget ← get;
  if budget =? 0 then mret (VStr out)
  else modify (λ b, b - bytes out);;
       left ← get;
       if left <? 0 then throw (RenderBudgetExceeded "output_too_large" max_out)
       else mret (VStr out).

Fixpoint _child_render_tree (tree : value) : T value :=
  match tree with
  | VStr s => render_leaf s
  | VDict d =>
      d ← (fix values d : T (list (value * value)) :=
             match d with
             | [] => mret []
             | (k, v) :: d => v ← _child_render_tree v; d ← values d; mret ((k, v) :: d)
             end) d;
      mret (VDict d)
  | VList l =>
      l ← (fix elements l : T (list value) :=
             match l with
             | [] => mret []
             | v :: l => v ← _child_render_tree v; l ← elements l; mret (v :: l)
             end) l;
      mret (VList l)
  | _ => mret tree
  end.
End child.

(** ** In the parent *)

(** [_iter_string_leaves(tree, keys)] *)
Fixpoint _iter_string_leaves (keys : bool) (tree : value) : list string :=
  match tree with
  | VStr s => [s]
  | VDict d =>
      (if keys then omap (λ kv, match kv.1 with VStr k => Some k | _ => None end) d else []) ++
      (fix values d := match d with [] => [] | (_, v) :: d => _iter_string_leaves keys v ++ values d end) d
  | VList l => (fix elements l := match l with [] => [] | v :: l => _iter_string_leaves keys v ++ elements l end) l
  | _ => []
  end.

Definition total (l : list string) : Z := foldr (λ s n, bytes s + n) 0 l.

(** [_pool] and [_pool_mem]; pools are numbered as they are made. Beside them, what
    became of the others: each pool that was killed, with why, and the pools this
    call was given, the latest first. *)
Inductive cause : Type := OtherCap | FailedRender (p : option nat) | ShutDown.
Record pools : Type := Pools {
  _pool : option nat; _pool_mem : Z; made : nat; killed : list (nat * cause); given : list (option nat) }.

(** [_pool is pool] *)
Definition is_current (p : option nat) (s : pools) : bool := bool_decide (_pool s = p).

Definition _drop_pool_locked (why : cause) (s : pools) : pools :=
  Pools None (-1) (made s) (killed s ++ match _pool s with Some p => [(p, why)] | None => [] end) (given s).

(** [_get_pool] once it holds the lock. *)
Definition get_pool_locked (mem : Z) (s : pools) : option nat * pools :=
  if negb (is_current None s) && (_pool_mem s =? mem) then (_pool s, s)
  else let s := if is_current None s then s else _drop_pool_locked OtherCap s in
       (Some (made s), Pools (Some (made s)) mem (S (made s)) (killed s) (given s)).

Definition shutdown_render_pool (s : pools) : pools := if is_current None s then s else _drop_pool_locked ShutDown s.

(** [with _pool_lock: if _pool is pool: _drop_pool_locked()] *)
Definition drop_own (p : option nat) (s : pools) : pools :=
  if is_current p s then _drop_pool_locked (FailedRender p) s else s.

(** What other threads may do between two steps of this one. *)
Inductive other : Type := OGet (mem : Z) | ODrop (p : option nat) | OShutdown.
Definition other_step (s : pools) (o : other) : pools :=
  match o with
  | OGet mem => (get_pool_locked mem s).2
  | ODrop p => drop_own p s
  | OShutdown => shutdown_render_pool s
  end.
Definition others (os : list other) (s : pools) : pools := foldl other_step s os.

(** [_get_pool]: without the lock it reads [_pool], then [_pool_mem], then [_pool]
    once more to return it, so the others may act before the second and the third
    read (or before it takes the lock). A drop or a change of the pool writes both
    variables; half of one shows no pool or no cap, and a reader then goes on to the
    lock or to the third read, where it is over. *)
Definition _get_pool (mem : Z) (second third : list other) (s : pools) : option nat * pools :=
  if negb (is_current None s) then
    let s := others second s in
    let fast := _pool_mem s =? mem in
    let s := others third s in
    if fast then (_pool s, s) else get_pool_locked mem s
  else get_pool_locked mem (others second s).

(** One attempt: what the others do inside [_get_pool], then before the submission,
    what submitting and waiting answer, and what the others do before the handler. *)
Record round {A} : Type := Round {
  second : list other; third : list other; before : list other;
  submitted : option exc; answered : result exc A; meanwhile : list other }.
Arguments round : clear implicits.
Arguments Round {A} _ _ _ _ _ _.

(** How an attempt ends: [None] is [continue]. *)
Definition handle {A} (p : option nat) (mem timeout : Z) (r : result exc A) (s : pools) : option (result exc A) * pools :=
  match r with
  | Ok a => (Some (Ok a), s)
  | Raise e =>
      match e with
      | BrokenProcessPool => (Some (Raise (RenderBudgetExceeded "child_died" mem)), drop_own p s)
      | CancelledError =>
          if is_current p s then (Some (Raise (RenderBudgetExceeded "cancelled" 0)), s) else (None, s)
      | RuntimeError => if is_current p s then (Some (Raise RuntimeError), s) else (None, s)
      | TimeoutError => (Some (Raise (RenderBudgetExceeded "timeout" timeout)), drop_own p s)
      | MemoryError => (Some (Raise (RenderBudgetExceeded "memory_exceeded" mem)), drop_own p s)
      | e => (Some (Raise e), s)
      end
  end.

(** Under the lock: [_check_pool_current], then the submission, to [None] too. *)
Definition submission {A} (p : option nat) (r : round A) (s : pools) : result exc A :=
  if negb (is_current p s) then Raise RuntimeError
  else match p with
       | None => Raise AttributeError
       | Some _ => match submitted r with Some e => Raise e | None => answered r end
       end.

Definition attempt_once {A} (mem timeout : Z) (r : round A) (s : pools) : option (result exc A) * pools :=
  let '(p, s) := _get_pool mem (second r) (third r) s in
  let s := Pools (_pool s) (_pool_mem s) (made s) (killed s) (p :: given s) in
  let s := others (before r) s in
  let outcome := submission p r s in
  handle p mem timeout outcome (others (meanwhile r) s).

(** The three attempts, each from its own round; running off the end of the
    [for] returns Python's [None]. *)
Fixpoint attempts {A} (mem timeout : Z) (rounds : list (round A)) (s : pools) : option (result exc A) * pools :=
  match rounds with
  | [] => (None, s)
  | r :: rounds =>
      match attempt_once mem timeout r s with
      | (Some a, s) => (Some a, s)
      | (None, s) => attempts mem timeout rounds s
      end
  end.

Definition _submit_budgeted {A} (mem timeout : Z) (r1 r2 r3 : round A) (s : pools) : option (result exc A) * pools :=
  attempts mem timeout [r1; r2; r3] s.

(** ** The entry points: [None] is Python's [None]. *)
Record knobs : Type := Knobs { k_input : option string; k_output : option string; k_mem : option string; timeout : Z }.

Definition _run_tree_job (k : knobs) (tree : value) (r1 r2 r3 : round value) (s : pools) :
    option (result exc value) * pools :=
  let max_in := _knob (k_input k) _DEFAULT_INPUT in
  if negb (max_in =? 0) && (max_in * 100 <? total (_iter_string_leaves true tree))
  then (Some (Raise (RenderBudgetExceeded "input_too_large" (max_in * 100))), s)
  else _submit_budgeted (_knob (k_mem k) _DEFAULT_MEM) (timeout k) r1 r2 r3 s.

Definition render_bounded (k : knobs) (which source : string) (r1 r2 r3 : round string) (s : pools) :
    option (result exc string) * pools :=
  if negb (Text.mem which ["body"; "file"]%string) then (Some (Raise ValueError), s)
  else
    let max_in := _knob (k_input k) _DEFAULT_INPUT in
    if negb (max_in =? 0) && (max_in <? bytes source)
    then (Some (Raise (RenderBudgetExceeded "input_too_large" max_in)), s)
    else _submit_budgeted (_knob (k_mem k) _DEFAULT_MEM) (timeout k) r1 r2 r3 s.

(** ** What a rendered document is *)
Notation leaves := (_iter_string_leaves false).

(** A tree without its strings; the keys of its dicts stay. *)
Fixpoint shape (tree : value) : value :=
  match tree with
  | VStr _ => VStr ""
  | VDict d => VDict ((fix values d := match d with [] => [] | (k, v) :: d => (k, shape v) :: values d end) d)
  | VList l => VList ((fix elements l := match l with [] => [] | v :: l => shape v :: elements l end) l)
  | _ => tree
  end.

(** The budget that is left after these outputs, [None] for a refusal.  A budget
    of 0 is no budget, at the start and also when it has been used up exactly. *)
Fixpoint spend (b : Z) (outs : list string) : option Z :=
  match outs with
  | [] => Some b
  | out :: outs =>
      if b =? 0 then spend 0 outs
      else if b - bytes out <? 0 then None else spend (b - bytes out) outs
  end.

Lemma bytes_nonneg s : 0 ≤ bytes s.
Proof. unfold bytes. lia. Qed.

Lemma append_length (a b : string) : String.length (a +:+ b) = (String.length a + String.length b)%nat.
Proof. induction a as [|c a IH]; [done|]. change (S (String.length (a +:+ b)) = S (String.length a + String.length b)). by rewrite IH. Qed.

Lemma total_app l1 l2 : total (l1 ++ l2) = total l1 + total l2.
Proof. unfold total. induction l1; simpl; lia. Qed.

Lemma total_nonneg l : 0 ≤ total l.
Proof. unfold total. induction l as [|s l IH]; simpl; [lia|]. pose proof (bytes_nonneg s). lia. Qed.

Lemma spend_app b l1 l2 : spend b (l1 ++ l2) = spend b l1 ≫= λ b', spend b' l2.
Proof.
  revert b. induction l1 as [|x l1 IH]; intros b; simpl; [done|].
  destruct (b =? 0); [apply IH|]. destruct (b - bytes x <? 0); [done|apply IH].
Qed.

Lemma spend_fits b outs : total outs ≤ b → ∃ b', spend b outs = Some b'.
Proof.
  revert b. induction outs as [|x l IH]; intros b; simpl; [eauto|]. intros H.
  pose proof (bytes_nonneg x). pose proof (total_nonneg l). unfold total in *.
  destruct (Z.eqb_spec b 0) as [->|]; [apply IH; lia|]. destruct (Z.ltb_spec (b - bytes x) 0); [lia|]. apply IH. lia.
Qed.

Lemma spend_bound b outs b' :
  0 < b → spend b outs = Some b' → total outs ≤ b ∨ ∃ l1 l2, outs = l1 ++ l2 ∧ total l1 = b.
Proof.
  revert b. induction outs as [|x l IH]; intros b Hb; simpl; [by left; lia|].
  destruct (Z.eqb_spec b 0); [lia|]. destruct (Z.ltb_spec (b - bytes x) 0); [done|]. intros Hsp.
  destruct (decide (b - bytes x = 0)) as [He|He].
  - right. exists [x], l. split; [done|]. simpl. lia.
  - destruct (IH (b - bytes x)) as [Hl|(l1 & l2 & -> & Hl)]; [lia|done|left; unfold total in *; lia|].
    right. exists (x :: l1), l2. split; [done|]. unfold total in *. simpl. lia.
Qed.

Section tree.
Context (J : jinja) (max_out : Z).
Notation render := (_child_render J max_out).
Notation tree_job := (_child_render_tree J max_out).

Definition renders (src out : string) : Prop := render src = Ok out.

(** What a job does to the budget: it returns a tree of the same shape whose
    strings are the rendered ones and were paid for, or a leaf failed, or some
    leaf could not be paid for. *)
Definition paid (src : list string) (b : Z) (r : result exc (list string)) (b' : Z) : Prop :=
  match r with
  | Ok outs => Forall2 renders src outs ∧ spend b outs = Some b'
  | Raise e =>
      (∃ s, s ∈ src ∧ render s = Raise e) ∨
      (e = RenderBudgetExceeded "output_too_large" max_out ∧
       ∃ l1 l2 outs, src = l1 ++ l2 ∧ Forall2 renders l1 outs ∧ spend b outs = None)
  end.

Definition outcome {A} (f : A → list string) (r : result exc A) : result exc (list string) :=
  match r with Ok a => Ok (f a) | Raise e => Raise e end.

Lemma paid_raise_app src1 src2 b e b' : paid src1 b (Raise e) b' → paid (src1 ++ src2) b (Raise e) b'.
Proof.
  intros [(s & Hs & Hr)|(He & l1 & l2 & outs & -> & Hf)].
  - left. exists s. set_solver.
  - right. split; [done|]. exists l1, (l2 ++ src2), outs. by rewrite app_assoc.
Qed.

Lemma paid_cons src1 src2 b outs1 b1 r b' :
  paid src1 b (Ok outs1) b1 → paid src2 b1 r b' → paid (src1 ++ src2) b (outcome (app outs1) r) b'.
Proof.
  intros [Hf1 Hs1] H2. destruct r as [outs2|e]; simpl in *.
  - destruct H2 as [Hf2 Hs2]. split; [by apply Forall2_app|]. by rewrite spend_app, Hs1.
  - destruct H2 as [(s & Hs & Hr)|(He & l1 & l2 & outs & -> & Hf & Hn)].
    + left. exists s. set_solver.
    + right. split; [done|]. exists (src1 ++ l1), l2, (outs1 ++ outs). rewrite app_assoc. split_and!; [done|by apply Forall2_app|].
      by rewrite spend_app, Hs1.
Qed.

(** The two inner loops by name. *)
Fixpoint elements_job (l : list value) : M Z exc (list value) :=
  match l with [] => mret [] | v :: l => v ← tree_job v; l ← elements_job l; mret (v :: l) end.
Fixpoint values_job (d : list (value * value)) : M Z exc (list (value * value)) :=
  match d with [] => mret [] | (k, v) :: d => v ← tree_job v; d ← values_job d; mret ((k, v) :: d) end.

Definition list_leaves (l : list value) : list string := leaves (VList l).
Definition dict_leaves (d : list (value * value)) : list string := leaves (VDict d).

(** A computation that pays for the leaves of what it returns. *)
Definition pays {A} (src : list string) (f : A → list string) (m : M Z exc A) (same : A → Prop) : Prop :=
  ∀ b, wp m (λ r b', paid src b (outcome f r) b' ∧ ∀ a, r = Ok a → same a) b.

Lemma pays_bind {A B D} src1 src2 (f : A → list string) (g : B → list string) (h : A → B → D) (o : D → list string)
    (m : M Z exc A) (k : M Z exc B) same1 same2 (same : D → Prop) :
  pays src1 f m same1 → pays src2 g k same2 →
  (∀ x y, o (h x y) = f x ++ g y) → (∀ x y, same1 x → same2 y → same (h x y)) →
  pays (src1 ++ src2) o (x ← m; y ← k; mret (h x y)) same.
Proof.
  intros Hm Hk Ho Hs b. apply wp_bind. eapply wp_mono; [apply Hm|]. intros [x|e] b1 [H1 S1].
  - apply wp_bind. eapply wp_mono; [apply Hk|]. intros [y|e] b2 [H2 S2].
    + apply wp_ret. split; [|intros ? [= <-]; auto]. simpl. rewrite Ho. by apply (paid_cons _ _ _ _ _ _ _ H1 H2).
    + split; [|done]. by apply (paid_cons _ _ _ _ _ _ _ H1 H2).
  - split; [|done]. by apply paid_raise_app.
Qed.

Lemma pays_map {A B} src (f : A → list string) (g : B → list string) (h : A → B) (m : M Z exc A) (same : A → Prop) same' :
  pays src f m same → (∀ a, g (h a) = f a) → (∀ a, same a → same' (h a)) →
  pays src g (a ← m; mret (h a)) same'.
Proof.
  intros Hm Hg Hs b. apply wp_bind. eapply wp_mono; [apply Hm|]. intros [a|e] b1 [H1 S1]; [|done].
  apply wp_ret. simpl in *. rewrite Hg. split; [done|]. intros ? [= <-]. auto.
Qed.

Lemma render_leaf_pays s : pays [s] leaves (render_leaf J max_out s) (λ t, shape t = VStr "").
Proof.
  intros b. unfold render_leaf. apply wp_bind, wp_lift. destruct (render s) as [out|e] eqn:Hr.
  2:{ split; [|done]. left. exists s. split; [left|done]. }
  assert (Forall2 renders [s] [out]) as Hf by (by repeat constructor).
  apply wp_bind, wp_get. destruct (b =? 0) eqn:Hb.
  { apply wp_ret. split; [|by intros ? [= <-]]. split; [done|]. simpl. rewrite Hb. f_equal. lia. }
  apply wp_bind, wp_modify, wp_bind, wp_get. destruct (b - bytes out <? 0) eqn:Hl.
  - apply wp_throw. split; [|done]. right. split; [done|]. exists [s], [], [out]. split_and!; [done..|].
    simpl. by rewrite Hb, Hl.
  - apply wp_ret. split; [|by intros ? [= <-]]. split; [done|]. simpl. by rewrite Hb, Hl.
Qed.

Lemma pure_pays t : leaves t = [] → pays [] leaves (mret t) (λ t', shape t' = shape t).
Proof. intros Ht b. apply wp_ret. simpl. rewrite Ht. split; [split; [constructor|done]|]. by intros ? [= <-]. Qed.

Lemma elements_pays l :
  Forall (λ t, pays (leaves t) leaves (tree_job t) (λ t', shape t' = shape t)) l →
  pays (list_leaves l) list_leaves (elements_job l) (λ l', shape (VList l') = shape (VList l)).
Proof.
  induction 1 as [|t l Ht _ IH].
  { intros b. apply wp_ret. split; [by split; [constructor|]|]. by intros ? [= <-]. }
  apply (pays_bind _ _ _ _ _ _ _ _ _ _ _ Ht IH); [done|].
  intros t' l' H1 [= H2]. simpl. by rewrite H1, H2.
Qed.

Lemma values_pays d :
  Forall (λ kv, pays (leaves kv.2) leaves (tree_job kv.2) (λ t', shape t' = shape kv.2)) d →
  pays (dict_leaves d) dict_leaves (values_job d) (λ d', shape (VDict d') = shape (VDict d)).
Proof.
  induction 1 as [|[k t] d Ht _ IH].
  { intros b. apply wp_ret. split; [by split; [constructor|]|]. by intros ? [= <-]. }
  apply (pays_bind _ _ _ _ (λ t' d', (k, t') :: d') _ _ _ _ _ _ Ht IH); [done|].
  intros t' l' H1 [= H2]. simpl in *. by rewrite H1, H2.
Qed.

Lemma tree_pays t : pays (leaves t) leaves (tree_job t) (λ t', shape t' = shape t).
Proof.
  induction t as [|b|z|s|l IH|d IH|ty b] using value_rect'; try by apply pure_pays.
  - apply render_leaf_pays.
  - apply (pays_map _ list_leaves leaves VList (elements_job l) _ _ (elements_pays l IH)); done.
  - assert (pays (dict_leaves d) dict_leaves (values_job d) (λ d', shape (VDict d') = shape (VDict d))) as Hd.
    { apply values_pays. eapply Forall_impl; [exact IH|]. by intros [k v] [_ Hv]. }
    apply (pays_map _ dict_leaves leaves VDict (values_job d) _ _ Hd); done.
Qed.

(** A rendered text never exceeds a cap. *)
Lemma accumulate_bound n chunks text : 0 ≤ n ≤ max_out → accumulate max_out n chunks = Ok text → n + bytes text ≤ max_out.
Proof.
  revert n text. induction chunks as [|c l IH]; intros n text Hn; simpl.
  { intros [= <-]. unfold bytes. simpl. lia. }
  pose proof (bytes_nonneg c). destruct (Z.ltb_spec max_out (n + bytes c)); [done|].
  intros (rest & Hrest & [= <-])%bindR_ok. apply IH in Hrest; [|lia].
  unfold bytes in *. rewrite append_length. lia.
Qed.

Lemma render_bound src out : 0 < max_out → renders src out → bytes out ≤ max_out.
Proof.
  unfold renders, _child_render. intros Hm. destruct (from_string J src); [done|].
  destruct (generate J src) as [chunks err]. destruct (Z.eqb_spec max_out 0); [lia|].
  destruct (accumulate max_out 0 chunks) as [text|e] eqn:Ha; [|done]. destruct err; [done|]. intros [= <-].
  apply accumulate_bound in Ha; lia.
Qed.
End tree.

(** ** The document budget *)

(** What a job over [tree] returns under the cap: the same document with its
    strings rendered, each within the cap and together within it, unless some
    first ones used it up exactly; and no document that fits is refused. *)
Definition within (J : jinja) (cap : Z) (tree : value) (r : result exc value) : Prop :=
  (∀ tree', r = Ok tree' →
    shape tree' = shape tree ∧ Forall2 (renders J cap) (leaves tree) (leaves tree') ∧
    Forall (λ s, bytes s ≤ cap) (leaves tree') ∧
    (total (leaves tree') ≤ cap ∨ ∃ l1 l2, leaves tree' = l1 ++ l2 ∧ total l1 = cap)) ∧
  (∀ outs, Forall2 (renders J cap) (leaves tree) outs → total outs ≤ cap →
    ∃ tree', r = Ok tree' ∧ leaves tree' = outs).

Lemma renders_fun J cap l outs1 outs2 : Forall2 (renders J cap) l outs1 → Forall2 (renders J cap) l outs2 → outs1 = outs2.
Proof.
  unfold renders. intros H. revert outs2. induction H as [|x y l outs Hx _ IH]; inversion 1; subst; [done|].
  f_equal; [congruence|auto].
Qed.

(** C38: Rendering a document keeps its keys and structure and replaces each
    string by its own rendering; the texts stay within the cap one by one and
    together, except behind a prefix that uses it up to the byte; and a document
    whose strings render and fit is never refused. *)
Theorem document_budget (J : jinja) (cap : Z) (tree : value) (Hcap : 0 < cap) :
  wp (_child_render_tree J cap tree) (λ r _, within J cap tree r) cap.
Proof.
  eapply wp_mono; [apply tree_pays|]. intros r b' [Hp Hs]. split.
  - intros tree' ->. destruct Hp as [Hf Hsp]. split_and!; [auto|done| |by eapply spend_bound].
    clear Hs Hsp. induction Hf; constructor; [by eapply render_bound|done].
  - intros outs Hf Ht. destruct r as [tree'|e]; simpl in Hp.
    + exists tree'. split; [done|]. destruct Hp as [Hf' _]. by eapply renders_fun.
    + exfalso. destruct Hp as [(s & Hin & He)|(_ & l1 & l2 & outs1 & Hl & Hf1 & Hn)].
      * apply list_elem_of_lookup in Hin as [i Hi]. destruct (Forall2_lookup_l _ _ _ _ _ Hf Hi) as (o & _ & Ho).
        unfold renders in Ho. congruence.
      * rewrite Hl in Hf. apply Forall2_app_inv_l in Hf as (o1 & o2 & Ho1 & _ & ->).
        rewrite (renders_fun _ _ _ _ _ Hf1 Ho1) in Hn. rewrite total_app in Ht. pose proof (total_nonneg o2).
        destruct (spend_fits cap o1) as [? Hsp]; [lia|congruence].
Qed.

(** ** The pool *)

(** Every pool that was made is the current one or was killed, once, and for the
    failure of a render in that very pool, when for one. *)
Definition pools_ok (s : pools) : Prop :=
  (killed s).*1 ++ option_list (_pool s) ≡ₚ seq 0 (made s) ∧
  Forall (λ k, ∀ p, k.2 = FailedRender p → p = Some k.1) (killed s).

Lemma drop_ok why s : pools_ok s → (∀ p, why = FailedRender p → _pool s = None ∨ p = _pool s) →
  pools_ok (_drop_pool_locked why s).
Proof.
  intros [Hp Hf] Hw. unfold pools_ok, _drop_pool_locked. cbn [_pool killed made option_list]. rewrite fmap_app, app_nil_r. split.
  - by destruct (_pool s).
  - apply Forall_app. split; [done|]. destruct (_pool s) as [q|]; [|done]. constructor; [|done].
    intros p Hq. by destruct (Hw p Hq).
Qed.

Lemma make_ok s mem : pools_ok s → _pool s = None → pools_ok (Pools (Some (made s)) mem (S (made s)) (killed s) (given s)).
Proof.
  intros [H Hf] Hn. split; [|exact Hf]. rewrite Hn, app_nil_r in H. cbn [made _pool killed option_list]. by rewrite seq_S, H.
Qed.

Lemma get_locked_ok mem s : pools_ok s →
  pools_ok (get_pool_locked mem s).2 ∧ (∃ p, (get_pool_locked mem s).1 = Some p) ∧
  _pool (get_pool_locked mem s).2 = (get_pool_locked mem s).1 ∧ given (get_pool_locked mem s).2 = given s.
Proof.
  intros H. unfold get_pool_locked, is_current. destruct (_pool s) as [p|] eqn:Hp.
  - rewrite bool_decide_eq_false_2 by done. cbn [negb andb]. destruct (_pool_mem s =? mem); [split_and!; eauto|].
    cbn [fst snd]. split_and!; [|by eexists|done..]. apply (make_ok (_drop_pool_locked OtherCap s)); [by apply drop_ok|done].
  - rewrite bool_decide_eq_true_2 by done. cbn [negb andb fst snd]. split_and!; [|by eexists|done..]. by apply make_ok.
Qed.

Lemma drop_own_ok p s : pools_ok s → pools_ok (drop_own p s).
Proof.
  intros H. unfold drop_own. destruct (is_current p s) eqn:Hc; [|done]. apply drop_ok; [done|]. intros q [= <-].
  right. symmetry. by apply bool_decide_eq_true in Hc.
Qed.

Lemma others_ok os s : pools_ok s → pools_ok (others os s) ∧ given (others os s) = given s.
Proof.
  unfold others. revert s. induction os as [|o os IH]; intros s H; [done|]. cbn [foldl].
  assert (pools_ok (other_step s o) ∧ given (other_step s o) = given s) as [H1 <-]; [|by apply IH].
  destruct o as [mem|p|]; cbn [other_step].
  - by destruct (get_locked_ok mem s H) as (? & _ & _ & ?).
  - split; [by apply drop_own_ok|]. unfold drop_own. by destruct (is_current p s).
  - unfold shutdown_render_pool. destruct (is_current None s); [done|]. split; [by apply drop_ok|done].
Qed.

(** What [_get_pool] returns is current when it is read, and nothing only when
    another thread came between its reads. *)
Lemma get_pool_ok mem second third s : pools_ok s →
  pools_ok (_get_pool mem second third s).2 ∧
  _pool (_get_pool mem second third s).2 = (_get_pool mem second third s).1 ∧
  given (_get_pool mem second third s).2 = given s ∧
  ((_get_pool mem second third s).1 = None → second ++ third ≠ []).
Proof.
  intros H. unfold _get_pool. destruct (others_ok second s H) as [H2 G2]. destruct (others_ok third _ H2) as [H3 G3].
  destruct (is_current None s) eqn:Hn; cbn [negb].
  - destruct (get_locked_ok mem _ H2) as (? & (p & Hp) & ? & G). rewrite Hp. split_and!; [done|congruence|congruence|done].
  - destruct (_pool_mem (others second s) =? mem); cbn [fst snd].
    + split_and!; [done|done|congruence|]. intros Hnone Hno. apply app_eq_nil in Hno as [-> ->].
      apply bool_decide_eq_false in Hn. done.
    + destruct (get_locked_ok mem _ H3) as (? & (p & Hp) & ? & G). rewrite Hp. split_and!; [done|congruence|congruence|done].
Qed.

Section pool.
Context {A : Type} (mem timeout : Z).
Implicit Types (r : round A) (s : pools).

(** The executor raised [e], on the submission or while waiting. *)
Definition raised r (e : exc) : Prop := submitted r = Some e ∨ submitted r = None ∧ answered r = Raise e.

(** Another thread came in before the submission was over. *)
Definition raced r : Prop := second r ++ third r ++ before r ≠ [].

(** What a call may end with, by what happened in its last round. *)
Definition from_round (o : result exc A) r : Prop :=
  match o with
  | Ok a => submitted r = None ∧ answered r = Ok a
  | Raise (RenderBudgetExceeded code cap as e) =>
      (code = "child_died"%string ∧ cap = mem ∧ raised r BrokenProcessPool) ∨
      (code = "timeout"%string ∧ cap = timeout ∧ raised r TimeoutError) ∨
      (code = "memory_exceeded"%string ∧ cap = mem ∧ raised r MemoryError) ∨
      (code = "cancelled"%string ∧ cap = 0 ∧ raised r CancelledError) ∨ raised r e
  | Raise (BrokenProcessPool | TimeoutError | MemoryError | CancelledError) => False
  | Raise (RuntimeError as e) => raised r e ∨ raced r
  | Raise (AttributeError as e) => raised r e ∨ second r ++ third r ≠ []
  | Raise e => raised r e
  end.

(** A refusal for a failed executor, unless it is the child's own exception, left the
    pool of the attempt killed: no later render meets its child. *)
Definition recycled (o : result exc A) r (s : pools) : Prop :=
  match o with
  | Raise (RenderBudgetExceeded code _ as e) =>
      code = "cancelled"%string ∨ raised r e ∨ ∃ p, head (given s) = Some (Some p) ∧ p ∈ (killed s).*1
  | _ => True
  end.

(** The attempt was lost: it was cancelled, or found or left its pool replaced. *)
Definition lost r : Prop :=
  raced r ∨ meanwhile r ≠ [] ∧ (raised r CancelledError ∨ raised r RuntimeError).

Lemma drop_own_killed p s : pools_ok s → (p < made s)%nat → p ∈ (killed (drop_own (Some p) s)).*1.
Proof.
  intros [Hp _] Hlt. assert (p ∈ (killed s).*1 ++ option_list (_pool s)) as Hin by (rewrite Hp; apply elem_of_seq; lia).
  unfold drop_own, is_current. case_bool_decide as Hc.
  - unfold _drop_pool_locked. cbn [killed]. rewrite fmap_app, Hc. apply elem_of_app. right. left.
  - apply elem_of_app in Hin as [?|Hin]; [done|]. destruct (_pool s) as [q|]; [|by apply elem_of_nil in Hin].
    apply list_elem_of_singleton in Hin as ->. done.
Qed.

Lemma others_made os s : (made s ≤ made (others os s))%nat.
Proof.
  unfold others. revert s. induction os as [|o os IH]; intros s; [done|]. cbn [foldl]. etrans; [|apply IH].
  destruct o; cbn [other_step]; unfold get_pool_locked, drop_own, shutdown_render_pool; repeat case_match; cbn; try lia.
  all: repeat case_match; cbn; lia.
Qed.

Lemma current_made s p : pools_ok s → _pool s = Some p → (p < made s)%nat.
Proof.
  intros [Hp _] Hc. assert (p ∈ seq 0 (made s)) as H%elem_of_seq; [|lia]. rewrite <- Hp, Hc. apply elem_of_app. right. left.
Qed.

(** The submission and the handler, from the pool the call was given. *)
Lemma handled_ok p r s1 s2 :
  pools_ok s2 → head (given s2) = Some p → (∀ q, p = Some q → (q < made s2)%nat) →
  (p = None → second r ++ third r ≠ []) → (is_current p s1 = false → raced r) →
  (is_current p s1 = true → is_current p s2 = false → meanwhile r ≠ []) →
  let '(o, s) := handle p mem timeout (submission p r s1) s2 in
  pools_ok s ∧ match o with Some o => from_round o r ∧ recycled o r s | None => lost r end.
Proof.
  intros Hs2 Hg Hmade Hnone Hrace Hmw. unfold submission. destruct (is_current p s1) eqn:Hc; cbn [negb].
  2: { cbn [handle]. destruct (is_current p s2); (split; [done|]); [split; [right; auto|done]|left; auto]. }
  destruct p as [q|]; [|split; [done|]; split; [by right; auto|done]].
  assert (∀ e, raised r e →
    let '(o, s) := handle (A := A) (Some q) mem timeout (Raise e) s2 in
    pools_ok s ∧ match o with Some o => from_round o r ∧ recycled o r s | None => lost r end) as Hraise.
  { intros e He. assert (∃ q', head (given (drop_own (Some q) s2)) = Some (Some q') ∧ q' ∈ (killed (drop_own (Some q) s2)).*1) as Hk.
    { exists q. split; [|by apply drop_own_killed; auto]. unfold drop_own. by destruct (is_current (Some q) s2). }
    destruct e; cbn [handle].
    3,4: destruct (is_current (Some q) s2) eqn:Hc2; (split; [done|]); [split; cbn; auto 10|right; split; auto].
    all: split; [by try apply drop_own_ok|]; split; cbn; auto 10. }
  destruct (submitted r) as [e|] eqn:Hsub; [apply Hraise; by left|].
  destruct (answered r) as [a|e] eqn:Ha; [|apply Hraise; by right]. by split_and!.
Qed.

Lemma attempt_once_ok r s :
  pools_ok s → let '(o, s') := attempt_once mem timeout r s in
  pools_ok s' ∧ match o with Some o => from_round o r ∧ recycled o r s' | None => lost r end.
Proof.
  intros H. unfold attempt_once. destruct (get_pool_ok mem (second r) (third r) s H) as (H1 & Hcur & _ & Hnone).
  destruct (_get_pool mem (second r) (third r) s) as [p s1]. cbn [fst snd] in *.
  set (s1' := Pools (_pool s1) (_pool_mem s1) (made s1) (killed s1) (p :: given s1)).
  assert (pools_ok s1') as H1' by exact H1.
  destruct (others_ok (before r) s1' H1') as [H2 G2]. destruct (others_ok (meanwhile r) _ H2) as [H3 G3].
  apply handled_ok; try done.
  - by rewrite G3, G2.
  - intros q ->. pose proof (current_made s1' q H1' Hcur). pose proof (others_made (before r) s1').
    pose proof (others_made (meanwhile r) (others (before r) s1')). lia.
  - intros Hc Hno. apply app_eq_nil in Hno as [_ [_ Hb]%app_eq_nil]. rewrite Hb in Hc. cbn in Hc.
    by apply bool_decide_eq_false in Hc.
  - intros Hc Hc2 Hno. rewrite Hno in Hc2. cbn in Hc2. congruence.
Qed.
End pool.

(** C39: Whatever other threads do to the shared pool, between any two of its accesses
    to it, a call ends within its three attempts: with the text the child gave in one
    of them, or a refusal of its own caps that the executor's failure in that attempt
    accounts for and that left its pool killed, never with that failure itself; or with
    another exception of the child or the executor; or, when another thread came in
    between, as a [RuntimeError], as an [AttributeError] (the first read of [_get_pool]
    outlived the pool, [pool_read_twice]) or, when all three attempts were lost so, as
    Python's [None] ([none_returned]). Every pool that was ever made is current or was
    killed, none twice, and none for the failure of a render in another pool. *)
Theorem render_call_ends {A} (mem timeout : Z) (r1 r2 r3 : round A) (s : pools) (Hs : pools_ok s) :
  let '(o, s') := _submit_budgeted mem timeout r1 r2 r3 s in
  pools_ok s' ∧
  match o with
  | Some o => Exists (λ r, from_round mem timeout o r ∧ recycled o r s') [r1; r2; r3]
  | None => Forall lost [r1; r2; r3]
  end.
Proof.
  unfold _submit_budgeted. generalize [r1; r2; r3] as l. intros l. revert s Hs.
  induction l as [|r l IH]; intros s Hs; simpl; [by split; [|constructor]|].
  pose proof (attempt_once_ok mem timeout r s Hs) as H1.
  destruct (attempt_once mem timeout r s) as [[o|] s1]; destruct H1 as [H1 H2]; [by split; [|left]|].
  specialize (IH s1 H1). destruct (attempts mem timeout l s1) as [[o|] s2]; destruct IH; (split; [done|]); by constructor.
Qed.

(** ** Concrete renders *)
Module Demo.
Local Open Scope string_scope.

(** A template without expressions renders as itself, in one chunk. *)
Definition plain : jinja := Jinja (λ _, None) (λ s, ([s], None)) (λ _, true).
Definition doc (l : list string) : value := VDict [(VStr "services", VList (VStr <$> l))].

Example doc_fits : (_child_render_tree plain 9 (doc ["abcd"; "efgh"]) 9).1 = Ok (doc ["abcd"; "efgh"]).
Proof. reflexivity. Qed.
Example doc_refused :
  (_child_render_tree plain 7 (doc ["abcd"; "efgh"]) 7).1 = Raise (RenderBudgetExceeded "output_too_large" 7).
Proof. reflexivity. Qed.

(** The first string uses the budget up, and the rest is not counted. *)
Example budget_exhausted :
  (_child_render_tree plain 4 (doc ["abcd"; "efgh"; "ijkl"]) 4).1 = Ok (doc ["abcd"; "efgh"; "ijkl"]).
Proof. reflexivity. Qed.

Definition idle : pools := Pools None (-1) 0 [] [].
Definition served (v : value) : round value := Round [] [] [] None (Ok v) [].
Definition wedged : round value := Round [] [] [] None (Raise TimeoutError) [].

Example pool_recycled :
  let '(o, s) := _submit_budgeted 256 5 wedged wedged wedged idle in
  o = Some (Raise (RenderBudgetExceeded "timeout" 5)) ∧ s = Pools None (-1) 1 [(0%nat, FailedRender (Some 0%nat))] [Some 0%nat] ∧
  _pool (_submit_budgeted 256 5 (served VNull) wedged wedged s).2 = Some 1%nat.
Proof. done. Qed.

(** Three renders in a row whose pool is dropped under them: the call returns
    [None], which its callers take for the rendered document. *)
Definition robbed : round value := Round [] [] [] None (Raise CancelledError) [OShutdown].
Example none_returned : (_submit_budgeted 256 5 robbed robbed robbed idle).1 = None.
Proof. reflexivity. Qed.

(** The pool is dropped between the reads of [_get_pool]: the submission to [None]
    raises an [AttributeError] that nothing catches. *)
Example pool_read_twice :
  (_submit_budgeted 256 5 (Round [] [ODrop (Some 0%nat)] [] None (Ok VNull) []) wedged wedged
    (Pools (Some 0%nat) 256 1 [] [])).1 = Some (Raise AttributeError).
Proof. reflexivity. Qed.

(** A pool that replaced the one that failed is left alone. *)
Example replacement_spared :
  let '(o, s) := _submit_budgeted 256 5 (Round [] [] [] None (Raise TimeoutError) [OShutdown; OGet 256]) wedged wedged idle in
  o = Some (Raise (RenderBudgetExceeded "timeout" 5)) ∧ _pool s = Some 1%nat ∧ killed s = [(0%nat, ShutDown)].
Proof. by vm_compute. Qed.

Lemma document_budget_witness :
  0 < 9 ∧ wp (_child_render_tree plain 9 (doc ["abcd"; "efgh"])) (λ r _, within plain 9 (doc ["abcd"; "efgh"]) r) 9.
Proof. split; [lia|]. apply (document_budget plain 9 (doc ["abcd"; "efgh"])). lia. Defined.

Lemma render_call_ends_witness :
  pools_ok idle ∧
  let '(o, s') := _submit_budgeted 256 5 robbed wedged wedged idle in
  pools_ok s' ∧
  match o with
  | Some o => Exists (λ r, from_round 256 5 o r ∧ recycled o r s') [robbed; wedged; wedged]
  | None => Forall lost [robbed; wedged; wedged]
  end.
Proof.
  assert (pools_ok idle) as H by (split; [reflexivity|constructor]).
  split; [exact H|]. exact (render_call_ends 256 5 robbed wedged wedged idle H).
Defined.
End Demo.
