(* ===== verification/InstanceContext.v ===== *)
(** [apps/utils/docker/compose.py], first half: what an instance's templates can
    read ([build_render_context]) and what is done to its compose before it is
    rendered ([_delete_unset_integration_env_keys],
    [_inject_instance_log_rotation]).

    [greffon_info] is a Python dict that these functions extend in place with
    [setdefault]; here it is passed and returned.  The environment of the process
    is an argument. *)
From Stdlib Require Import Ascii String.
From S2P Require Import Prelude PyValue GreffonInfo.
Import Text.
Local Open Scope string_scope.

(** A refusal the router turns into a 422, or any other exception by its class. *)
Inductive exc : Type := ConfigRenderError (detail : string) | Py (class : string).

Notation dict := (list (value * value)).

(** [d.setdefault(k, v)] *)
Definition setdefault (k : string) (v : value) (d : dict) : dict :=
  match dict_get k d with Some _ => d | None => dict_set k v d end.

(** [.get] or [.items] on anything but a dict. *)
Definition as_dict (v : value) : result exc dict :=
  match v with VDict d => mret d | _ => Raise (Py "AttributeError") end.

(** [for x in v], and [for x in v or []] *)
Definition iter (v : value) : result exc (list value) :=
  match v with
  | VList l => mret l
  | VDict d => mret d.*1
  | VStr s => mret ((λ c, VStr (String c "")) <$> list_ascii_of_string s)
  | _ => Raise (Py "TypeError")
  end.
Definition each (v : value) : result exc (list value) := if truthy v then iter v else mret [].

(** ** Integrations *)
Definition KNOWN_INTEGRATION_TYPES : list string := ["smtp"; "oidc"].

Definition _is_integration_set (v : value) : bool :=
  match v with VDict (_ :: _) => true | _ => false end.

Definition _compute_integrations_context (gi : dict) : result exc dict :=
  integrations ← as_dict (or_empty (get_or_null "integrations" gi));
  mret (foldl (λ gi t,
    let v := get_or_null t integrations in
    setdefault t (if _is_integration_set v then v else VDict []) gi) gi KNOWN_INTEGRATION_TYPES).

(** ** Configuration values *)

(** One destination of a configuration whose value is the dict [value]. *)
Definition config_entry (value : dict) (config : dict) (dest : PyValue.value) : result exc dict :=
  match dest with
  | VDict d =>
      match eq_str (get_or_null "type" d) "env", dict_get "key" d with
      | true, Some key =>
          if hashable key then mret (assoc_set key (default (VStr "") (dict_get "value" value)) config)
          else Raise (Py "TypeError")
      | _, _ => mret config
      end
  | _ => mret config
  end.

Definition config_of (config : dict) (configuration : value) : result exc dict :=
  c ← as_dict configuration;
  match get_or_null "value" c with
  | VDict value =>
      dests ← each (default (VList []) (dict_get "destinations" c));
      foldR (config_entry value) config dests
  | _ => mret config
  end.

Definition _compute_config_context (gi : dict) : result exc dict :=
  cs ← each (default (VList []) (dict_get "configurations" gi));
  config ← foldR config_of [] cs;
  mret (setdefault "config" (VDict config) gi).

(** ** The instance's own address *)

(** The variables of the process that are read: [GREFFER_PUBLIC_SCHEME],
    [GREFFER_PUBLIC_HOST] and [GREFFER_ADDRESS]. *)
Record environ : Type := Environ {
  public_scheme : option string; public_host : option string; address : option string }.

Section address.
(** What [urlsplit] of the Python in use thinks of the part of an authority
    between brackets. *)
Context (bracket_ok : string → bool).
Context (format_other : value → string).
Context (env : environ).

Fixpoint take_while (f : ascii → bool) (s : string) : string :=
  match s with
  | "" => ""
  | String c s => if f c then String c (take_while f s) else ""
  end.

(** The characters [urlsplit] drops. *)
Definition drop_unsafe (s : string) : string :=
  string_of_list_ascii (List.filter
    (λ c, let n := N_of_ascii c in negb ((n =? 9)%N || (n =? 10)%N || (n =? 13)%N)) (list_ascii_of_string s)).

(** The authority of a URL after its [http://] or [https://]. *)
Definition netloc (rest : string) : string :=
  take_while (λ c, negb (Ascii.eqb c "/"%char || Ascii.eqb c "?"%char || Ascii.eqb c "#"%char)) rest.

(** [_hostinfo]: the host as written, and the text of the port if any. *)
Definition hostinfo (n : string) : string * string :=
  let info := match rpartition "@" n with Some (_, i) => i | None => n end in
  match partition "[" info with
  | (_, Some bracketed) =>
      let '(h, rest) := partition "]" bracketed in
      (h, default "" (partition ":" (default "" rest)).2)
  | (_, None) => let '(h, p) := partition ":" info in (h, default "" p)
  end.

(** [.hostname]: lower case up to a zone. *)
Definition hostname (h : string) : string :=
  match partition "%" h with
  | (a, Some zone) => lower a +:+ "%" +:+ zone
  | (a, None) => lower a
  end.

(** [.port]: [None] is the [ValueError]. *)
Definition url_port (p : string) : option (option Z) :=
  if bool_decide (p = "") then Some None
  else if isdigit p then let n := int_of_digits p in if (n <=? 65535)%Z then Some (Some n) else None
  else None.

(** [urlparse] of a URL of the manager: its host and port, or [None] for
    anything the caller takes for malformed. *)
Definition manager_url (raw : value) : option (string * option Z) :=
  match raw with
  | VStr s =>
      let after p := if startswith p s then Some (String.substring (String.length p) (String.length s) s) else None in
      match (match after "https://" with Some r => Some r | None => after "http://" end) with
      | None => None
      | Some rest =>
          let n := netloc (drop_unsafe rest) in
          let open := has_char "[" n in
          let close := has_char "]" n in
          if negb (Bool.eqb open close) || (open && negb (bracket_ok n)) then None
          else let '(h, p) := hostinfo n in
               match url_port p with
               | None => None
               | Some port => if bool_decide (h = "") then None else Some (hostname h, port)
               end
      end
  | _ => None
  end.

Definition is_l4_port (p : dict) : bool := eq_str (get_or_null "exposure_tier" p) "l4".

(** [p.get('exposure_tier', 'http') != 'l4'] for a dict *)
Definition is_web_port (v : value) : bool := match v with VDict p => negb (is_l4_port p) | _ => false end.

Definition first_port (ports : list value) : dict :=
  match first_match is_web_port ports with
  | Some (VDict p) => p
  | _ => match ports with VDict p :: _ => p | _ => [] end
  end.

Definition l4_first (ports : list value) : option dict :=
  match first_match (λ v, match v with VDict p => is_l4_port p | _ => false end) ports with
  | Some (VDict p) => Some p
  | _ => None
  end.

(** Host, port and URL of the web entry point. *)
Definition web_address (p : dict) : value * value * value :=
  let raw := get_or_null "url" p in
  match manager_url raw with
  | Some (h, port) =>
      (VStr h, VStr (match port with Some n => if (n =? 0)%Z then "" else pretty n | None => "" end), raw)
  | None =>
      let ph := get_or_null "port_host" p in
      let port := if truthy ph then ph else VStr "" in
      let host := default "host.docker.internal" (public_host env) in
      let base := default "https" (public_scheme env) +:+ "://" +:+ host in
      (VStr host, port, VStr (if truthy port then base +:+ ":" +:+ py_str format_other port else base))
  end.

(** [a or b or c] of three variables. *)
Definition l4_public_host : string :=
  let nonempty o := match o with Some "" => None | o => o end in
  match nonempty (public_host env), nonempty (address env) with
  | Some h, _ | None, Some h => h
  | None, None => "host.docker.internal"
  end.

(** The four L4 variables: host, port, endpoint, protocol. *)
Definition l4_address (gi : dict) (ports : list value) : value * value * value * value :=
  match l4_first ports with
  | Some p =>
      if eq_str (get_or_null "l4_bind_host" gi) "127.0.0.1" then (VStr "", VStr "", VStr "", VStr "")
      else
        let ph := get_or_null "port_host" p in
        let port := py_str format_other (if truthy ph then ph else VStr "") in
        let h := l4_public_host in
        (VStr h, VStr port, VStr (if bool_decide (port = "") then h else h +:+ ":" +:+ port),
         default (VStr "tcp") (dict_get "protocol" p))
  | None => (VStr "", VStr "", VStr "", VStr "")
  end.

Definition _compute_instance_context (gi : dict) : result exc dict :=
  ports ← each (get_or_null "ports" gi);
  let '(host, port, url) := web_address (first_port ports) in
  let '(l4h, l4p, l4e, l4proto) := l4_address gi ports in
  mret (setdefault "instance_l4_proto" l4proto
       (setdefault "instance_l4_endpoint" l4e
       (setdefault "instance_l4_port" l4p
       (setdefault "instance_l4_host" l4h
       (setdefault "instance_url" url
       (setdefault "instance_port" port
       (setdefault "instance_host" host
       (setdefault "instance_id" (default (VStr "") (dict_get "id" gi)) gi)))))))).

Definition build_render_context (gi : dict) : result exc dict :=
  gi ← _compute_instance_context gi;
  gi ← _compute_integrations_context gi;
  _compute_config_context gi.
End address.

(** ** Environment keys of integrations nobody configured *)

Definition is_word (c : ascii) : bool := is_alpha c || is_digit c || Ascii.eqb c "_".

(** What must follow the type: [(?:\.\w|\[)]. *)
Definition accessed (s : string) : bool :=
  match s with
  | String "[" _ => true
  | String "." (String c _) => is_word c
  | _ => false
  end.

(** [re.search] of a type as a word that is accessed; [before] is whether the
    character before is part of a word. *)
Fixpoint mentions (t : string) (before : bool) (s : string) : bool :=
  match s with
  | "" => false
  | String c s' =>
      (negb before && startswith t s && accessed (String.substring (String.length t) (String.length s) s))
      || mentions t (is_word c) s'
  end.

Definition value_references_unset (unset : list string) (v : value) : bool :=
  match v with
  | VStr s => contains "{{" s && existsb (λ t, mentions t false s) unset
  | _ => false
  end.

(** [d.pop(key, None)] *)
Definition dict_pop (key : value) (d : dict) : dict := List.filter (λ kv, negb (key_eqb kv.1 key)) d.

(** The name of a [KEY=value] entry. *)
Definition entry_name (s : string) : string := strip (partition "=" s).1.

Definition drop_entries (key : value) (l : list value) : list value :=
  List.filter (λ e, negb (match e with VStr s => key_eqb (VStr (entry_name s)) key | _ => false end)) l.

(** Set the environment of a service whose environment has a given shape. *)
Definition change_env (on_dict : dict → dict) (on_list : list value → list value) (service : value) : value :=
  match service with
  | VDict s =>
      match get_or_null "environment" s with
      | VDict env => VDict (dict_set "environment" (VDict (on_dict env)) s)
      | VList env => VDict (dict_set "environment" (VList (on_list env)) s)
      | _ => VDict s
      end
  | v => v
  end.

Definition drop_key (key : value) (service : value) : result exc value :=
  match service with
  | VDict s =>
      match get_or_null "environment" s with
      | VDict _ => if hashable key then mret (change_env (dict_pop key) (drop_entries key) service)
                   else Raise (Py "TypeError")
      | _ => mret (change_env (dict_pop key) (drop_entries key) service)
      end
  | v => mret v
  end.

(** [services.get(name)] and what is done to it. *)
Definition at_service (name : string) (f : value → result exc value) (services : dict) : result exc dict :=
  mapR (λ kv, if eq_str kv.1 name then v ← f kv.2; mret (kv.1, v) else mret kv) services.

(** Pass 1, one destination.  Service names are strings, so another container
    names none. *)
Definition drop_destination (t : string) (services : dict) (destination : value) : result exc dict :=
  match destination with
  | VDict d =>
      if negb (eq_str (get_or_null "type" d) t) then mret services
      else
        let container := get_or_null "container" d in
        let key := get_or_null "key" d in
        if negb (truthy container) || negb (truthy key) then mret services
        else if negb (hashable container) then Raise (Py "TypeError")
        else match container with VStr c => at_service c (drop_key key) services | _ => mret services end
  | _ => mret services
  end.

Definition drop_configuration (t : string) (services : dict) (configuration : value) : result exc dict :=
  c ← as_dict configuration;
  dests ← each (default (VList []) (dict_get "destinations" c));
  foldR (drop_destination t) services dests.

Definition pass1 (unset : list string) (configurations : value) (services : dict) : result exc dict :=
  foldR (λ services t, cs ← each configurations; foldR (drop_configuration t) services cs) services unset.

(** Pass 2, the environment of each service. *)
Definition keep_entry (unset : list string) (e : value) : bool :=
  match e with
  | VStr s => match partition "=" s with
              | (_, Some v) => negb (value_references_unset unset (VStr v))
              | (_, None) => true
              end
  | _ => true
  end.
Definition pass2 (unset : list string) (services : dict) : dict :=
  map (λ kv, (kv.1, change_env (List.filter (λ kv, negb (value_references_unset unset kv.2)))
                               (List.filter (keep_entry unset)) kv.2)) services.

Definition unset_types (integrations : dict) : list string :=
  List.filter (λ t, negb (_is_integration_set (get_or_null t integrations))) KNOWN_INTEGRATION_TYPES.

(** [services] is [compose['services']], which the rebuild of the template made a
    dict. *)
Definition _delete_unset_integration_env_keys (gi : dict) (services : dict) : result exc dict :=
  integrations ← as_dict (or_empty (get_or_null "integrations" gi));
  match unset_types integrations with
  | [] => mret services
  | unset =>
      services ← pass1 unset (default (VList []) (dict_get "configurations" gi)) services;
      mret (pass2 unset services)
  end.

(** ** Log rotation *)
Definition default_logging (max_size max_file : string) : value :=
  VDict [(VStr "driver", VStr "json-file");
         (VStr "options", VDict [(VStr "max-size", VStr max_size); (VStr "max-file", VStr max_file)])].

(** The two variables of the process, when they are set. *)
Definition rotation (max_size max_file : option string) : value :=
  default_logging (default "10m" max_size)
    (match int_of_string (default "3" max_file) with Some n => pretty n | None => "3" end).

Definition _inject_instance_log_rotation (logging : value) (services : dict) : dict :=
  map (λ kv, match kv.2 with
             | VDict s => match dict_get "logging" s with
                          | Some _ => kv
                          | None => (kv.1, VDict (dict_set "logging" logging s))
                          end
             | _ => kv
             end) services.

Example mentions_split : mentions "smtp" false "{{ smtp.from_address.split('@')[0] }}" = true.
Proof. reflexivity. Qed.
Example mentions_bracket : mentions "smtp" false "{{ {'a': 1}[smtp['mode']] }}" = true.
Proof. reflexivity. Qed.
(** Jinja reads these as references too; the pattern does not. *)
Example mentions_spaced : mentions "smtp" false "{{ smtp .host }}" = false.
Proof. reflexivity. Qed.
Example statement_unseen : value_references_unset ["smtp"] (VStr "{% if smtp.host %}on{% endif %}") = false.
Proof. reflexivity. Qed.
Example mentions_other : mentions "smtp" false "{{ foo_smtp.bar }} smtp " = false.
Proof. reflexivity. Qed.

(** ** The two passes as one *)

(** What a destination of an unset type names: the service and the entry. *)
Definition names_entry (t : string) (destination : value) (name : string) (key : value) : bool :=
  match destination with
  | VDict d =>
      eq_str (get_or_null "type" d) t && eq_str (get_or_null "container" d) name && negb (String.eqb name "")
      && truthy (get_or_null "key" d) && key_eqb key (get_or_null "key" d)
  | _ => false
  end.

Definition destinations (configuration : value) : list value :=
  match configuration with
  | VDict c => match dict_get "destinations" c with Some (VList ds) => ds | _ => [] end
  | _ => []
  end.

Definition named (unset : list string) (cs : list value) (name : string) (key : value) : bool :=
  existsb (λ t, existsb (λ c, existsb (λ d, names_entry t d name key) (destinations c)) cs) unset.

(** The entries of each service that [dropped] does not name. *)
Definition scrub (dropped : string → value → bool) (services : dict) : dict :=
  map (λ kv, match kv.1 with
    | VStr n => (kv.1, change_env
        (List.filter (λ e, negb (dropped n e.1)))
        (List.filter (λ e, negb (match e with VStr s => dropped n (VStr (entry_name s)) | _ => false end))) kv.2)
    | _ => kv
    end) services.

(** The reference: one filter per environment. *)
Definition cleaned (unset : list string) (cs : list value) (services : dict) : dict :=
  map (λ kv,
    let dropped key := match kv.1 with VStr n => named unset cs n key | _ => false end in
    (kv.1, change_env
      (List.filter (λ e, negb (dropped e.1) && negb (value_references_unset unset e.2)))
      (List.filter (λ e, negb (match e with VStr s => dropped (VStr (entry_name s)) | _ => false end)
                         && keep_entry unset e)) kv.2)) services.

(** A request as the manager sends it. *)
Definition destination_ok (v : value) : Prop :=
  match v with
  | VDict d => hashable (get_or_null "container" d) = true ∧ hashable (get_or_null "key" d) = true
  | _ => True
  end.
Definition configuration_ok (v : value) : Prop :=
  ∃ c, v = VDict c ∧ (dict_get "destinations" c = None ∨ ∃ ds, dict_get "destinations" c = Some (VList ds))
       ∧ Forall destination_ok (destinations v).

Lemma filter_filter {A} (f g : A → bool) l :
  List.filter g (List.filter f l) = List.filter (λ x, f x && g x) l.
Proof.
  induction l as [|x l IH]; simpl; [done|]. destruct (f x); simpl; [|done]. destruct (g x); by rewrite IH.
Qed.

Lemma dict_set_set k v w d : dict_set k v (dict_set k w d) = dict_set k v d.
Proof.
  induction d as [|[j u] d IH]; simpl; [by rewrite String.eqb_refl|].
  destruct (eq_str j k) eqn:Hj; simpl; rewrite Hj; by rewrite ?IH.
Qed.

Lemma change_env_compose p q f g v :
  change_env p q (change_env f g v) = change_env (λ d, p (f d)) (λ l, q (g l)) v.
Proof.
  destruct v as [| | | | |s|]; try done. simpl.
  destruct (get_or_null "environment" s) as [| | | |l|d|] eqn:He; simpl; try by rewrite He.
  - rewrite get_or_null_set. f_equal. by apply dict_set_set.
  - rewrite get_or_null_set. f_equal. by apply dict_set_set.
Qed.

Lemma change_env_ext f g f' g' v :
  (∀ d, f d = f' d) → (∀ l, g l = g' l) → change_env f g v = change_env f' g' v.
Proof. intros Hf Hg. destruct v as [| | | | |s|]; simpl; try done. case_match; by rewrite ?Hf, ?Hg. Qed.

Lemma change_env_id f g v : (∀ d, f d = d) → (∀ l, g l = l) → change_env f g v = v.
Proof.
  intros Hf Hg. destruct v as [| | | | |s|]; simpl; try done.
  destruct (get_or_null "environment" s) eqn:He; try done; rewrite ?Hf, ?Hg; f_equal; apply dict_set_id;
    by apply get_or_null_some.
Qed.

Lemma filter_all {A} (f : A → bool) l : (∀ x, f x = true) → List.filter f l = l.
Proof. intros Hf. induction l as [|x l IH]; simpl; [done|]. by rewrite Hf, IH. Qed.

Lemma scrub_scrub m1 m2 services : scrub m2 (scrub m1 services) = scrub (λ n k, m1 n k || m2 n k) services.
Proof.
  unfold scrub. rewrite map_map. apply map_ext. intros [k v]. cbn [fst]. destruct k; try done. cbn [fst snd].
  rewrite change_env_compose. f_equal. apply change_env_ext; intros l; rewrite filter_filter; apply filter_ext.
  - intros e. by rewrite negb_orb.
  - intros []; try done. by rewrite negb_orb.
Qed.

Lemma scrub_none services : scrub (λ _ _, false) services = services.
Proof.
  unfold scrub. rewrite <- (map_id services) at 2. apply map_ext. intros [k v]. cbn [fst snd]. destruct k; try done.
  f_equal. apply change_env_id; intros l; apply filter_all; [done|]. by intros [].
Qed.

Lemma scrub_ext m1 m2 services : (∀ n k, m1 n k = m2 n k) → scrub m1 services = scrub m2 services.
Proof.
  intros H. unfold scrub. apply map_ext. intros [k v]. cbn [fst snd]. destruct k; try done. f_equal.
  apply change_env_ext; intros l; apply filter_ext; intros e; [by rewrite H|]. destruct e; by rewrite ?H.
Qed.

Lemma scrub_false m services : (∀ n k, m n k = false) → scrub m services = services.
Proof. intros H. rewrite <- (scrub_none services) at 2. by apply scrub_ext. Qed.

Lemma mapR_pure {E A B} (f : A → result E B) g l : (∀ x, f x = Ok (g x)) → mapR f l = Ok (map g l).
Proof. intros H. induction l as [|x l IH]; simpl; [done|]. rewrite H. simpl. by rewrite IH. Qed.

Lemma at_service_scrub c key services :
  hashable key = true →
  at_service c (drop_key key) services = Ok (scrub (λ n k, String.eqb n c && key_eqb k key) services).
Proof.
  intros Hk. unfold at_service, scrub. apply mapR_pure. intros [k v]. cbn [fst snd].
  assert (drop_key key v = Ok (change_env (dict_pop key) (drop_entries key) v)) as Hd.
  { unfold drop_key. destruct v as [| | | | |s|]; try done. rewrite Hk. by destruct (get_or_null "environment" s). }
  destruct (eq_str k c) eqn:He.
  - apply eq_str_true in He as ->. rewrite Hd, String.eqb_refl. simpl. do 2 f_equal.
  - destruct k as [| | |n| | |]; try done. simpl in He. rewrite He. simpl. do 2 f_equal. symmetry.
    apply change_env_id; intros l; apply filter_all; [done|]. by intros [].
Qed.

(** A loop whose every turn scrubs, scrubs what any turn does. *)
Lemma foldR_scrub {X} (f : dict → X → result exc dict) (m : X → string → value → bool) l :
  Forall (λ x, ∀ services, f services x = Ok (scrub (m x) services)) l →
  ∀ services, foldR f services l = Ok (scrub (λ n k, existsb (λ x, m x n k) l) services).
Proof.
  induction 1 as [|x l Hx _ IH]; intros services; simpl; [by rewrite scrub_none|].
  rewrite Hx. simpl. by rewrite IH, scrub_scrub.
Qed.

Lemma drop_destination_scrub t d :
  destination_ok d → ∀ services, drop_destination t services d = Ok (scrub (names_entry t d) services).
Proof.
  intros Hok services. destruct d as [| | | | |d|]; try by (cbn; rewrite scrub_none).
  destruct Hok as [Hc Hk]. unfold drop_destination, names_entry.
  destruct (eq_str (get_or_null "type" d) t); [|cbn; by rewrite scrub_none]. cbn [negb andb].
  destruct (truthy (get_or_null "key" d)) eqn:Hkey; [|rewrite orb_true_r; f_equal; symmetry;
    apply scrub_false; intros; by rewrite !andb_false_r].
  rewrite Hc, orb_false_r. cbn [negb]. assert (∀ (b : bool) (x : result exc dict), (if b then x else x) = x) as Hif by (by intros []).
  destruct (get_or_null "container" d) as [| | |c| | |] eqn:Hcont;
    try (rewrite Hif; unfold mret, result_ret; f_equal; symmetry; apply scrub_false; intros; reflexivity).
  cbn [truthy]. destruct (bool_decide_reflect (c = "")) as [->|Hne]; cbn [negb].
  - f_equal. symmetry. apply scrub_false. intros n k. cbn [eq_str].
    destruct (String.eqb_spec "" n) as [<-|]; simpl; [done|by rewrite ?andb_false_r].
  - rewrite at_service_scrub by done. f_equal. apply scrub_ext. intros n k. cbn [eq_str].
    rewrite (String.eqb_sym n c). destruct (String.eqb_spec c n) as [<-|]; [|done]. cbn.
    by rewrite (proj2 (String.eqb_neq _ _)).
Qed.

Lemma each_list l : each (VList l) = Ok l.
Proof. by destruct l. Qed.

Lemma drop_configuration_scrub t c :
  configuration_ok c → ∀ services, drop_configuration t services c
    = Ok (scrub (λ n k, existsb (λ d, names_entry t d n k) (destinations c)) services).
Proof.
  intros (c' & -> & Hd & Hok) services. unfold drop_configuration, destinations in *. cbn [as_dict mbind result_bind mret result_ret].
  destruct Hd as [Hd|[ds Hd]]; rewrite Hd in *; unfold default, from_option, id;
    rewrite each_list; cbn [mbind result_bind].
  - cbn. by rewrite scrub_none.
  - apply foldR_scrub. eapply Forall_impl; [exact Hok|]. intros. by apply drop_destination_scrub.
Qed.

Lemma pass1_scrub unset cs :
  Forall configuration_ok cs → ∀ services,
  pass1 unset (VList cs) services = Ok (scrub (named unset cs) services).
Proof.
  intros Hok. apply (foldR_scrub _ (λ t n k, existsb (λ c, existsb (λ d, names_entry t d n k) (destinations c)) cs)).
  apply Forall_true. intros t services. rewrite each_list. cbn [mbind result_bind].
  apply (foldR_scrub _ (λ c n k, existsb (λ d, names_entry t d n k) (destinations c))).
  eapply Forall_impl; [exact Hok|]. intros c Hc. by apply drop_configuration_scrub.
Qed.

Lemma cleaned_passes unset cs services : pass2 unset (scrub (named unset cs) services) = cleaned unset cs services.
Proof.
  unfold pass2, scrub, cleaned. rewrite map_map. apply map_ext. intros [k v]. cbn [fst snd]. destruct k; cbn [fst snd];
    try (f_equal; apply change_env_ext; intros ?; apply filter_ext; by intros []).
  f_equal. rewrite change_env_compose. apply change_env_ext; intros l; by rewrite filter_filter.
Qed.

Lemma cleaned_nothing cs services : cleaned [] cs services = services.
Proof.
  unfold cleaned. rewrite <- (map_id services) at 2. apply map_ext. intros [k v]. cbn [fst snd]. f_equal.
  apply change_env_id; intros l; apply filter_all.
  - intros [j w]. cbn [fst snd]. assert (value_references_unset [] w = false) as ->.
    { destruct w; try done. simpl. by rewrite andb_false_r. }
    by destruct k.
  - intros e. assert (keep_entry [] e = true) as ->.
    { destruct e; try done. simpl. destruct (partition _ _) as [? []]; [|done]. simpl. by rewrite andb_false_r. }
    destruct e; try done. by destruct k.
Qed.

(** What the environment of a service must not hold. *)
Definition env_free (unset : list string) (service : value) : Prop :=
  ∀ s, service = VDict s →
  match get_or_null "environment" s with
  | VDict env => Forall (λ e, value_references_unset unset e.2 = false) env
  | VList env => Forall (λ e, keep_entry unset e = true) env
  | _ => True
  end.

Lemma Forall_List_filter {A} (f : A → bool) l : Forall (λ x, f x = true) (List.filter f l).
Proof. apply List.Forall_forall. by intros x [_ H]%filter_In. Qed.

Lemma change_env_free unset f g v :
  (∀ d, Forall (λ e, value_references_unset unset e.2 = false) (f d)) →
  (∀ l, Forall (λ e, keep_entry unset e = true) (g l)) → env_free unset (change_env f g v).
Proof.
  intros Hf Hg s Hs. destruct v as [| | | | |d|]; try discriminate Hs. simpl in Hs.
  destruct (get_or_null "environment" d) eqn:He; injection Hs as <-; rewrite ?He, ?get_or_null_set; auto.
Qed.

Lemma cleaned_free unset cs services : Forall (λ kv, env_free unset kv.2) (cleaned unset cs services).
Proof.
  apply Forall_map. apply Forall_true. intros [k v]. cbn [snd]. apply change_env_free; intros l.
  - eapply Forall_impl; [apply Forall_List_filter|]. intros e [_ He]%andb_prop. by apply negb_true_iff.
  - eapply Forall_impl; [apply Forall_List_filter|]. by intros e [_ He]%andb_prop.
Qed.

(** Deleting the environment keys of unset integrations, which the code does by
    two nested loops that change the compose in place, is one filter of each
    service's environment: an entry goes when a destination of an unset type names
    it or when its value refers to an unset type, and nothing else changes; no
    entry that refers to an unset type is left. *)
Theorem unset_integrations_erased (gi services integrations : dict) (cs : list value)
    (Hint : or_empty (get_or_null "integrations" gi) = VDict integrations)
    (Hconf : dict_get "configurations" gi = Some (VList cs)) (Hok : Forall configuration_ok cs) :
  _delete_unset_integration_env_keys gi services = Ok (cleaned (unset_types integrations) cs services) ∧
  Forall (λ kv, env_free (unset_types integrations) kv.2) (cleaned (unset_types integrations) cs services).
Proof.
  split; [|apply cleaned_free]. unfold _delete_unset_integration_env_keys. rewrite Hint, Hconf.
  cbn [as_dict mbind result_bind mret result_ret]. unfold default, from_option, id.
  destruct (unset_types integrations) as [|t ts] eqn:Hu; [by rewrite cleaned_nothing|].
  rewrite pass1_scrub by done. cbn [mbind result_bind]. by rewrite cleaned_passes.
Qed.

(** ** The context *)
Section context_facts.

Lemma setdefault_same k v d : dict_get k (setdefault k v d) = Some (default v (dict_get k d)).
Proof. unfold setdefault. destruct (dict_get k d) eqn:H; [by rewrite H|]. by rewrite dict_get_set_eq. Qed.

Lemma setdefault_ne k k' v d : k ≠ k' → dict_get k' (setdefault k v d) = dict_get k' d.
Proof. intros Hne. unfold setdefault. destruct (dict_get k d); [done|]. by apply dict_get_set_ne. Qed.

Lemma setdefault_there k v d : is_Some (dict_get k d) → setdefault k v d = d.
Proof. intros [w H]. unfold setdefault. by rewrite H. Qed.

Lemma setdefault_keeps k k' v d : is_Some (dict_get k' d) → is_Some (dict_get k' (setdefault k v d)).
Proof.
  intros H. destruct (decide (k = k')) as [->|Hne]; [by rewrite setdefault_same; eexists|]. by rewrite setdefault_ne.
Qed.

Lemma setdefault_value k k' v w d : dict_get k' d = Some w → dict_get k' (setdefault k v d) = Some w.
Proof.
  intros H. destruct (decide (k = k')) as [->|Hne]; [by rewrite setdefault_same, H|]. by rewrite setdefault_ne.
Qed.

Lemma get_or_null_setdefault k k' v d : k ≠ k' → get_or_null k' (setdefault k v d) = get_or_null k' d.
Proof. intros Hne. unfold get_or_null. by rewrite setdefault_ne. Qed.

Lemma default_text k v d : is_Some (dict_get k (setdefault k v d)).
Proof. rewrite setdefault_same. by eexists. Qed.
End context_facts.

Create HintDb context discriminated.
#[export] Hint Resolve setdefault_keeps setdefault_value default_text : context.

(** A dict in which a key is set, seen through assignments of defaults. *)
Ltac through_defaults :=
  repeat first [ rewrite setdefault_same | rewrite setdefault_ne by done ].

Section address_facts.
Context (bracket_ok : string → bool) (format_other : value → string) (env : environ).
Notation compute := (_compute_instance_context bracket_ok format_other env).

Definition instance_keys : list string :=
  ["instance_id"; "instance_host"; "instance_port"; "instance_url";
   "instance_l4_host"; "instance_l4_port"; "instance_l4_endpoint"; "instance_l4_proto"].
Definition l4_keys : list string := ["instance_l4_host"; "instance_l4_port"; "instance_l4_endpoint"; "instance_l4_proto"].
Definition web_keys : list string := ["instance_host"; "instance_port"; "instance_url"].

Lemma compute_keys gi r :
  compute gi = Ok r →
  (∀ k, k ∈ instance_keys → is_Some (dict_get k r)) ∧ (∀ k, k ∉ instance_keys → dict_get k r = dict_get k gi).
Proof.
  unfold _compute_instance_context. destruct (each _) as [ports|]; [|done]. cbn [mbind result_bind].
  destruct (web_address _ _ _ _) as [[host port] url]. destruct (l4_address _ _ _ _) as [[[h p] e] pr].
  intros [= <-]. split; intros k Hk.
  - unfold instance_keys in Hk.
    repeat (apply elem_of_cons in Hk as [->|Hk]; [auto 15 with context nocore|]). by apply elem_of_nil in Hk.
  - unfold instance_keys in Hk. repeat (apply not_elem_of_cons in Hk as [? Hk]). through_defaults. done.
Qed.

(** Computing again changes nothing. *)
Lemma compute_idempotent gi r :
  (∀ k, k ∈ instance_keys → is_Some (dict_get k r)) → dict_get "ports" r = dict_get "ports" gi →
  (∃ r0, compute gi = Ok r0) → compute r = Ok r.
Proof.
  intros Hk Hp [r0 H]. unfold _compute_instance_context in *. unfold get_or_null in *. rewrite Hp.
  destruct (each _) as [ports|]; [|done]. cbn [mbind result_bind].
  destruct (web_address _ _ _ _) as [[host port] url]. destruct (l4_address _ _ _ _) as [[[h p] e] pr].
  assert (∀ k v, k ∈ instance_keys → setdefault k v r = r) as Hs by (intros; by apply setdefault_there, Hk).
  by rewrite !Hs by (apply (bool_decide_unpack _); vm_compute; exact I).
Qed.

(** The web entry point is computed from the first port of the web. *)
Lemma first_port_web ports p : first_match is_web_port ports = Some (VDict p) → first_port ports = p.
Proof. unfold first_port. by intros ->. Qed.

Lemma compute_web gi r ports p :
  compute gi = Ok r → each (get_or_null "ports" gi) = Ok ports → first_match is_web_port ports = Some (VDict p) →
  let '(host, port, url) := web_address bracket_ok format_other env p in
  dict_get "instance_host" r = Some (default host (dict_get "instance_host" gi)) ∧
  dict_get "instance_port" r = Some (default port (dict_get "instance_port" gi)) ∧
  dict_get "instance_url" r = Some (default url (dict_get "instance_url" gi)).
Proof.
  unfold _compute_instance_context. intros H Hports Hp. rewrite Hports in H. cbn [mbind result_bind] in H.
  rewrite (first_port_web _ _ Hp) in H. destruct (web_address _ _ _ p) as [[host port] url].
  destruct (l4_address _ _ _ _) as [[[h q] e] pr]. injection H as <-. by split_and!; through_defaults.
Qed.

(** Behind a tunnel the L4 variables are what the manager gave, or empty. *)
Lemma compute_tunnel gi r k :
  compute gi = Ok r → eq_str (get_or_null "l4_bind_host" gi) "127.0.0.1" = true → k ∈ l4_keys →
  dict_get k r = Some (default (VStr "") (dict_get k gi)).
Proof.
  unfold _compute_instance_context, l4_address. intros H Ht Hk. rewrite Ht in H.
  destruct (each _) as [ports|]; [|done]. cbn [mbind result_bind] in H.
  destruct (web_address _ _ _ _) as [[host port] url].
  assert (∀ o : option dict, match o with Some _ => (VStr "", VStr "", VStr "", VStr "") | None => (VStr "", VStr "", VStr "", VStr "") end
    = (VStr "", VStr "", VStr "", VStr "")) as Hn by (by intros []).
  rewrite Hn in H. injection H as <-.
  repeat (apply elem_of_cons in Hk as [->|Hk]; [by through_defaults|]). by apply elem_of_nil in Hk.
Qed.

Lemma integrations_keys gi r :
  _compute_integrations_context gi = Ok r →
  (∀ k, is_Some (dict_get k gi) → is_Some (dict_get k r)) ∧
  (∀ k, k ∉ KNOWN_INTEGRATION_TYPES → dict_get k r = dict_get k gi) ∧
  _compute_integrations_context r = Ok r.
Proof.
  unfold _compute_integrations_context. intros H.
  destruct (as_dict (or_empty (get_or_null "integrations" gi))) as [integrations|] eqn:Hi; [|done].
  cbn [mbind result_bind mret result_ret foldl KNOWN_INTEGRATION_TYPES] in *. injection H as <-. split_and!.
  - intros k Hk. by auto with context nocore.
  - intros k Hk. unfold KNOWN_INTEGRATION_TYPES in Hk. repeat (apply not_elem_of_cons in Hk as [? Hk]). by through_defaults.
  - rewrite !get_or_null_setdefault by done. rewrite Hi. cbn [mbind result_bind]. f_equal.
    by rewrite !setdefault_there by auto with context nocore.
Qed.

Lemma config_keys gi r :
  _compute_config_context gi = Ok r →
  (∀ k, is_Some (dict_get k gi) → is_Some (dict_get k r)) ∧
  (∀ k, k ≠ "config" → dict_get k r = dict_get k gi) ∧ _compute_config_context r = Ok r.
Proof.
  unfold _compute_config_context. intros H.
  destruct (each (default (VList []) (dict_get "configurations" gi))) as [cs|] eqn:Hc; [|done].
  cbn [mbind result_bind] in *. destruct (foldR config_of [] cs) as [config|] eqn:Hf; [|done].
  cbn [mbind result_bind mret result_ret] in *. injection H as <-. split_and!.
  - intros k Hk. by auto with context nocore.
  - intros k Hk. by rewrite setdefault_ne.
  - rewrite setdefault_ne by done. rewrite Hc. cbn [mbind result_bind]. rewrite Hf. cbn. f_equal.
    by rewrite setdefault_there by auto with context nocore.
Qed.

Lemma compute_value gi r k v : compute gi = Ok r → dict_get k gi = Some v → dict_get k r = Some v.
Proof.
  unfold _compute_instance_context. destruct (each _) as [ports|]; [|done]. cbn [mbind result_bind].
  destruct (web_address _ _ _ _) as [[host port] url]. destruct (l4_address _ _ _ _) as [[[h q] e] pr].
  intros [= <-] H. auto 15 with context nocore.
Qed.

Notation build := (build_render_context bracket_ok format_other env).

Lemma build_parts gi r :
  build gi = Ok r → ∃ r1 r2, compute gi = Ok r1 ∧ _compute_integrations_context r1 = Ok r2 ∧ _compute_config_context r2 = Ok r.
Proof.
  unfold build_render_context. intros (r1 & H1 & (r2 & H2 & H3)%bindR_ok)%bindR_ok. by exists r1, r2.
Qed.

Lemma build_value gi r k v : build gi = Ok r → dict_get k gi = Some v → dict_get k r = Some v.
Proof.
  intros (r1 & r2 & H1 & H2 & H3)%build_parts H. pose proof (compute_value _ _ _ _ H1 H) as Hv.
  unfold _compute_integrations_context in H2. apply bindR_ok in H2 as (i & _ & [= <-]).
  unfold _compute_config_context in H3. apply bindR_ok in H3 as (cs & _ & (c & _ & [= <-])%bindR_ok).
  cbn [foldl KNOWN_INTEGRATION_TYPES]. auto with context nocore.
Qed.

(** What the later steps leave of the first. *)
Lemma build_instance gi r r1 k :
  compute gi = Ok r1 → build gi = Ok r → k ∈ instance_keys → dict_get k r = dict_get k r1.
Proof.
  intros H1 (r1' & r2 & H1' & H2 & H3)%build_parts Hk. rewrite H1 in H1'. injection H1' as <-.
  assert (k ∉ KNOWN_INTEGRATION_TYPES ∧ k ≠ "config") as [Hn1 Hn2].
  { unfold instance_keys in Hk.
    repeat (apply elem_of_cons in Hk as [->|Hk]; [split; [by apply (bool_decide_unpack _)|done]|]). by apply elem_of_nil in Hk. }
  rewrite (proj1 (proj2 (config_keys _ _ H3))) by done. by rewrite (proj1 (proj2 (integrations_keys _ _ H2))).
Qed.

Lemma build_fixed gi r :
  build gi = Ok r →
  compute r = Ok r ∧ _compute_integrations_context r = Ok r ∧ _compute_config_context r = Ok r.
Proof.
  intros H. pose proof (build_parts _ _ H) as (r1 & r2 & H1 & H2 & H3). destruct (compute_keys _ _ H1) as [Hk Hn].
  destruct (integrations_keys _ _ H2) as (Hi & Hin & _). destruct (config_keys _ _ H3) as (Hc & Hcn & Hidem).
  assert (compute r = Ok r) as Hr.
  { apply (compute_idempotent gi); [intros k Hin'; by apply Hc, Hi, Hk| |by exists r1].
    by rewrite Hcn, Hin, Hn by by apply (bool_decide_unpack _). }
  assert (_compute_integrations_context r = Ok r) as Hr2.
  { unfold _compute_integrations_context in H2 |- *. unfold get_or_null in H2 |- *. rewrite (Hcn "integrations"), (Hin "integrations") by by apply (bool_decide_unpack _).
    destruct (as_dict _) as [i|]; [|done]. cbn [mbind result_bind mret result_ret foldl KNOWN_INTEGRATION_TYPES] in *.
    injection H2 as H2. f_equal.
    assert (is_Some (dict_get "smtp" r) ∧ is_Some (dict_get "oidc" r)) as [Hs Ho]
      by (split; apply Hc; rewrite <- H2; auto with context nocore).
    by rewrite !setdefault_there by auto with context nocore. }
  done.
Qed.

Lemma build_idempotent gi r : build gi = Ok r → build r = Ok r.
Proof.
  intros (H1 & H2 & H3)%build_fixed. unfold build_render_context. rewrite H1. cbn [mbind result_bind].
  rewrite H2. exact H3.
Qed.
End address_facts.

(** The context every template of an instance reads is built once and for all:
    building it again changes nothing and it never replaces what the caller had
    set; the web address in it depends on the first port of the web alone, so no
    L4 port can change it; and behind a tunnel the L4 variables are exactly what
    the manager handed off, or empty, never a port of this host. *)
Theorem render_context_isolated bracket_ok format_other (env : environ) (gi r : dict)
    (H : build_render_context bracket_ok format_other env gi = Ok r) :
  build_render_context bracket_ok format_other env r = Ok r ∧
  (∀ k v, dict_get k gi = Some v → dict_get k r = Some v) ∧
  (∀ gi' r' ports ports' p k,
    build_render_context bracket_ok format_other env gi' = Ok r' →
    each (get_or_null "ports" gi) = Ok ports → each (get_or_null "ports" gi') = Ok ports' →
    first_match is_web_port ports = Some (VDict p) → first_match is_web_port ports' = Some (VDict p) →
    k ∈ web_keys → dict_get k gi = dict_get k gi' → dict_get k r = dict_get k r') ∧
  (eq_str (get_or_null "l4_bind_host" gi) "127.0.0.1" = true →
    ∀ k, k ∈ l4_keys → dict_get k r = Some (default (VStr "") (dict_get k gi))).
Proof.
  pose proof (build_parts _ _ _ _ _ H) as (r1 & r2 & H1 & _). split_and!.
  - by eapply build_idempotent.
  - intros k v. by eapply build_value.
  - intros gi' r' ports ports' p k H' Hp Hp' Hw Hw' Hk Hsame.
    pose proof (build_parts _ _ _ _ _ H') as (r1' & r2' & H1' & _).
    assert (k ∈ instance_keys) as Hi.
    { unfold web_keys in Hk. unfold instance_keys. rewrite !elem_of_cons in *. naive_solver. }
    rewrite (build_instance _ _ _ _ _ _ _ H1 H Hi), (build_instance _ _ _ _ _ _ _ H1' H' Hi).
    pose proof (compute_web _ _ _ _ _ _ _ H1 Hp Hw) as Ha. pose proof (compute_web _ _ _ _ _ _ _ H1' Hp' Hw') as Ha'.
    destruct (web_address _ _ _ p) as [[host port] url]. destruct Ha as (A1 & A2 & A3), Ha' as (B1 & B2 & B3).
    unfold web_keys in Hk. repeat (apply elem_of_cons in Hk as [->|Hk]; [congruence|]). by apply elem_of_nil in Hk.
  - intros Ht k Hk. assert (k ∈ instance_keys) as Hi.
    { unfold l4_keys in Hk. unfold instance_keys. rewrite !elem_of_cons in *. naive_solver. }
    rewrite (build_instance _ _ _ _ _ _ _ H1 H Hi). by eapply compute_tunnel.
Qed.

(** ** Rendering the compose *)
Section create.
(** The renderer of a tree: what it gives, or whether it was the budget that
    refused it, with the message, or any other exception. *)
Inductive render_failure : Type := OverBudget (message : string) | Broken (class : string).
Context (bracket_ok : string → bool) (format_other : value → string) (env : environ).
Context (render_compose_tree_bounded : value → dict → result render_failure value).
Context (logging : value).

(** The context and the tree that [yaml.dump] writes to [docker-compose.yml]. *)
Definition create_compose (compose gi : dict) : result exc (dict * value) :=
  gi ← _compute_instance_context bracket_ok format_other env gi;
  gi ← _compute_integrations_context gi;
  services ← as_dict (default (VDict []) (dict_get "services" compose));
  services ← _delete_unset_integration_env_keys gi services;
  let compose := dict_set "services" (VDict (_inject_instance_log_rotation logging services)) compose in
  match render_compose_tree_bounded (VDict compose) gi with
  | Ok rendered => mret (gi, rendered)
  | Raise (OverBudget message) => Raise (ConfigRenderError message)
  | Raise (Broken class) => Raise (ConfigRenderError class)
  end.

(** After [build_render_context] the two contexts add nothing, and whatever the
    renderer raises is a refusal. *)
Lemma create_compose_after_build gi r compose services services' :
  build_render_context bracket_ok format_other env gi = Ok r →
  dict_get "services" compose = Some (VDict services) →
  _delete_unset_integration_env_keys r services = Ok services' →
  match create_compose compose r with
  | Ok (r', _) => r' = r
  | Raise e => ∃ detail, e = ConfigRenderError detail
  end.
Proof.
  intros Hb Hs Hd. destruct (build_fixed _ _ _ _ _ Hb) as (H1 & H2 & _).
  unfold create_compose. rewrite H1. cbn [mbind result_bind]. rewrite H2, Hs. cbn [mbind result_bind].
  unfold default, from_option, id. cbn [as_dict mret result_ret mbind result_bind]. rewrite Hd.
  cbn [mbind result_bind]. cbv zeta.
  match goal with |- context [render_compose_tree_bounded ?x ?y] => destruct (render_compose_tree_bounded x y) as [t|[m|c]] end;
    cbn; by eauto.
Qed.
End create.

(** ** Concrete instances *)
Module Demo.
Definition env : environ := Environ None (Some "203.0.113.7") None.
Definition no_brackets : string → bool := λ _, false.
Definition no_format : value → string := λ _, "?".

Definition web (url : value) : value :=
  VDict [(VStr "port_host", VInt 49153); (VStr "url", url); (VStr "exposure_tier", VStr "http")].
Definition udp : value :=
  VDict [(VStr "port_host", VInt 20001); (VStr "url", VStr "https://vpn.example.org"); (VStr "exposure_tier", VStr "l4");
         (VStr "protocol", VStr "udp")].
Definition info (bind : string) (ports : list value) : dict :=
  [(VStr "id", VStr "ab12"); (VStr "ports", VList ports); (VStr "l4_bind_host", VStr bind);
   (VStr "integrations", VDict [(VStr "oidc", VDict [(VStr "issuer", VStr "https://id")])]);
   (VStr "configurations", VList [])].

Definition read (k : string) (r : result exc dict) : option value :=
  match r with Ok d => dict_get k d | Raise _ => None end.
Definition build (gi : dict) : result exc dict := build_render_context no_brackets no_format env gi.

Example address_of_manager :
  let r := build (info "0.0.0.0" [udp; web (VStr "https://X.my.example.org")]) in
  (read "instance_url" r, read "instance_host" r, read "instance_port" r) =
  (Some (VStr "https://X.my.example.org"), Some (VStr "x.my.example.org"), Some (VStr "")).
Proof. vm_compute. reflexivity. Qed.
Example address_of_node :
  let r := build (info "0.0.0.0" [udp; web (VStr "https://x:port")]) in
  (read "instance_url" r, read "instance_l4_endpoint" r, read "instance_l4_proto" r) =
  (Some (VStr "https://203.0.113.7:49153"), Some (VStr "203.0.113.7:20001"), Some (VStr "udp")).
Proof. vm_compute. reflexivity. Qed.
Example user_and_zone :
  manager_url (λ _, true) (VStr "http://u@[FE80::1%eth0]:8443/a?b") = Some ("fe80::1%eth0", Some 8443%Z).
Proof. vm_compute. reflexivity. Qed.

Definition services : dict :=
  [(VStr "app", VDict [(VStr "environment", VDict
     [(VStr "MAIL_HOST", VStr "{{ smtp.host }}"); (VStr "MAIL_PORT", VStr "25"); (VStr "NAME", VStr "app")])]);
   (VStr "job", VDict [(VStr "environment", VList
     [VStr "MAIL_PORT"; VStr "A={{ smtp['host'] }}"; VStr "ISSUER={{ oidc.issuer }}"])])].
Definition configurations : list value :=
  [VDict [(VStr "destinations", VList
    [VDict [(VStr "type", VStr "smtp"); (VStr "container", VStr "app"); (VStr "key", VStr "MAIL_PORT")];
     VDict [(VStr "type", VStr "smtp"); (VStr "container", VStr "job"); (VStr "key", VStr "MAIL_PORT")]])]].
Definition mail_info : dict :=
  [(VStr "integrations", VDict [(VStr "oidc", VDict [(VStr "issuer", VStr "https://id")])]);
   (VStr "configurations", VList configurations)].

Example mail_erased : _delete_unset_integration_env_keys mail_info services = Ok
  [(VStr "app", VDict [(VStr "environment", VDict [(VStr "NAME", VStr "app")])]);
   (VStr "job", VDict [(VStr "environment", VList [VStr "ISSUER={{ oidc.issuer }}"])])].
Proof. vm_compute. reflexivity. Qed.
End Demo.

Lemma unset_integrations_erased_witness :
  _delete_unset_integration_env_keys Demo.mail_info Demo.services
  = Ok (cleaned ["smtp"] Demo.configurations Demo.services) ∧
  Forall (λ kv, env_free ["smtp"] kv.2) (cleaned ["smtp"] Demo.configurations Demo.services).
Proof.
  apply (unset_integrations_erased Demo.mail_info Demo.services
    [(VStr "oidc", VDict [(VStr "issuer", VStr "https://id")])] Demo.configurations); [reflexivity..|].
  repeat constructor. eexists. split; [reflexivity|]. split; [right; eexists; reflexivity|]. repeat constructor.
Defined.

(** An L4 port moved before the port of the web, with another public URL. *)
Lemma render_context_isolated_witness :
  let gi := Demo.info "127.0.0.1" [Demo.web VNull] in
  let gi' := Demo.info "127.0.0.1" [Demo.udp; Demo.web VNull] in
  Demo.read "instance_url" (Demo.build gi) = Demo.read "instance_url" (Demo.build gi') ∧
  Demo.read "instance_l4_port" (Demo.build gi') = Some (VStr "").
Proof.
  assert (∃ r, Demo.build (Demo.info "127.0.0.1" [Demo.web VNull]) = Ok r) as [r Hr] by (eexists; vm_compute; reflexivity).
  assert (∃ r, Demo.build (Demo.info "127.0.0.1" [Demo.udp; Demo.web VNull]) = Ok r) as [r' Hr'] by (eexists; vm_compute; reflexivity).
  cbv zeta. rewrite Hr, Hr'. unfold Demo.read. split.
  - destruct (render_context_isolated _ _ _ _ _ Hr) as (_ & _ & Hw & _).
    eapply Hw; [exact Hr'|reflexivity|reflexivity|reflexivity|reflexivity| |reflexivity].
    by apply (bool_decide_unpack _).
  - destruct (render_context_isolated _ _ _ _ _ Hr') as (_ & _ & _ & Ht).
    apply (Ht eq_refl). by apply (bool_decide_unpack _).
Defined.
