(* ===== verification/InstanceFiles.v ===== *)
(** [apps/utils/docker/compose.py], second half, and
    [apps/utils/docker/volume.py]: the files of an instance and the docker
    commands run on it.  Baked configuration files ([apply_configuration]), their
    copies into the volumes ([docker_copy_file_into_volume]), the
    docker-compose children ([start], [stop], [down]) and the status read back
    from the containers ([get_status]).

    Rendering and the data-URI library are arguments.  The text of a refusal
    carries no value. *)
From Stdlib Require Import Ascii String.
From S2P Require Import Prelude PyValue GreffonInfo InstanceContext.
Import Text.
Local Open Scope string_scope.

(** [d[k]] on a parsed value. *)
Definition item (v : value) (k : string) : result exc value :=
  match v with
  | VDict d => match dict_get k d with Some w => mret w | None => Raise (Py "KeyError") end
  | _ => Raise (Py "TypeError")
  end.

(** ** Baked configuration *)
Module Staging.

(** What a file holds: [json.dumps] of a value, or bytes. *)
Inductive content : Type := Json (v : value) | Raw (bytes : string).

(** An exception of the renderer: its class, and whether it is one of those
    [_render_baked_file] names. *)
Record failure : Type := Failure { class : string; listed : bool }.

(** The part of [greffon_info] and of the compose that is changed in place, and
    the files below the instance directory. *)
Record deploy : Type := Deploy {
  services : dict;
  volumes : list (value * volume_info);
  files : gmap string content;
}.
Definition with_files (f : gmap string content) (s : deploy) : deploy := Deploy (services s) (volumes s) f.
Definition with_volumes (v : list (value * volume_info)) (s : deploy) : deploy := Deploy (services s) v (files s).
Definition with_services (d : dict) (s : deploy) : deploy := Deploy d (volumes s) (files s).

Definition basename (s : string) : string := match rpartition "/" s with Some (_, b) => b | None => s end.

(** The name of a destination the code accepts. *)
Definition bare_name (name : string) : bool :=
  negb (String.eqb name "" || String.eqb name "." || String.eqb name ".."
        || has_char "/" name || has_char (ascii_of_N 92) name || negb (String.eqb name (basename name))
        || negb (all_chars (λ c, negb ((N_of_ascii c <? 32)%N || (N_of_ascii c =? 127)%N)) name)).

Section apply.
(** The instance directory, the rendering of one text and of a tree, the bytes of
    a data URI, the formatting of values, and the files that can be written. *)
Context (inst : string).
Context (render_file : string → result failure string) (render_tree : value → result failure value).
Context (data_uri : value → result exc string).
Context (format_other : value → string) (writable : string → bool).

Definition compose_path : string := path_join inst "docker-compose.yml".
Definition template_path : string := path_join inst "docker-compose.template.yml".
Definition config_path (name : string) : string := path_join (path_join inst "config") name.

Definition remove_compose_file : M deploy exc unit :=
  modify (λ s, with_files (delete compose_path (delete template_path (files s))) s).

Definition _staged_destination_path (destination : value) : M deploy exc (string * string * value) :=
  d ← lift (as_dict destination);
  match get_or_null "name" d with
  | VStr name =>
      if negb (bare_name name) then throw (ConfigRenderError "destination name must be a bare file name")
      else
        let volume := get_or_null "volume" d in
        if eq_str volume "greffon_nginx"
        then throw (ConfigRenderError "destination volume holds the instance certificate")
        else if negb (hashable volume) then throw (Py "TypeError")
        else
          vs ← gets volumes;
          match assoc_get volume vs with
          | None => throw (ConfigRenderError "destination volume is not declared")
          | Some _ => mret (config_path name, name, volume)
          end
  | _ => throw (ConfigRenderError "destination name must be a bare file name")
  end.

Definition _render_baked_file (raw : string) : M deploy exc string :=
  match render_file raw with
  | Ok t => mret t
  | Raise f => if listed f then throw (ConfigRenderError (class f)) else throw (Py (class f))
  end.

(** A value that is neither null nor a string goes to the tree renderer, whose
    exceptions are not converted. *)
Definition _render_json_value (v : value) : M deploy exc value :=
  match v with
  | VNull => mret VNull
  | VStr s => t ← _render_baked_file s; mret (VStr t)
  | v => match render_tree v with Ok t => mret t | Raise f => throw (Py (class f)) end
  end.

Definition write (path : string) (c : content) : M deploy exc unit :=
  if writable path then modify (λ s, with_files (<[path := c]> (files s)) s) else throw (Py "OSError").

Definition add_file (f : staged_file) (v : volume_info) : volume_info := {|
  v_name := v_name v; v_value := v_value v; v_containers := v_containers v; v_files := (v_files v ++ [f])%list |}.

(** [greffon_info['volumes'][volume]['files'].append(...)] *)
Definition append_file (volume : value) (path name : string) : M deploy exc unit :=
  modify (λ s, with_volumes
    (map (λ kv, if key_eqb kv.1 volume then (kv.1, add_file (FPath path name) kv.2) else kv) (volumes s)) s).

(** [.setdefault('environment', [])] on a service, and the assignment of one key
    in it. *)
Definition ensure_env (service : value) : result exc value :=
  match service with
  | VDict s => mret (VDict (setdefault "environment" (VList []) s))
  | _ => Raise (Py "AttributeError")
  end.
Definition set_env (key value : PyValue.value) (service : PyValue.value) : result exc PyValue.value :=
  match service with
  | VDict s =>
      match get_or_null "environment" s with
      | VDict env => if hashable key then mret (VDict (dict_set "environment" (VDict (assoc_set key value env)) s))
                     else Raise (Py "TypeError")
      | VList env => mret (VDict (dict_set "environment"
          (VList (env ++ [VStr (py_str format_other key +:+ "=" +:+ py_str format_other value)])%list) s))
      | _ => Raise (Py "AttributeError")
      end
  | _ => Raise (Py "AttributeError")
  end.

(** [compose['services'][name]] with what is done to it; service names are
    strings. *)
Definition on_service (name : value) (f : value → result exc value) (services : dict) : result exc dict :=
  match name with
  | VStr n => match dict_get n services with
              | Some s => s' ← f s; mret (dict_set n s' services)
              | None => Raise (Py "KeyError")
              end
  | v => Raise (Py (if hashable v then "KeyError" else "TypeError"))
  end.

Definition change_service (name : value) (f : value → result exc value) : M deploy exc unit :=
  s ← get;
  services' ← lift (on_service name f (services s));
  modify (with_services services').

(** [configuration['value'].get('value', '')] *)
Definition plain_value (configuration : value) : result exc value :=
  v ← item configuration "value"; d ← as_dict v; mret (default (VStr "") (dict_get "value" d)).

Definition flagged (destination : value) : bool :=
  match destination with VDict d => truthy (get_or_null "x-greffon-render" d) | _ => false end.

Definition json_destination (configuration destination : value) : M deploy exc unit :=
  '(path, name, volume) ← _staged_destination_path destination;
  v ← lift (item configuration "value");
  v ← (if flagged destination then _render_json_value v else mret v);
  write path (Json v);;
  append_file volume path name.

Definition env_destination (configuration destination : value) : M deploy exc unit :=
  remove_compose_file;;
  container ← lift (item destination "container");
  change_service container ensure_env;;
  v ← lift (plain_value configuration);
  key ← lift (item destination "key");
  change_service container (set_env key v).

Definition file_destination (configuration destination : value) : M deploy exc unit :=
  '(path, name, volume) ← _staged_destination_path destination;
  remove_compose_file;;
  v ← lift (item configuration "value");
  uri ← lift (item v "file");
  raw ← lift (data_uri uri);
  data ← (if flagged destination then _render_baked_file raw else mret raw);
  write path (Raw data);;
  append_file volume path name.

Definition apply_destination (configuration destination : value) : M deploy exc unit :=
  type ← lift (item destination "type");
  if eq_str type "json" then json_destination configuration destination
  else if eq_str type "env" then env_destination configuration destination
  else if eq_str type "file" then file_destination configuration destination
  else mret tt.

(** [configurations] is [greffon_info.get('configurations', [])]. *)
Definition apply_configuration (configurations : value) : M deploy exc unit :=
  cs ← lift (iter configurations);
  forS cs (λ configuration,
    c ← lift (as_dict configuration);
    dests ← lift (iter (default (VList []) (dict_get "destinations" c)));
    forS dests (apply_destination configuration)).

(** *** What a run may touch *)

(** A file baked under its bare name. *)
Definition baked (f : staged_file) : Prop := ∃ name, bare_name name = true ∧ f = FPath (config_path name) name.

(** The volume of the sidecar keeps its files, another one gets baked files. *)
Definition volume_step (kv kv' : value * volume_info) : Prop :=
  kv'.1 = kv.1 ∧ v_name kv'.2 = v_name kv.2 ∧ v_value kv'.2 = v_value kv.2 ∧ v_containers kv'.2 = v_containers kv.2 ∧
  ∃ new, v_files kv'.2 = (v_files kv.2 ++ new)%list ∧ Forall baked new ∧ (kv.1 = VStr "greffon_nginx" → new = []).

Definition service_step (kv kv' : value * value) : Prop :=
  kv'.1 = kv.1 ∧ (kv'.2 = kv.2 ∨ ∃ s s', kv.2 = VDict s ∧ kv'.2 = VDict s' ∧
    ∀ k, k ≠ "environment" → dict_get k s' = dict_get k s).

Definition file_step (s s' : deploy) (path : string) : Prop :=
  files s' !! path = files s !! path ∨
  (∃ name, bare_name name = true ∧ path = config_path name) ∨
  (path ∈ [compose_path; template_path] ∧ files s' !! path = None).

Record contained (s s' : deploy) : Prop := {
  contained_files : ∀ path, file_step s s' path;
  contained_volumes : Forall2 volume_step (volumes s) (volumes s');
  contained_services : Forall2 service_step (services s) (services s');
}.

Lemma volume_step_refl kv : volume_step kv kv.
Proof. split_and!; try done. exists []. by rewrite app_nil_r. Qed.
Lemma volume_step_trans a b c : volume_step a b → volume_step b c → volume_step a c.
Proof.
  intros (A1 & A2 & A3 & A4 & n & A5 & A6 & A7) (B1 & B2 & B3 & B4 & m & B5 & B6 & B7).
  split_and!; try congruence. exists (n ++ m)%list. split_and!.
  - by rewrite B5, A5, app_assoc.
  - by apply Forall_app.
  - intros Hk. rewrite A7, B7 by congruence. done.
Qed.
Lemma service_step_trans a b c : service_step a b → service_step b c → service_step a c.
Proof.
  intros [A1 A2] [B1 B2]. split; [congruence|]. destruct A2 as [A2|(s & s' & A2 & A3 & A4)], B2 as [B2|(t & t' & B2 & B3 & B4)].
  - left. congruence.
  - right. exists t, t'. by rewrite <- A2.
  - right. exists s, s'. by rewrite B2.
  - right. exists s, t'. split_and!; [done..|]. intros k Hk. rewrite B4 by done.
    rewrite A3 in B2. injection B2 as <-. by apply A4.
Qed.

#[local] Instance contained_preorder : PreOrder contained.
Proof.
  split.
  - intros s. split; [by left|..].
    + apply Forall_Forall2_diag, Forall_true. apply volume_step_refl.
    + apply Forall_Forall2_diag, Forall_true. intros x. split; [done|by left].
  - intros a b c [A1 A2 A3] [B1 B2 B3]. split.
    + intros p. specialize (A1 p). destruct (B1 p) as [B|B]; [|by right].
      destruct A1 as [A|[A|[A A']]]; [left; congruence|by right; left|]. right. right. split; [done|congruence].
    + eapply Forall2_trans; [apply volume_step_trans|exact A2|exact B2].
    + eapply Forall2_trans; [apply service_step_trans|exact A3|exact B3].
Qed.

Lemma volumes_same l : Forall2 volume_step l l.
Proof. apply Forall_Forall2_diag, Forall_true, volume_step_refl. Qed.
Lemma services_same l : Forall2 service_step l l.
Proof. apply Forall_Forall2_diag, Forall_true. intros x. split; [done|by left]. Qed.

Lemma rel_bind_post {A B} (P : A → Prop) (m : M deploy exc A) (k : A → M deploy exc B) :
  (∀ s, wp m (λ r s', contained s s' ∧ ∀ a, r = Ok a → P a) s) → (∀ a, P a → rel contained (k a)) →
  rel contained (m ≫= k).
Proof.
  intros Hm Hk s. apply wp_bind. eapply wp_mono; [apply Hm|]. intros [a|e] s1 [H1 HP]; [|done].
  eapply wp_mono; [by apply Hk, HP|]. intros r s2 H2. by transitivity s1.
Qed.

Lemma remove_contained : rel contained remove_compose_file.
Proof.
  apply rel_modify. intros s. split; [|apply volumes_same|apply services_same]. intros path. simpl. unfold file_step. simpl.
  destruct (decide (path = compose_path)) as [->|H1].
  { right. right. split; [by left|]. by rewrite lookup_delete_eq. }
  destruct (decide (path = template_path)) as [->|H2].
  { right. right. split; [by right; left|]. rewrite lookup_delete_ne by done. by rewrite lookup_delete_eq. }
  left. by rewrite !lookup_delete_ne.
Qed.

(** A destination that is accepted. *)
Definition accepted (x : string * string * value) : Prop :=
  bare_name x.1.2 = true ∧ x.1.1 = config_path x.1.2 ∧ x.2 ≠ VStr "greffon_nginx".

Lemma staged_accepted destination s :
  wp (_staged_destination_path destination) (λ r s', contained s s' ∧ ∀ x, r = Ok x → accepted x) s.
Proof.
  assert (∀ e, contained s s ∧ ∀ x, (Raise e : result exc (string * string * value)) = Ok x → accepted x) as Hr by done.
  unfold _staged_destination_path. apply wp_bind, wp_lift. destruct (as_dict destination) as [d|e]; [|apply Hr].
  destruct (get_or_null "name" d) as [| | |name| | |]; try (apply wp_throw, Hr).
  destruct (bare_name name) eqn:Hn; cbn [negb]; [|apply wp_throw, Hr].
  destruct (eq_str _ _) eqn:Hg; [apply wp_throw, Hr|]. destruct (hashable _); cbn [negb]; [|apply wp_throw, Hr].
  apply wp_bind, wp_gets. destruct (assoc_get _ _); [|apply wp_throw, Hr]. apply wp_ret. split; [done|].
  intros x [= <-]. split_and!; [done..|]. cbn [snd]. by apply eq_str_false.
Qed.

Lemma write_contained name c : bare_name name = true → rel contained (write (config_path name) c).
Proof.
  intros Hn. unfold write. destruct (writable _); [|by apply rel_pure; [typeclasses eauto|]].
  apply rel_modify. intros s. split; [|apply volumes_same|apply services_same]. intros path. unfold file_step. simpl.
  destruct (decide (path = config_path name)) as [->|Hne]; [right; left; by exists name|].
  left. by rewrite lookup_insert_ne.
Qed.

Lemma append_contained name volume :
  bare_name name = true → volume ≠ VStr "greffon_nginx" → rel contained (append_file volume (config_path name) name).
Proof.
  intros Hn Hv. apply rel_modify. intros s. split; [by left| |apply services_same]. simpl.
  induction (volumes s) as [|[k v] l IH]; simpl; constructor; [clear IH|done].
  destruct (key_eqb k volume) eqn:Hk; [|apply volume_step_refl].
  split_and!; try done. eexists. split_and!; [done| |].
  - constructor; [|done]. by exists name.
  - cbn [fst]. intros ->. destruct volume as [| | |t| | |]; try discriminate Hk.
    apply (proj1 (String.eqb_eq "greffon_nginx" t)) in Hk. congruence.
Qed.

Lemma change_contained name f :
  (∀ v v', f v = Ok v' → ∃ s s', v = VDict s ∧ v' = VDict s' ∧ ∀ k, k ≠ "environment" → dict_get k s' = dict_get k s) →
  rel contained (change_service name f).
Proof.
  intros Hf s. unfold change_service. apply wp_bind, wp_get, wp_bind, wp_lift.
  destruct (on_service name f (services s)) as [d|e] eqn:Hd; [|done]. apply wp_modify.
  split; [by left|apply volumes_same|]. simpl. unfold on_service in Hd. destruct name as [| | |n| | |]; try done.
  revert d Hd. generalize (services s) as l. induction l as [|[k v] l IH]; intros d Hd; simpl in Hd; [done|].
  destruct (eq_str k n) eqn:Hk.
  - apply bindR_ok in Hd as (v' & Hv & [= <-]). constructor; [|apply services_same].
    split; [done|]. right. by apply Hf.
  - destruct (dict_get n l) as [v0|]; [|done]. apply bindR_ok in Hd as (v' & Hv & [= <-]).
    constructor; [split; [done|by left]|]. apply IH. by rewrite Hv.
Qed.

Lemma set_env_contained key v service service' :
  set_env key v service = Ok service' →
  ∃ s s', service = VDict s ∧ service' = VDict s' ∧ ∀ k, k ≠ "environment" → dict_get k s' = dict_get k s.
Proof.
  unfold set_env. destruct service as [| | | | |s|]; try done. intros H.
  assert (∃ w, service' = VDict (dict_set "environment" w s)) as [w ->].
  { destruct (get_or_null "environment" s); try done; [injection H as <-; by eexists|].
    destruct (hashable key); [injection H as <-; by eexists|done]. }
  exists s. eexists. split_and!; [done..|]. intros k Hk. by apply dict_get_set_ne.
Qed.

Lemma ensure_env_contained service service' :
  ensure_env service = Ok service' →
  ∃ s s', service = VDict s ∧ service' = VDict s' ∧ ∀ k, k ≠ "environment" → dict_get k s' = dict_get k s.
Proof.
  destruct service as [| | | | |s|]; try done. intros [= <-]. exists s. eexists. split_and!; [done..|].
  intros k Hk. by apply setdefault_ne.
Qed.

Lemma rendered_contained (b : bool) raw : rel contained (if b then _render_baked_file raw else mret raw : M deploy exc string).
Proof. unfold _render_baked_file. repeat rel_step. Qed.

Lemma destination_contained configuration destination : rel contained (apply_destination configuration destination).
Proof.
  unfold apply_destination. rel_step; [rel_step|]. destruct (eq_str a "json"); [|destruct (eq_str a "env")];
    [| |destruct (eq_str a "file"); [|repeat rel_step]].
  - apply (rel_bind_post accepted); [apply staged_accepted|]. intros [[path name] volume] (Hn & Hp & Hv).
    cbn [fst snd] in *. subst path.
    rel_step; [rel_step|]. apply rel_bind; [typeclasses eauto| |].
    + destruct (flagged destination); [|rel_step]. unfold _render_json_value, _render_baked_file. repeat rel_step.
    + intros v. apply rel_bind; [typeclasses eauto|by apply write_contained|]. intros _. by apply append_contained.
  - apply rel_bind; [typeclasses eauto|apply remove_contained|]. intros _. rel_step; [rel_step|].
    apply rel_bind; [typeclasses eauto|apply change_contained, ensure_env_contained|]. intros _.
    do 2 (rel_step; [rel_step|]). apply change_contained, set_env_contained.
  - apply (rel_bind_post accepted); [apply staged_accepted|]. intros [[path name] volume] (Hn & Hp & Hv).
    cbn [fst snd] in *. subst path.
    apply rel_bind; [typeclasses eauto|apply remove_contained|]. intros _. do 3 (rel_step; [rel_step|]).
    apply rel_bind; [typeclasses eauto|apply rendered_contained|]. intros data.
    apply rel_bind; [typeclasses eauto|by apply write_contained|]. intros _. by apply append_contained.
Qed.

Lemma rel_forS {A} (l : list A) (f : A → M deploy exc unit) : (∀ x, rel contained (f x)) → rel contained (forS l f).
Proof.
  intros Hf. induction l as [|x l IH]; [by apply rel_pure; [typeclasses eauto|]|].
  apply rel_bind; [typeclasses eauto|apply Hf|]. intros _. apply IH.
Qed.

Lemma apply_contained configurations : rel contained (apply_configuration configurations).
Proof.
  unfold apply_configuration. rel_step; [rel_step|]. apply rel_forS. intros c. do 2 (rel_step; [rel_step|]).
  apply rel_forS. intros d. apply destination_contained.
Qed.

(** *** What a run that ends stages *)

Definition add_files (new : list staged_file) (v : volume_info) : volume_info := {|
  v_name := v_name v; v_value := v_value v; v_containers := v_containers v; v_files := (v_files v ++ new)%list |}.

(** The volumes, each with the files [new] gives for its key. *)
Definition grow (new : value → list staged_file) (vs : list (value * volume_info)) : list (value * volume_info) :=
  map (λ kv, (kv.1, add_files (new kv.1) kv.2)) vs.

(** The file a destination puts into the volume [k]. *)
Definition stages_into (destination k : value) : list staged_file :=
  match destination with
  | VDict d =>
      if (eq_str (get_or_null "type" d) "json" || eq_str (get_or_null "type" d) "file") && key_eqb k (get_or_null "volume" d)
      then match get_or_null "name" d with VStr n => [FPath (config_path n) n] | _ => [] end
      else []
  | _ => []
  end.
Definition configuration_destinations (c : value) : list value :=
  match c with
  | VDict c => match dict_get "destinations" c with Some (VList ds) => ds | _ => [] end
  | _ => []
  end.
Definition staged_for (cs : list value) (k : value) : list staged_file :=
  flat_map (λ c, flat_map (λ d, stages_into d k) (configuration_destinations c)) cs.

Lemma grow_nil vs : grow (λ _, []) vs = vs.
Proof.
  unfold grow. rewrite <- (map_id vs) at 2. apply map_ext. intros [k []]. unfold add_files. simpl. by rewrite app_nil_r.
Qed.
Lemma grow_grow m1 m2 vs : grow m2 (grow m1 vs) = grow (λ k, m1 k ++ m2 k)%list vs.
Proof.
  unfold grow. rewrite map_map. apply map_ext. intros [k v]. unfold add_files. simpl. by rewrite app_assoc.
Qed.
Lemma grow_ext m1 m2 vs : (∀ k, m1 k = m2 k) → grow m1 vs = grow m2 vs.
Proof. intros H. apply map_ext. intros kv. by rewrite H. Qed.

(** [m] stages what [new] says when it ends. *)
Definition grows {A} (new : value → list staged_file) (m : M deploy exc A) : Prop :=
  ∀ s, wp m (λ r s', ∀ a, r = Ok a → volumes s' = grow new (volumes s)) s.

Lemma grows_bind {A B} m1 m2 (m : M deploy exc A) (k : A → M deploy exc B) :
  grows m1 m → (∀ a, grows m2 (k a)) → grows (λ v, m1 v ++ m2 v)%list (m ≫= k).
Proof.
  intros Hm Hk s. apply wp_bind. eapply wp_mono; [apply Hm|]. intros [a|e] s1 H1; [|done].
  eapply wp_mono; [apply Hk|]. intros r s2 H2 b Hb. by rewrite (H2 b Hb), (H1 a eq_refl), grow_grow.
Qed.

Lemma grows_none {A} (m : M deploy exc A) : (∀ s, volumes (m s).2 = volumes s) → grows (λ _, []) m.
Proof. intros H s r _. by rewrite grow_nil. Qed.

Lemma grows_mono {A} m1 m2 (m : M deploy exc A) : (∀ k, m1 k = m2 k) → grows m1 m → grows m2 m.
Proof. intros H Hm s. eapply wp_mono; [apply Hm|]. intros r s' Hr a Ha. rewrite (Hr a Ha). by apply grow_ext. Qed.

Lemma grows_forS {X} (m : X → value → list staged_file) (f : X → M deploy exc unit) l :
  (∀ x, x ∈ l → grows (m x) (f x)) → grows (λ k, flat_map (λ x, m x k) l) (forS l f).
Proof.
  induction l as [|x l IH]; intros Hf; [by apply grows_none|]. cbn [flat_map forS].
  apply grows_bind; [apply Hf; by left|]. intros _. apply IH. intros y Hy. apply Hf. by right.
Qed.

(** A step before the file is appended, with what it promises of its value. *)
Lemma grows_after {A B} (P : A → Prop) new (m : M deploy exc A) (k : A → M deploy exc B) :
  (∀ s r s', m s = (r, s') → volumes s' = volumes s ∧ ∀ a, r = Ok a → P a) → (∀ a, P a → grows new (k a)) →
  grows new (m ≫= k).
Proof.
  intros Hm Hk s. apply wp_bind. unfold wp at 1. destruct (m s) as [r s1] eqn:Hs. destruct (Hm _ _ _ Hs) as [Hv HP]. simpl.
  destruct r as [a|e]; [|done]. eapply wp_mono; [by apply Hk, HP|]. intros r s2 H2 b Hb. by rewrite (H2 b Hb), Hv.
Qed.

(** A computation that leaves the volumes alone. *)
Definition quiet {A} (m : M deploy exc A) : Prop := ∀ s, volumes (m s).2 = volumes s.
Lemma grows_quiet {A B} new (m : M deploy exc A) (k : A → M deploy exc B) :
  quiet m → (∀ a, grows new (k a)) → grows new (m ≫= k).
Proof.
  intros Hm Hk. apply (grows_after (λ _, True)); [|by auto]. intros s r s' Hs. specialize (Hm s). by rewrite Hs in Hm.
Qed.
Lemma undeployed_bind {A B} (m : M deploy exc A) (k : A → M deploy exc B) :
  quiet m → (∀ a, quiet (k a)) → quiet (m ≫= k).
Proof.
  intros Hm Hk s. unfold mbind, M_bind. specialize (Hm s). destruct (m s) as [[a|e] s1]; [|done].
  by rewrite (Hk a s1).
Qed.
Lemma quiet_render (b : bool) raw : quiet (if b then _render_baked_file raw else mret raw : M deploy exc string).
Proof. intros s. unfold _render_baked_file. destruct b; [|done]. destruct (render_file raw); [done|]. by case_match. Qed.
Lemma quiet_render_json (b : bool) v : quiet (if b then _render_json_value v else mret v : M deploy exc value).
Proof.
  destruct b; [|done]. destruct v; try done; try (intros s; unfold _render_json_value; by destruct (render_tree _)).
  simpl. apply undeployed_bind; [apply (quiet_render true)|done].
Qed.
Lemma quiet_write path c : quiet (write path c).
Proof. intros s. unfold write. by destruct (writable path). Qed.
Lemma quiet_change name f : quiet (change_service name f).
Proof. intros s. unfold change_service, mbind, M_bind. simpl. unfold lift. by destruct (on_service _ _ _). Qed.

Lemma staged_result destination s r s' :
  _staged_destination_path destination s = (r, s') → volumes s' = volumes s ∧ ∀ x, r = Ok x →
  ∃ d, destination = VDict d ∧ get_or_null "name" d = VStr x.1.2 ∧ x.2 = get_or_null "volume" d ∧ x.1.1 = config_path x.1.2.
Proof.
  unfold _staged_destination_path. destruct destination as [| | | | |d|]; try by intros [= <- <-].
  change (lift (as_dict (VDict d))) with (mret d : M deploy exc dict). unfold mbind, M_bind. cbn [mret M_ret].
  destruct (get_or_null "name" d) as [| | |name| | |] eqn:Hn; try by intros [= <- <-].
  destruct (bare_name name); cbn [negb]; [|by intros [= <- <-]].
  destruct (eq_str _ _); [by intros [= <- <-]|]. destruct (hashable _); cbn [negb]; [|by intros [= <- <-]].
  unfold gets. destruct (assoc_get _ _); [|by intros [= <- <-]]. intros [= <- <-]. split; [done|].
  intros x [= <-]. by exists d.
Qed.

Lemma append_grows volume path name :
  grows (λ k, if key_eqb k volume then [FPath path name] else []) (append_file volume path name).
Proof.
  intros s. apply wp_modify. intros _ _. simpl. unfold grow. apply map_ext. intros [k [n v c f]]. cbn [fst snd].
  unfold add_files, add_file. cbn. destruct (key_eqb k volume); simpl; by rewrite ?app_nil_r.
Qed.

Lemma destination_grows configuration destination :
  grows (stages_into destination) (apply_destination configuration destination).
Proof.
  unfold apply_destination. apply (grows_after (λ ty, ∃ d, destination = VDict d ∧ get_or_null "type" d = ty)).
  { intros s r s' [= <- <-]. split; [done|]. intros ty H. destruct destination as [| | | | |d|]; try done. exists d. split; [done|].
    simpl in H. unfold get_or_null. destruct (dict_get "type" d); [|done]. by injection H. }
  intros ty (d & -> & Hty). unfold stages_into. rewrite Hty.
  destruct (eq_str ty "json") eqn:Hj; [|destruct (eq_str ty "env") eqn:He; [|destruct (eq_str ty "file") eqn:Hf]].
  - eapply grows_after; [apply staged_result|]. intros [[path name] volume] (d' & [= <-] & Hn & Hv & Hp).
    cbn [fst snd orb andb] in *. subst path volume. rewrite Hn.
    apply grows_quiet; [done|]. intros v. apply grows_quiet; [apply quiet_render_json|]. intros w.
    apply grows_quiet; [apply quiet_write|]. intros _. apply append_grows.
  - apply eq_str_true in He as ->. apply grows_none. change (quiet (env_destination configuration (VDict d))).
    unfold env_destination. apply undeployed_bind; [done|]. intros _. apply undeployed_bind; [done|]. intros container.
    apply undeployed_bind; [apply quiet_change|]. intros _. apply undeployed_bind; [done|]. intros v. apply undeployed_bind; [done|].
    intros key. apply quiet_change.
  - eapply grows_after; [apply staged_result|]. intros [[path name] volume] (d' & [= <-] & Hn & Hv & Hp).
    cbn [fst snd orb andb] in *. subst path volume. rewrite Hn.
    apply grows_quiet; [done|]. intros _. do 3 (apply grows_quiet; [done|]; intros ?).
    apply grows_quiet; [apply quiet_render|]. intros w. apply grows_quiet; [apply quiet_write|]. intros _. apply append_grows.
  - by apply grows_none.
Qed.

(** A list of configurations as the manager sends it. *)
Definition configuration_ok (c : value) : Prop :=
  ∃ d, c = VDict d ∧ (dict_get "destinations" d = None ∨ ∃ ds, dict_get "destinations" d = Some (VList ds)).

Lemma apply_grows cs : Forall configuration_ok cs → grows (staged_for cs) (apply_configuration (VList cs)).
Proof.
  intros Hcs. apply (grows_after (λ l, l = cs)); [by intros s r s' [= <- <-]; split; [done|intros l [= <-]]|].
  intros _ ->. apply grows_forS. intros c Hc. rewrite Forall_forall in Hcs. destruct (Hcs c Hc) as (d & -> & Hd).
  unfold configuration_destinations.
  apply (grows_after (λ d', d' = d)); [by intros s r s' [= <- <-]; split; [done|intros l [= <-]]|]. intros _ ->.
  destruct Hd as [Hd|[ds Hd]]; rewrite Hd; unfold default, from_option, id; [by apply grows_none|].
  apply (grows_after (λ l, l = ds)); [by intros s r s' [= <- <-]; split; [done|intros l [= <-]]|]. intros _ ->.
  apply grows_forS. intros x _. apply destination_grows.
Qed.
(** Where the key [greffon_nginx] is the only one for a docker volume, no volume of
    that name gets a file. *)
Definition sidecar_kept (s s' : deploy) : Prop :=
  ∀ docker_name, (∀ kv, kv ∈ volumes s → v_value kv.2 = docker_name → kv.1 = VStr "greffon_nginx") →
    Forall2 (λ kv kv', v_value kv'.2 = docker_name → v_files kv'.2 = v_files kv.2) (volumes s) (volumes s').

Lemma contained_sidecar s s' : contained s s' → sidecar_kept s s'.
Proof.
  intros [_ Hv _] docker_name Hkey. revert Hkey. induction Hv as [|kv kv' l l' (_ & _ & Hval & _ & new & Hf & _ & Hn) _ IH];
    intros Hkey; constructor.
  - intros Hd. rewrite Hf, Hn, app_nil_r; [done|]. apply Hkey; [left|congruence].
  - apply IH. intros x Hx. apply Hkey. by right.
Qed.
End apply.
End Staging.

(** C34: Whatever a request asks for and whichever step fails, baking its
    configuration writes only files [<instance>/config/<bare name>], removes only
    the two compose files, adds files only under the keys of volumes the instance
    declares and never under the key [greffon_nginx], and changes services only in
    their environment; when it ends, each volume has got exactly the files of its
    destinations, in their order. So where no other key stands for the docker volume
    of the certificate, that volume gets no file. An app's own key [nginx_volume]
    does stand for it, and is accepted: [sidecar_reached]. *)
Theorem configuration_contained (inst : string) render_file render_tree data_uri format_other writable
    (cs : list value) (s : Staging.deploy) (Hcs : Forall Staging.configuration_ok cs) :
  wp (Staging.apply_configuration inst render_file render_tree data_uri format_other writable (VList cs))
    (λ r s', Staging.contained inst s s' ∧ Staging.sidecar_kept s s' ∧
             (r = Ok tt → Staging.volumes s' = Staging.grow (Staging.staged_for inst cs) (Staging.volumes s))) s.
Proof.
  eapply wp_mono; [apply wp_conj; [apply Staging.apply_contained|by apply Staging.apply_grows]|].
  intros r s' [Hc H]. split_and!; [done|by eapply Staging.contained_sidecar|]. intros ->. by apply (H tt).
Qed.

(** ** The copies into the volumes *)
Module Copy.

(** The commands and files of [volume.py], in the order they happen. *)
Inductive action : Type :=
  | VolumeLs (volume : string)
  | VolumeCreate (volume : string)
  | ContainerCreate (container volume : string)
  | Stage (path content : string)          (** [mkstemp] and the write *)
  | Cp (source container dest : string)
  | Unlink (path : string)
  | ContainerRm (container : string).

Record node : Type := Node {
  log : list action;                 (** oldest first *)
  temporary : gset string;           (** the staged files there are *)
  fresh : nat;
}.

Section copy.
(** Names that [uuid4] and [mkstemp] make, and what fails after what was done. *)
Context (name_of : nat → string) (fails : list action → action → bool).

Definition act (a : action) (f : gset string → gset string) : M node exc unit :=
  s ← get;
  modify (λ s, Node (log s ++ [a])%list (temporary s) (fresh s));;
  if fails (log s) a then throw (Py "OSError")
  else modify (λ s, Node (log s) (f (temporary s)) (fresh s)).
Definition run (a : action) : M node exc unit := act a id.
Definition new_name : M node exc string :=
  s ← get; modify (λ s, Node (log s) (temporary s) (S (fresh s)));; mret (name_of (fresh s)).

(** [res != ""] of a [CompletedProcess] *)
Definition docker_is_volume_exist (volume : string) : M node exc bool := run (VolumeLs volume);; mret true.
Definition docker_create_volume (volume : string) : M node exc unit := run (VolumeCreate volume).

(** One file: [staged] is the list the [finally] walks, extended before the
    write. *)
Definition copy_file (container : string) (staged : list string) (f : staged_file) :
    M node exc (list string * result exc unit) :=
  match f with
  | FPath src dest => r ← attempt (run (Cp src container dest)); mret (staged, r)
  | FContent content dest =>
      path ← new_name;
      modify (λ s, Node (log s) ({[path]} ∪ temporary s) (fresh s));;
      r ← attempt (run (Stage path content);; run (Cp path container dest));
      mret ((staged ++ [path])%list, r)
  end.

Fixpoint copy_files (container : string) (staged : list string) (files : list staged_file) :
    M node exc (list string * result exc unit) :=
  match files with
  | [] => mret (staged, Ok tt)
  | f :: files =>
      '(staged, r) ← copy_file container staged f;
      match r with Ok _ => copy_files container staged files | Raise e => mret (staged, Raise e) end
  end.

(** [except OSError: warning] *)
Definition unlink (path : string) : M node exc unit :=
  catch (act (Unlink path) (λ t, t ∖ {[path]})) (λ _, mret tt).

Definition docker_copy_file_into_volume (v : volume_info) : M node exc unit :=
  container ← new_name;
  run (ContainerCreate container (v_value v));;
  '(staged, r) ← copy_files container [] (v_files v);
  forS staged unlink;;
  lift r;;
  run (ContainerRm container).

Definition create_volumes_then_copy_files (vs : list (value * volume_info)) : M node exc unit :=
  forS vs (λ kv,
    ok ← docker_is_volume_exist (v_value kv.2);
    when (negb ok) (docker_create_volume (v_value kv.2));;
    docker_copy_file_into_volume kv.2).

(** *** What is left on the node *)

(** The removal of a staged file was tried and failed. *)
Definition left_behind (s : node) (p : string) : Prop :=
  ∃ l, (l ++ [Unlink p])%list `prefix_of` log s ∧ fails l (Unlink p) = true.

(** Every staged file was there before, is still to be removed, or could not be. *)
Definition cover (t0 : gset string) (todo : list string) (s : node) : Prop :=
  ∀ p, p ∈ temporary s → p ∈ t0 ∨ p ∈ todo ∨ left_behind s p.

Lemma left_behind_mono s s' p : log s `prefix_of` log s' → left_behind s p → left_behind s' p.
Proof. intros Hl (l & Hp & Hf). exists l. split; [by etransitivity|done]. Qed.

Lemma act_cover t0 todo todo' a f s :
  cover t0 todo s →
  (∀ s', log s' = (log s ++ [a])%list → temporary s' = temporary s → fails (log s) a = true → cover t0 todo' s') →
  (∀ s', log s' = (log s ++ [a])%list → temporary s' = f (temporary s) → cover t0 todo' s') →
  wp (act a f) (λ _ s', cover t0 todo' s') s.
Proof.
  intros Hs Hraise Hok. unfold act. apply wp_bind, wp_get, wp_bind, wp_modify. cbn beta.
  destruct (fails (log s) a) eqn:Hf; [apply wp_throw, Hraise; done|]. by apply wp_modify, Hok.
Qed.

Lemma cover_same t0 todo s s' :
  cover t0 todo s → log s `prefix_of` log s' → temporary s' = temporary s → cover t0 todo s'.
Proof.
  intros H Hl Ht p Hp. rewrite Ht in Hp. destruct (H p Hp) as [?|[?|?]]; auto. right. right. by eapply left_behind_mono.
Qed.

Lemma run_cover t0 todo a s : cover t0 todo s → wp (run a) (λ _ s', cover t0 todo s') s.
Proof.
  intros Hs. apply (act_cover t0 todo); [done|..]; intros s' Hl Ht; intros; eapply cover_same; try done; rewrite Hl;
    by apply prefix_app_r.
Qed.

Lemma new_name_cover t0 todo s : cover t0 todo s → wp new_name (λ r s', ∃ n, r = Ok n ∧ cover t0 todo s') s.
Proof.
  intros Hs. apply wp_bind, wp_get, wp_bind, wp_modify, wp_ret. eexists. split; [done|]. by apply (cover_same _ _ s).
Qed.

Lemma copy_file_cover t0 container staged f s :
  cover t0 staged s →
  wp (copy_file container staged f) (λ r s', ∃ x, r = Ok x ∧ cover t0 x.1 s') s.
Proof.
  intros Hs. destruct f as [src dest|content dest]; simpl.
  - apply wp_bind, wp_attempt. eapply wp_mono; [by apply run_cover|]. intros r s' H. apply wp_ret. by eexists.
  - apply wp_bind. eapply wp_mono; [by apply new_name_cover|]. intros r s1 (path & -> & H1).
    apply wp_bind, wp_modify. apply wp_bind, wp_attempt.
    set (s2 := Node _ _ _). assert (cover t0 (staged ++ [path])%list s2) as H2.
    { intros p Hp. unfold s2 in Hp. simpl in Hp. rewrite elem_of_union, elem_of_singleton in Hp. rewrite elem_of_app, elem_of_cons.
      destruct Hp as [->|Hp]; [by auto|]. destruct (H1 p Hp) as [?|[?|?]]; auto. }
    apply wp_bind. eapply wp_mono; [by apply run_cover|]. intros [u|e] s3 H3.
    + eapply wp_mono; [by apply run_cover|]. intros r s4 H4. apply wp_ret. by eexists.
    + apply wp_ret. by eexists.
Qed.

Lemma copy_files_cover t0 container files : ∀ staged s,
  cover t0 staged s →
  wp (copy_files container staged files) (λ r s', ∃ x, r = Ok x ∧ cover t0 x.1 s') s.
Proof.
  induction files as [|f files IH]; intros staged s Hs; simpl; [apply wp_ret; by eexists|].
  apply wp_bind. eapply wp_mono; [by apply copy_file_cover|]. intros r s1 ([staged' [u|e]] & -> & H1).
  - by apply IH.
  - apply wp_ret. by eexists.
Qed.

Lemma unlink_cover t0 staged : ∀ s, cover t0 staged s → wp (forS staged unlink) (λ r s', r = Ok tt ∧ cover t0 [] s') s.
Proof.
  induction staged as [|path staged IH]; intros s Hs; simpl; [by apply wp_ret|].
  assert (∀ s', log s `prefix_of` log s' → (∀ q, q ∈ temporary s' → q ∈ temporary s) →
    (path ∈ temporary s' → left_behind s' path) → cover t0 staged s') as Hnext.
  { intros s' Hl Ht Hpath q Hq. destruct (Hs q (Ht q Hq)) as [?|[Hin|?]]; [by auto| |right; right; by eapply left_behind_mono].
    apply elem_of_cons in Hin as [->|?]; auto. }
  apply wp_bind. unfold unlink at 1. apply wp_catch.
  assert (wp (act (Unlink path) (λ t, t ∖ {[path]})) (λ _ s', cover t0 staged s') s) as Hact.
  { apply (act_cover t0 (path :: staged)); [done|..]; intros s' Hl Ht.
    - intros Hf. apply Hnext; [rewrite Hl; by apply prefix_app_r|by rewrite Ht|]. intros _. exists (log s). by rewrite Hl.
    - apply Hnext; [rewrite Hl; by apply prefix_app_r| |]; rewrite Ht.
      + by intros q [? _]%elem_of_difference.
      + intros [_ H]%elem_of_difference. by rewrite elem_of_singleton in H. }
  eapply wp_mono; [exact Hact|]. intros [u|e] s1 H1; [by apply IH|]. apply wp_ret. by apply IH.
Qed.

Lemma copy_cover t0 v s : cover t0 [] s → wp (docker_copy_file_into_volume v) (λ _ s', cover t0 [] s') s.
Proof.
  intros Hs. apply wp_bind. eapply wp_mono; [by apply new_name_cover|]. intros r s1 (container & -> & H1).
  apply wp_bind. eapply wp_mono; [by apply run_cover|]. intros [u|e] s2 H2; [|done].
  apply wp_bind. eapply wp_mono; [by apply copy_files_cover|]. intros r s3 ([staged res] & -> & H3).
  apply wp_bind. eapply wp_mono; [by apply unlink_cover|]. intros r s4 [-> H4].
  apply wp_bind, wp_lift. destruct res as [u'|e]; [|done]. by apply run_cover.
Qed.

Lemma copies_cover t0 vs s : cover t0 [] s → wp (create_volumes_then_copy_files vs) (λ _ s', cover t0 [] s') s.
Proof.
  intros Hs. eapply wp_mono; [apply (wp_forS _ _ (cover t0 []) (λ _, cover t0 [])); [|done]|by intros []].
  intros [k v] s1 _ H1. apply wp_bind. unfold docker_is_volume_exist. apply wp_bind.
  eapply wp_mono; [by apply run_cover|]. intros [u|e] s2 H2; [|done]. apply wp_ret. cbn [negb snd].
  apply wp_bind, wp_ret. eapply wp_mono; [by apply copy_cover|]. by intros [].
Qed.
End copy.
End Copy.

(** Copying files into the volumes leaves none of the staged files behind, which
    include the instance's unencrypted private key: whatever command fails and
    wherever, every staged file that is on the node afterwards was there before or
    is one whose removal was tried and failed. *)
Theorem staged_keys_removed name_of fails (vs : list (value * volume_info)) (s : Copy.node) :
  wp (Copy.create_volumes_then_copy_files name_of fails vs)
    (λ _ s', ∀ p, p ∈ Copy.temporary s' → p ∈ Copy.temporary s ∨ Copy.left_behind fails s' p) s.
Proof.
  eapply wp_mono; [apply (Copy.copies_cover name_of fails (Copy.temporary s)); by left|].
  intros r s' H p Hp. destruct (H p Hp) as [?|[Hn|?]]; [by left|by apply elem_of_nil in Hn|by right].
Qed.

(** ** The docker-compose children *)
Module Compose.

Definition _COMPOSE_ENV_ALLOWLIST : list string :=
  ["PATH"; "HOME"; "DOCKER_HOST"; "DOCKER_CONFIG"; "DOCKER_CERT_PATH"; "DOCKER_TLS_VERIFY"].

(** The environment of every child, from that of the process. *)
Definition compose_env (environ : list (string * string)) : list (string * string) :=
  List.filter (λ kv, mem kv.1 _COMPOSE_ENV_ALLOWLIST) environ.

(** A child process: its words and its environment. *)
Record child : Type := Child { argv : list string; env : list (string * string) }.

Definition compose_file (root id : string) : string := path_join (path_join root id) "docker-compose.yml".
Definition compose_child (environ : list (string * string)) (root id : string) (words : list string) : child :=
  Child (["docker-compose"; "-p"; id; "-f"; compose_file root id] ++ words)%list (compose_env environ).

Definition start environ root id : child := compose_child environ root id ["up"; "-d"].
Definition stop environ root id : child := compose_child environ root id ["stop"].

(** [None] when there is no compose file. *)
Definition down environ root id (exists_ : string → bool) : option child :=
  if exists_ (compose_file root id) then Some (compose_child environ root id ["down"; "-v"; "--remove-orphans"]) else None.

Lemma env_allowed environ k v : (k, v) ∈ compose_env environ → k ∈ _COMPOSE_ENV_ALLOWLIST.
Proof. unfold compose_env. rewrite list_elem_of_In. intros [_ H]%filter_In. by apply bool_decide_eq_true in H. Qed.
End Compose.

(** ** The status of an instance *)
Module Status.

Definition STATUS_IGNORE_LABEL : string := "com.greffon.status".
Definition STATUS_IGNORE_VALUE : string := "ignore".
Definition _COMPOSE_SERVICE_LABEL : string := "com.docker.compose.service".

(** What the daemon says of a container; [State] and [HostConfig] may miss. *)
Record container : Type := Container {
  name : string;
  labels : gmap string string;
  c_status : string;
  state_status : option string;
  exit_code : option Z;
  restart_policy : option string;
}.

Definition _service_name (c : container) : string :=
  match labels c !! _COMPOSE_SERVICE_LABEL with
  | Some s => if String.eqb s "" then name c else s
  | None => name c
  end.

Definition _exit_code (c : container) : option Z :=
  if bool_decide (state_status c = Some "exited") then exit_code c else None.

Definition _is_completed_one_shot (c : container) : bool :=
  String.eqb (c_status c) "exited" && bool_decide (exit_code c = Some 0%Z)
  && bool_decide (restart_policy c = Some "no" ∨ restart_policy c = Some "").

Definition _ignore_for_status (c : container) : bool :=
  contains "migrate" (name c) || bool_decide (labels c !! STATUS_IGNORE_LABEL = Some STATUS_IGNORE_VALUE).

Record status : Type := St {
  aggregate : string;
  containers : list string;
  completed : list string;
  exited : list (string * option Z);
}.

(** The variables of the loop. *)
Record scan : Type := Scan {
  s_containers : list string; s_completed : list string; s_exited : list (string * option Z);
  is_all_stopped : bool; is_all_running : bool; saw_any : bool;
}.

Definition look (s : scan) (c : container) : scan :=
  if _ignore_for_status c then s
  else
    let gone := (_service_name c, _exit_code c) in
    if _is_completed_one_shot c then
      Scan (s_containers s) (s_completed s ++ [_service_name c])%list (s_exited s ++ [gone])%list
        (is_all_stopped s) (is_all_running s) true
    else if String.eqb (c_status c) "running" then
      Scan (s_containers s ++ ["running"])%list (s_completed s) (s_exited s) false (is_all_running s) true
    else
      Scan (s_containers s ++ ["stopped"])%list (s_completed s) (s_exited s ++ [gone])%list
        (is_all_stopped s) false true.

(** [cs] is what docker lists for the filter [name=<id>]. *)
Definition get_status (cs : list container) : status :=
  let s := foldl look (Scan [] [] [] true true false) cs in
  St (if negb (saw_any s) then "unknow"
      else if is_all_running s && negb (is_all_stopped s) then "running"
      else if is_all_stopped s then "stopped" else "unknow")
    (s_containers s) (s_completed s) (s_exited s).

(** *** The reference *)

(** The containers that count, and those of them that are not finished
    one-shots. *)
Definition counted (cs : list container) : list container := List.filter (λ c, negb (_ignore_for_status c)) cs.
Definition live (cs : list container) : list container :=
  List.filter (λ c, negb (_is_completed_one_shot c)) (counted cs).
Definition runs (c : container) : bool := String.eqb (c_status c) "running".

Definition aggregate_of (cs : list container) : string :=
  if bool_decide (counted cs = []) then "unknow"
  else if existsb runs (live cs) then if forallb runs (live cs) then "running" else "unknow"
  else "stopped".

Definition status_of (cs : list container) : status :=
  St (aggregate_of cs)
    (map (λ c, if runs c then "running" else "stopped") (live cs))
    (map _service_name (List.filter _is_completed_one_shot (counted cs)))
    (map (λ c, (_service_name c, _exit_code c))
      (List.filter (λ c, _is_completed_one_shot c || negb (runs c)) (counted cs))).

Definition scan_of (cs : list container) : scan :=
  Scan (containers (status_of cs)) (completed (status_of cs)) (exited (status_of cs))
    (negb (existsb runs (live cs))) (forallb runs (live cs)) (negb (bool_decide (counted cs = []))).

Lemma counted_snoc cs c : counted (cs ++ [c])%list = (counted cs ++ if _ignore_for_status c then [] else [c])%list.
Proof. unfold counted. rewrite List.filter_app. simpl. by destruct (_ignore_for_status c). Qed.

Lemma snoc_not_nil {A} (l : list A) x : (l ++ [x])%list ≠ [].
Proof. by destruct l. Qed.

Lemma scan_all cs : foldl look (Scan [] [] [] true true false) cs = scan_of cs.
Proof.
  induction cs as [|c cs IH] using rev_ind; [done|]. rewrite foldl_snoc, IH. unfold look, scan_of, status_of, live.
  rewrite counted_snoc. destruct (_ignore_for_status c); [by rewrite app_nil_r|].
  rewrite !List.filter_app, !map_app. cbn [List.filter]. rewrite (bool_decide_false _ (snoc_not_nil _ _)).
  cbn [containers completed exited s_containers s_completed s_exited is_all_stopped is_all_running].
  destruct (_is_completed_one_shot c) eqn:Hc; cbn [negb orb map].
  - by rewrite !app_nil_r.
  - rewrite existsb_app, forallb_app, negb_orb. change (String.eqb (c_status c) "running") with (runs c).
    destruct (runs c) eqn:Hr; cbn [negb map existsb forallb]; rewrite Hr, ?app_nil_r; cbn [negb orb andb];
      rewrite ?andb_true_r, ?andb_false_r; done.
Qed.

Lemma get_status_of cs : get_status cs = status_of cs.
Proof.
  unfold get_status. rewrite scan_all. unfold scan_of, status_of, aggregate_of.
  cbn [saw_any is_all_running is_all_stopped s_containers s_completed s_exited]. f_equal. rewrite negb_involutive.
  destruct (bool_decide (counted cs = [])); [done|]. rewrite negb_involutive.
  destruct (existsb runs (live cs)), (forallb runs (live cs)); done.
Qed.

Lemma live_nil cs : counted cs = [] → live cs = [].
Proof. unfold live. by intros ->. Qed.

Lemma existsb_Forall l : existsb runs l = false ↔ Forall (λ c, runs c = false) l.
Proof.
  rewrite <- not_true_iff_false, existsb_exists, List.Forall_forall. split.
  - intros H c Hc. apply not_true_iff_false. intros Hr. apply H. by exists c.
  - intros H (c & Hc & Hr). by rewrite H in Hr.
Qed.

Lemma aggregate_running cs :
  aggregate_of cs = "running" ↔ live cs ≠ [] ∧ Forall (λ c, runs c = true) (live cs).
Proof.
  unfold aggregate_of. rewrite List.Forall_forall, <- forallb_forall. pose proof (live_nil cs) as Hl.
  destruct (bool_decide_reflect (counted cs = [])) as [Hc|_]; [split; [done|]; intros [H _]; by apply Hl in Hc|].
  destruct (existsb runs (live cs)) eqn:He.
  - destruct (live cs) as [|c l]; [done|]. destruct (forallb runs _); split; try done. by intros [].
  - split; [done|]. intros [Hne Hall]. destruct (live cs) as [|c l]; [done|]. simpl in *. by destruct (runs c).
Qed.

Lemma aggregate_stopped cs :
  aggregate_of cs = "stopped" ↔ counted cs ≠ [] ∧ Forall (λ c, runs c = false) (live cs).
Proof.
  unfold aggregate_of. rewrite <- existsb_Forall.
  destruct (bool_decide_reflect (counted cs = [])) as [Hc|Hc]; [split; [done|by intros []]|].
  destruct (existsb runs (live cs)); [destruct (forallb _ _)|]; split; try done; by intros [].
Qed.
End Status.

(** The status of an instance is that of its containers which are neither
    ignored nor finished one-shots: running when there are such and all run,
    stopped when none of them runs (or none is left), unknow when only some run
    or nothing counts at all; completed lists the finished one-shots and exited
    everything that counts and does not run, in the order of the daemon. *)
Theorem status_aggregate (cs : list Status.container) :
  Status.get_status cs = Status.status_of cs ∧
  (Status.aggregate (Status.get_status cs) = "running" ↔ Status.live cs ≠ [] ∧ Forall (λ c, Status.runs c = true) (Status.live cs)) ∧
  (Status.aggregate (Status.get_status cs) = "stopped" ↔ Status.counted cs ≠ [] ∧ Forall (λ c, Status.runs c = false) (Status.live cs)).
Proof.
  rewrite Status.get_status_of. split; [done|]. cbn [Status.aggregate Status.status_of].
  split; [apply Status.aggregate_running|apply Status.aggregate_stopped].
Qed.

(** ** Concrete instances *)
Module Demo.
Definition one_file (name type volume : string) : value :=
  VDict [(VStr "type", VStr type); (VStr "name", VStr name); (VStr "volume", VStr volume); (VStr "x-greffon-render", VBool true)].
Definition config (destinations : list value) : value :=
  VDict [(VStr "value", VDict [(VStr "file", VStr "data:,x"); (VStr "k", VStr "v")]); (VStr "destinations", VList destinations)].
Definition declared (id name : string) : value * volume_info :=
  (VStr name, {| v_name := VStr name; v_value := id +:+ "_" +:+ name; v_containers := []; v_files := [] |}).
Definition request : GreffonInfo.request :=
  {| r_id := "ab12"; r_certificate := "PEM"; r_private_key := "KEY"; r_ports := [] |}.
Definition before : Staging.deploy :=
  Staging.Deploy [] [(VStr "greffon_nginx", nginx_volume "/data" request); declared "ab12" "conf"; declared "ab12" "nginx_volume"] ∅.

Definition rendered (raw : string) : result Staging.failure string := Ok ("<" +:+ raw +:+ ">").
Definition zero_division : result Staging.failure value := Raise (Staging.Failure "ZeroDivisionError" false).
Definition undefined : result Staging.failure value := Raise (Staging.Failure "UndefinedError" true).
Definition apply (tree : result Staging.failure value) (cs : list value) : result exc unit * Staging.deploy :=
  Staging.apply_configuration "/data/ab12" rendered (λ _, tree) (λ _, Ok "x") (λ _, "?") (λ _, true) (VList cs) before.

Example escape_refused :
  (apply undefined [config [one_file "../other/x" "file" "conf"]]).1 = Raise (ConfigRenderError "destination name must be a bare file name").
Proof. vm_compute. reflexivity. Qed.
Example sidecar_refused :
  (apply undefined [config [one_file "cert.key" "file" "greffon_nginx"]]).1 = Raise (ConfigRenderError "destination volume holds the instance certificate").
Proof. vm_compute. reflexivity. Qed.

(** The docker volume of the sidecar is [ab12_nginx_volume]: a volume the app
    calls nginx_volume is the same one, and a file baked into it as cert.key is
    copied after the key of the instance. *)
Example sidecar_reached :
  let vs := Staging.volumes (apply undefined [config [one_file "cert.key" "file" "nginx_volume"]]).2 in
  map (λ kv, (v_value kv.2, v_files kv.2)) vs =
  [("ab12_nginx_volume", [FPath "/data/ab12/nginx.conf" "nginx.conf"; FContent "PEM" "pem.crt"; FContent "KEY" "cert.key"]);
   ("ab12_conf", []); ("ab12_nginx_volume", [FPath "/data/ab12/config/cert.key" "cert.key"])].
Proof. vm_compute. reflexivity. Qed.

(** A missing variable in a json destination whose value is an object leaves as
    itself, in a file destination as the refusal. *)
Example json_failure_escapes :
  (apply undefined [config [one_file "c.json" "json" "conf"]]).1 = Raise (Py "UndefinedError").
Proof. vm_compute. reflexivity. Qed.

Definition box (name : string) (labels : gmap string string) (status : string) (code : Z) (policy : string) : Status.container :=
  Status.Container name labels status (Some status) (Some code) (Some policy).
Definition ignored : gmap string string := {[ "com.greffon.status" := "ignore" ]}.

Example seed_and_app :
  Status.get_status [box "a_app_1" ∅ "running" 0 "always"; box "a_seed_1" ∅ "exited" 0 "no"; box "a_job_1" ignored "exited" 1 "no"]
  = Status.St "running" ["running"] ["a_seed_1"] [("a_seed_1", Some 0%Z)].
Proof. vm_compute. reflexivity. Qed.
(** An instance whose containers all carry the label is unknow, not stopped. *)
Example all_labelled : Status.aggregate (Status.get_status [box "a_job_1" ignored "exited" 0 "no"]) = "unknow".
Proof. vm_compute. reflexivity. Qed.

(** The second of three copies fails: the key is gone from the node. *)
Definition fails_at (n : nat) (l : list Copy.action) (_ : Copy.action) : bool := bool_decide (length l = n).
Example key_removed_after_failure :
  let s := (Copy.create_volumes_then_copy_files (λ n, "t" +:+ pretty n) (fails_at 6) [(VStr "greffon_nginx", nginx_volume "/data" request)]
              (Copy.Node [] ∅ 0)).2 in
  (Copy.temporary s, last (Copy.log s)) = (∅, Some (Copy.Unlink "t2")).
Proof. vm_compute. reflexivity. Qed.
End Demo.

Lemma configuration_contained_witness :
  let cs := [Demo.config [Demo.one_file "app.conf" "file" "conf"; Demo.one_file "c.json" "json" "conf"]] in
  let s' := (Demo.apply (Ok VNull) cs).2 in
  Staging.contained "/data/ab12" Demo.before s' ∧
  Staging.volumes s' = Staging.grow (Staging.staged_for "/data/ab12" cs) (Staging.volumes Demo.before).
Proof.
  intros cs s'.
  destruct (configuration_contained "/data/ab12" Demo.rendered (λ _, Ok VNull) (λ _, Ok "x") (λ _, "?") (λ _, true) cs Demo.before) as (Hc & _ & Hv).
  { repeat constructor. eexists. split; [reflexivity|]. right. eexists. reflexivity. }
  split; [exact Hc|]. apply Hv. vm_compute. reflexivity.
Defined.
