(* ===== verification/Workers.v ===== *)
(** The background tasks of [app/workers] and how they hand the node's liveness to
    one another: registration ([register.py]), its supervisor, the heartbeat
    ([heartbeat.py]), the status monitor ([monitor.py], [status_collect.py]), the
    watchdog ([watchdog.py]) and the readiness it watches ([app/readiness.py]).

    The tasks share one event loop, so what runs between two [await]s is atomic: a
    task is a position in its code, an event is an awaited call of one task that
    has answered, and [step] runs that task to its next [await].  A schedule is
    any list of events, so a theorem over all schedules covers every interleaving
    and every answer of the manager, of docker and of the clock (and a few the
    code has not: an [await] that need not wait is a position all the same). *)
From Stdlib Require Import Ascii String Sorted.
From S2P Require Import Prelude PyValue.
Local Open Scope list_scope.
Local Open Scope Z_scope.

(** ** The token file *)
Module Token.

(** What reading [.greffer-token] gives: no file, another [OSError], bytes that
    are not UTF-8, or the text. *)
Inductive token_file : Type := NoFile | Unreadable | Undecodable | Text_ (content : string).

(** [None] is the [UnicodeDecodeError], which the [except OSError] lets through. *)
Definition load_persisted_token (f : token_file) : option (option string) :=
  match f with
  | NoFile | Unreadable => Some None
  | Undecodable => None
  | Text_ content => let existing := Text.strip content in Some (if String.eqb existing "" then None else Some existing)
  end.

(** The token of a boot and the file after it, [None] when the boot fails;
    [minted] is the random token and [writable] whether it could be written. *)
Definition load_or_create_token (f : token_file) (minted : string) (writable : bool) : option (string * token_file) :=
  let create := Some (minted, if writable then Text_ minted else f) in
  match f with
  | NoFile => create
  | Unreadable => Some (minted, f)
  | Undecodable => None
  | Text_ content => let existing := Text.strip content in if String.eqb existing "" then create else Some (existing, f)
  end.

(** A boot: what the file is when it starts is what the boot before left. *)
Fixpoint boots (f : token_file) (bs : list (string * bool)) : option (list string) :=
  match bs with
  | [] => Some []
  | (minted, writable) :: bs =>
      match load_or_create_token f minted writable with
      | None => None
      | Some (t, f) => option_map (cons t) (boots f bs)
      end
  end.

(** Once a token is on disk every boot presents it. *)
Lemma boots_stable content bs :
  Text.strip content ≠ ""%string → boots (Text_ content) bs = Some (replicate (length bs) (Text.strip content)).
Proof.
  intros Hne. induction bs as [|[minted writable] bs IH]; [done|]. cbn [boots load_or_create_token length replicate].
  destruct (String.eqb_spec (Text.strip content) ""); [done|]. by rewrite IH.
Qed.

(** So a first boot that could write fixes the identity of the node for good. *)
Lemma first_boot_decides minted bs :
  Text.strip minted = minted → minted ≠ ""%string →
  boots NoFile ((minted, true) :: bs) = Some (minted :: replicate (length bs) minted).
Proof.
  intros Hm Hne. pose proof (boots_stable minted bs) as H. rewrite Hm in H. cbn [boots load_or_create_token].
  by rewrite H.
Qed.

(** An undecodable file is neither read nor replaced: the boot fails. *)
Example undecodable_boot : load_or_create_token Undecodable "tok" true = None.
Proof. reflexivity. Qed.
End Token.
Import Token.

(** ** Registration *)
Module Registration.

(** Delays are in seconds; the code's are floats of these values. *)
Definition _REGISTER_RETRY_SECONDS : Z := 3.
Definition _REGISTER_RETRY_MAX_SECONDS : Z := 60.
Definition _CERT_POLL_SECONDS : Z := 5.
Definition _CERT_LOG_HEARTBEAT_EVERY : Z := 12.

Definition backed_off (delay : Z) : Z := Z.min (delay * 2) _REGISTER_RETRY_MAX_SECONDS.

(** Where [_run_registration] waits, within the retry loop of [register_worker]
    or of [reregister_worker], whose delay is [outer]. *)
Inductive position : Type :=
  | Resolving (outer : Z)
  | Posting (outer delay : Z) (token : string)
  | PostSleep (outer delay : Z)
  | Polling (outer : Z) (token : string) (last_status : option Z) (same_status_polls : Z)
  | PollSleep (outer : Z) (token : string) (last_status : option Z) (same_status_polls : Z)
  | Installing (outer : Z) (serial : value)
  | TunnelConfig (outer : Z)
  | FetchingCrl (outer : Z)
  | OuterSleep (outer : Z).

(** What an awaited call of a registration answers.  [Unreachable] is a
    [ConnectionError] or a [Timeout], [Failed] any other exception. *)
Inductive answer : Type :=
  | Address
  | Accepted
  | Rejected (status : Z)
  | Certificate (serial : value)
  | NoCertificate (status : Z)
  | Done                     (** the sleep or the call is over *)
  | Unreachable
  | Failed.

(** A line about the certificate poll: the status and whether it is new. *)
Definition poll_line : Type := Z * bool.

(** What is logged of a poll without a certificate, and the throttle after it. *)
Definition throttle (status : Z) (last : option Z) (same : Z) : list poll_line * (option Z * Z) :=
  if bool_decide (last = Some status) then
    let same := same + 1 in
    (if same mod _CERT_LOG_HEARTBEAT_EVERY =? 0 then [(status, false)] else [], (last, same))
  else ([(status, true)], (Some status, 0)).

(** The part of [app.state] that registration and heartbeat share. *)
Record app : Type := App {
  greffer_token : string;
  registered : bool;                 (** [asyncio.Event] *)
  reregister_requested : bool;       (** [asyncio.Event] *)
  installed_cert_serial : value;
}.
Definition with_token (t : string) (a : app) : app :=
  App t (registered a) (reregister_requested a) (installed_cert_serial a).
Definition with_serial (v : value) (a : app) : app :=
  App (greffer_token a) (registered a) (reregister_requested a) v.
Definition with_registered (b : bool) (a : app) : app :=
  App (greffer_token a) b (reregister_requested a) (installed_cert_serial a).
Definition with_request (b : bool) (a : app) : app :=
  App (greffer_token a) (registered a) b (installed_cert_serial a).

(** [except Exception]: log, sleep, and double the delay of the next failure. *)
Definition retry_whole (outer : Z) : position := OuterSleep outer.

(** [pinned] is the token of the settings, empty when there is none; [persisted]
    what is on disk when a registration reads it.  [None] is the exception of an
    undecodable file. *)
Definition _inflight_token (pinned : string) (persisted : token_file) (a : app) : option string :=
  if negb (String.eqb pinned "") then Some pinned
  else option_map (default (greffer_token a)) (load_persisted_token persisted).

(** The top of the [while] of phase 1, up to the POST. *)
Definition post (pinned : string) (persisted : token_file) (outer delay : Z) (a : app) : position * app :=
  match _inflight_token pinned persisted a with
  | Some token => (Posting outer delay token, with_token token a)
  | None => (retry_whole outer, a)
  end.

(** One awaited call of a registration answers: where it waits next, or [None]
    when it has returned.  [persisted] is the token on disk at that moment. *)
Definition advance (pinned : string) (persisted : token_file) (p : position) (r : answer) (a : app) :
    option position * app * list poll_line :=
  match p, r with
  | Resolving outer, Address =>
      let '(p, a) := post pinned persisted outer _REGISTER_RETRY_SECONDS a in (Some p, a, [])
  | Posting outer _ token, Accepted => (Some (Polling outer token None 0), a, [])
  | Posting outer delay _, Unreachable => (Some (PostSleep outer delay), a, [])
  | Posting outer delay _, Rejected _ => (Some (PostSleep outer delay), a, [])
  | PostSleep outer delay, Done =>
      let '(p, a) := post pinned persisted outer (backed_off delay) a in (Some p, a, [])
  | Polling outer token last same, Unreachable => (Some (PollSleep outer token last same), a, [])
  | Polling outer token last same, NoCertificate status =>
      let '(lines, (last, same)) := throttle status last same in (Some (PollSleep outer token last same), a, lines)
  | Polling outer _ _ _, Certificate serial => (Some (Installing outer serial), a, [])
  | PollSleep outer token last same, Done => (Some (Polling outer token last same), a, [])
  | Installing outer serial, Done => (Some (TunnelConfig outer), with_serial serial a, [])
  | TunnelConfig outer, Done => (Some (FetchingCrl outer), a, [])
  | FetchingCrl outer, Done => (None, with_registered true a, [])
  | OuterSleep outer, Done => (Some (Resolving (backed_off outer)), a, [])
  (** Anything else an awaited call of the [try] raises. *)
  | (Resolving outer | Installing outer _), (Failed | Unreachable) => (Some (retry_whole outer), a, [])
  | (Posting outer _ _ | Polling outer _ _ _), Failed => (Some (retry_whole outer), a, [])
  | _, _ => (Some p, a, [])
  end.
End Registration.
Import Registration.

(** ** The heartbeat and the three tasks together *)

(** Waiting for the [registered] event, collecting the payload in the thread, the
    POST with the token it read, the sleep between beats. *)
Inductive beat : Type := Parked | Collecting | Beating (token : string) | Resting.

(** What the POST of a beat gives: a status, or a connection error, or any other
    exception. *)
Inductive beat_answer : Type := Answered (status : Z) | NoManager | Broken.

Record node : Type := Node {
  state : app;
  register : option position;        (** [None]: [register_worker] has returned *)
  supervisor : option position;      (** [None]: waiting for a request *)
  heartbeat : beat;
  seq : Z;
  staged : option string;            (** the token of the last accepted registration *)
  beats : list (string * option string);   (** newest first: the token sent and the one staged *)
}.

Inductive event : Type :=
  | Register (persisted : token_file) (r : answer)
  | Supervisor (persisted : token_file) (r : answer)
  | Wake                             (** the event the idle supervisor waits for *)
  | Beat                             (** the heartbeat leaves the wait it is in, or its thread reads the token *)
  | BeatAnswer (r : beat_answer).

(** What the manager keeps when it accepts a registration. *)
Definition stages (p : position) (r : answer) (old : option string) : option string :=
  match p, r with Posting _ _ token, Accepted => Some token | _, _ => old end.

(** After a beat was answered; the loop then sleeps. *)
Definition after_beat (r : beat_answer) (a : app) : app :=
  match r with
  | Answered 403 => with_request true (with_registered false a)
  | _ => a
  end.

Definition start_node (token : string) : node :=
  Node (App token false false VNull) (Some (Resolving _REGISTER_RETRY_SECONDS)) None Parked 0 None [].

Definition step (pinned : string) (n : node) (e : event) : node :=
  match e with
  | Register persisted r =>
      match register n with
      | Some p =>
          let '(p', a, _) := advance pinned persisted p r (state n) in
          Node a p' (supervisor n) (heartbeat n) (seq n) (stages p r (staged n)) (beats n)
      | None => n
      end
  | Supervisor persisted r =>
      match supervisor n with
      | Some p =>
          let '(p', a, _) := advance pinned persisted p r (state n) in
          Node a (register n) p' (heartbeat n) (seq n) (stages p r (staged n)) (beats n)
      | None => n
      end
  | Wake =>
      match supervisor n with
      | None =>
          if reregister_requested (state n) then
            Node (with_request false (state n)) (register n) (Some (Resolving _REGISTER_RETRY_SECONDS))
              (heartbeat n) (seq n) (staged n) (beats n)
          else n
      | Some _ => n
      end
  | Beat =>
      match heartbeat n with
      | Parked =>
          if registered (state n)
          then Node (state n) (register n) (supervisor n) Collecting (seq n + 1) (staged n) (beats n) else n
      | Collecting =>
          let token := greffer_token (state n) in
          Node (state n) (register n) (supervisor n) (Beating token) (seq n) (staged n) ((token, staged n) :: beats n)
      | Resting => Node (state n) (register n) (supervisor n) Parked (seq n) (staged n) (beats n)
      | Beating _ => n
      end
  | BeatAnswer r =>
      match heartbeat n with
      | Beating _ => Node (after_beat r (state n)) (register n) (supervisor n) Resting (seq n) (staged n) (beats n)
      | Collecting =>   (** the thread can also fail before the POST *)
          match r with
          | Broken => Node (state n) (register n) (supervisor n) Resting (seq n) (staged n) (beats n)
          | _ => n
          end
      | _ => n
      end
  end.

Definition run (pinned : string) (n : node) (es : list event) : node := foldl (step pinned) n es.

(** ** What holds of every schedule *)
Section node_facts.
Context (pinned : string).
Implicit Types (n : node) (a : app) (p : position) (es : list event).
Notation step := (step pinned).
Notation run := (run pinned).

Definition bit (b : bool) : nat := if b then 1 else 0.
Definition busy (t : option position) : bool := match t with Some _ => true | None => false end.

(** Who is in charge: the heartbeat that runs, the first registration, a request
    that was not taken up yet, or the supervisor. *)
Definition in_charge n : nat :=
  bit (registered (state n)) + bit (busy (register n)) + bit (reregister_requested (state n)) + bit (busy (supervisor n)).

(** What a registration knows of its token. *)
Definition token_ok (staged : option string) a (t : option position) : Prop :=
  match t with
  | Some (Posting _ _ token) => token = greffer_token a
  | Some (Polling _ token _ _ | PollSleep _ token _ _) => token = greffer_token a ∧ staged = Some token
  | Some (Installing _ _ | TunnelConfig _ | FetchingCrl _) => staged = Some (greffer_token a)
  | _ => True
  end.

Record node_ok n : Prop := {
  one_in_charge : in_charge n = 1%nat;
  beating_registered : match heartbeat n with Collecting | Beating _ => registered (state n) = true | _ => True end;
  registered_staged : registered (state n) = true → staged n = Some (greffer_token (state n));
  register_token : token_ok (staged n) (state n) (register n);
  supervisor_token : token_ok (staged n) (state n) (supervisor n);
  beats_staged : Forall (λ b, b.2 = Some b.1) (beats n);
}.

Lemma start_ok token : node_ok (start_node token).
Proof. split; simpl; auto. done. Qed.

Lemma post_spec persisted outer delay a :
  let '(p, a') := post pinned persisted outer delay a in
  reregister_requested a' = reregister_requested a ∧ registered a' = registered a ∧
  (∀ staged, token_ok staged a' (Some p)) ∧
  (p = OuterSleep outer ∨ p = Posting outer delay (greffer_token a')).
Proof. unfold post. destruct (_inflight_token pinned persisted a); simpl; auto. Qed.

Lemma post_good persisted outer delay a :
  negb (String.eqb pinned "") || match load_persisted_token persisted with Some _ => true | None => false end = true →
  ∃ token, post pinned persisted outer delay a = (Posting outer delay token, with_token token a).
Proof.
  unfold post, _inflight_token. destruct (negb _); simpl; [by eauto|].
  destruct (load_persisted_token persisted); [by eauto|done].
Qed.

(** What a step of a registration changes: the token while it posts, the serial,
    and [registered] when it returns. *)
Lemma advance_spec persisted p r a staged :
  token_ok staged a (Some p) →
  let '(p', a', _) := advance pinned persisted p r a in
  reregister_requested a' = reregister_requested a ∧
  token_ok (stages p r staged) a' p' ∧
  match p' with
  | Some _ => registered a' = registered a
  | None => registered a' = true ∧ stages p r staged = Some (greffer_token a')
  end.
Proof.
  intros H.
  assert (∀ outer delay, stages p r staged = staged →
    let '(p', a') := post pinned persisted outer delay a in
    reregister_requested a' = reregister_requested a ∧ token_ok (stages p r staged) a' (Some p') ∧
    registered a' = registered a) as Hpost.
  { intros outer delay _. pose proof (post_spec persisted outer delay a) as Hp.
    destruct (post _ _ _ _ _) as [p' a']. destruct Hp as (? & ? & ? & _). auto. }
  destruct p, r; simpl in *; try done; try naive_solver.
  - specialize (Hpost outer _REGISTER_RETRY_SECONDS eq_refl). by destruct (post _ _ _ _ _).
  - specialize (Hpost outer (backed_off delay) eq_refl). by destruct (post _ _ _ _ _).
  - unfold throttle. destruct (bool_decide _); simpl; naive_solver.
Qed.

Ltac charge H := unfold in_charge, bit, busy in *; simpl in *.

(** A registration of either task advances. *)
Lemma register_ok n persisted p r :
  register n = Some p → node_ok n → node_ok (step n (Register persisted r)).
Proof.
  intros Hp [H1 H2 H3 H4 H5 H6]. simpl. charge H1. rewrite Hp in *.
  destruct (registered (state n)) eqn:Hr; [lia|]. destruct (reregister_requested (state n)) eqn:Hq; [lia|].
  destruct (supervisor n) eqn:Hs; [lia|].
  pose proof (advance_spec persisted p r (state n) (staged n) H4) as Ha.
  destruct (advance pinned persisted p r (state n)) as [[p' a'] lines]. destruct Ha as (Hq' & Ht & Hp').
  split; charge H1; try done.
  - rewrite Hq', Hq. destruct p' as [p'|]; [by rewrite Hp', Hr|]. destruct Hp' as [-> _]. done.
  - by destruct (heartbeat n).
  - intros Hra. destruct p'; [congruence|]. by destruct Hp'.
Qed.

Lemma supervisor_ok n persisted p r :
  supervisor n = Some p → node_ok n → node_ok (step n (Supervisor persisted r)).
Proof.
  intros Hp [H1 H2 H3 H4 H5 H6]. simpl. charge H1. rewrite Hp in *.
  destruct (registered (state n)) eqn:Hr; [lia|]. destruct (reregister_requested (state n)) eqn:Hq; [lia|].
  destruct (register n) eqn:Hs; [lia|].
  pose proof (advance_spec persisted p r (state n) (staged n) H5) as Ha.
  destruct (advance pinned persisted p r (state n)) as [[p' a'] lines]. destruct Ha as (Hq' & Ht & Hp').
  split; charge H1; try done.
  - rewrite Hq', Hq. destruct p' as [p'|]; [by rewrite Hp', Hr|]. destruct Hp' as [-> _]. done.
  - by destruct (heartbeat n).
  - intros Hra. destruct p'; [congruence|]. by destruct Hp'.
Qed.

Lemma wake_ok n : node_ok n → node_ok (step n Wake).
Proof.
  intros H. pose proof H as [H1 H2 H3 H4 H5 H6]. simpl. destruct (supervisor n) eqn:Hs; [exact H|].
  destruct (reregister_requested (state n)) eqn:Hq; [|exact H].
  charge H1. rewrite Hs, Hq in *. split; charge H1; try done.
  destruct (registered (state n)), (register n); simpl in *; lia.
Qed.

Lemma beat_ok n : node_ok n → node_ok (step n Beat).
Proof.
  intros H. pose proof H as [H1 H2 H3 H4 H5 H6]. simpl. destruct (heartbeat n) eqn:Hb.
  - destruct (registered (state n)) eqn:Hr; [|exact H]. by split; simpl; auto.
  - split; simpl; try done. constructor; [|done]. simpl. by apply H3.
  - exact H.
  - by split; simpl; auto.
Qed.

Lemma beat_answer_ok n r : node_ok n → node_ok (step n (BeatAnswer r)).
Proof.
  intros H. pose proof H as [H1 H2 H3 H4 H5 H6]. simpl. destruct (heartbeat n) eqn:Hb; try exact H.
  { destruct r; try exact H. by split; simpl; auto. }
  assert (after_beat r (state n) = state n ∨ after_beat r (state n) = with_request true (with_registered false (state n)))
    as [Ha|Ha] by (destruct r as [st| |]; simpl; auto; repeat (case_match; auto)); rewrite Ha.
  { by split. }
  charge H1. rewrite H2 in *. destruct (reregister_requested (state n)) eqn:Hq; [lia|].
  destruct (register n) eqn:Hp; [lia|]. destruct (supervisor n) eqn:Hs; [lia|].
  by split; charge H1.
Qed.

Lemma step_ok n e : node_ok n → node_ok (step n e).
Proof.
  intros H. destruct e as [persisted r|persisted r| | |r]; [| |by apply wake_ok|by apply beat_ok|by apply beat_answer_ok].
  - destruct (register n) eqn:Hp; [by eapply register_ok|]. simpl. by rewrite Hp.
  - destruct (supervisor n) eqn:Hp; [by eapply supervisor_ok|]. simpl. by rewrite Hp.
Qed.

Lemma run_ok n es : node_ok n → node_ok (run n es).
Proof. unfold Workers.run. revert n. induction es as [|e es IH]; intros n H; simpl; [done|]. by apply IH, step_ok. Qed.

(** *** Coming back *)

(** How many answers a registration still needs. *)
Definition remaining p : nat :=
  match p with
  | OuterSleep _ => 7 | Resolving _ | PostSleep _ _ => 6 | Posting _ _ _ | PollSleep _ _ _ _ => 5
  | Polling _ _ _ _ => 4 | Installing _ _ => 3 | TunnelConfig _ => 2 | FetchingCrl _ => 1
  end%nat.

(** The answer that takes a registration further; before a POST the token must be
    readable. *)
Definition good_answer (persisted : token_file) p (r : answer) : bool :=
  match p, r with
  | Resolving _, Address | PostSleep _ _, Done =>
      negb (String.eqb pinned "") || match load_persisted_token persisted with Some _ => true | None => false end
  | Posting _ _ _, Accepted | Polling _ _ _ _, Certificate _ => true
  | (PollSleep _ _ _ _ | Installing _ _ | TunnelConfig _ | FetchingCrl _ | OuterSleep _), Done => true
  | _, _ => false
  end.

Definition distance n : nat :=
  if registered (state n) then 0
  else match register n, supervisor n with
       | Some p, _ | None, Some p => remaining p
       | None, None => 7
       end.

(** An event of the task in charge that takes it further, and one of another
    task. *)
Definition helpful n (e : event) : bool :=
  match e with
  | Register persisted r => match register n with Some p => good_answer persisted p r | None => false end
  | Supervisor persisted r => match supervisor n with Some p => good_answer persisted p r | None => false end
  | Wake => reregister_requested (state n) && negb (busy (supervisor n))
  | Beat | BeatAnswer _ => false
  end.
Definition foreign n (e : event) : bool :=
  match e with
  | Register _ _ => negb (busy (register n))
  | Supervisor _ _ => negb (busy (supervisor n))
  | Wake => negb (reregister_requested (state n))
  | Beat | BeatAnswer _ => true
  end.

(** Along a schedule: no event sets the registration back, and how many take it
    further. *)
Fixpoint cooperative n es : bool :=
  match es with [] => true | e :: es => (helpful n e || foreign n e) && cooperative (step n e) es end.
Fixpoint helps n es : nat :=
  match es with [] => 0 | e :: es => (if helpful n e then 1 else 0) + helps (step n e) es end.

Lemma advance_good persisted p r a :
  good_answer persisted p r = true → registered a = false →
  let '(p', a', _) := advance pinned persisted p r a in
  remaining p = S (if registered a' then 0 else match p' with Some p' => remaining p' | None => 7 end) ∧
  (p' = None → registered a' = true) ∧ (p' ≠ None → registered a' = false).
Proof.
  intros Hg Ha. destruct p, r; try discriminate Hg; simpl;
    try (destruct (post_good persisted outer _REGISTER_RETRY_SECONDS a Hg) as [token ->]);
    try (destruct (post_good persisted outer (backed_off delay) a Hg) as [token ->]);
    simpl; rewrite ?Ha; naive_solver.
Qed.

Lemma helpful_closer n e :
  node_ok n → registered (state n) = false → helpful n e = true → distance n = S (distance (step n e)).
Proof.
  intros [H1 _ _ _ _ _] Hr He. destruct e as [persisted r|persisted r| | |r]; try discriminate He; simpl in *.
  - destruct (register n) as [p|] eqn:Hp; [|done]. pose proof (advance_good persisted p r (state n) He Hr) as Ha.
    destruct (advance pinned persisted p r (state n)) as [[p' a'] lines]. destruct Ha as (Hd & Hn & Hs).
    unfold distance. simpl. rewrite Hr, Hp, Hd. destruct p'; [done|]. by rewrite Hn.
  - destruct (supervisor n) as [p|] eqn:Hp; [|done].
    charge H1. rewrite Hr, Hp in H1. destruct (register n) eqn:Hg; [lia|].
    pose proof (advance_good persisted p r (state n) He Hr) as Ha.
    destruct (advance pinned persisted p r (state n)) as [[p' a'] lines]. destruct Ha as (Hd & Hn & Hs).
    unfold distance. simpl. rewrite Hr, Hg, Hp, Hd. destruct p'; [done|]. by rewrite Hn.
  - apply andb_prop in He as [Hq Hb]. charge H1. rewrite Hr, Hq in H1.
    destruct (supervisor n) eqn:Hp; [done|]. destruct (register n) eqn:Hg; [lia|].
    unfold distance. rewrite Hq. simpl. by rewrite Hr, Hg, Hp.
Qed.

Lemma foreign_same n e :
  node_ok n → registered (state n) = false → foreign n e = true → helpful n e = false →
  distance (step n e) = distance n.
Proof.
  intros [H1 H2 _ _ _ _] Hr Hf Hh. destruct e as [persisted r|persisted r| | |r]; simpl in *.
  - by destruct (register n).
  - by destruct (supervisor n).
  - apply negb_true_iff in Hf. rewrite Hf. by destruct (supervisor n).
  - destruct (heartbeat n) eqn:Hb; [|congruence..|].
    + by rewrite Hr.
    + done.
  - destruct (heartbeat n) eqn:Hb; try congruence; try done; by destruct r.
Qed.

Lemma comes_back n es :
  node_ok n → cooperative n es = true → (distance n ≤ helps n es)%nat →
  ∃ pre, pre `prefix_of` es ∧ registered (state (run n pre)) = true.
Proof.
  revert n. induction es as [|e es IH]; intros n Hn Hc Hd.
  - exists []. split; [done|]. simpl in *. unfold distance in Hd. destruct (registered (state n)); [done|].
    destruct (register n) as [[]|], (supervisor n) as [[]|]; simpl in Hd; lia.
  - destruct (registered (state n)) eqn:Hr; [exists []; split; [apply prefix_nil|done]|].
    simpl in Hc, Hd. apply andb_prop in Hc as [He Hc].
    destruct (IH (step n e)) as (pre & Hpre & Hreg); [by apply step_ok|done| |].
    + destruct (helpful n e) eqn:Hh.
      * pose proof (helpful_closer n e Hn Hr Hh). lia.
      * simpl in He. rewrite (foreign_same n e Hn Hr He Hh). done.
    + exists (e :: pre). split; [by apply prefix_cons|done].
Qed.

Lemma distance_bound n : (distance n ≤ 7)%nat.
Proof. unfold distance. destruct (registered _), (register n) as [[]|], (supervisor n) as [[]|]; simpl; lia. Qed.
End node_facts.

(** C24: Under every schedule of the registration, its supervisor and the heartbeat,
    exactly one of them is in charge of the node's liveness (it beats, it
    registers for the first time, it has asked for a registration, or it registers
    again), every beat carries the token of the last registration the manager
    accepted, and after at most seven answers in a row that take the one in charge
    further, whatever the other tasks do meanwhile, the node is registered. *)
Theorem liveness_handed_over (pinned token : string) (es : list event) :
  let n := run pinned (start_node token) es in
  in_charge n = 1%nat ∧ Forall (λ b, b.2 = Some b.1) (beats n) ∧
  ∀ es', cooperative pinned n es' = true → (7 ≤ helps pinned n es')%nat →
    ∃ pre, pre `prefix_of` es' ∧ registered (state (run pinned n pre)) = true.
Proof.
  intros n. assert (node_ok n) as Hn by apply run_ok, start_ok. split_and!; [apply Hn..|].
  intros es' Hc Hh. apply comes_back; [done..|]. pose proof (distance_bound n). lia.
Qed.

(** ** Readiness and the watchdog *)
Module Watchdog.

Definition FATAL_WORKERS : list string :=
  ["greffer-monitor"; "greffer-crl-sync"; "greffer-heartbeat"; "greffer-reregister"; "greffer-cert-renewal"]%string.

Record readiness : Type := Readiness { fatal : bool; reasons : list string }.

Definition status (r : readiness) : string :=
  if fatal r then "fatal" else match reasons r with [] => "ready" | _ => "degraded" end.

(** What a probe sees: whether docker answered the ping, the tasks with whether
    they are done, and the [registered] event. *)
Record sight : Type := Sight { docker_ok : bool; tasks : list (string * bool); is_registered : option bool }.

(** [tasks.get(name)] and [task.done()] *)
Fixpoint task_done (name : string) (ts : list (string * bool)) : bool :=
  match ts with
  | [] => false
  | (n, d) :: ts => if String.eqb n name then d else task_done name ts
  end.

Definition evaluate_readiness (v : sight) : readiness :=
  let r := if docker_ok v then Readiness false [] else Readiness true ["docker_unreachable"%string] in
  let r := foldl (λ r name, if task_done name (tasks v)
                            then Readiness true (reasons r ++ [("worker_dead:" +:+ name)%string]) else r)
             r FATAL_WORKERS in
  match is_registered v with
  | Some false => Readiness (fatal r) (reasons r ++ ["registration_pending"%string])
  | _ => r
  end.

(** The probe of a tick; [None] is one that ran into the timeout. *)
Definition probed (v : option sight) : readiness :=
  match v with Some v => evaluate_readiness v | None => Readiness true ["readiness_probe_timeout"%string] end.

(** The loop over the ticks, each with the clock and its probe: whether it ends
    by [_terminate]. *)
Fixpoint watchdog_worker (grace : Z) (fatal_since : option Z) (ticks : list (Z * option sight)) : bool :=
  match ticks with
  | [] => false
  | (now, v) :: ticks =>
      if negb (fatal (probed v)) then watchdog_worker grace None ticks
      else match fatal_since with
           | None => watchdog_worker grace (Some now) ticks
           | Some t => if grace <=? now - t then true else watchdog_worker grace (Some t) ticks
           end
  end.

(** *** What it is for *)

(** A node that only a restart can help, at one tick. *)
Definition wedged (tick : Z * option sight) : Prop :=
  match tick.2 with
  | None => True
  | Some v => docker_ok v = false ∨ ∃ name, name ∈ FATAL_WORKERS ∧ task_done name (tasks v) = true
  end.

(** Two ticks at least [grace] apart, and the node wedged at each from the first
    to the second. *)
Definition wedged_since (grace t : Z) (ticks : list (Z * option sight)) : Prop :=
  ∃ mid last post, ticks = mid ++ last :: post ∧ Forall wedged mid ∧ wedged last ∧ grace ≤ last.1 - t.
Definition wedged_for (grace : Z) (ticks : list (Z * option sight)) : Prop :=
  ∃ pre first rest, ticks = pre ++ first :: rest ∧ wedged first ∧ wedged_since grace first.1 rest.

Lemma fold_fatal v l r :
  fatal (foldl (λ r name, if task_done name (tasks v)
                          then Readiness true (reasons r ++ [("worker_dead:" +:+ name)%string]) else r) r l) = true ↔
  fatal r = true ∨ ∃ name, name ∈ l ∧ task_done name (tasks v) = true.
Proof.
  revert r. induction l as [|n l IH]; intros r; simpl.
  { split; [by left|]. intros [H|(? & H & _)]; [done|inversion H]. }
  rewrite IH. setoid_rewrite elem_of_cons. destruct (task_done n (tasks v)) eqn:Hn; simpl; split.
  - intros _. right. eauto.
  - by left.
  - intros [H|(m & Hm & Ht)]; eauto.
  - intros [H|(m & [->|Hm] & Ht)]; [by left|congruence|eauto].
Qed.

Lemma probed_wedged t v : fatal (probed v) = true ↔ wedged (t, v).
Proof.
  destruct v as [v|]; [|done]. unfold probed, evaluate_readiness, wedged. cbn [snd].
  assert (∀ r, fatal (match is_registered v with
    | Some false => Readiness (fatal r) (reasons r ++ ["registration_pending"%string]) | _ => r end) = fatal r) as ->
    by (intros r; by destruct (is_registered v) as [[]|]).
  rewrite fold_fatal. destruct (docker_ok v); simpl; split; intros [H|H]; auto; discriminate H.
Qed.

Lemma wedged_since_cons grace t x l :
  wedged_since grace t (x :: l) ↔ wedged x ∧ (grace ≤ x.1 - t ∨ wedged_since grace t l).
Proof.
  split.
  - intros ([|y mid] & last & post & [= -> ->] & Hf & Hl & Hg); [by auto|].
    inversion Hf; subst. split; [done|]. right. by exists mid, last, post.
  - intros [Hx [Hg|(mid & last & post & -> & Hf & Hl & Hg)]].
    + by exists [], x, l.
    + exists (x :: mid), last, post. split_and!; [done|by constructor|done..].
Qed.

Lemma wedged_for_cons grace x l :
  wedged_for grace (x :: l) ↔ (wedged x ∧ wedged_since grace x.1 l) ∨ wedged_for grace l.
Proof.
  split.
  - intros ([|y pre] & first & rest & [= -> ->] & Hf & Hs); [by left|]. right. by exists pre, first, rest.
  - intros [[Hx Hs]|(pre & first & rest & -> & Hf & Hs)]; [by exists [], x, l|]. by exists (x :: pre), first, rest.
Qed.

Lemma wedged_since_earlier grace t t' l : t ≤ t' → wedged_since grace t' l → wedged_since grace t l.
Proof. intros Ht (mid & last & post & -> & Hf & Hl & Hg). exists mid, last, post. split_and!; [done..|]. lia. Qed.

Lemma watchdog_spec grace ticks :
  StronglySorted Z.le ticks.*1 →
  (watchdog_worker grace None ticks = true ↔ wedged_for grace ticks) ∧
  ∀ t, Forall (Z.le t) ticks.*1 →
    (watchdog_worker grace (Some t) ticks = true ↔ wedged_since grace t ticks ∨ wedged_for grace ticks).
Proof.
  induction ticks as [|[now v] l IH]; intros Hs.
  { split; [|intros t _]; simpl; split; try discriminate.
    - by intros ([] & ? & ? & ? & _).
    - by intros [([] & ? & ? & ? & _)|([] & ? & ? & ? & _)]. }
  csimpl in Hs. inversion Hs as [|? ? Hs' Hall]; subst. destruct (IH Hs') as [IH1 IH2].
  pose proof (probed_wedged now v) as Hw. pose proof (IH2 now Hall) as IHn.
  split; [|intros t Ht; csimpl in Ht; inversion Ht as [|? ? Htn Htl]; subst; rewrite wedged_since_cons];
    rewrite wedged_for_cons; cbn [watchdog_worker fst]; destruct (fatal (probed v)); cbn [negb].
  - rewrite IHn. assert (wedged (now, v)) by (by apply Hw). tauto.
  - assert (¬ wedged (now, v)) by (by intros ?%Hw). rewrite IH1. tauto.
  - assert (wedged (now, v)) by (by apply Hw).
    pose proof (wedged_since_earlier grace t now l Htn) as He.
    destruct (Z.leb_spec grace (now - t)) as [Hg|Hg]; [tauto|]. rewrite (IH2 t Htl).
    assert (¬ grace ≤ now - t) by lia. tauto.
  - assert (¬ wedged (now, v)) by (by intros ?%Hw). rewrite IH1. tauto.
Qed.
End Watchdog.

(** The watchdog ends the process exactly when the node stayed wedged over two
    probes at least the grace window apart, where wedged means that a probe hung,
    docker did not answer or a long-lived task was dead at every probe between
    them; a registration that waits for its acceptance never counts. *)
Theorem watchdog_restarts_wedged (grace : Z) (ticks : list (Z * option Watchdog.sight))
    (Hclock : StronglySorted Z.le ticks.*1) :
  Watchdog.watchdog_worker grace None ticks = true ↔ Watchdog.wedged_for grace ticks.
Proof. by apply Watchdog.watchdog_spec. Qed.

(** ** The status monitor *)
Module Monitor.

(** What the callback of one instance gives: a status, a [ConnectionError] or a
    [Timeout], or any other exception. *)
Inductive callback : Type := Code (code : Z) | NoConnection | Crashed.

(** [os.listdir] in its order, with what [compose.get_status] gives for each
    entry, [None] when it raises. *)
Fixpoint collect_status_map (entries : list (string * option string)) : option (list (string * string)) :=
  match entries with
  | [] => Some []
  | (greffon_id, status) :: entries =>
      if Text.startswith "." greffon_id then collect_status_map entries
      else match status with
           | None => None
           | Some st => option_map (cons (greffon_id, st)) (collect_status_map entries)
           end
  end.

(** A callback that was sent, and what it gave. *)
Record report : Type := Report { report_id : string; report_status : string; report_result : callback }.

(** The loop over the sweep, which changes [prev_status] in place: what it is
    afterwards, what was sent, and whether the loop ended without an exception. *)
Fixpoint report_changes (cb : string → string → callback) (prev_status : gmap string string)
    (status_map : list (string * string)) : gmap string string * list report * bool :=
  match status_map with
  | [] => (prev_status, [], true)
  | (greffon_id, status) :: rest =>
      if bool_decide (prev_status !! greffon_id = Some status) then
        report_changes cb (<[greffon_id := status]> prev_status) rest
      else
        let r := Report greffon_id status (cb greffon_id status) in
        match cb greffon_id status with
        | NoConnection => let '(p, l, ok) := report_changes cb prev_status rest in (p, r :: l, ok)
        | Code code =>
            let prev_status := if 400 <=? code then prev_status else <[greffon_id := status]> prev_status in
            let '(p, l, ok) := report_changes cb prev_status rest in (p, r :: l, ok)
        | Crashed => (prev_status, [r], false)
        end
  end.

(** [app.state.status_map] *)
Record published : Type := Published { sweep : list (string * string); at_ : Z; captured_at : Z }.

(** What a tick meets: the directory, the callbacks, and the clocks. *)
Record tick : Type := Tick {
  entries : list (string * option string);
  callbacks : string → string → callback;
  wall_before : Z;
  mono_after : Z;
}.

Record monitor : Type := Mon {
  prev_status : gmap string string;
  status_map : option published;
  sent : list report;                (** oldest first *)
}.

(** One turn of [monitor_worker]. *)
Definition one_turn (s : monitor) (t : tick) : monitor :=
  match collect_status_map (entries t) with
  | None => Mon (prev_status s) None (sent s)
  | Some m =>
      let '(prev, l, ok) := report_changes (callbacks t) (prev_status s) m in
      Mon prev (if ok then Some (Published m (mono_after t) (wall_before t)) else None) (sent s ++ l)
  end.
Definition monitor_worker (ts : list tick) : monitor := foldl one_turn (Mon ∅ None []) ts.

(** *** What it is for *)

(** What the manager took of a callback. *)
Definition accepted (r : report) : bool :=
  match report_result r with Code code => negb (400 <=? code) | _ => false end.
Definition take (known : gmap string string) (r : report) : gmap string string :=
  if accepted r then <[report_id r := report_status r]> known else known.
Definition known (l : list report) : gmap string string := foldl take ∅ l.

(** No callback repeats what the manager has. *)
Fixpoint only_changes (known : gmap string string) (l : list report) : Prop :=
  match l with
  | [] => True
  | r :: l => known !! report_id r ≠ Some (report_status r) ∧ only_changes (take known r) l
  end.

Lemma only_changes_app k l l' :
  only_changes k (l ++ l') ↔ only_changes k l ∧ only_changes (foldl take k l) l'.
Proof. revert k. induction l as [|r l IH]; intros k; simpl; [tauto|]. rewrite IH. tauto. Qed.

(** The loop over a sweep: [prev_status] is what the manager has, and what the
    loop got through is delivered or was refused. *)
Lemma report_changes_spec cb prev m :
  let '(prev', l, ok) := report_changes cb prev m in
  prev' = foldl take prev l ∧ only_changes prev l ∧
  (∀ id, id ∉ m.*1 → prev' !! id = prev !! id) ∧
  (ok = true → NoDup m.*1 →
   ∀ id st, (id, st) ∈ m → prev' !! id = Some st ∨ ∃ r, r ∈ l ∧ report_id r = id ∧ report_status r = st ∧ accepted r = false).
Proof.
  revert prev. induction m as [|[id st] m IH]; intros prev; csimpl.
  { split_and!; [done..|]. intros _ _ ? ? H. inversion H. }
  assert (∀ (prev1 : gmap string string) l1,
    (∀ id', id' ≠ id → prev1 !! id' = prev !! id') → prev1 = foldl take prev l1 → only_changes prev l1 →
    (prev1 !! id = Some st ∨ ∃ r, r ∈ l1 ∧ report_id r = id ∧ report_status r = st ∧ accepted r = false) →
    let '(prev', l, ok) := report_changes cb prev1 m in
    prev' = foldl take prev (l1 ++ l) ∧ only_changes prev (l1 ++ l) ∧
    (∀ id', id' ∉ id :: m.*1 → prev' !! id' = prev !! id') ∧
    (ok = true → NoDup (id :: m.*1) → ∀ id' st', (id', st') ∈ (id, st) :: m →
      prev' !! id' = Some st' ∨ ∃ r, r ∈ l1 ++ l ∧ report_id r = id' ∧ report_status r = st' ∧ accepted r = false)) as Hrest.
  { intros prev1 l1 Hsame Hp1 Ho1 Hid. specialize (IH prev1).
    destruct (report_changes cb prev1 m) as [[prev' l] ok]. destruct IH as (Hp & Ho & Hn & Hd). split_and!.
    - by rewrite foldl_app, <- Hp1.
    - apply only_changes_app. by rewrite <- Hp1.
    - intros id' [H1 H2]%not_elem_of_cons. by rewrite Hn, Hsame.
    - intros Hok Hnd id' st' Hin. inversion Hnd as [|? ? Hnin Hnd']; subst. setoid_rewrite elem_of_app.
      apply elem_of_cons in Hin as [[= -> ->]|Hin].
      + rewrite Hn by done. destruct Hid as [?|(r & ? & ?)]; [by left|right; eauto].
      + destruct (Hd eq_refl Hnd' _ _ Hin) as [?|(r & ? & ?)]; [by left|right; eauto]. }
  case_bool_decide as Hsame.
  { rewrite (insert_id prev id st) by done. apply (Hrest prev []); auto. done. }
  pose (r := Report id st (cb id st)). fold r. destruct (cb id st) as [code| |] eqn:Hcb.
  - pose proof (Hrest (if 400 <=? code then prev else <[id:=st]> prev) [r]) as H. unfold take in H. simpl in H.
    destruct (report_changes _ _ _) as [[prev' l] ok]. apply H; clear H.
    + intros id' Hne. by destruct (400 <=? code); [|rewrite lookup_insert_ne].
    + unfold accepted, r. simpl. by destruct (400 <=? code).
    + done.
    + destruct (400 <=? code) eqn:Hc; [right; exists r|left; by rewrite lookup_insert_eq].
      split_and!; [by left|done|done|]. unfold accepted, r. simpl. by rewrite Hc.
  - pose proof (Hrest prev [r]) as H. destruct (report_changes _ _ _) as [[prev' l] ok]. apply H; try done.
    right. exists r. split_and!; [by left|done..].
  - split_and!; try done.
Qed.

Lemma monitor_known ts :
  prev_status (monitor_worker ts) = known (sent (monitor_worker ts)) ∧ only_changes ∅ (sent (monitor_worker ts)).
Proof.
  unfold monitor_worker. induction ts as [|t ts IH] using rev_ind; [done|]. rewrite foldl_snoc.
  destruct (foldl one_turn (Mon ∅ None []) ts) as [prev pub l]. simpl in IH. destruct IH as [-> IH].
  unfold one_turn. simpl. destruct (collect_status_map (entries t)) as [m|]; [|done].
  pose proof (report_changes_spec (callbacks t) (known l) m) as H.
  destruct (report_changes _ _ _) as [[prev' l'] ok]. destruct H as (Hp & Ho & _). simpl.
  unfold known in *. rewrite foldl_app. split; [done|]. by apply only_changes_app.
Qed.

Lemma collect_ids entries m : collect_status_map entries = Some m → m.*1 `sublist_of` entries.*1.
Proof.
  revert m. induction entries as [|[id st] l IH]; intros m; [by intros [= <-]|].
  rewrite fmap_cons. cbn [collect_status_map fst]. destruct (Text.startswith "." id); [intros H; apply sublist_cons; by apply IH|].
  destruct st as [st|]; [|done]. destruct (collect_status_map l) as [m'|]; [|done].
  intros [= <-]. csimpl. apply sublist_skip. by apply IH.
Qed.
End Monitor.

(** C25: The monitor's memory of an instance is the last status the manager accepted
    for it, it never sends what the manager already has, and once a turn has
    published its sweep every instance of the sweep is either known to the manager
    with that status or its callback was refused or lost in that very turn, to be
    sent again by the next one. *)
Theorem monitor_delivers (ts : list Monitor.tick) (t : Monitor.tick) (Hlist : NoDup (Monitor.entries t).*1) :
  let s := Monitor.monitor_worker ts in
  let s' := Monitor.one_turn s t in
  Monitor.prev_status s' = Monitor.known (Monitor.sent s') ∧
  Monitor.only_changes ∅ (Monitor.sent s') ∧
  ∃ l, Monitor.sent s' = Monitor.sent s ++ l ∧
  ∀ p, Monitor.status_map s' = Some p →
    Monitor.collect_status_map (Monitor.entries t) = Some (Monitor.sweep p) ∧
    ∀ id st, (id, st) ∈ Monitor.sweep p →
      Monitor.known (Monitor.sent s') !! id = Some st ∨
      ∃ r, r ∈ l ∧ Monitor.report_id r = id ∧ Monitor.report_status r = st ∧ Monitor.accepted r = false.
Proof.
  intros s s'. pose proof (Monitor.monitor_known (ts ++ [t])) as [Hk Ho].
  unfold Monitor.monitor_worker in Hk, Ho. rewrite foldl_snoc in Hk, Ho.
  change (Monitor.one_turn (foldl Monitor.one_turn (Monitor.Mon ∅ None []) ts) t) with s' in Hk, Ho.
  split; [exact Hk|]. split; [exact Ho|]. rewrite <- Hk. clear Hk Ho. unfold s', Monitor.one_turn.
  destruct (Monitor.collect_status_map (Monitor.entries t)) as [m|] eqn:Hm; simpl; [|by exists []; rewrite app_nil_r].
  pose proof (Monitor.report_changes_spec (Monitor.callbacks t) (Monitor.prev_status s) m) as H.
  destruct (Monitor.report_changes _ _ _) as [[prev' l] ok]. destruct H as (_ & _ & _ & Hd). simpl.
  exists l. split; [done|]. intros p. destruct ok; [|done]. intros [= <-]. simpl. split; [done|].
  apply Hd; [done|]. eapply sublist_NoDup; [exact Hlist|]. by apply Monitor.collect_ids.
Qed.

(** ** What a beat carries *)
Module Vitals.
Import Monitor.
Local Open Scope Z_scope.

(** [_collect_or_reuse]: the monitor's sweep while it is fresh, else a new one;
    the instances, whether the beat is degraded, and when they were captured. *)
Definition _collect_or_reuse (cached : option published) (now window now_wall : Z)
    (fresh : option (list (string * string))) : list (string * string) * bool * list string * Z :=
  match cached with
  | Some c =>
      if now - at_ c <? window then (sweep c, false, [], captured_at c)
      else match fresh with
           | Some m => (m, false, [], now_wall)
           | None => ([], true, ["docker_unreachable"%string], now_wall)
           end
  | None =>
      match fresh with
      | Some m => (m, false, [], now_wall)
      | None => ([], true, ["docker_unreachable"%string], now_wall)
      end
  end.

(** [s.split()] *)
Fixpoint words_acc (word s : string) : list string :=
  match s with
  | EmptyString => if String.eqb word "" then [] else [word]
  | String c s =>
      if Text.is_space c then if String.eqb word "" then words_acc "" s else word :: words_acc "" s
      else words_acc (word +:+ String c "")%string s
  end.
Definition words (s : string) : list string := words_acc "" s.

(** The scan of [/proc/meminfo] for its two fields: [None] is the exception of an
    [int] or of an index, and the scan stops once it has both. *)
Fixpoint scan_meminfo (fields : gmap string Z) (lines : list string) : option (gmap string Z) :=
  match lines with
  | [] => Some fields
  | line :: lines =>
      let '(key, rest) := Text.partition ":" line in
      if String.eqb key "MemTotal" || String.eqb key "MemAvailable" then
        match words (default ""%string rest) with
        | [] => None
        | n :: _ =>
            match Text.int_of_string n with
            | None => None
            | Some v =>
                let fields := <[key := v * 1024]> fields in
                if (size fields =? 2)%nat then Some fields else scan_meminfo fields lines
            end
        end
      else scan_meminfo fields lines
  end.

(** Used and total bytes; [lines] is [None] when the file cannot be read. *)
Definition _read_meminfo (lines : option (list string)) : option (Z * Z) :=
  match lines ≫= scan_meminfo ∅ with
  | None => None
  | Some fields =>
      match fields !! "MemTotal"%string, fields !! "MemAvailable"%string with
      | Some total, Some available =>
          let used := total - available in Some (if 0 <=? used then used else 0, total)
      | _, _ => None
      end
  end.

(** The total and the idle jiffies of the first line of [/proc/stat]. *)
Definition _read_cpu_sample (first : option string) : option (Z * Z) :=
  match first with
  | None => None
  | Some line =>
      let parts := words line in
      if (length parts <? 6)%nat then None
      else match parts with
           | [] => None
           | p :: fields =>
               if negb (String.eqb p "cpu") then None
               else match mapM Text.int_of_string fields with
                    | None => None
                    | Some values =>
                        Some (foldr Z.add 0 values, default 0 (values !! 3%nat) + default 0 (values !! 4%nat))
                    end
           end
  end.

Example meminfo_gauge :
  _read_meminfo (Some ["MemTotal:       1000 kB"; "MemFree: x"; "MemAvailable:    400 kB"; "Buffers: oops"]%string)
  = Some (600 * 1024, 1000 * 1024).
Proof. vm_compute. reflexivity. Qed.
Example cpu_sample : _read_cpu_sample (Some "cpu  10 0 5 80 5 0 0"%string) = Some (100, 85).
Proof. vm_compute. reflexivity. Qed.

Lemma mapM_length {A B} (f : A → option B) l k : mapM f l = Some k → length k = length l.
Proof. intros H%mapM_Some. symmetry. by apply Forall2_length in H. Qed.

(** A sample always has its idle and iowait fields: the reads by index cannot be
    out of range. *)
Lemma cpu_sample_fields line total idle :
  _read_cpu_sample (Some line) = Some (total, idle) →
  ∃ values a b, mapM Text.int_of_string (tail (words line)) = Some values ∧
    values !! 3%nat = Some a ∧ values !! 4%nat = Some b ∧ idle = a + b ∧ total = foldr Z.add 0 values.
Proof.
  unfold _read_cpu_sample. destruct (length (words line) <? 6)%nat eqn:Hl; [done|]. apply Nat.ltb_ge in Hl.
  destruct (words line) as [|p fields]; [done|]. simpl in Hl. destruct (negb _); [done|]. cbn [tail].
  destruct (mapM Text.int_of_string fields) as [values|] eqn:Hv; [|done].
  pose proof (mapM_length _ _ _ Hv) as Hlen.
  destruct (lookup_lt_is_Some_2 values 3) as [a Ha]; [lia|]. destruct (lookup_lt_is_Some_2 values 4) as [b Hb]; [lia|].
  rewrite Ha, Hb. intros [= <- <-]. by exists values, a, b.
Qed.

(** The gauge is never negative, and never more than the total unless the kernel
    reports a negative [MemAvailable]. *)
Lemma meminfo_bounds lines used total :
  _read_meminfo lines = Some (used, total) → 0 ≤ used ∧ (0 ≤ total → used ≤ total ∨ ∃ fields available,
    lines ≫= scan_meminfo ∅ = Some fields ∧ fields !! "MemAvailable"%string = Some available ∧ available < 0).
Proof.
  unfold _read_meminfo. destruct (lines ≫= scan_meminfo ∅) as [fields|]; [|done].
  destruct (fields !! "MemTotal"%string) as [t|] eqn:Ht; [|done].
  destruct (fields !! "MemAvailable"%string) as [a|] eqn:Ha; [|done]. intros [= <- <-].
  destruct (Z.leb_spec 0 (t - a)); split; try lia. intros _.
  destruct (decide (a < 0)); [right|left; lia]. by exists fields, a.
Qed.
End Vitals.

(** ** Concrete runs *)
Module Demo.
Local Open Scope string_scope.

(** The node cannot resolve its address at first, registers, polls twice, beats, and the manager rejects the beat. *)
Definition until_rejected : list event :=
  [Register NoFile Unreachable; Register NoFile Done; Register (Text_ "tok1") Address; Register (Text_ "tok1") (Rejected 500);
   Register (Text_ "tok1") Done; Beat; Register (Text_ "tok1") Accepted; Register (Text_ "tok1") (NoCertificate 404);
   Register (Text_ "tok1") Done; Register (Text_ "tok1") (Certificate (VStr "0a")); Register (Text_ "tok1") Done;
   Register (Text_ "tok1") Done; Register (Text_ "tok1") Done; Beat; Beat; BeatAnswer (Answered 403)].

(** The token on disk was replaced since. *)
Definition again : list event :=
  [Wake; Supervisor (Text_ "tok2") Address; Beat; Supervisor (Text_ "tok2") Accepted;
   Supervisor (Text_ "tok2") (Certificate (VStr "0b")); BeatAnswer Broken; Supervisor (Text_ "tok2") Done;
   Supervisor (Text_ "tok2") Done; Supervisor (Text_ "tok2") Done].

Example after_rejection :
  state (run "" (start_node "") until_rejected)
  = App "tok1" false true (VStr "0a").
Proof. vm_compute. reflexivity. Qed.

Definition sight_ok : Watchdog.sight := Watchdog.Sight true [("greffer-heartbeat", false)] (Some false).
Definition sight_down : Watchdog.sight := Watchdog.Sight false [("greffer-heartbeat", false)] (Some true).
Definition sight_dead : Watchdog.sight :=
  Watchdog.Sight true [("greffer-register", true); ("greffer-heartbeat", true)] (Some true).
Definition ticks : list (Z * option Watchdog.sight) :=
  [(5, Some sight_down); (10, Some sight_ok); (20, Some sight_down); (35, None); (51, Some sight_dead)].

Definition directory : Monitor.tick := Monitor.Tick
  [("a", Some "running"); (".greffer-token", None); ("b", Some "stopped"); ("c", Some "running")]
  (λ id _, if String.eqb id "b" then Monitor.Code 403 else if String.eqb id "c" then Monitor.NoConnection else Monitor.Code 200)
  100 7.

Definition monitored : Monitor.monitor := Monitor.one_turn (Monitor.monitor_worker [directory]) directory.
Example only_what_failed_is_sent_again :
  map (λ r, (Monitor.report_id r, Monitor.report_status r)) (Monitor.sent monitored)
  = [("a", "running"); ("b", "stopped"); ("c", "running"); ("b", "stopped"); ("c", "running")].
Proof. vm_compute. reflexivity. Qed.
End Demo.

Lemma liveness_handed_over_witness :
  let n := run "" (start_node "") Demo.until_rejected in
  registered (state n) = false ∧ reregister_requested (state n) = true ∧
  ∃ pre, pre `prefix_of` Demo.again ∧ registered (state (run "" n pre)) = true.
Proof.
  split_and!; [reflexivity..|].
  apply (liveness_handed_over "" "" Demo.until_rejected); [vm_compute; reflexivity|].
  apply Nat.leb_le. vm_compute. reflexivity.
Defined.

Lemma watchdog_restarts_wedged_witness :
  Watchdog.watchdog_worker 30 None Demo.ticks = true ∧ Watchdog.wedged_for 30 Demo.ticks.
Proof.
  split; [reflexivity|]. apply (watchdog_restarts_wedged 30 Demo.ticks); [|reflexivity].
  repeat constructor; simpl; lia.
Defined.

Lemma monitor_delivers_witness :
  Monitor.known (Monitor.sent Demo.monitored) !! "a"%string = Some "running"%string ∧
  ∃ l, Monitor.sent Demo.monitored = Monitor.sent (Monitor.monitor_worker [Demo.directory]) ++ l ∧
    ∃ r, r ∈ l ∧ Monitor.report_id r = "b"%string ∧ Monitor.accepted r = false.
Proof.
  split; [reflexivity|].
  destruct (monitor_delivers [Demo.directory] Demo.directory) as (_ & _ & l & Hl & H).
  { apply (bool_decide_unpack _). vm_compute. exact I. }
  exists l. split; [exact Hl|].
  destruct (H (Monitor.Published [("a", "running"); ("b", "stopped"); ("c", "running")]%string 7 100)) as [_ Hb]; [reflexivity|].
  destruct (Hb "b" "stopped")%string as [Hk|(r & ? & ? & _ & ?)].
  - right. left.
  - exfalso. vm_compute in Hk. discriminate Hk.
  - by exists r.
Defined.
