(* ===== verification/Control.v ===== *)
(** [app/routers/controller.py]: what the manager can ask of this node.  The
    per-instance admission of [start], [stop] and [decommission]
    ([_serialize_instance_op]), the start of an instance with its error replies,
    the count of compose children at work ([track_compose_child]), the tear-down
    of an instance with [apps/utils/docker/volume.py], and the gate of the remote
    update with [apps/utils/docker/updater.py].

    A handler is a sequence of calls into the other components; a world records
    which calls were made, and what each answers may depend on everything before
    it.  [HTTPException] is a reply, any other exception a 500. *)
From Stdlib Require Import Ascii String.
From S2P Require Import Prelude PyValue GreffonInfo CertRenewal InstanceContext InstanceFiles.
Import Text.
Local Open Scope string_scope.

(** The exceptions of the other components that the handlers tell apart. *)
Inductive raised : Type :=
  | InlineComposeError (detail : string)
  | ComposeShapeError (detail : string)
  | L4SamePortConflict (detail : string)
  | L4PortRangeExhausted (detail : string)
  | L4PortsUnavailable (detail : string)
  | ConfigRenderError (detail : string)
  | OtherError (class : string).

Inductive failure : Type := HTTPException (status_code : Z) (detail : string) | Exc (r : raised).

(** ** Compose children at work *)
Module Inflight.

(** A compose child, and how far [track_compose_child] is with it: spawned, marked,
    waited for by a thread, or given up: no longer marked. *)
Inductive phase : Type := Spawned | Marked | Waiting | Released.
Record child : Type := Child { instance : string; running : bool; at_phase : phase }.
#[export] Instance phase_eq : EqDecision phase.
Proof. solve_decision. Defined.

(** [_inflight] and every child there was, by its number, whether or not the code
    still knows of it. *)
Record tracker : Type := Tracker { inflight : gmap string Z; children : list child }.

Definition _release_compose_child (id : string) (m : gmap string Z) : gmap string Z :=
  let remaining := (default 1 (m !! id) - 1)%Z in
  if (0 <? remaining)%Z then <[id := remaining]> m else delete id m.

Definition compose_inflight (id : string) (m : gmap string Z) : bool := (0 <? default 0 (m !! id))%Z.

(** The atomic parts of [compose.start] and [track_compose_child], of any number of
    threads, and the ends of the children themselves. *)
Inductive event : Type :=
  | Popen (id : string)
  | Mark (n : nat)
  | ThreadStarts (n : nat)
  | ThreadFails (n : nat)    (** [Thread.start] raised *)
  | Exits (n : nat)          (** the process ends *)
  | WaitReturns (n : nat)    (** [proc.wait], once the process has ended *)
  | WaitRaises (n : nat).    (** [proc.wait] raised *)

(** One part for the child [n] in phase [from], if it can happen. *)
Definition advance (s : tracker) (n : nat) (from to : phase) (can : child → bool)
    (guarded : string → gmap string Z → gmap string Z) : tracker :=
  match children s !! n with
  | Some c => if bool_decide (at_phase c = from) && can c
              then Tracker (guarded (instance c) (inflight s)) (<[n := Child (instance c) (running c) to]> (children s))
              else s
  | None => s
  end.

Definition mark (id : string) (m : gmap string Z) : gmap string Z := <[id := (default 0 (m !! id) + 1)%Z]> m.

Definition step (s : tracker) (e : event) : tracker :=
  match e with
  | Popen id => Tracker (inflight s) (children s ++ [Child id true Spawned])
  | Mark n => advance s n Spawned Marked (λ _, true) mark
  | ThreadStarts n => advance s n Marked Waiting (λ _, true) (λ _ m, m)
  | ThreadFails n => advance s n Marked Released (λ _, true) _release_compose_child
  | WaitReturns n => advance s n Waiting Released (λ c, negb (running c)) _release_compose_child
  | WaitRaises n => advance s n Waiting Released (λ _, true) _release_compose_child
  | Exits n => match children s !! n with
               | Some c => Tracker (inflight s) (<[n := Child (instance c) false (at_phase c)]> (children s))
               | None => s
               end
  end.
Definition run (es : list event) : tracker := foldl step (Tracker ∅ []) es.

(** ** What is counted *)
Definition tracked (c : child) : bool := bool_decide (at_phase c = Marked ∨ at_phase c = Waiting).
Definition weight (id : string) (c : child) : nat := if String.eqb (instance c) id && tracked c then 1 else 0.
Definition tracked_of (id : string) (s : tracker) : nat := sum_list_with (weight id) (children s).

(** The count as the dict holds it: no entry for zero. *)
Definition entry (n : nat) : option Z := match n with 0%nat => None | n => Some (Z.of_nat n) end.
Definition counts (s : tracker) : Prop := ∀ id, inflight s !! id = entry (tracked_of id s).

Lemma sum_insert {A} (f : A → nat) (l : list A) n x y :
  l !! n = Some x → (sum_list_with f (<[n := y]> l) + f x = sum_list_with f l + f y)%nat.
Proof.
  revert n. induction l as [|z l IH]; intros [|n] H; [done|done|cbn in H; injection H as ->|].
  { change (f y + sum_list_with f l + f x = f x + sum_list_with f l + f y)%nat. lia. }
  specialize (IH n H). change (f z + sum_list_with f (<[n := y]> l) + f x = f z + sum_list_with f l + f y)%nat. lia.
Qed.
Lemma sum_at_least {A} (f : A → nat) (l : list A) n x : l !! n = Some x → (f x ≤ sum_list_with f l)%nat.
Proof. revert n. induction l as [|z l IH]; intros [|n] H; cbn in *; [done|done|simplify_eq; lia|]. specialize (IH _ H). lia. Qed.

Lemma mark_entry id m n x :
  m !! id = entry n → mark id m !! x = if String.eqb id x then entry (S n) else m !! x.
Proof.
  intros Hm. unfold mark. destruct (String.eqb_spec id x) as [->|Hx]; [|by rewrite lookup_insert_ne].
  rewrite lookup_insert_eq, Hm. destruct n; simpl; [done|]. f_equal. lia.
Qed.
Lemma release_entry id m n x :
  m !! id = entry (S n) →
  _release_compose_child id m !! x = if String.eqb id x then entry n else m !! x.
Proof.
  intros Hm. unfold _release_compose_child. rewrite Hm. change (default 1%Z (entry (S n))) with (Z.of_nat (S n)).
  destruct (String.eqb_spec id x) as [->|Hx].
  - destruct n as [|n]; [rewrite (proj2 (Z.ltb_ge _ _)) by lia; by rewrite lookup_delete_eq|].
    rewrite (proj2 (Z.ltb_lt _ _)) by lia. rewrite lookup_insert_eq. simpl. f_equal. lia.
  - destruct (_ <? _)%Z; [by rewrite lookup_insert_ne|by rewrite lookup_delete_ne].
Qed.

(** What a part does to the dict has to match how it moves the child. *)
Lemma advance_counts s n from to can guarded :
  (∀ id r m k x, m !! id = entry (weight id (Child id r from) + k) →
     guarded id m !! x = if String.eqb id x then entry (weight id (Child id r to) + k) else m !! x) →
  counts s → counts (advance s n from to can guarded).
Proof.
  intros Hg Hs. unfold advance. destruct (children s !! n) as [[id r p]|] eqn:Hc; [|done].
  case_bool_decide as Hp; [|done]. cbn in Hp. subst p. destruct (can _); [|done]. cbn [andb]. intros x. cbn [inflight instance running].
  pose proof (λ j, sum_insert (weight j) _ _ _ (Child id r to) Hc) as Hsum.
  pose proof (λ j, sum_at_least (weight j) _ _ _ Hc) as Hle.
  rewrite (Hg id r _ (tracked_of id s - weight id (Child id r from))%nat).
  - unfold tracked_of. cbn [children]. destruct (String.eqb_spec id x) as [->|Hne].
    + f_equal. specialize (Hsum x). specialize (Hle x). lia.
    + rewrite (Hs x). unfold tracked_of. f_equal. specialize (Hsum x).
      assert (H0 : ∀ p, weight x (Child id r p) = 0%nat)
        by (intros p; unfold weight; cbn [instance]; by rewrite (proj2 (String.eqb_neq _ _) Hne)).
      rewrite !H0 in Hsum. lia.
  - rewrite Hs. f_equal. specialize (Hle id). unfold tracked_of. lia.
Qed.

Lemma weight_self id r p : weight id (Child id r p) = if tracked (Child id r p) then 1 else 0.
Proof. unfold weight. cbn [instance]. by rewrite String.eqb_refl. Qed.

Lemma step_counts s e : counts s → counts (step s e).
Proof.
  intros Hs. destruct e as [id|n|n|n|n|n|n]; cbn [step].
  - intros x. unfold tracked_of. cbn [inflight children]. rewrite sum_list_with_app, (Hs x). unfold tracked_of. f_equal.
    unfold weight. cbn. rewrite andb_false_r. lia.
  - apply advance_counts; [|done]. intros id r m k x. rewrite !weight_self. apply mark_entry.
  - apply advance_counts; [|done]. intros id r m k x. rewrite !weight_self. cbn. intros H.
    by destruct (String.eqb_spec id x) as [->|].
  - apply advance_counts; [|done]. intros id r m k x. rewrite !weight_self. apply release_entry.
  - destruct (children s !! n) as [c|] eqn:Hc; [|done]. intros x. cbn [inflight]. rewrite (Hs x). f_equal.
    pose proof (sum_insert (weight x) _ _ _ (Child (instance c) false (at_phase c)) Hc) as Hsum.
    unfold tracked_of. cbn [children]. change (weight x (Child _ _ _)) with (weight x c) in Hsum. lia.
  - apply advance_counts; [|done]. intros id r m k x. rewrite !weight_self. apply release_entry.
  - apply advance_counts; [|done]. intros id r m k x. rewrite !weight_self. apply release_entry.
Qed.

Lemma run_counts es : counts (run es).
Proof.
  unfold run. induction es as [|e es IH] using rev_ind; [intros x; done|]. rewrite foldl_snoc. by apply step_counts.
Qed.

Lemma inflight_tracked es id : compose_inflight id (inflight (run es)) = true ↔
  ∃ c, c ∈ children (run es) ∧ instance c = id ∧ tracked c = true.
Proof.
  unfold compose_inflight. rewrite run_counts. unfold tracked_of. induction (children (run es)) as [|c l IH]; cbn.
  - split; [done|]. by intros (? & ?%elem_of_nil & _).
  - unfold weight at 1. destruct (String.eqb_spec (instance c) id) as [Hi|Hi]; [destruct (tracked c) eqn:Hc|]; cbn.
    + split; [intros _; exists c; by split_and!; [left|..]|done].
    + rewrite IH. split; [intros (x & ? & ?); exists x; split; [by right|done]|].
      intros (x & [->|?]%elem_of_cons & ? & ?); [congruence|eauto].
    + rewrite IH. split; [intros (x & ? & ?); exists x; split; [by right|done]|].
      intros (x & [->|?]%elem_of_cons & ? & ?); [congruence|eauto].
Qed.

(** Nothing goes wrong with the thread that waits. *)
Definition smooth (e : event) : bool := match e with ThreadFails _ | WaitRaises _ => false | _ => true end.

Lemma advance_Forall (P : child → Prop) s n from to can guarded :
  (∀ id r, can (Child id r from) = true → P (Child id r from) → P (Child id r to)) →
  Forall P (children s) → Forall P (children (advance s n from to can guarded)).
Proof.
  intros H Hs. unfold advance. destruct (children s !! n) as [[id r p]|] eqn:Hc; [|done].
  case_bool_decide as Hp; [|done]. cbn in Hp. subst p. destruct (can _) eqn:Hcan; [|done]. cbn.
  apply Forall_insert; [done|]. apply H; [done|]. by eapply Forall_lookup_1 in Hc.
Qed.

Lemma released_ended es : Forall (λ e, smooth e = true) es →
  Forall (λ c, at_phase c = Released → running c = false) (children (run es)).
Proof.
  unfold run. induction es as [|e es IH] using rev_ind; [done|]. rewrite Forall_app, foldl_snoc, Forall_singleton.
  intros [Hes He]. specialize (IH Hes). destruct e as [id|n|n|n|n|n|n]; try done; cbn [step];
    try (apply advance_Forall; [|done]; by intros id r).
  - apply Forall_app; split; [done|]. by apply Forall_singleton.
  - destruct (children _ !! n) eqn:Hc; [|done]. cbn. by apply Forall_insert.
  - apply advance_Forall; [|done]. intros id r. cbn. by destruct r.
Qed.

(** A thread that cannot be started, and a wait that raises: the child runs on,
    unmarked. *)
Example abandoned_children : let s := run [Popen "i"; Mark 0; ThreadFails 0; Popen "j"; Mark 1; ThreadStarts 1; WaitRaises 1] in
  children s = [Child "i" true Released; Child "j" true Released] ∧
  compose_inflight "i" (inflight s) = false ∧ compose_inflight "j" (inflight s) = false.
Proof. by vm_compute. Qed.
End Inflight.

(** C22: Whatever spawns, marks, thread starts, exits and waits interleave, the count
    renewal reads for an instance is the number of its compose children that are marked
    and whose waiting thread has not given them up, with no entry for none; so it reads
    busy exactly while there is one. When every thread starts and no wait raises, a
    child that still runs and was marked keeps its instance busy, whatever its siblings
    do. (The other case is real: [abandoned_children].) *)
Theorem compose_children_counted (es : list Inflight.event) (id : string) :
  let s := Inflight.run es in
  Inflight.inflight s !! id = Inflight.entry (Inflight.tracked_of id s) ∧
  (Inflight.compose_inflight id (Inflight.inflight s) = true ↔
     ∃ c, c ∈ Inflight.children s ∧ Inflight.instance c = id ∧ Inflight.tracked c = true) ∧
  (Forall (λ e, Inflight.smooth e = true) es → ∀ c, c ∈ Inflight.children s → Inflight.instance c = id →
     Inflight.running c = true → Inflight.at_phase c ≠ Inflight.Spawned →
     Inflight.compose_inflight id (Inflight.inflight s) = true).
Proof.
  intros s. split; [apply Inflight.run_counts|]. split; [apply Inflight.inflight_tracked|].
  intros He c Hc Hi Hr Hp. apply Inflight.inflight_tracked. exists c. split_and!; [done..|].
  pose proof (Inflight.released_ended es He) as Hf. rewrite Forall_forall in Hf. specialize (Hf c Hc).
  unfold Inflight.tracked. apply bool_decide_eq_true. destruct (Inflight.at_phase c); auto; [done|].
  by rewrite Hf in Hr.
Qed.

(** Two children of one instance, the second of which has ended: the first keeps the
    instance busy, also when the wait for the second is over; where the thread of the
    second could not be started, it is free once the first has ended. *)
Lemma compose_children_counted_witness :
  let open := [Inflight.Popen "i"; Inflight.Mark 0; Inflight.Popen "i"; Inflight.Mark 1; Inflight.ThreadStarts 0; Inflight.Exits 1] in
  Inflight.compose_inflight "i" (Inflight.inflight (Inflight.run open)) = true ∧
  Inflight.compose_inflight "i" (Inflight.inflight (Inflight.run (open ++ [Inflight.ThreadStarts 1; Inflight.WaitReturns 1]))) = true ∧
  Inflight.compose_inflight "i" (Inflight.inflight (Inflight.run
    (open ++ [Inflight.ThreadFails 1; Inflight.Exits 0; Inflight.WaitReturns 0]))) = false.
Proof.
  intros open. split; [|by vm_compute].
  apply (compose_children_counted open "i") with (c := Inflight.Child "i" true Inflight.Waiting); try done.
  - repeat constructor.
  - vm_compute. left.
Defined.

(** ** Admission *)
Section admission.
(** A state with the lock of the instance and its handoff reservation. *)
Context {W : Type} (locked : W → bool) (with_locked with_handoff : bool → W → W).

Definition _serialize_instance_op {A} (handler : M W failure A) : M W failure A :=
  w ← get;
  if locked w then throw (HTTPException 409 "instance_busy")
  else modify (with_locked true);;
       modify (with_handoff false);;
       finally handler (modify (with_locked false)).

Lemma serialize_spec {A} (m : M W failure A) (Q : result failure A → W → Prop) w :
  (locked w = true → Q (Raise (HTTPException 409 "instance_busy")) w) →
  (locked w = false → wp m (λ r w', Q r (with_locked false w')) (with_handoff false (with_locked true w))) →
  wp (_serialize_instance_op m) Q w.
Proof.
  intros Hbusy Hfree. unfold _serialize_instance_op. apply wp_bind, wp_get.
  destruct (locked w) eqn:Hl; [by apply wp_throw, Hbusy|].
  apply wp_bind, wp_modify, wp_bind, wp_modify, wp_finally. eapply wp_mono; [by apply Hfree|].
  intros r w' H. by apply wp_modify.
Qed.
End admission.

(** ** Start and stop *)
Module Ops.

(** The calls of the handlers, in the order they are made. *)
Inductive call : Type :=
  | ProbeUpdateLock
  | FetchCompose
  | GetInfo (strict : bool) (l4_bind_host : string)
  | BuildContext (l4 : list (string * string))   (** with what the manager handed off *)
  | Template
  | ApplyConfiguration
  | CreateCompose
  | NginxConf
  | CopyVolumes
  | ComposeUp (id : string)
  | ComposeStop (id : string)
  | GetStatus
  | WriteToml (content : string).

Inductive child : Type := Up (id : string) | Stop (id : string).

(** The lock and the handoff reservation are those of the instance of the
    request; time is in milliseconds. *)
Record world : Type := World {
  log : list call;                 (** oldest first *)
  now : Z;
  locked : bool;
  handoff : bool;
  children : list child;           (** spawned and tracked, oldest first *)
}.
Definition with_log (l : list call) (w : world) : world := World l (now w) (locked w) (handoff w) (children w).
Definition with_now (t : Z) (w : world) : world := World (log w) t (locked w) (handoff w) (children w).
Definition with_locked (b : bool) (w : world) : world := World (log w) (now w) b (handoff w) (children w).
Definition with_handoff (b : bool) (w : world) : world := World (log w) (now w) (locked w) b (children w).
Definition with_child (c : child) (w : world) : world :=
  World (log w) (now w) (locked w) (handoff w) (children w ++ [c])%list.

(** How [write_client_toml] ends: [TunnelConfigWriteError] or any other
    exception. *)
Inductive written : Type := Written | TunnelConfigWriteError | WriteFailed.

(** The answers, each from the calls made before. *)
Record environment : Type := Environment {
  updating : list call → bool;
  answer : list call → call → option raised;       (** [None]: the call returned *)
  allocated : list call → list value;              (** [greffon_info['ports']] *)
  status_answer : list call → option string;       (** [None]: an exception *)
  poll_time : list call → N;
  write_answer : list call → written;
}.

Record settings : Type := Settings { greffer_mode : string; greffer_tunnel_client_config_path : string }.

(** The fields of a start request the handler itself reads. *)
Record start_request : Type := StartRequest {
  id : string;
  compose_yaml : option string;
  tunnel_client_toml : option string;
  instance_l4_host : option string;
  instance_l4_port : option Z;
  instance_l4_proto : option string;
}.

Section ops.
Context (env : environment) (cfg : settings).
Notation serialize := (_serialize_instance_op locked with_locked with_handoff).

Definition record_call (c : call) : M world failure (list call) :=
  w ← get; modify (with_log (log w ++ [c])%list);; mret (log w).
Definition perform (c : call) : M world failure unit :=
  before ← record_call c;
  match answer env before c with None => mret tt | Some r => throw (Exc r) end.

Definition _refuse_if_updating : M world failure unit :=
  before ← record_call ProbeUpdateLock;
  when (updating env before) (throw (HTTPException 409 "update_in_progress")).

Definition nonempty (o : option string) : option string :=
  match o with Some s => if String.eqb s "" then None else Some s | None => None end.

(** What the manager hands off for the context, behind a tunnel only. *)
Definition l4_handoff (r : start_request) (l4_bind_host : string) : list (string * string) :=
  match String.eqb l4_bind_host "127.0.0.1", nonempty (instance_l4_host r), instance_l4_port r with
  | true, Some host, Some port =>
      if (port =? 0)%Z then []
      else [("instance_l4_host", host); ("instance_l4_port", pretty port);
            ("instance_l4_endpoint", host +:+ ":" +:+ pretty port);
            ("instance_l4_proto", default "tcp" (nonempty (instance_l4_proto r)))]
  | _, _, _ => []
  end.

Definition _COMPOSE_READY_TIMEOUT : Z := 10000.
Definition _COMPOSE_READY_POLL_INTERVAL : Z := 500.

(** The polls until the deadline; [false] is a loop that ran out of [fuel]. *)
Fixpoint poll_until (fuel : nat) (deadline : Z) : M world failure bool :=
  match fuel with
  | O => mret false
  | S fuel =>
      w ← get;
      if (now w <? deadline)%Z then
        before ← record_call GetStatus;
        modify (λ w, with_now (now w + Z.of_N (poll_time env before)) w);;
        if bool_decide (status_answer env before = Some "running") then mret true
        else modify (λ w, with_now (now w + _COMPOSE_READY_POLL_INTERVAL) w);; poll_until fuel deadline
      else mret true
  end.
Definition _wait_for_compose_running : M world failure bool :=
  w ← get; poll_until 21 (now w + _COMPOSE_READY_TIMEOUT).

Definition _write_pushed_client_toml (content : option string) : M world failure string :=
  match content with
  | Some c =>
      if String.eqb (greffer_tunnel_client_config_path cfg) "" then mret "ok"
      else before ← record_call (WriteToml c);
           mret (match write_answer env before with Written => "ok" | _ => "failed" end)
  | None => mret "ok"
  end.

(** The replies to what a call raises. *)
Definition on_fetch (e : failure) : failure :=
  match e with Exc (InlineComposeError d) => HTTPException 422 d | e => e end.
Definition on_info (e : failure) : failure :=
  match e with
  | Exc (ComposeShapeError d) => HTTPException 422 d
  | Exc (L4SamePortConflict d) | Exc (L4PortRangeExhausted d) => HTTPException 409 d
  | Exc (L4PortsUnavailable d) => HTTPException 503 d
  | e => e
  end.
Definition on_render (e : failure) : failure :=
  match e with Exc (ConfigRenderError d) => HTTPException 422 d | e => e end.
Definition except {A} (m : M world failure A) (f : failure → failure) : M world failure A := catch m (λ e, throw (f e)).

Definition l4_bind_host : string := if String.eqb (greffer_mode cfg) "tunnel" then "127.0.0.1" else "0.0.0.0".

Definition spawn (c : call) (k : child) : M world failure unit := perform c;; modify (with_child k).

Definition start_body (r : start_request) : M world failure (list value * string) :=
  _refuse_if_updating;;
  except (perform FetchCompose) on_fetch;;
  let strict := match nonempty (compose_yaml r) with Some _ => true | None => false end in
  except (perform (GetInfo strict l4_bind_host)) on_info;;
  w ← get;
  let ports := allocated env (log w) in
  perform (BuildContext (l4_handoff r l4_bind_host));;
  perform Template;;
  except (perform ApplyConfiguration) on_render;;
  except (perform CreateCompose;; perform NginxConf;; perform CopyVolumes;; spawn (ComposeUp (id r)) (Up (id r))) on_render;;
  (match tunnel_client_toml r with
   | Some _ => if String.eqb (greffer_tunnel_client_config_path cfg) "" then mret tt
               else _wait_for_compose_running;; mret tt
   | None => mret tt
   end);;
  status ← _write_pushed_client_toml (tunnel_client_toml r);
  mret (ports, status).
Definition start_greffon (r : start_request) : M world failure (list value * string) := serialize (start_body r).

Definition stop_greffon (id : string) (toml : option string) : M world failure string :=
  serialize (_refuse_if_updating;; spawn (ComposeStop id) (Stop id);; _write_pushed_client_toml toml).

(** *** What a start does *)

(** The calls of a start that spawns its child, in their order. *)
Definition prepared (r : start_request) : list call :=
  [ProbeUpdateLock; FetchCompose;
   GetInfo (match nonempty (compose_yaml r) with Some _ => true | None => false end) l4_bind_host;
   BuildContext (l4_handoff r l4_bind_host); Template; ApplyConfiguration; CreateCompose; NginxConf; CopyVolumes;
   ComposeUp (id r)].
(** The part of it before anything but the instance directory is touched. *)
Definition refusable (r : start_request) : list call := take 7 (prepared r).

Definition after_spawn (c : call) : Prop := c = GetStatus ∨ ∃ t, c = WriteToml t.

Definition start_outcome (r : start_request) (w : world) (res : result failure (list value * string)) (w' : world) : Prop :=
  match res with
  | Ok (ports, _) =>
      children w' = (children w ++ [Up (id r)])%list ∧ ports = allocated env (log w ++ take 3 (prepared r))%list ∧
      ∃ tail, log w' = (log w ++ prepared r ++ tail)%list ∧ Forall after_spawn tail
  | Raise (HTTPException code _) =>
      children w' = children w ∧ code ∈ [409; 422; 503]%Z ∧
      ∃ new, log w' = (log w ++ new)%list ∧ new `prefix_of` refusable r
  | Raise (Exc _) => children w' = children w ∧ ∃ new, log w' = (log w ++ new)%list ∧ new `prefix_of` prepared r
  end.

(** Only the two renderings refuse a configuration. *)
Definition renderings_refuse : Prop :=
  ∀ before c d, answer env before c = Some (ConfigRenderError d) → c = ApplyConfiguration ∨ c = CreateCompose.

(** After [k] calls of the preparation. *)
Definition at_stage (r : start_request) (w0 : world) (k : nat) (w : world) : Prop :=
  log w = (log w0 ++ take k (prepared r))%list ∧ children w = children w0 ∧ locked w = true.

Lemma perform_stage r w0 k c w (Q : result failure unit → world → Prop) :
  at_stage r w0 k w → prepared r !! k = Some c →
  (∀ w', at_stage r w0 (S k) w' → Q (Ok tt) w') →
  (∀ w' x, at_stage r w0 (S k) w' → answer env (log w) c = Some x → Q (Raise (Exc x)) w') →
  wp (perform c) Q w.
Proof.
  intros (Hl & Hc & Hk) Hp Hok Hraise. unfold perform, record_call.
  assert (at_stage r w0 (S k) (with_log (log w ++ [c])%list w)) as Hw.
  { unfold at_stage. rewrite (take_S_r _ _ _ Hp), app_assoc, <- Hl. by split_and!. }
  apply wp_bind, wp_bind, wp_get, wp_bind, wp_modify, wp_ret.
  destruct (answer env (log w) c) as [x|] eqn:Hx; [by apply wp_throw, Hraise|by apply wp_ret, Hok].
Qed.

Lemma stage_exc r w0 k w x : at_stage r w0 k w → start_outcome r w0 (Raise (Exc x)) w.
Proof. intros (Hl & Hc & _). split; [done|]. exists (take k (prepared r)). split; [done|]. by apply prefix_take. Qed.

Lemma stage_http r w0 k w code d :
  at_stage r w0 k w → (k ≤ 7)%nat → code ∈ [409; 422; 503]%Z → start_outcome r w0 (Raise (HTTPException code d)) w.
Proof.
  intros (Hl & Hc & _) Hk Hcode. split_and!; [done..|]. exists (take k (prepared r)). split; [done|].
  unfold refusable. replace (take k (prepared r)) with (take k (take 7 (prepared r))) by (rewrite take_take; f_equal; lia).
  apply prefix_take.
Qed.

(** Whatever a mapped call raises early, the outcome is a reply or a crash. *)
Lemma stage_mapped r w0 k w x f :
  at_stage r w0 k w → (k ≤ 7)%nat →
  (f (Exc x) = Exc x ∨ ∃ code d, f (Exc x) = HTTPException code d ∧ code ∈ [409; 422; 503]%Z) →
  start_outcome r w0 (Raise (f (Exc x))) w.
Proof.
  intros Hs Hk [->|(code & d & -> & Hc)]; [by eapply stage_exc|by eapply stage_http].
Qed.

Lemma on_fetch_codes x : on_fetch (Exc x) = Exc x ∨ ∃ code d, on_fetch (Exc x) = HTTPException code d ∧ code ∈ [409; 422; 503]%Z.
Proof. destruct x; simpl; try (by left); right; do 2 eexists; split; try done; by apply (bool_decide_unpack _). Qed.
Lemma on_info_codes x : on_info (Exc x) = Exc x ∨ ∃ code d, on_info (Exc x) = HTTPException code d ∧ code ∈ [409; 422; 503]%Z.
Proof. destruct x; simpl; try (by left); right; do 2 eexists; split; try done; by apply (bool_decide_unpack _). Qed.
Lemma on_render_codes x : on_render (Exc x) = Exc x ∨ ∃ code d, on_render (Exc x) = HTTPException code d ∧ code ∈ [409; 422; 503]%Z.
Proof. destruct x; simpl; try (by left); right; do 2 eexists; split; try done; by apply (bool_decide_unpack _). Qed.

Lemma stage_call r w0 k c w f (Q : result failure unit → world → Prop) :
  at_stage r w0 k w → prepared r !! k = Some c → (k < 7)%nat →
  (∀ x, f (Exc x) = Exc x ∨ ∃ code d, f (Exc x) = HTTPException code d ∧ code ∈ [409; 422; 503]%Z) →
  (∀ w', at_stage r w0 (S k) w' → Q (Ok tt) w') →
  (∀ w' e, start_outcome r w0 (Raise e) w' → locked w' = true → Q (Raise e) w') →
  wp (except (perform c) f) Q w.
Proof.
  intros Hs Hp Hk Hf Hok Hraise. unfold except. apply wp_catch. eapply perform_stage; [exact Hs|exact Hp|exact Hok|].
  intros w' x Hs' _. apply wp_throw, Hraise; [|by destruct Hs' as (_ & _ & ?)]. eapply stage_mapped; [exact Hs'|lia|apply Hf].
Qed.

Lemma except_same {A} (m : M world failure A) (Q : result failure A → world → Prop) w :
  wp (except m (λ e, e)) Q w → wp m Q w.
Proof. unfold wp, except, catch, throw. by destruct (m w) as [[a|e] w']. Qed.

(** The part after the child exists never raises and spawns nothing. *)
Definition settled (w0 w : world) : Prop :=
  children w = children w0 ∧ locked w = locked w0 ∧ ∃ tail, log w = (log w0 ++ tail)%list ∧ Forall after_spawn tail.

Lemma settled_refl w : settled w w.
Proof. split_and!; [done..|]. exists []. by rewrite app_nil_r. Qed.
Lemma settled_log w0 w c : after_spawn c → settled w0 w → settled w0 (with_log (log w ++ [c])%list w).
Proof.
  intros Hc (H1 & H2 & tail & H3 & H4). split_and!; [done..|]. exists (tail ++ [c])%list. simpl. split; [by rewrite H3, app_assoc|].
  apply Forall_app. split; [done|by constructor].
Qed.

Lemma poll_settled fuel deadline w0 w :
  settled w0 w → wp (poll_until fuel deadline) (λ r w', (∃ b, r = Ok b) ∧ settled w0 w') w.
Proof.
  revert w. induction fuel as [|fuel IH]; intros w Hw; simpl; [apply wp_ret; by eauto|].
  apply wp_bind, wp_get. destruct (_ <? _)%Z; [|apply wp_ret; by eauto].
  apply wp_bind. unfold record_call. apply wp_bind, wp_get, wp_bind, wp_modify, wp_ret.
  apply wp_bind, wp_modify. assert (settled w0 (with_log (log w ++ [GetStatus])%list w)) as Hl by (apply settled_log; [by left|done]).
  destruct (bool_decide _); [apply wp_ret; split; [by eexists|exact Hl]|].
  apply wp_bind, wp_modify. apply IH. exact Hl.
Qed.

Lemma wait_settled w0 w :
  settled w0 w → wp _wait_for_compose_running (λ r w', (∃ b, r = Ok b) ∧ settled w0 w') w.
Proof. intros Hw. apply wp_bind, wp_get. by apply poll_settled. Qed.

Lemma write_settled toml w0 w :
  settled w0 w → wp (_write_pushed_client_toml toml) (λ r w', (∃ st, r = Ok st) ∧ settled w0 w') w.
Proof.
  intros Hw. unfold _write_pushed_client_toml. destruct toml as [c|]; [|apply wp_ret; by eauto].
  destruct (String.eqb _ _); [apply wp_ret; by eauto|]. apply wp_bind. unfold record_call.
  apply wp_bind, wp_get, wp_bind, wp_modify, wp_ret, wp_ret. split; [by eexists|]. apply settled_log; [right; by eexists|done].
Qed.

Lemma refuse_stage r w0 (Q : result failure unit → world → Prop) :
  locked w0 = true → (∀ w', at_stage r w0 1 w' → Q (Ok tt) w') →
  (∀ w' e, start_outcome r w0 (Raise e) w' → locked w' = true → Q (Raise e) w') →
  wp _refuse_if_updating Q w0.
Proof.
  intros Hl Hok Hraise. unfold _refuse_if_updating, record_call. apply wp_bind, wp_bind, wp_get, wp_bind, wp_modify, wp_ret.
  assert (at_stage r w0 1 (with_log (log w0 ++ [ProbeUpdateLock])%list w0)) as Hs by done.
  apply wp_when; [|by auto]. intros _. apply wp_throw, Hraise; [|done].
  eapply stage_http; [exact Hs|lia|by apply (bool_decide_unpack _)].
Qed.

(** The block that renders the compose, copies the files and spawns the child. *)
Lemma spawn_stage r w0 w (Q : result failure unit → world → Prop) :
  renderings_refuse → at_stage r w0 6 w →
  (∀ w', log w' = (log w0 ++ prepared r)%list → children w' = (children w0 ++ [Up (id r)])%list → locked w' = true → Q (Ok tt) w') →
  (∀ w' e, start_outcome r w0 (Raise e) w' → locked w' = true → Q (Raise e) w') →
  wp (except (perform CreateCompose;; perform NginxConf;; perform CopyVolumes;; spawn (ComposeUp (id r)) (Up (id r))) on_render) Q w.
Proof.
  intros Hr Hs Hok Hraise. unfold except. apply wp_catch.
  assert (∀ k w' x c before, at_stage r w0 k w' → answer env before c = Some x → c ≠ ApplyConfiguration → c ≠ CreateCompose →
    Q (Raise (on_render (Exc x))) w') as Hlate.
  { intros k w' x c before Hk Hx H1 H2. assert (on_render (Exc x) = Exc x) as ->.
    { destruct x; try done. by destruct (Hr _ _ _ Hx). }
    apply Hraise; [by eapply stage_exc|by destruct Hk as (_ & _ & ?)]. }
  apply wp_bind. eapply perform_stage; [exact Hs|done| |].
  2: { intros w' x Hk _. apply wp_throw, Hraise; [|by destruct Hk as (_ & _ & ?)].
       eapply stage_mapped; [exact Hk|lia|apply on_render_codes]. }
  intros w1 H1. apply wp_bind. eapply perform_stage; [exact H1|done| |intros w' x Hk Hx; apply wp_throw; by eapply Hlate].
  intros w2 H2. apply wp_bind. eapply perform_stage; [exact H2|done| |intros w' x Hk Hx; apply wp_throw; by eapply Hlate].
  intros w3 H3. apply wp_bind. eapply perform_stage; [exact H3|done| |intros w' x Hk Hx; apply wp_throw; by eapply Hlate].
  intros w4 (Hl & Hc & Hk). apply wp_modify, Hok; simpl; [done|by rewrite Hc|done].
Qed.

Lemma start_body_spec r w0 :
  renderings_refuse → locked w0 = true → wp (start_body r) (λ res w', start_outcome r w0 res w' ∧ locked w' = true) w0.
Proof.
  intros Hr Hl. unfold start_body.
  apply wp_bind. eapply refuse_stage; [done| |by auto]. intros w1 H1.
  apply wp_bind. eapply (stage_call r w0 1); [exact H1|done|lia|apply on_fetch_codes| |by auto]. intros w2 H2.
  apply wp_bind. eapply (stage_call r w0 2); [exact H2|done|lia|apply on_info_codes| |by auto]. intros w3 H3.
  apply wp_bind, wp_get.
  apply wp_bind. apply except_same. eapply (stage_call r w0 3); [exact H3|done|lia|by left| |by auto]. intros w4 H4.
  apply wp_bind. apply except_same. eapply (stage_call r w0 4); [exact H4|done|lia|by left| |by auto]. intros w5 H5.
  apply wp_bind. eapply (stage_call r w0 5); [exact H5|done|lia|apply on_render_codes| |by auto]. intros w6 H6.
  apply wp_bind. eapply spawn_stage; [done|exact H6| |by auto]. intros w7 Hlog Hc Hk.
  assert (∀ w', settled w7 w' → start_outcome r w0 (Ok (allocated env (log w3), "")) w' ∧ locked w' = true) as Hend.
  { intros w' (S1 & S2 & tail & S3 & S4). split; [|by rewrite S2]. split_and!; [by rewrite S1| |].
    - by rewrite (proj1 H3).
    - exists tail. by rewrite S3, Hlog, app_assoc. }
  apply wp_bind.
  assert (wp (match tunnel_client_toml r with
              | Some _ => if String.eqb (greffer_tunnel_client_config_path cfg) "" then mret tt
                          else _wait_for_compose_running;; mret tt
              | None => mret tt end) (λ res w', res = Ok tt ∧ settled w7 w') w7) as Hwait.
  { destruct (tunnel_client_toml r); [|apply wp_ret; split; [done|apply settled_refl]].
    destruct (String.eqb _ _); [apply wp_ret; split; [done|apply settled_refl]|].
    apply wp_bind. eapply wp_mono; [apply wait_settled, settled_refl|]. intros res w' [[b ->] Hs]. by apply wp_ret. }
  eapply wp_mono; [exact Hwait|]. intros res w8 [-> H8]. apply wp_bind.
  eapply wp_mono; [by apply write_settled|]. intros res w9 [[st ->] H9]. apply wp_ret. exact (Hend w9 H9).
Qed.

(** The fuel of the polls is enough: every turn but the last waits half a second. *)
Lemma poll_ends fuel deadline w :
  (deadline - now w <= _COMPOSE_READY_POLL_INTERVAL * (Z.of_nat fuel - 1))%Z → fuel ≠ 0%nat →
  wp (poll_until fuel deadline) (λ r _, r = Ok true) w.
Proof.
  unfold _COMPOSE_READY_POLL_INTERVAL. revert w. induction fuel as [|fuel IH]; intros w Hd Hf; [done|]. simpl.
  apply wp_bind, wp_get. destruct (Z.ltb_spec (now w) deadline); [|by apply wp_ret].
  apply wp_bind. unfold record_call. apply wp_bind, wp_get, wp_bind, wp_modify, wp_ret, wp_bind, wp_modify.
  destruct (bool_decide _); [by apply wp_ret|]. apply wp_bind, wp_modify. apply IH; simpl;
    [unfold _COMPOSE_READY_POLL_INTERVAL; lia|]. intros ->. lia.
Qed.

Lemma wait_ends w : wp _wait_for_compose_running (λ r _, r = Ok true) w.
Proof. apply wp_bind, wp_get, poll_ends; [|done]. unfold _COMPOSE_READY_TIMEOUT, _COMPOSE_READY_POLL_INTERVAL. lia. Qed.
End ops.
End Ops.

(** C4: A start is all or nothing for whoever asked for it: a reply of success
    means that every step of the preparation ran in its order and exactly one
    compose child of the instance was spawned, after all of them; a refusal, with
    one of 409, 422 and 503, means that no volume was touched and no child
    spawned, and any other failure that no child was spawned; in every case the
    lock of the instance is as it was. *)
Theorem start_all_or_nothing (env : Ops.environment) (cfg : Ops.settings) (r : Ops.start_request) (w : Ops.world)
    (Hrefuse : Ops.renderings_refuse env) :
  wp (Ops.start_greffon env cfg r)
    (λ res w', Ops.start_outcome env cfg r w res w' ∧ Ops.locked w' = Ops.locked w) w.
Proof.
  apply serialize_spec.
  - intros Hl. split; [|done]. split_and!; [done|by apply (bool_decide_unpack _)|]. exists []. rewrite app_nil_r.
    split; [done|apply prefix_nil].
  - intros Hl. eapply wp_mono; [by apply Ops.start_body_spec|]. intros res w' [Ho _]. split; [|by rewrite Hl].
    destruct res as [[ports st]|[code d|x]]; exact Ho.
Qed.

(** ** The pushed client.toml *)
Module Toml.

Lemma string_app_length (a b : string) : String.length (a +:+ b) = (String.length a + String.length b)%nat.
Proof.
  induction a as [|c a IH]; [done|]. change (String c a +:+ b) with (String c (a +:+ b)). simpl. by rewrite IH.
Qed.

(** Where a run of [write_client_toml] is: before [mkstemp], with the temporary
    file open, with it closed, and at its end. *)
Inductive stage : Type := Begin | Writing (tmp : string) | Synced (tmp : string) | Done (o : Ops.written).
Record writer : Type := Writer { content : string; at_stage : stage }.

(** The directory of the file, the runs, and the temporary files whose removal
    failed. *)
Record state : Type := State { files : gmap string string; writers : list writer; litter : list string }.

(** The atomic parts of a run, and how each can fail; [unlinked] tells whether the
    [finally] could remove the temporary file. *)
Inductive event : Type :=
  | MadeTemp (random : string)
  | Flushed (n : nat)             (** so many characters have reached the file *)
  | ClosedTemp                    (** all of them, synced *)
  | Replaced                      (** [os.replace] *)
  | RaisedOSError (unlinked : bool)
  | RaisedOther (unlinked : bool).

Section toml.
Context (target : string).

Definition temp_name (random : string) : string := "." +:+ target +:+ "." +:+ random +:+ ".tmp".

Definition move (i : nat) (w : writer) (st : stage) (fs : gmap string string) (s : state) : state :=
  State fs (<[i := Writer (content w) st]> (writers s)) (litter s).

(** The [finally] of a run that holds a temporary file. *)
Definition clean_up (i : nat) (w : writer) (tmp : string) (unlinked : bool) (o : Ops.written) (s : state) : state :=
  if unlinked then move i w (Done o) (delete tmp (files s)) s
  else State (files s) (<[i := Writer (content w) (Done o)]> (writers s)) (tmp :: litter s).

(** An event that cannot happen changes nothing; [mkstemp] never opens a file that
    exists. *)
Definition write_client_toml (s : state) (ev : nat * event) : state :=
  let '(i, e) := ev in
  match writers s !! i with
  | None => s
  | Some w =>
      match at_stage w, e with
      | Begin, MadeTemp r =>
          if bool_decide (files s !! temp_name r = None)
          then move i w (Writing (temp_name r)) (<[temp_name r := ""]> (files s)) s else s
      | Begin, RaisedOSError _ => move i w (Done Ops.TunnelConfigWriteError) (files s) s
      | Begin, RaisedOther _ => move i w (Done Ops.WriteFailed) (files s) s
      | Writing tmp, Flushed n => move i w (Writing tmp) (<[tmp := String.substring 0 n (content w)]> (files s)) s
      | Writing tmp, ClosedTemp => move i w (Synced tmp) (<[tmp := content w]> (files s)) s
      | Synced tmp, Replaced =>
          match files s !! tmp with
          | Some c => move i w (Done Ops.Written) (<[target := c]> (delete tmp (files s))) s
          | None => s
          end
      | Writing tmp, RaisedOSError u | Synced tmp, RaisedOSError u => clean_up i w tmp u Ops.TunnelConfigWriteError s
      | Writing tmp, RaisedOther u | Synced tmp, RaisedOther u => clean_up i w tmp u Ops.WriteFailed s
      | _, _ => s
      end
  end.

(** Any number of runs over one directory, their parts in any order. *)
Definition run (files0 : gmap string string) (contents : list string) (es : list (nat * event)) : state :=
  foldl write_client_toml (State files0 (map (λ c, Writer c Begin) contents) []) es.

Definition holds (w : writer) (tmp : string) : Prop := at_stage w = Writing tmp ∨ at_stage w = Synced tmp.

(** What holds at every moment. *)
Record sound (files0 : gmap string string) (s : state) : Prop := Sound {
  whole : (files s !! target = files0 !! target ∧ ∀ i w, writers s !! i = Some w → at_stage w ≠ Done Ops.Written) ∨
          ∃ i w, writers s !! i = Some w ∧ at_stage w = Done Ops.Written ∧ files s !! target = Some (content w);
  own : ∀ i w tmp, writers s !! i = Some w → holds w tmp → tmp ≠ target ∧ files0 !! tmp = None;
  apart : ∀ i j w v tmp, writers s !! i = Some w → writers s !! j = Some v → holds w tmp → holds v tmp → i = j;
  present : ∀ i w tmp, writers s !! i = Some w → holds w tmp → is_Some (files s !! tmp);
  synced : ∀ i w tmp, writers s !! i = Some w → at_stage w = Synced tmp → files s !! tmp = Some (content w);
  others : ∀ f, f ≠ target → files s !! f = files0 !! f ∨
             files0 !! f = None ∧ ((∃ i w, writers s !! i = Some w ∧ holds w f) ∨ f ∈ litter s);
}.

Lemma temp_other r : temp_name r ≠ target.
Proof.
  intros H. assert (String.length (temp_name r) = String.length target) as Hl by by rewrite H.
  unfold temp_name in Hl. rewrite !string_app_length in Hl. simpl in Hl. lia.
Qed.

(** What a run may do to the directory, in one step. *)
Lemma moved files0 s i w w' fs lit :
  sound files0 s → writers s !! i = Some w → at_stage w ≠ Done Ops.Written → content w' = content w →
  (fs !! target = files s !! target ∧ at_stage w' ≠ Done Ops.Written) ∨
    (at_stage w' = Done Ops.Written ∧ fs !! target = Some (content w')) →
  (∀ tmp, holds w' tmp → (tmp ≠ target ∧ files0 !! tmp = None ∧ is_Some (fs !! tmp) ∧
     (at_stage w' = Synced tmp → fs !! tmp = Some (content w'))) ∧
     ∀ j v, j ≠ i → writers s !! j = Some v → ¬ holds v tmp) →
  (∀ j v f, j ≠ i → writers s !! j = Some v → holds v f → fs !! f = files s !! f) →
  (∀ f, f ∈ litter s → f ∈ lit) →
  (∀ f, f ≠ target → (fs !! f = files s !! f ∧ ¬ holds w f) ∨ files0 !! f = None ∧ (holds w' f ∨ f ∈ lit ∨ fs !! f = None)) →
  sound files0 (State fs (<[i := w']> (writers s)) lit).
Proof.
  intros [Hwhole Hown Hapart Hpresent Hsynced Hothers] Hw Hnot Hcont Ht Hheld Hkeep Hlit Hf.
  pose proof (lookup_lt_Some _ _ _ Hw) as Hlt.
  split; simpl.
  - destruct Ht as [[Ht Hn]|[Hd Ht]]; [|right; exists i, w'; split; [by apply list_lookup_insert_eq|done]].
    rewrite Ht. destruct Hwhole as [[He Hall]|(j & v & Hv & Hd & Hc)]; [left|right; exists j, v].
    + split; [done|]. intros j v [(_ & <- & _)|[_ H]]%list_lookup_insert_Some; [done|by eapply Hall].
    + split; [|done]. rewrite list_lookup_insert_ne; [done|]. congruence.
  - intros j v tmp [(_ & <- & _)|[_ Hv]]%list_lookup_insert_Some H; [by apply Hheld in H as [(? & ? & _) _]|by eapply Hown].
  - intros j k v u tmp Hv Hu H1 H2. apply list_lookup_insert_Some in Hv, Hu.
    destruct Hv as [(-> & <- & _)|[Hj Hv]], Hu as [(-> & <- & _)|[Hk Hu]]; [done| | |by eapply Hapart].
    + destruct (Hheld _ H1) as [_ H]. by destruct (H k u).
    + destruct (Hheld _ H2) as [_ H]. by destruct (H j v).
  - intros j v tmp [(_ & <- & _)|[Hj Hv]]%list_lookup_insert_Some H; [by apply Hheld in H as [(_ & _ & ? & _) _]|].
    rewrite (Hkeep j v tmp); [by eapply Hpresent|congruence|done|done].
  - intros j v tmp [(_ & <- & _)|[Hj Hv]]%list_lookup_insert_Some H.
    + destruct (Hheld tmp) as [(_ & _ & _ & Hs) _]; [by right|by apply Hs].
    + rewrite (Hkeep j v tmp); [by eapply Hsynced|congruence|done|by right].
  - intros f Hft. destruct (Hf f Hft) as [[He Hh]|[H0 [Hh|[Hh|Hh]]]].
    + rewrite He. destruct (Hothers f Hft) as [Ho|[Ho [(j & v & Hv & Hh')|Hl]]]; [by left| |by auto].
      right. split; [done|]. left. exists j, v. split; [|done]. rewrite list_lookup_insert_ne; [done|]. congruence.
    + right. split; [done|]. left. exists i, w'. split; [by apply list_lookup_insert_eq|done].
    + by auto.
    + left. by rewrite Hh.
Qed.

Lemma not_held st w tmp : at_stage w = st → match st with Begin | Done _ => True | _ => False end → ¬ holds w tmp.
Proof. unfold holds. intros -> H [Hs|Hs]; by rewrite Hs in H. Qed.

Lemma holds_unique w a b : holds w a → holds w b → a = b.
Proof. unfold holds. intros [Ha|Ha] [Hb|Hb]; congruence. Qed.

Lemma cleaned files0 s i w tmp u o :
  sound files0 s → writers s !! i = Some w → holds w tmp → o ≠ Ops.Written → sound files0 (clean_up i w tmp u o s).
Proof.
  intros Hs Hw Hh Ho. destruct (own _ _ Hs _ _ _ Hw Hh) as [Ht H0].
  assert (at_stage w ≠ Done Ops.Written) as Hnot by (by destruct Hh as [->| ->]).
  unfold clean_up, move. destruct u; (eapply moved; [done|done|done|done| | | | |]; simpl).
  - left. split; [by rewrite lookup_delete_ne|congruence].
  - intros f Hf. by destruct (not_held (Done o) (Writer (content w) (Done o)) f eq_refl I Hf).
  - intros j v f Hj Hv Hf. rewrite lookup_delete_ne; [done|]. intros ->. apply Hj. by eapply (apart _ _ Hs).
  - done.
  - intros f Hf. destruct (decide (f = tmp)) as [->|Hne]; [right; split; [done|]; right; right; by rewrite lookup_delete_eq|].
    left. rewrite lookup_delete_ne by done. split; [done|]. intros Hf'. apply Hne.
    by apply (holds_unique w).
  - left. split; [done|congruence].
  - intros f Hf. by destruct (not_held (Done o) (Writer (content w) (Done o)) f eq_refl I Hf).
  - done.
  - intros f Hf. by right.
  - intros f Hf. destruct (decide (f = tmp)) as [->|Hne]; [right; split; [done|]; right; left; by left|].
    left. split; [done|]. intros Hf'. apply Hne.
    by apply (holds_unique w).
Qed.

Lemma failed_early files0 s i w o :
  sound files0 s → writers s !! i = Some w → at_stage w = Begin → o ≠ Ops.Written →
  sound files0 (move i w (Done o) (files s) s).
Proof.
  intros Hs Hw Hb Ho. eapply moved; [done|done|by rewrite Hb|done| | | |done|].
  - left. split; [done|simpl; congruence].
  - intros f Hf. by destruct (not_held (Done o) (Writer (content w) (Done o)) f eq_refl I Hf).
  - done.
  - intros f _. left. split; [done|]. by apply (not_held Begin).
Qed.

Lemma opened files0 s i w r :
  sound files0 s → writers s !! i = Some w → at_stage w = Begin →
  sound files0 (if bool_decide (files s !! temp_name r = None)
                then move i w (Writing (temp_name r)) (<[temp_name r := ""]> (files s)) s else s).
Proof.
  intros Hs Hw Hb. case_bool_decide as Hfree; [|done]. pose proof (temp_other r) as Hother.
  assert (files0 !! temp_name r = None) as H0.
  { destruct (others _ _ Hs _ Hother) as [H|[H _]]; [by rewrite <- H|done]. }
  assert (∀ f, holds (Writer (content w) (Writing (temp_name r))) f → f = temp_name r) as Hheld.
  { intros f [[= H]|[=]]. done. }
  assert (∀ j v, writers s !! j = Some v → ¬ holds v (temp_name r)) as Hnew.
  { intros j v Hv Hh. destruct (present _ _ Hs _ _ _ Hv Hh) as [? H]. by rewrite Hfree in H. }
  eapply moved; [done|done|by rewrite Hb|done| | | |done|]; simpl.
  - left. split; [by rewrite lookup_insert_ne|done].
  - intros f ->%Hheld. split; [split_and!|by eauto]; [done|done|by rewrite lookup_insert_eq|done].
  - intros j v f _ Hv Hh. rewrite lookup_insert_ne; [done|]. intros <-. by eapply Hnew.
  - intros f _. destruct (decide (f = temp_name r)) as [->|Hne]; [right; split; [done|]; left; by left|].
    left. rewrite lookup_insert_ne by done. split; [done|]. by apply (not_held Begin).
Qed.

Lemma filled files0 s i w tmp st c :
  sound files0 s → writers s !! i = Some w → at_stage w = Writing tmp → st = Writing tmp ∨ st = Synced tmp →
  (st = Synced tmp → c = content w) → sound files0 (move i w st (<[tmp := c]> (files s)) s).
Proof.
  intros Hs Hw Hst Hnext Hc. assert (holds w tmp) as Hh by (by left). destruct (own _ _ Hs _ _ _ Hw Hh) as [Ht H0].
  assert (∀ f, holds (Writer (content w) st) f → f = tmp) as Hheld.
  { intros f [H|H]; simpl in H; destruct Hnext; congruence. }
  eapply moved; [done|done|by rewrite Hst|done| | | |done|]; simpl.
  - left. split; [by rewrite lookup_insert_ne|]. destruct Hnext as [->| ->]; done.
  - intros f ->%Hheld. rewrite lookup_insert_eq. split; [split_and!; [done|done|done|]|].
    + intros H. by rewrite (Hc H).
    + intros j v Hj Hv Hv'. apply Hj. by eapply (apart _ _ Hs).
  - intros j v f Hj Hv Hv'. rewrite lookup_insert_ne; [done|]. intros <-. apply Hj. by eapply (apart _ _ Hs).
  - intros f _. destruct (decide (f = tmp)) as [->|Hne].
    + right. split; [done|]. left. by destruct Hnext as [->| ->]; [left|right].
    + left. rewrite lookup_insert_ne by done. split; [done|]. intros Hf. by destruct Hne, (holds_unique w f tmp Hf Hh).
Qed.

Lemma replaced files0 s i w tmp :
  sound files0 s → writers s !! i = Some w → at_stage w = Synced tmp →
  sound files0 (move i w (Done Ops.Written) (<[target := content w]> (delete tmp (files s))) s).
Proof.
  intros Hs Hw Hst. assert (holds w tmp) as Hh by (by right). destruct (own _ _ Hs _ _ _ Hw Hh) as [Ht H0].
  eapply moved; [done|done|by rewrite Hst|done| | | |done|]; simpl.
  - right. split; [done|]. by rewrite lookup_insert_eq.
  - intros f Hf. by destruct (not_held (Done Ops.Written) (Writer (content w) (Done Ops.Written)) f eq_refl I Hf).
  - intros j v f Hj Hv Hv'. destruct (own _ _ Hs _ _ _ Hv Hv') as [Hft _]. rewrite lookup_insert_ne, lookup_delete_ne; [done| |done].
    intros <-. apply Hj. by eapply (apart _ _ Hs).
  - intros f Hft. rewrite lookup_insert_ne by done. destruct (decide (f = tmp)) as [->|Hne].
    + right. split; [done|]. right; right. by rewrite lookup_delete_eq.
    + left. rewrite lookup_delete_ne by done. split; [done|]. intros Hf. by destruct Hne, (holds_unique w f tmp Hf Hh).
Qed.

Lemma step_sound files0 s ev : sound files0 s → sound files0 (write_client_toml s ev).
Proof.
  intros Hs. destruct ev as [i e]. unfold write_client_toml. destruct (writers s !! i) as [w|] eqn:Hw; [|done].
  destruct (at_stage w) as [|tmp|tmp|o] eqn:Hst; destruct e as [r|n| | |u|u]; try done.
  all: try (eapply cleaned; [done|done|first [by left|by right]|done]).
  - by apply opened.
  - by apply failed_early.
  - by apply failed_early.
  - eapply filled; [done|done|done|by auto|by intros [=]].
  - eapply filled; [done|done|done|by auto|done].
  - destruct (files s !! tmp) as [c|] eqn:Hc; [|done].
    assert (c = content w) as -> by (pose proof (synced _ _ Hs _ _ _ Hw Hst); congruence). by apply replaced.
Qed.

(** A run never changes what it writes. *)
Lemma contents_kept files0 contents es i w :
  writers (run files0 contents es) !! i = Some w → contents !! i = Some (content w).
Proof.
  unfold run. revert i w. induction es as [|[i e] es IH] using rev_ind; intros k v.
  - intros H. apply list_lookup_fmap_Some in H as (c & -> & H). exact H.
  - rewrite foldl_snoc. set (s := foldl _ _ es) in *. unfold write_client_toml, clean_up, move.
    intros H. repeat case_match; simpl in H; try (by apply IH);
      apply list_lookup_insert_Some in H as [(-> & <- & _)|[_ H]]; simpl; by apply IH.
Qed.

Lemma run_sound files0 contents es : sound files0 (run files0 contents es).
Proof.
  unfold run. induction es as [|e es IH] using rev_ind; [|rewrite foldl_snoc; by apply step_sound].
  assert (∀ i w, map (λ c, Writer c Begin) contents !! i = Some w → at_stage w = Begin) as Hb.
  { intros i w H. apply list_lookup_fmap_Some in H as (c & -> & _). done. }
  split; simpl.
  - left. split; [done|]. intros i w H%Hb. by rewrite H.
  - intros i w tmp H%Hb [Hh|Hh]; congruence.
  - intros i j w v tmp H%Hb _ [Hh|Hh]; congruence.
  - intros i w tmp H%Hb [Hh|Hh]; congruence.
  - intros i w tmp H%Hb Hh; congruence.
  - by left.
Qed.
End toml.

(** What a run answers. *)
Definition reply_of (w : writer) : option Ops.written := match at_stage w with Done o => Some o | _ => None end.
End Toml.

(** C23: However the runs of the writer interleave and wherever they stop or fail,
    client.toml is at every moment either what it was, as long as no run has
    succeeded, or the whole text of a run that has; every other file of the
    directory is as it was, but for the temporary files of runs that are not over
    and those whose removal failed. *)
Theorem client_toml_never_torn (target : string) (files0 : gmap string string) (contents : list string)
    (es : list (nat * Toml.event)) :
  let s := Toml.run target files0 contents es in
  ((Toml.files s !! target = files0 !! target ∧
      ∀ i w, Toml.writers s !! i = Some w → Toml.reply_of w ≠ Some Ops.Written) ∨
   ∃ i w, Toml.writers s !! i = Some w ∧ Toml.reply_of w = Some Ops.Written ∧
     contents !! i = Some (Toml.content w) ∧ Toml.files s !! target = Some (Toml.content w)) ∧
  ∀ f, f ≠ target → Toml.files s !! f = files0 !! f ∨ f ∈ Toml.litter s ∨
    ∃ i w, Toml.writers s !! i = Some w ∧ Toml.holds w f ∧ Toml.reply_of w = None.
Proof.
  intros s. destruct (Toml.run_sound target files0 contents es) as [Hwhole _ _ _ _ Hothers]. fold s in Hwhole, Hothers.
  assert (∀ w, Toml.reply_of w = Some Ops.Written ↔ Toml.at_stage w = Toml.Done Ops.Written) as Hreply.
  { intros w. unfold Toml.reply_of. destruct (Toml.at_stage w); split; congruence. }
  split.
  - destruct Hwhole as [[He Hall]|(i & w & Hw & Hd & Hc)]; [left; split; [done|]|right; exists i, w; rewrite Hreply].
    2: { split_and!; [done|done|by eapply Toml.contents_kept|done]. }
    intros i w Hw Hd%Hreply. by eapply Hall.
  - intros f Hf. destruct (Hothers f Hf) as [H|[_ [(i & w & Hw & Hh)|H]]]; [by left| |by auto].
    right; right. exists i, w. split_and!; [done|done|]. unfold Toml.reply_of. by destruct Hh as [->| ->].
Qed.

(** ** Decommission *)
Module Decommission.

(** The docker volumes, the instance directory and its compose file, and the lock
    of the instance with its reservation. *)
Record host : Type := Host {
  volumes : list string; directory : bool; compose_file : bool; locked : bool; handoff : bool }.
Definition with_volumes (vs : list string) (h : host) : host := Host vs (directory h) (compose_file h) (locked h) (handoff h).
Definition without_directory (h : host) : host := Host (volumes h) false false (locked h) (handoff h).
Definition with_compose_file (b : bool) (h : host) : host := Host (volumes h) (directory h) b (locked h) (handoff h).
Definition with_locked (b : bool) (h : host) : host := Host (volumes h) (directory h) (compose_file h) b (handoff h).
Definition with_handoff (b : bool) (h : host) : host := Host (volumes h) (directory h) (compose_file h) (locked h) b.

(** What the tear-down meets: how [docker-compose down] ends ([None]: an
    exception, else its exit code) and which volumes it leaves, whether each of
    the two listings answers, the volumes in use, what [shutil.rmtree] leaves of
    the directory ([None]: nothing, else whether the compose file is still in it),
    and whether an update holds the lock. *)
Record weather : Type := Weather {
  updating : bool;
  down_code : option Z;
  down_leaves : list string → list string;
  ls_answers : nat → bool;
  in_use : string → bool;
  rmtree_leaves : option bool;
}.

Section decommission.
Context (e : weather).

(** [docker volume ls -q -f name=<id>_], whose filter is a substring match, and the
    filter of [list_instance_volumes] on its lines. *)
Definition list_instance_volumes (n : nat) (id : string) : M host failure (list string) :=
  h ← get;
  if ls_answers e n then
    mret (List.filter (λ v, startswith (id +:+ "_") v) (List.filter (λ v, contains (id +:+ "_") v) (volumes h)))
  else throw (Exc (OtherError "RuntimeError")).

(** [docker volume rm -f]: one in use stays. *)
Definition rm_volume (name : string) (h : host) : host :=
  if in_use e name then h
  else with_volumes (List.filter (λ v, negb (String.eqb v name)) (volumes h)) h.
Definition remove_instance_volumes (id : string) : M host failure (list string) :=
  names ← list_instance_volumes 0 id;
  forS names (λ name, modify (rm_volume name));;
  mret names.

(** [compose.down], skipped without a compose file. *)
Definition down : M host failure unit :=
  h ← get;
  if compose_file h then
    match down_code e with
    | None => throw (Exc (OtherError "TimeoutExpired"))
    | Some _ => modify (λ h, with_volumes (down_leaves e (volumes h)) h)
    end
  else mret tt.

Definition rmtree : M host failure unit :=
  modify (λ h, match rmtree_leaves e with
    | None => without_directory h
    | Some kept => with_compose_file (compose_file h && kept) h
    end).

(** The prune, and the check that nothing is left. *)
Definition prune_and_verify (id : string) : M host failure (list string) :=
  removed ← remove_instance_volumes id;
  rmtree;;
  residual ← list_instance_volumes 1 id;
  h ← get;
  if negb (bool_decide (residual = [])) || directory h then throw (HTTPException 500 "decommission_incomplete")
  else mret removed.

Definition decommission_body (id : string) : M host failure (list string) :=
  if updating e then throw (HTTPException 409 "update_in_progress")
  else down;; prune_and_verify id.

Definition decommission_greffon (id : string) : M host failure (list string) :=
  _serialize_instance_op locked with_locked with_handoff (decommission_body id).

(** *** What it promises *)

Definition owned (id v : string) : bool := startswith (id +:+ "_") v.

Lemma startswith_contains p s : startswith p s = true → contains p s = true.
Proof. destruct s as [|c s]; cbn [contains]; intros ->; done. Qed.

Lemma listed id vs :
  List.filter (λ v, startswith (id +:+ "_") v) (List.filter (λ v, contains (id +:+ "_") v) vs) = List.filter (owned id) vs.
Proof.
  unfold owned. induction vs as [|v vs IH]; [done|]. cbn [List.filter].
  destruct (contains (id +:+ "_") v) eqn:Hc; cbn [List.filter].
  - by rewrite IH.
  - destruct (startswith (id +:+ "_") v) eqn:Hs; [|done]. by rewrite (startswith_contains _ _ Hs) in Hc.
Qed.

Lemma list_spec n id h :
  wp (list_instance_volumes n id) (λ r h', h' = h ∧
    r = if ls_answers e n then Ok (List.filter (owned id) (volumes h)) else Raise (Exc (OtherError "RuntimeError"))) h.
Proof.
  unfold list_instance_volumes. apply wp_bind, wp_get. destruct (ls_answers e n); [|by apply wp_throw].
  apply wp_ret. by rewrite listed.
Qed.

(** What removing some names leaves. *)
Definition left_of (names vs : list string) : list string :=
  List.filter (λ v, negb (existsb (String.eqb v) names && negb (in_use e v))) vs.

Lemma forS_rm names h :
  wp (forS names (λ name, modify (rm_volume name)) : M host failure unit)
    (λ r h', r = Ok tt ∧ volumes h' = left_of names (volumes h) ∧ directory h' = directory h) h.
Proof.
  revert h. induction names as [|name names IH]; intros h; simpl.
  - apply wp_ret. split_and!; try done. unfold left_of. simpl. induction (volumes h) as [|v vs IHv]; [done|]. simpl. by f_equal.
  - apply wp_bind, wp_modify. eapply wp_mono; [apply IH|]. intros r h' (-> & Hv & Hd). split; [done|]. unfold rm_volume in *.
    destruct (in_use e name) eqn:Hu; simpl in *.
    + split; [|done]. rewrite Hv. unfold left_of. apply filter_ext. intros v. cbn [existsb].
      destruct (String.eqb_spec v name) as [->|]; [|done]. rewrite Hu. by rewrite !andb_false_r.
    + split; [|done]. rewrite Hv. unfold left_of. rewrite InstanceContext.filter_filter. apply filter_ext. intros v. cbn [existsb].
      destruct (String.eqb_spec v name) as [->|]; [|done]. rewrite Hu. done.
Qed.

(** The volumes once the containers are down. *)
Definition after_down (h : host) : list string := if compose_file h then down_leaves e (volumes h) else volumes h.

(** Everything works and none of the volumes is in use. *)
Definition fair (id : string) (h : host) : Prop :=
  updating e = false ∧ down_code e ≠ None ∧ ls_answers e 0 = true ∧ ls_answers e 1 = true ∧ rmtree_leaves e = None ∧
  Forall (λ v, owned id v = true → in_use e v = false) (after_down h).

Definition torn_down (id : string) (h : host) (r : result failure (list string)) (h' : host) : Prop :=
  (∀ removed, r = Ok removed →
     Forall (λ v, owned id v = false) (volumes h') ∧ directory h' = false ∧
     removed = List.filter (owned id) (after_down h)) ∧
  (fair id h → ∃ removed, r = Ok removed) ∧
  (∀ v, owned id v = false → v ∈ volumes h → v ∈ after_down h → v ∈ volumes h').

Lemma elem_of_filter' (f : string → bool) l v : v ∈ List.filter f l ↔ v ∈ l ∧ f v = true.
Proof. rewrite !list_elem_of_In. apply filter_In. Qed.

Lemma left_other id vs v :
  owned id v = false → v ∈ vs → v ∈ left_of (List.filter (owned id) vs) vs.
Proof.
  intros Ho Hv. unfold left_of. apply elem_of_filter'. split; [done|]. apply negb_true_iff, andb_false_iff. left.
  apply not_true_iff_false. rewrite existsb_exists. intros (w & [_ Hw]%filter_In & <-%String.eqb_eq). by rewrite Ho in Hw.
Qed.

Lemma left_fair id vs :
  Forall (λ v, owned id v = true → in_use e v = false) vs →
  List.filter (owned id) (left_of (List.filter (owned id) vs) vs) = [].
Proof.
  intros Hf. destruct (List.filter (owned id) (left_of _ vs)) as [|v l] eqn:Hl; [done|exfalso].
  assert (v ∈ List.filter (owned id) (left_of (List.filter (owned id) vs) vs)) as Hv by (rewrite Hl; by left).
  apply elem_of_filter' in Hv as [Hv Ho]. apply elem_of_filter' in Hv as [Hv Hn].
  rewrite Forall_forall in Hf. rewrite (Hf v Hv Ho), andb_true_r in Hn. apply negb_true_iff, not_true_iff_false in Hn.
  apply Hn, existsb_exists. exists v. split; [by apply filter_In; split; [apply list_elem_of_In|]|by apply String.eqb_refl].
Qed.

(** A failure at any point where nothing of another instance is gone yet. *)
Lemma raise_torn_down id h x h' :
  volumes h' = volumes h ∨ volumes h' = after_down h ∨
    volumes h' = left_of (List.filter (owned id) (after_down h)) (after_down h) →
  ¬ fair id h → torn_down id h (Raise x) h'.
Proof.
  intros Hv Hf. split_and!; [done|done|]. intros v Ho H1 H2. destruct Hv as [Hv|[Hv|Hv]]; rewrite Hv; [done..|]. by apply left_other.
Qed.

Lemma verified id h h' removed :
  volumes h' = left_of (List.filter (owned id) (after_down h)) (after_down h) →
  List.filter (owned id) (volumes h') = [] → directory h' = false → removed = List.filter (owned id) (after_down h) →
  torn_down id h (Ok removed) h'.
Proof.
  intros Hv Hnone Hdir ->. split_and!; [|by eexists|].
  - intros removed [= <-]. split_and!; [|done|done]. apply Forall_forall. intros v Hin.
    destruct (owned id v) eqn:Ho; [|done].
    assert (v ∈ List.filter (owned id) (volumes h')) as Hl by by apply elem_of_filter'.
    rewrite Hnone in Hl. by apply elem_of_nil in Hl.
  - intros v Ho _ Hin. rewrite Hv. by apply left_other.
Qed.

Lemma prune_spec id h h1 : volumes h1 = after_down h → wp (prune_and_verify id) (torn_down id h) h1.
Proof.
  intros H1. unfold prune_and_verify. apply wp_bind. unfold remove_instance_volumes. apply wp_bind.
  eapply wp_mono; [apply list_spec|]. intros r h2 [-> ->]. destruct (ls_answers e 0) eqn:Hls0.
  2: { apply raise_torn_down; [by auto|]. intros (_ & _ & H & _). congruence. }
  apply wp_bind. eapply wp_mono; [apply forS_rm|]. intros r h3 (-> & Hv3 & Hd3). apply wp_ret, wp_bind, wp_modify.
  set (h4 := match rmtree_leaves e with
             | None => without_directory h3
             | Some kept => with_compose_file (compose_file h3 && kept) h3
             end).
  assert (volumes h4 = left_of (List.filter (owned id) (after_down h)) (after_down h)) as Hv4.
  { unfold h4. destruct (rmtree_leaves e); simpl; by rewrite Hv3, H1. }
  apply wp_bind. eapply wp_mono; [apply list_spec|]. intros r h5 [-> ->]. destruct (ls_answers e 1) eqn:Hls1.
  2: { apply raise_torn_down; [by auto|]. intros (_ & _ & _ & H & _). congruence. }
  apply wp_bind, wp_get.
  destruct (negb (bool_decide (List.filter (owned id) (volumes h4) = [])) || directory h4) eqn:Hg.
  - apply wp_throw, raise_torn_down; [by auto|]. intros (_ & _ & _ & _ & Hr & Hf). apply orb_prop in Hg as [Hg|Hg].
    + apply negb_true_iff, bool_decide_eq_false in Hg. apply Hg. rewrite Hv4. by apply left_fair.
    + unfold h4 in Hg. by rewrite Hr in Hg.
  - apply orb_false_elim in Hg as [Hg Hdir]. apply negb_false_iff, bool_decide_eq_true in Hg.
    apply wp_ret, verified; [done..|by rewrite H1].
Qed.

Lemma body_spec id h : wp (decommission_body id) (torn_down id h) h.
Proof.
  unfold decommission_body. destruct (updating e) eqn:Hu.
  { apply wp_throw, raise_torn_down; [by left|]. intros (H & _). congruence. }
  apply wp_bind. unfold down. apply wp_bind, wp_get.
  destruct (compose_file h) eqn:Hc; [|apply wp_ret, prune_spec; unfold after_down; by rewrite Hc].
  destruct (down_code e) as [code|] eqn:Hd.
  - apply wp_modify, prune_spec. unfold after_down. by rewrite Hc.
  - apply wp_throw, raise_torn_down; [by left|]. intros (_ & H & _). congruence.
Qed.
End decommission.

(** A volume that carries the names of two instances: one of the names continues the other. *)
Lemma owned_apart id id' v : ids_apart id id' → owned id' v = true → owned id v = false.
Proof. intros [H1 H2]. by apply apart_prefix. Qed.
End Decommission.

(** C15: A decommission that is answered with success has left no volume whose name
    begins with the id and an underscore, and no instance directory; when docker
    answers, none of those volumes is in use and the directory can be removed, it
    does succeed; whatever happens it removes no other volume, beyond what
    docker-compose down takes, so none of an instance whose name neither continues
    this one after an underscore nor is so continued (ids may hold underscores:
    [neighbour_taken]); and the lock of the instance is as it was. *)
Theorem decommission_complete (e : Decommission.weather) (id : string) (h : Decommission.host) :
  wp (Decommission.decommission_greffon e id) (λ r h',
    (Decommission.locked h = false → Decommission.torn_down e id h r h') ∧ Decommission.locked h' = Decommission.locked h ∧
    ∀ v, (Decommission.owned id v = false ∨ ∃ id', ids_apart id id' ∧ Decommission.owned id' v = true) →
      v ∈ Decommission.volumes h → v ∈ Decommission.after_down e h → v ∈ Decommission.volumes h') h.
Proof.
  apply serialize_spec; [intros Hl; split_and!; [congruence|done|done]|]. intros Hl.
  eapply wp_mono; [apply (Decommission.body_spec e id)|]. intros r h' (H1 & H2 & H3). split_and!.
  - intros _. split_and!; [exact H1|exact H2|exact H3].
  - by rewrite Hl.
  - intros v Hv. apply H3. destruct Hv as [Hv|(id' & Ha & Hv)]; [done|]. by eapply Decommission.owned_apart.
Qed.

(** ** Remote update *)
Module Updater.

Definition is_hex (c : ascii) : bool :=
  is_digit c || ((97 <=? N_of_ascii c)%N && (N_of_ascii c <=? 102)%N).

(** [_DIGEST_PINNED_RE.fullmatch]: the first at sign ends the name. *)
Definition is_digest_pinned (ref : string) : bool :=
  match partition "@" ref with
  | (name, Some rest) =>
      negb (String.eqb name "") && all_chars (λ c, negb (is_space c)) name && startswith "sha256:" rest
      && (String.length rest =? 71)%nat && all_chars is_hex (String.substring 7 64 rest)
  | (_, None) => false
  end.

(** The probe of the lock file: [None] is a file that cannot be opened, else whether
    an updater holds it.  Only a lock that is held refuses. *)
Definition update_in_progress (fcntl : bool) (lock_file : option bool) : bool :=
  if fcntl then match lock_file with Some held => held | None => false end else false.

(** An entry of [Mounts] of the node's own container. *)
Record mount_attrs : Type := MountAttrs {
  destination : string; mount_type : option string; volume_name : option string; source : option string }.

(** A mount of the container to spawn. *)
Record mount : Type := Mount { target : string; mount_source : string; kind : string }.

(** [None] is an [UpdaterSpawnError]. *)
Fixpoint _mount_for (mounts : list mount_attrs) (dest : string) (target : string) : option mount :=
  match mounts with
  | [] => None
  | m :: mounts =>
      if String.eqb (destination m) dest then
        let mtype := default "bind" (mount_type m) in
        match (if String.eqb mtype "volume" then volume_name m else source m) with
        | Some s => if String.eqb s "" then None else Some (Mount target s mtype)
        | None => None
        end
      else _mount_for mounts dest target
  end.

Definition DOCKER_SOCK : string := "/var/run/docker.sock".

(** What is handed to [client.containers.run]. *)
Record container_run : Type := ContainerRun {
  image : string; command : list string; environment : list (string * string); mounts : list mount;
  detach : bool; remove : bool }.

(** The node's own container as docker knows it, and the answer to the run. *)
Inductive self_container : Type := NotFound | SelfError | Self (attrs : list mount_attrs).

Section updater.
Context (self : self_container) (run_answer : container_run → option string).   (** [None]: an [APIError] *)

(** What is run, if anything is, and the id of the container, [None] for an
    [UpdaterSpawnError]. *)
Definition spawn_updater (img : string) (target_tag : option string) (greffer_id : option string) (data_dest : string) :
    option container_run * option string :=
  if String.eqb img "" then (None, None)
  else if negb (is_digest_pinned img) then (None, None)
  else match self with
       | NotFound | SelfError => (None, None)
       | Self attrs =>
           match _mount_for attrs data_dest "/data" with
           | None => (None, None)
           | Some data =>
               let env := ("GREFFER_ID", default "" greffer_id) ::
                 match target_tag with
                 | Some t => if String.eqb t "" then [] else [("GREFFER_UPDATER_TARGET_TAG", t)]
                 | None => []
                 end in
               let run := ContainerRun img ["python"; "-m"; "greffer_cli.updater"] env
                 [data; Mount DOCKER_SOCK DOCKER_SOCK "bind"] true true in
               (Some run, run_answer run)
           end
       end.

Record settings : Type := Settings {
  greffer_remote_update_enabled : bool; greffer_updater_image : string; greffer_id : option string; greffon_path : string }.

(** The reply, and what was run before it. *)
Definition remote_update (cfg : settings) (updating : bool) (target_tag : string) :
    option container_run * result failure string :=
  if negb (greffer_remote_update_enabled cfg) then (None, Raise (HTTPException 403 "remote_update_disabled"))
  else if String.eqb (greffer_updater_image cfg) "" then (None, Raise (HTTPException 503 "updater_image_not_configured"))
  else if negb (is_digest_pinned (greffer_updater_image cfg))
  then (None, Raise (HTTPException 503 "updater_image_not_digest_pinned"))
  else if updating then (None, Raise (HTTPException 409 "update_in_progress"))
  else match spawn_updater (greffer_updater_image cfg) (Some target_tag) (greffer_id cfg) (greffon_path cfg) with
       | (run, Some id) => (run, Ok id)
       | (run, None) => (run, Raise (HTTPException 500 "updater_spawn_failed"))
       end.
End updater.

(** *** The shape of a pinned reference *)
Definition pinned (ref : string) : Prop :=
  ∃ name hex, ref = name +:+ "@sha256:" +:+ hex ∧ name ≠ "" ∧
    all_chars (λ c, negb (is_space c) && negb (Ascii.eqb c "@"%char)) name = true ∧
    String.length hex = 64%nat ∧ all_chars is_hex hex = true.

Lemma substring_all s n : String.length s = n → String.substring 0 n s = s.
Proof. revert n. induction s as [|c s IH]; intros [|n]; try done. simpl. intros [= H]. by rewrite IH. Qed.

Lemma partition_at name rest :
  all_chars (λ c, negb (is_space c) && negb (Ascii.eqb c "@"%char)) name = true →
  partition "@" (name +:+ String "@"%char rest) = (name, Some rest).
Proof.
  induction name as [|c name IH]; [done|]. cbn [all_chars]. intros [[_ Hc]%andb_prop H]%andb_prop.
  change (String c name +:+ String "@"%char rest) with (String c (name +:+ String "@"%char rest)). cbn [partition].
  apply negb_true_iff in Hc. rewrite Hc. by rewrite IH.
Qed.

Lemma partition_some ref name rest :
  partition "@" ref = (name, Some rest) →
  ref = name +:+ String "@"%char rest ∧ all_chars (λ c, negb (Ascii.eqb c "@"%char)) name = true.
Proof.
  revert name. induction ref as [|c ref IH]; intros name; cbn [partition]; [done|].
  destruct (Ascii.eqb_spec c "@") as [->|Hc]; [by intros [= <- <-]|].
  destruct (partition "@" ref) as [a [b|]]; intros [= <- ->]; try done. destruct (IH a eq_refl) as [-> Ha].
  split; [done|]. cbn [all_chars]. rewrite Ha. by rewrite (proj2 (Ascii.eqb_neq _ _)).
Qed.

Lemma all_chars_and f g s : all_chars (λ c, f c && g c) s = all_chars f s && all_chars g s.
Proof.
  induction s as [|c s IH]; [done|]. cbn [all_chars]. rewrite IH. by destruct (f c), (g c), (all_chars f s), (all_chars g s).
Qed.

Lemma startswith_sha rest :
  startswith "sha256:" rest = true → ∃ hex, rest = "sha256:" +:+ hex.
Proof.
  intros H. do 7 (destruct rest as [|? rest]; [discriminate H|]; cbn [startswith] in H;
    apply andb_prop in H as [Hc%Ascii.eqb_eq H]; subst). by exists rest.
Qed.

Lemma pinned_correct ref : is_digest_pinned ref = true ↔ pinned ref.
Proof.
  unfold is_digest_pinned, pinned. split.
  - destruct (partition "@" ref) as [name [rest|]] eqn:Hp; [|done].
    intros [[[[Hn Hs]%andb_prop Hsha]%andb_prop Hl%Nat.eqb_eq]%andb_prop Hh]%andb_prop.
    destruct (partition_some _ _ _ Hp) as [-> Hat]. destruct (startswith_sha _ Hsha) as [hex ->].
    assert (String.length hex = 64%nat) as Hlen by (by injection Hl).
    exists name, hex. split_and!; [done| |by rewrite all_chars_and, Hs, Hat|done|].
    + apply negb_true_iff, String.eqb_neq in Hn. done.
    + change (String.substring 7 64 ("sha256:" +:+ hex)) with (String.substring 0 64 hex) in Hh.
      by rewrite (substring_all hex 64) in Hh.
  - intros (name & hex & -> & Hn & Hc & Hl & Hh).
    change (name +:+ "@sha256:" +:+ hex) with (name +:+ String "@"%char ("sha256:" +:+ hex)).
    rewrite (partition_at name _ Hc). rewrite all_chars_and in Hc. apply andb_prop in Hc as [Hs _].
    rewrite (proj2 (String.eqb_neq _ _) Hn), Hs.
    change (String.substring 7 64 ("sha256:" +:+ hex)) with (String.substring 0 64 hex). rewrite (substring_all _ _ Hl), Hh.
    change (String.length ("sha256:" +:+ hex)) with (7 + String.length hex)%nat. by rewrite Hl.
Qed.

(** The mount of this node that is passed on. *)
Lemma mount_for_spec ms dest target m :
  _mount_for ms dest target = Some m →
  Updater.target m = target ∧ mount_source m ≠ "" ∧
  ∃ a, a ∈ ms ∧ destination a = dest ∧ kind m = default "bind" (mount_type a) ∧
    (if String.eqb (kind m) "volume" then volume_name a else source a) = Some (mount_source m).
Proof.
  induction ms as [|a ms IH]; [done|]. cbn [_mount_for]. destruct (String.eqb_spec (destination a) dest) as [Hd|_].
  - destruct (if String.eqb (default "bind" (mount_type a)) "volume" then volume_name a else source a) as [s|] eqn:Hs; [|done].
    destruct (String.eqb_spec s "") as [|Hne]; [done|]. intros [= <-]. split_and!; [done..|].
    exists a. split_and!; [by left|done..].
  - intros H. destruct (IH H) as (? & ? & b & ? & ?). split_and!; [done..|]. exists b. split; [by right|done].
Qed.

(** What a run of the updater is allowed to be. *)
Definition sanctioned (cfg : settings) (self : self_container) (tag : string) (run : container_run) : Prop :=
  greffer_remote_update_enabled cfg = true ∧ pinned (image run) ∧ image run = greffer_updater_image cfg ∧
  command run = ["python"; "-m"; "greffer_cli.updater"] ∧
  environment run = ("GREFFER_ID", default "" (greffer_id cfg)) ::
    (if String.eqb tag "" then [] else [("GREFFER_UPDATER_TARGET_TAG", tag)]) ∧
  ∃ ms a data, self = Self ms ∧ a ∈ ms ∧ destination a = greffon_path cfg ∧
    mounts run = [data; Mount DOCKER_SOCK DOCKER_SOCK "bind"] ∧ target data = "/data" ∧ kind data = default "bind" (mount_type a) ∧
    (if String.eqb (kind data) "volume" then volume_name a else source a) = Some (mount_source data).

Lemma spawn_sanctioned self answer cfg tag run id :
  greffer_remote_update_enabled cfg = true →
  spawn_updater self answer (greffer_updater_image cfg) (Some tag) (greffer_id cfg) (greffon_path cfg) = (Some run, id) →
  sanctioned cfg self tag run ∧ id = answer run.
Proof.
  intros He. unfold spawn_updater. destruct (String.eqb _ ""); [done|]. destruct (is_digest_pinned _) eqn:Hp; [|done]. cbn [negb].
  destruct self as [| |attrs]; try done. destruct (_mount_for attrs (greffon_path cfg) "/data") as [data|] eqn:Hm; [|done].
  intros [= <- <-]. destruct (mount_for_spec _ _ _ _ Hm) as (Ht & _ & a & Ha & Hd & Hk & Hs). split; [|done].
  split_and!; try done; [by apply pinned_correct|]. by exists attrs, a, data.
Qed.
End Updater.

(** A code of a fixed list. *)
Ltac known_code := cbn; apply (bool_decide_unpack _); vm_compute; exact I.

(** C16: The remote update runs a container only when the operator switched it on,
    the updater image is pinned by a digest and no update holds the lock; what it
    runs is that image with the fixed command, the tag and the id of the node as
    its environment, and exactly two mounts, this node's own data and the docker
    socket; it answers success exactly with the id docker gave, and a refusal runs
    nothing. *)
Theorem remote_update_gated (self : Updater.self_container) (answer : Updater.container_run → option string)
    (cfg : Updater.settings) (updating : bool) (tag : string) :
  match Updater.remote_update self answer cfg updating tag with
  | (Some run, reply) =>
      updating = false ∧ Updater.sanctioned cfg self tag run ∧
      reply = match answer run with Some id => Ok id | None => Raise (HTTPException 500 "updater_spawn_failed") end
  | (None, Ok _) => False
  | (None, Raise (HTTPException code _)) => code ∈ [403; 503; 409; 500]%Z
  | (None, Raise (Exc _)) => False
  end.
Proof.
  unfold Updater.remote_update. destruct (Updater.greffer_remote_update_enabled cfg) eqn:He; [|known_code].
  cbn [negb]. destruct (String.eqb _ ""); [known_code|].
  destruct (Updater.is_digest_pinned _); [|known_code]. cbn [negb].
  destruct updating; [known_code|].
  destruct (Updater.spawn_updater _ _ _ _ _ _) as [[run|] id] eqn:Hs.
  - destruct (Updater.spawn_sanctioned _ _ _ _ _ _ He Hs) as [Hrun ->]. destruct (answer run) eqn:Ha; rewrite Ha; by split_and!.
  - destruct id as [id|]; [|known_code].
    unfold Updater.spawn_updater in Hs. by repeat case_match.
Qed.

(** ** The other operations *)
Module Replies.

(** [POST /renew-certs/]: [pass] is what [renew_all] does. *)
Definition status_text (s : option CertRenewal.status) : string :=
  match s with
  | Some RENEWED => "renewed" | Some NOT_DUE => "not_due" | Some SKIPPED => "skipped" | Some FAILED => "failed" | None => "skipped"
  end.
Definition renew_certs_endpoint (updating : bool) (id : option string) (force : bool)
    (pass : result CertRenewal.exc CertRenewal.pass_result) : result failure (Z * Z * Z * Z) :=
  if updating then Raise (HTTPException 409 "update_in_progress")
  else if force && negb (bool_decide (is_Some id)) then Raise (HTTPException 400 "force_requires_instance")
  else match pass with
       | Raise InstanceNotFound => Raise (HTTPException 404 "instance_not_found")
       | Raise NodeAuthLost => Raise (HTTPException 502 "node_auth_lost")
       | Raise NodeCapped => Raise (HTTPException 429 "node_rate_limited")
       | Raise RenewalAlreadyRunning => Raise (HTTPException 409 "renewal_in_progress")
       | Raise _ => Raise (Exc (OtherError "renewal"))
       | Ok r =>
           if bool_decide (is_Some id) && negb (bool_decide (selected r = Some RENEWED))
           then Raise (HTTPException 409 ("instance_not_renewed:" +:+ status_text (selected r)))
           else Ok (CertRenewal.errors r, renewed r, skipped r, considered r)
       end.

(** A success for a named instance means that it was renewed, and a forced pass
    names one. *)
Lemma renew_reply_honest updating id force pass body :
  renew_certs_endpoint updating id force pass = Ok body →
  updating = false ∧ (force = true → is_Some id) ∧ ∃ r, pass = Ok r ∧ (is_Some id → selected r = Some RENEWED).
Proof.
  unfold renew_certs_endpoint. destruct updating; [done|]. destruct (force && _) eqn:Hf; [done|].
  destruct pass as [r|[]]; try done. destruct (bool_decide (is_Some id)) eqn:Hi; cbn [andb].
  - destruct (bool_decide (selected r = Some RENEWED)) eqn:Hs; [|done]. intros _.
    apply bool_decide_eq_true in Hi, Hs. split_and!; eauto.
  - intros _. apply bool_decide_eq_false in Hi. rewrite andb_true_r in Hf. subst. split_and!; try done.
    exists r. split; [done|]. by intros ?%Hi.
Qed.

(** How [spawn_backup], [spawn_restore] and [spawn_repo_op] can end. *)
Inductive spawned : Type := Accepted | BusyError | BackupError (code : string) | SpawnFailed (class : string).

(** [POST /backup/] and [/restore/]: a [BackupError] is not caught there. *)
Definition job_reply (updating : bool) (s : spawned) (job : string) : result failure string :=
  if updating then Raise (HTTPException 409 "update_in_progress")
  else match s with
       | Accepted => Ok job
       | BusyError => Raise (HTTPException 409 "instance_busy")
       | BackupError code => Raise (Exc (OtherError code))
       | SpawnFailed c => Raise (Exc (OtherError c))
       end.

(** [POST /prune/] and [/check/]. *)
Definition repo_reply (updating : bool) (s : spawned) (op : string) : result failure string :=
  if updating then Raise (HTTPException 409 "update_in_progress")
  else match s with
       | Accepted => Ok op
       | BusyError => Raise (HTTPException 409 "repo_busy")
       | BackupError code => Raise (HTTPException 400 code)
       | SpawnFailed c => Raise (Exc (OtherError c))
       end.

(** [POST /backup/forget/] *)
Definition forget_reply (updating ok : bool) : result failure string :=
  if updating then Raise (HTTPException 409 "update_in_progress") else Ok (if ok then "forgotten" else "failed").

(** [POST /tunnel-config/] *)
Definition push_tunnel_config (target : string) (w : Ops.written) : string :=
  if String.eqb target "" then "ok" else match w with Ops.Written => "ok" | _ => "failed" end.
End Replies.

(** ** Concrete runs *)
Module Demo.

Definition request : Ops.start_request := Ops.StartRequest "abc" (Some "services: {}") (Some "[client]") (Some "relay.example") (Some 7001%Z) None.
Definition behind_tunnel : Ops.settings := Ops.Settings "tunnel" "/etc/rathole/client.toml".
Definition quiet : Ops.world := Ops.World [] 0 false true [].

(** Every call returns, and docker never reports the instance as running. *)
Definition calm : Ops.environment := Ops.Environment (λ _, false) (λ _ _, None) (λ _, [VStr "30001"]) (λ _, None) (λ _, 100%N) (λ _, Ops.Written).
(** The body of the compose file does not render. *)
Definition misspelt : Ops.environment :=
  Ops.Environment (λ _, false) (λ _ c, match c with Ops.CreateCompose => Some (ConfigRenderError "undefined") | _ => None end)
    (λ _, []) (λ _, Some "running") (λ _, 0%N) (λ _, Ops.Written).

Definition volumes : list string := ["abc_data"; "abd_data"; "x_abc_data"; "abc_db"].
Definition fine : Decommission.weather := Decommission.Weather false (Some 1%Z) (λ vs, vs) (λ _, true) (λ _, false) None.
Definition stuck : Decommission.weather :=
  Decommission.Weather false (Some 0%Z) (λ vs, vs) (λ _, true) (λ v, String.eqb v "abc_db") None.
Definition installed : Decommission.host := Decommission.Host volumes true true false true.
End Demo.

Lemma start_all_or_nothing_witness :
  Ops.renderings_refuse Demo.misspelt ∧
  wp (Ops.start_greffon Demo.misspelt Demo.behind_tunnel Demo.request)
    (λ res w', Ops.start_outcome Demo.misspelt Demo.behind_tunnel Demo.request Demo.quiet res w' ∧ Ops.locked w' = false) Demo.quiet.
Proof.
  assert (Ops.renderings_refuse Demo.misspelt) as H by (intros before c d; destruct c; try done; by right).
  split; [exact H|]. exact (start_all_or_nothing Demo.misspelt Demo.behind_tunnel Demo.request Demo.quiet H).
Defined.

Example misspelt_start :
  Ops.start_greffon Demo.misspelt Demo.behind_tunnel Demo.request Demo.quiet =
  (Raise (HTTPException 422 "undefined"),
   Ops.World [Ops.ProbeUpdateLock; Ops.FetchCompose; Ops.GetInfo true "127.0.0.1";
     Ops.BuildContext [("instance_l4_host", "relay.example"); ("instance_l4_port", "7001");
       ("instance_l4_endpoint", "relay.example:7001"); ("instance_l4_proto", "tcp")];
     Ops.Template; Ops.ApplyConfiguration; Ops.CreateCompose] 0 false false []).
Proof. by vm_compute. Qed.

(** An instance that does not come up: 17 polls of 600 ms, then the file is
    written all the same. *)
Example slow_start :
  let '(res, w) := Ops.start_greffon Demo.calm Demo.behind_tunnel Demo.request Demo.quiet in
  res = Ok ([VStr "30001"], "ok") ∧ Ops.now w = 10200%Z ∧ Ops.children w = [Ops.Up "abc"] ∧
  length (List.filter (λ c, match c with Ops.GetStatus => true | _ => false end) (Ops.log w)) = 17%nat ∧ last (Ops.log w) = Some (Ops.WriteToml "[client]").
Proof. by vm_compute. Qed.

(** A volume in use is reported, with what else there was gone. *)
Example stuck_decommission :
  Decommission.decommission_greffon Demo.stuck "abc" Demo.installed =
  (Raise (HTTPException 500 "decommission_incomplete"), Decommission.Host ["abd_data"; "x_abc_data"; "abc_db"] false false false false).
Proof. by vm_compute. Qed.

(** Ids may hold underscores: the tear-down of x takes the volume of x_abc. *)
Example neighbour_taken :
  Decommission.decommission_greffon Demo.fine "x" Demo.installed =
  (Ok ["x_abc_data"], Decommission.Host ["abc_data"; "abd_data"; "abc_db"] false false false false).
Proof. by vm_compute. Qed.
