(* ===== verification/Preflight.v ===== *)
(** [apps/utils/greffon/preflight.py]: the validation of a custom compose before
    anything is deployed.  [Scan]: the two text scanners ([_CONFIG_REF],
    [_strip_expressions]); [Walk]: the walk over the strings of a parsed object,
    which may share objects or refer to itself ([_string_leaves]); [Candidates]:
    the configuration candidates and the warnings; [Admission]: the resolution of
    image digests with disk admission; [run_preflight] last.

    The YAML parser, docker and the file system are arguments; text is ASCII. *)
From Stdlib Require Import Ascii String.
From stdpp Require Import sorting.
From S2P Require Import Prelude PyValue ComposeShape GreffonInfo InstanceContext RenderBudget.
Import Text.
Local Open Scope string_scope.

(** ** Text *)
Module Scan.

(** *** References to the configuration *)

(** The longest word a text starts with, and what follows. *)
Fixpoint take_word (s : string) : string * string :=
  match s with
  | String c s' => if is_word c then let '(w, r) := take_word s' in (String c w, r) else ("", s)
  | "" => ("", "")
  end.

Definition drop (n : nat) (s : string) : string := String.substring n (String.length s - n) s.

(** [_CONFIG_REF] at the start of a text: the three groups and the length of the
    match. *)
Definition _CONFIG_REF (s : string) : option ((string * string * string) * nat) :=
  if startswith "config" s then
    match drop 6 s with
    | String "." r =>
        let '(w, _) := take_word r in
        if String.eqb w "" then None else Some (w, "", "", (7 + String.length w)%nat)
    | String "[" (String q r) =>
        if Shlex.is_quote q then
          match take_word r with
          | ("", _) => None
          | (w, String q' _) => if Ascii.eqb q q' then Some ("", String q "", w, (9 + String.length w)%nat) else None
          | (_, "") => None
          end
        else None
    | _ => None
    end
  else None.

(** [_CONFIG_REF.findall]: matches from left to right that do not overlap; [skip]
    characters belong to the last one. *)
Fixpoint findall_from (skip : nat) (s : string) : list (string * string * string) :=
  match s with
  | "" => []
  | String _ s' =>
      match skip with
      | S skip => findall_from skip s'
      | O =>
          match _CONFIG_REF s with
          | Some (groups, n) => groups :: findall_from (n - 1) s'
          | None => findall_from 0 s'
          end
      end
  end.
Definition findall (s : string) : list (string * string * string) := findall_from 0 s.

(** The groups but the second that are not empty. *)
Definition _CONFIG_KEYS (groups : string * string * string) : list string :=
  let '(dot, _, bracket) := groups in List.filter (λ g, negb (String.eqb g "")) [dot; bracket].

Definition config_names (s : string) : list string := concat (_CONFIG_KEYS <$> findall s).

(** *** Template expressions *)

(** What is before the first [p] of a text, and what is after it. *)
Fixpoint cut (p s : string) : option (string * string) :=
  if startswith p s then Some ("", drop (String.length p) s)
  else match s with
       | "" => None
       | String c s' => option_map (λ '(a, b), (String c a, b)) (cut p s')
       end.

(** The loop over [value[i:]]; [None] is a loop that ran out of fuel. *)
Fixpoint strip_loop (fuel : nat) (rest : string) : option string :=
  match fuel with
  | O => None
  | S fuel =>
      match rest with
      | "" => Some ""
      | _ =>
          match cut "{{" rest with
          | None => Some rest
          | Some (before, after) =>
              match cut "}}" after with
              | None => Some (before +:+ "{{" +:+ after)
              | Some (_, tail) => option_map (λ t, before +:+ t) (strip_loop fuel tail)
              end
          end
      end
  end.
Definition _strip_expressions (value : string) : option string := strip_loop (S (String.length value)) value.

(** What it is to remove the expressions: each span from the first opening pair
    of braces to the first closing one after it, and an opening without an end
    stays. *)
Inductive erased : string → string → Prop :=
  | erased_text s : contains "{{" s = false → erased s s
  | erased_open a m : contains "{{" (a +:+ "{") = false → contains "}}" m = false →
      erased (a +:+ "{{" +:+ m) (a +:+ "{{" +:+ m)
  | erased_span a m b t : contains "{{" (a +:+ "{") = false → contains "}}" (m +:+ "}") = false →
      erased b t → erased (a +:+ "{{" +:+ m +:+ "}}" +:+ b) (a +:+ t).

Lemma drop_all s : drop 0 s = s.
Proof.
  unfold drop. rewrite Nat.sub_0_r. induction s as [|c s IH]; [done|]. simpl. by rewrite IH.
Qed.

Lemma drop_app (a s : string) : drop (String.length a) (a +:+ s) = s.
Proof.
  induction a as [|c a IH]; [apply drop_all|]. exact IH.
Qed.

Lemma drop_length n s : (String.length (drop n s) ≤ String.length s)%nat.
Proof.
  unfold drop. revert n. induction s as [|c s IH]; intros [|n]; simpl; [lia|lia| |specialize (IH n); lia].
  apply le_n_S. specialize (IH 0%nat). rewrite Nat.sub_0_r in IH. exact IH.
Qed.


Lemma startswith_split p s : startswith p s = true → s = p +:+ drop (String.length p) s.
Proof.
  revert s. induction p as [|c p IH]; intros s.
  - intros _. by rewrite drop_all.
  - destruct s as [|d s]; [done|]. cbn [startswith]. intros [->%Ascii.eqb_eq H]%andb_prop.
    change (String d p +:+ drop (String.length (String d p)) (String d s)) with (String d (p +:+ drop (String.length p) s)).
    by rewrite <- IH.
Qed.

(** A pair of one character. *)
Section pair.
Context (c : ascii).
Let pair : string := String c (String c "").

Lemma starts_pair d s : startswith pair (String d s) = Ascii.eqb c d && match s with String e _ => Ascii.eqb c e | "" => false end.
Proof. unfold pair. cbn [startswith]. destruct s as [|e s]; cbn [startswith]; by rewrite ?andb_true_r. Qed.

Lemma cut_none s : cut pair s = None ↔ contains pair s = false.
Proof.
  induction s as [|d s IH]; [done|]. cbn [cut contains]. destruct (startswith pair (String d s)); [done|]. cbn [orb].
  rewrite <- IH. by destruct (cut pair s) as [[a b]|].
Qed.

(** Where a pair could begin in a text followed by one. *)
Lemma starts_before d a b :
  startswith pair (String d (a +:+ pair +:+ b)) = startswith pair (String d (a +:+ String c "")).
Proof.
  rewrite !starts_pair. destruct a as [|e a]; [done|].
  change (String e a +:+ pair +:+ b) with (String e (a +:+ pair +:+ b)).
  by change (String e a +:+ String c "") with (String e (a +:+ String c "")).
Qed.

Lemma cut_at a b : contains pair (a +:+ String c "") = false → cut pair (a +:+ pair +:+ b) = Some (a, b).
Proof.
  induction a as [|d a IH].
  - intros _. change ("" +:+ pair +:+ b) with (pair +:+ b).
    destruct (pair +:+ b) as [|e s] eqn:Hs; [done|]. cbn [cut]. rewrite <- Hs, startswith_self. by rewrite drop_app.
  - change (String d a +:+ String c "") with (String d (a +:+ String c "")).
    change (String d a +:+ pair +:+ b) with (String d (a +:+ pair +:+ b)).
    cbn [contains cut]. intros [H1 H2]%orb_false_elim. rewrite starts_before, H1. by rewrite (IH H2).
Qed.

Lemma cut_some s a b : cut pair s = Some (a, b) → s = a +:+ pair +:+ b ∧ contains pair (a +:+ String c "") = false.
Proof.
  revert a. induction s as [|d s IH]; intros a; [done|]. cbn [cut]. destruct (startswith pair (String d s)) eqn:Hp.
  - intros [= <- <-]. split; [by apply startswith_split in Hp|].
    change ("" +:+ String c "") with (String c ""). cbn [contains]. rewrite starts_pair. by rewrite andb_false_r.
  - destruct (cut pair s) as [[a' b']|]; [|done]. intros [= <- <-]. destruct (IH a' eq_refl) as [-> Ha].
    change (String d a' +:+ pair +:+ b') with (String d (a' +:+ pair +:+ b')). split; [done|].
    change (String d a' +:+ String c "") with (String d (a' +:+ String c "")). cbn [contains].
    by rewrite <- (starts_before d a' b'), Hp, Ha.
Qed.
End pair.

Lemma app_length_str (a b : string) : String.length (a +:+ b) = (String.length a + String.length b)%nat.
Proof.
  induction a as [|c a IH]; [done|]. change (String c a +:+ b) with (String c (a +:+ b)). simpl. by rewrite IH.
Qed.

(** Every turn of the loop but the last drops four characters at least. *)
Lemma strip_loop_total fuel s : (String.length s < fuel)%nat → is_Some (strip_loop fuel s).
Proof.
  revert s. induction fuel as [|fuel IH]; intros s Hs; [lia|]. cbn [strip_loop]. destruct s as [|c s]; [by eexists|].
  destruct (cut "{{" (String c s)) as [[before after]|] eqn:Ho; [|by eexists].
  destruct (cut "}}" after) as [[m tail]|] eqn:Hc; [|by eexists].
  destruct (cut_some _ _ _ _ Ho) as [H1 _], (cut_some _ _ _ _ Hc) as [H2 _].
  destruct (IH tail) as [t ->]; [|by eexists].
  assert (String.length (String c s) = String.length before + (2 + String.length after))%nat as H3 by (by rewrite H1, !app_length_str).
  assert (String.length after = String.length m + (2 + String.length tail))%nat as H4 by (by rewrite H2, !app_length_str).
  lia.
Qed.

Lemma strip_loop_erased fuel s t : strip_loop fuel s = Some t → erased s t.
Proof.
  revert s t. induction fuel as [|fuel IH]; intros s t; [done|]. cbn [strip_loop].
  destruct s as [|c s]; [intros [= <-]; by apply erased_text|].
  destruct (cut "{{" (String c s)) as [[before after]|] eqn:Ho; [|intros [= <-]; apply erased_text; by apply (cut_none "{")].
  destruct (cut_some _ _ _ _ Ho) as [-> H1]. destruct (cut "}}" after) as [[m tail]|] eqn:Hc.
  - destruct (cut_some _ _ _ _ Hc) as [-> H2]. destruct (strip_loop fuel tail) as [t'|] eqn:Ht; [|done].
    intros [= <-]. apply erased_span; [done|done|by apply IH].
  - intros [= <-]. apply erased_open; [done|by apply (cut_none "}")].
Qed.

Lemma strip_loop_nonempty fuel s :
  s ≠ "" → strip_loop (S fuel) s =
    match cut "{{" s with
    | None => Some s
    | Some (before, after) =>
        match cut "}}" after with
        | None => Some (before +:+ "{{" +:+ after)
        | Some (_, tail) => option_map (λ t, before +:+ t) (strip_loop fuel tail)
        end
    end.
Proof. by destruct s. Qed.

Lemma append_pair_nonempty c a s : a +:+ String c s ≠ "".
Proof. by destruct a. Qed.

Lemma erased_strip s t fuel : erased s t → (String.length s < fuel)%nat → strip_loop fuel s = Some t.
Proof.
  intros H. revert fuel. induction H as [s Hs|a m Ha Hm|a m b t Ha Hm Hb IH]; intros [|fuel] Hf; try lia.
  - destruct (decide (s = "")) as [->|Hne]; [done|]. rewrite strip_loop_nonempty by done.
    by rewrite (proj2 (cut_none "{" s) Hs).
  - rewrite strip_loop_nonempty by apply append_pair_nonempty.
    rewrite (cut_at "{" a m Ha), (proj2 (cut_none "}" m) Hm). done.
  - rewrite strip_loop_nonempty by apply append_pair_nonempty.
    rewrite (cut_at "{" a _ Ha), (cut_at "}" m b Hm).
    rewrite IH; [done|]. rewrite !app_length_str in Hf. simpl in Hf. lia.
Qed.

(** *** What a reference is *)
Definition word (w : string) : Prop := w ≠ "" ∧ all_chars is_word w = true.

(** A reference to [w] at the start of a text, in either notation. *)
Definition refers (w s : string) : Prop :=
  (∃ b, s = "config." +:+ w +:+ b ∧ (take_word b).1 = "") ∨
  (∃ q b, Shlex.is_quote q = true ∧ s = "config[" +:+ String q (w +:+ String q b)).

Lemma take_word_split s : s = (take_word s).1 +:+ (take_word s).2 ∧ all_chars is_word (take_word s).1 = true ∧ (take_word (take_word s).2).1 = "".
Proof.
  induction s as [|c s IH]; [done|]. cbn [take_word]. destruct (is_word c) eqn:Hc.
  - destruct (take_word s) as [w r]. destruct IH as (He & Hw & Hr). simpl in *. split_and!; [by rewrite He at 1| |done].
    by rewrite Hc, Hw.
  - split_and!; [done..|]. cbn [snd take_word]. by rewrite Hc.
Qed.

Lemma config_ref_sound s groups n :
  _CONFIG_REF s = Some (groups, n) → ∃ w, _CONFIG_KEYS groups = [w] ∧ word w ∧ refers w s.
Proof.
  unfold _CONFIG_REF. destruct (startswith "config" s) eqn:Hs; [|done].
  apply startswith_split in Hs. change (String.length "config") with 6%nat in Hs.
  destruct (drop 6 s) as [|c r]; [done|].
  destruct (decide (c = "."%char)) as [->|Hdot].
  - pose proof (take_word_split r) as (Hr & Hw & Hb). destruct (take_word r) as [w b]. simpl in *.
    destruct (String.eqb_spec w "") as [|Hne]; [done|]. intros [= <- _]. exists w. split_and!; [|done|].
    + unfold _CONFIG_KEYS. simpl. by rewrite (proj2 (String.eqb_neq _ _) Hne).
    + left. exists b. split; [|done]. by rewrite Hs, Hr at 1.
  - destruct (decide (c = "["%char)) as [->|Hb]; [|by repeat case_match; simplify_eq].
    destruct r as [|q r]; [done|]. destruct (Shlex.is_quote q) eqn:Hq; [|done].
    pose proof (take_word_split r) as (Hr & Hw & _). destruct (take_word r) as [w b]. simpl in *.
    destruct w as [|x w]; [done|]. destruct b as [|q' b]; [done|]. destruct (Ascii.eqb_spec q q') as [->|]; [|done].
    intros [= <- _]. exists (String x w). split_and!; [done|split; [done|exact Hw]|]. right. exists q', b. split; [done|].
    by rewrite Hs, Hr at 1.
Qed.

Lemma findall_from_sound skip s g : g ∈ findall_from skip s → ∃ a r n, s = a +:+ r ∧ _CONFIG_REF r = Some (g, n).
Proof.
  revert skip. induction s as [|c s IH]; intros skip; [by intros ?%elem_of_nil|]. cbn [findall_from].
  assert (∀ k, g ∈ findall_from k s → ∃ a r n, String c s = a +:+ r ∧ _CONFIG_REF r = Some (g, n)) as Hlater.
  { intros k (a & r & n & -> & H)%IH. by exists (String c a), r, n. }
  destruct skip as [|skip]; [|apply Hlater]. destruct (_CONFIG_REF (String c s)) as [[g' n]|] eqn:Hr; [|apply Hlater].
  intros [->|H]%elem_of_cons; [by exists "", (String c s), n|by eapply Hlater].
Qed.

(** A name is only ever read off a reference. *)
Lemma config_names_sound s w : w ∈ config_names s → word w ∧ ∃ a r, s = a +:+ r ∧ refers w r.
Proof.
  unfold config_names. rewrite list_elem_of_In, in_concat. intros (l & Hl & Hw).
  apply list_elem_of_In, list_elem_of_fmap in Hl as (g & -> & Hg). apply list_elem_of_In in Hw.
  destruct (findall_from_sound _ _ _ Hg) as (a & r & n & -> & Hr).
  destruct (config_ref_sound _ _ _ Hr) as (w' & Hk & Hword & Href). rewrite Hk, list_elem_of_singleton in Hw. subst.
  split; [done|]. by exists a, r.
Qed.

(** The first reference of a text is found. *)
Lemma findall_first a r g n :
  _CONFIG_REF r = Some (g, n) → r ≠ "" → (∀ a1 a2, a = a1 +:+ a2 → a2 ≠ "" → _CONFIG_REF (a2 +:+ r) = None) →
  g ∈ findall (a +:+ r).
Proof.
  intros Hr Hne. unfold findall. induction a as [|c a IH]; intros Ha.
  - change ("" +:+ r) with r. destruct r as [|c r]; [done|]. cbn [findall_from]. rewrite Hr. by left.
  - change (String c a +:+ r) with (String c (a +:+ r)). cbn [findall_from].
    change (String c (a +:+ r)) with (String c a +:+ r). rewrite (Ha "" (String c a)) by done.
    apply IH. intros a1 a2 -> H2. by apply (Ha (String c a1) a2).
Qed.
End Scan.

(** The removal of template expressions ends on every text, with the text
    outside the spans from an opening pair of braces to the first closing pair
    after it, an opening without an end kept as it is. *)
Theorem expressions_stripped (value : string) :
  (∃ t, Scan._strip_expressions value = Some t) ∧ ∀ t, Scan._strip_expressions value = Some t ↔ Scan.erased value t.
Proof.
  unfold Scan._strip_expressions. split; [apply Scan.strip_loop_total; lia|]. intros t. split; [apply Scan.strip_loop_erased|].
  intros H. apply Scan.erased_strip; [done|lia].
Qed.

(** ** The strings of an object *)
Module Walk.

Inductive refusal : Type := OutOfFuel | TooLarge.

Definition _LEAF_BUDGET : Z := 20000.

(** Objects as the walk sees them: a container has an identity and objects in it, a
    string has its text. *)
Class Objects (N K : Type) `{Countable K} := {
  ident : N → option K;
  text : N → option string;
  kids : N → list N;
  ident_inj n n' k : ident n = Some k → ident n' = Some k → n = n';
  container_text n k : ident n = Some k → text n = None;
  leaf_kids n : ident n = None → kids n = [];
}.

Section walk.
Context {N K : Type} `{Objects N K}.

(** [walk]: the budget and the containers seen are shared by the whole walk. *)
Fixpoint walk (fuel : nat) (node : N) : M (Z * gset K) refusal (list string) :=
  match fuel with
  | O => throw OutOfFuel
  | S fuel =>
      st ← get;
      if (st.1 <=? 0)%Z then throw TooLarge
      else
        modify (λ st, (st.1 - 1, st.2)%Z);;
        let visit :=
          match text node with
          | Some s => mret [s]
          | None => ll ← mapS (walk fuel) (kids node); mret (concat ll)
          end in
        match ident node with
        | Some k =>
            if bool_decide (k ∈ st.2) then mret []
            else modify (λ st, (st.1, {[k]} ∪ st.2));; visit
        | None => visit
        end
  end.

Definition _string_leaves (node : N) : result refusal (list string) :=
  (walk (S (Z.to_nat _LEAF_BUDGET)) node (_LEAF_BUDGET, ∅)).1.

(** What can be reached from an object. *)
Inductive reaches (root : N) : N → Prop :=
  | reaches_root : reaches root root
  | reaches_kid n n' : reaches root n → n' ∈ kids n → reaches root n'.

Lemma reaches_trans a b c : reaches a b → reaches b c → reaches a c.
Proof. intros Hab. induction 1; [done|]. by eapply reaches_kid. Qed.

(** An object has been dealt with, and so has everything in it. *)
Definition covered (l : list string) (seen : gset K) (n : N) : Prop :=
  match ident n with Some k => k ∈ seen | None => ∀ s, text n = Some s → s ∈ l end.
Definition opened (l : list string) (seen : gset K) (n : N) : Prop := ∀ c, c ∈ kids n → covered l seen c.

(** What visiting some objects from a state comes to. *)
Definition visited (ns : list N) (b : Z) (seen : gset K) (l : list string) (b' : Z) (seen' : gset K) : Prop :=
  seen ⊆ seen' ∧ (∀ n, n ∈ ns → covered l seen' n) ∧
  (∀ n k, ident n = Some k → k ∈ seen' → k ∉ seen → opened l seen' n) ∧
  (∀ s, s ∈ l → ∃ n m, n ∈ ns ∧ reaches n m ∧ text m = Some s) ∧ (Z.of_nat (length l) <= b - b')%Z.
Definition outcome (ns : list N) (b : Z) (seen : gset K) (r : result refusal (list string)) (st : Z * gset K) : Prop :=
  r ≠ Raise OutOfFuel ∧ (0 <= st.1 <= b)%Z ∧ ∀ l, r = Ok l → visited ns b seen l st.1 st.2.

Lemma covered_mono l l' seen seen' n : covered l seen n → (∀ s, s ∈ l → s ∈ l') → seen ⊆ seen' → covered l' seen' n.
Proof. unfold covered. destruct (ident n); [set_solver|]. intros Hc Hl _ s Hs. by apply Hl, Hc. Qed.

Lemma visited_app n ns b seen l b1 seen1 l' b' seen' :
  visited [n] b seen l b1 seen1 → visited ns b1 seen1 l' b' seen' → visited (n :: ns) b seen (l ++ l') b' seen'.
Proof.
  intros (S1 & C1 & O1 & F1 & L1) (S2 & C2 & O2 & F2 & L2).
  assert (∀ m seen0, covered l seen0 m → seen0 ⊆ seen' → covered (l ++ l')%list seen' m) as Hleft
    by (intros m seen0 Hm Hs; eapply covered_mono; [exact Hm|intros s Hin; apply elem_of_app; by left|exact Hs]).
  assert (∀ m, covered l' seen' m → covered (l ++ l')%list seen' m) as Hright
    by (intros m Hm; eapply covered_mono; [exact Hm|intros s Hin; apply elem_of_app; by right|done]).
  split_and!.
  - set_solver.
  - intros m [->|Hm]%elem_of_cons; [eapply Hleft; [apply C1; by left|done]|by apply Hright, C2].
  - intros m k Hk Hin Hnot c Hc. destruct (decide (k ∈ seen1)) as [H1|H1].
    + eapply Hleft; [by eapply O1|done].
    + apply Hright. by eapply O2.
  - intros s [Hs|Hs]%elem_of_app.
    + destruct (F1 s Hs) as (m & x & ->%list_elem_of_singleton & Hx). exists n, x. split; [by left|done].
    + destruct (F2 s Hs) as (m & x & Hm & Hx). exists m, x. split; [by right|done].
  - rewrite length_app. lia.
Qed.

Lemma walk_kids fuel ns b seen :
  (∀ n b seen, (0 <= b < Z.of_nat fuel)%Z → wp (walk fuel n) (outcome [n] b seen) (b, seen)) → (0 <= b < Z.of_nat fuel)%Z →
  wp (mapS (walk fuel) ns) (λ r st, r ≠ Raise OutOfFuel ∧ (0 <= st.1 <= b)%Z ∧
    ∀ ll, r = Ok ll → visited ns b seen (concat ll) st.1 st.2) (b, seen).
Proof.
  intros Hwalk. revert b seen. induction ns as [|n ns IH]; intros b seen Hb; simpl.
  - apply wp_ret. split_and!; [done|simpl; lia|simpl; lia|]. intros ll [= <-]. split_and!; simpl.
    + done.
    + by intros n ?%elem_of_nil.
    + intros n k _ H1 H2. by destruct H2.
    + by intros s ?%elem_of_nil.
    + lia.
  - apply wp_bind. eapply wp_mono; [by apply Hwalk|]. intros [l|e] [b1 seen1] (Hne & Hb1 & Hl); simpl in *.
    2: { split_and!; [congruence|lia|lia|done]. }
    apply wp_bind. eapply wp_mono; [apply IH; lia|]. intros [ll|e] [b2 seen2] (Hne2 & Hb2 & Hll); simpl in *.
    2: { split_and!; [congruence|lia|lia|done]. }
    apply wp_ret. split_and!; [done|simpl; lia|simpl; lia|]. intros ll' [= <-]. simpl.
    eapply visited_app; [by apply Hl|by apply Hll].
Qed.

(** One more visit than its objects take: the container itself. *)
Lemma visited_container n k b seen l b' seen' :
  ident n = Some k → k ∉ seen → visited (kids n) (b - 1) ({[k]} ∪ seen) l b' seen' → visited [n] b seen l b' seen'.
Proof.
  intros Hk Hnew (S1 & C1 & O1 & F1 & L1). split_and!.
  - set_solver.
  - intros m ->%list_elem_of_singleton. unfold covered. rewrite Hk. set_solver.
  - intros m k' Hm Hin Hnot. destruct (decide (k' = k)) as [->|Hne].
    + intros c Hc. apply C1. by rewrite (ident_inj n m k Hk Hm).
    + eapply O1; [done|done|set_solver].
  - intros s Hs. destruct (F1 s Hs) as (c & m & Hc & Hm & Ht). exists n, m. split; [by left|]. split; [|done].
    eapply reaches_trans; [|exact Hm]. eapply reaches_kid; [apply reaches_root|done].
  - lia.
Qed.

Lemma visited_leaf n b seen l :
  ident n = None → text n = match l with s :: _ => Some s | [] => None end → (length l ≤ 1)%nat →
  visited [n] b seen l (b - 1) seen.
Proof.
  intros Hi Ht Hl. split_and!.
  - done.
  - intros m ->%list_elem_of_singleton. unfold covered. rewrite Hi, Ht. destruct l as [|s l]; [done|]. intros s' [= ->]. by left.
  - intros m k _ H1 H2. by destruct H2.
  - intros s Hs. destruct l as [|s' [|]]; simpl in Hl; [by apply elem_of_nil in Hs| |lia].
    apply list_elem_of_singleton in Hs as ->. exists n, n. split; [by left|]. split; [apply reaches_root|done].
  - lia.
Qed.

Lemma walk_spec fuel n b seen : (0 <= b < Z.of_nat fuel)%Z → wp (walk fuel n) (outcome [n] b seen) (b, seen).
Proof.
  revert n b seen. induction fuel as [|fuel IH]; intros n b seen Hb; [lia|]. cbn [walk].
  apply wp_bind, wp_get. cbn [fst]. destruct (Z.leb_spec b 0) as [Hlow|Hpos]; [apply wp_throw; split_and!; [done|simpl; lia|simpl; lia|done]|].
  apply wp_bind, wp_modify. cbn [fst snd].
  assert (∀ seen1, wp (ll ← mapS (walk fuel) (kids n); mret (concat ll)) (λ r st, r ≠ Raise OutOfFuel ∧
    (0 <= st.1 <= b)%Z ∧ ∀ l, r = Ok l → visited (kids n) (b - 1) seen1 l st.1 st.2) ((b - 1)%Z, seen1)) as Hkids.
  { intros seen1. apply wp_bind. eapply wp_mono; [apply walk_kids; [exact IH|lia]|].
    intros [ll|e] st (Hne & Hst & Hll); [|split_and!; [congruence|lia|lia|done]].
    apply wp_ret. split_and!; [done|lia|lia|]. intros l [= <-]. by apply Hll. }
  destruct (ident n) as [k|] eqn:Hk.
  - case_bool_decide as Hseen.
    + apply wp_ret. split_and!; [done|simpl; lia|simpl; lia|]. intros l [= <-]. split_and!; simpl; [done| | | |lia].
      * intros m ->%list_elem_of_singleton. unfold covered. by rewrite Hk.
      * intros m k' _ H1 H2. by destruct H2.
      * by intros s ?%elem_of_nil.
    + apply wp_bind, wp_modify. cbn [fst snd]. rewrite (container_text n k Hk).
      eapply wp_mono; [apply Hkids|]. intros r st (Hne & Hst & Hl). split_and!; [done|lia|lia|].
      intros l Hr. eapply visited_container; [done|done|by apply Hl].
  - destruct (text n) as [s|] eqn:Ht.
    + apply wp_ret. split_and!; [done|simpl; lia|simpl; lia|]. intros l [= <-]. by apply visited_leaf.
    + rewrite (leaf_kids n Hk). simpl. apply wp_ret. split_and!; [done|simpl; lia|simpl; lia|]. intros l [= <-].
      by apply visited_leaf; [| |simpl; lia].
Qed.

(** Everything below an object that was dealt with was dealt with. *)
Lemma covered_reach root l seen n :
  covered l seen root → (∀ m k, ident m = Some k → k ∈ seen → opened l seen m) → reaches root n → covered l seen n.
Proof.
  intros Hroot Hopen. induction 1 as [|n n' Hr IH Hn]; [done|]. unfold covered in IH.
  destruct (ident n) as [k|] eqn:Hk; [by apply (Hopen n k Hk IH)|]. rewrite (leaf_kids n Hk) in Hn. by apply elem_of_nil in Hn.
Qed.
End walk.

(** *** A parsed document is a tree: the path of an object stands for its identity. *)
Section tree.
Context (root : value).

Definition objects_of (v : value) : list value := match v with VList l => l | VDict d => d.*2 | _ => [] end.
Definition is_container (v : value) : bool := match v with VList _ | VDict _ => true | _ => false end.
Fixpoint value_at (v : value) (path : list nat) : option value :=
  match path with [] => Some v | i :: path => x ← objects_of v !! i; value_at x path end.

Definition path_kids (path : list nat) : list (list nat) :=
  match value_at root path with
  | Some v => imap (λ i _, path ++ [i])%list (objects_of v)
  | None => []
  end.
Definition path_ident (path : list nat) : option (list nat) :=
  match value_at root path with Some v => if is_container v then Some path else None | None => None end.
Definition path_text (path : list nat) : option string :=
  match value_at root path with Some (VStr s) => Some s | _ => None end.

Lemma path_ident_inj n n' k : path_ident n = Some k → path_ident n' = Some k → n = n'.
Proof. unfold path_ident. repeat case_match; congruence. Qed.
Lemma path_container_text n k : path_ident n = Some k → path_text n = None.
Proof. unfold path_ident, path_text. destruct (value_at root n) as [[]|]; simpl; congruence. Qed.
Lemma path_leaf_kids n : path_ident n = None → path_kids n = [].
Proof. unfold path_ident, path_kids. destruct (value_at root n) as [[]|]; simpl; congruence. Qed.

Definition tree_objects : Objects (list nat) (list nat) := {|
  ident := path_ident; text := path_text; kids := path_kids;
  ident_inj := path_ident_inj; container_text := path_container_text; leaf_kids := path_leaf_kids |}.

(** The objects of a tree. *)
Fixpoint size (v : value) : Z :=
  match v with
  | VList l => 1 + (fix sizes l := match l with [] => 0 | v :: l => size v + sizes l end) l
  | VDict d => 1 + (fix sizes d := match d with [] => 0 | (_, v) :: d => size v + sizes d end) d
  | _ => 1
  end%Z.
Notation leaves := (_iter_string_leaves false).
Definition sizes (l : list value) : Z := foldr (λ v n, (size v + n)%Z) 0%Z l.

Lemma size_container v : is_container v = true → size v = (1 + sizes (objects_of v))%Z ∧ leaves v = concat (leaves <$> objects_of v).
Proof.
  destruct v as [| | | |l|d|]; try done; intros _; simpl.
  - split; [reflexivity|]. induction l as [|v l IH]; simpl; [done|]. by f_equal.
  - split; [f_equal|]; (induction d as [|[k v] d IH]; csimpl; [done|]; by f_equal).
Qed.

Lemma size_pos v : (1 <= size v)%Z.
Proof.
  induction v as [| | | |l IH|d IH|] using value_rect'; simpl; try lia.
  - induction IH as [|v l Hv _ IHl]; lia.
  - induction IH as [|[k v] d [_ Hv] _ IHd]; simpl in *; lia.
Qed.

Lemma sizes_nonneg l : (0 <= sizes l)%Z.
Proof.
  induction l as [|v l IH]; [done|]. change (sizes (v :: l)) with (size v + sizes l)%Z. pose proof (size_pos v). lia.
Qed.

Lemma value_at_snoc v path i : value_at v (path ++ [i]) = (x ← value_at v path; objects_of x !! i).
Proof.
  revert v. induction path as [|j path IH]; intros v; simpl; [by destruct (objects_of v !! i)|].
  destruct (objects_of v !! j) as [x|]; simpl; [apply IH|done].
Qed.

Notation walk_tree := (@walk _ _ _ _ tree_objects).

(** The walk of one object in a tree that is small enough. *)
Definition walked (v : value) : Prop := ∀ fuel path b seen,
  value_at root path = Some v → (size v <= b < Z.of_nat fuel)%Z → (∀ q, (path ++ q)%list ∉ seen) →
  ∃ seen', walk_tree fuel path (b, seen) = (Ok (leaves v), ((b - size v)%Z, seen')) ∧
    ∀ k, k ∈ seen' → k ∈ seen ∨ ∃ q, k = (path ++ q)%list.

Lemma walked_objects vs fuel path i b seen :
  Forall walked vs → (∀ j v, vs !! j = Some v → value_at root (path ++ [(i + j)%nat]) = Some v) →
  (sizes vs <= b < Z.of_nat fuel)%Z → (∀ j q, (path ++ (i + j)%nat :: q)%list ∉ seen) →
  ∃ seen', mapS (walk_tree fuel) (imap (λ j _, path ++ [(i + j)%nat])%list vs) (b, seen) =
    (Ok (leaves <$> vs), ((b - sizes vs)%Z, seen')) ∧ ∀ k, k ∈ seen' → k ∈ seen ∨ ∃ q, k = (path ++ q)%list.
Proof.
  intros Hvs. revert i b seen. induction Hvs as [|v vs Hv _ IH]; intros i b seen Hat Hb Hseen; simpl.
  - exists seen. split; [|by left]. unfold mret, M_ret. by rewrite Z.sub_0_r.
  - pose proof (size_pos v). pose proof (sizes_nonneg vs). change (sizes (v :: vs)) with (size v + sizes vs)%Z in *.
    destruct (Hv fuel (path ++ [(i + 0)%nat])%list b seen) as (seen1 & E1 & S1).
    { by apply Hat. } { lia. } { intros q. rewrite <- app_assoc. apply Hseen. }
    destruct (IH (S i) (b - size v)%Z seen1) as (seen2 & E2 & S2).
    { intros j w Hj. rewrite <- (Hat (S j) w) by done. do 2 f_equal. f_equal. lia. } { lia. }
    { intros j q Hin. destruct (S1 _ Hin) as [Hold|[q' Hq]]; [apply (Hseen (S j) q); by rewrite Nat.add_succ_r|].
      rewrite <- app_assoc in Hq. apply app_inv_head in Hq. injection Hq as Hq _. lia. }
    exists seen2. split.
    + unfold mbind at 1, M_bind at 1. rewrite E1. unfold mbind, M_bind.
      rewrite (imap_ext _ (λ j _, path ++ [(S i + j)%nat])%list) by (intros; simpl; by rewrite Nat.add_succ_r).
      rewrite E2. unfold mret, M_ret. do 2 f_equal. lia.
    + intros k Hk. destruct (S2 _ Hk) as [Hk'|]; [|by right]. destruct (S1 _ Hk') as [|[q ->]]; [by left|].
      right. exists ((i + 0)%nat :: q). by rewrite <- app_assoc.
Qed.

Lemma walked_value v : walked v.
Proof.
  assert (∀ v, Forall walked (objects_of v) → walked v) as Hstep.
  { clear v. intros v Hvs fuel path b seen Hat Hb Hseen. pose proof (size_pos v). destruct fuel as [|fuel]; [lia|].
    cbn [walk]. unfold mbind at 1, M_bind at 1, get at 1. cbn [fst snd].
    rewrite (proj2 (Z.leb_gt _ _)) by lia. unfold mbind at 1, M_bind at 1, modify at 1. cbn [fst snd].
    change (@ident _ _ _ _ tree_objects) with path_ident. change (@text _ _ _ _ tree_objects) with path_text.
    change (@kids _ _ _ _ tree_objects) with path_kids. unfold path_ident, path_text, path_kids. rewrite Hat.
    destruct (is_container v) eqn:Hc; [|exists seen; destruct v; try done; by split; [|by left]].
    destruct (size_container v Hc) as [Hsize Hleaves]. rewrite bool_decide_eq_false_2.
    2: { specialize (Hseen []). by rewrite app_nil_r in Hseen. }
    unfold mbind at 1, M_bind at 1, modify. cbn [fst snd].
    destruct (walked_objects (objects_of v) fuel path 0 (b - 1) ({[path]} ∪ seen)) as (seen' & E & S').
    { done. } { intros j w Hj. rewrite value_at_snoc, Hat. exact Hj. } { lia. }
    { intros j q [Hin%elem_of_singleton|Hin]%elem_of_union; [|by apply (Hseen ((0 + j)%nat :: q))].
      apply (f_equal length) in Hin. rewrite length_app in Hin. simpl in Hin. lia. }
    exists seen'. simpl in E. split.
    - replace (match v with VStr s => Some s | _ => None end) with (@None string) by (by destruct v).
      unfold mbind, M_bind. rewrite E. unfold mret, M_ret. rewrite Hleaves. do 2 f_equal. rewrite Hsize. lia.
    - intros k Hk. destruct (S' k Hk) as [[->%elem_of_singleton|]%elem_of_union|]; [|by left|by right].
      right. exists []. by rewrite app_nil_r. }
  induction v as [| | | |l IH|d IH|] using value_rect'; apply Hstep; simpl; try constructor; [done|].
  induction IH as [|[k v] d [_ Hv] _ IHd]; by constructor.
Qed.
End tree.

(** [_string_leaves] of a parsed document. *)
Definition document_leaves (v : value) : result refusal (list string) := @_string_leaves _ _ _ _ (tree_objects v) [].

Lemma document_leaves_small v : (size v <= _LEAF_BUDGET)%Z → document_leaves v = Ok (_iter_string_leaves false v).
Proof.
  intros Hs. unfold document_leaves, _string_leaves.
  destruct (walked_value v v (S (Z.to_nat _LEAF_BUDGET)) [] _LEAF_BUDGET ∅) as (seen' & -> & _); [done| |set_solver|done].
  split; [done|]. rewrite Nat2Z.inj_succ, Z2Nat.id by done. lia.
Qed.

(** A walk that is not refused finds the strings that can be reached, and those only. *)
Lemma string_leaves_exact {N K : Type} `{Objects N K} (root : N) l s :
  _string_leaves root = Ok l → s ∈ l ↔ ∃ n, reaches root n ∧ text n = Some s.
Proof.
  unfold _string_leaves. intros Hl.
  destruct (walk_spec (S (Z.to_nat _LEAF_BUDGET)) root _LEAF_BUDGET ∅) as (_ & _ & Hv).
  { split; [done|]. rewrite Nat2Z.inj_succ, Z2Nat.id by done. lia. }
  destruct (Hv l Hl) as (_ & Hcov & Hopen & Hfound & _). split.
  - intros Hs. destruct (Hfound s Hs) as (n & m & ->%list_elem_of_singleton & Hm). by exists m.
  - intros (n & Hn & Ht). set (seen := (walk _ root _).2.2) in *.
    assert (covered l seen n) as Hc.
    { eapply covered_reach; [apply Hcov; by left| |exact Hn]. intros m k Hm Hk. eapply Hopen; [done|done|]. by apply not_elem_of_empty. }
    unfold covered in Hc. destruct (ident n) as [k|] eqn:Hk; [|by apply Hc]. by rewrite (container_text n k Hk) in Ht.
Qed.

Lemma string_leaves_ends {N K : Type} `{Objects N K} (root : N) :
  _string_leaves root ≠ Raise OutOfFuel ∧ ∀ l, _string_leaves root = Ok l → (Z.of_nat (length l) <= _LEAF_BUDGET)%Z.
Proof.
  unfold _string_leaves. destruct (walk_spec (S (Z.to_nat _LEAF_BUDGET)) root _LEAF_BUDGET ∅) as (Hne & Hb & Hv).
  { split; [done|]. rewrite Nat2Z.inj_succ, Z2Nat.id by done. lia. }
  split; [done|]. intros l Hl. destruct (Hv l Hl) as (_ & _ & _ & _ & Hlen). lia.
Qed.
End Walk.

(** The walk over an object ends whatever the object is, shared or referring
    to itself: it is refused, or it has found within its budget exactly the
    strings that can be reached; and for a document of at most 20000 objects it is
    never refused and finds them in the order the render budget counts them. *)
Theorem string_leaves_bounded {N K : Type} `{Walk.Objects N K} (root : N) (document : value) :
  (match Walk._string_leaves root with
   | Raise e => e = Walk.TooLarge
   | Ok l => (Z.of_nat (length l) <= Walk._LEAF_BUDGET)%Z ∧ ∀ s, s ∈ l ↔ ∃ n, Walk.reaches root n ∧ Walk.text n = Some s
   end) ∧
  ((Walk.size document <=? Walk._LEAF_BUDGET)%Z = true →
     Walk.document_leaves document = Ok (_iter_string_leaves false document)).
Proof.
  split; [|intros Hs%Z.leb_le; by apply Walk.document_leaves_small].
  destruct (Walk.string_leaves_ends root) as [Hne Hlen]. pose proof (Walk.string_leaves_exact root) as Hexact.
  destruct (Walk._string_leaves root) as [l|[]]; [|done|done]. split; [by apply Hlen|]. intros s. by apply Hexact.
Qed.

(** ** Candidates, ports and warnings *)
Module Candidates.

Section candidates.
Context (format_other : value → string).
Notation dict := (list (value * value)).
Notation str := (py_str format_other).

Definition _env_items (service_def : dict) : list (string * value) :=
  match get_or_null "environment" service_def with
  | VDict d => (λ kv, (str kv.1, kv.2)) <$> d
  | VList l =>
      omap (λ item, match item with
        | VStr s => match partition "=" s with (name, Some v) => Some (strip name, VStr v) | (_, None) => None end
        | _ => None
        end) l
  | _ => []
  end.

Definition fields (service : value * value) : dict := match service.2 with VDict d => d | _ => [] end.
Definition name_of (service : value * value) : string := str service.1.

(** *** Warnings *)
Record warning : Type := Warning { w_service : string; w_key : string; itype : string }.

Definition item_warnings (name : string) (item : string * value) : list warning :=
  match item.2 with
  | VStr v =>
      if contains "{{" v then
        match Scan._strip_expressions v with
        | Some literal => Warning name item.1 <$> List.filter (λ t, mentions t false literal) KNOWN_INTEGRATION_TYPES
        | None => []
        end
      else []
  | _ => []
  end.
Definition _strip_warnings (services : dict) : list warning :=
  concat ((λ nv, concat (item_warnings (name_of nv) <$> _env_items (fields nv))) <$> services).

(** *** Ports *)
Record port_row : Type := PortRow { port_name : string; p_service : string; container_port : string; p_protocol : value }.

Definition service_ports (nv : value * value) : list port_row :=
  match get_or_null "ports" (fields nv) with
  | VList l =>
      (λ p, PortRow (name_of nv +:+ "_" +:+ str (port_target p)) (name_of nv) (str (port_target p))
         (let proto := match p with VDict d => get_or_null "protocol" d | _ => VNull end in
          if truthy proto then proto else VStr "tcp")) <$> l
  | _ => []
  end.
Definition preflight_ports (services : dict) : list port_row := concat (service_ports <$> services).

(** *** Candidates *)
Notation candidate := ((option string * string) * bool)%type.

Definition setdefault (k : option string * string) (cs : list candidate) : list candidate :=
  if bool_decide (k ∈ cs.*1) then cs else (cs ++ [(k, false)])%list.
Definition mark (k : option string * string) (cs : list candidate) : list candidate :=
  (λ c, if bool_decide (c.1 = k) then (k, true) else c) <$> cs.

Definition add_item (referenced : list string) (name : string) (cs : list candidate) (item : string * value) : list candidate :=
  let k := (Some name, item.1) in
  let cs := setdefault k cs in
  if mem item.1 referenced then mark k cs else cs.
Definition add_service (referenced : list string) (cs : list candidate) (nv : value * value) : list candidate :=
  foldl (add_item referenced (name_of nv)) cs (_env_items (fields nv)).

(** [known] and the candidates of no service. *)
Definition add_reference (st : list string * list candidate) (key : string) : list string * list candidate :=
  let '(known, cs) := st in
  if mem key known then st else (key :: known, (cs ++ [((None, key), true)])%list).

(** The key of the sort. *)
Definition sort_key (c : candidate) : string * string := (default "" c.1.1, c.1.2).
Definition candidate_le (a b : candidate) : Prop :=
  let '((s, k), (s', k')) := (sort_key a, sort_key b) in (s ≠ s' ∧ String.le s s') ∨ (s = s' ∧ String.le k k').
Global Instance candidate_le_dec a b : Decision (candidate_le a b).
Proof. unfold candidate_le. apply _. Defined.

(** [set_order] is the order in which the set of references is iterated. *)
Definition config_candidates (set_order : list string → list string) (services : dict) (referenced : list string) :
    list candidate :=
  let cs := foldl (add_service referenced) [] services in
  let cs := (foldl add_reference (snd <$> cs.*1, cs) (set_order referenced)).2 in
  merge_sort candidate_le cs.

(** *** The list that results *)

(** The candidates of the pairs in [P], each once, flagged as they are. *)
Definition tabulates (referenced : list string) (P : string → string → Prop) (cs : list candidate) : Prop :=
  NoDup cs.*1 ∧ ∀ c, c ∈ cs ↔ ∃ name key, c = ((Some name, key), mem key referenced) ∧ P name key.

Lemma mark_same k cs : (∀ c, c ∈ cs → c.1 = k → c.2 = true) → mark k cs = cs.
Proof.
  intros H. unfold mark. rewrite <- (list_fmap_id cs) at 2. apply list_fmap_ext. intros i c Hc%list_elem_of_lookup_2.
  case_bool_decide as Hk; [|done]. destruct c as [k' b]. simpl in *. by rewrite <- Hk, <- (H _ Hc Hk).
Qed.

Lemma add_item_eq referenced name cs item P :
  tabulates referenced P cs →
  add_item referenced name cs item =
    if bool_decide ((Some name, item.1) ∈ cs.*1) then cs else (cs ++ [((Some name, item.1), mem item.1 referenced)])%list.
Proof.
  intros [_ Hcs]. unfold add_item, setdefault. case_bool_decide as Hin.
  - destruct (mem item.1 referenced) eqn:Hm; [|done]. apply mark_same. intros c Hc Hk.
    apply Hcs in Hc as (n & k & -> & _). simpl in *. by injection Hk as -> ->.
  - destruct (mem item.1 referenced) eqn:Hm; [|done]. unfold mark. rewrite fmap_app. simpl. rewrite bool_decide_eq_true_2 by done.
    f_equal. apply mark_same. intros c Hc Hk. destruct Hin. rewrite <- Hk. by apply list_elem_of_fmap_2.
Qed.

Lemma add_item_tabulates referenced name cs item P :
  tabulates referenced P cs →
  tabulates referenced (λ n k, P n k ∨ (n = name ∧ k = item.1)) (add_item referenced name cs item).
Proof.
  intros Ht. rewrite (add_item_eq _ _ _ _ _ Ht). destruct Ht as [Hnd Hcs]. case_bool_decide as Hin; split.
  - done.
  - intros c. rewrite Hcs. split; intros (n & k & -> & H); exists n, k; (split; [done|]); [by left|].
    destruct H as [H|[-> ->]]; [done|]. apply list_elem_of_fmap in Hin as (c & Hk & Hc).
    apply Hcs in Hc as (n & k & -> & HP). simpl in Hk. by injection Hk as -> ->.
  - rewrite fmap_app. apply NoDup_app. split_and!; [done| |apply NoDup_singleton]. intros k Hk ->%list_elem_of_singleton. done.
  - intros c. rewrite elem_of_app, list_elem_of_singleton, Hcs. split.
    + intros [(n & k & -> & H)| ->]; [exists n, k; by auto|]. exists name, item.1. by auto.
    + intros (n & k & -> & [H|[-> ->]]); [left; by exists n, k|by right].
Qed.

Lemma tabulates_ext referenced P P' cs : (∀ n k, P n k ↔ P' n k) → tabulates referenced P cs → tabulates referenced P' cs.
Proof. intros HP [Hnd Hcs]. split; [done|]. intros c. rewrite Hcs. by setoid_rewrite HP. Qed.

(** The environment keys of a service. *)
Definition env_key (services : dict) (name key : string) : Prop :=
  ∃ nv v, nv ∈ services ∧ name = name_of nv ∧ (key, v) ∈ _env_items (fields nv).

Lemma add_service_tabulates referenced cs nv P :
  tabulates referenced P cs →
  tabulates referenced (λ n k, P n k ∨ (n = name_of nv ∧ ∃ v, (k, v) ∈ _env_items (fields nv))) (add_service referenced cs nv).
Proof.
  intros Ht. unfold add_service. set (items := _env_items (fields nv)). revert Ht.
  rewrite <- (reverse_involutive items). generalize (reverse items). clear items. intros items.
  induction items as [|[k v] items IH]; intros Ht.
  - eapply tabulates_ext; [|exact Ht]. intros n k. split; [by left|]. intros [H|[_ [v Hv]]]; [done|]. by apply elem_of_nil in Hv.
  - rewrite reverse_cons, foldl_snoc. eapply tabulates_ext; [|apply add_item_tabulates, IH, Ht]. intros n key. simpl. split.
    + intros [[H|[-> [w Hw]]]|[-> ->]]; [by left| |]; right; (split; [done|]); [exists w|exists v]; rewrite elem_of_app; [by left|].
      right. by apply list_elem_of_singleton.
    + intros [H|[-> [w [Hw|Hw%list_elem_of_singleton]%elem_of_app]]]; [by auto|left; right; by eauto|].
      injection Hw as -> ->. by right.
Qed.

Lemma services_tabulated referenced services : tabulates referenced (env_key services) (foldl (add_service referenced) [] services).
Proof.
  rewrite <- (reverse_involutive services). generalize (reverse services). clear services. intros services.
  induction services as [|nv services IH].
  - split; [apply NoDup_nil_2|]. intros c. split; [by intros ?%elem_of_nil|]. intros (n & k & -> & nv & v & H & _). by apply elem_of_nil in H.
  - rewrite reverse_cons, foldl_snoc. eapply tabulates_ext; [|by apply add_service_tabulates]. intros n k. unfold env_key. split.
    + intros [(nv' & v & Hin & -> & Hv)|[-> [v Hv]]]; [exists nv', v|exists nv, v]; rewrite elem_of_app; [by auto|].
      split_and!; [|done|done]. right. by apply list_elem_of_singleton.
    + intros (nv' & v & [Hin| ->%list_elem_of_singleton]%elem_of_app & -> & Hv); [left; by exists nv', v|right; by eauto].
Qed.

(** What is listed: every environment key of every service once, flagged when it
    is referred to, and every other name referred to. *)
Definition belongs (services : dict) (referenced : list string) (c : candidate) : Prop :=
  match c with
  | ((Some name, key), flag) => env_key services name key ∧ flag = mem key referenced
  | ((None, key), flag) => flag = true ∧ key ∈ referenced ∧ ∀ name, ¬ env_key services name key
  end.

Definition loose (key : string) : candidate := ((None, key), true).

Lemma references_added services referenced (keys : list string) tab :
  tabulates referenced (env_key services) tab →
  ∃ known new, foldl add_reference (snd <$> tab.*1, tab) keys = (known, (tab ++ (loose <$> new))%list) ∧ NoDup new ∧
    (∀ k, k ∈ known ↔ (∃ n, env_key services n k) ∨ k ∈ keys) ∧
    ∀ k, k ∈ new ↔ k ∈ keys ∧ ∀ n, ¬ env_key services n k.
Proof.
  intros [_ Htab]. induction keys as [|key keys IH] using rev_ind.
  - exists (snd <$> tab.*1), []. split_and!; [by rewrite app_nil_r|apply NoDup_nil_2| |].
    + intros k. rewrite !list_elem_of_fmap. split.
      * intros (p & -> & (c & -> & (n & key & -> & HP)%Htab)%list_elem_of_fmap). left. by exists n.
      * intros [[n HP]|H]; [|by apply elem_of_nil in H]. exists (Some n, k). split; [done|].
        apply list_elem_of_fmap. exists ((Some n, k), mem k referenced). split; [done|]. apply Htab. by eauto.
    + intros k. split; [by intros ?%elem_of_nil|]. intros [H _]. by apply elem_of_nil in H.
  - destruct IH as (known & new & E & Hnd & Hk & Hnew). rewrite foldl_snoc, E. unfold add_reference.
    destruct (mem key known) eqn:Hm.
    + apply mem_true in Hm. exists known, new. split_and!; [done|done| |].
      * intros k. rewrite Hk, elem_of_app, list_elem_of_singleton. split; [by intuition|].
        intros [H|[H| ->]]; [by auto..|]. by apply Hk in Hm.
      * intros k. rewrite Hnew, elem_of_app, list_elem_of_singleton. split; [by intuition|].
        intros [[H| ->] Hn]; [done|]. apply Hk in Hm as [[n H]|H]; [by destruct (Hn n)|done].
    + apply mem_false in Hm. assert ((∀ n, ¬ env_key services n key) ∧ key ∉ keys) as [Hno Hnot].
      { split; [intros n H; apply Hm, Hk; left; by exists n|intros H; apply Hm, Hk; by right]. }
      exists (key :: known), (new ++ [key])%list. split_and!.
      * rewrite fmap_app, app_assoc. done.
      * apply NoDup_app. split_and!; [done| |apply NoDup_singleton]. intros k Hk' ->%list_elem_of_singleton. by apply Hnew in Hk' as [? _].
      * intros k. rewrite elem_of_cons, Hk, elem_of_app, list_elem_of_singleton. intuition.
      * intros k. rewrite !elem_of_app, !list_elem_of_singleton, Hnew. split; [|by intuition].
        intros [[H Hn]| ->]; [by auto|]. split; [by right|done].
Qed.

Lemma candidates_listed set_order services referenced :
  (∀ l x, x ∈ set_order l ↔ x ∈ l) →
  let cs := config_candidates set_order services referenced in
  NoDup cs.*1 ∧ ∀ c, c ∈ cs ↔ belongs services referenced c.
Proof.
  intros Hset cs. unfold cs, config_candidates. pose proof (services_tabulated referenced services) as Ht.
  destruct (references_added services referenced (set_order referenced) _ Ht) as (known & new & -> & Hnd & _ & Hnew).
  destruct Ht as [Hndt Ht]. simpl. set (tab := foldl (add_service referenced) [] services) in *. split.
  - rewrite merge_sort_Permutation, fmap_app. apply NoDup_app. split_and!; [done| |].
    + intros p (c & -> & (n & k & -> & _)%Ht)%list_elem_of_fmap (c' & H & (k' & -> & _)%list_elem_of_fmap)%list_elem_of_fmap. done.
    + rewrite <- list_fmap_compose. apply NoDup_fmap_2; [|done]. intros k k' H. by injection H.
  - intros [[[name|] key] flag]; rewrite merge_sort_Permutation, elem_of_app, Ht; unfold belongs.
    + split; [|by intros [H ->]; left; eauto]. intros [(n & k & [= -> -> ->] & H)|(k & [=] & _)%list_elem_of_fmap]. done.
    + rewrite list_elem_of_fmap. split.
      * intros [(n & k & [=] & _)|(k & [= -> ->] & [H Hn]%Hnew)]. split_and!; [done|by apply Hset|done].
      * intros (-> & H & Hn). right. exists key. split; [done|]. apply Hnew. split; [by apply Hset|done].
Qed.

Lemma candidate_le_trans a b c : candidate_le a b → candidate_le b c → candidate_le a c.
Proof.
  unfold candidate_le. destruct (sort_key a) as [s k], (sort_key b) as [s' k'], (sort_key c) as [s'' k''].
  intros [[H1 H2]|[-> H2]] [[H3 H4]|[-> H4]].
  - left. split; [|by etrans]. intros ->. apply H1. by apply (anti_symm String.le).
  - by left.
  - by left.
  - right. split; [done|]. by etrans.
Qed.

Lemma candidate_le_total a b : candidate_le a b ∨ candidate_le b a.
Proof.
  unfold candidate_le. destruct (sort_key a) as [s k], (sort_key b) as [s' k']. destruct (decide (s = s')) as [->|Hs].
  - destruct (base.total String.le k k'); by auto.
  - destruct (base.total String.le s s'); [left|right]; left; by auto.
Qed.

Lemma candidates_sorted set_order services referenced :
  StronglySorted candidate_le (config_candidates set_order services referenced).
Proof.
  apply StronglySorted_merge_sort; [intros a b c; apply candidate_le_trans|intros a b; apply candidate_le_total].
Qed.

Lemma candidate_le_antisym services referenced a b :
  (∀ nv, nv ∈ services → name_of nv ≠ "") → belongs services referenced a → belongs services referenced b →
  candidate_le a b → candidate_le b a → a = b.
Proof.
  intros Hne Ha Hb Hab Hba. assert (sort_key a = sort_key b) as Hkey.
  { unfold candidate_le in *. destruct (sort_key a) as [s k], (sort_key b) as [s' k'].
    destruct Hab as [[H1 H2]|[-> H2]], Hba as [[H3 H4]|[H3 H4]]; try (by destruct H1); try congruence.
    - destruct H1. by apply (anti_symm String.le).
    - f_equal. by apply (anti_symm String.le). }
  pose proof (f_equal fst Hkey) as Hn. pose proof (f_equal snd Hkey) as Hk. clear Hkey Hab Hba.
  destruct a as [[[n|] k] f], b as [[[n'|] k'] f']; simpl in *; subst.
  - by destruct Ha as [_ ->], Hb as [_ ->].
  - destruct Ha as [(nv & v & Hin & Hempty & _) _]. by destruct (Hne nv Hin).
  - destruct Hb as [(nv & v & Hin & Hempty & _) _]. by destruct (Hne nv Hin).
  - by destruct Ha as [-> _], Hb as [-> _].
Qed.
End candidates.
End Candidates.

(** The configuration candidates are exactly the environment keys of the
    services, each once and flagged when some text refers to it, and the names
    that are referred to without being a key; the list is sorted, and it does not
    depend on the order in which the set of references is iterated. *)
Theorem config_candidates_complete (format_other : value → string) (set_order set_order' : list string → list string)
    (services : list (value * value)) (referenced : list string)
    (Horder : ∀ l x, x ∈ set_order l ↔ x ∈ l) (Horder' : ∀ l x, x ∈ set_order' l ↔ x ∈ l)
    (Hnames : ∀ nv, nv ∈ services → Candidates.name_of format_other nv ≠ "") :
  let cs := Candidates.config_candidates format_other set_order services referenced in
  NoDup cs.*1 ∧ StronglySorted Candidates.candidate_le cs ∧
  (∀ c, c ∈ cs ↔ Candidates.belongs format_other services referenced c) ∧
  Candidates.config_candidates format_other set_order' services referenced = cs.
Proof.
  intros cs. destruct (Candidates.candidates_listed format_other _ services referenced Horder) as [Hnd Hcs].
  destruct (Candidates.candidates_listed format_other _ services referenced Horder') as [Hnd' Hcs'].
  split_and!; [done|apply Candidates.candidates_sorted|exact Hcs|].
  apply (StronglySorted_unique_strong Candidates.candidate_le); [|apply Candidates.candidates_sorted..|].
  - intros a b Ha%Hcs' Hb%Hcs. by eapply (Candidates.candidate_le_antisym format_other services referenced).
  - apply NoDup_Permutation; [by eapply NoDup_fmap_1|by eapply NoDup_fmap_1|]. intros c. rewrite Hcs'. symmetry. apply Hcs.
Qed.

(** ** Image digests and disk admission *)

(** Why a preflight refuses. *)
Inductive message : Type :=
  | AliasReference (detail : string)
  | InvalidYaml (problem : string)
  | Shape (r : ComposeShape.reason) (got : value)
  | StructureTooLarge
  | NodeHolds (count : Z)              (** the node is at its cap *)
  | WouldHold (count : Z)              (** the pull would take it over *)
  | NoImageReference
  | BelowMargin (free : Z)             (** before the pull *)
  | Unresolved (exception : string)
  | OverImageCap (size : Z)
  | NoHeadroom (size free : Z).        (** after the pull *)

Inductive exc : Type :=
  | PreflightError (service : option string) (key : value) (m : message)
  | PyError (exception : string).

Module Admission.

(** The requests to docker and to the file system, oldest first. *)
Inductive call : Type :=
  | CountImages
  | Inspect (image : string)
  | DiskUsage
  | Pull (image : string)
  | Remove (image : string).
Global Instance call_eq_dec : EqDecision call.
Proof. solve_decision. Defined.
Notation history := (list call).

Record attrs : Type := Attrs { Id : option string; RepoDigests : list string; Size : option Z }.
Inductive inspection : Type := Found (a : attrs) | ImageNotFound | Unreadable (exception : string).

(** What each answers, from everything asked before. *)
Record docker : Type := Docker {
  images : history → option Z;                     (** [None]: an exception *)
  get_image : history → string → inspection;
  pull : history → string → option string;         (** an exception *)
  disk_usage : history → option Z;                 (** [None]: an [OSError] *)
}.

(** Zero switches a limit off. *)
Record settings : Type := Settings {
  greffer_image_count_max : Z; greffer_image_max_bytes : Z; greffer_image_min_free_bytes : Z }.

Section admission.
Context (format_other : value → string) (d : docker) (cfg : option settings).
Notation name_of := (Candidates.name_of format_other).

Definition record_call (c : call) : M history exc history := h ← get; modify (λ h, h ++ [c])%list;; mret h.
Definition refuse {A} (service : option string) (m : message) : M history exc A :=
  throw (PreflightError service (VStr "image") m).

Definition _disk_free_bytes : M history exc (option Z) := h ← record_call DiskUsage; mret (disk_usage d h).
Definition _remove_newly_pulled (image : string) : M history exc unit := record_call (Remove image);; mret tt.

Definition non_empty (o : option string) : option string :=
  match o with Some s => if String.eqb s "" then None else Some s | None => None end.

Definition _admit_image (name image : string) (info : attrs) (introduced : bool) (s : settings) : M history exc unit :=
  let size := default 0%Z (Size info) in
  let cleanup := when introduced (_remove_newly_pulled (default image (non_empty (Id info)))) in
  if negb (greffer_image_max_bytes s =? 0)%Z && (greffer_image_max_bytes s <? size)%Z
  then cleanup;; refuse (Some name) (OverImageCap size)
  else if negb (greffer_image_min_free_bytes s =? 0)%Z then
    free ← _disk_free_bytes;
    match free with
    | Some free =>
        if (free <? size + greffer_image_min_free_bytes s)%Z then cleanup;; refuse (Some name) (NoHeadroom size free) else mret tt
    | None => mret tt
    end
  else mret tt.

(** The identity of the image before the pull, and whether it could not be read. *)
Definition probe (image : string) : M history exc (option string * bool) :=
  h ← record_call (Inspect image);
  mret (match get_image d h image with
        | Found a => (Id a, false) | ImageNotFound => (None, false) | Unreadable _ => (None, true) end).

Definition margin_before_pull (name : string) : M history exc unit :=
  match cfg with
  | Some s =>
      if (greffer_image_min_free_bytes s =? 0)%Z then mret tt
      else free ← _disk_free_bytes;
           match free with
           | Some free => when (free <=? greffer_image_min_free_bytes s)%Z (refuse (Some name) (BelowMargin free))
           | None => mret tt
           end
  | None => mret tt
  end.

(** The pull and what the image is then. *)
Definition pull_and_inspect (name image : string) : M history exc (attrs * string) :=
  h ← record_call (Pull image);
  match pull d h image with
  | Some e => refuse (Some name) (Unresolved e)
  | None =>
      h ← record_call (Inspect image);
      match get_image d h image with
      | Found a =>
          match List.filter (λ r, has_char "@" r) (RepoDigests a) with
          | digest :: _ => mret (a, digest)
          | [] => refuse (Some name) (Unresolved "RuntimeError")
          end
      | ImageNotFound => refuse (Some name) (Unresolved "ImageNotFound")
      | Unreadable e => refuse (Some name) (Unresolved e)
      end
  end.

(** One service; [cap] is the count of images and its limit, when they count, and
    [slots_used] the images this preflight has introduced. *)
Definition resolve_service (cap : option (Z * Z)) (st : list (string * string) * Z) (nv : value * value) :
    M history exc (list (string * string) * Z) :=
  let name := name_of nv in
  match get_or_null "image" (Candidates.fields nv) with
  | VStr (String c image) =>
      let image := String c image in
      '(pre_id, pre_unclear) ← probe image;
      margin_before_pull name;;
      (match cap with
       | Some (count, max) =>
           when (negb pre_unclear && negb (bool_decide (is_Some pre_id)) && (max <=? count + st.2)%Z)
             (refuse (Some name) (WouldHold (count + st.2 + 1)))
       | None => mret tt
       end);;
      '(info, digest) ← pull_and_inspect name image;
      let digests := (st.1 ++ [(name, digest)])%list in
      match cfg with
      | None => mret (digests, st.2)
      | Some s =>
          let introduced := bool_decide (is_Some (non_empty (Id info))) && negb pre_unclear && negb (bool_decide (pre_id = Id info)) in
          _admit_image name image info introduced s;;
          mret (digests, st.2 + (if introduced then 1 else 0))%Z
      end
  | _ => refuse (Some name) NoImageReference
  end.

(** The count cap, when it is on and the images can be counted. *)
Definition count_cap : M history exc (option (Z * Z)) :=
  match cfg with
  | Some s =>
      if (greffer_image_count_max s =? 0)%Z then mret None
      else h ← record_call CountImages;
           match images d h with
           | None => mret None
           | Some count =>
               if (greffer_image_count_max s <=? count)%Z then refuse None (NodeHolds count)
               else mret (Some (count, greffer_image_count_max s))
           end
  | None => mret None
  end.

Definition _resolve_image_digests (services : list (value * value)) : M history exc (list (string * string)) :=
  cap ← count_cap;
  st ← foldS (resolve_service cap) ([], 0%Z) services;
  mret st.1.

(** *** What it promises *)

Definition no_removal (h : history) : Prop := Forall (λ c, match c with Remove _ => False | _ => True end) h.
Definition disk_only (h : history) : Prop := Forall (λ c, c = DiskUsage) h.

(** The inspection before the pull of an image, the pull, the inspection after it,
    and readings of the free space in between and after. *)
Definition pulled (h0 : history) (image : string) (before after h : history) : Prop :=
  disk_only before ∧ disk_only after ∧
  h = (h0 ++ [Inspect image] ++ before ++ [Pull image; Inspect image] ++ after)%list.
Definition inspected_after (h0 : history) (image : string) (before : history) (a : attrs) : Prop :=
  pull d (h0 ++ [Inspect image] ++ before)%list image = None ∧
  get_image d (h0 ++ [Inspect image] ++ before ++ [Pull image])%list image = Found a.

(** [ref] is an image this preflight brought in: the node answered that it had
    none, or another one, under that name. *)
Definition brought_in (h : history) (ref : string) : Prop := ∃ h0 image before after a,
  pulled h0 image before after h ∧ inspected_after h0 image before a ∧ Id a = Some ref ∧
  (get_image d h0 image = ImageNotFound ∨ ∃ a0, get_image d h0 image = Found a0 ∧ Id a0 ≠ Some ref).

(** The limits hold of an image that was admitted. *)
Definition within_limits (a : attrs) (free_before free_after : option Z) : Prop :=
  match cfg with
  | Some s =>
      (greffer_image_max_bytes s = 0 ∨ default 0 (Size a) <= greffer_image_max_bytes s)%Z ∧
      (greffer_image_min_free_bytes s = 0 ∨
        (∀ f, free_before = Some f → greffer_image_min_free_bytes s < f) ∧
        ∀ f, free_after = Some f → default 0 (Size a) + greffer_image_min_free_bytes s <= f)%Z
  | None => True
  end.
Definition resolved (h : history) (nv : value * value) (digest : string * string) : Prop :=
  ∃ image h0 before after a,
    digest.1 = name_of nv ∧ get_or_null "image" (Candidates.fields nv) = VStr image ∧ image ≠ "" ∧
    pulled h0 image before after h ∧ inspected_after h0 image before a ∧
    digest.2 ∈ RepoDigests a ∧ has_char "@" digest.2 = true ∧
    within_limits a (disk_usage d (h0 ++ [Inspect image])%list)
      (disk_usage d (h0 ++ [Inspect image] ++ before ++ [Pull image; Inspect image])%list).

(** What went wrong may have left one removal, the last thing done. *)
Definition cleaned (h h' : history) : Prop :=
  ∃ new, h' = (h ++ new)%list ∧
    (no_removal new ∨ ∃ new' ref, new = (new' ++ [Remove ref])%list ∧ no_removal new' ∧ brought_in (h ++ new')%list ref).
Definition quietly (h h' : history) : Prop := ∃ new, h' = (h ++ new)%list ∧ no_removal new.

Lemma wp_record c (Q : result exc history → history → Prop) h : Q (Ok h) (h ++ [c])%list → wp (record_call c) Q h.
Proof. intros H. apply wp_bind, wp_get, wp_bind, wp_modify, wp_ret. exact H. Qed.

Lemma quietly_cleaned h h' : quietly h h' → cleaned h h'.
Proof. intros (new & -> & H). exists new. by auto. Qed.

Lemma pulled_quietly h0 image before after h : pulled h0 image before after h → quietly h0 h.
Proof.
  intros (Hb & Ha & ->). eexists. split; [done|].
  assert (∀ l, disk_only l → no_removal l) as Hd by (intros l Hl; eapply Forall_impl; [exact Hl|]; by intros c ->).
  apply Forall_app. split; [by repeat constructor|]. apply Forall_app. split; [by apply Hd|].
  apply Forall_app. split; [by repeat constructor|by apply Hd].
Qed.

(** The admission after the pull. *)
Lemma admit_spec h0 image before name a introduced s (Q : result exc unit → history → Prop) :
  let h := (h0 ++ [Inspect image] ++ before ++ [Pull image; Inspect image])%list in
  disk_only before → inspected_after h0 image before a → cfg = Some s →
  (introduced = true → ∃ ref, Id a = Some ref ∧ ref ≠ "" ∧
     (get_image d h0 image = ImageNotFound ∨ ∃ a0, get_image d h0 image = Found a0 ∧ Id a0 ≠ Some ref)) →
  (∀ after, disk_only after →
     (greffer_image_max_bytes s = 0 ∨ default 0 (Size a) <= greffer_image_max_bytes s)%Z →
     (greffer_image_min_free_bytes s = 0 ∨ ∀ f, disk_usage d h = Some f → default 0 (Size a) + greffer_image_min_free_bytes s <= f)%Z →
     Q (Ok tt) (h ++ after)%list) →
  (∀ m h', cleaned h0 h' → Q (Raise (PreflightError (Some name) (VStr "image") m)) h') →
  wp (_admit_image name image a introduced s) Q h.
Proof.
  intros h Hbefore Hafter Hcfg Hintro Hok Hraise.
  assert (∀ after, disk_only after → pulled h0 image before after (h ++ after)%list) as Hpulled.
  { intros after Ha. split_and!; [done|done|]. unfold h. by rewrite <- !app_assoc. }
  assert (∀ after m, disk_only after → wp (when introduced (_remove_newly_pulled (default image (non_empty (Id a))));;
    refuse (Some name) m : M history exc unit) Q (h ++ after)%list) as Hrefuse.
  { intros after m Ha. apply wp_bind. specialize (Hpulled after Ha). destruct introduced; simpl.
    - destruct (Hintro eq_refl) as (ref & Hid & Hne & Hnew). rewrite Hid. simpl. rewrite (proj2 (String.eqb_neq _ _) Hne). simpl.
      unfold _remove_newly_pulled. apply wp_bind, wp_record, wp_ret, wp_throw, Hraise.
      destruct (pulled_quietly _ _ _ _ _ Hpulled) as (new & Hn & Hquiet). exists (new ++ [Remove ref])%list.
      split; [by rewrite Hn, app_assoc|]. right. exists new, ref. split_and!; [done|done|]. rewrite <- Hn.
      exists h0, image, before, after, a. by split_and!.
    - apply wp_ret, wp_throw, Hraise, quietly_cleaned. by eapply pulled_quietly. }
  unfold _admit_image. destruct (negb _ && _) eqn:Hmax.
  { rewrite <- (app_nil_r h). apply Hrefuse. constructor. }
  assert (greffer_image_max_bytes s = 0 ∨ default 0 (Size a) <= greffer_image_max_bytes s)%Z as Hm.
  { apply andb_false_iff in Hmax as [H%negb_false_iff%Z.eqb_eq|H%Z.ltb_ge]; [by left|by right]. }
  destruct (Z.eqb_spec (greffer_image_min_free_bytes s) 0) as [Hz|Hz]; simpl.
  - apply wp_ret. rewrite <- (app_nil_r h). apply Hok; [constructor|done|by left].
  - unfold _disk_free_bytes. apply wp_bind, wp_bind, wp_record, wp_ret. destruct (disk_usage d h) as [f|] eqn:Hf.
    + destruct (Z.ltb_spec f (default 0%Z (Size a) + greffer_image_min_free_bytes s)); [apply Hrefuse; by repeat constructor|].
      apply wp_ret, Hok; [by repeat constructor|done|right]. by intros f' [= <-].
    + apply wp_ret, Hok; [by repeat constructor|done|by right].
Qed.

(** A refusal that has only asked and pulled. *)
Definition refused_quietly {A} (h : history) (Q : result exc A → history → Prop) : Prop :=
  ∀ m new, no_removal new → ∀ name, Q (Raise (PreflightError (Some name) (VStr "image") m)) (h ++ new)%list.

Lemma margin_spec name h (Q : result exc unit → history → Prop) :
  (∀ before, disk_only before →
     match cfg with
     | Some s => greffer_image_min_free_bytes s = 0%Z ∨ ∀ f, disk_usage d h = Some f → (greffer_image_min_free_bytes s < f)%Z
     | None => True
     end → Q (Ok tt) (h ++ before)%list) →
  refused_quietly h Q → wp (margin_before_pull name) Q h.
Proof.
  intros Hok Hraise. unfold margin_before_pull.
  destruct cfg as [s|]; [|apply wp_ret; rewrite <- (app_nil_r h); apply Hok; [constructor|done]].
  destruct (Z.eqb_spec (greffer_image_min_free_bytes s) 0); [apply wp_ret; rewrite <- (app_nil_r h); apply Hok; [constructor|by left]|].
  unfold _disk_free_bytes. apply wp_bind, wp_bind, wp_record, wp_ret. destruct (disk_usage d h) as [f|] eqn:Hf.
  - destruct (Z.leb_spec f (greffer_image_min_free_bytes s)); simpl; [apply wp_throw, Hraise; by repeat constructor|].
    apply wp_ret, Hok; [by repeat constructor|right]. by intros f' [= <-].
  - apply wp_ret, Hok; [by repeat constructor|by right].
Qed.

Lemma pull_spec name image h0 before (Q : result exc (attrs * string) → history → Prop) :
  let h := (h0 ++ [Inspect image] ++ before)%list in
  (∀ a digest, inspected_after h0 image before a → digest ∈ RepoDigests a → has_char "@" digest = true →
     Q (Ok (a, digest)) (h ++ [Pull image; Inspect image])%list) →
  refused_quietly h Q → wp (pull_and_inspect name image) Q h.
Proof.
  intros h Hok Hraise. unfold pull_and_inspect. apply wp_bind, wp_record.
  destruct (pull d h image) as [e|] eqn:Hp; [apply wp_throw, Hraise; by repeat constructor|].
  apply wp_bind, wp_record. assert (((h ++ [Pull image]) ++ [Inspect image])%list = (h ++ [Pull image; Inspect image])%list) as -> by by rewrite <- app_assoc.
  destruct (get_image d (h ++ [Pull image])%list image) as [a| |e] eqn:Hg; [|apply wp_throw, Hraise; by repeat constructor..].
  destruct (List.filter _ (RepoDigests a)) as [|digest l] eqn:Hd; [apply wp_throw, Hraise; by repeat constructor|].
  assert (In digest (List.filter (λ r, has_char "@" r) (RepoDigests a))) as [Hin Hat]%filter_In by (rewrite Hd; by left).
  apply wp_ret, Hok; [|by apply list_elem_of_In|done]. split; [done|]. unfold h in Hg. by rewrite <- !app_assoc in Hg.
Qed.

Definition service_outcome (st : list (string * string) * Z) (nv : value * value) (h : history)
    (r : result exc (list (string * string) * Z)) (h' : history) : Prop :=
  match r with
  | Ok (digests, _) => ∃ digest, digests = (st.1 ++ [digest])%list ∧ quietly h h' ∧ resolved h' nv digest
  | Raise (PreflightError _ _ _) => cleaned h h'
  | Raise (PyError _) => False
  end.

Lemma disk_no_removal l : disk_only l → no_removal l.
Proof. intros H. eapply Forall_impl; [exact H|]. by intros c ->. Qed.

Lemma refused_outcome {A} st nv h h1 (Q : result exc A → history → Prop) :
  quietly h h1 → (∀ e h', service_outcome st nv h (Raise e) h' → Q (Raise e) h') → refused_quietly h1 Q.
Proof.
  intros (new & -> & Hn) HQ m new' Hn' name. apply HQ. rewrite <- app_assoc. exists (new ++ new')%list. split; [done|].
  left. by apply Forall_app.
Qed.

Lemma quietly_refl h : quietly h h.
Proof. exists []. split; [by rewrite app_nil_r|constructor]. Qed.

Lemma resolve_service_spec cap st nv h : wp (resolve_service cap st nv) (service_outcome st nv h) h.
Proof.
  unfold resolve_service. destruct (get_or_null "image" (Candidates.fields nv)) as [|b|z|image|l|dd|t b] eqn:Himage;
    try apply wp_throw, quietly_cleaned, quietly_refl.
  destruct image as [|c image]; [apply wp_throw, quietly_cleaned, quietly_refl|].
  set (i := String c image) in *. apply wp_bind. unfold probe. apply wp_bind, wp_record, wp_ret.
  destruct (match get_image d h i with Found a => (Id a, false) | ImageNotFound => (None, false) | Unreadable _ => (None, true) end)
    as [pre_id unclear] eqn:Hprobe.
  assert (quietly h (h ++ [Inspect i])%list) as Hq1 by (exists [Inspect i]; by repeat constructor).
  apply wp_bind, margin_spec; [|by eapply (refused_outcome st nv h)]. intros before Hbefore Hmargin.
  assert (quietly h ((h ++ [Inspect i]) ++ before)%list) as Hq2.
  { exists ([Inspect i] ++ before)%list. split; [by rewrite app_assoc|]. apply Forall_app. split; [by repeat constructor|by apply disk_no_removal]. }
  apply wp_bind. eapply (wp_mono _ (λ r h', r = Ok tt ∧ h' = ((h ++ [Inspect i]) ++ before)%list ∨
    ∃ e, r = Raise e ∧ service_outcome st nv h (Raise e) h')).
  { destruct cap as [[count max]|]; [|apply wp_ret; by left]. apply wp_when; intros _; [|by left].
    apply wp_throw. right. eexists. split; [done|]. by apply quietly_cleaned. }
  intros r h2 [[-> ->]|(e & -> & H)]; [|exact H]. apply wp_bind. rewrite <- app_assoc.
  apply (pull_spec _ i h before); [|eapply (refused_outcome st nv h); [by rewrite <- app_assoc in Hq2|done]].
  intros a digest Ha Hin Hat. rewrite <- app_assoc.
  apply (wp_mono _ (λ r h', match r with Ok (digests, _) => ∃ after, digests = (st.1 ++ [(name_of nv, digest)])%list ∧
      pulled h i before after h' ∧ within_limits a (disk_usage d (h ++ [Inspect i])%list)
        (disk_usage d (h ++ [Inspect i] ++ before ++ [Pull i; Inspect i])%list)
      | Raise (PreflightError _ _ _) => cleaned h h' | Raise (PyError _) => False end)).
  2: { intros [[digests slots]|[]] h'; try done. intros (after & -> & Hp & Hw). exists (name_of nv, digest).
       split_and!; [done|by eapply pulled_quietly|]. exists i, h, before, after, a. by split_and!. }
  destruct cfg as [s|] eqn:Hcfg.
  2: { apply wp_ret. exists []. split_and!; [done|split_and!; [done|constructor|by rewrite app_nil_r]|]. unfold within_limits. by rewrite Hcfg. }
  apply wp_bind. eapply (admit_spec h i before); [done|done|exact Hcfg| | |].
  - intros Hi. apply andb_prop in Hi as [[Hid Hclear]%andb_prop Hne]. apply bool_decide_eq_true in Hid.
    apply negb_true_iff, bool_decide_eq_false in Hne. destruct (Id a) as [ref|] eqn:Hida; [|by destruct Hid].
    exists ref. split; [done|]. split. { simpl in Hid. destruct (String.eqb_spec ref ""); [by destruct Hid|done]. }
    destruct (get_image d h i) as [a0| |] eqn:Hg; injection Hprobe as <- <-; [right; by exists a0|by left|done].
  - intros after Hafter Hmax Hmin. apply wp_ret. exists after. split_and!; [done|split_and!; [done|done|by rewrite <- !app_assoc]|].
    unfold within_limits. rewrite Hcfg. split; [done|]. destruct Hmargin as [|Hb]; [by left|]. destruct Hmin as [|Hm]; [by left|]. by right.
  - intros m h' H. exact H.
Qed.

Lemma cleaned_after h h1 h' : quietly h h1 → cleaned h1 h' → cleaned h h'.
Proof.
  intros (n1 & -> & H1) (n2 & -> & H2). exists (n1 ++ n2)%list. split; [by rewrite app_assoc|].
  destruct H2 as [H2|(n & ref & -> & Hn & Hb)]; [left; by apply Forall_app|right]. exists (n1 ++ n)%list, ref.
  split_and!; [by rewrite app_assoc|by apply Forall_app|by rewrite app_assoc].
Qed.

Lemma quietly_trans h h1 h' : quietly h h1 → quietly h1 h' → quietly h h'.
Proof.
  intros (n1 & -> & H1) (n2 & -> & H2). exists (n1 ++ n2)%list. split; [by rewrite app_assoc|by apply Forall_app].
Qed.

Lemma quietly_prefix h h' : quietly h h' → h `prefix_of` h'.
Proof. intros (n & -> & _). by apply prefix_app_r. Qed.

(** Every service resolved, each at its own moment. *)
Definition all_resolved (h' : history) (services : list (value * value)) (digests : list (string * string)) : Prop :=
  Forall2 (λ nv digest, ∃ h1, h1 `prefix_of` h' ∧ resolved h1 nv digest) services digests.

Lemma all_resolved_mono h1 h2 services digests :
  h1 `prefix_of` h2 → all_resolved h1 services digests → all_resolved h2 services digests.
Proof.
  intros Hp H. eapply Forall2_impl; [exact H|]. intros nv dg (h0 & H0 & Hr). exists h0. split; [by etrans|done].
Qed.

Definition digests_outcome (services : list (value * value)) (h : history) (r : result exc (list (string * string))) (h' : history) : Prop :=
  match r with
  | Ok digests => quietly h h' ∧ all_resolved h' services digests
  | Raise (PreflightError _ _ _) => cleaned h h'
  | Raise (PyError _) => False
  end.

Lemma resolve_image_digests_spec services h : wp (_resolve_image_digests services) (digests_outcome services h) h.
Proof.
  unfold _resolve_image_digests. apply wp_bind.
  apply (wp_mono _ (λ r h', match r with Ok _ => quietly h h' | Raise (PreflightError _ _ _) => quietly h h' | Raise (PyError _) => False end)).
  { unfold count_cap. destruct cfg as [s|]; [|apply wp_ret, quietly_refl]. destruct (_ =? 0)%Z; [apply wp_ret, quietly_refl|].
    apply wp_bind, wp_record. assert (quietly h (h ++ [CountImages])%list) by (exists [CountImages]; by repeat constructor).
    destruct (images d h) as [count|]; [|by apply wp_ret]. destruct (_ <=? count)%Z; [by apply wp_throw|by apply wp_ret]. }
  intros [cap|[]] h1 H1; [|by apply quietly_cleaned|done]. apply wp_bind.
  eapply wp_mono; [apply (wp_foldS_prefix _ (λ done st h', quietly h h' ∧ all_resolved h' done st.1)
    (λ e h', match e with PreflightError _ _ _ => cleaned h h' | PyError _ => False end))|].
  - intros done nv st h2 _ [Hq Hr]. eapply wp_mono; [apply resolve_service_spec|]. intros [[digests slots]|e] h3 Ho.
    + destruct Ho as (dg & -> & Hq' & Hres). split; [by eapply quietly_trans|]. simpl. apply Forall2_app.
      * eapply all_resolved_mono; [by apply quietly_prefix|exact Hr].
      * constructor; [|constructor]. exists h3. by split.
    + destruct e; [|done]. by eapply cleaned_after.
  - split; [done|constructor].
  - intros [st|e] h2 Ho; simpl in *; [by apply wp_ret|destruct e; exact Ho].
Qed.
End admission.
End Admission.

(** What disk admission leaves behind.  An image is removed only as the last
    thing before a refusal, at most one, and only one this preflight brought in,
    by its identity: the node had no image, or another one, under the name it
    pulled.  A success has removed nothing and has for every service a digest
    read off the image after it was pulled, within the limits that are on; and
    nothing but a refusal with a row is raised. *)
Theorem digests_admitted (format_other : value → string) (d : Admission.docker) (cfg : option Admission.settings)
    (services : list (value * value)) (h : list Admission.call) :
  wp (Admission._resolve_image_digests format_other d cfg services)
    (λ r h', match r with
     | Ok digests => Admission.quietly h h' ∧ Admission.all_resolved format_other d cfg h' services digests
     | Raise (PreflightError _ _ _) => Admission.cleaned d h h'
     | Raise (PyError _) => False
     end) h.
Proof. apply Admission.resolve_image_digests_spec. Qed.

(** ** The whole preflight *)
Section preflight.
Context (format_other : value → string) (extra_keys : option string) (set_order : list string → list string).
Context (d : Admission.docker) (cfg : option Admission.settings).

(** What [parse_compose_yaml] makes of a text. A [RecursionError] is reported as a
    [YAMLError] is. Its constructors may raise something else, the [ValueError] of a
    date that is none, say. *)
Inductive parsed : Type :=
  | Parsed (compose : value) | AliasForbiddenError (detail : string) | YAMLError (problem : string)
  | ConstructorError (class : string).
Context (parse_compose_yaml : string → parsed).

Record payload : Type := Payload {
  services : list string;
  ports : list Candidates.port_row;
  config_candidates : list ((option string * string) * bool);
  image_digests : list (string * string);
  warnings : list Candidates.warning;
}.

Definition parse (text : string) : result exc value :=
  match parse_compose_yaml text with
  | Parsed v => Ok v
  | AliasForbiddenError detail => Raise (PreflightError None (VStr "compose_yaml") (AliasReference detail))
  | YAMLError problem => Raise (PreflightError None (VStr "compose_yaml") (InvalidYaml problem))
  | ConstructorError class => Raise (PyError class)
  end.
Definition normalize (compose : value) : result exc value :=
  match normalize_compose compose true extra_keys with
  | Ok v => Ok v
  | Raise (ShapeError service key m got) => Raise (PreflightError service key (Shape m got))
  | Raise (ComposeShape.PyError e) => Raise (PyError e)
  end.
(** A walk out of fuel does not happen. *)
Definition string_leaves (compose : value) : result exc (list string) :=
  match Walk.document_leaves compose with
  | Ok l => Ok l
  | Raise Walk.TooLarge => Raise (PreflightError None (VStr "compose_yaml") StructureTooLarge)
  | Raise Walk.OutOfFuel => Raise (PyError "fuel")
  end.
Definition services_of (compose : value) : list (value * value) :=
  match compose with VDict c => match get_or_null "services" c with VDict s => s | _ => [] end | _ => [] end.

Definition run_preflight (text : string) : M (list Admission.call) exc payload :=
  compose ← lift (parse text);
  compose ← lift (normalize compose);
  let services := services_of compose in
  leaves ← lift (string_leaves compose);
  let referenced := concat (Scan.config_names <$> leaves) in
  digests ← Admission._resolve_image_digests format_other d cfg services;
  mret (Payload (merge_sort String.le (Candidates.name_of format_other <$> services))
          (Candidates.preflight_ports format_other services)
          (Candidates.config_candidates format_other set_order services referenced)
          digests (Candidates._strip_warnings format_other services)).

(** The walk over a document ends. *)
Lemma document_ends v : Walk.document_leaves v ≠ Raise Walk.OutOfFuel.
Proof.
  unfold Walk.document_leaves, Walk._string_leaves. apply (@Walk.walk_spec _ _ _ _ (Walk.tree_objects v)).
  split; [done|]. rewrite Nat2Z.inj_succ, Z2Nat.id by done. lia.
Qed.

(** *** A start with the same text *)
Notation create_greffon_info := (GreffonInfo.create_greffon_info format_other).

(** No refusal of the shape. *)
Definition shape_free {A} (r : result shape_error A) : Prop := ∀ s k m got, r ≠ Raise (ShapeError s k m got).

Lemma shape_free_bind {A B} (m : result shape_error A) (k : A → result shape_error B) :
  shape_free m → (∀ a, m = Ok a → shape_free (k a)) → shape_free (a ← m; k a).
Proof. intros Hm Hk. destruct m as [a|e]; simpl; [by apply Hk|]. intros s key r got [= ->]. by eapply Hm. Qed.

Lemma shape_free_foldR {A S} (f : S → A → result shape_error S) s l :
  (∀ s x, shape_free (f s x)) → shape_free (foldR f s l).
Proof.
  intros Hf. revert s. induction l as [|x l IH]; intros s; [done|]. cbn [foldR]. apply shape_free_bind; [apply Hf|by intros].
Qed.

Lemma shape_free_add_service r info nv : shape_free (GreffonInfo.add_service format_other r info nv).
Proof.
  assert (∀ k service, shape_free (entries k service)) as He.
  { intros k service. unfold entries. destruct (truthy _); [|done]. unfold py_iter. by destruct (default _ _). }
  unfold GreffonInfo.add_service. destruct nv as [[] []]; try done.
  apply shape_free_bind; [apply He|intros ps _]. apply shape_free_bind; [apply shape_free_foldR|intros ? _].
  { intros ports port. unfold GreffonInfo.add_port, manager_port. destruct port; try done. destruct (dict_get "target" _); [|done].
    by destruct (default _ _). }
  apply shape_free_bind; [apply He|intros vs _]. apply shape_free_bind; [apply shape_free_foldR|intros ? _].
  { intros vols volume. unfold GreffonInfo.add_mount. repeat case_match; done. }
  apply shape_free_bind; [apply He|intros ns _]. apply shape_free_bind; [apply shape_free_foldR|by intros].
  intros nets network. unfold join_network. repeat case_match; done.
Qed.

(** Once a compose is normalized a start refuses nothing about its shape. *)
Lemma start_shape_free root compose r v :
  normalize_compose compose true extra_keys = Ok v → shape_free (create_greffon_info root compose r true extra_keys).
Proof.
  intros Hn. unfold GreffonInfo.create_greffon_info. rewrite Hn. simpl. destruct v as [| | | | |c|]; try done.
  destruct (get_or_null "services" c); try done.
  assert (∀ v, shape_free (py_iter v)) as Hi by (intros v; unfold py_iter; by destruct v).
  apply shape_free_bind; [apply Hi|intros ? _]. apply shape_free_bind; [apply shape_free_foldR|intros ? _].
  { intros vs name. unfold GreffonInfo.declare_volume. by destruct (hashable name). }
  apply shape_free_bind; [apply Hi|intros ? _]. apply shape_free_bind; [apply shape_free_foldR|intros ? _].
  { intros ns name. unfold declare_network. by destruct (hashable name). }
  apply shape_free_bind; [apply shape_free_foldR; intros; apply shape_free_add_service|by intros].
Qed.

(** A port as the start and as the preflight describe it. *)
Definition start_row (p : port_info) : string * string * string := (port_name p, container_name p, port_container p).
Definition row (p : Candidates.port_row) : string * string * string :=
  (Candidates.port_name p, Candidates.p_service p, Candidates.container_port p).

Definition good_row (p : Candidates.port_row) : Prop :=
  isdigit (Candidates.container_port p) = true ∧ (0 < int_of_digits (Candidates.container_port p) < 65536)%Z ∧
  Candidates.port_name p = Candidates.p_service p +:+ "_" +:+ Candidates.container_port p ∧
  Candidates.p_protocol p ∈ VStr <$> _PROTOCOLS.

Definition entry_row (name : string) (port : value) : Candidates.port_row :=
  Candidates.PortRow (name +:+ "_" +:+ py_str format_other (port_target port)) name (py_str format_other (port_target port))
    (let proto := match port with VDict d => get_or_null "protocol" d | _ => VNull end in
     if truthy proto then proto else VStr "tcp").

Lemma entry_good name port : port_ok port → good_row (entry_row name port).
Proof.
  intros (t & proto & -> & Ht & Hr & _ & Hproto). unfold entry_row, good_row. simpl. split_and!; [done|lia|lia|done|].
  destruct Hproto as [->|(p & -> & Hp)]; simpl; [by left|].
  assert (p ≠ "") as Hne by (intros ->; apply elem_of_cons in Hp as [|Hp]; [done|]; apply list_elem_of_singleton in Hp; done).
  rewrite bool_decide_eq_false_2 by done. change (VStr p ∈ VStr <$> _PROTOCOLS). by apply list_elem_of_fmap_2.
Qed.

Lemma add_ports_rows r name service ps ports ports' :
  Forall port_ok ps → foldR (GreffonInfo.add_port format_other r name service) ports ps = Ok ports' →
  (start_row <$> ports') = ((start_row <$> ports) ++ (row <$> (entry_row name <$> ps)))%list.
Proof.
  intros Hps. revert ports. induction Hps as [|port ps Hport Hps IH]; intros ports; cbn [foldR].
  { intros [= ->]. by rewrite app_nil_r. }
  intros (ports1 & H1 & H)%bindR_ok. rewrite (IH _ H). destruct Hport as (t & proto & -> & _).
  unfold GreffonInfo.add_port in H1. simpl in H1. apply bindR_ok in H1 as (mp & _ & [= <-]).
  rewrite fmap_app, <- app_assoc. done.
Qed.

(** The normalized ports of a service, as both read them. *)
Lemma service_entries declared name fields ps :
  service_ok declared (VStr name, VDict fields) → entries "ports" fields = Ok ps →
  Forall port_ok ps ∧ Candidates.service_ports format_other (VStr name, VDict fields) = (entry_row name <$> ps).
Proof.
  intros (name' & d' & [= <- <-] & _ & Hp & _) Hps. unfold Candidates.service_ports.
  change (Candidates.fields (VStr name, VDict fields)) with fields. destruct Hp as [Hp|(l & Hp & Hl)]; rewrite Hp.
  - apply (entries_list _ _ []) in Hps; [|by left]. rewrite Hp in Hps. destruct Hps as [->|[=]]. by repeat constructor.
  - apply (entries_list _ _ l) in Hps as Hps'; [|by right]. rewrite Hp in Hps'. destruct Hps' as [->|[= <-]].
    + assert (l = []) as ->; [|by repeat constructor]. revert Hps. unfold entries, get_or_null in *.
      destruct (dict_get "ports" fields) as [v|]; simpl in *; [|done]. subst v. simpl. destruct l; [done|]. by intros [=].
    + done.
Qed.

Lemma service_ports_good declared nv : service_ok declared nv → Forall good_row (Candidates.service_ports format_other nv).
Proof.
  intros (name & fields & -> & _ & Hp & _). unfold Candidates.service_ports.
  change (Candidates.fields (VStr name, VDict fields)) with fields. destruct Hp as [->|(l & -> & Hl)]; [constructor|]. apply Forall_fmap. eapply Forall_impl; [exact Hl|]. apply entry_good.
Qed.

Lemma add_services_rows declared r services info info' :
  Forall (service_ok declared) services → foldR (GreffonInfo.add_service format_other r) info services = Ok info' →
  (start_row <$> gi_ports info') = ((start_row <$> gi_ports info) ++ (row <$> Candidates.preflight_ports format_other services))%list.
Proof.
  intros Hs. revert info. induction Hs as [|nv services Hnv Hs IH]; intros info; cbn [foldR].
  { intros [= ->]. by rewrite app_nil_r. }
  intros (info1 & H1 & H)%bindR_ok. rewrite (IH _ H).
  apply add_service_inv in H1 as (name & fields & ps & vs & ns & -> & Hps & _ & _ & _ & _ & Hf & _).
  destruct (service_entries _ _ _ _ Hnv Hps) as [Hok Hrows]. rewrite (add_ports_rows _ _ _ _ _ _ Hok Hf).
  unfold Candidates.preflight_ports. rewrite fmap_cons. cbn [concat]. rewrite Hrows, fmap_app. by rewrite <- app_assoc.
Qed.
End preflight.

(** C32: A green preflight is a promise about the start. The text parsed, its
    compose is one the start accepts, and a start with it is never refused for its
    shape; the ports it lists are, in their order, those the start gives the
    instance, each with a container port from 1 to 65535 and tcp or udp; and every
    service has its digest. What is not green is a row, except when a constructor of
    the YAML parser or the normalization fails with an exception that the preflight
    does not catch, which then ends it. *)
Theorem green_preflight_starts (format_other : value → string) (extra_keys : option string)
    (set_order : list string → list string) (d : Admission.docker) (cfg : option Admission.settings)
    (parse_compose_yaml : string → parsed) (text : string) (h : list Admission.call) :
  match (run_preflight format_other extra_keys set_order d cfg parse_compose_yaml text h).1 with
  | Ok p => ∃ compose v,
      parse_compose_yaml text = Parsed compose ∧ normalize_compose compose true extra_keys = Ok v ∧
      (∀ root r, shape_free (GreffonInfo.create_greffon_info format_other root compose r true extra_keys)) ∧
      (∀ root r v' info, GreffonInfo.create_greffon_info format_other root compose r true extra_keys = Ok (v', info) →
        start_row <$> gi_ports info = row <$> ports p) ∧
      Forall good_row (ports p) ∧
      services p ≡ₚ (image_digests p).*1 ∧ (image_digests p).*1 = Candidates.name_of format_other <$> services_of v
  | Raise (PreflightError _ _ _) => True
  | Raise (PyError e) =>
      parse_compose_yaml text = ConstructorError e ∨
      ∃ compose, parse_compose_yaml text = Parsed compose ∧
        normalize_compose compose true extra_keys = Raise (ComposeShape.PyError e)
  end.
Proof.
  unfold run_preflight. apply (wp_bind (lift (parse parse_compose_yaml text)) _ (λ r _, match r with
    | Ok p => _ | Raise (PreflightError _ _ _) => True | Raise (PyError e) => _ end)).
  apply wp_lift. unfold parse. destruct (parse_compose_yaml text) as [compose| | |] eqn:Hparse; [|done|done|by left].
  apply wp_bind, wp_lift. unfold normalize. destruct (normalize_compose compose true extra_keys) as [v|[]] eqn:Hn; [|done|].
  2: { right. by exists compose. }
  apply wp_bind, wp_lift. pose proof (document_ends v) as Hends. unfold string_leaves.
  destruct (Walk.document_leaves v) as [leaves|[]]; [|done|done].
  apply wp_bind. eapply wp_mono; [apply Admission.resolve_image_digests_spec|].
  intros [digests|[]] h'; [|done|done]. intros [_ Hres]. apply wp_ret. simpl.
  assert (digests.*1 = Candidates.name_of format_other <$> services_of v) as Hdig.
  { clear -Hres. unfold Admission.all_resolved in Hres. induction Hres as [|nv dg l l' (h1 & _ & Hr) _ IH]; [done|].
    rewrite !fmap_cons, IH. f_equal. by destruct Hr as (? & ? & ? & ? & ? & -> & _). }
  apply normalize_compose_inv in Hn as Hinv. destruct Hinv as (c & services & declared & services' & -> & -> & _ & _ & _ & _ & _ & Hf).
  apply normalize_services_ok in Hf as [Hok _]. assert (services_of (VDict (dict_set "services" (VDict services') c)) = services') as Hs.
  { unfold services_of. by rewrite get_or_null_set. }
  exists (VDict c), (VDict (dict_set "services" (VDict services') c)). split_and!; [done|done| | | | |exact Hdig].
  - intros root r. by eapply start_shape_free.
  - intros root r v' info Hc. apply create_greffon_info_inv in Hc as (d' & srv & vnames & vs & ns & Hn' & -> & Hget & _ & Hinfo).
    rewrite Hn in Hn'. injection Hn' as <-. rewrite dict_get_set_eq in Hget. injection Hget as <-.
    rewrite (add_services_rows _ _ _ _ _ _ Hok Hinfo). by rewrite Hs.
  - rewrite Hs. unfold Candidates.preflight_ports. apply Forall_concat, Forall_fmap. eapply Forall_impl; [exact Hok|].
    intros nv. apply service_ports_good.
  - rewrite Hdig. apply merge_sort_Permutation.
Qed.

(** ** Concrete runs *)
Module Demo.

Definition no_format (_ : value) : string := "".
Definition fields (kvs : list (string * value)) : value := VDict ((λ kv, (VStr kv.1, kv.2)) <$> kvs).
Definition web : value := fields [
  ("image", VStr "shop:1"); ("ports", VList [VStr "8080:80"; VStr "53/udp"]);
  ("environment", fields [("SECRET", VStr "{{ 'p' ~ config.SECRET }}"); ("MAIL", VStr "smtp.gmail.com/{{ config['USER'] }}")])].
Definition db : value := fields [("image", VStr "db:2"); ("environment", VList [VStr "ROOT = x"; VStr "SECRET=y"])].
Definition shop : value := fields [("services", fields [("web", web); ("db", db)])].
Definition services : list (value * value) := [(VStr "web", web); (VStr "db", db)].

(** A node that has none of the images, and one that has an older image under each
    name. *)
Definition fresh : Admission.docker := Admission.Docker (λ _, Some 1%Z)
  (λ h image, if bool_decide (Admission.Pull image ∈ h)
    then Admission.Found (Admission.Attrs (Some ("sha256:" +:+ image)) [image +:+ "@sha256:d"] (Some 100%Z)) else Admission.ImageNotFound)
  (λ _ _, None) (λ _, Some 500%Z).
Definition moved : Admission.docker := Admission.Docker (λ _, Some 1%Z)
  (λ h image, Admission.Found (if bool_decide (Admission.Pull image ∈ h)
    then Admission.Attrs (Some ("sha256:" +:+ image)) [image +:+ "@sha256:d"] (Some 100%Z)
    else Admission.Attrs (Some "sha256:old") ["@"] None))
  (λ _ _, None) (λ _, Some 500%Z).
Definition limits (count bytes free : Z) : option Admission.settings := Some (Admission.Settings count bytes free).

Definition preflight (d : Admission.docker) (cfg : option Admission.settings) : result exc payload * list Admission.call :=
  run_preflight no_format None reverse d cfg (λ _, Parsed shop) "" [].

(** An object that contains itself and a string. *)
Definition loop_ident (n : nat) : option nat := match n with 0%nat => Some 0%nat | _ => None end.
Definition loop_text (n : nat) : option string := match n with 1%nat => Some "a" | _ => None end.
Definition loop_kids (n : nat) : list nat := match n with 0%nat => [1; 0; 1]%nat | _ => [] end.
Lemma loop_inj n n' k : loop_ident n = Some k → loop_ident n' = Some k → n = n'.
Proof. by destruct n, n'. Qed.
Lemma loop_container n k : loop_ident n = Some k → loop_text n = None.
Proof. by destruct n. Qed.
Lemma loop_leaf n : loop_ident n = None → loop_kids n = [].
Proof. by destruct n. Qed.
Definition loop : Walk.Objects nat nat := {|
  Walk.ident := loop_ident; Walk.text := loop_text; Walk.kids := loop_kids;
  Walk.ident_inj := loop_inj; Walk.container_text := loop_container; Walk.leaf_kids := loop_leaf |}.
End Demo.

Example loop_walk : @Walk._string_leaves _ _ _ _ Demo.loop 0%nat = Ok ["a"; "a"].
Proof. by vm_compute. Qed.

(** Five strings and the list they are in are six objects. *)
Example budget_counts_objects :
  (@Walk.walk _ _ _ _ (Walk.tree_objects (VList [VStr "a"; VStr "b"; VStr "c"; VStr "d"; VStr "e"])) 6 [] (5%Z, ∅)).1 = Raise Walk.TooLarge.
Proof. by vm_compute. Qed.

Lemma string_leaves_bounded_witness :
  (Walk.size Demo.shop <=? Walk._LEAF_BUDGET)%Z = true ∧
  Walk.document_leaves Demo.shop = Ok ["shop:1"; "8080:80"; "53/udp"; "{{ 'p' ~ config.SECRET }}"; "smtp.gmail.com/{{ config['USER'] }}";
    "db:2"; "ROOT = x"; "SECRET=y"].
Proof.
  assert ((Walk.size Demo.shop <=? Walk._LEAF_BUDGET)%Z = true) as H by reflexivity. split; [exact H|].
  exact (proj2 (@string_leaves_bounded _ _ _ _ Demo.loop 0%nat Demo.shop) H).
Defined.

Example stripped : Scan._strip_expressions "a{{ b }}c{{ '}}d{{" = Some "acd{{".
Proof. reflexivity. Qed.
Example names_found : Scan.config_names "{{ 'p' ~ config.SECRET }} {% if config['A'] %} config.config.x" = ["SECRET"; "A"; "config"].
Proof. reflexivity. Qed.

Lemma config_candidates_complete_witness :
  (∃ nv, nv ∈ Demo.services) ∧
  Candidates.config_candidates Demo.no_format reverse Demo.services ["SECRET"; "USER"] =
    [((None, "USER"), true); ((Some "db", "ROOT"), false); ((Some "db", "SECRET"), true);
     ((Some "web", "MAIL"), false); ((Some "web", "SECRET"), true)] ∧
  Candidates.config_candidates Demo.no_format (λ l, l) Demo.services ["SECRET"; "USER"] =
    Candidates.config_candidates Demo.no_format reverse Demo.services ["SECRET"; "USER"].
Proof.
  split; [by exists (VStr "web", Demo.web); left|]. split; [by vm_compute|].
  apply (config_candidates_complete Demo.no_format reverse (λ l, l) Demo.services ["SECRET"; "USER"]).
  - intros l x. apply elem_of_reverse.
  - done.
  - intros nv [->|[->|[]%elem_of_nil]%elem_of_cons]%elem_of_cons; done.
Defined.

Example green :
  let '(r, h) := Demo.preflight Demo.fresh (Demo.limits 3 100 10) in
  r = Ok (Payload ["db"; "web"]
    [Candidates.PortRow "web_80" "web" "80" (VStr "tcp"); Candidates.PortRow "web_53" "web" "53" (VStr "udp")]
    [((None, "USER"), true); ((Some "db", "ROOT"), false); ((Some "db", "SECRET"), true);
     ((Some "web", "MAIL"), false); ((Some "web", "SECRET"), true)]
    [("web", "shop:1@sha256:d"); ("db", "db:2@sha256:d")] [Candidates.Warning "web" "MAIL" "smtp"]) ∧ length h = 11%nat.
Proof. vm_compute. by split. Qed.

(** A green run, and what the promise says of it. *)
Lemma green_preflight_starts_witness :
  ∃ p compose v, (Demo.preflight Demo.fresh (Demo.limits 3 100 10)).1 = Ok p ∧ compose = Demo.shop ∧
    normalize_compose compose true None = Ok v ∧ Forall good_row (ports p) ∧
    (image_digests p).*1 = ["web"; "db"].
Proof.
  pose proof (green_preflight_starts Demo.no_format None reverse Demo.fresh (Demo.limits 3 100 10) (λ _, Parsed Demo.shop) "" []) as H.
  change (run_preflight _ _ _ _ _ _ _ _) with (Demo.preflight Demo.fresh (Demo.limits 3 100 10)) in H.
  destruct (Demo.preflight Demo.fresh (Demo.limits 3 100 10)).1 as [p|e] eqn:Hr; [|by vm_compute in Hr].
  destruct H as (compose & v & [= <-] & Hv & _ & _ & Hrows & _). exists p, Demo.shop, v. split_and!; try done.
  vm_compute in Hr. by injection Hr as <-.
Defined.

(** A date that is none: the parser's [ValueError] is not caught. *)
Example no_row_for_a_date :
  (run_preflight Demo.no_format None reverse Demo.fresh None (λ _, ConstructorError "ValueError") "x-built: 2024-13-01" []).1
  = Raise (PyError "ValueError").
Proof. reflexivity. Qed.

(** The second pull would take the node over its cap; the image of the first stays. *)
Example capped :
  let '(r, h) := Demo.preflight Demo.fresh (Demo.limits 2 0 0) in
  r = Raise (PreflightError (Some "db") (VStr "image") (WouldHold 3)) ∧ Admission.no_removal h.
Proof. vm_compute. split; [done|]. repeat constructor. Qed.

(** Tags that have moved bring in images without being counted against the cap. *)
Example moved_tags_over_cap :
  let '(r, h) := Demo.preflight Demo.moved (Demo.limits 2 0 0) in
  (∃ p, r = Ok p) ∧ List.filter (λ c, match c with Admission.Pull _ => true | _ => false end) h = [Admission.Pull "shop:1"; Admission.Pull "db:2"].
Proof. vm_compute. split; [by eexists|done]. Qed.

Example too_big :
  Demo.preflight Demo.moved (Demo.limits 0 99 0) =
  (Raise (PreflightError (Some "web") (VStr "image") (OverImageCap 100)),
   [Admission.Inspect "shop:1"; Admission.Pull "shop:1"; Admission.Inspect "shop:1"; Admission.Remove "sha256:shop:1"]).
Proof. by vm_compute. Qed.

(** Two pieces of a text that only meet once the expression between them is gone. *)
Example warned_in_vain :
  Candidates.item_warnings "web" ("MAIL", VStr "smtp{{ x }}.host") = [Candidates.Warning "web" "MAIL" "smtp"] ∧
  value_references_unset ["smtp"] (VStr "smtp{{ x }}.host") = false.
Proof. by vm_compute. Qed.
