(* ===== verification/Logs.v ===== *)
(** [apps/utils/docker/instance_logs.py]: what a viewer of an instance sees.
    [Cursor]: the opaque position and its validation; [Container]: one read of a
    container's output after a timestamp; [Deploy]: one read of the deploy log after
    a byte offset; [instance_logs] and the endpoint last.

    Docker's answer, the JSON and base64 codecs and the conversion of a timestamp to
    seconds are arguments; text is ASCII, so a byte is a character. *)
From Stdlib Require Import Ascii String.
From stdpp Require Import sorting.
From S2P Require Import Prelude PyValue InstanceContext.
Import Text.
Local Open Scope string_scope.

(** ** The cursor *)
Module Cursor.

Definition LOG_TAIL_DEFAULT : Z := 200.
Definition LOG_TAIL_MAX : Z := 1000.

Definition clamp (n : Z) : nat := Z.to_nat (Z.max 1 (Z.min LOG_TAIL_MAX n)).
Definition clamp_tail (tail : value) : nat :=
  match tail with
  | VInt n => clamp n
  | VBool b => clamp (if b then 1 else 0)%Z
  | VStr s => match int_of_string s with Some n => clamp n | None => clamp LOG_TAIL_DEFAULT end
  | _ => clamp LOG_TAIL_DEFAULT
  end.

Inductive exc : Type := BadCursor (detail : string).

(** What a cursor holds when it is accepted. *)
Record cursor : Type := { off : option Z; ts : option string; positions : option (list (string * string)) }.

Section cursor.
(** [json.dumps] and base64, and back; [None] is a [ValueError].  [is_one] tells
    which of the other values are equal to the integer 1 (the float 1.0). *)
Context (encode : value → string) (decode : string → option value) (is_one : value → bool).

Definition version_ok (v : value) : bool :=
  match v with VInt z => (z =? 1)%Z | VBool b => b | VOther _ _ => is_one v | _ => false end.

Definition read_off (v : value) : result exc (option Z) :=
  match v with
  | VNull => Ok None
  | VInt z => if (z <? 0)%Z then Raise (BadCursor "bad offset") else Ok (Some z)
  | _ => Raise (BadCursor "bad offset")
  end.
Definition read_ts (v : value) : result exc (option string) :=
  match v with VNull => Ok None | VStr s => Ok (Some s) | _ => Raise (BadCursor "bad ts") end.
Definition read_position (kv : value * value) : option (string * string) :=
  match kv with (VStr k, VStr v) => Some (k, v) | _ => None end.
Definition read_positions (v : value) : result exc (option (list (string * string))) :=
  match v with
  | VNull => Ok None
  | VDict d =>
      match mapM read_position d with Some l => Ok (Some l) | None => Raise (BadCursor "bad positions") end
  | _ => Raise (BadCursor "bad positions")
  end.

(** [decode_cursor]: [None] for no cursor. *)
Definition decode_cursor (c : option string) : result exc (option cursor) :=
  match c with
  | None | Some "" => Ok None
  | Some s =>
      match decode s with
      | Some (VDict d) =>
          if version_ok (get_or_null "v" d) then
            o ← read_off (get_or_null "off" d);
            t ← read_ts (get_or_null "ts" d);
            p ← read_positions (get_or_null "positions" d);
            mret (Some {| off := o; ts := t; positions := p |})
          else Raise (BadCursor "unsupported cursor")
      | Some _ => Raise (BadCursor "unsupported cursor")
      | None => Raise (BadCursor "undecodable cursor")
      end
  end.

(** The two cursors the server mints. *)
Definition deploy_payload (next_off : Z) : value := VDict [(VStr "v", VInt 1); (VStr "off", VInt next_off)].
Definition positions_payload (ps : list (string * string)) : value :=
  VDict [(VStr "v", VInt 1); (VStr "positions", VDict ((λ p, (VStr p.1, VStr p.2)) <$> ps))].
Definition _encode_cursor (payload : value) : string := encode payload.

Lemma read_positions_minted ps : mapM read_position ((λ p, (VStr p.1, VStr p.2)) <$> ps) = Some ps.
Proof.
  apply mapM_Some_2. induction ps as [|[k v] ps IH]; [constructor|]. rewrite fmap_cons. by constructor.
Qed.
End cursor.
End Cursor.

(** ** A container *)
Module Container.

(** [str.splitlines]: the breaks of ASCII, a carriage return and a line feed being
    one. *)
Definition is_break (c : ascii) : bool :=
  let n := N_of_ascii c in (10 <=? n)%N && (n <=? 13)%N || (28 <=? n)%N && (n <=? 30)%N.
Definition cr : ascii := ascii_of_N 13.
Definition lf : ascii := ascii_of_N 10.
Fixpoint splitlines_from (line : string) (s : string) : list string :=
  match s with
  | "" => match line with "" => [] | _ => [line] end
  | String c s =>
      if is_break c then
        line :: match s with
                | String d s' => if Ascii.eqb c cr && Ascii.eqb d lf then splitlines_from "" s' else splitlines_from "" s
                | "" => []
                end
      else splitlines_from (line +:+ String c "") s
  end.
Definition splitlines (s : string) : list string := splitlines_from "" s.

Definition _parse_container_lines (raw : string) : list (string * string) :=
  (λ line, let '(ts, msg) := partition " " line in (ts, default "" msg)) <$> List.filter (λ l, negb (String.eqb l "")) (splitlines raw).

(** [list.sort] by a key: a stable sort. *)
Fixpoint insert {A} (key : A → string) (x : A) (l : list A) : list A :=
  match l with
  | [] => [x]
  | y :: l => if String.leb (key x) (key y) then x :: y :: l else y :: insert key x l
  end.
Definition sort {A} (key : A → string) (l : list A) : list A := foldr (insert key) [] l.

(** [l[-n:]] for a positive [n]. *)
Definition newest {A} (n : nat) (l : list A) : list A := drop (length l - n) l.

Section container.
(** The seconds of a timestamp, 0 for what is not one. *)
Context (_ts_to_unix : string → Z).
(** [container.logs] with [since] and [tail]; [None] is an error of docker. *)
Context (logs : option Z → nat → option string).

(** The lines after [since_ts], where to go on from, and whether some were left
    out. *)
Definition _read_one_container (since_ts : option string) (tail : nat) : list (string * string) * option string * bool :=
  let since := match since_ts with Some "" => None | s => s end in
  let raw := match since with Some t => logs (Some (_ts_to_unix t)) (S tail) | None => logs None tail end in
  match raw with
  | None => ([], since_ts, false)
  | Some raw =>
      let parsed := _parse_container_lines raw in
      let parsed := match since with
        | Some t => List.filter (λ p, negb (String.leb p.1 t)) parsed
        | None => parsed
        end in
      let parsed := sort fst parsed in
      let truncated := match since with Some _ => (tail <? length parsed)%nat | None => false end in
      let parsed := if truncated then newest tail parsed else parsed in
      (parsed, match last parsed with Some p => Some p.1 | None => since_ts end, truncated)
  end.
End container.

(** *** What docker documents *)

(** A line of a container: a timestamp and a text, without anything that would be
    taken for a break, nor a blank in the timestamp. *)
Notation entry := (string * string)%type.
Definition unbroken (s : string) : bool := all_chars (λ c, negb (is_break c)) s.
Definition clean (e : entry) : Prop :=
  e.1 ≠ "" ∧ all_chars (λ c, negb (is_break c) && negb (Ascii.eqb c " "%char)) e.1 = true ∧ unbroken e.2 = true.
Definition newline : string := String lf "".
Fixpoint render (l : list entry) : string :=
  match l with [] => "" | e :: l => e.1 +:+ " " +:+ e.2 +:+ newline +:+ render l end.

Definition earlier (a b : entry) : Prop := String.leb b.1 a.1 = false.
Definition well_logged (l : list entry) : Prop := StronglySorted earlier l ∧ Forall clean l.

Lemma splitlines_unbroken line s rest :
  unbroken s = true → splitlines_from line (s +:+ newline +:+ rest) = (line +:+ s) :: splitlines_from "" rest.
Proof.
  unfold unbroken. revert line. induction s as [|c s IH]; intros line.
  - intros _. change ("" +:+ newline +:+ rest) with (String lf rest). cbn [splitlines_from].
    change (is_break lf) with true. cbn match. assert (line +:+ "" = line) as ->.
    { induction line as [|c line IH]; [done|]. change (String c line +:+ "") with (String c (line +:+ "")). by rewrite IH. }
    destruct rest as [|d rest]; [done|]. by change (Ascii.eqb lf cr) with false.
  - cbn [all_chars]. intros [Hc%negb_true_iff Hs]%andb_prop.
    change (String c s +:+ newline +:+ rest) with (String c (s +:+ newline +:+ rest)). cbn [splitlines_from]. rewrite Hc, IH by done.
    f_equal. rewrite append_assoc_str. done.
Qed.

Lemma partition_first a b :
  all_chars (λ c, negb (is_break c) && negb (Ascii.eqb c " "%char)) a = true → partition " " (a +:+ " " +:+ b) = (a, Some b).
Proof.
  induction a as [|c a IH]; [done|]. cbn [all_chars]. intros [[_ Hc%negb_true_iff]%andb_prop Ha]%andb_prop.
  change (String c a +:+ " " +:+ b) with (String c (a +:+ " " +:+ b)). cbn [partition]. rewrite Hc. by rewrite IH.
Qed.

Lemma unbroken_app a b : unbroken a = true → unbroken b = true → unbroken (a +:+ b) = true.
Proof.
  unfold unbroken. intros Ha Hb. induction a as [|c a IH]; [done|]. change (String c a +:+ b) with (String c (a +:+ b)).
  cbn [all_chars] in *. apply andb_prop in Ha as [-> Ha]. by rewrite IH.
Qed.

Lemma unbroken_weaken a : all_chars (λ c, negb (is_break c) && negb (Ascii.eqb c " "%char)) a = true → unbroken a = true.
Proof.
  unfold unbroken. induction a as [|c a IH]; [done|]. cbn [all_chars]. intros [[-> _]%andb_prop Ha]%andb_prop. by rewrite IH.
Qed.

(** What docker wrote is read back, line by line. *)
Lemma parse_render l : Forall clean l → _parse_container_lines (render l) = l.
Proof.
  unfold _parse_container_lines, splitlines. induction 1 as [|[ts msg] l (Hne & Hts & Hmsg) _ IH]; [done|].
  cbn [render fst snd] in *. assert (ts +:+ " " +:+ msg +:+ newline +:+ render l = (ts +:+ " " +:+ msg) +:+ newline +:+ render l) as ->.
  { by rewrite !append_assoc_str. }
  rewrite splitlines_unbroken.
  - change ("" +:+ (ts +:+ " " +:+ msg)) with (ts +:+ " " +:+ msg). cbn [List.filter].
    assert (String.eqb (ts +:+ " " +:+ msg) "" = false) as -> by (apply String.eqb_neq; by destruct ts).
    cbn [negb]. rewrite fmap_cons, IH, partition_first by done. done.
  - apply unbroken_app; [by apply unbroken_weaken|]. by apply (unbroken_app " ").
Qed.

(** *** Sorted logs *)
Lemma insert_perm (x : entry) l : insert fst x l ≡ₚ x :: l.
Proof. induction l as [|y l IH]; [done|]. cbn [insert]. destruct (String.leb _ _); [done|]. rewrite IH. apply Permutation_swap. Qed.
Lemma sort_perm (l : list entry) : sort fst l ≡ₚ l.
Proof. induction l as [|x l IH]; [done|]. unfold sort in *. cbn [foldr]. by rewrite insert_perm, IH. Qed.

Lemma leb_trans a b c : String.leb a b = true → String.leb b c = true → String.leb a c = true.
Proof. intros H1%Is_true_true H2%Is_true_true. apply Is_true_true. by apply (transitivity (R := String.le) (y := b)). Qed.

Definition in_order (a b : entry) : Prop := String.leb a.1 b.1 = true.
Lemma insert_in_order x l : StronglySorted in_order l → StronglySorted in_order (insert fst x l).
Proof.
  induction 1 as [|y l Hl IH Hy]; [by repeat constructor|]. cbn [insert]. destruct (String.leb x.1 y.1) eqn:Hxy.
  - constructor; [by constructor|]. constructor; [done|]. eapply Forall_impl; [exact Hy|]. intros z. unfold in_order. by apply leb_trans.
  - constructor; [done|]. rewrite insert_perm. constructor; [|done]. unfold in_order.
    destruct (String.leb_total x.1 y.1) as [H|H]; [congruence|done].
Qed.
Lemma sort_in_order l : StronglySorted in_order (sort fst l).
Proof. induction l as [|x l IH]; [constructor|]. by apply insert_in_order. Qed.

Lemma earlier_in_order l : StronglySorted earlier l → StronglySorted in_order l.
Proof.
  induction 1 as [|x l Hl IH Hx]; constructor; [done|]. eapply Forall_impl; [exact Hx|]. intros y. unfold earlier, in_order.
  destruct (String.leb_total x.1 y.1) as [H|H]; [done|congruence].
Qed.

(** Entries of a sorted log with one timestamp are one entry. *)
Lemma earlier_unique l x y : StronglySorted earlier l → x ∈ l → y ∈ l → in_order x y → in_order y x → x = y.
Proof.
  unfold in_order. induction 1 as [|z l Hl IH Hz]; [by intros ?%elem_of_nil|]. rewrite Forall_forall in Hz. unfold earlier in Hz.
  intros [->|Hx]%elem_of_cons [->|Hy]%elem_of_cons H1 H2; [done| | |auto].
  - by rewrite (Hz _ Hy) in H2.
  - by rewrite (Hz _ Hx) in H1.
Qed.

(** However they arrive, the entries of a sorted log are put in its order. *)
Lemma sort_sorted l l' : l' ≡ₚ l → StronglySorted earlier l → sort fst l' = l.
Proof.
  intros Hp Hl. apply (StronglySorted_unique_strong in_order).
  - intros x y Hx Hy. rewrite sort_perm, Hp in Hx. by apply (earlier_unique l).
  - apply sort_in_order.
  - by apply earlier_in_order.
  - by rewrite sort_perm.
Qed.

Lemma sorted_filter (f : entry → bool) l : StronglySorted earlier l → StronglySorted earlier (List.filter f l).
Proof.
  induction 1 as [|x l Hl IH Hx]; [constructor|]. cbn [List.filter]. destruct (f x); [|done]. constructor; [done|].
  apply Forall_forall. intros y [Hy _]%list_elem_of_In%filter_In. rewrite Forall_forall in Hx. apply Hx.
  by apply list_elem_of_In.
Qed.

Definition newer (t : string) (l : list entry) : list entry := List.filter (λ p, negb (String.leb p.1 t)) l.

Lemma newer_perm t l l' : l ≡ₚ l' → newer t l ≡ₚ newer t l'.
Proof.
  unfold newer. induction 1 as [|x l l' _ IH|x y l|l1 l2 l3 _ IH1 _ IH2]; cbn [List.filter]; [done| | |by rewrite IH1].
  - destruct (negb _); [by rewrite IH|done].
  - destruct (negb (String.leb x.1 t)), (negb (String.leb y.1 t)); try done. apply Permutation_swap.
Qed.

Lemma later_newer t x y : String.leb x.1 t = false → earlier x y → String.leb y.1 t = false.
Proof.
  unfold earlier. intros Hx Hxy. apply not_true_iff_false. intros Hy. apply not_true_iff_false in Hxy. apply Hxy.
  destruct (String.leb_total x.1 t) as [H|H]; [by rewrite Hx in H|]. by eapply leb_trans.
Qed.

(** In a sorted log what is newer is at the end. *)
Lemma newer_suffix t l : StronglySorted earlier l → ∃ old, l = (old ++ newer t l)%list ∧ newer t old = [].
Proof.
  unfold newer. induction 1 as [|x l Hl IH Hx]; [by exists []|]. cbn [List.filter]. destruct (String.leb x.1 t) eqn:Ht; cbn [negb].
  - destruct IH as (old & He & Ho). exists (x :: old). split; [by rewrite He at 1|]. cbn [List.filter]. by rewrite Ht.
  - exists []. split; [|done]. cbn [app]. f_equal. symmetry. clear IH Hl. induction Hx as [|y l Hy Hx IH]; [done|]. cbn [List.filter].
    rewrite (later_newer t x y Ht Hy). cbn [negb]. by rewrite IH.
Qed.

Lemma newest_app {A} n (a b : list A) : newest n (a ++ b) = (newest (n - length b) a ++ newest n b)%list.
Proof.
  unfold newest. rewrite length_app, drop_app. destruct (decide (n ≤ length b)%nat).
  - rewrite !(drop_ge a) by lia. cbn [app]. f_equal. lia.
  - replace (length b - n)%nat with 0%nat by lia. replace (length a + length b - n - length a)%nat with 0%nat by lia.
    do 2 f_equal. lia.
Qed.

Lemma newest_sublist {A} n (l : list A) : newest n l `sublist_of` l.
Proof. unfold newest. apply sublist_drop. Qed.

Lemma newest_all {A} n (l : list A) : (length l ≤ n)%nat → newest n l = l.
Proof. intros H. unfold newest. by replace (length l - n)%nat with 0%nat by lia. Qed.

Lemma newest_newest {A} n k (l : list A) : (n ≤ k)%nat → newest n (newest k l) = newest n l.
Proof. intros H. unfold newest. rewrite length_drop, drop_drop. f_equal. lia. Qed.

Lemma newer_drop t n old : newer t old = [] → newer t (drop n old) = [].
Proof.
  unfold newer. revert n. induction old as [|x old IH]; intros [|n]; try done. cbn [List.filter drop].
  destruct (negb _); [done|]. apply IH.
Qed.

Lemma newer_app t a b : newer t (a ++ b) = (newer t a ++ newer t b)%list.
Proof. unfold newer. by rewrite List.filter_app. Qed.

Lemma newer_newest t n l : StronglySorted earlier l → newer t (newest n l) = newest n (newer t l).
Proof.
  intros Hl. destruct (newer_suffix t l Hl) as (old & He & Ho). rewrite He at 1. rewrite newest_app, newer_app.
  unfold newest at 1. rewrite newer_drop by done. cbn [app].
  assert (Forall (λ p, negb (String.leb p.1 t) = true) (newest n (newer t l))) as Hall.
  { unfold newest. apply Forall_drop, Forall_forall. unfold newer. by intros p [_ H]%list_elem_of_In%filter_In. }
  unfold newer at 1. induction Hall as [|p k Hp _ IH]; [done|]. cbn [List.filter]. by rewrite Hp, IH.
Qed.

(** *** One follow poll *)
Section follow.
Context (_ts_to_unix second : string → Z).
(** [docker logs]: the newest lines of those written from a second on, in any order. *)
Context (daemon : list entry → option Z → nat → string).
Definition since_second (s : option Z) (e : entry) : bool := match s with Some s => (s <=? second e.1)%Z | None => true end.
Definition documented : Prop := ∀ l s n, well_logged l →
  ∃ lines, lines ≡ₚ newest n (List.filter (since_second s) l) ∧ daemon l s n = render lines.
(** The seconds read off a line are not after those of a later one. *)
Definition coarse (l : list entry) : Prop := ∀ a e, a ∈ l → e ∈ l → earlier a e → (_ts_to_unix a.1 <= second e.1)%Z.
Context (Hdaemon : documented).

Definition position (since : option string) (l : list entry) : option string :=
  match last l with Some p => Some p.1 | None => since end.

Lemma clean_sub (f : entry → bool) n l : Forall clean l → Forall clean (newest n (List.filter f l)).
Proof.
  intros H. unfold newest. apply Forall_drop, Forall_forall. intros e [He _]%list_elem_of_In%filter_In.
  rewrite Forall_forall in H. by apply H, list_elem_of_In.
Qed.

Lemma sorted_newest n l : StronglySorted earlier l → StronglySorted earlier (newest n l).
Proof.
  intros H. unfold newest. generalize (length l - n)%nat. intros k. revert k.
  induction H as [|x l Hl IH Hx]; intros [|k]; simpl; [constructor..|by constructor|apply IH].
Qed.

Lemma filter_true {A} (f : A → bool) l : (∀ x, x ∈ l → f x = true) → List.filter f l = l.
Proof.
  induction l as [|x l IH]; intros H; [done|]. cbn [List.filter]. rewrite H by by left. rewrite IH; [done|]. intros; apply H; by right.
Qed.

Lemma first_read l tail :
  well_logged l → _read_one_container _ts_to_unix (λ s n, Some (daemon l s n)) None tail =
    (newest tail l, position None (newest tail l), false).
Proof.
  intros [Hs Hc]. unfold _read_one_container. cbn match. destruct (Hdaemon l None tail (conj Hs Hc)) as (lines & Hp & ->).
  rewrite parse_render by (rewrite Hp; by apply clean_sub). rewrite (filter_true (since_second None)) in Hp by done.
  rewrite (sort_sorted (newest tail l)) by (done || by apply sorted_newest). done.
Qed.

(** After a position the read has exactly what is newer: all of it, or its newest
    part and the mark that some was left out. *)
Lemma follow_read l a tail (t := a.1) :
  well_logged l → coarse l → a ∈ l → t ≠ "" →
  _read_one_container _ts_to_unix (λ s n, Some (daemon l s n)) (Some t) tail =
    (newest tail (newer t l), position (Some t) (newest tail (newer t l)), (tail <? length (newer t l))%nat).
Proof.
  intros [Hs Hc] Hcoarse Ha Ht. unfold _read_one_container.
  replace (match t with "" => None | _ => Some t end) with (Some t) by (by destruct t). cbn match.
  destruct (Hdaemon l (Some (_ts_to_unix t)) (S tail) (conj Hs Hc)) as (lines & Hp & ->).
  rewrite parse_render by (rewrite Hp; by apply clean_sub).
  set (late := List.filter (since_second (Some (_ts_to_unix t))) l).
  assert (StronglySorted earlier late) as Hlate by by apply sorted_filter.
  assert (newer t late = newer t l) as Hnew.
  { unfold newer, late. rewrite InstanceContext.filter_filter. apply filter_ext_in. intros e He. unfold since_second.
    destruct (String.leb e.1 t) eqn:Hle; [by rewrite ?andb_false_r|]. rewrite (proj2 (Z.leb_le _ _)); [done|].
    apply Hcoarse; [done|by apply list_elem_of_In|done]. }
  assert (newer t lines ≡ₚ newest (S tail) (newer t l)) as Hn.
  { rewrite <- Hnew, <- newer_newest by done. by apply newer_perm. }
  change (List.filter (λ p, negb (String.leb p.1 t)) lines) with (newer t lines).
  rewrite (sort_sorted _ _ Hn) by by apply sorted_newest, sorted_filter.
  assert ((tail <? length (newest (S tail) (newer t l)))%nat = (tail <? length (newer t l))%nat) as ->.
  { unfold newest. rewrite length_drop. apply eq_true_iff_eq. rewrite !Nat.ltb_lt. lia. }
  destruct (tail <? length (newer t l))%nat eqn:Hlt.
  - by rewrite newest_newest by lia.
  - apply Nat.ltb_ge in Hlt. rewrite !newest_all by lia. done.
Qed.

(** *** A viewer that keeps polling *)
Record viewer : Type := Viewer { since : option string; shown : list entry; gap : bool }.
Definition new_viewer : viewer := Viewer None [] false.

(** One poll of a container whose log is [snapshot]; [None]: docker failed. *)
Definition poll (tail : nat) (v : viewer) (snapshot : option (list entry)) : viewer :=
  let '(lines, next, truncated) :=
    _read_one_container _ts_to_unix (λ s n, (λ l, daemon l s n) <$> snapshot) (since v) tail in
  Viewer next (shown v ++ lines)%list (gap v || truncated).

(** The log only grows. *)
Fixpoint grows (l : list entry) (polls : list (option (list entry))) : Prop :=
  match polls with
  | [] => True
  | None :: polls => grows l polls
  | Some l' :: polls => l `prefix_of` l' ∧ well_logged l' ∧ coarse l' ∧ grows l' polls
  end.
Fixpoint latest (l : list entry) (polls : list (option (list entry))) : list entry :=
  match polls with [] => l | None :: polls => latest l polls | Some l' :: polls => latest l' polls end.

Definition up_to_date (l : list entry) (v : viewer) : Prop :=
  shown v `sublist_of` l ∧ since v = position None l ∧ (last l = None → shown v = []) ∧ well_logged l ∧
  (gap v = false → ∃ k, (k ≤ length l)%nat ∧ shown v = drop k l).

Lemma last_newest n (l : list entry) : (0 < n)%nat → last (newest n l) = last l.
Proof.
  intros Hn. unfold newest. rewrite <- (take_drop (length l - n) l) at 3. rewrite last_app.
  destruct (last (drop (length l - n) l)) eqn:Hl; [done|]. apply last_None in Hl.
  assert (length l = 0%nat) as H0 by (apply (f_equal length) in Hl; rewrite length_drop in Hl; simpl in Hl; lia).
  by destruct l.
Qed.

Lemma leb_refl a : String.leb a a = true.
Proof. by destruct (String.leb_total a a). Qed.

Lemma newer_none t l : Forall (λ x, String.leb x.1 t = true) l → newer t l = [].
Proof. induction 1 as [|x l Hx _ IH]; [done|]. unfold newer in *. cbn [List.filter]. by rewrite Hx. Qed.

Lemma newer_whole e l : Forall (earlier e) l → newer e.1 l = l.
Proof. intros H. apply filter_true. intros x Hx. rewrite Forall_forall in H. by rewrite (H x Hx). Qed.

Lemma sorted_NoDup l : StronglySorted earlier l → NoDup l.
Proof.
  induction 1 as [|x k Hk IH Hx]; constructor; [|done]. intros Hin. rewrite Forall_forall in Hx. specialize (Hx x Hin).
  unfold earlier in Hx. by rewrite leb_refl in Hx.
Qed.

(** What is newer than the last line of a log is what came after it. *)
Lemma newer_after l l' e : last l = Some e → StronglySorted earlier (l ++ l') → newer e.1 (l ++ l') = l'.
Proof.
  intros Hl Hs. apply last_Some in Hl as [l0 ->]. apply StronglySorted_app in Hs as (Hcross & Hs & _).
  apply StronglySorted_app in Hs as (Hl0 & _ & _). rewrite newer_app, newer_none, newer_whole.
  - done.
  - apply Forall_forall. intros x Hx. apply Hcross; [|done]. apply elem_of_app. right. by apply list_elem_of_singleton.
  - apply Forall_app. split; [|constructor; [apply leb_refl|constructor]]. apply Forall_forall. intros x Hx.
    assert (earlier x e) as He by (apply Hl0; [done|by apply list_elem_of_singleton]). unfold earlier in He.
    destruct (String.leb_total x.1 e.1) as [H|H]; [done|]. by rewrite H in He.
Qed.

Lemma position_keep t l e : last l = Some e → position t l = Some e.1.
Proof. unfold position. by intros ->. Qed.

Lemma poll_up_to_date tail l v l' :
  (0 < tail)%nat → up_to_date l v → l `prefix_of` l' → well_logged l' → coarse l' → up_to_date l' (poll tail v (Some l')).
Proof.
  intros Htail (Hsub & Hsince & Hnone & _ & Hgap) [new ->] Hl' Hco. unfold poll. cbn [fmap option_fmap option_map].
  destruct (last l) as [e|] eqn:Hlast.
  - assert (e.1 ≠ "") as Hne.
    { destruct Hl' as [_ Hc]. apply last_Some in Hlast as [l0 ->]. rewrite !Forall_app in Hc. destruct Hc as [[_ Hc] _].
      by apply Forall_cons in Hc as [(? & _) _]. }
    assert (e ∈ (l ++ new)%list) as Hin.
    { apply elem_of_app. left. apply last_Some in Hlast as [l0 ->]. apply elem_of_app. right. by apply list_elem_of_singleton. }
    rewrite Hsince, (position_keep None l e Hlast), (follow_read _ e tail Hl' Hco Hin Hne), (newer_after l new e Hlast (proj1 Hl')).
    split_and!; simpl.
    + apply sublist_app; [done|apply newest_sublist].
    + unfold position. rewrite last_newest, last_app by done. destruct (last new); [done|]. by rewrite Hlast.
    + rewrite last_app, Hlast. by destruct (last new).
    + done.
    + intros [Hg Ht%Nat.ltb_ge]%orb_false_elim. destruct (Hgap Hg) as (k & Hk & ->). exists k. rewrite newest_all by done.
      split; [rewrite length_app; lia|]. rewrite drop_app_le by done. done.
  - apply last_None in Hlast as ->. rewrite (Hnone eq_refl) in *. cbn [app] in *. rewrite Hsince. change (position None []) with (@None string).
    rewrite (first_read new tail Hl'). split_and!; simpl.
    + apply newest_sublist.
    + unfold position. by rewrite last_newest.
    + intros ->%last_None. done.
    + done.
    + intros _. exists (length new - tail)%nat. split; [lia|done].
Qed.

Lemma polls_up_to_date tail l v polls :
  (0 < tail)%nat → up_to_date l v → grows l polls → up_to_date (latest l polls) (foldl (poll tail) v polls).
Proof.
  intros Htail. revert l v. induction polls as [|[l'|] polls IH]; intros l v Hv Hg; [done| |]; cbn [latest foldl].
  - destruct Hg as (Hp & Hw & Hc & Hg). apply IH; [|done]. by eapply poll_up_to_date.
  - apply IH; [|done]. assert (poll tail v None = v) as ->; [|done]. destruct v as [t k g].
    unfold poll, _read_one_container. simpl. destruct t as [[]|]; by rewrite app_nil_r, orb_false_r.
Qed.
End follow.
End Container.

(** C35: A viewer that follows a container, docker failing as it may, is shown each
    line at most once, in the order of the log, and every line from its first view on
    unless a read said that some were left out. The conditions: docker answers as
    [since] and [tail] are documented, in any order; the log only grows at its end,
    by timestamps that strictly increase; its lines hold nothing that [splitlines]
    takes for a break, such as a carriage return or a form feed; and the seconds read
    off a line are not after a later one, which holds where the local zone of the
    process is UTC or east of it. The two last are real: [carriage_return_freezes],
    [west_of_utc]. *)
Theorem container_follow (_ts_to_unix second : string → Z) (daemon : list (string * string) → option Z → nat → string)
    (tail : value) (polls : list (option (list (string * string))))
    (Hdaemon : Container.documented second daemon) (Hgrows : Container.grows _ts_to_unix second [] polls) :
  let v := foldl (Container.poll _ts_to_unix daemon (Cursor.clamp_tail tail)) Container.new_viewer polls in
  let l := Container.latest [] polls in
  Container.shown v `sublist_of` l ∧ NoDup (Container.shown v) ∧
  (Container.gap v = false → ∃ k, Container.shown v = drop k l) ∧ Container.since v = Container.position None l.
Proof.
  intros v l. assert (0 < Cursor.clamp_tail tail)%nat as Htail.
  { unfold Cursor.clamp_tail, Cursor.clamp, Cursor.LOG_TAIL_MAX, Cursor.LOG_TAIL_DEFAULT. repeat case_match; lia. }
  assert (Container.up_to_date [] Container.new_viewer) as H0.
  { split_and!; [done|done|done|split; constructor|]. intros _. by exists 0%nat. }
  destruct (Container.polls_up_to_date _ts_to_unix second daemon Hdaemon _ _ _ _ Htail H0 Hgrows) as (Hsub & Hs & _ & Hw & Hgap).
  split_and!; [exact Hsub| |intros Hg; destruct (Hgap Hg) as (k & _ & H); by exists k|exact Hs].
  eapply sublist_NoDup; [|exact Hsub]. apply Container.sorted_NoDup, Hw.
Qed.

(** ** The deploy log *)
Module Deploy.
Notation lf := Container.lf.

(** [data[n:]] *)
Fixpoint skip (n : nat) (s : string) : string :=
  match n, s with S n, String _ s => skip n s | _, _ => s end.
Definition unlines (ls : list string) : string := foldr (λ l s, l +:+ Container.newline +:+ s) "" ls.

(** The lines of a text that are complete. *)
Definition complete_lines (data : string) : list string := let parts := split lf data in take (length parts - 1) parts.

Inductive deploy_file : Type := NoFile | Unreadable | Content (data : string).

(** The lines, the next offset, whether the file was cut, whether some lines are
    left for the next read. *)
Definition _read_deploy (file : deploy_file) (since_off : option Z) (tail : nat) : option (list string * Z * bool * bool) :=
  match file with
  | NoFile => None
  | Unreadable => Some ([], default 0%Z since_off, false, false)
  | Content data =>
      let off := default 0%Z since_off in
      let rotated := (Z.of_nat (String.length data) <? off)%Z in
      let off := if rotated then 0%Z else off in
      let raw_lines := complete_lines (skip (Z.to_nat off) data) in
      let truncated := (tail <? length raw_lines)%nat in
      let raw_lines := if truncated then take tail raw_lines else raw_lines in
      Some (raw_lines, (off + Z.of_nat (String.length (unlines raw_lines)))%Z, rotated, truncated)
  end.


Lemma skip_app (a b : string) : skip (String.length a) (a +:+ b) = b.
Proof. induction a as [|c a IH]; [by destruct b|exact IH]. Qed.

Lemma unlines_app a b : unlines (a ++ b) = unlines a +:+ unlines b.
Proof.
  induction a as [|l a IH]; [done|]. cbn [unlines app foldr] in *. fold (unlines a) (unlines (a ++ b)). rewrite IH.
  by rewrite !append_assoc_str.
Qed.

Lemma has_char_cons c d s : has_char c (String d s) = Ascii.eqb d c || has_char c s.
Proof. unfold has_char. cbn [all_chars]. by destruct (Ascii.eqb d c). Qed.

Lemma split_parts s : ∃ ls rest,
  split lf s = (ls ++ [rest])%list ∧ s = unlines ls +:+ rest ∧ has_char lf rest = false.
Proof.
  induction s as [|c s (ls & rest & Hp & He & Hr)]; [by exists [], ""|]. cbn [split]. rewrite Hp.
  destruct (Ascii.eqb_spec c lf) as [->|Hc].
  - exists ("" :: ls), rest. split_and!; [done| |done].
    change (unlines ("" :: ls) +:+ rest) with (String lf (unlines ls +:+ rest)). by rewrite <- He.
  - destruct ls as [|w ls]; cbn [app].
    + exists [], (String c rest). split_and!; [done| |].
      * change (unlines [] +:+ String c rest) with (String c (unlines [] +:+ rest)). by rewrite <- He.
      * rewrite has_char_cons, Hr. by rewrite (proj2 (Ascii.eqb_neq _ _) Hc).
    + exists (String c w :: ls), rest. split_and!; [done| |done].
      change (unlines (String c w :: ls) +:+ rest) with (String c (unlines (w :: ls) +:+ rest)). by rewrite <- He.
Qed.

(** A text is its complete lines and a rest without an end. *)
Lemma split_lines s : ∃ rest, s = unlines (complete_lines s) +:+ rest ∧ has_char lf rest = false.
Proof.
  destruct (split_parts s) as (ls & rest & Hp & He & Hr). exists rest. split; [|done]. unfold complete_lines. rewrite Hp.
  rewrite length_app, Nat.add_sub, take_app_length. done.
Qed.

(** *** A viewer that keeps polling *)
Record viewer : Type := Viewer { offset : option Z; shown : list string; cut : bool; behind : bool }.
Definition new_viewer : viewer := Viewer None [] false false.
Definition poll (tail : nat) (v : viewer) (file : deploy_file) : viewer :=
  match _read_deploy file (offset v) tail with
  | None => v
  | Some (lines, next, rotated, truncated) =>
      Viewer (Some next) (shown v ++ lines)%list (cut v || rotated)
        (match file with Content _ => truncated | _ => behind v end)
  end.

(** The log is only appended to. *)
Fixpoint grows (data : string) (polls : list deploy_file) : Prop :=
  match polls with
  | [] => True
  | Content data' :: polls => (∃ more, data' = data +:+ more) ∧ grows data' polls
  | _ :: polls => grows data polls
  end.
Fixpoint latest (data : string) (polls : list deploy_file) : string :=
  match polls with [] => data | Content data' :: polls => latest data' polls | _ :: polls => latest data polls end.

Definition at_place (data : string) (v : viewer) : Prop :=
  cut v = false ∧ ∃ rest, data = unlines (shown v) +:+ rest ∧
    default 0%Z (offset v) = Z.of_nat (String.length (unlines (shown v))) ∧ (behind v = false → has_char lf rest = false).

Lemma length_str_app (a b : string) : String.length (a +:+ b) = (String.length a + String.length b)%nat.
Proof.
  induction a as [|c a IH]; [done|]. change (String c a +:+ b) with (String c (a +:+ b)). simpl. by rewrite IH.
Qed.

Lemma poll_at_place tail data v data' :
  at_place data v → (∃ more, data' = data +:+ more) → at_place data' (poll tail v (Content data')).
Proof.
  intros (Hcut & rest & -> & Hoff & _) [more ->]. rewrite append_assoc_str. set (tail_text := rest +:+ more).
  unfold poll, _read_deploy. rewrite Hoff, length_str_app.
  rewrite (proj2 (Z.ltb_ge _ _)) by lia. rewrite Nat2Z.id, skip_app.
  destruct (split_lines tail_text) as (last & He & Hlast). set (ls := complete_lines tail_text) in *.
  assert (∀ taken left, ls = (taken ++ left)%list →
    unlines (shown v) +:+ tail_text = unlines (shown v ++ taken) +:+ (unlines left +:+ last)) as Hsplit.
  { intros taken left Hl. rewrite He, Hl, !unlines_app. by rewrite !append_assoc_str. }
  split; [by simpl; rewrite Hcut|]. cbn [shown offset behind]. destruct (tail <? length ls)%nat.
  - exists (unlines (drop tail ls) +:+ last). split_and!; [apply Hsplit; by rewrite take_drop| |done].
    cbn [default from_option id]. rewrite unlines_app, length_str_app. lia.
  - exists last. split_and!; [|cbn; rewrite unlines_app, length_str_app; lia|done].
    rewrite (Hsplit ls []); [done|by rewrite app_nil_r].
Qed.

Lemma polls_at_place tail data v polls :
  at_place data v → grows data polls → at_place (latest data polls) (foldl (poll tail) v polls).
Proof.
  revert data v. induction polls as [|[| |data'] polls IH]; intros data v Hv Hg; [done|..]; cbn [latest foldl].
  - by apply IH.
  - apply IH; [|done]. destruct Hv as (Hcut & rest & He & Hoff & Hr). unfold poll. simpl. rewrite app_nil_r. split; [by rewrite Hcut|].
    by exists rest.
  - destruct Hg as [Hmore Hg]. apply IH; [|done]. by eapply poll_at_place.
Qed.
End Deploy.

(** A viewer that follows the deploy log of one deployment, the file appended to
    and sometimes unreadable, is shown its complete lines in order, each once and
    from the first; the file is never taken for a new one; and once a read says
    nothing is left the rest of the file is an unfinished line. *)
Theorem deploy_follow (tail : nat) (polls : list Deploy.deploy_file) (Hgrows : Deploy.grows "" polls) :
  let v := foldl (Deploy.poll tail) Deploy.new_viewer polls in
  Deploy.cut v = false ∧ ∃ rest, Deploy.latest "" polls = Deploy.unlines (Deploy.shown v) +:+ rest ∧
    default 0%Z (Deploy.offset v) = Z.of_nat (String.length (Deploy.unlines (Deploy.shown v))) ∧
    (Deploy.behind v = false → has_char Container.lf rest = false).
Proof. apply Deploy.polls_at_place; [|done]. split; [done|]. by exists "". Qed.

(** ** The whole read *)
Section reads.
Context (encode : value → string) (decode : string → option value) (is_one : value → bool) (_ts_to_unix : string → Z).

Record container : Type := MkContainer { label : option string; name : string; output : option Z → nat → option string }.
Inductive stream : Type := DeployStream | ContainerStream | AllStream.

Record line : Type := Line { l_service : string; l_ts : option string; l_msg : string }.
Record reply : Type := Reply { lines : list line; next_cursor : option string; rotated : bool; truncated : bool }.

(** [(labels or {}).get(service) or name] *)
Definition service_of (c : container) : string :=
  match label c with Some s => if String.eqb s "" then name c else s | None => name c end.

Definition assoc_get (k : string) (d : list (string * string)) : option string := snd <$> List.find (λ p, String.eqb p.1 k) d.
Fixpoint assoc_set (k v : string) (d : list (string * string)) : list (string * string) :=
  match d with [] => [(k, v)] | (k', v') :: d => if String.eqb k' k then (k, v) :: d else (k', v') :: assoc_set k v d end.

(** One container of the merged view: its lines, the position it is left at. *)
Definition read_container (positions : list (string * string)) (tail : nat)
    (st : list line * list (string * string) * bool) (c : container) : list line * list (string * string) * bool :=
  let '(all_lines, new_positions, trunc) := st in
  let '(ls, next_ts, t) := Container._read_one_container _ts_to_unix (output c) (assoc_get (service_of c) positions) tail in
  ((all_lines ++ ((λ p, Line (service_of c) (Some p.1) p.2) <$> ls))%list,
   match next_ts with Some t => if String.eqb t "" then new_positions else assoc_set (service_of c) t new_positions | None => new_positions end,
   trunc || t).

Definition instance_logs (deployed : bool) (file : Deploy.deploy_file) (containers : list container) (s : stream) (tail : value)
    (since : option string) (service : option string) : result Cursor.exc (option reply) :=
  let tail := Cursor.clamp_tail tail in
  cursor ← Cursor.decode_cursor decode is_one since;
  match s with
  | DeployStream =>
      match Deploy._read_deploy file (c ← cursor; Cursor.off c) tail with
      | None => mret (if deployed then Some (Reply [] since false false) else None)
      | Some (ls, next_off, rot, trunc) =>
          mret (Some (Reply ((λ m, Line "deploy" None m) <$> ls) (Some (Cursor._encode_cursor encode (Cursor.deploy_payload next_off))) rot trunc))
      end
  | _ =>
      if deployed then
        let containers := match service with Some n => List.filter (λ c, String.eqb (service_of c) n) containers | None => containers end in
        let positions := default [] (c ← cursor; Cursor.positions c) in
        let '(all_lines, new_positions, trunc) := foldl (read_container positions tail) ([], [], false) containers in
        mret (Some (Reply (Container.sort (λ l, default "" (l_ts l)) all_lines)
          (match new_positions with [] => since | _ => Some (Cursor._encode_cursor encode (Cursor.positions_payload new_positions)) end) false trunc))
      else mret None
  end.

(** [GET /greffon/<id>/logs/]: the code of a refusal. *)
Definition greffon_logs (enabled deployed : bool) (file : Deploy.deploy_file) (containers : list container) (s : stream) (tail : value)
    (since service : option string) : result (Z * string) reply :=
  if enabled then
    match instance_logs deployed file containers s tail since service with
    | Raise (Cursor.BadCursor _) => Raise (400%Z, "bad_cursor")
    | Ok None => Raise (404%Z, "missing_on_greffer")
    | Ok (Some r) => Ok r
    end
  else Raise (404%Z, "log_surfacing_disabled").

(** *** Every container keeps a position of its own *)
Definition reading (positions : list (string * string)) (tail : nat) (c : container) : list (string * string) * option string * bool :=
  Container._read_one_container _ts_to_unix (output c) (assoc_get (service_of c) positions) tail.

Lemma assoc_get_set k v d : assoc_get k (assoc_set k v d) = Some v.
Proof.
  induction d as [|[k' v'] d IH]; unfold assoc_get in *; simpl; [by rewrite String.eqb_refl|].
  destruct (String.eqb_spec k' k) as [->|Hne]; simpl; [by rewrite String.eqb_refl|]. by rewrite (proj2 (String.eqb_neq _ _) Hne).
Qed.

Lemma assoc_get_set_ne k k' v d : k ≠ k' → assoc_get k' (assoc_set k v d) = assoc_get k' d.
Proof.
  intros Hne. induction d as [|[j w] d IH]; unfold assoc_get in *; simpl; [by rewrite (proj2 (String.eqb_neq _ _) Hne)|].
  destruct (String.eqb_spec j k) as [->|Hj]; simpl; [by rewrite (proj2 (String.eqb_neq _ _) Hne)|]. by destruct (String.eqb j k').
Qed.

Definition state_of (st : list line * list (string * string) * bool) : list (string * string) := st.1.2.

(** The position of a service after all have been read: its own reading's. *)
Lemma positions_own positions tail cs st c :
  NoDup (service_of <$> cs) → c ∈ cs →
  assoc_get (service_of c) (state_of (foldl (read_container positions tail) st cs)) =
    match (reading positions tail c).1.2 with
    | Some t => if String.eqb t "" then assoc_get (service_of c) (state_of st) else Some t
    | None => assoc_get (service_of c) (state_of st)
    end.
Proof.
  assert (∀ st c' k, k ≠ service_of c' → assoc_get k (state_of (read_container positions tail st c')) = assoc_get k (state_of st)) as Hother.
  { intros [[ls ps] t] c' k Hk. unfold read_container, state_of. destruct (Container._read_one_container _ _ _ _) as [[? nt] ?]. simpl.
    destruct nt as [nt|]; [|done]. destruct (String.eqb nt ""); [done|]. by rewrite assoc_get_set_ne by congruence. }
  assert (∀ cs st k, k ∉ service_of <$> cs → assoc_get k (state_of (foldl (read_container positions tail) st cs)) = assoc_get k (state_of st)) as Hnone.
  { clear -Hother. induction cs as [|c' cs IH]; intros st k Hk; [done|]. cbn [foldl]. rewrite fmap_cons, not_elem_of_cons in Hk.
    rewrite IH, Hother by apply Hk. done. }
  revert st. induction cs as [|c' cs IH]; intros st Hnd Hc; [by apply elem_of_nil in Hc|]. rewrite fmap_cons, NoDup_cons in Hnd.
  destruct Hnd as [Hni Hnd]. cbn [foldl]. apply elem_of_cons in Hc as [->|Hc].
  - rewrite Hnone by done. unfold reading, read_container, state_of. destruct st as [[ls ps] t].
    destruct (Container._read_one_container _ _ _ _) as [[? nt] ?]. simpl. destruct nt as [nt|]; [|done].
    destruct (String.eqb nt ""); [done|]. by rewrite assoc_get_set.
  - rewrite IH by done. assert (service_of c ≠ service_of c') as Hne.
    { intros He. apply Hni. rewrite <- He. by apply list_elem_of_fmap_2. }
    by rewrite Hother.
Qed.
End reads.

(** A cursor the server has minted is read back as the position it was minted
    from, provided the codec gives back what it was given; and a cursor that is
    accepted at all, whoever made it, holds an offset that is not negative, so that
    nothing behind the validation can trip over it. *)
Theorem cursor_roundtrip (encode : value → string) (decode : string → option value) (is_one : value → bool) (next_off : Z)
    (ps : list (string * string)) (c : option string)
    (Hcodec : ∀ v, v ∈ [Cursor.deploy_payload next_off; Cursor.positions_payload ps] → encode v ≠ "" ∧ decode (encode v) = Some v)
    (Hoff : (0 <= next_off)%Z) :
  Cursor.decode_cursor decode is_one (Some (Cursor._encode_cursor encode (Cursor.deploy_payload next_off))) =
    Ok (Some {| Cursor.off := Some next_off; Cursor.ts := None; Cursor.positions := None |}) ∧
  Cursor.decode_cursor decode is_one (Some (Cursor._encode_cursor encode (Cursor.positions_payload ps))) =
    Ok (Some {| Cursor.off := None; Cursor.ts := None; Cursor.positions := Some ps |}) ∧
  ∀ k o, Cursor.decode_cursor decode is_one c = Ok (Some k) → Cursor.off k = Some o → (0 <= o)%Z.
Proof.
  assert (∀ s, s ≠ "" → Cursor.decode_cursor decode is_one (Some s) =
    match decode s with
    | Some (VDict d) => if Cursor.version_ok is_one (get_or_null "v" d) then
        o ← Cursor.read_off (get_or_null "off" d); t ← Cursor.read_ts (get_or_null "ts" d);
        p ← Cursor.read_positions (get_or_null "positions" d);
        mret (Some {| Cursor.off := o; Cursor.ts := t; Cursor.positions := p |}) else Raise (Cursor.BadCursor "unsupported cursor")
    | Some _ => Raise (Cursor.BadCursor "unsupported cursor")
    | None => Raise (Cursor.BadCursor "undecodable cursor") end) as Hdec by (intros [|c' s]; done).
  unfold Cursor._encode_cursor. split_and!.
  - destruct (Hcodec (Cursor.deploy_payload next_off)) as [Hne He]; [by left|]. rewrite Hdec, He by done. simpl.
    by rewrite (proj2 (Z.ltb_ge _ _)) by done.
  - destruct (Hcodec (Cursor.positions_payload ps)) as [Hne He]; [by right; left|]. rewrite Hdec, He by done. simpl.
    by rewrite Cursor.read_positions_minted.
  - intros k o Hk Ho. unfold Cursor.decode_cursor in Hk. destruct c as [[|]|]; try done. destruct (decode _) as [[]|]; try done.
    destruct (Cursor.version_ok _ _); [|done]. apply bindR_ok in Hk as (o' & Hr & Hk). apply bindR_ok in Hk as (t & _ & Hk).
    apply bindR_ok in Hk as (p & _ & [= <-]). simpl in Ho. subst. unfold Cursor.read_off in Hr.
    destruct (get_or_null _ _); try done. destruct (Z.ltb_spec z 0); [done|]. injection Hr as ->. lia.
Qed.

(** ** Concrete reads *)
Module Demo.

Definition seconds (t : string) : Z := int_of_digits (String.substring 0 2 t).
Definition docker_logs (l : list (string * string)) (s : option Z) (n : nat) : string :=
  Container.render (Container.newest n (List.filter (Container.since_second seconds s) l)).
Definition log : list (string * string) := [("10.1Z", "start"); ("10.7Z", "pull 1"); ("11.0Z", "pull 2"); ("11.5Z", "ready")].

(** A codec for the two payloads of this page. *)
Definition encode (v : value) : string := match v with VDict (_ :: (VStr "off", _) :: _) => "o" | _ => "p" end.
Definition decode (s : string) : option value :=
  if String.eqb s "o" then Some (Cursor.deploy_payload 7)
  else if String.eqb s "p" then Some (Cursor.positions_payload [("web", "11.5Z")]) else None.

(** A progress bar: a carriage return inside a line. *)
Definition progress : string := "10.1Z start" +:+ Container.newline +:+ "10.7Z pull 1" +:+ String Container.cr "pull 2" +:+ Container.newline.
Definition later : string := progress +:+ "11.5Z ready" +:+ Container.newline.
End Demo.

Lemma container_follow_witness :
  Container.documented Demo.seconds Demo.docker_logs ∧
  Container.grows Demo.seconds Demo.seconds [] [Some (take 1 Demo.log); None; Some Demo.log] ∧
  (let v := foldl (Container.poll Demo.seconds Demo.docker_logs (Cursor.clamp_tail (VInt 2))) Container.new_viewer
              [Some (take 1 Demo.log); None; Some Demo.log] in
   Container.shown v = [("10.1Z", "start"); ("11.0Z", "pull 2"); ("11.5Z", "ready")] ∧ Container.gap v = true ∧
   Container.shown v `sublist_of` Demo.log).
Proof.
  assert (Container.documented Demo.seconds Demo.docker_logs) as Hd by (intros l s n _; by eexists).
  assert (Container.well_logged Demo.log) as Hw by (split; repeat constructor; done).
  assert (Container.grows Demo.seconds Demo.seconds [] [Some (take 1 Demo.log); None; Some Demo.log]) as Hg.
  { split; [apply prefix_nil|]. split; [split; repeat constructor; done|]. split.
    { intros a e ->%list_elem_of_singleton ->%list_elem_of_singleton _. by vm_compute. }
    split; [by exists (drop 1 Demo.log)|]. split; [exact Hw|]. split; [|exact I].
    intros a e Ha He. unfold Demo.log in Ha, He. rewrite !elem_of_cons, elem_of_nil in Ha, He.
    destruct Ha as [->|[->|[->|[->|[]]]]], He as [->|[->|[->|[->|[]]]]]; by vm_compute. }
  split; [exact Hd|]. split; [exact Hg|]. split; [by vm_compute|]. split; [by vm_compute|].
  exact (proj1 (container_follow Demo.seconds Demo.seconds Demo.docker_logs (VInt 2) _ Hd Hg)).
Defined.

Lemma deploy_follow_witness :
  Deploy.grows "" [Deploy.Content "a"; Deploy.Unreadable] ∧
  (let v := foldl (Deploy.poll 5) Deploy.new_viewer [Deploy.Content "a"; Deploy.Unreadable] in Deploy.cut v = false).
Proof.
  assert (Deploy.grows "" [Deploy.Content "a"; Deploy.Unreadable]) as H by (split; [by exists "a"|exact I]).
  split; [exact H|]. exact (proj1 (deploy_follow 5 _ H)).
Defined.

Lemma cursor_roundtrip_witness :
  (0 <= 7)%Z ∧
  Cursor.decode_cursor Demo.decode (λ _, false) (Some (Cursor._encode_cursor Demo.encode (Cursor.deploy_payload 7))) =
    Ok (Some {| Cursor.off := Some 7%Z; Cursor.ts := None; Cursor.positions := None |}).
Proof.
  split; [done|]. apply (cursor_roundtrip Demo.encode Demo.decode (λ _, false) 7 [("web", "11.5Z")] None); [|done].
  intros v Hv. rewrite !elem_of_cons, elem_of_nil in Hv. by destruct Hv as [->|[->|[]]].
Defined.

(** The second half of the progress line is taken for a line of its own, its first
    word for a timestamp, and no later line is newer than a letter. *)
Example carriage_return_freezes :
  Container._read_one_container Demo.seconds (λ _ _, Some Demo.progress) None 200 =
    ([("10.1Z", "start"); ("10.7Z", "pull 1"); ("pull", "2")], Some "pull", false) ∧
  Container._read_one_container Demo.seconds (λ _ _, Some Demo.later) (Some "pull") 200 = ([], Some "pull", false).
Proof. by vm_compute. Qed.

(** Five hours west of UTC the bound is hours after the position: the line after it is
    never fetched. *)
Example west_of_utc :
  let west t := (Demo.seconds t + 18000)%Z in
  Container._read_one_container west (λ s n, Some (Demo.docker_logs Demo.log s n)) (Some "10.1Z") 200 = ([], Some "10.1Z", false).
Proof. by vm_compute. Qed.

(** A deployment after the other whose log is already longer is not noticed. *)
Example unnoticed_redeploy :
  (Deploy.shown <$> Some (foldl (Deploy.poll 200) Deploy.new_viewer
    [Deploy.Content ("old 1" +:+ Container.newline); Deploy.Content ("new 1" +:+ Container.newline +:+ "new 2" +:+ Container.newline)])) =
    Some ["old 1"; "new 2"].
Proof. by vm_compute. Qed.

Example merged :
  greffon_logs Demo.encode Demo.decode (λ _, false) Demo.seconds true true Deploy.NoFile
    [MkContainer (Some "web") "x-web-1" (λ _ _, Some (Container.render (drop 2 Demo.log)));
     MkContainer None "db" (λ _ _, Some (Container.render (take 2 Demo.log)))]
    AllStream VNull None None =
  Ok (Reply [Line "db" (Some "10.1Z") "start"; Line "db" (Some "10.7Z") "pull 1"; Line "web" (Some "11.0Z") "pull 2";
             Line "web" (Some "11.5Z") "ready"] (Some "p") false false).
Proof. by vm_compute. Qed.
