(* ===== verification/Limits.v ===== *)
(** [apps/utils/docker/limits.py]: the limits of an instance, read from three
    variables, and the rate-limited warnings when the metrics exceed them.
    [Size]: the parser of docker sizes; [computed_instance_limits]: the limits and
    their cache; [check_limits_observed]: one pass over a digest of metrics.

    The clock is in milliseconds; the warnings handed to the logger are the state's
    [warned]. *)
From Stdlib Require Import ZArith Lia Ascii String Sorting.Sorted.
From S2P Require Import Prelude PyValue PyFloat.
Import Text.
Local Open Scope string_scope.

(** ** Sizes *)
Module Size.

Definition _SIZE_SUFFIXES : list (ascii * Z) :=
  [("b"%char, 1); ("k"%char, 1024); ("m"%char, 1024 ^ 2); ("g"%char, 1024 ^ 3); ("t"%char, 1024 ^ 4)]%Z.

(** [s[:-1]] and [s[-1]] *)
Fixpoint unsnoc (s : string) : option (string * ascii) :=
  match s with
  | "" => None
  | String c s => match unsnoc s with Some (t, d) => Some (String c t, d) | None => Some ("", c) end
  end.

Definition multiplier (c : ascii) : option Z :=
  snd <$> first_match (λ p, Ascii.eqb (fst p) c) _SIZE_SUFFIXES.

(** The second letter of a suffix of two. *)
Definition drop_b (text : string) : string :=
  match unsnoc text with
  | Some (t, c) => if Ascii.eqb c "b" && (1 <? String.length text)%nat then t else text
  | None => text
  end.

Definition split_suffix (number : string) : string * Z :=
  match unsnoc number with
  | Some (t, c) => match multiplier c with Some k => (t, k) | None => (number, 1%Z) end
  | None => (number, 1%Z)
  end.

Definition parse_size (value : string) : option Z :=
  let text := lower (strip value) in
  if bool_decide (text = "") then None
  else
    let '(number, k) := split_suffix (drop_b text) in
    if bool_decide (number = "") then None
    else
      size ← PyFloat.parse number;
      let scaled := mul size (of_Z k) in
      if negb (isfinite scaled) || negative scaled then None else Some (to_int scaled).

Example sizes :
  parse_size "2g" = Some (2 * 1024 ^ 3)%Z ∧ parse_size " 1.5GB " = Some 1610612736%Z ∧
  parse_size "512mb" = Some (512 * 1024 ^ 2)%Z ∧ parse_size "512" = Some 512%Z ∧
  parse_size "1g512m" = None ∧ parse_size "b" = None ∧ parse_size "" = None ∧ parse_size "-1g" = None.
Proof. vm_compute. repeat split. Qed.
Example sizes_overflow : parse_size "1e999g" = None ∧ parse_size "1e300g" = None ∧ parse_size "nan" = None.
Proof. vm_compute. repeat split. Qed.
(** What it reads besides docker's sizes. *)
Example sizes_generous :
  parse_size "1bb" = Some 1%Z ∧ parse_size "1e3k" = Some 1024000%Z ∧ parse_size "2 g" = Some (2 * 1024 ^ 3)%Z ∧
  parse_size "-0" = Some 0%Z.
Proof. vm_compute. repeat split. Qed.
End Size.
Import Size.

(** ** The limits *)
Record InstanceLimits : Type := Limits {
  mem_bytes : option Z;      (** [None]: the dimension is off *)
  cpus : option float;
  pids : option Z;
}.

Definition DEFAULT_MEM_LIMIT : string := "2g".
Definition DEFAULT_CPUS : string := "2.0".
Definition DEFAULT_PIDS : string := "512".
Definition default_cpus : float := default nan (PyFloat.parse DEFAULT_CPUS).
Definition default_pids : Z := default 0%Z (py_int DEFAULT_PIDS).

Definition off {A} (is_zero : A → bool) (x : A) : option A := if is_zero x then None else Some x.

Definition read_mem (raw : string) : option Z :=
  if bool_decide (strip raw = "") then None
  else match parse_size raw with
       | None => parse_size DEFAULT_MEM_LIMIT
       | Some mem => off (Z.eqb 0) mem
       end.
Definition accept_cpus (x : option float) : float :=
  match x with Some x => if negb (isfinite x) || negative x then default_cpus else x | None => default_cpus end.
Definition read_cpus (raw : string) : option float :=
  off (eqb zero) (accept_cpus (PyFloat.parse raw)).
Definition accept_pids (n : option Z) : Z :=
  match n with Some n => if (n <? 0)%Z then default_pids else n | None => default_pids end.
Definition read_pids (raw : string) : option Z := off (Z.eqb 0) (accept_pids (py_int raw)).

(** The state: [_limits_cache], [_last_warned] and the log. *)
Record state : Type := State {
  _limits_cache : option InstanceLimits;
  _last_warned : gmap (string * string) Z;
  warned : list (string * string * Z);     (** newest first *)
}.
Notation T := (M state PyFloat.exc).

Definition read_limits (getenv : string → option string) : InstanceLimits :=
  let mem := read_mem (default DEFAULT_MEM_LIMIT (getenv "GREFFER_INSTANCE_MEM_LIMIT")) in
  let cpus := read_cpus (default DEFAULT_CPUS (getenv "GREFFER_INSTANCE_CPUS")) in
  let pids := read_pids (default DEFAULT_PIDS (getenv "GREFFER_INSTANCE_PIDS")) in
  Limits mem cpus pids.

Definition computed_instance_limits (getenv : string → option string) : T InstanceLimits :=
  cached ← gets _limits_cache;
  match cached with
  | Some l => mret l
  | None =>
      let l := read_limits getenv in
      modify (λ s, State (Some l) (_last_warned s) (warned s));;
      mret l
  end.

(** ** The warnings *)
Definition _REWARN_MS : Z := 600 * 1000.

(** What the pass reads of one entry of the digest. *)
Record observed : Type := Observed {
  service : option string;
  name : option string;
  mem_used : option num;
  cpu_percent : option num;
}.

Definition _prune_last_warned (now : Z) : T () :=
  modify (λ s, State (_limits_cache s) (filter (λ kt, (now - kt.2 < _REWARN_MS)%Z) (_last_warned s)) (warned s)).

Definition hundred : float := of_Z 100.
Definition over_mem (l : InstanceLimits) (e : observed) : bool :=
  match mem_bytes l, mem_used e with Some limit, Some used => gt used (NInt limit) | _, _ => false end.
Definition over_cpu (l : InstanceLimits) (e : observed) : bool :=
  match cpus l, cpu_percent e with
  | Some limit, Some pct => gt pct (NFloat (mul limit hundred))
  | _, _ => false
  end.

Definition over (l : InstanceLimits) (e : observed) : bool := over_mem l e || over_cpu l e.

(** [a or b], for strings *)
Definition or_string (a : option string) (b : string) : string :=
  match a with Some "" | None => b | Some s => s end.
Definition service_of (e : observed) : string := or_string (service e) (or_string (name e) "unknown").

Definition warn (key : string * string) (clock : Z) : T () :=
  modify (λ s, State (_limits_cache s) (<[key := clock]> (_last_warned s)) ((key, clock) :: warned s)).

Definition check_entry (instance_id : string) (l : InstanceLimits) (clock : Z) (exceeding : Z) (e : observed) : T Z :=
  if negb (over l e) then mret exceeding
  else
    let key := (instance_id, service_of e) in
    last ← gets (λ s, _last_warned s !! key);
    when (match last with Some t => negb (clock - t <? _REWARN_MS)%Z | None => true end) (warn key clock);;
    mret (exceeding + 1)%Z.

(** The limits are given or computed, and so is the clock. *)
Definition check_limits_observed (getenv : string → option string) (instance_id : string)
    (digest : list observed) (limits : option InstanceLimits) (clock : Z) : T Z :=
  l ← match limits with Some l => mret l | None => computed_instance_limits getenv end;
  match mem_bytes l, cpus l with
  | None, None => mret 0%Z
  | _, _ =>
      _prune_last_warned clock;;
      foldS (check_entry instance_id l clock) 0%Z digest
  end.

(** One pass per read of the metrics: the instance, its digest and the clock. *)
Definition pass (getenv : string → option string) (p : string * list observed * Z) : T Z :=
  let '(id, digest, clock) := p in check_limits_observed getenv id digest None clock.
Definition passes (getenv : string → option string) : list (string * list observed * Z) → T (list Z) :=
  mapS (pass getenv).
Definition boot : state := State None ∅ [].

(** ** Sizes are exact *)
Lemma unsnoc_snoc a c : unsnoc (a +:+ String c "") = Some (a, c).
Proof. induction a as [|d a IH]; [done|]. change (unsnoc (String d (a +:+ String c "")) = Some (String d a, c)). cbn [unsnoc]. by rewrite IH. Qed.

Lemma unsnoc_last_digit t : isdigit t = true → ∃ a d, unsnoc t = Some (a, d) ∧ is_digit d = true.
Proof.
  intros [Hne Ht]%isdigit_spec. induction t as [|c t IH]; [done|]. cbn [all_chars unsnoc] in *.
  apply andb_prop in Ht as [Hc Ht]. destruct (decide (t = "")) as [->|Ht']; [by exists "", c|].
  destruct (IH Ht' Ht) as (a & d & -> & Hd). by exists (String c a), d.
Qed.

Lemma digit_no_suffix d : is_digit d = true → Ascii.eqb d "b" = false ∧ multiplier d = None.
Proof. intros Hd. destruct d as [[] [] [] [] [] [] [] []]; try done; discriminate Hd. Qed.

Lemma lower_app a b : lower (a +:+ b) = lower a +:+ lower b.
Proof. induction a as [|c a IH]; [done|]. change (String (lower_char c) (lower (a +:+ b)) = String (lower_char c) (lower a +:+ lower b)). by rewrite IH. Qed.

Lemma all_chars_app f a b : all_chars f (a +:+ b) = all_chars f a && all_chars f b.
Proof. induction a as [|c a IH]; [done|]. change (f c && all_chars f (a +:+ b) = f c && all_chars f a && all_chars f b). by rewrite IH, andb_assoc. Qed.

Lemma digits_app_ne t s : isdigit t = true → t +:+ s ≠ "".
Proof. intros [Hne _]%isdigit_spec. by destruct t. Qed.

Lemma length_app_str (a b : string) : String.length (a +:+ b) = (String.length a + String.length b)%nat.
Proof. induction a as [|c a IH]; [done|]. change (S (String.length (a +:+ b)) = S (String.length a + String.length b)). by rewrite IH. Qed.

(** Digits and letters of a suffix pass the first lines of the parser as they are. *)
Lemma parse_size_text t s :
  isdigit t = true → all_chars (λ c, negb (is_space c)) s = true → lower s = s →
  parse_size (t +:+ s) =
    (let '(number, k) := split_suffix (drop_b (t +:+ s)) in
     if bool_decide (number = "") then None
     else size ← PyFloat.parse number;
          let scaled := mul size (of_Z k) in
          if negb (isfinite scaled) || negative scaled then None else Some (to_int scaled)).
Proof.
  intros Ht Hs Hl. pose proof (proj1 (isdigit_spec t) Ht) as [_ Hd]. unfold parse_size.
  rewrite strip_none, lower_app, lower_digits, Hl; [|done|].
  - by rewrite bool_decide_eq_false_2 by (by apply digits_app_ne).
  - rewrite all_chars_app, Hs, andb_true_r. eapply all_chars_impl, Hd.
    intros c Hc. by rewrite (proj1 (digit_plain c Hc)).
Qed.

Lemma split_digits t : isdigit t = true → drop_b t = t ∧ split_suffix t = (t, 1%Z).
Proof.
  intros Ht. unfold drop_b, split_suffix. destruct (unsnoc_last_digit t Ht) as (a & d & -> & Hd).
  by destruct (digit_no_suffix d Hd) as [-> ->].
Qed.

(** A power of two at most 2^40, which is what a suffix stands for. *)
Lemma suffix_power c k : multiplier c = Some k → ∃ j, (0 ≤ j ≤ 40)%Z ∧ k = (2 ^ j)%Z.
Proof.
  unfold multiplier, _SIZE_SUFFIXES, first_match. cbn [fst].
  repeat (destruct (Ascii.eqb _ c); [intros [= <-]|]); [exists 0%Z|exists 10%Z|exists 20%Z|exists 30%Z|exists 40%Z|done];
    (split; [lia|done]).
Qed.

Lemma scale_digits t j :
  isdigit t = true → (int_of_digits t < 2 ^ 53)%Z → (0 ≤ j ≤ 40)%Z →
  (size ← PyFloat.parse t;
   let scaled := mul size (of_Z (2 ^ j)) in
   if negb (isfinite scaled) || negative scaled then None else Some (to_int scaled)) =
  Some (int_of_digits t * 2 ^ j)%Z.
Proof.
  intros Ht Hn Hj. rewrite parse_digits by done. cbn [mbind option_bind].
  pose proof (int_of_digits_nonneg t (proj2 (proj1 (isdigit_spec t) Ht))) as H0.
  destruct (int_of_digits t) as [|p|p]; [| |lia].
  - assert (2 ^ j = Zpos (Z.to_pos (2 ^ j)))%Z as Ej by (rewrite Z2Pos.id; lia).
    assert (Z.log2 (Zpos (Z.to_pos (2 ^ j))) = j) as El by (rewrite <-Ej; apply Z.log2_pow2; lia).
    rewrite Ej, of_Z_exact by lia. done.
  - assert (Z.log2 (Zpos p) ≤ 52)%Z as Hp.
    { assert (Z.log2 (Zpos p) < 53)%Z; [|lia]. by apply Z.log2_lt_pow2. }
    rewrite of_Z_exact, mul_scaled by lia. destruct (scaled_finite p j) as [-> ->]. cbn [negb orb].
    by rewrite to_int_scaled by lia.
Qed.

Lemma drop_b_snoc t c :
  t ≠ "" → drop_b (t +:+ String c "") = if Ascii.eqb c "b" then t else t +:+ String c "".
Proof.
  intros Ht. unfold drop_b. rewrite unsnoc_snoc, length_app_str.
  destruct t as [|d t]; [done|]. cbn [String.length].
  rewrite (proj2 (Nat.ltb_lt _ _)) by lia. by rewrite andb_true_r.
Qed.

Lemma split_snoc t c k : multiplier c = Some k → split_suffix (t +:+ String c "") = (t, k).
Proof. intros Hk. unfold split_suffix. by rewrite unsnoc_snoc, Hk. Qed.

Lemma suffix_plain c k :
  multiplier c = Some k → is_space c = false ∧ lower_char c = c ∧ (Ascii.eqb c "b" = true → k = 1%Z).
Proof.
  destruct c as [[] [] [] [] [] [] [] []]; intros Hk; vm_compute in Hk; try discriminate Hk;
    injection Hk as <-; by vm_compute.
Qed.

(** a whole number below 2^53 is read exactly: alone, with a suffix, and with docker's
    two-letter suffix it is the number times the power of 1024 the suffix stands for, although
    the parser goes through floats. *)
Theorem size_exact t c k :
  isdigit t = true → (int_of_digits t < 2 ^ 53)%Z → multiplier c = Some k →
  parse_size t = Some (int_of_digits t) ∧
  parse_size (t +:+ String c "") = Some (int_of_digits t * k)%Z ∧
  parse_size (t +:+ String c "b") = Some (int_of_digits t * k)%Z.
Proof.
  intros Ht Hn Hk. destruct (suffix_power c k Hk) as (j & Hj & Ek).
  destruct (suffix_plain c k Hk) as (Hsp & Hlow & Hb). destruct (split_digits t Ht) as [Hd Hs].
  assert (t ≠ "") as Hne by (by apply isdigit_spec in Ht as [? _]).
  split_and!.
  - rewrite <-(app_nil_str t) at 1. rewrite parse_size_text, app_nil_str, Hd, Hs by done.
    rewrite bool_decide_eq_false_2 by done. change (of_Z 1) with (of_Z (2 ^ 0)).
    rewrite (scale_digits t 0) by first [lia|done]. f_equal. lia.
  - rewrite parse_size_text, drop_b_snoc by (done || cbn; by rewrite ?Hsp, ?Hlow).
    destruct (Ascii.eqb c "b") eqn:Ec.
    + rewrite Hs, bool_decide_eq_false_2, (Hb eq_refl) by done. change (of_Z 1) with (of_Z (2 ^ 0)).
      by rewrite (scale_digits t 0) by first [lia|done].
    + rewrite (split_snoc t c k Hk), bool_decide_eq_false_2 by done. subst k. by rewrite scale_digits.
  - rewrite parse_size_text by (done || cbn; by rewrite ?Hsp, ?Hlow).
    replace (t +:+ String c "b") with ((t +:+ String c "") +:+ String "b" "") by (rewrite append_assoc_str; done).
    rewrite drop_b_snoc by (by destruct t). cbn [Ascii.eqb Bool.eqb].
    rewrite (split_snoc t c k Hk), bool_decide_eq_false_2 by done. subst k. by rewrite scale_digits.
Qed.

Lemma size_exact_witness :
  parse_size "536870912" = Some 536870912%Z ∧ parse_size "536870912m" = Some (2 ^ 49)%Z ∧
  parse_size "536870912mb" = Some (2 ^ 49)%Z.
Proof. apply (size_exact "536870912" "m"%char (1024 ^ 2)); [reflexivity|reflexivity|reflexivity]. Defined.

(** ** The rate of the warnings *)
Definition key_of (id : string) (e : observed) : string * string := (id, service_of e).

(** Two warnings about one service are at least ten minutes apart. *)
Fixpoint spaced (log : list (string * string * Z)) : Prop :=
  match log with
  | [] => True
  | (k, t) :: log => (∀ t', (k, t') ∈ log → _REWARN_MS ≤ t - t')%Z ∧ spaced log
  end.

Section rate.
Context (getenv : string → option string).
Notation L := (read_limits getenv).

(** The map holds the newest warning of a service unless it is ten minutes old. *)
Record tracks (clock : Z) (s : state) : Prop := {
  tr_cache : _limits_cache s = None ∨ _limits_cache s = Some L;
  tr_last k t : _last_warned s !! k = Some t → (k, t) ∈ warned s ∧ (t ≤ clock)%Z;
  tr_none k t : (k, t) ∈ warned s → _last_warned s !! k = None → (_REWARN_MS ≤ clock - t)%Z;
  tr_newest k t t' : (k, t) ∈ warned s → _last_warned s !! k = Some t' → (t ≤ t')%Z;
  tr_spaced : spaced (warned s);
}.

(** Within a pass the map holds the recent warnings only. *)
Definition pruned (clock : Z) (s : state) : Prop :=
  tracks clock s ∧ ∀ k t, _last_warned s !! k = Some t → (clock - t < _REWARN_MS)%Z.

Definition recent (clock : Z) (s : state) (k : string * string) : Prop :=
  ∃ t, (k, t) ∈ warned s ∧ (clock - _REWARN_MS < t ≤ clock)%Z.

Lemma tracks_later c c' s : tracks c s → (c ≤ c')%Z → tracks c' s.
Proof.
  intros [Hc Hl Hn Hw Hs] Hle. split; [done| | |done|done].
  - intros k t Hk. destruct (Hl k t Hk). split; [done|lia].
  - intros k t Hk Hnone. specialize (Hn k t Hk Hnone). lia.
Qed.

Lemma prune_pruned c s :
  tracks c s → ∃ s', _prune_last_warned c s = (Ok tt, s') ∧ pruned c s' ∧ warned s' = warned s.
Proof.
  intros [Hc Hl Hn Hw Hs]. eexists; split; [done|]. split; [|done]. split.
  - split; cbn; [done| | | |done].
    + intros k t [Hk _]%map_lookup_filter_Some. by apply Hl.
    + intros k t Hk Hnone. destruct (_last_warned s !! k) as [t'|] eqn:E; [|by apply (Hn k)].
      apply map_lookup_filter_None in Hnone as [Hnone|Hnone]; [congruence|].
      specialize (Hnone t' E). specialize (Hw k t t' Hk E). cbn in Hnone. lia.
    + intros k t t' Hk [E _]%map_lookup_filter_Some. by apply (Hw k).
  - cbn. intros k t [_ H]%map_lookup_filter_Some. done.
Qed.

Lemma warn_pruned c s k :
  pruned c s → _last_warned s !! k = None →
  pruned c (State (_limits_cache s) (<[k := c]> (_last_warned s)) ((k, c) :: warned s)).
Proof.
  intros [[Hc Hl Hn Hw Hs] Hp] Hk. split.
  - split; cbn; [done| | | |].
    + intros k' t. rewrite elem_of_cons. destruct (decide (k = k')) as [<-|Hne].
      * rewrite lookup_insert_eq. intros [= <-]. split; [by left|lia].
      * rewrite lookup_insert_ne by done. intros H. destruct (Hl k' t H). split; [by right|done].
    + intros k' t. rewrite elem_of_cons, lookup_insert_None. intros [[= -> ->]|H] [Hnone Hne]; [done|].
      by apply (Hn k').
    + intros k' t t'. rewrite elem_of_cons. destruct (decide (k = k')) as [<-|Hne].
      * rewrite lookup_insert_eq. intros [[= ->]|H] [= <-]; [lia|].
        specialize (Hn k t H Hk). unfold _REWARN_MS in Hn. lia.
      * rewrite lookup_insert_ne by done. intros [[= -> ->]|H] E; [done|]. by apply (Hw k').
    + split; [|done]. intros t' H. by apply (Hn k).
  - cbn. intros k' t. destruct (decide (k = k')) as [<-|Hne].
    + rewrite lookup_insert_eq. intros [= <-]. unfold _REWARN_MS. lia.
    + rewrite lookup_insert_ne by done. apply Hp.
Qed.

Lemma filter_none {A} (f : A → bool) l : (∀ x, f x = false) → List.filter f l = [].
Proof. intros Hf. induction l as [|x l IH]; [done|]. cbn. by rewrite Hf. Qed.

Lemma recent_mono c s s' k : warned s ⊆ warned s' → recent c s k → recent c s' k.
Proof. intros Hsub (t & Ht & Hr). exists t. split; [by apply Hsub|done]. Qed.

Lemma check_entry_pruned c s id n e :
  pruned c s → _limits_cache s = Some L →
  ∃ s', check_entry id L c n e s = (Ok (if over L e then n + 1 else n)%Z, s') ∧ pruned c s' ∧
    _limits_cache s' = Some L ∧ warned s ⊆ warned s' ∧ (over L e = true → recent c s' (key_of id e)).
Proof.
  intros Hp Hc. unfold check_entry. destruct (over L e); cbn [negb].
  2: { exists s. by split_and!. }
  unfold gets, when, warn, mbind, M_bind, key_of.
  destruct (_last_warned s !! (id, service_of e)) as [t|] eqn:E.
  - pose proof (proj2 Hp _ _ E) as Ht. pose proof (tr_last _ _ (proj1 Hp) _ _ E) as [Hin Hle].
    rewrite (proj2 (Z.ltb_lt _ _)) by lia. cbn [negb]. exists s. split_and!; try done.
    intros _. exists t. split; [done|lia].
  - eexists; split; [done|]. split; [by apply warn_pruned|]. split; [done|]. cbn.
    split; [by apply list_subseteq_cons|]. intros _. exists c. split; [by left|]. unfold _REWARN_MS. lia.
Qed.

Definition exceeding (digest : list observed) : Z := Z.of_nat (length (List.filter (over L) digest)).

Lemma check_digest_pruned c id digest s n :
  pruned c s → _limits_cache s = Some L →
  ∃ s', foldS (check_entry id L c) n digest s = (Ok (n + exceeding digest)%Z, s') ∧ pruned c s' ∧
    _limits_cache s' = Some L ∧ warned s ⊆ warned s' ∧
    (∀ e, e ∈ digest → over L e = true → recent c s' (key_of id e)).
Proof.
  revert s n. induction digest as [|e digest IH]; intros s n Hp Hc.
  - exists s. split; [by rewrite Z.add_0_r|]. split_and!; try done. by intros e He%not_elem_of_nil.
  - destruct (check_entry_pruned c s id n e Hp Hc) as (s1 & E1 & Hp1 & Hc1 & Hsub1 & Hr1).
    destruct (IH s1 (if over L e then n + 1 else n)%Z Hp1 Hc1) as (s2 & E2 & Hp2 & Hc2 & Hsub2 & Hr2).
    exists s2. split.
    + cbn [foldS]. unfold mbind, M_bind in *. rewrite E1, E2. do 2 f_equal.
      unfold exceeding. cbn [List.filter]. destruct (over L e); cbn [length]; lia.
    + split_and!; try done; [by etrans|]. intros e'. rewrite elem_of_cons. intros [->|He] Ho.
      * by eapply recent_mono, Hr1.
      * by apply Hr2.
Qed.

Lemma check_pass c c' id digest s :
  tracks c s → (c ≤ c')%Z →
  ∃ s', pass getenv (id, digest, c') s = (Ok (exceeding digest), s') ∧ tracks c' s' ∧
    warned s ⊆ warned s' ∧ (∀ e, e ∈ digest → over L e = true → recent c' s' (key_of id e)).
Proof.
  intros Ht Hle. apply (tracks_later _ c') in Ht; [|done].
  assert (∃ s1, computed_instance_limits getenv s = (Ok L, s1) ∧ tracks c' s1 ∧
            _limits_cache s1 = Some L ∧ warned s1 = warned s) as (s1 & E1 & Ht1 & Hc1 & <-).
  { unfold computed_instance_limits, gets, mbind, M_bind. destruct (tr_cache _ _ Ht) as [E|E]; rewrite E.
    - eexists; split; [done|]. split; [|done]. destruct Ht. split; cbn; eauto.
    - by exists s. }
  unfold pass, check_limits_observed, mbind, M_bind in *. rewrite E1.
  destruct (mem_bytes L) eqn:Em, (cpus L) eqn:Ec.
  4: { exists s1. unfold exceeding. rewrite (filter_none (over L)); [|by intros e; unfold over, over_mem, over_cpu; rewrite Em, Ec].
       split_and!; try done. intros e _. unfold over, over_mem, over_cpu. by rewrite Em, Ec. }
  all: destruct (prune_pruned c' s1 Ht1) as (s2 & E2 & Hp2 & Hw2); rewrite E2;
    destruct (check_digest_pruned c' id digest s2 0 Hp2) as (s3 & E3 & Hp3 & _ & Hsub & Hr);
    [by injection E2 as <-|]; exists s3; rewrite <-Hw2; split_and!; try done; apply Hp3.
Qed.
End rate.

Lemma passes_track getenv l s c :
  tracks getenv c s → Forall (λ p, c ≤ p.2)%Z l → StronglySorted Z.le (snd <$> l) →
  ∃ s', passes getenv l s = (Ok ((λ p, exceeding getenv p.1.2) <$> l), s') ∧ spaced (warned s') ∧
    warned s ⊆ warned s' ∧
    ∀ p e, p ∈ l → e ∈ p.1.2 → over (read_limits getenv) e = true → recent p.2 s' (key_of p.1.1 e).
Proof.
  revert s c. induction l as [|[[id digest] c'] l IH]; intros s c Ht Hc Hsort.
  - exists s. split; [done|]. split; [apply Ht|]. split; [done|]. by intros p e Hp%not_elem_of_nil.
  - apply Forall_cons in Hc as [Hcc _]. cbn in Hcc, Hsort. apply StronglySorted_inv in Hsort as [Hsort Hc'].
    destruct (check_pass getenv c c' id digest s Ht Hcc) as (s1 & E1 & Ht1 & Hsub1 & Hr1).
    destruct (IH s1 c' Ht1) as (s2 & E2 & Hsp & Hsub2 & Hr2); [|done|].
    { apply Forall_forall. intros p Hp. rewrite Forall_forall in Hc'. apply Hc', list_elem_of_fmap. by exists p. }
    exists s2. split.
    + unfold passes in *. cbn [mapS]. unfold mbind, M_bind in *. by rewrite E1, E2.
    + split; [done|]. split; [by etrans|]. intros p e. rewrite elem_of_cons. intros [->|Hp] He Ho.
      * eapply recent_mono; [exact Hsub2|]. by apply Hr1.
      * by apply (Hr2 p).
Qed.

(** the telemetry of the limits neither spams nor stays silent.  Whatever is observed,
    at clocks that do not go back, no pass fails and each counts the containers over a limit; two
    warnings about the same service are at least ten minutes apart, and at every observation over a
    limit there is a warning about that service which is less than ten minutes old. *)
Theorem warnings_rate getenv l :
  StronglySorted Z.le (snd <$> l) →
  ∃ s', passes getenv l boot = (Ok ((λ p, exceeding getenv p.1.2) <$> l), s') ∧ spaced (warned s') ∧
    ∀ p e, p ∈ l → e ∈ p.1.2 → over (read_limits getenv) e = true → recent p.2 s' (key_of p.1.1 e).
Proof.
  intros Hs. destruct (passes_track getenv l boot (default 0%Z (head (snd <$> l)))) as (s' & E & Hsp & _ & Hr).
  - split; cbn; [by left| | | |done].
    + intros k t H. by rewrite lookup_empty in H.
    + by intros k t H%not_elem_of_nil.
    + by intros k t t' H%not_elem_of_nil.
  - destruct l as [|p l]; [done|]. cbn in *. apply StronglySorted_inv in Hs as [_ Hs].
    constructor; [lia|]. by apply (Forall_fmap snd) in Hs.
  - done.
  - by exists s'.
Qed.

Module Demo.
(** 2.5 GiB against the default of 2 GiB. *)
Definition heavy : observed := Observed (Some "web") (Some "i1-web-1") (Some (NInt 2684354560)) (Some (NFloat (of_Z 12))).
Definition light : observed := Observed (Some "db") (Some "i1-db-1") (Some (NInt 1048576)) None.
Definition no_env : string → option string := λ _, None.
Definition run : list (string * list observed * Z) :=
  [("i1", [heavy; light; heavy], 1000%Z); ("i1", [heavy], 600999%Z); ("i1", [light; heavy], 601000%Z)].

Example limits_run_ok :
  ((passes no_env run boot).1, warned (passes no_env run boot).2) =
  (Ok [2; 1; 1]%Z, [("i1", "web", 601000%Z); ("i1", "web", 1000%Z)]).
Proof. vm_compute. reflexivity. Qed.
End Demo.

Lemma warnings_rate_witness :
  ∃ s', passes Demo.no_env Demo.run boot = (Ok [2; 1; 1]%Z, s') ∧ spaced (warned s') ∧
    recent 600999 s' ("i1", "web").
Proof.
  destruct (warnings_rate Demo.no_env Demo.run) as (s' & E & Hs & Hr).
  - change (snd <$> Demo.run) with [1000; 600999; 601000]%Z. repeat constructor; lia.
  - exists s'. split; [exact E|]. split; [exact Hs|].
    apply (Hr ("i1", [Demo.heavy], 600999%Z) Demo.heavy); [right; left|left|reflexivity].
Defined.
