(* ===== verification/Settings.v ===== *)
(** [app/settings.py]: the validators of the settings.  Field names are kept; a
    validator that runs before pydantic's parsing takes the text of the variable, one
    that runs after takes the parsed value, and [None]/[Raise] is the refusal.

    The same variables are read a second time by the limits and by the render budget;
    what the two readings have in common is stated at the end, and what the retry
    schedule of the certificates gets from the accepted settings. *)
From Stdlib Require Import ZArith Lia Ascii String.
From S2P Require Import Prelude PyValue PyFloat RenderBudget CertRenewal Limits.
Import Text.
Local Open Scope string_scope.

Definition _MIN_ATTEMPTS_IN_WINDOW : Z := 4.
Definition CERT_RENEWAL_BACKOFF_CAP_SECONDS : Z := 24 * 60 * 60.

Inductive exc : Type := ValueError (msg : string).

(** ** Validators of single fields *)
Definition _empty_string_is_none (v : string) : option string := if bool_decide (v = "") then None else Some v.
Definition _truncate_version (v : string) : string := substring 0 32 v.

Definition in_range (field : string) (lo hi v : Z) : result exc Z :=
  if ((lo <=? v) && (v <=? hi))%Z then Ok v else Raise (ValueError field).
Definition _cert_renewal_interval_in_range : Z → result exc Z := in_range "greffer_cert_renewal_interval" 60 86400.
Definition _cert_renewal_window_sane : Z → result exc Z := in_range "greffer_cert_renewal_window_days" 1 29.
Definition _heartbeat_interval_in_range : Z → result exc Z := in_range "heartbeat_interval" 1 86400.

(** The model validator: the pair it is about. *)
Definition floor (interval : Z) : Z :=
  (_MIN_ATTEMPTS_IN_WINDOW - 1) * CERT_RENEWAL_BACKOFF_CAP_SECONDS + _MIN_ATTEMPTS_IN_WINDOW * interval.
Definition window_seconds (window_days : Z) : Z := window_days * 86400.
Definition _renewal_window_fits_the_retries (interval window_days : Z) : result exc () :=
  if (window_seconds window_days <=? floor interval)%Z
  then Raise (ValueError "greffer_cert_renewal_window_days is too narrow") else Ok tt.

(** The three in the order pydantic runs them. *)
Definition renewal_settings (interval window_days : Z) : result exc (Z * Z) :=
  i ← _cert_renewal_interval_in_range interval;
  d ← _cert_renewal_window_sane window_days;
  _renewal_window_fits_the_retries i d;;
  mret (i, d).

Definition nonneg_or (d : Z) (v : string) : Z := match py_int v with Some n => Z.max n 0 | None => d end.
Definition _coerce_render_input : string → Z := nonneg_or 1048576.
Definition _coerce_render_output : string → Z := nonneg_or 4194304.
Definition _coerce_render_mem : string → Z := nonneg_or 268435456.
Definition _coerce_render_timeout (v : string) : float :=
  match PyFloat.parse v with
  | Some n => if negb (isfinite n) then of_Z 5 else if ltb n zero then zero else n
  | None => of_Z 5
  end.

Definition _coerce_log_max_file (v : string) : Z := match py_int v with Some n => n | None => 3 end.

Definition _coerce_mem_limit (v : string) : string :=
  if bool_decide (strip v = "") then v
  else match Size.parse_size v with Some _ => v | None => DEFAULT_MEM_LIMIT end.
Definition _coerce_cpus (v : string) : float :=
  match PyFloat.parse v with
  | Some cpus => if negb (isfinite cpus) then default_cpus else if ltb cpus zero then default_cpus else cpus
  | None => default_cpus
  end.
Definition _coerce_pids (v : string) : Z :=
  match py_int v with Some pids => if (0 <=? pids)%Z then pids else default_pids | None => default_pids end.

(** The three admission knobs of an image, with the default of the field. *)
Definition _coerce_image_admission (default : Z) (v : string) : Z :=
  match (match py_int v with Some n => Some n | None => Size.parse_size v end) with
  | Some n => if (0 <=? n)%Z then n else default
  | None => default
  end.

Definition _coerce_metrics_concurrency (v : string) : Z :=
  match py_int v with Some n => Z.min 32 (Z.max 1 n) | None => 8 end.

Definition _coerce_log_format (v : string) : string := if mem v ["json"; "text"] then v else "json".
Definition upper_char (c : ascii) : ascii :=
  let n := N_of_ascii c in if ((97 <=? n) && (n <=? 122))%N then ascii_of_N (n - 32) else c.
Fixpoint upper (s : string) : string :=
  match s with "" => "" | String c s => String (upper_char c) (upper s) end.
Definition _coerce_log_level (v : string) : string :=
  if mem (upper v) ["CRITICAL"; "ERROR"; "WARNING"; "INFO"; "DEBUG"] then upper v else "INFO".

Example coerced :
  _coerce_image_admission 7 "50g" = (50 * 1024 ^ 3)%Z ∧ _coerce_image_admission 7 "-1" = 7%Z ∧
  _coerce_metrics_concurrency "99" = 32%Z ∧ _coerce_render_timeout "inf" = of_Z 5 ∧
  _coerce_log_level "debug" = "DEBUG" ∧ _coerce_cpus "1e999" = default_cpus.
Proof. vm_compute. repeat split. Qed.
(** A window of five days at a twenty-hour interval, and the defaults. *)
Example windows :
  renewal_settings 72000 5 = Raise (ValueError "greffer_cert_renewal_window_days is too narrow") ∧
  renewal_settings 21600 7 = Ok (21600, 7)%Z.
Proof. split; reflexivity. Qed.

(** ** The knobs cannot stop the program *)

(** What a coerced knob is, whatever the variable holds. *)
Definition sane_size (s : string) : Prop := strip s = "" ∨ is_Some (Size.parse_size s).
Definition sane_float (x : float) : Prop := isfinite x = true ∧ negative x = false.

Lemma sane_float_accept x :
  sane_float (match x with Some x => if negb (isfinite x) then default_cpus else if ltb x zero then default_cpus else x | None => default_cpus end).
Proof.
  unfold sane_float, negative. destruct x as [x|]; [|done].
  destruct (isfinite x) eqn:E; [|done]. cbn [negb]. destruct (ltb x zero) eqn:E2; [done|]. by split.
Qed.

Lemma nonneg_or_nonneg d v : (0 ≤ d)%Z → (0 ≤ nonneg_or d v)%Z.
Proof. unfold nonneg_or. destruct (py_int v); lia. Qed.

Lemma image_admission_nonneg d v : (0 ≤ d)%Z → (0 ≤ _coerce_image_admission d v)%Z.
Proof.
  intros Hd. unfold _coerce_image_admission.
  destruct (match py_int v with Some n => Some n | None => Size.parse_size v end); [|done].
  destruct (Z.leb_spec 0 z); lia.
Qed.

(** an operator's typo degrades to a safe value.  Whatever text the environment gives, every
    coerced knob is in its range: sizes can be read, floats are finite and not negative, counts are
    not negative, the metrics get between 1 and 32 tokens, and the log settings are known names. *)
Theorem knobs_in_range (v : string) (d : Z) :
  (0 ≤ d)%Z →
  (0 ≤ _coerce_render_input v ∧ 0 ≤ _coerce_render_output v ∧ 0 ≤ _coerce_render_mem v ∧
   0 ≤ _coerce_pids v ∧ 0 ≤ _coerce_image_admission d v ∧ 1 ≤ _coerce_metrics_concurrency v ≤ 32)%Z ∧
  sane_float (_coerce_render_timeout v) ∧ sane_float (_coerce_cpus v) ∧ sane_size (_coerce_mem_limit v) ∧
  _coerce_log_format v ∈ ["json"; "text"] ∧
  _coerce_log_level v ∈ ["CRITICAL"; "ERROR"; "WARNING"; "INFO"; "DEBUG"] ∧
  (String.length (_truncate_version v) ≤ 32)%nat.
Proof.
  intros Hd. split_and!; try (by apply nonneg_or_nonneg); try (by apply image_admission_nonneg).
  - unfold _coerce_pids. destruct (py_int v) as [n|]; [destruct (Z.leb_spec 0 n); [done|]|]; vm_compute; discriminate.
  - unfold _coerce_metrics_concurrency. destruct (py_int v); lia.
  - unfold _coerce_metrics_concurrency. destruct (py_int v); lia.
  - unfold sane_float, negative, _coerce_render_timeout. destruct (PyFloat.parse v) as [x|]; [|done].
    destruct (isfinite x) eqn:E; [|done]. cbn [negb]. destruct (ltb x zero) eqn:E2; [done|by split].
  - apply sane_float_accept.
  - unfold sane_size, _coerce_mem_limit. case_bool_decide; [by left|]. right.
    destruct (Size.parse_size v) eqn:E; [by rewrite E|by eexists].
  - unfold _coerce_log_format. destruct (mem v _) eqn:E; [by apply mem_true|left].
  - unfold _coerce_log_level. destruct (mem (upper v) _) eqn:E; [by apply mem_true|]. do 3 right. left.
  - unfold _truncate_version. generalize 32%nat. clear. intros n.
    revert v. induction n as [|n IH]; intros [|c v]; cbn; [lia..|]. specialize (IH v). lia.
Qed.

Lemma knobs_in_range_witness :
  (1 ≤ _coerce_metrics_concurrency "lots" ≤ 32)%Z ∧ sane_size (_coerce_mem_limit "1e999g").
Proof.
  assert (0 ≤ 0)%Z as H0 by lia. split.
  - destruct (knobs_in_range "lots" 0 H0) as [(_ & _ & _ & _ & _ & H) _]. exact H.
  - apply (knobs_in_range "1e999g" 0 H0).
Defined.

(** ** Two readings of the same variables *)

(** What the Settings hold for the three limits, as the limits mean them. *)
Definition settings_limits (getenv : string → option string) : InstanceLimits :=
  let mem := from_option _coerce_mem_limit DEFAULT_MEM_LIMIT (getenv "GREFFER_INSTANCE_MEM_LIMIT") in
  Limits (if bool_decide (strip mem = "") then None else b ← Size.parse_size mem; off (Z.eqb 0) b)
         (off (eqb zero) (from_option _coerce_cpus default_cpus (getenv "GREFFER_INSTANCE_CPUS")))
         (off (Z.eqb 0) (from_option _coerce_pids default_pids (getenv "GREFFER_INSTANCE_PIDS"))).

Lemma read_mem_settings raw :
  read_mem raw =
    if bool_decide (strip (_coerce_mem_limit raw) = "") then None
    else b ← Size.parse_size (_coerce_mem_limit raw); off (Z.eqb 0) b.
Proof.
  unfold read_mem, _coerce_mem_limit. case_bool_decide as E; [by rewrite bool_decide_eq_true_2|].
  destruct (Size.parse_size raw) as [b|] eqn:Eb; [by rewrite bool_decide_eq_false_2, Eb|]. done.
Qed.

Lemma read_cpus_settings raw : read_cpus raw = off (eqb zero) (_coerce_cpus raw).
Proof.
  unfold read_cpus, accept_cpus, _coerce_cpus, negative. f_equal.
  destruct (PyFloat.parse raw) as [x|]; [|done]. by destruct (isfinite x), (ltb x zero).
Qed.

Lemma read_pids_settings raw : read_pids raw = off (Z.eqb 0) (_coerce_pids raw).
Proof.
  unfold read_pids, accept_pids, _coerce_pids. f_equal. destruct (py_int raw) as [n|]; [|done].
  destruct (Z.ltb_spec n 0), (Z.leb_spec 0 n); lia || done.
Qed.

(** The render budget's reading of its variables, next to the settings'. *)
Definition agree_on (raw : string) : Prop :=
  _coerce_render_input raw = _knob (Some raw) _DEFAULT_INPUT.

Lemma knob_agrees raw n :
  (String.length raw ≤ 4300)%nat → py_int raw = Some n → (0 ≤ n)%Z → agree_on raw.
Proof.
  intros Hl Hn H0. unfold agree_on, _coerce_render_input, nonneg_or, _knob. rewrite Hn.
  rewrite (proj2 (Nat.ltb_ge _ _)) by done. unfold py_int in Hn.
  destruct (4300 <? _)%nat; [discriminate Hn|]. rewrite Hn.
  destruct (String.eqb_spec (strip raw) "") as [E|_].
  - unfold int_of_string in Hn. by rewrite E in Hn.
  - destruct (Z.ltb_spec n 0); lia.
Qed.

(** A negative knob: off for the settings, the default for the budget that is enforced. *)
Example knob_disagrees : ¬ agree_on "-1".
Proof. vm_compute. discriminate. Qed.

(** the two readings of the limits agree.  Whatever the environment holds, present or
    absent, blank, zero, garbage, negative or overflowing, the limits computed from the variables
    are the ones the settings hold, and the first computation of the process stores exactly them. *)
Theorem views_agree getenv :
  read_limits getenv = settings_limits getenv ∧
  ∀ s, _limits_cache s = None →
    ∃ s', computed_instance_limits getenv s = (Ok (settings_limits getenv), s') ∧
      _limits_cache s' = Some (settings_limits getenv) ∧ warned s' = warned s ∧
      computed_instance_limits getenv s' = (Ok (settings_limits getenv), s').
Proof.
  assert (read_limits getenv = settings_limits getenv) as E.
  { unfold read_limits, settings_limits. f_equal.
    - destruct (getenv _) as [raw|]; [|reflexivity]. cbn. apply read_mem_settings.
    - destruct (getenv _) as [raw|]; [|reflexivity]. cbn. apply read_cpus_settings.
    - destruct (getenv _) as [raw|]; [|reflexivity]. cbn. apply read_pids_settings. }
  split; [done|]. intros s Hs. rewrite <-E. unfold computed_instance_limits, gets, mbind, M_bind.
  rewrite Hs. by eexists.
Qed.

Definition env_demo (k : string) : option string :=
  if bool_decide (k = "GREFFER_INSTANCE_MEM_LIMIT") then Some " 512MB "
  else if bool_decide (k = "GREFFER_INSTANCE_CPUS") then Some "-1" else Some "0".

Lemma views_agree_witness :
  read_limits env_demo = Limits (Some (512 * 1024 ^ 2)%Z) (Some (of_Z 2)) None ∧
  ∃ s', computed_instance_limits env_demo boot = (Ok (settings_limits env_demo), s').
Proof.
  destruct (views_agree env_demo) as [_ H]. split; [vm_compute; reflexivity|].
  destruct (H boot eq_refl) as (s' & Hs & _). by exists s'.
Defined.

(** ** What the accepted window buys *)
Section schedule.
Context (cfg : CertRenewal.settings).
(** When the worker comes to the instance for the [k]-th time, when it is done with it, and the
    time from which its certificate is in the window. *)
Context (visit ended : nat → Z) (due : Z).

(** [_in_backoff] at the [k]-th visit, of the instance's entry of [_renewal_backoff]. *)
Definition resting (e : option (Z * Z)) (k : nat) : bool :=
  match e with Some (_, deadline) => (visit k <? deadline)%Z | None => false end.

(** The entry before the [k]-th visit, when no renewal lands: a visit in the backoff does nothing,
    one before the window clears the entry ([_clear_backoff]) and any other one fails, which
    [_note_failure] notes at its end. *)
Fixpoint entry (k : nat) : option (Z * Z) :=
  match k with
  | O => None
  | S k =>
      if resting (entry k) k then entry k
      else if (visit k <? due)%Z then None
      else let failures := (default 0 (fst <$> entry k) + 1)%Z in
           Some (failures, (ended k + backoff_delay cfg failures)%Z)
  end.

(** The [k]-th visit tries to renew. *)
Definition tried (k : nat) : Prop := resting (entry k) k = false ∧ (due ≤ visit k)%Z.
End schedule.

Section fits.
Context (interval window_days : Z) (visit ended : nat → Z) (w due : Z).
Context (Hvisit : ∀ n, (visit n < visit (S n) ≤ visit n + interval + w)%Z).
Context (Hended : ∀ n, (visit n ≤ ended n ≤ visit n + w)%Z).
Notation cfg := {| cert_renewal_interval := interval; cert_renewal_window_days := window_days |}.

Lemma visit_unbounded n : (visit 0 + Z.of_nat n ≤ visit n)%Z.
Proof. induction n as [|n IH]; [lia|]. destruct (Hvisit n). lia. Qed.

Lemma visit_mono j k : (j ≤ k)%nat → (visit j ≤ visit k)%Z.
Proof. induction 1 as [|k H IH]; [lia|]. destruct (Hvisit k). lia. Qed.

(** The first visit at or after a later time comes within one gap. *)
Lemma first_visit t :
  (visit 0 < t)%Z → ∃ k, (∀ j, (j < k)%nat → visit j < t)%Z ∧ (t ≤ visit k < t + interval + w)%Z.
Proof.
  intros H0. assert (∀ n, (∀ j, (j ≤ n)%nat → visit j < t)%Z ∨
    ∃ k, (∀ j, (j < k)%nat → visit j < t)%Z ∧ (t ≤ visit k < t + interval + w)%Z) as H.
  { induction n as [|n [IH|IH]]; [|destruct (Z.lt_ge_cases (visit (S n)) t)|by right].
    - left. intros j Hj. by assert (j = 0)%nat as -> by lia.
    - left. intros j Hj. destruct (decide (j = S n)) as [->|]; [done|apply IH; lia].
    - right. exists (S n). split; [intros j Hj; apply IH; lia|]. destruct (Hvisit n).
      specialize (IH n (le_n n)). lia. }
  destruct (H (Z.to_nat (t - visit 0))) as [Hall|]; [|done].
  specialize (Hall _ (le_n _)). pose proof (visit_unbounded (Z.to_nat (t - visit 0))). lia.
Qed.

Notation entry := (entry cfg visit ended due).
Notation tried := (tried cfg visit ended due).

(** Before the window nothing is noted. *)
Lemma entry_early k : (∀ j, (j < k)%nat → visit j < due)%Z → entry k = None.
Proof.
  induction k as [|k IH]; intros H; [done|]. cbn [Settings.entry]. rewrite IH by (intros; apply H; lia). cbn.
  destruct (Z.ltb_spec (visit k) due); [done|]. specialize (H k (le_n _)). lia.
Qed.

(** An entry stays until its deadline. *)
Lemma entry_rests n d k k' :
  entry k = Some (n, d) → (k ≤ k')%nat → (∀ j, (k ≤ j < k')%nat → visit j < d)%Z → entry k' = Some (n, d).
Proof.
  intros He. induction 1 as [|k' Hle IH]; intros Hd; [done|]. cbn [Settings.entry].
  rewrite IH by (intros; apply Hd; lia). unfold resting.
  destruct (Z.ltb_spec (visit k') d); [done|]. specialize (Hd k' ltac:(lia)). lia.
Qed.

Lemma entry_tried k : tried k →
  entry (S k) = Some (default 0 (fst <$> entry k) + 1, ended k + backoff_delay cfg (default 0 (fst <$> entry k) + 1))%Z.
Proof. intros [Hr Hd]. cbn [Settings.entry]. rewrite Hr. destruct (Z.ltb_spec (visit k) due); [lia|done]. Qed.

Context (Hint : (0 < interval ≤ CERT_RENEWAL_BACKOFF_CAP_SECONDS)%Z).

(** After a try comes another one, at most a cap, an interval and twice [w] later. *)
Lemma tried_again k n :
  tried k → default 0%Z (fst <$> entry k) = n → (0 ≤ n)%Z →
  ∃ k', (k < k')%nat ∧ tried k' ∧ default 0%Z (fst <$> entry k') = (n + 1)%Z ∧
    (visit k' < visit k + CERT_RENEWAL_BACKOFF_CAP_SECONDS + interval + 2 * w)%Z.
Proof.
  intros Hk Hn H0. pose proof (entry_tried k Hk) as He. rewrite Hn in He. set (d := backoff_delay cfg (n + 1)) in He.
  assert (interval ≤ d ≤ CERT_RENEWAL_BACKOFF_CAP_SECONDS)%Z as Hd
    by (refine (proj1 (backoff_delay_bounds _ _ _ _)); cbn; [lia|done]).
  destruct (Hended k) as [Hlo Hhi]. pose proof (visit_mono 0 k ltac:(lia)).
  destruct (first_visit (ended k + d)) as (k' & Hbefore & Hat); [lia|].
  assert (k < k')%nat as Hlt.
  { destruct (Nat.lt_ge_cases k k') as [|Hle]; [done|]. pose proof (visit_mono k' k Hle). lia. }
  assert (entry k' = Some (n + 1, ended k + d)%Z) as He'
    by (apply (entry_rests _ _ (S k)); [done|lia|intros j Hj; apply Hbefore; lia]).
  exists k'. split_and!; [done| |by rewrite He'|lia]. split.
  - unfold resting. rewrite He'. apply Z.ltb_ge. lia.
  - destruct Hk as [_ ?]. pose proof (visit_mono k k' ltac:(lia)). lia.
Qed.
End fits.

Lemma in_range_ok field lo hi v v' : in_range field lo hi v = Ok v' → v' = v ∧ (lo ≤ v ≤ hi)%Z.
Proof.
  unfold in_range. destruct ((lo <=? v) && (v <=? hi))%Z eqn:E; [|discriminate].
  apply andb_prop in E as [?%Z.leb_le ?%Z.leb_le]. by intros [= <-].
Qed.

Lemma renewal_settings_ok i d :
  renewal_settings i d = Ok (i, d) → (60 ≤ i ≤ 86400)%Z ∧ (0 < window_seconds d - floor i)%Z.
Proof.
  unfold renewal_settings. intros (i' & [-> Hi]%in_range_ok & H)%bindR_ok.
  apply bindR_ok in H as (d' & [-> Hd]%in_range_ok & H). split; [done|].
  unfold _renewal_window_fits_the_retries in H.
  destruct (Z.leb_spec (window_seconds d) (floor i)); [discriminate H|lia].
Qed.

(** C13: The settings that are accepted leave the window some slack over the floor.  Take an
    instance of which every renewal fails, looked at over and over, each look over within [w]
    seconds and the next one at most an interval and [w] seconds after it began, and a certificate
    that comes into its window after the first look.  If seven times [w] fits in the slack, four
    looks try to renew it before it expires, in the backoff's own schedule, which counts from the
    end of a failed try.  (Passes that take no time always fit; longer ones than the slack allows
    can leave three tries: [slow_passes].) *)
Theorem window_fits_retries interval window_days :
  renewal_settings interval window_days = Ok (interval, window_days) →
  let cfg := {| cert_renewal_interval := interval; cert_renewal_window_days := window_days |} in
  let slack := (window_seconds window_days - floor interval)%Z in
  (0 < slack)%Z ∧
  ∀ (visit ended : nat → Z) (w due : Z),
    (∀ n, visit n < visit (S n) ≤ visit n + interval + w)%Z → (∀ n, visit n ≤ ended n ≤ visit n + w)%Z →
    (visit 0%nat < due)%Z → (7 * w ≤ slack)%Z →
    ∃ k1 k2 k3 k4, (k1 < k2 ∧ k2 < k3 ∧ k3 < k4)%nat ∧
      tried cfg visit ended due k1 ∧ tried cfg visit ended due k2 ∧
      tried cfg visit ended due k3 ∧ tried cfg visit ended due k4 ∧
      (due ≤ visit k1 ∧ visit k4 < due + window_seconds window_days)%Z.
Proof.
  intros Hok cfg slack. subst cfg. destruct (renewal_settings_ok _ _ Hok) as [Hi Hs]. split; [done|].
  intros visit ended w due Hv He Hdue Hw.
  assert (0 < interval ≤ CERT_RENEWAL_BACKOFF_CAP_SECONDS)%Z as Hc by (unfold CERT_RENEWAL_BACKOFF_CAP_SECONDS; lia).
  destruct (first_visit interval visit w Hv due Hdue) as (k1 & Hk & Hb).
  pose proof (entry_early interval window_days visit ended due k1 Hk) as E1.
  assert (tried {| cert_renewal_interval := interval; cert_renewal_window_days := window_days |} visit ended due k1) as T1 by (split; [by rewrite E1|lia]).
  pose proof (tried_again interval window_days visit ended w due Hv He Hc) as Hnext.
  destruct (Hnext k1 0%Z T1) as (k2 & L2 & T2 & E2 & B2); [by rewrite E1|lia|].
  destruct (Hnext k2 1%Z T2 E2) as (k3 & L3 & T3 & E3 & B3); [lia|].
  destruct (Hnext k3 2%Z T3 E3) as (k4 & L4 & T4 & E4 & B4); [lia|].
  exists k1, k2, k3, k4. split_and!; try done; [lia|].
  unfold slack, floor, _MIN_ATTEMPTS_IN_WINDOW in Hw. lia.
Qed.

(** The defaults, with looks that take up to an hour and come an hour late. *)
Definition late_visit (n : nat) : Z := (25200 * Z.of_nat n)%Z.

Lemma window_fits_retries_witness :
  ∃ k4, tried {| cert_renewal_interval := 21600; cert_renewal_window_days := 7 |} late_visit (λ n, late_visit n + 3600)%Z 1000 k4 ∧
    (late_visit k4 < 1000 + 7 * 86400)%Z.
Proof.
  destruct (window_fits_retries 21600 7) as [_ H]; [reflexivity|].
  destruct (H late_visit (λ n, late_visit n + 3600)%Z 3600%Z 1000%Z) as (k1 & k2 & k3 & k4 & _ & _ & _ & _ & T4 & _ & Hb).
  - intros n. unfold late_visit. lia.
  - intros n. lia.
  - unfold late_visit. lia.
  - vm_compute. discriminate.
  - exists k4. split; [exact T4|exact Hb].
Defined.

(** Accepted settings whose slack is twenty minutes, and looks that take eight hours: by the
    expiry three tries have been made. *)
Example slow_passes :
  renewal_settings 42900 5 = Ok (42900, 5)%Z ∧
  let cfg := {| cert_renewal_interval := 42900; cert_renewal_window_days := 5 |} in
  let visit n := (72300 * Z.of_nat n)%Z in
  let entry := entry cfg visit (λ n, visit n + 29400)%Z 1 in
  (visit 0%nat < 1 ∧ 1 + window_seconds 5 < visit 6%nat)%Z ∧
  (λ k, negb (resting visit (entry k) k)) <$> [1; 2; 3; 4; 5]%nat = [true; true; false; true; false].
Proof. vm_compute. done. Qed.
