(* ===== verification/Observe.v ===== *)
(** [apps/utils/docker/observe.py], the metrics of an instance: the reading of one
    container out of what docker answers ([_cpu_sample], [_mem], [_net], [_blk]), the
    digest of all containers on the shared pool with its deadline, the telemetry of
    the limits and the short cache in front of it.

    Docker's answers are parsed JSON ([json]); the pool is the sequence of the reads
    that finish before the deadline, in the order they finish, each with its clock.
    Clocks are in milliseconds. *)
From Stdlib Require Import ZArith Lia Ascii String Sorting.Permutation.
From S2P Require Import Prelude PyValue PyFloat Limits.
Import Text.
Local Open Scope string_scope.

(** ** What docker answers *)
Inductive json : Type :=
  | JNull
  | JBool (b : bool)
  | JNum (n : num)
  | JStr (s : string)
  | JArr (l : list json)
  | JObj (d : list (string * json)).

Inductive exc : Type :=
  | KeyError | TypeError | ValueError | AttributeError
  | Arithmetic (e : PyFloat.exc)
  | OtherError (type : string).

Fixpoint assoc (k : string) (d : list (string * json)) : option json :=
  match d with [] => None | (k', v) :: d => if String.eqb k k' then Some v else assoc k d end.

(** [j[k]], [j.get(k, d)], [bool(j)], [len(j)], [int(j)] *)
Definition item (j : json) (k : string) : result exc json :=
  match j with
  | JObj d => match assoc k d with Some v => Ok v | None => Raise KeyError end
  | _ => Raise TypeError
  end.
Definition get_or (j : json) (k : string) (d : json) : result exc json :=
  match j with JObj o => Ok (default d (assoc k o)) | _ => Raise AttributeError end.
Definition truthy (j : json) : bool :=
  match j with
  | JNull => false
  | JBool b => b
  | JNum n => nonzero n
  | JStr s => negb (bool_decide (s = ""))
  | JArr l => match l with [] => false | _ => true end
  | JObj d => match d with [] => false | _ => true end
  end.
Definition or (a b : json) : json := if truthy a then a else b.
Definition len (j : json) : result exc Z :=
  match j with
  | JStr s => Ok (Z.of_nat (String.length s))
  | JArr l => Ok (Z.of_nat (length l))
  | JObj d => Ok (Z.of_nat (length d))
  | _ => Raise TypeError
  end.
Definition num_of (j : json) : result exc num :=
  match j with
  | JNum n => Ok n
  | JBool b => Ok (NInt (if b then 1 else 0))
  | _ => Raise TypeError
  end.
Definition to_Z (j : json) : result exc Z :=
  match j with
  | JNum (NInt z) => Ok z
  | JNum (NFloat f) =>
      if isfinite f then Ok (to_int f)
      else Raise (if eqb f f then Arithmetic OverflowError else ValueError)   (** infinity, not a number *)
  | JBool b => Ok (if b then 1 else 0)%Z
  | JStr s => match py_int s with Some z => Ok z | None => Raise ValueError end
  | _ => Raise TypeError
  end.

Definition raising {A} (r : result PyFloat.exc A) : result exc A :=
  match r with Ok a => Ok a | Raise e => Raise (Arithmetic e) end.

(** [try: ... except (...): return d] *)
Definition except {A} (caught : exc → bool) (d : A) (r : result exc A) : result exc A :=
  match r with Raise e => if caught e then Ok d else Raise e | Ok a => Ok a end.

(** ** One snapshot *)
Definition sample : Type := Z * Z * Z.   (** total, system, online *)

Definition _cpu_sample (stats : json) : result exc (option sample) :=
  except (λ e, match e with KeyError | TypeError | ValueError => true | _ => false end) None (
    cpu ← item stats "cpu_stats";
    usage ← item cpu "cpu_usage";
    total ← item usage "total_usage";
    system ← item cpu "system_cpu_usage";
    online ← get_or cpu "online_cpus" JNull;
    online ← (if truthy online then mret online
              else per ← get_or usage "percpu_usage" JNull;
                   n ← len (or per (JArr []));
                   mret (or (JNum (NInt n)) (JNum (NInt 1))));
    total ← to_Z total;
    system ← to_Z system;
    online ← to_Z online;
    mret (Some (total, system, online))).

Definition _cpu_percent_from_prev (prev cur : option sample) : result exc (option float) :=
  match prev, cur with
  | Some (total0, system0, _), Some (total, system, online) =>
      let cpu_delta := (total - total0)%Z in
      let sys_delta := (system - system0)%Z in
      let online := if (online =? 0)%Z then 1%Z else online in
      if ((0 <? sys_delta) && (0 <? cpu_delta))%Z then
        ratio ← raising (true_div cpu_delta sys_delta);
        online ← raising (to_float (NInt online));
        mret (Some (round1 (mul (mul ratio online) (of_Z 100))))
      else mret (Some zero)
  | _, _ => mret None
  end.

Definition _mem (stats : json) : result exc (json * json) :=
  except (λ e, match e with KeyError | TypeError => true | _ => false end) (JNull, JNull) (
    mem ← item stats "memory_stats";
    usage ← get_or mem "usage" JNull;
    limit ← get_or mem "limit" JNull;
    match usage with
    | JNull => mret (JNull, limit)
    | _ =>
        sub ← get_or mem "stats" JNull;
        let sub := or sub (JObj []) in
        cache ← get_or sub "cache" (JNum (NInt 0));
        cache ← get_or sub "inactive_file" cache;
        u ← num_of usage;
        c ← num_of (or cache (JNum (NInt 0)));
        used ← raising (num_sub u c);
        mret (if nonneg used then JNum used else usage, limit)
    end).

(** [sum(...)] of the values read one by one; [None] is left out. *)
Fixpoint sum {A} (f : A → result exc (option json)) (acc : num) (l : list A) : result exc num :=
  match l with
  | [] => Ok acc
  | x :: l =>
      v ← f x;
      acc ← match v with Some v => n ← num_of v; raising (num_add acc n) | None => mret acc end;
      sum f acc l
  end.
Definition total_of (k : string) (l : list json) : result exc num :=
  sum (λ n, v ← get_or n k (JNum (NInt 0)); mret (Some v)) (NInt 0) l.

Definition values (j : json) : result exc (list json) :=
  match j with JObj d => Ok (snd <$> d) | _ => Raise AttributeError end.

Definition _net (stats : json) : result exc (json * json) :=
  nets ← get_or stats "networks" JNull;
  if negb (truthy nets) then mret (JNull, JNull)
  else except (λ e, match e with AttributeError | TypeError => true | _ => false end) (JNull, JNull) (
    l ← values nets;
    rx ← total_of "rx_bytes" l;
    tx ← total_of "tx_bytes" l;
    mret (JNum rx, JNum tx)).

(** Iterating a dict gives its keys and a string its characters. *)
Definition iterate (j : json) : result exc (list json) :=
  match j with
  | JArr l => Ok l
  | JObj d => Ok ((λ kv, JStr kv.1) <$> d)
  | JStr s => Ok ((λ c, JStr (String c "")) <$> list_ascii_of_string s)
  | _ => Raise TypeError
  end.
(** [str(op).lower() == word]; only a string can print as the word. *)
Definition is_op (word : string) (op : json) : bool :=
  match op with JStr s => bool_decide (lower s = word) | _ => false end.
Definition bytes_of (word : string) (l : list json) : result exc num :=
  sum (λ e, op ← get_or e "op" (JStr "");
            if is_op word op then v ← item e "value"; mret (Some v) else mret None) (NInt 0) l.

Definition _blk (stats : json) : result exc (json * json) :=
  blkio ← get_or stats "blkio_stats" JNull;
  entries ← get_or (or blkio (JObj [])) "io_service_bytes_recursive" JNull;
  if negb (truthy entries) then mret (JNull, JNull)
  else except (λ e, match e with KeyError | TypeError => true | _ => false end) (JNull, JNull) (
    l ← iterate entries;
    read ← bytes_of "read" l;
    write ← bytes_of "write" l;
    mret (JNum read, JNum write)).

(** ** One container *)
Record container : Type := Container {
  c_id : string;
  c_name : string;
  c_status : string;
  c_labels : list (string * string);
}.
Fixpoint label (k : string) (d : list (string * string)) : option string :=
  match d with [] => None | (k', v) :: d => if String.eqb k k' then Some v else label k d end.
Definition service_name (c : container) : string :=
  or_string (label "com.docker.compose.service" (c_labels c)) (c_name c).

Record metrics : Type := Metrics {
  m_cpu : option float;
  m_mem_used : json;
  m_mem_limit : json;
  m_net_rx : json;
  m_net_tx : json;
  m_blk_read : json;
  m_blk_write : json;
}.
Definition _null_metrics : metrics := Metrics None JNull JNull JNull JNull JNull JNull.

Record entry : Type := Entry { e_service : string; e_name : string; e_state : string; e_metrics : metrics }.
Definition entry_of (c : container) (m : metrics) : entry := Entry (service_name c) (c_name c) (c_status c) m.
Definition _timed_out_entry (c : container) : entry := entry_of c _null_metrics.

(** [_cpu_prev] and [_oneshot_supported] *)
Definition prev_sample : Type := sample * Z.
Record state : Type := State { _oneshot_supported : option bool; _cpu_prev : gmap string prev_sample }.
Notation T := (M state exc).

Definition _CPU_PREV_TTL_MS : Z := 30 * 1000.
Definition _prune_cpu_prev (now : Z) : T () :=
  modify (λ s, State (_oneshot_supported s) (filter (λ kv, (now - kv.2.2 ≤ _CPU_PREV_TTL_MS)%Z) (_cpu_prev s))).

Section docker.
(** The API version the client reports, and docker's answer about a container for the
    one-shot read or the blocking one: [None] is one of [_DOCKER_ERRORS]. *)
Context (api_version : option string) (stats : bool → string → result exc (option json)).

(** Tuples of integers are compared from the left. *)
Fixpoint tuple_ge (a b : list Z) : bool :=
  match a, b with
  | _, [] => true
  | [], _ => false
  | x :: a, y :: b => (y <? x)%Z || (x =? y)%Z && tuple_ge a b
  end.
Definition _ONESHOT_MIN_API : list Z := [1; 41]%Z.
Definition oneshot_of (ver : option string) : bool :=
  match ver with
  | None => false
  | Some ver =>
      match mapM py_int (take 2 (split "." ver)) with
      | Some parts => tuple_ge parts _ONESHOT_MIN_API
      | None => false
      end
  end.
Definition _api_supports_oneshot : T bool :=
  known ← gets _oneshot_supported;
  match known with
  | Some b => mret b
  | None => let b := oneshot_of api_version in modify (λ s, State (Some b) (_cpu_prev s));; mret b
  end.
Definition _read_stats (c : container) : T (option json) :=
  fast ← _api_supports_oneshot;
  lift (stats fast (c_id c)).

(** What is read of a snapshot, given the previous sample. *)
Definition measure (prev : option prev_sample) (raw : json) : result exc (option sample * option float) :=
  cur ← _cpu_sample raw;
  cpu ← _cpu_percent_from_prev (fst <$> prev) cur;
  mret (cur, cpu).
Definition gauges (cpu : option float) (raw : json) : result exc metrics :=
  '(used, limit) ← _mem raw;
  '(rx, tx) ← _net raw;
  '(read, write) ← _blk raw;
  mret (Metrics cpu used limit rx tx read write).

Definition _digest_container (c : container) (clock : Z) : T entry :=
  if negb (bool_decide (c_status c = "running")) then mret (entry_of c _null_metrics)
  else
    raw ← _read_stats c;
    match raw with
    | None => mret (entry_of c _null_metrics)
    | Some raw =>
        prev ← gets (λ s, _cpu_prev s !! c_id c);
        '(cur, cpu) ← lift (measure prev raw);
        match cur with
        | Some cur => modify (λ s, State (_oneshot_supported s) (<[c_id c := (cur, clock)]> (_cpu_prev s)))
        | None => mret ()
        end;;
        m ← lift (gauges cpu raw);
        mret (entry_of c m)
    end.

(** ** All containers *)

(** A future that is done before the deadline: its position and the clock of its read. *)
Definition run : Type := nat * Z.
Notation results := (gmap nat (result exc entry)).

Fixpoint run_all (cs : list container) (runs : list run) (done : results) : T results :=
  match runs with
  | [] => mret done
  | (i, clock) :: runs =>
      match cs !! i with
      | Some c => r ← attempt (_digest_container c clock); run_all cs runs (<[i := r]> done)
      | None => run_all cs runs done
      end
  end.

(** [fut.result()], or the entry of a future that is cancelled or still running. *)
Definition collect (done : results) (ic : nat * container) : result exc entry :=
  match done !! ic.1 with Some r => r | None => Ok (_timed_out_entry ic.2) end.

Definition _digest_all (cs : list container) (now : Z) (runs : list run) : T (list entry) :=
  match cs with
  | [] => mret []
  | _ =>
      _prune_cpu_prev now;;
      done ← run_all cs runs ∅;
      lift (mapR (collect done) (imap pair cs))
  end.

(** ** The digest is the serial one *)

(** The flag the reads will use, and the entry of one container by itself. *)
Definition flag (s : state) : bool := default (oneshot_of api_version) (_oneshot_supported s).
Definition alone (fast : bool) (prev : option prev_sample) (c : container) : result exc entry :=
  if negb (bool_decide (c_status c = "running")) then Ok (_timed_out_entry c)
  else
    raw ← stats fast (c_id c);
    match raw with
    | None => Ok (_timed_out_entry c)
    | Some raw => '(_, cpu) ← measure prev raw; m ← gauges cpu raw; mret (entry_of c m)
    end.

(** The sample a read leaves behind. *)
Definition sampled (fast : bool) (prev : option prev_sample) (c : container) : option sample :=
  if negb (bool_decide (c_status c = "running")) then None
  else match stats fast (c_id c) with
       | Ok (Some raw) => match measure prev raw with Ok (cur, _) => cur | Raise _ => None end
       | _ => None
       end.
Definition keep (prev : option prev_sample) (cur : option sample) (clock : Z) : option prev_sample :=
  match cur with Some cur => Some (cur, clock) | None => prev end.

Lemma read_stats_spec c s :
  ∃ s', _read_stats c s = (stats (flag s) (c_id c), s') ∧ flag s' = flag s ∧ _cpu_prev s' = _cpu_prev s.
Proof.
  unfold _read_stats, _api_supports_oneshot, flag, gets, lift, mbind, M_bind.
  destruct (_oneshot_supported s) as [b|] eqn:E; cbn.
  - exists s. by rewrite E.
  - by eexists.
Qed.

Lemma digest_spec c clock s :
  ∃ s', _digest_container c clock s = (alone (flag s) (_cpu_prev s !! c_id c) c, s') ∧ flag s' = flag s ∧
    _cpu_prev s' !! c_id c = keep (_cpu_prev s !! c_id c) (sampled (flag s) (_cpu_prev s !! c_id c) c) clock ∧
    ∀ k, k ≠ c_id c → _cpu_prev s' !! k = _cpu_prev s !! k.
Proof.
  unfold _digest_container, alone, sampled.
  destruct (negb (bool_decide (c_status c = "running"))); [by exists s|].
  destruct (read_stats_spec c s) as (s1 & E1 & Hf & Hp). unfold mbind, M_bind, gets, lift in *. rewrite E1.
  destruct (stats (flag s) (c_id c)) as [[raw|]|e]; cbn; [|exists s1; by rewrite Hp|exists s1; by rewrite Hp].
  rewrite Hp. destruct (measure (_cpu_prev s !! c_id c) raw) as [[cur cpu]|e]; cbn; [|exists s1; by rewrite Hp].
  destruct cur as [cur|]; cbn.
  - destruct (gauges cpu raw); eexists; (split; [done|]); (split; [done|]); cbn;
      (split; [by rewrite lookup_insert_eq|]); intros k Hk; by rewrite lookup_insert_ne, Hp.
  - destruct (gauges cpu raw); exists s1; by rewrite Hp.
Qed.

Lemma run_all_spec cs runs done s :
  NoDup (c_id <$> cs) → NoDup runs.*1 →
  ∃ done' s', run_all cs runs done s = (Ok done', s') ∧ flag s' = flag s ∧
    (∀ i c clock, (i, clock) ∈ runs → cs !! i = Some c →
       done' !! i = Some (alone (flag s) (_cpu_prev s !! c_id c) c) ∧
       _cpu_prev s' !! c_id c = keep (_cpu_prev s !! c_id c) (sampled (flag s) (_cpu_prev s !! c_id c) c) clock) ∧
    (∀ i, i ∉ runs.*1 → done' !! i = done !! i) ∧
    (∀ i c, i ∉ runs.*1 → cs !! i = Some c → _cpu_prev s' !! c_id c = _cpu_prev s !! c_id c).
Proof.
  intros Hcs. revert done s. induction runs as [|[i clock] runs IH]; intros done s Hruns.
  - exists done, s. split_and!; try done. by intros i c k H%not_elem_of_nil.
  - cbn in Hruns. apply NoDup_cons in Hruns as [Hi Hruns]. cbn [run_all].
    destruct (cs !! i) as [c|] eqn:Ec.
    2: { destruct (IH done s Hruns) as (d & s' & E & Hf & Hin & Hout & Hprev).
         exists d, s'. split_and!; [done|done| | |].
         - intros j c k. rewrite elem_of_cons. intros [[= -> ->]|H] Hj; [congruence|by eapply Hin].
         - intros j. cbn. rewrite not_elem_of_cons. intros [_ H]. by apply Hout.
         - intros j c. cbn. rewrite not_elem_of_cons. intros [_ H] Hj. by eapply Hprev. }
    destruct (digest_spec c clock s) as (s1 & E1 & Hf1 & Hown & Hothers).
    destruct (IH (<[i := alone (flag s) (_cpu_prev s !! c_id c) c]> done) s1 Hruns) as (d & s' & E & Hf & Hin & Hout & Hprev).
    assert (∀ j c', j ≠ i → cs !! j = Some c' → _cpu_prev s1 !! c_id c' = _cpu_prev s !! c_id c') as Hother.
    { intros j c' Hne Hj. apply Hothers. intros Heq. apply Hne.
      apply (NoDup_lookup (c_id <$> cs) j i (c_id c)); [done| |]; rewrite list_lookup_fmap; [by rewrite Hj, <-Heq|by rewrite Ec]. }
    exists d, s'. unfold attempt, mbind, M_bind. rewrite E1. split; [done|]. split; [congruence|]. split_and!.
    + intros j c' k. rewrite elem_of_cons. intros [[= -> ->]|H] Hj.
      * rewrite Ec in Hj. injection Hj as ->. rewrite Hout, lookup_insert_eq by done.
        by rewrite (Hprev _ _ Hi Ec), Hown.
      * assert (j ≠ i) as Hne by (intros ->; apply Hi; apply list_elem_of_fmap; by exists (i, k)).
        rewrite <-(Hother j c' Hne Hj), <-Hf1. by apply Hin.
    + intros j. cbn. rewrite not_elem_of_cons. intros [Hne H]. by rewrite Hout, lookup_insert_ne by done.
    + intros j c'. cbn. rewrite not_elem_of_cons. intros [Hne H] Hj.
      rewrite (Hprev j c' H Hj). by apply (Hother j).
Qed.
End docker.

(** ** The digest of an instance *)

(** The previous sample a digest at [now] still uses. *)
Definition fresh_prev (now : Z) (s : state) (c : container) : option prev_sample :=
  match _cpu_prev s !! c_id c with
  | Some p => if bool_decide (now - p.2 ≤ _CPU_PREV_TTL_MS)%Z then Some p else None
  | None => None
  end.

(** The serial digest: each container by itself, in the order of the enumeration. *)
Definition serial api_version stats (now : Z) (finished : list nat) (s : state) (cs : list container) :
    result exc (list entry) :=
  mapR (λ ic, if bool_decide (ic.1 ∈ finished)
              then alone stats (flag api_version s) (fresh_prev now s ic.2) ic.2
              else Ok (_timed_out_entry ic.2)) (imap pair cs).

Definition identity (e : entry) : string * string * string := (e_service e, e_name e, e_state e).

Lemma alone_identity stats fast prev c e :
  alone stats fast prev c = Ok e → identity e = identity (_timed_out_entry c).
Proof.
  unfold alone. destruct (negb _); [by intros [= <-]|].
  intros (raw & _ & H)%bindR_ok. destruct raw as [raw|]; [|by injection H as <-].
  apply bindR_ok in H as ([cur cpu] & _ & H). by apply bindR_ok in H as (m & _ & [= <-]).
Qed.

Lemma mapR_identity (f : nat * container → result exc entry) cs es n :
  (∀ ic e, f ic = Ok e → identity e = identity (_timed_out_entry ic.2)) →
  mapR f (imap (λ i c, (n + i, c)%nat) cs) = Ok es →
  identity <$> es = (λ c, identity (_timed_out_entry c)) <$> cs.
Proof.
  intros Hf. revert es n. induction cs as [|c cs IH]; intros es n; cbn [imap mapR]; [by intros [= <-]|].
  intros (e & He & H)%bindR_ok. apply bindR_ok in H as (es' & Hes & [= <-]). cbn.
  f_equal; [by apply (Hf _ _ He)|]. apply (IH es' (S n)). rewrite <-Hes. f_equal.
  apply imap_ext. intros i x _. cbn. by rewrite Nat.add_succ_r.
Qed.

Lemma mapR_ext_in {X A B} (f g : A → result X B) l :
  (∀ x, x ∈ l → f x = g x) → mapR f l = mapR g l.
Proof.
  induction l as [|x l IH]; intros H; cbn; [done|].
  rewrite (H x), IH by (try left; intros; apply H; by right). done.
Qed.

Lemma prune_fresh now s c s' :
  _prune_cpu_prev now s = (Ok tt, s') → _cpu_prev s' !! c_id c = fresh_prev now s c.
Proof.
  intros [= <-]. unfold fresh_prev. cbn. rewrite map_lookup_filter.
  destruct (_cpu_prev s !! c_id c) as [[p t]|]; [|done]. cbn. by case_guard; case_bool_decide.
Qed.

(** C36: the concurrent digest is the serial one.  Whichever reads finish before the deadline and in
    whatever order they run, the answer is the one of reading each finished container by itself in the
    order of the enumeration, with null metrics for the others: it depends on which finished, not on
    the order.  Each container is listed once under its own name and state, and the next digest finds
    exactly the samples of the finished reads and, where there was none, the unexpired ones of before. *)
Theorem digest_any_order api_version stats cs now runs s :
  NoDup (c_id <$> cs) → NoDup runs.*1 → cs ≠ [] →
  ∃ s', _digest_all api_version stats cs now runs s = (serial api_version stats now runs.*1 s cs, s') ∧
    (∀ es, serial api_version stats now runs.*1 s cs = Ok es →
       identity <$> es = (λ c, identity (_timed_out_entry c)) <$> cs) ∧
    ∀ i c, cs !! i = Some c →
      (i ∉ runs.*1 → _cpu_prev s' !! c_id c = fresh_prev now s c) ∧
      (∀ clock, (i, clock) ∈ runs →
         _cpu_prev s' !! c_id c =
           keep (fresh_prev now s c) (sampled stats (flag api_version s) (fresh_prev now s c) c) clock).
Proof.
  intros Hcs Hruns Hne. destruct (_prune_cpu_prev now s) as [r s0] eqn:E0.
  assert (r = Ok tt) as -> by (by injection E0 as <-).
  pose proof (λ c, prune_fresh now s c s0 E0) as Hfresh.
  assert (flag api_version s0 = flag api_version s) as Hflag by (by injection E0 as <-).
  destruct (run_all_spec api_version stats cs runs ∅ s0 Hcs Hruns) as (d & s' & E & Hf & Hin & Hout & Hprev).
  exists s'. split; [|split].
  - unfold _digest_all. destruct cs as [|c0 cs0]; [done|]. unfold mbind, M_bind in *. rewrite E0, E.
    unfold lift, serial. f_equal. apply mapR_ext_in. intros [i c] Hic. unfold collect. cbn.
    apply elem_of_lookup_imap in Hic as (j & c' & [= <- <-] & Hj).
    case_bool_decide as Hfin.
    + apply list_elem_of_fmap in Hfin as ([k clock] & -> & Hk). cbn in Hj |- *.
      destruct (Hin _ _ _ Hk Hj) as [-> _]. by rewrite Hfresh, Hflag.
    + by rewrite Hout, lookup_empty.
  - intros es. unfold serial. apply (mapR_identity _ _ _ 0). intros [i c] e. cbn.
    case_bool_decide; [apply alone_identity|by intros [= <-]].
  - intros i c Hi. split.
    + intros H. by rewrite (Hprev i c H Hi), Hfresh.
    + intros clock H. destruct (Hin i c clock H Hi) as [_ ->]. by rewrite Hfresh, Hflag.
Qed.

(** ** The cache in front *)
Section ttl.
(** A dict of the state, keyed by the instance: the time of the entry and its body. *)
Context {S B : Type} (cache : S → gmap string (Z * B)) (with_cache : gmap string (Z * B) → S → S).

Definition _ttl_get (key : string) (ttl now : Z) (produce : M S exc B) : M S exc B :=
  hit ← gets (λ s, cache s !! key);
  match hit with
  | Some (at_, body) =>
      if (now - at_ <? ttl)%Z then mret body
      else body ← produce; modify (λ s, with_cache (<[key := (now, body)]> (cache s)) s);; mret body
  | None => body ← produce; modify (λ s, with_cache (<[key := (now, body)]> (cache s)) s);; mret body
  end.

Context (cache_with : ∀ c s, cache (with_cache c s) = c).

(** Reads of one key at several times, and what they answer. *)
Definition polls (key : string) (ttl : Z) (produce : Z → M S exc B) : list Z → M S exc (list B) :=
  mapS (λ now, _ttl_get key ttl now (produce now)).

Lemma ttl_hit key ttl now produce s at_ body :
  cache s !! key = Some (at_, body) → (now - at_ < ttl)%Z → _ttl_get key ttl now produce s = (Ok body, s).
Proof. intros H Hn. unfold _ttl_get, gets, mbind, M_bind. by rewrite H, (proj2 (Z.ltb_lt _ _)). Qed.

(** Reads within the window of the first share its body, and only the first produces one. *)
Lemma polls_share key ttl produce now nows s body s' :
  cache s !! key = None → produce now s = (Ok body, s') →
  Forall (λ t, t - now < ttl)%Z nows →
  polls key ttl produce (now :: nows) s =
    (Ok (body :: ((λ _, body) <$> nows)), with_cache (<[key := (now, body)]> (cache s')) s').
Proof.
  intros Hs Hp Hn. unfold polls. cbn [mapS]. unfold mbind, M_bind at 1.
  unfold _ttl_get at 1, gets, modify, mbind, M_bind. rewrite Hs, Hp. cbn.
  set (s1 := with_cache _ s'). assert (cache s1 !! key = Some (now, body)) as H1.
  { unfold s1. by rewrite cache_with, lookup_insert_eq. }
  assert (mapS (λ t, _ttl_get key ttl t (produce t)) nows s1 = (Ok ((λ _, body) <$> nows), s1)) as ->; [|done].
  induction Hn as [|t nows Ht Hn IH]; [done|]. cbn [mapS]. unfold mbind, M_bind.
  by rewrite (ttl_hit key ttl t _ s1 now body H1 Ht), IH.
Qed.
End ttl.

(** ** An instance *)
Definition STATUS_IGNORE_LABEL : string := "com.greffon.status".
Definition STATUS_IGNORE_VALUE : string := "ignore".

Record body : Type := Body { instance_id : string; captured_at : string; containers : list entry }.

Record world : Type := World {
  w_obs : state;
  w_limits : Limits.state;
  _stats_cache : gmap string (Z * option body);
}.
Definition on_obs {A} (m : T A) : M world exc A :=
  λ w, let '(r, s) := m (w_obs w) in (r, World s (w_limits w) (_stats_cache w)).
Definition on_limits {A} (m : M Limits.state PyFloat.exc A) : M world exc A :=
  λ w, let '(r, s) := m (w_limits w) in (raising r, World (w_obs w) s (_stats_cache w)).

Record node : Type := Node {
  greffon_path : string;                                     (** [GREFFON_PATH], or /data *)
  getenv : string → option string;
  isfile : string → bool;
  docker_list : string → result exc (list container);        (** containers, stopped ones too, of a label filter *)
  docker_version : option string;
  docker_stats : bool → string → result exc (option json);
  finishing : list container → list run;                     (** the reads done before the deadline *)
  _now_iso : string;
}.

Section instance.
Context (N : node).

Definition instance_data_dir (id : string) : string := path_join (greffon_path N) id.
Definition instance_is_deployed (id : string) : bool := isfile N (path_join (instance_data_dir id) "docker-compose.yml").

Definition shown (c : container) : bool :=
  match label STATUS_IGNORE_LABEL (c_labels c) with
  | Some v => negb (String.eqb v STATUS_IGNORE_VALUE)
  | None => true
  end.
Definition list_instance_containers (id : string) : result exc (list container) :=
  cs ← docker_list N ("com.docker.compose.project=" +:+ id);
  mret (List.filter shown cs).

(** What [check_limits_observed] reads of an entry: numbers only. *)
Definition number (j : json) : option num :=
  match j with JNum n => Some n | JBool b => Some (NInt (if b then 1 else 0)) | _ => None end.
Definition observed_of (e : entry) : observed :=
  Observed (Some (e_service e)) (Some (e_name e)) (number (m_mem_used (e_metrics e)))
           (NFloat <$> m_cpu (e_metrics e)).

Definition instance_stats (id : string) (now : Z) : M world exc (option body) :=
  if negb (instance_is_deployed id) then mret None
  else
    cs ← lift (list_instance_containers id);
    digest ← on_obs (_digest_all (docker_version N) (docker_stats N) cs now (finishing N cs));
    _ ← attempt (on_limits (check_limits_observed (getenv N) id (observed_of <$> digest) None now));
    mret (Some (Body id (_now_iso N) digest)).

Definition _STATS_TTL_MS : Z := 3 * 1000.
Definition cached_instance_stats (id : string) (now : Z) : M world exc (option body) :=
  _ttl_get _stats_cache (λ c w, World (w_obs w) (w_limits w) c) id _STATS_TTL_MS now (instance_stats id now).

(** [greffon_stats]: [None] is the 404 [missing_on_greffer]. *)
Definition greffon_stats (id : string) (now : Z) : M world exc (result Z body) :=
  b ← cached_instance_stats id now;
  mret (match b with Some b => Ok b | None => Raise 404%Z end).
End instance.

Module Demo.
Definition obj (l : list (string * json)) : json := JObj l.
Definition int (z : Z) : json := JNum (NInt z).
Definition snapshot (total system : Z) : json :=
  obj [("cpu_stats", obj [("cpu_usage", obj [("total_usage", int total)]); ("system_cpu_usage", int system); ("online_cpus", int 4)]);
       ("memory_stats", obj [("usage", int 3000); ("limit", int 9000); ("stats", obj [("inactive_file", int 1000)])]);
       ("networks", obj [("eth0", obj [("rx_bytes", int 7); ("tx_bytes", int 1)]); ("eth1", obj [("rx_bytes", int 5)])]);
       ("blkio_stats", obj [("io_service_bytes_recursive", JNull)])].
Definition web : container := Container "a1" "i1-web-1" "running" [("com.docker.compose.service", "web")].
Definition db : container := Container "b2" "i1-db-1" "running" [].
Definition job : container := Container "c3" "i1-job-1" "exited" [].
Definition init : container := Container "d4" "i1-init-1" "exited" [("com.greffon.status", "ignore")].
Definition stats (fast : bool) (id : string) : result exc (option json) := Ok (Some (snapshot 1150 5000)).
Definition s0 : state := State None (<["a1" := ((1000, 4000, 4)%Z, 500%Z)]> ∅).
Definition node1 : node :=
  Node "/data" (λ _, None) (String.eqb "/data/i1/docker-compose.yml") (λ _, Ok [web; db; job; init]) (Some "1.41") stats
       (λ _, [(2%nat, 1000%Z); (0%nat, 1100%Z)]) "now".

(** 150 of 1000 on four processors. *)
Example digest_ok :
  (_digest_all (Some "1.41") stats [web; db; job] 1000 [(2%nat, 1000%Z); (0%nat, 1100%Z)] s0).1 =
  Ok [Entry "web" "i1-web-1" "running"
        (Metrics (Some (of_Z 60)) (int 2000) (int 9000) (int 12) (int 1) JNull JNull);
      _timed_out_entry db; _timed_out_entry job].
Proof. vm_compute. reflexivity. Qed.

Example stats_ok :
  let w := World s0 boot ∅ in
  (∃ es, (greffon_stats node1 "i1" 1000 w).1 = Ok (Ok (Body "i1" "now" es)) ∧ length es = 3%nat) ∧
  (greffon_stats node1 "i2" 1000 w).1 = Ok (Raise 404%Z).
Proof. split; [eexists; split|]; vm_compute; reflexivity. Qed.

(** A snapshot without the sub-object is null metrics; one that holds null for it is an exception. *)
Example mem_null : _mem (obj []) = Ok (JNull, JNull) ∧ _mem (obj [("memory_stats", JNull)]) = Raise AttributeError.
Proof. split; reflexivity. Qed.
End Demo.

Lemma digest_any_order_witness :
  (∃ s', _digest_all (Some "1.41") Demo.stats [Demo.web; Demo.db; Demo.job] 1000 [(2%nat, 1000%Z); (0%nat, 1100%Z)] Demo.s0 =
    (serial (Some "1.41") Demo.stats 1000 [2; 0]%nat Demo.s0 [Demo.web; Demo.db; Demo.job], s')) ∧
  NoDup (c_id <$> [Demo.web; Demo.db; Demo.job]).
Proof.
  assert (NoDup (c_id <$> [Demo.web; Demo.db; Demo.job])) as Hnd.
  { change (NoDup ["a1"; "b2"; "c3"]). apply (bool_decide_unpack _). vm_compute. exact I. }
  split; [|exact Hnd].
  destruct (digest_any_order (Some "1.41") Demo.stats [Demo.web; Demo.db; Demo.job] 1000
              [(2%nat, 1000%Z); (0%nat, 1100%Z)] Demo.s0 Hnd) as (s' & E & _).
  - change (NoDup [2; 0]%nat). apply (bool_decide_unpack _). vm_compute. exact I.
  - discriminate.
  - exists s'. exact E.
Defined.
