(* ===== verification/DiskUsage.v ===== *)
(** [apps/utils/docker/observe.py], the disk usage of an instance.  [Df]: the one
    host-wide [df] shared by all instances, double-checked under a lock, as the steps
    of the threads that ask for it; the slice of it that belongs to one instance; the
    bytes of its directory; the cache and the endpoint.

    Clocks are in milliseconds.  Docker's volume list, the walk over the directory
    and [lstat] are arguments. *)
From Stdlib Require Import ZArith Lia Ascii String.
From stdpp Require Import sorting.
From S2P Require Import Prelude PyValue PyFloat Observe.
Import Text.
Local Open Scope string_scope.

Notation snapshot := (gmap string (option Z)).

(** ** The shared snapshot *)

(** A volume of docker's answer: [UsageData] and its [Size] may be missing. *)
Record volume : Type := Volume { v_name : option string; v_size : option json }.

Definition size_of (size : option json) : option Z :=
  match size with
  | Some (JNum (NInt z)) => if (0 <=? z)%Z then Some z else None
  | Some (JBool b) => Some (if b then 1 else 0)%Z
  | _ => None
  end.
Definition add_volume (volumes : snapshot) (vol : volume) : snapshot :=
  match v_name vol with
  | None | Some "" => volumes
  | Some name => <[name := size_of (v_size vol)]> volumes
  end.
Definition volumes_of (df : option (list volume)) : snapshot := foldl add_volume ∅ (default [] df).

Module Df.

Definition _DF_TTL_MS : Z := 60 * 1000.

(** Where a thread is in [_host_volumes_snapshot]. *)
Inductive pc : Type :=
  | Timed (now : Z)                               (** read the clock *)
  | Looked (now : Z) (cached : option snapshot)   (** and then the volumes *)
  | Waiting                                       (** for [_df_lock] *)
  | Locked
  | Retimed (now : Z)                             (** read the clock under the lock *)
  | Walking                                       (** in [client.df()] *)
  | Storing (volumes : snapshot)
  | Stored (volumes : snapshot)                   (** the volumes are assigned, the time is not *)
  | Answered (volumes : snapshot)
  | Raised.

Inductive event : Type :=
  | WalkStart (at_ : Z)
  | WalkEnd (at_ : Z) (volumes : snapshot)
  | WalkFail (at_ : Z)
  | Stamp (at_ : Z).

Record st : Type := St {
  clock : Z;
  lock : option nat;
  c_volumes : option snapshot;
  c_at : Z;
  pcs : gmap nat pc;
  log : list event;         (** newest first *)
}.
Definition init (now : Z) : st := St now None None 0 ∅ [].

Definition set_pc (t : nat) (p : pc) (s : st) : st := St (clock s) (lock s) (c_volumes s) (c_at s) (<[t := p]> (pcs s)) (log s).
Definition set_lock (l : option nat) (s : st) : st := St (clock s) l (c_volumes s) (c_at s) (pcs s) (log s).
Definition emit (e : event) (s : st) : st := St (clock s) (lock s) (c_volumes s) (c_at s) (pcs s) (e :: log s).
Definition fresh (now : Z) (at_ : Z) : bool := (now - at_ <? _DF_TTL_MS)%Z.

(** What may happen next: time passes, a thread calls, or a thread takes its next step, with
    docker's answer when that step is the end of a walk. *)
Inductive label : Type :=
  | Tick (d : Z)
  | Call (t : nat)
  | Run (t : nat) (df : option (option (list volume))).

Definition run_thread (t : nat) (df : option (option (list volume))) (p : pc) (s : st) : option st :=
  match p with
  | Timed now => Some (set_pc t (Looked now (c_volumes s)) s)
  | Looked now cached =>
      match cached with
      | Some v => if fresh now (c_at s) then Some (set_pc t (Answered v) s) else Some (set_pc t Waiting s)
      | None => Some (set_pc t Waiting s)
      end
  | Waiting => match lock s with None => Some (set_pc t Locked (set_lock (Some t) s)) | Some _ => None end
  | Locked => Some (set_pc t (Retimed (clock s)) s)
  | Retimed now =>
      match c_volumes s with
      | Some v =>
          if fresh now (c_at s) then Some (set_pc t (Answered v) (set_lock None s))
          else Some (emit (WalkStart (clock s)) (set_pc t Walking s))
      | None => Some (emit (WalkStart (clock s)) (set_pc t Walking s))
      end
  | Walking =>
      match df with
      | Some df => Some (emit (WalkEnd (clock s) (volumes_of df)) (set_pc t (Storing (volumes_of df)) s))
      | None => Some (emit (WalkFail (clock s)) (set_pc t Raised (set_lock None s)))
      end
  | Storing v => Some (set_pc t (Stored v) (St (clock s) (lock s) (Some v) (c_at s) (pcs s) (log s)))
  | Stored v =>
      Some (emit (Stamp (clock s)) (set_pc t (Answered v)
        (St (clock s) None (c_volumes s) (clock s) (pcs s) (log s))))
  | Answered _ | Raised => None
  end.

Definition step (l : label) (s : st) : option st :=
  match l with
  | Tick d => if (0 <=? d)%Z then Some (St (clock s + d) (lock s) (c_volumes s) (c_at s) (pcs s) (log s)) else None
  | Call t => match pcs s !! t with None => Some (set_pc t (Timed (clock s)) s) | Some _ => None end
  | Run t df => p ← pcs s !! t; run_thread t df p s
  end.

Fixpoint exec (ls : list label) (s : st) : option st :=
  match ls with [] => Some s | l :: ls => s ← step l s; exec ls s end.

(** ** At most one walk *)
Definition critical (p : pc) : bool :=
  match p with Locked | Retimed _ | Walking | Storing _ | Stored _ => true | _ => false end.
Definition event_time (e : event) : Z :=
  match e with WalkStart t | WalkEnd t _ | WalkFail t | Stamp t => t end.

(** A walk starts a minute after the last stored one, and when no other is open. *)
Fixpoint open_walk (log : list event) : bool :=
  match log with
  | WalkStart _ :: _ => true
  | (WalkEnd _ _ | WalkFail _) :: _ => false
  | Stamp _ :: log => open_walk log
  | [] => false
  end.
Fixpoint spaced (log : list event) : Prop :=
  match log with
  | [] => True
  | WalkStart t :: log => open_walk log = false ∧ (∀ t', Stamp t' ∈ log → _DF_TTL_MS ≤ t - t')%Z ∧ spaced log
  | _ :: log => spaced log
  end.
Definition walked (v : snapshot) (log : list event) : Prop := ∃ t, WalkEnd t v ∈ log.

Record inv (s : st) : Prop := {
  i_lock t : (∃ p, pcs s !! t = Some p ∧ critical p = true) ↔ lock s = Some t;
  i_time e : e ∈ log s → (event_time e ≤ clock s)%Z;
  i_retimed t now : pcs s !! t = Some (Retimed now) → (now ≤ clock s)%Z;
  i_stamps t : Stamp t ∈ log s → is_Some (c_volumes s) ∧ (t ≤ c_at s)%Z;
  i_open : open_walk (log s) = true ↔ ∃ t, pcs s !! t = Some Walking;
  i_spaced : spaced (log s);
  i_vols v : c_volumes s = Some v → walked v (log s);
  i_stored t v : pcs s !! t = Some (Stored v) → is_Some (c_volumes s);
  i_held t p : pcs s !! t = Some p →
    match p with Looked _ (Some v) | Storing v | Stored v | Answered v => walked v (log s) | _ => True end;
}.

Definition held (log : list event) (p : pc) : Prop :=
  match p with Looked _ (Some v) | Storing v | Stored v | Answered v => walked v log | _ => True end.
Definition next_lock (s : st) (t : nat) (p' : pc) : option nat :=
  if critical p' then Some t else if decide (lock s = Some t) then None else lock s.

Lemma walked_mono v log log' : log ⊆ log' → walked v log → walked v log'.
Proof. intros H (t & Ht). exists t. by apply H. Qed.

Lemma held_mono log log' p : log ⊆ log' → held log p → held log' p.
Proof. intros H. destruct p as [?|? [v|]| | |?| |v|v|v|]; cbn; try done; by apply walked_mono. Qed.

Lemma lock_move s t p' :
  inv s → (critical p' = true → lock s = None ∨ lock s = Some t) →
  ∀ t', (∃ p, <[t := p']> (pcs s) !! t' = Some p ∧ critical p = true) ↔ next_lock s t p' = Some t'.
Proof.
  intros I Hc t'. unfold next_lock. destruct (decide (t = t')) as [<-|Hne].
  - rewrite lookup_insert_eq. destruct (critical p') eqn:E; [split; [done|intros _; by exists p']|].
    split; [intros (p & [= <-] & H); congruence|]. case_decide; congruence.
  - rewrite lookup_insert_ne by done. rewrite (i_lock s I t').
    destruct (critical p') eqn:E; [destruct (Hc eq_refl) as [-> | ->]; naive_solver|].
    case_decide; naive_solver.
Qed.

Lemma walking_move s t p' :
  (∃ t', <[t := p']> (pcs s) !! t' = Some Walking) ↔ p' = Walking ∨ ∃ t', t' ≠ t ∧ pcs s !! t' = Some Walking.
Proof.
  split.
  - intros (t' & H). destruct (decide (t = t')) as [<-|Hne].
    + rewrite lookup_insert_eq in H. left. congruence.
    + rewrite lookup_insert_ne in H by done. right. by exists t'.
  - intros [-> |(t' & Hne & H)]; [exists t; by rewrite lookup_insert_eq|].
    exists t'. by rewrite lookup_insert_ne.
Qed.

(** One thread moves; the rest of the state changes with it. *)
Lemma inv_move s t p' log' vols' at' :
  inv s → (critical p' = true → lock s = None ∨ lock s = Some t) →
  log s ⊆ log' → (∀ e, e ∈ log' → e ∈ log s ∨ event_time e = clock s) →
  (∀ now, p' = Retimed now → (now ≤ clock s)%Z) →
  (∀ u, Stamp u ∈ log' → is_Some vols' ∧ (u ≤ at')%Z) →
  (open_walk log' = true ↔ p' = Walking ∨ ∃ t', t' ≠ t ∧ pcs s !! t' = Some Walking) →
  spaced log' → (∀ v, vols' = Some v → walked v log') → held log' p' →
  (is_Some (c_volumes s) ∨ (∃ v, p' = Stored v) → is_Some vols') →
  inv (St (clock s) (next_lock s t p') vols' at' (<[t := p']> (pcs s)) log').
Proof.
  intros I Hc Hsub Hnew Hre Hst Hop Hsp Hv Hh Hsome. split; cbn; try done.
  - by apply lock_move.
  - intros e He. destruct (Hnew e He) as [H| ->]; [by apply (i_time s I)|done].
  - intros t' now. destruct (decide (t = t')) as [<-|Hne].
    + rewrite lookup_insert_eq. intros [= ->]. by apply Hre.
    + rewrite lookup_insert_ne by done. apply (i_retimed s I).
  - by rewrite walking_move.
  - intros t' v. destruct (decide (t = t')) as [<-|Hne].
    + rewrite lookup_insert_eq. intros [= ->]. apply Hsome. right. by exists v.
    + rewrite lookup_insert_ne by done. intros H. apply Hsome. left. by apply (i_stored s I t' v).
  - intros t' p. destruct (decide (t = t')) as [<-|Hne].
    + rewrite lookup_insert_eq. intros [= <-]. exact Hh.
    + rewrite lookup_insert_ne by done. intros H. apply (i_held s I) in H. by eapply (held_mono (log s)).
Qed.

(** Only the thread that holds the lock can be walking. *)
Lemma walking_owner s t t' : inv s → lock s = None ∨ lock s = Some t → pcs s !! t' = Some Walking → t' = t.
Proof.
  intros I Hl H. assert (lock s = Some t') as E by (apply (i_lock s I); by exists Walking).
  destruct Hl; congruence.
Qed.

Lemma quiet_walking s t p p' :
  inv s → pcs s !! t = p → p ≠ Some Walking → p' ≠ Walking →
  open_walk (log s) = true ↔ p' = Walking ∨ ∃ t', t' ≠ t ∧ pcs s !! t' = Some Walking.
Proof.
  intros I Hp Hw Hw'. rewrite (i_open s I). split; [|naive_solver].
  intros (t' & H). right. exists t'. split; [|done]. intros ->. congruence.
Qed.

(** A move that neither logs nor stores. *)
Lemma inv_quiet s t p p' :
  inv s → pcs s !! t = p → p ≠ Some Walking → p' ≠ Walking →
  (critical p' = true → lock s = None ∨ lock s = Some t) →
  (∀ now, p' = Retimed now → (now ≤ clock s)%Z) → held (log s) p' → (∀ v, p' ≠ Stored v) →
  inv (St (clock s) (next_lock s t p') (c_volumes s) (c_at s) (<[t := p']> (pcs s)) (log s)).
Proof.
  intros I Hp Hw Hw' Hc Hre Hh Hns. apply inv_move; try done.
  - intros e H. by left.
  - apply (i_stamps s I).
  - by eapply quiet_walking.
  - apply (i_spaced s I).
  - apply (i_vols s I).
  - intros [H|(v & E)]; [done|by destruct (Hns v)].
Qed.

Lemma init_inv now : inv (init now).
Proof.
  assert (∀ t p, pcs (init now) !! t = Some p → False) as Hn by (intros t p H; cbn in H; by rewrite lookup_empty in H).
  assert (∀ e, e ∈ log (init now) → False) as Hl by (intros e H; by apply not_elem_of_nil in H).
  split; intros.
  - split; [intros (p & H & _); by apply Hn in H|done].
  - by destruct (Hl e).
  - by destruct (Hn t (Retimed now0)).
  - by destruct (Hl (Stamp t)).
  - split; [done|]. intros (t & H). by apply Hn in H.
  - done.
  - done.
  - by destruct (Hn t (Stored v)).
  - by destruct (Hn t p).
Qed.

Lemma tick_inv d s :
  (0 ≤ d)%Z → inv s → inv (St (clock s + d) (lock s) (c_volumes s) (c_at s) (pcs s) (log s)).
Proof.
  intros Hd []. split; cbn; try done.
  - intros e He. specialize (i_time0 e He). lia.
  - intros t now H. specialize (i_retimed0 t now H). lia.
Qed.

(** [next_lock] is the lock the code leaves, whatever the thread does. *)
Lemma next_lock_keep s t p p' :
  inv s → pcs s !! t = Some p → critical p = critical p' → next_lock s t p' = lock s.
Proof.
  intros I Hp E. unfold next_lock. rewrite <-E. pose proof (i_lock s I t) as Hl.
  destruct (critical p) eqn:Ec; [symmetry; apply Hl; by exists p|].
  case_decide as H; [|done]. apply Hl in H as (q & Hq & Hc). congruence.
Qed.

Lemma next_lock_release s t p p' :
  inv s → pcs s !! t = Some p → critical p = true → critical p' = false → next_lock s t p' = None.
Proof.
  intros I Hp Ec Ec'. unfold next_lock. rewrite Ec'. rewrite decide_True; [done|].
  apply (i_lock s I). by exists p.
Qed.

Lemma owner s t p : inv s → pcs s !! t = Some p → critical p = true → lock s = Some t.
Proof. intros I Hp Hc. apply (i_lock s I). by exists p. Qed.

Lemma walk_start_inv s t now :
  inv s → pcs s !! t = Some (Retimed now) → (∀ v, c_volumes s = Some v → fresh now (c_at s) = false) →
  inv (St (clock s) (lock s) (c_volumes s) (c_at s) (<[t := Walking]> (pcs s)) (WalkStart (clock s) :: log s)).
Proof.
  intros I Hp Hold. pose proof (owner s t _ I Hp eq_refl) as Hl.
  rewrite <-(next_lock_keep s t _ Walking I Hp eq_refl). apply inv_move; try done.
  - by right.
  - by apply list_subseteq_cons.
  - intros e. rewrite elem_of_cons. intros [-> |H]; [by right|by left].
  - intros u. rewrite elem_of_cons. intros [H|H]; [done|by apply (i_stamps s I)].
  - split; [by left|done].
  - split; [|split; [|apply (i_spaced s I)]].
    + destruct (open_walk (log s)) eqn:E; [|done]. apply (i_open s I) in E as (t' & Ht').
      rewrite (walking_owner s t t' I) in Ht' by (done || by right). congruence.
    + intros u Hu. destruct (i_stamps s I u Hu) as [[v Hv] Hle]. specialize (Hold v Hv).
      unfold fresh in Hold. apply Z.ltb_ge in Hold. pose proof (i_retimed s I t now Hp). lia.
  - intros v Hv. eapply walked_mono, (i_vols s I), Hv. by apply list_subseteq_cons.
  - by intros [H|(v & E)].
Qed.

Lemma walk_over_inv s t e p' :
  inv s → pcs s !! t = Some Walking → event_time e = clock s → p' ≠ Walking → (∀ now, p' ≠ Retimed now) → (∀ v, p' ≠ Stored v) →
  match e with WalkEnd _ _ | WalkFail _ => True | _ => False end → held (e :: log s) p' →
  inv (St (clock s) (next_lock s t p') (c_volumes s) (c_at s) (<[t := p']> (pcs s)) (e :: log s)).
Proof.
  intros I Hp He Hw Hre Hns Hk Hh. pose proof (owner s t _ I Hp eq_refl) as Hl.
  apply inv_move; try done.
  - by right.
  - by apply list_subseteq_cons.
  - intros e'. rewrite elem_of_cons. intros [-> |H]; [by right|by left].
  - intros now E. by destruct (Hre now).
  - intros u. rewrite elem_of_cons. intros [<- |H]; [done|by apply (i_stamps s I)].
  - split; [by destruct e|]. intros [?|(t' & Hne & H)]; [done|].
    destruct Hne. apply (walking_owner s t t' I); [by right|done].
  - destruct e; try done; apply (i_spaced s I).
  - intros v Hv. eapply walked_mono, (i_vols s I), Hv. by apply list_subseteq_cons.
  - intros [H|(v & E)]; [done|by destruct (Hns v)].
Qed.

Lemma store_inv s t v :
  inv s → pcs s !! t = Some (Storing v) →
  inv (St (clock s) (lock s) (Some v) (c_at s) (<[t := Stored v]> (pcs s)) (log s)).
Proof.
  intros I Hp. pose proof (owner s t _ I Hp eq_refl) as Hl. pose proof (i_held s I t _ Hp) as Hv.
  rewrite <-(next_lock_keep s t _ (Stored v) I Hp eq_refl). apply inv_move; try done.
  - by right.
  - intros e H. by left.
  - intros u Hu. split; [done|]. by apply (i_stamps s I).
  - by eapply quiet_walking.
  - apply (i_spaced s I).
  - intros w [= <-]. exact Hv.
Qed.

Lemma stamp_inv s t v :
  inv s → pcs s !! t = Some (Stored v) →
  inv (St (clock s) None (c_volumes s) (clock s) (<[t := Answered v]> (pcs s)) (Stamp (clock s) :: log s)).
Proof.
  intros I Hp. pose proof (i_held s I t _ Hp) as Hw. pose proof (i_stored s I t v Hp) as Hv.
  rewrite <-(next_lock_release s t _ (Answered v) I Hp eq_refl eq_refl). apply inv_move; try done.
  - by apply list_subseteq_cons.
  - intros e. rewrite elem_of_cons. intros [-> |H]; [by right|by left].
  - intros u. rewrite elem_of_cons. intros [[= ->]|H]; split; try done. apply (i_time s I _ H).
  - by eapply quiet_walking.
  - apply (i_spaced s I).
  - intros w H. eapply walked_mono, (i_vols s I), H. by apply list_subseteq_cons.
  - eapply walked_mono, Hw. by apply list_subseteq_cons.
Qed.

(** The lock after a move of [inv_quiet], in the form the code has it. *)
Lemma quiet_keep s t p p' :
  inv s → pcs s !! t = Some p → p ≠ Walking → p' ≠ Walking → critical p = critical p' →
  (∀ now, p' = Retimed now → (now ≤ clock s)%Z) → held (log s) p' → (∀ v, p' ≠ Stored v) →
  inv (set_pc t p' s).
Proof.
  intros I Hp Hw Hw' Hc Hre Hh Hns. unfold set_pc.
  rewrite <-(next_lock_keep s t p p' I Hp Hc) at 1. eapply inv_quiet; try done; [congruence|].
  intros Hc'. right. eapply owner; [done|done|congruence].
Qed.

Lemma run_thread_inv t df p s s' :
  inv s → pcs s !! t = Some p → run_thread t df p s = Some s' → inv s'.
Proof.
  intros I Hp H. pose proof (i_held s I t p Hp) as Hh.
  destruct p as [now|now [v|]| | |now| |v|v|v|]; cbn in H.
  - injection H as <-. eapply quiet_keep; try done. cbn. destruct (c_volumes s) as [w|] eqn:E; [|done].
    by apply (i_vols s I).
  - destruct (fresh now (c_at s)); injection H as <-; by eapply quiet_keep.
  - injection H as <-. by eapply quiet_keep.
  - destruct (lock s) as [u|] eqn:El; [done|]. injection H as <-.
    assert (next_lock s t Locked = Some t) as En by done. unfold set_pc, set_lock. cbn. rewrite <-En.
    eapply inv_quiet; try done. by left.
  - injection H as <-. eapply quiet_keep; try done. by intros now [= ->].
  - destruct (c_volumes s) as [v|] eqn:Ev.
    + destruct (fresh now (c_at s)) eqn:Ef; injection H as <-.
      * unfold set_pc, set_lock. cbn. rewrite <-(next_lock_release s t _ (Answered v) I Hp eq_refl eq_refl).
        eapply inv_quiet; try done. by apply (i_vols s I).
      * apply (walk_start_inv s t now I Hp). intros w Hw. congruence.
    + injection H as <-. apply (walk_start_inv s t now I Hp). intros w Hw. congruence.
  - destruct df as [df|]; injection H as <-.
    + unfold emit, set_pc. cbn. pose proof (walk_over_inv s t (WalkEnd (clock s) (volumes_of df)) (Storing (volumes_of df)) I Hp) as Hx.
      rewrite (next_lock_keep s t _ (Storing (volumes_of df)) I Hp eq_refl) in Hx. apply Hx; try done.
      exists (clock s). by left.
    + unfold emit, set_pc, set_lock. cbn.
      rewrite <-(next_lock_release s t _ Raised I Hp eq_refl eq_refl). by apply walk_over_inv.
  - injection H as <-. exact (store_inv s t v I Hp).
  - injection H as <-. exact (stamp_inv s t v I Hp).
  - done.
  - done.
Qed.

Lemma step_inv l s s' : inv s → step l s = Some s' → inv s'.
Proof.
  intros I. destruct l as [d|t|t df]; cbn.
  - destruct (Z.leb_spec 0 d); [|done]. intros [= <-]. by apply tick_inv.
  - destruct (pcs s !! t) eqn:E; [done|]. intros [= <-]. unfold set_pc.
    assert (next_lock s t (Timed (clock s)) = lock s) as En.
    { unfold next_lock. cbn. case_decide as H; [|done]. apply (i_lock s I) in H as (p & Hp & _). congruence. }
    rewrite <-En at 1. by eapply inv_quiet.
  - destruct (pcs s !! t) as [p|] eqn:E; [|done]. cbn. by apply run_thread_inv.
Qed.

Lemma exec_inv ls s s' : inv s → exec ls s = Some s' → inv s'.
Proof.
  revert s. induction ls as [|l ls IH]; intros s I; cbn; [by intros [= <-]|].
  destruct (step l s) as [s1|] eqn:E; [|done]. cbn. apply IH. by eapply step_inv.
Qed.

(** C37: a burst of readers walks the host once.  Under every schedule of the threads that ask for the
    disk usage, and whatever docker answers or raises, no two walks over the volumes of the host run at
    the same time, a walk starts at least a minute after the last one that was stored, and every answer
    is the whole result of one walk. *)
Theorem one_walk_at_a_time now ls s :
  exec ls (init now) = Some s →
  (∀ t1 t2, pcs s !! t1 = Some Walking → pcs s !! t2 = Some Walking → t1 = t2) ∧
  spaced (log s) ∧
  ∀ t v, pcs s !! t = Some (Answered v) → walked v (log s).
Proof.
  intros H. apply exec_inv in H as I; [|apply init_inv]. split; [|split].
  - intros t1 t2 H1 H2. pose proof (owner s t1 _ I H1 eq_refl). pose proof (owner s t2 _ I H2 eq_refl). congruence.
  - apply I.
  - intros t v Ht. by apply (i_held s I) in Ht.
Qed.

(** Two threads ask together: one walks, the other is answered from its result. *)
Definition d1 : option (list volume) := Some [Volume (Some "a_x") (Some (JNum (NInt 5))); Volume (Some "b_y") (Some (JNum (NInt (-1))))].
Definition d2 : option (list volume) := Some [Volume (Some "a_x") (Some (JNum (NInt 9)))].
Definition go (t : nat) : label := Run t None.
Definition burst : list label :=
  [Call 0; Call 1; go 0; go 1; go 0; go 1; go 0; go 0; go 0; Tick 100; Run 0 (Some d1); go 0; go 0; go 1; go 1; go 1].

Example burst_ok :
  (λ s, (pcs s !! 0%nat, pcs s !! 1%nat, log s)) <$> exec burst (init 7) =
  Some (Some (Answered (volumes_of d1)), Some (Answered (volumes_of d1)),
        [Stamp 107; WalkEnd 107 (volumes_of d1); WalkStart 7])%Z.
Proof. vm_compute. reflexivity. Qed.

(** A thread that reads the old volumes just before they are replaced, and their time just after,
    takes them for new: here they are two minutes old. *)
Definition stale : list label :=
  [Call 0; go 0; go 0; go 0; go 0; go 0; Run 0 (Some d1); go 0; go 0; Tick 120000;
   Call 1; go 1; go 1; go 1; go 1; go 1; Run 1 (Some d2); Call 2; go 2; go 1; go 1; go 2].
Example stale_ok :
  (λ s, (pcs s !! 2%nat, c_volumes s, log s)) <$> exec stale (init 7) =
  Some (Some (Answered (volumes_of d1)), Some (volumes_of d2),
        [Stamp 120007; WalkEnd 120007 (volumes_of d2); WalkStart 120007;
         Stamp 7; WalkEnd 7 (volumes_of d1); WalkStart 7])%Z.
Proof. vm_compute. reflexivity. Qed.
End Df.

Lemma one_walk_at_a_time_witness :
  ∃ s, Df.exec Df.stale (Df.init 7) = Some s ∧ Df.spaced (Df.log s).
Proof.
  destruct (Df.exec Df.stale (Df.init 7)) as [s|] eqn:E.
  - exists s. split; [reflexivity|]. apply (Df.one_walk_at_a_time 7 Df.stale s E).
  - vm_compute in E. discriminate E.
Defined.

(** ** The slice of one instance *)
Record usage : Type := Usage {
  u_instance : string;
  u_captured_at : string;
  app_dir_bytes : Z;
  volumes_bytes : option Z;
  total_bytes : option Z;
  volumes : list (string * option Z);
}.

(** The loop over the sorted names: the rows, the total and [any_unknown]. *)
Fixpoint slice (prefix : string) (snap : snapshot) (names : list string) :
    list (string * option Z) * Z * bool :=
  match names with
  | [] => ([], 0%Z, false)
  | name :: names =>
      let '(rows, vol_total, any_unknown) := slice prefix snap names in
      if negb (startswith prefix name) then (rows, vol_total, any_unknown)
      else
        let size := default None (snap !! name) in
        ((name, size) :: rows,
         match size with Some n => n + vol_total | None => vol_total end,
         match size with None => true | Some _ => any_unknown end)%Z
  end.

Definition sorted_names (snap : snapshot) : list string := merge_sort String.le (elements (dom snap)).

Section disk.
(** The walk over a directory as its directories with their file names, and [lstat]. *)
Context (N : node) (os_walk : string → list (string * list string)) (lstat : string → option Z).

Definition _app_dir_bytes (id : string) : Z :=
  foldl (λ total '(dirpath, filenames),
    foldl (λ total name,
      match lstat (path_join dirpath name) with Some st_size => total + st_size | None => total end)%Z
      total filenames)
    0%Z (os_walk (instance_data_dir N id)).

Definition instance_disk (id : string) (snap : snapshot) : option usage :=
  if negb (instance_is_deployed N id) then None
  else
    let app_bytes := _app_dir_bytes id in
    let '(rows, vol_total, any_unknown) := slice (id +:+ "_") snap (sorted_names snap) in
    let volumes_bytes := if any_unknown then None else Some vol_total in
    let total_bytes := match volumes_bytes with Some v => Some (app_bytes + v)%Z | None => None end in
    Some (Usage id (_now_iso N) app_bytes volumes_bytes total_bytes rows).

(** [cached_instance_disk] and the endpoint; the snapshot is what the shared read answers, and it may
    raise. *)
Record cache_state : Type := Cache { _disk_cache : gmap string (Z * option usage) }.
Definition _DISK_TTL_MS : Z := 60 * 1000.
Definition cached_instance_disk (id : string) (now : Z) (snap : result exc snapshot) :
    M cache_state exc (option usage) :=
  _ttl_get _disk_cache (λ c _, Cache c) id _DISK_TTL_MS now
    (if instance_is_deployed N id then snap ← lift snap; mret (instance_disk id snap) else mret None).
Definition greffon_disk (id : string) (now : Z) (snap : result exc snapshot) :
    M cache_state exc (result Z usage) :=
  b ← cached_instance_disk id now snap;
  mret (match b with Some b => Ok b | None => Raise 404%Z end).
End disk.

(** *** What the slice holds *)
Fixpoint sum_sizes (rows : list (string * option Z)) : Z :=
  match rows with [] => 0 | (_, size) :: rows => default 0%Z size + sum_sizes rows end.

Lemma slice_spec prefix snap names rows total unknown :
  slice prefix snap names = (rows, total, unknown) →
  rows = (λ n, (n, default None (snap !! n))) <$> List.filter (startswith prefix) names ∧
  (unknown = true ↔ ∃ n, (n, None) ∈ rows) ∧ total = sum_sizes rows.
Proof.
  revert rows total unknown. induction names as [|name names IH]; intros rows total unknown; cbn [slice].
  { intros [= <- <- <-]. split; [done|]. split; [|done]. split; [done|]. by intros (n & H%not_elem_of_nil). }
  destruct (slice prefix snap names) as [[rows' total'] unknown'] eqn:E.
  destruct (IH _ _ _ eq_refl) as (Hr & Hu & Ht). cbn [List.filter].
  destruct (startswith prefix name) eqn:Ep; cbn [negb]; [|by intros [= <- <- <-]].
  intros [= <- <- <-]. cbn [fmap list_fmap]. split; [by rewrite Hr|]. split.
  - destruct (default None (snap !! name)) as [n|] eqn:En.
    + rewrite Hu. setoid_rewrite elem_of_cons. split; [naive_solver|]. intros (m & [[= ? ?]|H]); by exists m.
    + split; [|done]. intros _. exists name. by left.
  - cbn [sum_sizes]. rewrite Ht. by destruct (default None (snap !! name)); cbn; lia.
Qed.

Lemma sorted_names_spec snap : (∀ n, n ∈ sorted_names snap ↔ is_Some (snap !! n)) ∧ NoDup (sorted_names snap) ∧ StronglySorted String.le (sorted_names snap).
Proof.
  unfold sorted_names. split; [|split].
  - intros n. by rewrite merge_sort_Permutation, elem_of_elements, elem_of_dom.
  - rewrite merge_sort_Permutation. apply NoDup_elements.
  - apply StronglySorted_merge_sort; apply _.
Qed.

Lemma strongly_sorted_filter {A} (R : relation A) (f : A → bool) l :
  StronglySorted R l → StronglySorted R (List.filter f l).
Proof.
  induction 1 as [|x l Hl IH Hx]; cbn; [constructor|]. destruct (f x); [|done].
  constructor; [done|]. rewrite Forall_forall in *. intros y Hy. apply Hx.
  apply list_elem_of_In, filter_In in Hy as [Hy _]. by apply list_elem_of_In.
Qed.

Lemma startswith_prefix p s : startswith p s = true ↔ ∃ t, s = p +:+ t.
Proof.
  revert s. induction p as [|c p IH]; intros s; [split; [by exists s|done]|].
  destruct s as [|d s]; cbn [startswith].
  - split; [done|]. intros (t & E). discriminate E.
  - rewrite andb_true_iff, Ascii.eqb_eq, IH. split.
    + intros [-> (t & ->)]. by exists t.
    + intros (t & E). injection E as -> ->. split; [done|by exists t].
Qed.

Definition belongs (id name : string) : Prop := ∃ rest, name = (id +:+ "_") +:+ rest.

Lemma belongs_one id id' name :
  String.length id = String.length id' → belongs id name → belongs id' name → id = id'.
Proof.
  intros Hl (r & ->) (r' & E). apply append_length_inj in E as [E _].
  - by apply append_length_inj in E as [-> _].
  - by rewrite !Limits.length_app_str, Hl.
Qed.

Lemma slice_rows prefix snap rows total unknown :
  slice prefix snap (sorted_names snap) = (rows, total, unknown) →
  (∀ name size, (name, size) ∈ rows ↔ snap !! name = Some size ∧ ∃ rest, name = prefix +:+ rest) ∧
  NoDup rows.*1 ∧ StronglySorted String.le rows.*1.
Proof.
  intros H. destruct (slice_spec _ _ _ _ _ _ H) as (-> & _ & _). destruct (sorted_names_spec snap) as (Hin & Hnd & Hs).
  rewrite <-list_fmap_compose. replace ((fst ∘ _) <$> _) with (List.filter (startswith prefix) (sorted_names snap))
    by (rewrite <-(list_fmap_id (List.filter _ _)) at 1; done). split; [|split].
  - intros name size. rewrite list_elem_of_fmap. split.
    + intros (n & [= -> ->] & Hn). apply list_elem_of_In, filter_In in Hn as [Hn Hp].
      apply list_elem_of_In, Hin in Hn as [sz Hsz]. rewrite Hsz. split; [done|by apply startswith_prefix].
    + intros [Hn Hp%startswith_prefix]. exists name. rewrite Hn. split; [done|].
      apply list_elem_of_In, filter_In. split; [|done]. apply list_elem_of_In, Hin. by exists size.
  - apply NoDup_ListNoDup, List.NoDup_filter. by apply NoDup_ListNoDup.
  - by apply strongly_sorted_filter.
Qed.

(** an instance is shown its own volumes, all of them, and no bogus totals.  The rows are exactly the
    volumes of the host's snapshot whose name starts with the id and an underscore, once each, sorted;
    one unknown size makes both totals unknown, and otherwise the totals are the sums; and two instances
    whose ids have the same length never see the same volume. *)
Theorem disk_isolated N os_walk lstat id snap u :
  instance_disk N os_walk lstat id snap = Some u →
  (∀ name size, (name, size) ∈ volumes u ↔ snap !! name = Some size ∧ belongs id name) ∧
  NoDup (volumes u).*1 ∧ StronglySorted String.le (volumes u).*1 ∧
  ((∃ name, (name, None) ∈ volumes u) → volumes_bytes u = None ∧ total_bytes u = None) ∧
  ((∀ name, (name, None) ∉ volumes u) →
     volumes_bytes u = Some (sum_sizes (volumes u)) ∧
     total_bytes u = Some (_app_dir_bytes N os_walk lstat id + sum_sizes (volumes u))%Z) ∧
  ∀ id' u', String.length id' = String.length id → id' ≠ id →
    instance_disk N os_walk lstat id' snap = Some u' →
    ∀ name size size', (name, size) ∈ volumes u → (name, size') ∉ volumes u'.
Proof.
  assert (∀ i v, instance_disk N os_walk lstat i snap = Some v → ∃ rows total unknown,
    slice (i +:+ "_") snap (sorted_names snap) = (rows, total, unknown) ∧ volumes v = rows ∧
    volumes_bytes v = (if unknown then None else Some total) ∧
    total_bytes v = (if unknown then None else Some (_app_dir_bytes N os_walk lstat i + total)%Z)) as Hd.
  { intros i v. unfold instance_disk. destruct (negb _); [done|].
    destruct (slice _ _ _) as [[rows total] unknown]. intros [= <-]. exists rows, total, unknown.
    split_and!; try done. by destruct unknown. }
  intros H. destruct (Hd _ _ H) as (rows & total & unknown & E & Ev & Eb & Et). rewrite Ev.
  destruct (slice_rows _ _ _ _ _ E) as (Hin & Hnd & Hs). destruct (slice_spec _ _ _ _ _ _ E) as (_ & Hu & ->).
  split; [exact Hin|]. split; [done|]. split; [done|]. split; [|split].
  - intros Hex. rewrite Eb, Et. by rewrite (proj2 Hu Hex).
  - intros Hno. destruct unknown; [|by rewrite Eb, Et]. destruct (proj1 Hu eq_refl) as (n & Hn). by destruct (Hno n).
  - intros id' u' Hl Hne H' name size size' Hr Hr'.
    destruct (Hd _ _ H') as (rows' & total' & unknown' & E' & Ev' & _). rewrite Ev' in Hr'.
    destruct (slice_rows _ _ _ _ _ E') as (Hin' & _ & _).
    apply Hin in Hr as [_ Hb]. apply Hin' in Hr' as [_ Hb']. by apply Hne, (belongs_one id' id name).
Qed.

Module Demo.
Definition node1 : node := Node "/data" (λ _, None) (λ _, true) (λ _, Ok []) None (λ _ _, Ok None) (λ _, []) "now".
Definition snap : snapshot := volumes_of (Some
  [Volume (Some "i1_data") (Some (JNum (NInt 10))); Volume (Some "i2_data") (Some (JNum (NInt 4)));
   Volume (Some "i1_cache") (Some (JNum (NInt 5))); Volume (Some "i2_log") (Some (JNum (NInt (-1)))); Volume None None]).
Definition walk (d : string) : list (string * list string) := [(d, ["docker-compose.yml"; "gone"])].
Definition lstat (p : string) : option Z := if bool_decide (p = "/data/i1/docker-compose.yml") then Some 100%Z else None.

Example disk_ok :
  instance_disk node1 walk lstat "i1" snap =
    Some (Usage "i1" "now" 100 (Some 15) (Some 115) [("i1_cache", Some 5); ("i1_data", Some 10)])%Z ∧
  (λ u, (volumes_bytes u, volumes u)) <$> instance_disk node1 walk lstat "i2" snap =
    Some (None, [("i2_data", Some 4); ("i2_log", None)])%Z.
Proof. split; vm_compute; reflexivity. Qed.

(** An instance that is not deployed yet is answered so for a minute, whatever happens meanwhile. *)
Definition absent : node := Node "/data" (λ _, None) (λ _, false) (λ _, Ok []) None (λ _ _, Ok None) (λ _, []) "now".
Example missing_for_a_minute :
  let s := (greffon_disk absent walk lstat "i1" 1000 (Ok snap) (Cache ∅)).2 in
  (greffon_disk node1 walk lstat "i1" 60999 (Ok snap) s).1 = Ok (Raise 404%Z) ∧
  (greffon_disk node1 walk lstat "i1" 61000 (Ok snap) s).1 ≠ Ok (Raise 404%Z).
Proof. split; [vm_compute; reflexivity|vm_compute; discriminate]. Qed.
End Demo.

Lemma disk_isolated_witness :
  ∃ u, instance_disk Demo.node1 Demo.walk Demo.lstat "i1" Demo.snap = Some u ∧ total_bytes u = Some 115%Z ∧
    NoDup (volumes u).*1.
Proof.
  destruct (instance_disk Demo.node1 Demo.walk Demo.lstat "i1" Demo.snap) as [u|] eqn:E.
  - exists u. split; [reflexivity|]. destruct (disk_isolated Demo.node1 Demo.walk Demo.lstat "i1" Demo.snap u E) as (_ & Hnd & _).
    vm_compute in E. injection E as <-. split; [reflexivity|exact Hnd].
  - vm_compute in E. discriminate E.
Defined.
