(* ===== verification/Cli.v ===== *)
(** [cli/greffer_cli]: [greffer up] ([main.py], [up.py]) with the docker commands it
    runs ([compose.py]), the manager's public state ([manager_client.py]), and the
    two reports, [greffer status] and [greffer doctor].

    The operating system, docker and the manager answer through [E : env], each
    answer depending on everything done and seen before, which the state keeps in
    [log], newest first.  Times are in milliseconds.  What is printed is the list of
    messages ([msg]), without their text. *)
From Stdlib Require Import Ascii String.
From S2P Require Import Prelude PyValue GreffonInfo NodeImages EnvFile.
Import Text.
Local Open Scope string_scope.

(** ** The world *)
Record CommandResult : Type := Command { returncode : Z; stdout : string; stderr : string }.
Definition ok (r : CommandResult) : bool := (returncode r =? 0)%Z.

(** A reply of the manager: the status, [Retry-After] when it is a number, and the body when it is
    JSON. *)
Record http_reply : Type := Reply { status_code : Z; retry_after : option Z; json_body : option value }.

Inductive msg : Type :=
  | NoOp | WroteFiles | WroteFilesProxy
  | Starting | ComposeUpFailed | TimeoutStarting
  | Contacting | AcceptGuidance | PendingHeartbeat | PendingHint | WaitingHeartbeat
  | UnknownState (state : value)
  | NotFound | TimeoutRegistering
  | AwaitingCert | TimeoutCert | HealthzDown
  | ConnectedTunnel | ConnectedProxy
  | Refused (why : string).

Inductive event : Type :=
  | ERun (args : list string) (r : CommandResult)
  | EFetch (url : string) (reply : option http_reply)   (** [None]: a transport error *)
  | EProbe (url : string) (answered : bool)
  | EPort (port : Z) (free : bool)
  | ESleep (ms : Z)
  | EPrint (m : msg)
  | EWriteCompose (file : text)
  | EWriteEnv (file : text).
Notation history := (list event).

Record env : Type := Env {
  run_answer : history → list string → CommandResult;   (** with 127 and 124 for no such command, and a timeout *)
  fetch_answer : history → string → option http_reply;
  probe_answer : history → string → bool;
  port_answer : history → Z → bool;
  loads : string → option value;                        (** [json.loads] *)
  monotonic : history → Z;
}.

Inductive exc : Type :=
  | ManagerUnreachable | GrefferNotFound | RateLimited (retry_after : Z)
  | Exit (code : Z)
  | Uncaught (class : string).

(** The two files below the configuration directory, and what happened. *)
Record state : Type := State { compose_yml : option text; env_env : option text; log : history }.
Definition record (e : event) (s : state) : state := State (compose_yml s) (env_env s) (e :: log s).

#[export] Instance value_eq_dec : EqDecision value.
Proof.
  unfold EqDecision, RelDecision, Decision. fix go 1. intros a b.
  decide equality; try (apply bool_dec || apply Z.eq_dec || apply string_dec).
  - exact (List.list_eq_dec go l l0).
  - refine (List.list_eq_dec _ d d0). decide equality; apply go.
Defined.

Section cli.
Context (E : env) (compose_file : string).
Notation C := (M state exc).

Definition now : C Z := gets (λ s, monotonic E (log s)).
Definition sleep (ms : Z) : C () := modify (record (ESleep ms)).
Definition print (m : msg) : C () := modify (record (EPrint m)).
Definition _run (args : list string) : C CommandResult := λ s,
  let r := run_answer E (log s) args in (Ok r, record (ERun args r) s).

(** ** Docker commands *)
Definition compose_cmd (profile : option string) (rest : list string) : list string :=
  ["docker"; "compose"; "-f"; compose_file] ++ match profile with Some p => ["--profile"; p] | None => [] end ++ rest.
Definition docker_cli_installed : C CommandResult := _run ["docker"; "--version"].
Definition docker_info : C CommandResult := _run ["docker"; "info"; "--format"; "{{.ServerVersion}}"].
Definition docker_compose_version : C CommandResult := _run ["docker"; "compose"; "version"; "--short"].
Definition compose_up (profile : option string) : C CommandResult := _run (compose_cmd profile ["up"; "-d"]).
Definition ps_args (profile : option string) : list string := compose_cmd profile ["ps"; "--all"; "--format"; "json"].
Definition compose_ps (profile : option string) : C CommandResult := _run (ps_args profile).
Definition nl : string := String newline "".
Definition probe : string :=
  "import sys, urllib.request, urllib.error;" +:+ nl +:+ "try:" +:+ nl +:+
  "    r = urllib.request.urlopen('http://localhost:8000/healthz', timeout=3)" +:+ nl +:+
  "    sys.exit(0 if r.status == 200 else 1)" +:+ nl +:+
  "except (urllib.error.HTTPError, urllib.error.URLError):" +:+ nl +:+ "    sys.exit(1)".
Definition healthz_args : list string := compose_cmd None ["exec"; "-T"; "greffer"; "python"; "-c"; probe].
Definition exec_in_greffer_healthz : C CommandResult := _run healthz_args.
Definition cert_args : list string := compose_cmd None ["exec"; "-T"; "nginx"; "test"; "-s"; "/root/pem.crt"].
Definition exec_nginx_cert_installed : C CommandResult := _run cert_args.

(** *** [compose_services_running] *)
Definition get (d : list (value * value)) (k : string) (dflt : value) : value := default dflt (dict_get k d).
Definition or_value (a b : value) : value := if truthy a then a else b.

(** A dict keyed by JSON values, in the order they were first set. *)
Definition services := list (value * bool).

Definition add_service (running : services) (item : value) : result exc services :=
  match item with
  | VDict d =>
      let name := or_value (get d "Service" VNull) (get d "Name" VNull) in
      let st := or_value (get d "State" VNull) (get d "status" (VStr "")) in
      if truthy name then
        match st with
        | VStr st =>
            if hashable name then mret (GreffonInfo.assoc_set name (bool_decide (lower st = "running")) running)
            else Raise (Uncaught "TypeError")
        | _ => Raise (Uncaught "AttributeError")
        end
      else mret running
  | _ => mret running
  end.

Definition line_items (line : string) : list value :=
  if bool_decide (strip line = "") then []
  else match loads E line with
       | Some (VList l) => l
       | Some (VDict d) => [VDict d]
       | _ => []
       end.
Definition lines_of (s : string) : list string :=
  string_of_list_ascii <$> (without_break <$> NodeImages.splitlines (lit s)).
Definition items_of (text : string) : option (list value) :=
  if startswith "[" text then
    match loads E text with Some (VList l) => Some l | Some _ => Some [] | None => None end
  else Some (concat (line_items <$> lines_of text)).

Definition services_of (r : CommandResult) : result exc (services) :=
  if negb (ok r) then mret []
  else
    let text := strip (stdout r) in
    if bool_decide (text = "") then mret []
    else match items_of text with
         | Some items => foldR add_service [] items
         | None => mret []
         end.
Definition compose_services_running (profile : option string) : C (services) :=
  r ← compose_ps profile;
  lift (services_of r).

(** [services and all(services.values())] *)
Definition all_up (running : services) : bool :=
  match running with [] => false | _ => forallb snd running end.

(** ** The manager *)
Fixpoint rstrip_char (c : ascii) (s : string) : string :=
  match s with
  | "" => ""
  | String d s => let r := rstrip_char c s in
                  if bool_decide (r = "") && Ascii.eqb d c then "" else String d r
  end.
Definition state_url (manager_url greffer_id : string) : string :=
  rstrip_char "/" manager_url +:+ "/api/greffer/" +:+ greffer_id +:+ "/state-public/".

Definition _retry_after_ms (r : http_reply) : Z := default 5000%Z (retry_after r).
Definition read_reply (reply : option http_reply) : result exc value :=
  match reply with
  | None => Raise ManagerUnreachable
  | Some r =>
      if (status_code r =? 404)%Z then Raise GrefferNotFound
      else if (status_code r =? 429)%Z then Raise (RateLimited (_retry_after_ms r))
      else if (400 <=? status_code r)%Z then Raise ManagerUnreachable
      else match json_body r with
           | None => Raise ManagerUnreachable
           | Some (VDict d) => mret (get d "state" (VStr "UNKNOWN"))
           | Some _ => Raise (Uncaught "AttributeError")
           end
  end.
Definition fetch (url : string) : C (option http_reply) := λ s,
  let a := fetch_answer E (log s) url in (Ok a, record (EFetch url a) s).
Definition fetch_state (manager_url greffer_id : string) : C value :=
  a ← fetch (state_url manager_url greffer_id);
  lift (read_reply a).
Definition manager_reachable (url : string) : C bool := λ s,
  let a := probe_answer E (log s) url in (Ok a, record (EProbe url a) s).
Definition host_port_free (port : Z) : C bool := λ s,
  let a := port_answer E (log s) port in (Ok a, record (EPort port a) s).

(** ** Waiting *)

(** Two seconds or more pass in every round of a wait, so this many are enough. *)
Definition rounds (timeout : Z) : nat := S (S (Z.to_nat (timeout / 2000))).

(** [while time.monotonic() < deadline: ...; time.sleep(2)], where [check] says whether it is over. *)
Fixpoint wait_until (fuel : nat) (check : C bool) (deadline : Z) : C bool :=
  t ← now;
  if negb (t <? deadline)%Z then mret false
  else match fuel with
       | O => mret false
       | S fuel =>
           over ← check;
           if (over : bool) then mret true
           else sleep 2000;; wait_until fuel check deadline
       end.
Definition wait_for (check : C bool) (timeout : Z) : C bool :=
  t ← now; wait_until (rounds timeout) check (t + timeout).

Definition wait_for_compose_running (profile : option string) (timeout : Z) : C bool :=
  wait_for (running ← compose_services_running profile; mret (all_up running)) timeout.
Definition wait_for_cert_installed (timeout : Z) : C bool :=
  wait_for (r ← exec_nginx_cert_installed; mret (ok r)) timeout.
Definition _wait_for_healthz (timeout : Z) : C bool :=
  wait_for (r ← exec_in_greffer_healthz; mret (ok r)) timeout.

(** *** The manager's state *)

(** The variables of [poll_state] and of [wait_for_state], and the two flags of the callbacks. *)
Record waiting : Type := Waiting {
  interval : Z;
  last_heartbeat : Z;
  seen_unknown : list value;
  last_state : option value;
  accept_guidance_shown : bool;
  pending_hint_shown : bool;
}.
Definition initial_interval : Z := 2000.
Definition rate_limited_interval : Z := 5000.
Definition rate_limited_interval_max : Z := 30000.
Definition with_interval (i : Z) (w : waiting) : waiting :=
  Waiting i (last_heartbeat w) (seen_unknown w) (last_state w) (accept_guidance_shown w) (pending_hint_shown w).
Definition backed_off (i : Z) : Z :=
  Z.min (if (rate_limited_interval <=? i)%Z then i * 2 else rate_limited_interval) rate_limited_interval_max.

Definition is_state (v : value) (names : list string) : bool :=
  match v with VStr s => mem s names | _ => false end.
Definition same (a : value) (b : option value) : bool := bool_decide (Some a = b).

Definition _on_state_change (observed : value) (w : waiting) : C waiting :=
  if is_state observed ["GREFFER_REGISTERING"; "GREFFER_REGISTERED"] && negb (accept_guidance_shown w) then
    print AcceptGuidance;;
    mret (Waiting (interval w) (last_heartbeat w) (seen_unknown w) (last_state w) true (pending_hint_shown w))
  else mret w.
Definition _heartbeat (observed : value) (w : waiting) : C waiting :=
  if is_state observed ["GREFFER_CREATED"] then
    print PendingHeartbeat;;
    if pending_hint_shown w then mret w
    else print PendingHint;;
         mret (Waiting (interval w) (last_heartbeat w) (seen_unknown w) (last_state w) (accept_guidance_shown w) true)
  else print WaitingHeartbeat;; mret w.

(** The [for] body on one state that was read: [inl] when the wait is over. *)
Definition on_state (observed : value) (deadline : Z) (w : waiting) : C (bool + waiting) :=
  w ← (if same observed (last_state w) then mret w
       else _on_state_change observed
              (Waiting (interval w) (last_heartbeat w) (seen_unknown w) (Some observed) (accept_guidance_shown w) (pending_hint_shown w)));
  if is_state observed ["GREFFER_REGISTERED"] then mret (inl true)
  else
    w ← (if is_state observed ["GREFFER_CREATED"; "GREFFER_REGISTERING"; "GREFFER_REGISTERED"]
            then mret w
         else if negb (hashable observed) then throw (Uncaught "TypeError")
         else if bool_decide (observed ∈ seen_unknown w) then mret w
         else print (UnknownState observed);;
              mret (Waiting (interval w) (last_heartbeat w) (observed :: seen_unknown w) (last_state w) (accept_guidance_shown w) (pending_hint_shown w)));
    t ← now;
    if (deadline <=? t)%Z then mret (inl false)
    else
      t ← now;
      w ← (if (30000 <=? t - last_heartbeat w)%Z then
             w ← _heartbeat observed w;
             t ← now;
             mret (Waiting (interval w) t (seen_unknown w) (last_state w) (accept_guidance_shown w) (pending_hint_shown w))
           else mret w);
      mret (inr w).

(** A rate limit or an outage: give up at the deadline, or sleep no further than it. *)
Definition back_off (sleep_for deadline : Z) (w : waiting) : C (bool + waiting) :=
  t ← now;
  if (deadline <=? t)%Z then mret (inl false)
  else
    t ← now;
    sleep (Z.min sleep_for (Z.max 0 (deadline - t)));;
    mret (inr (with_interval (backed_off (interval w)) w)).

Definition poll (manager_url greffer_id : string) (deadline : Z) (w : waiting) : C (bool + waiting) :=
  r ← attempt (fetch_state manager_url greffer_id);
  match r with
  | Ok observed =>
      next ← on_state observed deadline w;
      match next with
      | inl over => mret (inl over)
      | inr w => sleep initial_interval;; mret (inr (with_interval initial_interval w))
      end
  | Raise (RateLimited after) => back_off (Z.max after (interval w)) deadline w
  | Raise ManagerUnreachable => back_off (interval w) deadline w
  | Raise e => throw e
  end.

Fixpoint poll_loop (fuel : nat) (manager_url greffer_id : string) (deadline : Z) (w : waiting) : C bool :=
  match fuel with
  | O => mret false
  | S fuel =>
      next ← poll manager_url greffer_id deadline w;
      match next with inl over => mret over | inr w => poll_loop fuel manager_url greffer_id deadline w end
  end.
Definition wait_for_state (manager_url greffer_id : string) (timeout : Z) : C bool :=
  t ← now;
  t' ← now;
  poll_loop (rounds timeout) manager_url greffer_id (t + timeout)
    (Waiting initial_interval t' [] None false false).

(** ** The state machine *)
Definition EXIT_OK : Z := 0.
Definition EXIT_TIMEOUT_STARTING : Z := 10.
Definition EXIT_TIMEOUT_REGISTERING : Z := 11.
Definition EXIT_TIMEOUT_AWAITING_CERT : Z := 12.
Definition EXIT_TIMEOUT_HEALTHZ : Z := 13.
Definition EXIT_GREFFER_NOT_FOUND : Z := 14.
Definition EXIT_COMPOSE_UP_FAILED : Z := 20.

Definition profile_for_mode (mode : string) : option string := if bool_decide (mode = "tunnel") then Some "tunnel" else None.

Definition starting (profile : option string) (timeout : Z) : C (option Z) :=
  print Starting;;
  running ← compose_services_running profile;
  failed ← (if all_up running then mret false
            else r ← compose_up profile; mret (negb (ok r)));
  if (failed : bool) then print ComposeUpFailed;; mret (Some EXIT_COMPOSE_UP_FAILED)
  else
    up ← wait_for_compose_running profile timeout;
    if (up : bool) then mret None else print TimeoutStarting;; mret (Some EXIT_TIMEOUT_STARTING).

Definition registering (manager_url greffer_id : string) (timeout : Z) : C (option Z) :=
  print Contacting;;
  r ← attempt (wait_for_state manager_url greffer_id timeout);
  match r with
  | Ok true => mret None
  | Ok false => print TimeoutRegistering;; mret (Some EXIT_TIMEOUT_REGISTERING)
  | Raise GrefferNotFound => print NotFound;; mret (Some EXIT_GREFFER_NOT_FOUND)
  | Raise e => throw e
  end.

Definition awaiting_cert (mode : string) (timeout : Z) : C (option Z) :=
  print AwaitingCert;;
  if bool_decide (mode = "proxy") then
    installed ← wait_for_cert_installed timeout;
    if (installed : bool) then mret None else print TimeoutCert;; mret (Some EXIT_TIMEOUT_AWAITING_CERT)
  else mret None.

Definition connected (mode : string) (timeout : Z) : C (option Z) :=
  live ← _wait_for_healthz timeout;
  if (live : bool) then print (if bool_decide (mode = "tunnel") then ConnectedTunnel else ConnectedProxy);; mret None
  else print HealthzDown;; mret (Some EXIT_TIMEOUT_HEALTHZ).

(** The stages in order, up to the first that returns a code. *)
Fixpoint stages (l : list (C (option Z))) : C Z :=
  match l with
  | [] => mret EXIT_OK
  | m :: l => code ← m; match code with Some c => mret c | None => stages l end
  end.
Definition run_state_machine (manager_url greffer_id mode : string) (timeout : Z) : C Z :=
  stages [starting (profile_for_mode mode) timeout; registering manager_url greffer_id timeout;
          awaiting_cert mode timeout; connected mode timeout].

(** ** [greffer up] *)
Definition DEFAULT_MANAGER : string := "https://api.greffon.io".
Definition _ADDRESS_PLACEHOLDER : string := "<YOUR-ADDRESS>".

(** [_HOSTNAME_OR_IP_RE]: a dollar sign also matches before a last newline. *)
Definition alnum (c : ascii) : bool := is_alpha c || is_digit c.
Definition host_label (l : string) : bool :=
  match list_ascii_of_string l with
  | [] => false
  | c :: _ as cs => alnum c && match last cs with Some d => alnum d | None => false end
                    && forallb (λ c, alnum c || Ascii.eqb c "-") cs
  end.
Definition ipv4 (s : string) : bool :=
  let parts := split "." s in
  bool_decide (length parts = 4%nat) && forallb (λ p, isdigit p && (String.length p <=? 3)%nat) parts.
Definition ipv6 (s : string) : bool :=
  match list_ascii_of_string s with
  | "["%char :: rest =>
      match reverse rest with
      | "]"%char :: ((_ :: _) as inner) => forallb (λ c, hex_char c || Ascii.eqb c ":") inner
      | _ => false
      end
  | _ => false
  end.
Definition drop_last_newline (s : string) : string :=
  match reverse (list_ascii_of_string s) with
  | c :: rest => if is_newline c then string_of_list_ascii (reverse rest) else s
  | [] => s
  end.
Definition _HOSTNAME_OR_IP_RE (s : string) : bool :=
  let full s := forallb host_label (split "." s) || ipv4 s || ipv6 s in
  full s || full (drop_last_newline s).

Record options : Type := Options {
  o_id : string;
  o_manager : option string;
  o_mode : string;
  o_address : option string;
  o_timeout : Z;
}.

(** [EnvFile.read] and [get] *)
Definition read_env (file : option text) : values := match file with Some t => from_text t | None => ∅ end.
Definition env_get (vs : values) (k : string) : option string := string_of_list_ascii <$> vs !! lit k.
Definition get_env : C values := gets (λ s, read_env (env_env s)).
Definition existing_greffer_id : C (option string) := vs ← get_env; mret (env_get vs "GREFFER_ID").

(** [a or b] *)
Definition or_else (a : option string) (b : option string) : option string :=
  match a with Some "" | None => b | Some s => Some s end.

Definition _build_env_values (manager_url greffer_id mode : string) (address : option string) : result exc values :=
  let vs : values :=
    <[lit "GREFFER_ID" := lit greffer_id]> (<[lit "GREFFON_BASE_SERVER" := lit manager_url]>
    (<[lit "GREFFER_MODE" := lit mode]> (<[lit "GREFFER_PORT" := lit "8001"]>
    (<[lit "GREFFER_PROTOCOL" := lit "https"]> (<[lit "GREFFER_SSL_VERIFY" := lit "true"]>
    (<[lit "GREFFER_WORKERS_ENABLED" := lit "true"]> (<[lit "GREFFON_PATH" := lit "/data"]> ∅))))))) in
  if bool_decide (mode = "proxy") then
    match or_else address None with
    | Some a => mret (<[lit "GREFFER_ADDRESS" := lit a]> vs)
    | None => Raise (Uncaught "ValueError")
    end
  else mret vs.

(** [template.replace("<TAG>", image_tag)] *)
Fixpoint replace_tag (skip : nat) (tag template : text) : text :=
  match template with
  | [] => []
  | c :: rest =>
      match skip with
      | S n => replace_tag n tag rest
      | O => match strip_prefix (lit "<TAG>") template with
             | Some _ => (tag ++ replace_tag 4 tag rest)%list
             | None => c :: replace_tag 0 tag rest
             end
      end
  end.

Definition write_config (template image_tag : text) (vs : values) : C () :=
  modify (λ s, State (Some (replace_tag 0 image_tag template)) (env_env s)
                     (EWriteCompose (replace_tag 0 image_tag template) :: log s));;
  modify (λ s, State (compose_yml s) (Some (to_text vs)) (EWriteEnv (to_text vs) :: log s)).

Definition refuse {A} (why : string) (code : Z) : C A := print (Refused why);; throw (Exit code).

Definition check_options (o : options) : C () :=
  if negb (mem (o_mode o) ["tunnel"; "proxy"]) then refuse "mode" 2
  else if bool_decide (o_address o = Some _ADDRESS_PLACEHOLDER) then refuse "placeholder" 2
  else if bool_decide (o_mode o = "proxy") then
    match or_else (o_address o) None with
    | None => refuse "address required" 2
    | Some a => if _HOSTNAME_OR_IP_RE a then mret () else refuse "address" 2
    end
  else mret ().

Definition resolve_manager (o : options) : C string :=
  match o_manager o with
  | Some m => mret m
  | None => vs ← get_env; mret (default DEFAULT_MANAGER (or_else (env_get vs "GREFFON_BASE_SERVER") None))
  end.

Definition configure (template image_tag : text) (o : options) (manager : string) : C () :=
  existing_id ← existing_greffer_id;
  match existing_id with
  | Some id => if bool_decide (id = o_id o) then print NoOp else refuse "different id" 1
  | None =>
      vs ← lift (_build_env_values manager (o_id o) (o_mode o) (o_address o));
      write_config template image_tag vs;;
      print WroteFiles;;
      when (bool_decide (o_mode o = "proxy")) (print WroteFilesProxy)
  end.

Definition up (template image_tag : text) (o : options) : C () :=
  check_options o;;
  manager ← resolve_manager o;
  configure template image_tag o manager;;
  vs ← get_env;
  let mode := default (o_mode o) (or_else (env_get vs "GREFFER_MODE") None) in
  rc ← run_state_machine manager (o_id o) mode (o_timeout o);
  if (rc =? EXIT_OK)%Z then mret () else throw (Exit rc).

(** ** [greffer status] *)
Record StatusReport : Type := Report {
  initialized : bool;
  greffer_id : option string;
  manager_url : option string;
  s_mode : option string;
  s_address : option string;
  s_public_host : option string;
  container_states : services;
  manager_state : option value;
  manager_unreachable : bool;
  healthz_ok : bool;
  healthz_unreachable : bool;
  cert_installed : option bool;
  cert_check_unavailable : bool;
}.

Definition _docker_exec_unavailable (r : CommandResult) : bool :=
  if (returncode r =? 127)%Z then true
  else if ok r then false
  else
    let err := lower (stderr r) in
    contains "cannot connect to the docker daemon" err || contains "no such container" err ||
    contains "no such service" err || contains "is not running" err.

Definition _manager_state_safe (url id : option string) : C (option value * bool) :=
  match or_else url None, or_else id None with
  | Some url, Some id =>
      r ← attempt (fetch_state url id);
      mret (match r with
            | Ok v => (Some v, false)
            | Raise GrefferNotFound => (Some (VStr "NOT_FOUND"), false)
            | Raise _ => (None, true)
            end)
  | _, _ => mret (None, true)
  end.
Definition _healthz_safe : C (bool * bool) :=
  r ← exec_in_greffer_healthz;
  mret (if _docker_exec_unavailable r then (false, true) else (ok r, false)).
Definition _cert_installed_safe (mode : string) : C (option bool * bool) :=
  if negb (bool_decide (mode = "proxy")) then mret (None, true)
  else
    r ← exec_nginx_cert_installed;
    mret (if _docker_exec_unavailable r then (None, true) else (Some (ok r), false)).

Definition collect : C StatusReport :=
  file ← gets env_env;
  match file with
  | None => mret (Report false None None None None None [] None false false false None false)
  | Some _ =>
      vs ← get_env;
      let id := env_get vs "GREFFER_ID" in
      let url := env_get vs "GREFFON_BASE_SERVER" in
      let mode := default "tunnel" (or_else (env_get vs "GREFFER_MODE") None) in
      states ← compose_services_running (profile_for_mode mode);
      '(st, unreachable) ← _manager_state_safe url id;
      '(live, no_probe) ← _healthz_safe;
      '(cert, no_cert) ← _cert_installed_safe mode;
      mret (Report true id url (Some mode) (env_get vs "GREFFER_ADDRESS") (env_get vs "GREFFER_PUBLIC_HOST") states st unreachable live no_probe cert no_cert)
  end.

(** ** [greffer doctor] *)
Record CheckResult : Type := Check_ { c_name : string; passed : bool; skipped : bool }.
Definition verdict (name : string) (b : bool) : CheckResult := Check_ name b false.
Definition skip (name : string) : CheckResult := Check_ name false true.

Definition doctor (manager : option string) (port : Z) : C (list CheckResult) :=
  cli ← docker_cli_installed;
  docker ← (if negb (ok cli) then
              mret [verdict "docker_installed" false; skip "compose_plugin"; skip "docker_daemon"]
            else
              v ← docker_compose_version;
              i ← docker_info;
              mret [verdict "docker_installed" true; verdict "compose_plugin" (ok v); verdict "docker_daemon" (ok i)]);
  free ← host_port_free port;
  reach ← (match or_else manager None with
           | Some url => b ← manager_reachable url; mret (verdict "manager_url" b)
           | None => mret (skip "manager_url")
           end);
  mret (docker ++ [verdict "port_free" free; reach])%list.
Definition is_blocking_failure (l : list CheckResult) : bool := existsb (λ r, negb (passed r) && negb (skipped r)) l.

(** The command: the manager of the file when none is given, and exit 1 when something blocks. *)
Definition doctor_command (manager : option string) (port : Z) : C () :=
  manager ← (match or_else manager None with
             | Some m => mret (Some m)
             | None => vs ← get_env; mret (env_get vs "GREFFON_BASE_SERVER")
             end);
  l ← doctor manager port;
  if is_blocking_failure l then throw (Exit 1) else mret ().
End cli.

(** ** What every command leaves alone *)

(** The log only grows, and the two files stay. *)
Definition runs (s s' : state) : Prop :=
  suffix (log s) (log s') ∧ compose_yml s' = compose_yml s ∧ env_env s' = env_env s.
#[export] Instance runs_preorder : PreOrder runs.
Proof.
  split; [by intros s; split_and!|]. intros s1 s2 s3 (H1 & H2 & H3) (H4 & H5 & H6).
  split_and!; [by etrans|congruence|congruence].
Qed.
Lemma runs_record e s : runs s (record e s).
Proof. split_and!; [by apply suffix_cons_r|done|done]. Qed.

Ltac runs_auto :=
  repeat (rel_step || apply runs_record || (intros ?; cbn; apply runs_record) || eassumption).

Section leaves.
Context (E : env) (compose_file : string).
Notation C := (M state exc).

Lemma runs_run args : rel runs (_run E args).
Proof. intros s. apply runs_record. Qed.
Lemma runs_fetch url : rel runs (fetch E url).
Proof. intros s. apply runs_record. Qed.
Lemma runs_services profile : rel runs (compose_services_running E compose_file profile).
Proof. unfold compose_services_running, compose_ps. runs_auto; apply runs_run. Qed.

Lemma runs_wait fuel check d : rel runs check → rel runs (wait_until E fuel check d).
Proof.
  intros Hc. revert d. induction fuel as [|fuel IH]; intros d; cbn [wait_until]; unfold now, sleep; runs_auto; apply IH.
Qed.
Lemma runs_wait_for check t : rel runs check → rel runs (wait_for E check t).
Proof. intros Hc. unfold wait_for, now. runs_auto. by apply runs_wait. Qed.

Lemma runs_on_state v d w : rel runs (on_state E v d w).
Proof. unfold on_state, _on_state_change, _heartbeat, print, now. runs_auto. Qed.
Lemma runs_back_off f d w : rel runs (back_off E f d w).
Proof. unfold back_off, now, sleep. runs_auto. Qed.
Lemma runs_poll m i d w : rel runs (poll E m i d w).
Proof.
  unfold poll, fetch_state, sleep. runs_auto; try apply runs_fetch; try apply runs_on_state; apply runs_back_off.
Qed.
Lemma runs_poll_loop fuel m i d w : rel runs (poll_loop E fuel m i d w).
Proof.
  revert w. induction fuel as [|fuel IH]; intros w; cbn [poll_loop]; runs_auto; [apply runs_poll|apply IH].
Qed.
Lemma runs_wait_for_state m i t : rel runs (wait_for_state E m i t).
Proof. unfold wait_for_state, now. runs_auto. apply runs_poll_loop. Qed.

Lemma runs_stages m i mode t : rel runs (run_state_machine E compose_file m i mode t).
Proof.
  unfold run_state_machine. cbn [stages].
  unfold starting, registering, awaiting_cert, connected, print, compose_up, wait_for_compose_running,
    wait_for_cert_installed, _wait_for_healthz, exec_nginx_cert_installed, exec_in_greffer_healthz.
  runs_auto; try apply runs_services; try apply runs_run; try apply runs_wait_for_state;
    apply runs_wait_for; runs_auto; try apply runs_services; apply runs_run.
Qed.
End leaves.

(** ** What success means *)

(** Events after [h0] that satisfy the predicates in order, the latest first. *)
Fixpoint seen (h0 : history) (ps : list (event → Prop)) (h : history) : Prop :=
  match ps with
  | [] => suffix h0 h
  | p :: ps => ∃ h1 e h2, h = (h1 ++ e :: h2)%list ∧ p e ∧ seen h0 ps h2
  end.

Lemma seen_suffix h0 ps h h' : suffix h h' → seen h0 ps h → seen h0 ps h'.
Proof.
  destruct ps as [|p ps]; [cbn; intros ??; by etrans|]. intros (k & ->) (h1 & e & h2 & -> & Hp & Hs).
  exists (k ++ h1)%list, e, h2. by rewrite <-app_assoc.
Qed.

Definition succeeded (args : list string) (e : event) : Prop := ∃ r, e = ERun args r ∧ returncode r = 0%Z.

(** *** What docker listed, read off its answer

    The rows of a line, and of the whole text: one JSON array, or a JSON object or
    array per line; other lines, such as a warning, show none. *)
Inductive line_shows (E : env) (line : string) : list value → Prop :=
  | shows_object d : strip line ≠ "" → loads E line = Some (VDict d) → line_shows E line [VDict d]
  | shows_array l : strip line ≠ "" → loads E line = Some (VList l) → line_shows E line l
  | shows_nothing : strip line = "" ∨ (∀ v, loads E line = Some v → is_dict v = false ∧ ∀ l, v ≠ VList l) →
      line_shows E line [].
Definition lists (E : env) (output : string) (rows : list value) : Prop :=
  let text := strip output in
  (startswith "[" text = true ∧ loads E text = Some (VList rows)) ∨
  (startswith "[" text = false ∧ ∃ l, Forall2 (line_shows E) (lines_of text) l ∧ rows = concat l).

(** The service a row is about, and whether the row says that it runs. *)
Definition given (d : list (value * value)) (k : string) : option value :=
  v ← dict_get k d; if truthy v then Some v else None.
Definition about_service (row name : value) : Prop :=
  ∃ d, row = VDict d ∧ (given d "Service" = Some name ∨ given d "Service" = None ∧ given d "Name" = Some name).
Definition says_running (row : value) : Prop :=
  ∃ d word, row = VDict d ∧ lower word = "running" ∧
    (given d "State" = Some (VStr word) ∨ given d "State" = None ∧ dict_get "status" d = Some (VStr word)).

(** Docker answered with the services of the profile, one at least, and the last word
    on each of them is that it runs. *)
Definition services_up (E : env) (compose_file : string) (mode : string) (e : event) : Prop :=
  ∃ r rows, e = ERun (ps_args compose_file (profile_for_mode mode)) r ∧ returncode r = 0%Z ∧
    lists E (stdout r) rows ∧ (∃ row name, row ∈ rows ∧ about_service row name) ∧
    ∀ before row after name, rows = (before ++ row :: after)%list → about_service row name →
      (∀ row' name', row' ∈ after → about_service row' name' → key_eqb name name' = false) → says_running row.

(** The manager answered, without an error, an object whose state is registered. *)
Definition registered (manager greffer_id : string) (e : event) : Prop :=
  ∃ r d, e = EFetch (state_url manager greffer_id) (Some r) ∧ (status_code r < 400)%Z ∧
    json_body r = Some (VDict d) ∧ dict_get "state" d = Some (VStr "GREFFER_REGISTERED").

(** *** The readers find it *)
Lemma line_items_shows E line : line_shows E line (line_items E line).
Proof.
  unfold line_items. case_bool_decide as Hs; [apply shows_nothing; by left|].
  destruct (loads E line) as [[]|] eqn:Hl; try (by constructor); apply shows_nothing; right; intros v; naive_solver.
Qed.

Lemma items_of_lists E output items : items_of E (strip output) = Some items →
  lists E output items ∨ items = [].
Proof.
  unfold items_of, lists. destruct (startswith "[" (strip output)).
  - destruct (loads E (strip output)) as [[]|] eqn:Hl; intros [= <-]; auto.
  - intros [= <-]. left. right. split; [done|]. exists (line_items E <$> lines_of (strip output)). split; [|done].
    apply Forall2_fmap_r, Forall_Forall2_diag, Forall_true. intros line. apply line_items_shows.
Qed.

Lemma about_dict d name : about_service (VDict d) name ↔
  given d "Service" = Some name ∨ given d "Service" = None ∧ given d "Name" = Some name.
Proof. split; [by intros (d' & [= <-] & H)|intros H; by exists d]. Qed.

Lemma given_get d k v : truthy (get d k VNull) = true → given d k = Some v ↔ v = get d k VNull.
Proof. unfold given, get. destruct (dict_get k d) as [w|]; cbn; [intros ->|done]. split; [by intros [= ->]|by intros ->]. Qed.
Lemma given_none d k : truthy (get d k VNull) = false → given d k = None.
Proof. unfold given, get. destruct (dict_get k d) as [w|]; cbn; [by intros ->|done]. Qed.

Lemma or_value_given d name : let n := or_value (get d "Service" VNull) (get d "Name" VNull) in
  truthy n = true → about_service (VDict d) name ↔ name = n.
Proof.
  cbv zeta. rewrite about_dict. unfold or_value. destruct (truthy (get d "Service" VNull)) eqn:Hs; intros Hn.
  - rewrite given_get by done. split; [intros [H|[H _]]; [done|]|by left].
    by rewrite (proj2 (given_get _ _ _ Hs) eq_refl) in H.
  - rewrite (given_none _ _ Hs), given_get by done. split; [by intros [|[_ H]]|by right].
Qed.
Lemma or_value_none d name : truthy (or_value (get d "Service" VNull) (get d "Name" VNull)) = false →
  ¬ about_service (VDict d) name.
Proof.
  rewrite about_dict. unfold or_value. destruct (truthy (get d "Service" VNull)) eqn:Hs; intros Hn; [congruence|].
  rewrite (given_none _ _ Hs), (given_none _ _ Hn). by intros [|[_ ?]].
Qed.

(** One row: it sets its service to whether it runs, or it is about none. *)
Lemma add_service_spec m row m' : add_service m row = Ok m' →
  (m' = m ∧ ∀ name, ¬ about_service row name) ∨
  ∃ name b, m' = GreffonInfo.assoc_set name b m ∧ (∀ n, about_service row n ↔ n = name) ∧ (b = true → says_running row).
Proof.
  unfold add_service. destruct row as [| | | | |d|]; try (intros [= <-]; left; split; [done|by intros ? (? & [=] & _)]).
  destruct (truthy _) eqn:Hn; [|intros [= <-]; left; split; [done|intros ?; by apply or_value_none]].
  destruct (or_value (get d "State" VNull) _) as [| | |st| | |] eqn:Hst; try done.
  destruct (hashable _); [|done]. intros [= <-]. right. eexists _, _. split; [done|]. split; [by intros; apply or_value_given|].
  intros Hb%bool_decide_eq_true. exists d, st. split; [done|]. split; [done|].
  unfold or_value, get, given in *. destruct (dict_get "State" d) as [v|]; cbn in *.
  - destruct (truthy v); [left; by f_equal|right; split; [done|]].
    destruct (dict_get "status" d); cbn in Hst; [by f_equal|]. by simplify_eq.
  - right. split; [done|]. destruct (dict_get "status" d); cbn in Hst; [by f_equal|]. by simplify_eq.
Qed.

Lemma key_eqb_join a b c : key_eqb c a = true → key_eqb c b = true → key_eqb a b = true.
Proof.
  destruct c, a, b; cbn; try done; rewrite ?String.eqb_eq, ?Z.eqb_eq; congruence || lia.
Qed.

(** An entry under a name, or under one that is taken for the same. *)
Definition entry (name : value) (b : bool) (m : services) : Prop :=
  ∃ k, (k, b) ∈ m ∧ (k = name ∨ key_eqb k name = true).
Lemma entry_set name b m : entry name b (GreffonInfo.assoc_set name b m).
Proof.
  induction m as [|[k c] m (k' & H & Hk)]; cbn; [exists name; split; [left|by left]|].
  destruct (key_eqb k name) eqn:He; [exists k; split; [left|by right]|]. exists k'. split; [by right|done].
Qed.
Lemma entry_kept name name' b b' m :
  key_eqb name name' = false → entry name b m → entry name b (GreffonInfo.assoc_set name' b' m).
Proof.
  intros Hn (k & Hk & He). exists k. split; [|done]. induction m as [|[j c] m IH]; cbn; [by apply elem_of_nil in Hk|].
  apply elem_of_cons in Hk as [[= <- <-]|Hk].
  - destruct (key_eqb k name') eqn:Hk'; [|left]. destruct He as [->|He]; [congruence|].
    by rewrite (key_eqb_join _ _ _ He Hk') in Hn.
  - destruct (key_eqb j name'); right; auto.
Qed.
Lemma all_up_entry m name b : all_up m = true → entry name b m → b = true.
Proof.
  intros H (k & Hk & _). destruct m as [|x m]; [done|]. unfold all_up in H. rewrite forallb_forall in H.
  by apply (H (k, b)), list_elem_of_In.
Qed.

Lemma add_services_entry after m m' name b :
  (∀ row' name', row' ∈ after → about_service row' name' → key_eqb name name' = false) →
  entry name b m → foldR add_service m after = Ok m' → entry name b m'.
Proof.
  revert m. induction after as [|row after IH]; intros m Hf Hm; cbn [foldR]; [by intros [= <-]|].
  intros (m1 & H1 & H)%bindR_ok. eapply IH, H; [intros ? ? ?; apply Hf; by right|].
  apply add_service_spec in H1 as [[-> _]|(n & b' & -> & Hn & _)]; [done|]. apply entry_kept; [|done].
  eapply Hf; [left|by apply Hn].
Qed.
Lemma add_services_none rows m m' :
  (∀ row name, row ∈ rows → ¬ about_service row name) → foldR add_service m rows = Ok m' → m' = m.
Proof.
  revert m. induction rows as [|row rows IH]; intros m Hf; cbn [foldR]; [by intros [= <-]|].
  intros (m1 & H1 & H)%bindR_ok. rewrite (IH m1); [|intros ? ? ?; apply Hf; by right|done].
  apply add_service_spec in H1 as [[-> _]|(n & b & _ & Hn & _)]; [done|].
  destruct (Hf row n); [left|by apply Hn].
Qed.

Lemma services_of_up E compose_file mode r m : services_of E r = Ok m → all_up m = true →
  services_up E compose_file mode (ERun (ps_args compose_file (profile_for_mode mode)) r).
Proof.
  unfold services_of. destruct (ok r) eqn:Hok; [|by intros [= <-]]. cbn [negb].
  case_bool_decide; [by intros [= <-]|]. destruct (items_of E (strip (stdout r))) as [rows|] eqn:Hi; [|by intros [= <-]].
  intros Hm Hup. apply items_of_lists in Hi as [Hi| ->]; [|by injection Hm as <-].
  exists r, rows. split; [done|]. split; [by apply Z.eqb_eq|]. split; [done|]. split.
  - destruct (List.existsb (λ row, match row with VDict d => truthy (or_value (get d "Service" VNull) (get d "Name" VNull)) | _ => false end) rows) eqn:Hx.
    + apply existsb_exists in Hx as (row & Hr & Hn). destruct row as [| | | | |d|]; try done.
      exists (VDict d), (or_value (get d "Service" VNull) (get d "Name" VNull)). split; [by apply list_elem_of_In|].
      by apply or_value_given.
    + rewrite (add_services_none rows [] m) in Hup; [done| |done]. intros row name Hr (d & -> & Ha).
      apply (or_value_none d name); [|by exists d]. apply not_true_iff_false. intros Hn. apply not_true_iff_false in Hx. apply Hx, existsb_exists.
      exists (VDict d). split; [by apply list_elem_of_In|done].
  - intros before row after name -> Ha Hlast. rewrite foldR_app in Hm. apply bindR_ok in Hm as (m1 & _ & Hm).
    cbn [foldR] in Hm. apply bindR_ok in Hm as (m2 & H2 & Hm).
    apply add_service_spec in H2 as [[_ H2]|(n & b & -> & Hn & Hb)]; [by destruct (H2 name)|].
    apply Hn in Ha as ->. apply Hb. eapply all_up_entry; [exact Hup|].
    eapply add_services_entry, Hm; [exact Hlast|apply entry_set].
Qed.

Lemma read_reply_registered m i a : read_reply a = Ok (VStr "GREFFER_REGISTERED") →
  registered m i (EFetch (state_url m i) a).
Proof.
  unfold read_reply. destruct a as [r|]; [|done]. destruct (_ =? 404)%Z; [done|]. destruct (_ =? 429)%Z; [done|].
  destruct (Z.leb_spec 400 (status_code r)); [done|]. destruct (json_body r) as [[| | | | |d|]|] eqn:Hb; try done.
  intros [= Hd]. exists r, d. split_and!; try done. unfold get in Hd.
  destruct (dict_get "state" d); cbn in Hd; [by f_equal|done].
Qed.

Section evidence.
Context (E : env) (compose_file : string) (h0 : history).
Notation C := (M state exc).
Notation seen := (seen h0).

(** A stage that lets the next one start has added the event [p] to the log. *)
Definition adds (p : event → Prop) (m : C (option Z)) : Prop :=
  ∀ ps s s', seen ps (log s) → m s = (Ok None, s') → seen (p :: ps) (log s').

Lemma bind_inv {A B} (m : C A) (k : A → C B) s b s' :
  (m ≫= k) s = (Ok b, s') → ∃ a s1, m s = (Ok a, s1) ∧ k a s1 = (Ok b, s').
Proof. unfold mbind, M_bind. destruct (m s) as [[a|e] s1]; [|done]. by exists a, s1. Qed.

Lemma wait_until_true fuel check d s s' :
  rel runs check → wait_until E fuel check d s = (Ok true, s') →
  ∃ s1, runs s s1 ∧ check s1 = (Ok true, s').
Proof.
  intros Hc. revert s. induction fuel as [|fuel IH]; intros s; cbn [wait_until]; unfold now, gets, mbind, M_bind.
  - by destruct (negb _).
  - destruct (negb _); [done|]. destruct (check s) as [[[|]|e] s1] eqn:E1; [|cbn|done].
    + intros [= <-]. by exists s.
    + intros H. apply IH in H as (s2 & H2 & Hs2). exists s2. split; [|done].
      apply (rel_run runs) in E1; [|done]. etrans; [exact E1|]. etrans; [apply (runs_record (ESleep 2000))|exact H2].
Qed.

Lemma wait_for_true check t s s' :
  rel runs check → wait_for E check t s = (Ok true, s') → ∃ s1, runs s s1 ∧ check s1 = (Ok true, s').
Proof. intros Hc. unfold wait_for, now, gets, mbind, M_bind. by apply wait_until_true. Qed.

(** A wait for a condition that one event shows. *)
Lemma wait_adds (p : event → Prop) check t ps s s' :
  rel runs check →
  (∀ s1 s2, check s1 = (Ok true, s2) → ∃ e, p e ∧ log s2 = e :: log s1) →
  seen ps (log s) → wait_for E check t s = (Ok true, s') → seen (p :: ps) (log s').
Proof.
  intros Hc Hp Hs H. apply wait_for_true in H as (s1 & (Hr & _) & H); [|done].
  destruct (Hp _ _ H) as (e & He & Hl). exists [], e, (log s1). split; [done|]. split; [done|].
  by eapply seen_suffix.
Qed.

Lemma print_seen ps m s s' r : seen ps (log s) → print m s = (r, s') → seen ps (log s').
Proof. intros Hs [= _ <-]. eapply seen_suffix, Hs. by apply suffix_cons_r. Qed.

Lemma command_shows args s1 s2 :
  (r ← _run E args; mret (ok r) : C bool) s1 = (Ok true, s2) → ∃ e, succeeded args e ∧ log s2 = e :: log s1.
Proof. unfold _run, mbind, M_bind. intros [= Hok <-]. eexists. split; [|done]. eexists. split; [done|]. by apply Z.eqb_eq.
Qed.

Lemma runs_command args : rel runs (r ← _run E args; mret (ok r) : C bool).
Proof. runs_auto. Qed.

Lemma starting_adds mode t : adds (services_up E compose_file mode) (starting E compose_file (profile_for_mode mode) t).
Proof.
  intros ps s s' Hs H. unfold starting in H. apply bind_inv in H as (? & s1 & H1 & H). eapply print_seen in H1; [|exact Hs].
  apply bind_inv in H as (m & s2 & H2 & H). apply bind_inv in H as (failed & s3 & H3 & H).
  assert (runs s1 s3) as [Hr _].
  { etrans; [eapply rel_run, H2; apply runs_services|]. eapply rel_run, H3. runs_auto. }
  destruct failed; [by destruct (bind_inv _ _ _ _ _ H) as (? & ? & _ & [=])|].
  apply bind_inv in H as (up & s4 & H4 & H). destruct up; [|by destruct (bind_inv _ _ _ _ _ H) as (? & ? & _ & [=])].
  injection H as <-. unfold wait_for_compose_running in H4. eapply wait_adds, H4.
  - runs_auto.
  - intros u v Hxy. apply bind_inv in Hxy as (m' & z & Hz & [= Hup <-]).
    unfold compose_services_running, compose_ps, _run, lift, mbind, M_bind in Hz.
    injection Hz as Hm <-. eexists. split; [|done]. by eapply services_of_up.
  - by eapply seen_suffix.
Qed.

Lemma on_state_true v d w s s' :
  on_state E v d w s = (Ok (inl true), s') → v = VStr "GREFFER_REGISTERED".
Proof.
  unfold on_state. intros H. apply bind_inv in H as (w1 & s1 & _ & H).
  destruct (is_state v ["GREFFER_REGISTERED"]) eqn:Ev.
  - destruct v; try done. unfold is_state in Ev. apply mem_true in Ev. by apply list_elem_of_singleton in Ev as ->.
  - apply bind_inv in H as (w2 & s2 & _ & H). apply bind_inv in H as (t & s3 & _ & H).
    destruct (d <=? t)%Z; [done|]. apply bind_inv in H as (t' & s4 & _ & H). by apply bind_inv in H as (w3 & s5 & _ & [=]).
Qed.

Lemma back_off_not_true f d w s s' : back_off E f d w s ≠ (Ok (inl true), s').
Proof. unfold back_off, now, gets, mbind, M_bind. by destruct (d <=? _)%Z. Qed.

Lemma poll_registered m i d w s s' :
  poll E m i d w s = (Ok (inl true), s') →
  ∃ a s1, registered m i (EFetch (state_url m i) a) ∧ log s1 = EFetch (state_url m i) a :: log s ∧ runs s1 s'.
Proof.
  unfold poll. intros H. apply bind_inv in H as (r & s1 & H1 & H).
  unfold attempt, fetch_state, fetch, lift, mbind, M_bind in H1. injection H1 as Hr <-.
  set (a := fetch_answer E (log s) (state_url m i)) in *. set (s1 := record _ s) in *.
  destruct (read_reply a) as [v|e] eqn:Ea; rewrite <-Hr in H.
  - exists a, s1. split; [|split; [done|]].
    + apply read_reply_registered. rewrite Ea. f_equal. apply bind_inv in H as (n & s2 & H2 & H).
      destruct n as [b|w']; [|by apply bind_inv in H as (? & ? & _ & [=])]. injection H as -> <-.
      by eapply on_state_true.
    + apply bind_inv in H as (n & s2 & H2 & H). destruct n as [b|w']; [|by apply bind_inv in H as (? & ? & _ & [=])].
      injection H as _ <-. by eapply (rel_run runs), H2; apply runs_on_state.
  - exfalso. destruct e; cbn in H; try discriminate H; by eapply back_off_not_true.
Qed.

Lemma poll_loop_registered fuel m i d w s s' :
  poll_loop E fuel m i d w s = (Ok true, s') →
  ∃ a s1 s2, registered m i (EFetch (state_url m i) a) ∧ runs s s1 ∧ log s2 = EFetch (state_url m i) a :: log s1 ∧ runs s2 s'.
Proof.
  revert w s. induction fuel as [|fuel IH]; intros w s; cbn [poll_loop]; [done|].
  intros H. apply bind_inv in H as (n & s1 & H1 & H). destruct n as [b|w'].
  - injection H as -> <-. apply poll_registered in H1 as (a & s2 & Hr & Hl & Hs). by exists a, s, s2.
  - apply IH in H as (a & s2 & s3 & Hr & Hs & Hl & Hs'). exists a, s2, s3. split_and!; try done.
    etrans; [|exact Hs]. eapply (rel_run runs), H1. apply runs_poll.
Qed.

Lemma registering_adds m i t : adds (registered m i) (registering E m i t).
Proof.
  intros ps s s' Hs H. unfold registering in H. apply bind_inv in H as (? & s1 & H1 & H).
  eapply print_seen in H1; [|exact Hs]. apply bind_inv in H as (r & s2 & H2 & H).
  unfold attempt in H2. destruct (wait_for_state E m i t s1) as [r' s3] eqn:Hw. injection H2 as <- <-.
  destruct r' as [[|]|e]; [|by apply bind_inv in H as (? & ? & _ & [=])|].
  2: { by destruct e; cbn in H; try discriminate H; apply bind_inv in H as (? & ? & _ & [=]). }
  injection H as <-. unfold wait_for_state, now, gets, mbind, M_bind in Hw.
  apply poll_loop_registered in Hw as (a & u & v & Hr & [Hu _] & Hl & [Hv _]).
  eapply seen_suffix; [exact Hv|]. exists [], (EFetch (state_url m i) a), (log u). split; [done|].
  split; [done|]. by eapply seen_suffix.
Qed.

(** Waits for one command to exit with 0. *)
Lemma command_wait_adds args t ps s s' :
  seen ps (log s) → wait_for E (r ← _run E args; mret (ok r)) t s = (Ok true, s') →
  seen (succeeded args :: ps) (log s').
Proof. intros Hs. apply wait_adds; [apply runs_command|intros ??; apply command_shows|done]. Qed.

Lemma awaiting_cert_proxy t : adds (succeeded (cert_args compose_file)) (awaiting_cert E compose_file "proxy" t).
Proof.
  intros ps s s' Hs H. unfold awaiting_cert in H. apply bind_inv in H as (? & s1 & H1 & H).
  eapply print_seen in H1; [|exact Hs]. cbn in H. apply bind_inv in H as (b & s2 & H2 & H).
  destruct b; [|by apply bind_inv in H as (? & ? & _ & [=])]. injection H as <-. by eapply command_wait_adds.
Qed.

Lemma connected_adds mode t : adds (succeeded (healthz_args compose_file)) (connected E compose_file mode t).
Proof.
  intros ps s s' Hs H. unfold connected in H. apply bind_inv in H as (b & s1 & H1 & H).
  destruct b; [|by apply bind_inv in H as (? & ? & _ & [=])].
  apply bind_inv in H as (? & s2 & H2 & [= <-]). eapply print_seen, H2. by eapply command_wait_adds.
Qed.

(** What a connected node has shown, the latest first. *)
Definition evidence (mode manager id : string) : list (event → Prop) :=
  succeeded (healthz_args compose_file) ::
  (if bool_decide (mode = "proxy") then [succeeded (cert_args compose_file)] else []) ++
  [registered manager id; services_up E compose_file mode].

Lemma stage_inv m l s s' c :
  stages (m :: l) s = (Ok c, s') →
  (∃ s1, m s = (Ok None, s1) ∧ stages l s1 = (Ok c, s')) ∨ m s = (Ok (Some c), s').
Proof.
  intros H. cbn [stages] in H. apply bind_inv in H as ([c'|] & s1 & H1 & H); [|left; by exists s1].
  injection H as -> <-. by right.
Qed.

(** The codes of the stages are not 0. *)
Lemma stage_code m l s s' :
  (∀ s s', m s ≠ (Ok (Some EXIT_OK), s')) → stages (m :: l) s = (Ok EXIT_OK, s') →
  ∃ s1, m s = (Ok None, s1) ∧ stages l s1 = (Ok EXIT_OK, s').
Proof. intros Hm H. apply stage_inv in H as [H|H]; [done|]. by apply Hm in H. Qed.

Ltac no_zero :=
  let H := fresh in
  intros ? ? H;
  repeat match type of H with
  | _ ≫= _ = _ => apply bind_inv in H as (? & ? & _ & H)
  | (_ ≫= _) _ = _ => apply bind_inv in H as (? & ? & _ & H)
  | (if ?b then _ else _) _ = _ => destruct b
  | (match ?x with _ => _ end) _ = _ => destruct x
  end; discriminate H.

Lemma run_connected m i mode t s s' :
  run_state_machine E compose_file m i mode t s = (Ok EXIT_OK, s') → suffix h0 (log s) → seen (evidence mode m i) (log s').
Proof.
  unfold run_state_machine, evidence. intros H Hs0.
  apply stage_code in H as (s1 & H1 & H); [|unfold starting; no_zero].
  apply stage_code in H as (s2 & H2 & H); [|unfold registering; no_zero].
  apply stage_code in H as (s3 & H3 & H); [|unfold awaiting_cert; no_zero].
  apply stage_code in H as (s4 & H4 & [= <-]); [|unfold connected; no_zero].
  apply (starting_adds mode t []) in H1; [|done]. apply (registering_adds m i t _ _ _ H1) in H2.
  eapply connected_adds, H4. case_bool_decide as Hmode.
  - subst mode. by eapply awaiting_cert_proxy.
  - unfold awaiting_cert in H3. apply bind_inv in H3 as (? & u & Hu & H3).
    rewrite bool_decide_eq_false_2 in H3 by done. injection H3 as <-. by eapply print_seen.
Qed.
End evidence.

(** ** The configuration is written once *)
Definition id_of (s : state) : option string := env_get (read_env (env_env s)) "GREFFER_ID".

(** A value that reads back as it was written. *)
Definition plain (v : string) : Prop := no_break (lit v) ∧ quote ∉ lit v.

Lemma string_lit v : string_of_list_ascii (lit v) = v.
Proof. apply string_of_list_ascii_of_string. Qed.

Lemma good_insert k v vs : good_key (lit k) → no_break (lit v) → good vs → good (<[lit k := lit v]> vs).
Proof.
  intros Hk Hv [Hks Hvs]. split; intros k' v'; rewrite lookup_insert_Some; intros [[<- <-]|[_ H]]; eauto.
Qed.

Lemma plain_dec_intro v : bool_decide (no_break (lit v)) && bool_decide (quote ∉ lit v) = true → plain v.
Proof. intros [?%bool_decide_eq_true ?%bool_decide_eq_true]%andb_prop. done. Qed.

Section configured.
Context (E : env) (compose_file : string) (template image_tag : text).
Notation C := (M state exc).

(** The settings of a first run read back: its id, manager, mode and, in proxy mode, address. *)
Lemma built_values_read manager id mode address vs :
  plain manager → plain id → plain mode → (∀ a, address = Some a → plain a) →
  _build_env_values manager id mode address = Ok vs →
  from_text (to_text vs) = vs ∧ env_get vs "GREFFER_ID" = Some id ∧
  env_get vs "GREFFON_BASE_SERVER" = Some manager ∧ env_get vs "GREFFER_MODE" = Some mode.
Proof.
  intros Hm Hi Hmo Ha Hb. assert (good vs ∧ (∀ k v, vs !! k = Some v → quote ∉ v) ∧
    vs !! lit "GREFFER_ID" = Some (lit id) ∧ vs !! lit "GREFFON_BASE_SERVER" = Some (lit manager) ∧
    vs !! lit "GREFFER_MODE" = Some (lit mode)) as (Hg & Hq & H1 & H2 & H3).
  2: { rewrite from_to_text, escaped_all by done. unfold env_get. rewrite H1, H2, H3. cbn. by rewrite !string_lit. }
  unfold _build_env_values in Hb.
  set (base := <[_ := _]> _) in Hb.
  assert (good base ∧ ∀ k v, base !! k = Some v → quote ∉ v) as [Hg Hq].
  { unfold base. repeat match goal with |- good (<[_ := _]> _) ∧ _ => idtac end. split.
    - repeat (apply good_insert; [apply (bool_decide_unpack _); by vm_compute|first [apply Hi|apply Hm|apply Hmo|apply (bool_decide_unpack _); by vm_compute]|]).
      split; intros k v H; by rewrite lookup_empty in H.
    - intros k v. rewrite !lookup_insert_Some, lookup_empty. intros H.
      repeat (destruct H as [[_ <-]|[_ H]]; [first [apply Hi|apply Hm|apply Hmo|apply (bool_decide_unpack _); by vm_compute]|]). done. }
  case_bool_decide.
  - destruct address as [a|]; [|done]. destruct (Ha a eq_refl) as [Ha1 Ha2].
    destruct a as [|c a]; [discriminate Hb|].
    assert (vs = <[lit "GREFFER_ADDRESS" := lit (String c a)]> base) as -> by (by injection Hb).
    split; [|split].
    + apply good_insert; [apply (bool_decide_unpack _); by vm_compute|done|done].
    + intros k v. rewrite lookup_insert_Some. intros [[_ <-]|[_ H']]; [done|by apply (Hq k)].
    + unfold base. split_and!; by rewrite !lookup_insert_ne, ?lookup_insert_eq by done.
  - injection Hb as <-. split; [done|]. split; [done|]. unfold base.
    split_and!; rewrite ?lookup_insert_ne, ?lookup_insert_eq by done; done.
Qed.
(** The manager of this run, and the mode of a configured node. *)
Definition manager_of (o : options) (s : state) : string :=
  match o_manager o with
  | Some m => m
  | None => default DEFAULT_MANAGER (or_else (env_get (read_env (env_env s)) "GREFFON_BASE_SERVER") None)
  end.
Definition mode_of (o : options) (s : state) : string :=
  default (o_mode o) (or_else (env_get (read_env (env_env s)) "GREFFER_MODE") None).

Lemma check_options_inv o s :
  check_options o s = (Ok (), s) ∨
  ∃ why, check_options o s = (Raise (Exit 2), record (EPrint (Refused why)) s).
Proof.
  unfold check_options, refuse. destruct (negb _); [right; by eexists|].
  case_bool_decide; [right; by eexists|]. case_bool_decide; [|by left].
  destruct (or_else _ _) as [a|]; [destruct (_HOSTNAME_OR_IP_RE a); [by left|]|]; right; by eexists.
Qed.

Lemma resolve_manager_eq o s : resolve_manager o s = (Ok (manager_of o s), s).
Proof. unfold resolve_manager, manager_of. by destruct (o_manager o). Qed.

(** The last part of [up], on the files as they are. *)
Definition follow (o : options) (manager : string) (s : state) : result exc () * state :=
  (rc ← run_state_machine E compose_file manager (o_id o) (mode_of o s) (o_timeout o);
   if (rc =? EXIT_OK)%Z then mret () else throw (Exit rc) : C ()) s.

Lemma follow_runs o m s r s' : follow o m s = (r, s') → runs s s'.
Proof.
  unfold follow. apply (rel_run runs (rc ← _; _)). apply (rel_bind runs); [apply runs_stages|]. intros rc. runs_auto.
Qed.

(** [up], by the identity the host has. *)
Lemma up_refused why o s : check_options o s = (Raise (Exit 2), why) → up E compose_file template image_tag o s = (Raise (Exit 2), why).
Proof. intros H. unfold up, mbind, M_bind at 1. by rewrite H. Qed.

Lemma up_valid o s :
  check_options o s = (Ok (), s) →
  up E compose_file template image_tag o s =
    match configure template image_tag o (manager_of o s) s with
    | (Ok _, s1) => follow o (manager_of o s) s1
    | (Raise e, s1) => (Raise e, s1)
    end.
Proof.
  intros H. unfold up. unfold mbind at 1. unfold M_bind at 1. rewrite H.
  unfold mbind at 1. unfold M_bind at 1. rewrite resolve_manager_eq.
  unfold mbind at 1. unfold M_bind at 1. by destruct (configure _ _ _ _ s) as [[?|?] ?].
Qed.

Lemma configure_same o m s : id_of s = Some (o_id o) → configure template image_tag o m s = (Ok (), record (EPrint NoOp) s).
Proof.
  intros H. unfold configure, existing_greffer_id, get_env, gets, mbind, M_bind. cbn. unfold id_of in H. rewrite H.
  by rewrite bool_decide_eq_true_2.
Qed.
Lemma configure_other o m s i :
  id_of s = Some i → i ≠ o_id o → configure template image_tag o m s = (Raise (Exit 1), record (EPrint (Refused "different id")) s).
Proof.
  intros H Hi. unfold configure, existing_greffer_id, get_env, gets, mbind, M_bind. cbn. unfold id_of in H. rewrite H.
  by rewrite bool_decide_eq_false_2.
Qed.
Lemma configure_log o m s r s' : configure template image_tag o m s = (r, s') → suffix (log s) (log s').
Proof.
  destruct (id_of s) as [i|] eqn:Hid.
  - destruct (decide (i = o_id o)) as [->|Hi].
    + rewrite configure_same by done. intros [= _ <-]. by apply suffix_cons_r.
    + rewrite (configure_other _ _ _ i) by done. intros [= _ <-]. by apply suffix_cons_r.
  - unfold configure, existing_greffer_id, get_env, gets, mbind, M_bind. cbn. unfold id_of in Hid.
    rewrite Hid. unfold lift. destruct (_build_env_values _ _ _ _) as [vs|e]; cbn; [|by intros [= _ <-]].
    destruct (bool_decide _); cbn; intros [= _ <-]; cbn; repeat apply suffix_cons_r; done.
Qed.
Lemma configure_first o m s r s' :
  id_of s = None → configure template image_tag o m s = (r, s') →
  (∃ e, r = Raise e ∧ _build_env_values m (o_id o) (o_mode o) (o_address o) = Raise e) ∨
  ∃ vs, r = Ok () ∧ _build_env_values m (o_id o) (o_mode o) (o_address o) = Ok vs ∧
    compose_yml s' = Some (replace_tag 0 image_tag template) ∧ env_env s' = Some (to_text vs).
Proof.
  intros H Hc. unfold configure, existing_greffer_id, get_env, gets, mbind, M_bind in Hc. cbn in Hc. unfold id_of in H.
  rewrite H in Hc. unfold lift in Hc. destruct (_build_env_values _ _ _ _) as [vs|e]; cbn in Hc; [|injection Hc as <- _; by left; eexists].
  right. exists vs. destruct (bool_decide _); cbn in Hc; injection Hc as <- <-; by split_and!.
Qed.

Lemma check_options_modes o s : check_options o s = (Ok (), s) → o_mode o = "tunnel" ∨ o_mode o = "proxy".
Proof.
  unfold check_options, refuse. destruct (mem (o_mode o) _) eqn:Hm; [intros _|done].
  apply mem_true in Hm. set_solver.
Qed.
Lemma check_options_mode o s : check_options o s = (Ok (), s) → plain (o_mode o).
Proof. intros [-> | ->]%check_options_modes; apply plain_dec_intro; by vm_compute. Qed.
Lemma build_valid o m s : check_options o s = (Ok (), s) → ∃ vs, _build_env_values m (o_id o) (o_mode o) (o_address o) = Ok vs.
Proof.
  unfold check_options, _build_env_values, refuse. destruct (negb _); [done|]. case_bool_decide; [done|].
  case_bool_decide; [|by eexists]. destruct (or_else _ _); [by eexists|done].
Qed.

(** The first run configures the host. *)
Lemma up_first o s r s' :
  id_of s = None → check_options o s = (Ok (), s) → up E compose_file template image_tag o s = (r, s') →
  ∃ vs, _build_env_values (manager_of o s) (o_id o) (o_mode o) (o_address o) = Ok vs ∧
    compose_yml s' = Some (replace_tag 0 image_tag template) ∧ env_env s' = Some (to_text vs).
Proof.
  intros Hid Hv H. rewrite up_valid in H by done. destruct (build_valid o (manager_of o s) s Hv) as [vs Hvs].
  destruct (configure _ _ _ _ _) as [rc s1] eqn:Hc.
  apply configure_first in Hc as [(e & _ & He)|(vs' & -> & Hvs' & Hcy & Hee)]; [congruence| |done].
  apply follow_runs in H as (_ & Hcy' & Hee'). exists vs'. rewrite Hcy', Hee'. by split_and!.
Qed.

(** A configured host keeps its files. *)
Lemma up_again i o s r s' :
  id_of s = Some i → up E compose_file template image_tag o s = (r, s') →
  runs s s' ∧ (i ≠ o_id o → ∃ c why, c ≠ 0%Z ∧ r = Raise (Exit c) ∧ s' = record (EPrint (Refused why)) s).
Proof.
  intros Hid H. destruct (check_options_inv o s) as [Hv|[why Hv]].
  2: { rewrite (up_refused _ _ _ Hv) in H. injection H as <- <-. split; [apply runs_record|]. intros _. by exists 2%Z, why. }
  rewrite up_valid in H by done. destruct (decide (i = o_id o)) as [->|Hi].
  - rewrite configure_same in H by done. split; [|done]. apply follow_runs in H. etrans; [apply runs_record|exact H].
  - rewrite (configure_other o _ s i) in H by done. injection H as <- <-. split; [apply runs_record|].
    intros _. by exists 1%Z, "different id".
Qed.

Lemma follow_connected o m s s' :
  follow o m s = (Ok (), s') → seen (log s) (evidence E compose_file (mode_of o s) m (o_id o)) (log s').
Proof.
  unfold follow. intros (c & s1 & H1 & H)%bind_inv. destruct (Z.eqb_spec c EXIT_OK) as [->|]; [|done].
  injection H as <-. by apply (run_connected E compose_file (log s)) in H1.
Qed.
End configured.

Lemma seen_since h0 h1 ps h : suffix h0 h1 → seen h1 ps h → seen h0 ps h.
Proof.
  intros H0. revert h. induction ps as [|p ps IH]; [cbn; intros ??; by etrans|].
  intros h (u & e & v & -> & Hp & Hs). exists u, e, v. auto.
Qed.

Lemma up_evidence E compose_file template image_tag o s s' :
  up E compose_file template image_tag o s = (Ok (), s') →
  seen (log s) (evidence E compose_file (mode_of o s') (manager_of o s) (o_id o)) (log s').
Proof.
  intros H. destruct (check_options_inv o s) as [Hv|[why Hv]]; [|by rewrite (up_refused _ _ _ _ _ _ _ Hv) in H].
  rewrite up_valid in H by done. destruct (configure _ _ _ _ _) as [[u|e] s1] eqn:Hc; [|done].
  pose proof (follow_runs _ _ _ _ _ _ _ H) as (_ & _ & He). apply follow_connected in H.
  unfold mode_of. rewrite He. eapply seen_since, H. by eapply configure_log.
Qed.

Lemma seen_some h0 ps p h : p ∈ ps → seen h0 ps h → ∃ k e, h = (k ++ h0)%list ∧ e ∈ k ∧ p e.
Proof.
  intros Hp. revert h. induction Hp as [p ps|p q ps Hp IH]; intros h (h1 & e & h2 & -> & He & Hs).
  - destruct (seen_suffix h0 [] h2 h2) as [k ->]; [done| |].
    + clear -Hs. revert h2 Hs. induction ps as [|q ps IH]; intros h2; [done|].
      intros (u & e & v & -> & _ & Hs). apply IH in Hs. cbn in *. apply suffix_app_r. by apply suffix_cons_r.
    + exists (h1 ++ e :: k)%list, e. rewrite <-app_assoc. split; [done|]. split; [|done]. apply elem_of_app. right. left.
  - apply IH in Hs as (k & e' & -> & Hin & ?). exists (h1 ++ e :: k)%list, e'. rewrite <-app_assoc. split; [done|].
    split; [|done]. apply elem_of_app. right. by right.
Qed.

(** C17: a run of [greffer up] that exits with 0 has seen, in this order and since it
    started: an answer of docker with exit code 0 whose rows speak of one service of
    the profile at least and whose last row on each says that it runs; an answer of
    the manager below 400 whose object says that this id is registered; the test of
    the certificate exit with 0 when the node is in proxy mode; and the health probe in
    the container exit with 0. The host then carries this id, either from before, with
    both files as they were, or from the files this run wrote. *)
Theorem up_connected E compose_file template image_tag o s s' :
  up E compose_file template image_tag o s = (Ok (), s') →
  seen (log s) (evidence E compose_file (mode_of o s') (manager_of o s) (o_id o)) (log s') ∧
  ((id_of s = Some (o_id o) ∧ compose_yml s' = compose_yml s ∧ env_env s' = env_env s) ∨
   (id_of s = None ∧ ∃ vs, _build_env_values (manager_of o s) (o_id o) (o_mode o) (o_address o) = Ok vs ∧
      compose_yml s' = Some (replace_tag 0 image_tag template) ∧ env_env s' = Some (to_text vs))).
Proof.
  intros H. split; [by eapply up_evidence|].
  destruct (check_options_inv o s) as [Hv|[why Hv]]; [|by rewrite (up_refused _ _ _ _ _ _ _ Hv) in H].
  destruct (id_of s) as [i|] eqn:Hid.
  - left. destruct (up_again _ _ _ _ _ _ _ _ _ Hid H) as [(_ & Hcy & Hee) Hi].
    destruct (decide (i = o_id o)) as [->|Hn]; [done|]. destruct (Hi Hn) as (? & ? & _ & [=] & _).
  - right. split; [done|]. by eapply up_first.
Qed.

(** C18: where the manager, the id and the address are each on one line and without a
    quote, the first run with valid options writes the compose file with the image tag
    and a settings file that reads back with this id, manager and mode, however the run
    ends. No later run changes either file, with whatever options: one with another id
    is refused with a code other than 0, having done nothing but print why, and one
    with another manager has that manager polled, and exits with 0 only after it
    answered registered, while the settings keep the first one. (The help of the option
    says that an explicit manager wins on a later run: [manager_stays].) *)
Theorem up_configures_once E compose_file template image_tag o s r s1 :
  id_of s = None → check_options o s = (Ok (), s) →
  plain (manager_of o s) → plain (o_id o) → (∀ a, o_address o = Some a → plain a) →
  up E compose_file template image_tag o s = (r, s1) →
  (compose_yml s1 = Some (replace_tag 0 image_tag template) ∧ id_of s1 = Some (o_id o) ∧
   env_get (read_env (env_env s1)) "GREFFON_BASE_SERVER" = Some (manager_of o s) ∧
   ∀ o', mode_of o' s1 = o_mode o) ∧
  ∀ template' image_tag' o' r' s2,
    up E compose_file template' image_tag' o' s1 = (r', s2) →
    (compose_yml s2 = compose_yml s1 ∧ env_env s2 = env_env s1) ∧
    (o_id o' ≠ o_id o → ∃ c why, c ≠ 0%Z ∧ r' = Raise (Exit c) ∧ log s2 = EPrint (Refused why) :: log s1) ∧
    (∀ manager, o_manager o' = Some manager → r' = Ok () →
       ∃ k e, log s2 = (k ++ log s1)%list ∧ e ∈ k ∧ registered manager (o_id o) e).
Proof.
  intros Hid Hv Hm Hi Ha H. destruct (up_first _ _ _ _ _ _ _ _ Hid Hv H) as (vs & Hvs & Hcy & Hee).
  apply built_values_read in Hvs as (Hr & H1 & H2 & H3); try done; [|by eapply check_options_mode].
  assert (read_env (env_env s1) = vs) as Hre by (by rewrite Hee).
  assert (id_of s1 = Some (o_id o)) as Hid1 by (unfold id_of; by rewrite Hre).
  split; [split_and!; try done; [by rewrite Hre|]|].
  - intros o'. unfold mode_of. rewrite Hre, H3. by destruct (check_options_modes _ _ Hv) as [->| ->].
  - intros tp' tag' o' r' s2 H'. destruct (up_again _ _ _ _ _ _ _ _ _ Hid1 H') as [(_ & Hf) Ho]. split; [done|]. split.
    + intros Hn. destruct (Ho (not_eq_sym Hn)) as (c & why & Hc & -> & ->). by exists c, why.
    + intros m Hm' ->. destruct (decide (o_id o = o_id o')) as [->|Hn]; [|by destruct (Ho Hn) as (? & ? & _ & [=] & _)].
      apply up_evidence in H'. unfold manager_of in H'. rewrite Hm' in H'.
      eapply seen_some, H'. unfold evidence. destruct (bool_decide _); set_solver.
Qed.

(** ** The waits end *)

(** Time passes, at least as long as is slept. *)
Definition clock (E : env) : Prop :=
  (∀ e h, (monotonic E h ≤ monotonic E (e :: h))%Z) ∧
  (∀ ms h, (monotonic E h + ms ≤ monotonic E (ESleep ms :: h))%Z).

Section ending.
Context (E : env) (Hclock : clock E).
Notation C := (M state exc).
Local Open Scope Z_scope.
Notation time s := (monotonic E (log s)).

Lemma runs_time s s' : runs s s' → time s ≤ time s'.
Proof.
  intros [[k ->] _]. induction k as [|e k IH]; [done|]. etrans; [exact IH|]. apply Hclock.
Qed.

Lemma wait_until_ends n check d fuel s :
  rel runs check → d - time s ≤ 2000 * Z.of_nat fuel →
  wait_until E (fuel + n) check d s = wait_until E fuel check d s.
Proof.
  intros Hc. revert s. induction fuel as [|fuel IH]; intros s Hd.
  - destruct n as [|n]; [done|]. cbn [wait_until Nat.add]. unfold now, gets, mbind, M_bind.
    destruct (Z.ltb_spec (time s) d); [lia|done].
  - cbn [wait_until Nat.add]. unfold now, gets, mbind, M_bind. destruct (negb _); [done|].
    destruct (check s) as [[[|]|e] s1] eqn:Hs; [done| |done]. cbn. apply IH.
    apply (rel_run runs), runs_time in Hs; [|done]. cbn.
    pose proof (proj2 Hclock 2000 (log s1)). lia.
Qed.

(** A round that goes on has slept two seconds, or up to the deadline. *)
Lemma back_off_again f d w s w' s' :
  2000 ≤ f → back_off E f d w s = (Ok (inr w'), s') →
  time s < d ∧ (time s + 2000 ≤ time s' ∨ d ≤ time s') ∧ interval w' = backed_off (interval w).
Proof.
  intros Hf. unfold back_off, now, gets, mbind, M_bind. destruct (Z.leb_spec d (time s)); [done|]. cbn.
  intros [= <- <-]. split; [done|]. split; [|done]. cbn.
  pose proof (proj2 Hclock (f `min` (0 `max` (d - time s))) (log s)). lia.
Qed.

Lemma on_state_again v d w s w' s' : on_state E v d w s = (Ok (inr w'), s') → time s < d.
Proof.
  unfold on_state. intros H. apply bind_inv in H as (w1 & s1 & H1 & H).
  destruct (is_state v ["GREFFER_REGISTERED"]); [done|].
  apply bind_inv in H as (w2 & s2 & H2 & H). apply bind_inv in H as (t & s3 & [= <- <-] & H).
  destruct (Z.leb_spec d (time s2)); [done|].
  apply (rel_run runs), runs_time in H1; [|unfold _on_state_change; runs_auto].
  apply (rel_run runs), runs_time in H2; [lia|runs_auto].
Qed.

Lemma poll_again m i d w s w' s' :
  2000 ≤ interval w → poll E m i d w s = (Ok (inr w'), s') →
  time s < d ∧ (time s + 2000 ≤ time s' ∨ d ≤ time s') ∧ 2000 ≤ interval w'.
Proof.
  intros Hw. unfold poll. intros H. apply bind_inv in H as (r & s1 & H1 & H).
  apply (rel_run runs), runs_time in H1; [|apply rel_attempt; unfold fetch_state; runs_auto; apply runs_fetch].
  assert (2000 ≤ backed_off (interval w)) as Hb by (unfold backed_off, rate_limited_interval_max, rate_limited_interval; destruct (Z.leb_spec 5000 (interval w)); lia).
  destruct r as [v|[]]; try done.
  - apply bind_inv in H as ([b|w1] & s2 & H2 & H); [done|]. pose proof (on_state_again _ _ _ _ _ _ H2).
    apply (rel_run runs), runs_time in H2; [|apply runs_on_state]. apply bind_inv in H as (? & s3 & [= _ <-] & [= <- <-]).
    cbn. unfold initial_interval. pose proof (proj2 Hclock 2000 (log s2)). lia.
  - apply back_off_again in H as (? & ? & ->); lia.
  - apply back_off_again in H as (? & ? & ->); lia.
Qed.

Lemma poll_loop_ends n m i d fuel w s :
  2000 ≤ interval w → d - time s ≤ 2000 * Z.of_nat fuel →
  poll_loop E (S fuel + n) m i d w s = poll_loop E (S fuel) m i d w s.
Proof.
  revert w s. induction fuel as [|fuel IH]; intros w s Hw Hd.
  all: cbn [poll_loop Nat.add]; unfold mbind, M_bind.
  all: destruct (poll E m i d w s) as [[[b|w1]|e] s1] eqn:Hp; [done| |done].
  all: apply poll_again in Hp as (? & ? & ?); [|done].
  - lia.
  - apply IH; [done|lia].
Qed.
End ending.

(** C19: on a clock that advances by what is slept, the waits end: however many more rounds they are
    given than [rounds timeout], the wait for a condition and the wait for the manager's state do and
    answer the same. *)
Theorem waits_end E n check manager id timeout s w :
  clock E → rel runs check → (2000 ≤ interval w)%Z →
  let deadline := (monotonic E (log s) + timeout)%Z in
  wait_until E (rounds timeout + n) check deadline s = wait_until E (rounds timeout) check deadline s ∧
  poll_loop E (rounds timeout + n) manager id deadline w s = poll_loop E (rounds timeout) manager id deadline w s.
Proof.
  intros Hclock Hcheck Hw deadline.
  assert (deadline - monotonic E (log s) ≤ 2000 * Z.of_nat (S (Z.to_nat (timeout / 2000))))%Z.
  { unfold deadline. pose proof (Z.div_mod timeout 2000). pose proof (Z.mod_pos_bound timeout 2000). lia. }
  split; [|by apply poll_loop_ends]. apply wait_until_ends; [done..|]. unfold rounds. lia.
Qed.

Module Demo.
(** A host where the services come up with [up -d] and the node is accepted after the first poll. *)
Definition slept (e : event) : Z := match e with ESleep ms => Z.max 0 ms | _ => 0%Z end.
Definition is_up (e : event) : bool := match e with ERun args _ => mem "-d" args | _ => false end.
Definition is_fetch (e : event) : bool := match e with EFetch _ _ => true | _ => false end.
Definition host (heartbeats : bool) : env := {|
  run_answer h args :=
    if mem "ps" args then Command 0 (if existsb is_up h then "up" else "down") "" else Command 0 "" "";
  fetch_answer h _ :=
    Some (Reply 200 None (Some (VDict [(VStr "state",
      VStr (if heartbeats && existsb is_fetch h then "GREFFER_REGISTERED" else "GREFFER_CREATED"))])));
  probe_answer _ _ := true;
  port_answer _ _ := true;
  loads s := Some (VDict [(VStr "Service", VStr "greffer"); (VStr "State", VStr (if (s =? "up")%string then "Running" else "exited"))]);
  monotonic h := foldr (λ e t, (slept e + t)%Z) 0%Z h;
|}.
Definition template : text := lit "image: greffer:<TAG>".
Definition empty : state := State None None [].
Definition first : options := Options "abc" (Some "https://m/") "proxy" (Some "node.example.org") 10000.
Definition up_on hb := up (host hb) "docker-compose.yml" template (lit "1.2").

Example connected : fst (up_on true first empty) = Ok ().
Proof. by vm_compute. Qed.
Example written : compose_yml (snd (up_on true first empty)) = Some (lit "image: greffer:1.2").
Proof. by vm_compute. Qed.
(** Never accepted: the wait ends after ten seconds, with 11, on a configured host. *)
Example not_accepted :
  fst (up_on false first empty) = Raise (Exit 11) ∧ id_of (snd (up_on false first empty)) = Some "abc".
Proof. by vm_compute. Qed.
(** Another manager on a later run is polled, but the settings of the container keep the first one. *)
Example manager_stays :
  let s' := snd (up_on true (Options "abc" (Some "https://new") "proxy" (Some "node.example.org") 10000) (snd (up_on true first empty))) in
  env_get (read_env (env_env s')) "GREFFON_BASE_SERVER" = Some "https://m/" ∧
  existsb (λ e, match e with EFetch url _ => (url =? state_url "https://new" "abc")%string | _ => false end) (log s') = true.
Proof. by vm_compute. Qed.
Example address_newline : _HOSTNAME_OR_IP_RE ("node.example.org" +:+ nl) = true ∧ _HOSTNAME_OR_IP_RE "-node" = false.
Proof. by vm_compute. Qed.
Example ready : fst (doctor_command (host true) None 8001 empty) = Ok ().
Proof. by vm_compute. Qed.
Example state_shown :
  (λ r, manager_state r) <$> (match fst (collect (host true) "f" (snd (up_on true first empty))) with Ok r => Some r | _ => None end)
  = Some (Some (VStr "GREFFER_REGISTERED")).
Proof. by vm_compute. Qed.

Lemma host_clock hb : clock (host hb).
Proof.
  split; [|intros ms h; cbn; lia]. intros e h. cbn. destruct e; cbn; lia.
Qed.
End Demo.

Lemma up_connected_witness : ∃ s', Demo.up_on true Demo.first Demo.empty = (Ok (), s') ∧
  seen [] (evidence (Demo.host true) "docker-compose.yml" "proxy" "https://m/" "abc") (log s').
Proof.
  eexists. split; [by vm_compute|].
  eapply (up_connected (Demo.host true) "docker-compose.yml" Demo.template (lit "1.2") Demo.first Demo.empty).
  by vm_compute.
Defined.

Lemma up_configures_once_witness :
  let s1 := snd (Demo.up_on false Demo.first Demo.empty) in
  id_of s1 = Some "abc" ∧
  ∃ c why, c ≠ 0%Z ∧ fst (Demo.up_on false (Options "other" None "tunnel" None 10000) s1) = Raise (Exit c) ∧
    log (snd (Demo.up_on false (Options "other" None "tunnel" None 10000) s1)) = EPrint (Refused why) :: log s1.
Proof.
  intros s1.
  destruct (up_configures_once (Demo.host false) "docker-compose.yml" Demo.template (lit "1.2") Demo.first Demo.empty
              (Raise (Exit 11)) s1) as [(_ & Hid & _) Hlater].
  1-2: by vm_compute.
  1-2: apply plain_dec_intro; by vm_compute.
  { intros a [= <-]. apply plain_dec_intro. by vm_compute. }
  { by vm_compute. }
  split; [exact Hid|].
  apply (Hlater Demo.template (lit "1.2") (Options "other" None "tunnel" None 10000) _ _); [apply surjective_pairing|done].
Defined.

Lemma waits_end_witness :
  poll_loop (Demo.host false) (rounds 10000 + 50) "https://m" "abc" 10000 (Waiting 2000 0 [] None false false) Demo.empty =
  poll_loop (Demo.host false) (rounds 10000) "https://m" "abc" 10000 (Waiting 2000 0 [] None false false) Demo.empty.
Proof.
  apply (waits_end (Demo.host false) 50 (mret true) "https://m" "abc" 10000 Demo.empty (Waiting 2000 0 [] None false false)).
  - apply Demo.host_clock.
  - intros s. by apply (reflexivity (R := runs)).
  - cbn. lia.
Defined.
