(* ===== verification/Api.v ===== *)
(** The surface of the server: [app/middleware.py] ([Middleware]), [app/auth.py],
    [app/errors.py] ([Errors]), the validation of the requests in
    [app/models/controller.py] ([Requests]), the source of a compose file in
    [apps/utils/greffon/repository.py] ([Source]), [app/routers/health.py], and the start
    and the end of the process in [app/lifespan.py], [app/workers/__init__.py] and
    [app/main.py] ([Lifespan]).

    What FastAPI, pydantic and the ASGI server do is taken as they document it: a
    body is parsed JSON ([value]), a field of a model is refused or has its type, and
    the inner application is the list of messages it sends and how it ends. *)
From Stdlib Require Import Ascii String.
From S2P Require Import Prelude PyValue PyFloat Workers.
Import Text.
Local Open Scope string_scope.

(** ** The request id *)
Module Middleware.

Definition _HEADER : string := "x-request-id".
Definition rid_char (c : ascii) : bool :=
  is_alpha c || is_digit c || Ascii.eqb c "." || Ascii.eqb c "_" || Ascii.eqb c "-".
Definition _RID_RE (s : string) : bool := negb (s =? "") && all_chars rid_char s.
Definition _RID_MAX_LEN : nat := 128.

Notation headers := (list (string * string)).
Definition is_rid (h : string * string) : bool := lower h.1 =? _HEADER.

(** What an ASGI application sends; [None] are headers it left out. *)
Inductive message : Type :=
  | Start (status : Z) (hs : option headers)
  | Body (bytes : string).
Definition is_start (m : message) : bool := match m with Start _ _ => true | Body _ => false end.

(** How the application ends: it returns, an [Exception] (of a [send], too), or a
    cancellation. *)
Inductive ending : Type := Returned | Raised | Cancelled.
Inductive scope : Type := Http (hs : headers) | Other.

Definition incoming (hs : headers) : option string := snd <$> head (filter is_rid hs).
Definition acceptable (s : string) : bool := (String.length s <=? _RID_MAX_LEN)%nat && _RID_RE s.
Definition request_id (hs : headers) (uuid : string) : string :=
  match incoming hs with Some s => if acceptable s then s else uuid | None => uuid end.

Definition send_with_header (rid : string) (m : message) : message :=
  match m with
  | Start status hs => Start status (Some (filter (λ h, negb (is_rid h)) (default [] hs) ++ [(_HEADER, rid)])%list)
  | Body b => Body b
  end.

Definition dquote : string := String (ascii_of_N 34) "".
Definition quoted (s : string) : string := dquote +:+ s +:+ dquote.
Definition internal_error : list message :=
  [Start 500 (Some [("content-type", "application/json")]);
   Body ("{" +:+ quoted "message" +:+ ": " +:+ quoted "internal_error" +:+ "}")].

Definition call (sc : scope) (uuid : string) (app : list message * ending) : list message * ending :=
  match sc with
  | Other => app
  | Http hs =>
      let rid := request_id hs uuid in
      let sent := send_with_header rid <$> app.1 in
      match app.2 with
      | Raised => if existsb is_start app.1 then (sent, Raised)
                  else (sent ++ (send_with_header rid <$> internal_error), Returned)%list
      | e => (sent, e)
      end
  end.

(** An id that may stand in a header and in a line of a log. *)
Definition clean (s : string) : Prop :=
  s ≠ "" ∧ (String.length s ≤ 128)%nat ∧ ∀ c, c ∈ list_ascii_of_string s → (32 < N_of_ascii c < 127)%N.

Lemma rid_char_printable c : rid_char c = true → (32 < N_of_ascii c < 127)%N.
Proof. destruct c as [[] [] [] [] [] [] [] []]; vm_compute; by try split. Qed.

Lemma all_chars_elem f s c : all_chars f s = true → c ∈ list_ascii_of_string s → f c = true.
Proof.
  induction s as [|d s IH]; cbn; [by intros _ ?%elem_of_nil|].
  intros [Hd Hs]%andb_prop [->|Hc]%elem_of_cons; [done|by apply IH].
Qed.

Lemma acceptable_clean s : acceptable s = true → clean s.
Proof.
  unfold acceptable, _RID_RE. intros [Hl [Hn Hc]%andb_prop]%andb_prop. split_and!.
  - by intros ->.
  - by apply Nat.leb_le in Hl.
  - intros c Hin. by eapply rid_char_printable, all_chars_elem.
Qed.

Lemma request_id_clean hs uuid : clean uuid → clean (request_id hs uuid).
Proof.
  unfold request_id. intros Hu. destruct (incoming hs) as [s|]; [|done].
  destruct (acceptable s) eqn:Ha; [by apply acceptable_clean|done].
Qed.

(** A start of a response with the header of [rid] alone. *)
Definition stamped (rid : string) (m : message) : Prop :=
  match m with Start _ hs => ∃ l, hs = Some l ∧ filter is_rid l = [(_HEADER, rid)] | Body _ => True end.
Lemma send_stamped rid m : stamped rid (send_with_header rid m).
Proof.
  destruct m as [st hs|]; [|done]. eexists. split; [done|]. rewrite filter_app. cbn.
  assert (filter is_rid (filter (λ h, negb (is_rid h)) (default [] hs)) = []) as ->; [|done].
  induction (default [] hs) as [|h l IH]; [done|]. rewrite filter_cons. destruct (decide _) as [Hh|]; [|done].
  rewrite filter_cons_False; [done|]. destruct (is_rid h); [by destruct Hh|by intros []].
Qed.
End Middleware.
Import Middleware.

(** ** Authentication *)
Inductive refusal : Type :=
  | HTTPException (status_code : Z) (detail : string)
  | RequestValidationError
  | Uncaught (class : string).

(** [secrets.compare_digest]: two texts must be ASCII. *)
Definition is_ascii (s : string) : bool := all_chars (λ c, (N_of_ascii c <? 128)%N) s.
Definition compare_digest (a b : string) : result refusal bool :=
  if is_ascii a && is_ascii b then Ok (a =? b) else Raise (Uncaught "TypeError").

(** [provided]: the header as text, one character for each byte. *)
Definition require_token (provided : option string) (expected : string) : result refusal () :=
  match provided with
  | None => Raise (HTTPException 401 "Invalid or missing token")
  | Some provided =>
      same ← compare_digest provided expected;
      if (same : bool) then Ok () else Raise (HTTPException 401 "Invalid or missing token")
  end.

Lemma require_token_ok provided expected : require_token provided expected = Ok () → provided = Some expected.
Proof.
  unfold require_token, compare_digest. destruct provided as [p|]; [|done].
  destruct (_ && _); [|done]. cbn. destruct (String.eqb_spec p expected); [by subst|done].
Qed.

Lemma require_token_refusals provided expected why :
  require_token provided expected = Raise why →
  why ∈ [HTTPException 401 "Invalid or missing token"; Uncaught "TypeError"; RequestValidationError].
Proof.
  unfold require_token, compare_digest. destruct provided as [p|]; [|intros [= <-]; by left].
  destruct (_ && _); cbn; [|intros [= <-]; right; by left]. destruct (p =? expected); [done|]. intros [= <-]. by left.
Qed.

(** A header that is not ASCII is not refused: it ends the request with a 500. *)
Example not_ascii : require_token (Some (String (ascii_of_N 233) "")) "token" = Raise (Uncaught "TypeError").
Proof. reflexivity. Qed.

(** ** Errors *)
Module Errors.

Inductive part : Type := Name (s : string) | Index (text : string).
Definition LOC_PREFIXES_TO_STRIP : list string := ["body"; "path"; "query"].
Definition stripped (p : part) : bool := match p with Name s => mem s LOC_PREFIXES_TO_STRIP | Index _ => false end.
Definition str_of (p : part) : string := match p with Name s => s | Index s => s end.

(** An error of pydantic: [loc] and [msg], either of which may be missing. *)
Record error : Type := Error { loc : option (list part); err_msg : option string }.

Fixpoint setdefault_append (key msg : string) (out : list (string * list string)) : list (string * list string) :=
  match out with
  | [] => [(key, [msg])]
  | (k, msgs) :: out => if k =? key then (k, msgs ++ [msg])%list :: out else (k, msgs) :: setdefault_append key msg out
  end.

Definition key_of (e : error) : string :=
  match filter (λ p, negb (stripped p)) (default [] (loc e)) with
  | [] => "_"
  | l => String.concat "." (str_of <$> l)
  end.
Definition _drf_shape (errors : list error) : list (string * list string) :=
  foldl (λ out e, setdefault_append (key_of e) (default "" (err_msg e)) out) [] errors.

(** A JSON reply, [Detail] being FastAPI's own for an [HTTPException]. *)
Inductive reply : Type :=
  | Empty (status : Z)
  | Fields (status : Z) (errors : list (string * list string))
  | Detail (status : Z) (detail : string).
Definition _validation_handler (errors : list error) : reply := Fields 400 (_drf_shape errors).
Definition _http_exception_handler (status_code : Z) (detail : string) : reply :=
  if (status_code =? 401)%Z then Empty 401 else Detail status_code detail.

Definition messages (out : list (string * list string)) : list string := concat out.*2.
Definition keys (out : list (string * list string)) : list string := out.*1.

Lemma setdefault_keys key m out :
  keys (setdefault_append key m out) = if bool_decide (key ∈ keys out) then keys out else (keys out ++ [key])%list.
Proof.
  induction out as [|[k ms] out IH]; [by rewrite bool_decide_eq_false_2 by (by intros ?%elem_of_nil)|].
  cbn. destruct (String.eqb_spec k key) as [->|Hk]; cbn.
  - by rewrite bool_decide_eq_true_2 by (by left).
  - fold (keys out). change ((setdefault_append key m out).*1) with (keys (setdefault_append key m out)). rewrite IH.
    case_bool_decide as H1; case_bool_decide as H2; try done.
    + destruct H2. by right.
    + apply elem_of_cons in H2 as [->|H2]; done.
Qed.

Lemma setdefault_messages key m out : messages (setdefault_append key m out) ≡ₚ m :: messages out.
Proof.
  induction out as [|[k ms] out IH]; [done|]. cbn. destruct (k =? key); cbn.
  - unfold messages. rewrite <-(app_assoc ms). cbn. symmetry. apply Permutation_middle.
  - change (concat (setdefault_append key m out).*2) with (messages (setdefault_append key m out)). rewrite IH.
    symmetry. apply (Permutation_middle ms).
Qed.

(** Every message of pydantic is in the reply, under one key for each field. *)
Lemma drf_complete errors :
  NoDup (keys (_drf_shape errors)) ∧ messages (_drf_shape errors) ≡ₚ (λ e, default "" (err_msg e)) <$> errors.
Proof.
  unfold _drf_shape. induction errors as [|e errors IH] using rev_ind; [by split; [constructor|]|].
  rewrite foldl_app, fmap_app. cbn [foldl fmap list_fmap]. destruct IH as [Hn Hm]. split.
  - rewrite setdefault_keys. case_bool_decide; [done|]. apply NoDup_app. split_and!; [done| |apply NoDup_singleton].
    by intros k Hk ->%list_elem_of_singleton.
  - rewrite setdefault_messages, Hm. apply Permutation_cons_append.
Qed.

(** The prefix is dropped wherever it stands: two fields share a key. *)
Example dropped_inside :
  _drf_shape [Error (Some [Name "body"; Name "ports"; Name "path"]) (Some "a"); Error (Some [Name "body"; Name "ports"]) (Some "b")]
  = [("ports", ["a"; "b"])].
Proof. reflexivity. Qed.
End Errors.

(** ** The requests of the manager *)
Module Requests.

(** *** Fields, [None] when the field is refused *)
Definition within (lo : nat) (hi : option nat) (s : string) : bool :=
  (lo <=? String.length s)%nat && match hi with Some n => (String.length s <=? n)%nat | None => true end.

Notation object := (list (value * value)).
(** A field without a default. *)
Definition required {A} (parse : value → option A) (k : string) (d : object) : option A := dict_get k d ≫= parse.
(** A field with one. *)
Definition optional {A} (parse : value → option A) (default_ : A) (k : string) (d : object) : option A :=
  match dict_get k d with None => Some default_ | Some v => parse v end.
(** [T | None] *)
Definition nullable {A} (parse : value → option A) (v : value) : option (option A) :=
  match v with VNull => Some None | _ => Some <$> parse v end.

Definition str (lo : nat) (hi : option nat) (v : value) : option string :=
  match v with VStr s => if within lo hi s then Some s else None | _ => None end.
Definition pattern (matches : string → bool) (parse : value → option string) (v : value) : option string :=
  s ← parse v; if matches s then Some s else None.
(** [dict[str, T]]; the keys of a JSON object are texts. *)
Fixpoint dict_of {A} (parse : value → option A) (d : object) : option (list (string * A)) :=
  match d with
  | [] => Some []
  | (VStr k, v) :: d => a ← parse v; l ← dict_of parse d; Some ((k, a) :: l)
  | _ => None
  end.
Definition dict {A} (parse : value → option A) (v : value) : option (list (string * A)) :=
  match v with VDict d => dict_of parse d | _ => None end.
Definition list_of {A} (parse : value → option A) (v : value) : option (list A) :=
  match v with VList l => mapM parse l | _ => None end.
Definition any (v : value) : option value := Some v.
Definition model {A} (parse : object → option A) (v : value) : option A :=
  match v with VDict d => parse d | _ => None end.

Section models.
(** pydantic's reading of a number and of a truth value. *)
Context (as_int : value → option Z) (as_bool : value → option bool).

Definition id_char (c : ascii) : bool := is_alpha c || is_digit c || Ascii.eqb c "_" || Ascii.eqb c "-".
Definition _ID_PATTERN (s : string) : bool := negb (s =? "") && all_chars id_char s.
Definition id_field : object → option string := required (pattern _ID_PATTERN (str 1 (Some 128%nat))) "id".

Record Certificate : Type := Cert { certificate : string; private_key : string }.
Definition parse_certificate (d : object) : option Certificate :=
  c ← required (str 0 None) "certificate" d; k ← required (str 0 None) "private_key" d; Some (Cert c k).

Record GreffonField : Type := Field { f_value : value; destinations : value }.
Definition parse_field (d : object) : option GreffonField :=
  v ← required any "value" d; ds ← required any "destinations" d; Some (Field v ds).

Definition MiB : nat := N.to_nat 1048576.
Definition GreffonPreflightRequest : object → option string := required (str 1 (Some MiB)) "compose_yaml".

Record GreffonStartRequest : Type := StartRequest {
  st_id : string;
  repository_url : option string;
  compose_yaml : option string;
  st_cert : Certificate;
  configurations : list GreffonField;
  ports : list (string * value);
  integrations : list (string * list (string * value));
  instance_l4_host : option string;
  instance_l4_port : option Z;
  instance_l4_proto : option string;
  st_tunnel_client_toml : option string;
}.
(** [not s] for an optional text. *)
Definition falsy (s : option string) : bool := match s with None | Some "" => true | _ => false end.
Definition _require_compose_source (r : GreffonStartRequest) : option GreffonStartRequest :=
  if bool_decide (compose_yaml r = None) && falsy (repository_url r) then None
  else if negb (bool_decide (compose_yaml r = None)) && negb (falsy (repository_url r)) then None
  else Some r.
Definition parse_start (d : object) : option GreffonStartRequest :=
  id ← id_field d;
  url ← optional (nullable (str 1 None)) None "repository_url" d;
  yaml ← optional (nullable (str 1 (Some MiB))) None "compose_yaml" d;
  cert ← required (model parse_certificate) "cert" d;
  confs ← optional (list_of (model parse_field)) [] "configurations" d;
  ports ← optional (dict any) [] "ports" d;
  ints ← optional (dict (dict any)) [] "integrations" d;
  host ← optional (nullable (str 0 None)) None "instance_l4_host" d;
  port ← optional (nullable as_int) None "instance_l4_port" d;
  proto ← optional (nullable (str 0 None)) None "instance_l4_proto" d;
  toml ← optional (nullable (str 0 None)) None "tunnel_client_toml" d;
  _require_compose_source (StartRequest id url yaml cert confs ports ints host port proto toml).

Record GreffonStopRequest : Type := StopRequest { sp_id : string; sp_tunnel_client_toml : option string }.
Definition parse_stop (d : object) : option GreffonStopRequest :=
  id ← id_field d; toml ← optional (nullable (str 0 None)) None "tunnel_client_toml" d; Some (StopRequest id toml).

Record BackupDestinationBlock : Type := Destination {
  repo : string; restic_password : string; aws_access_key_id : option string; aws_secret_access_key : option string }.
Definition _repo_must_be_s3 (v : string) : bool := startswith "s3:" v.
Definition parse_destination (d : object) : option BackupDestinationBlock :=
  r ← required (pattern _repo_must_be_s3 (str 1 (Some 512%nat))) "repo" d;
  p ← required (str 1 (Some 512%nat)) "restic_password" d;
  i ← optional (nullable (str 0 (Some 512%nat))) None "aws_access_key_id" d;
  k ← optional (nullable (str 0 (Some 512%nat))) None "aws_secret_access_key" d;
  Some (Destination r p i k).
Definition destination_field : object → option (option BackupDestinationBlock) :=
  optional (nullable (model parse_destination)) None "destination".
Definition classes_field (k : string) : object → option (option (list (string * string))) :=
  optional (nullable (dict (str 0 None))) None k.

Record GreffonBackupRequest : Type := BackupRequest {
  bk_id : string; backup_id : string; bk_destination : option BackupDestinationBlock;
  bk_volume_classes : option (list (string * string)) }.
Definition parse_backup (d : object) : option GreffonBackupRequest :=
  id ← id_field d; b ← required (str 1 (Some 64%nat)) "backup_id" d;
  dst ← destination_field d; vc ← classes_field "volume_classes" d;
  Some (BackupRequest id b dst vc).

Record GreffonRestoreRequest : Type := RestoreRequest {
  rs_id : string; rs_snapshot : string; restore_id : string; compose_digest : option string; allow_drift : bool;
  rs_destination : option BackupDestinationBlock; manifest : option (list (string * string));
  rs_volume_classes : option (list (string * string)) }.
Definition parse_restore (d : object) : option GreffonRestoreRequest :=
  id ← id_field d; s ← required (str 1 (Some 64%nat)) "restic_snapshot_id" d;
  r ← required (str 1 (Some 64%nat)) "restore_id" d;
  dig ← optional (nullable (str 0 None)) None "compose_digest" d;
  drift ← optional as_bool false "allow_drift" d;
  dst ← destination_field d; man ← classes_field "manifest" d; vc ← classes_field "volume_classes" d;
  Some (RestoreRequest id s r dig drift dst man vc).

(** A request without a body is one without fields. *)
Definition parse_repo_op : object → option (option BackupDestinationBlock) := destination_field.

Record GreffonForgetRequest : Type := ForgetRequest {
  fg_id : string; fg_snapshot : string; fg_destination : option BackupDestinationBlock }.
Definition parse_forget (d : object) : option GreffonForgetRequest :=
  id ← id_field d; s ← required (str 1 (Some 64%nat)) "restic_snapshot_id" d; dst ← destination_field d;
  Some (ForgetRequest id s dst).

Definition parse_decommission : object → option string := id_field.

Definition tag_start (c : ascii) : bool := is_alpha c || is_digit c || Ascii.eqb c "_".
Definition tag_char (c : ascii) : bool := tag_start c || Ascii.eqb c "." || Ascii.eqb c "-".
Definition tag_pattern (s : string) : bool :=
  match s with String c rest => tag_start c && all_chars tag_char rest && (String.length rest <=? 127)%nat | "" => false end.
Definition parse_remote_update : object → option string := required (pattern tag_pattern (str 0 None)) "target_tag".
Definition parse_tunnel_config : object → option string := required (str 1 None) "client_toml".

(** *** What is admitted *)
Inductive repo_op : Type := Prune | Check_.
Inductive request : Type :=
  | RPreflight (compose : string)
  | RStart (r : GreffonStartRequest) | RStop (r : GreffonStopRequest) | RBackup (r : GreffonBackupRequest)
  | RRestore (r : GreffonRestoreRequest) | RForget (r : GreffonForgetRequest)
  | RRepoOp (op : repo_op) (destination : option BackupDestinationBlock)
  | RDecommission (id : string) | RUpdate (target_tag : string) | RTunnelConfig (client_toml : string).

(** The endpoints with a body, each with its model. *)
Inductive endpoint : Type :=
  | PreflightE | StartE | StopE | BackupE | RestoreE | ForgetE | RepoOpE (op : repo_op) | DecommissionE | UpdateE | TunnelConfigE.
Definition parse (e : endpoint) (d : object) : option request :=
  match e with
  | PreflightE => RPreflight <$> GreffonPreflightRequest d
  | StartE => RStart <$> parse_start d
  | StopE => RStop <$> parse_stop d
  | BackupE => RBackup <$> parse_backup d
  | RestoreE => RRestore <$> parse_restore d
  | ForgetE => RForget <$> parse_forget d
  | RepoOpE op => RRepoOp op <$> parse_repo_op d
  | DecommissionE => RDecommission <$> parse_decommission d
  | UpdateE => RUpdate <$> parse_remote_update d
  | TunnelConfigE => RTunnelConfig <$> parse_tunnel_config d
  end.
(** The payload of [prune] and [check] has a default, for a request without a body. *)
Definition payload (e : endpoint) (body : value) : option request :=
  match e, body with
  | RepoOpE op, VNull => Some (RRepoOp op None)
  | _, _ => model (parse e) body
  end.
Definition instance_of (r : request) : option string :=
  match r with
  | RStart r => Some (st_id r) | RStop r => Some (sp_id r) | RBackup r => Some (bk_id r)
  | RRestore r => Some (rs_id r) | RForget r => Some (fg_id r) | RDecommission id => Some id
  | RPreflight _ | RRepoOp _ _ | RUpdate _ | RTunnelConfig _ => None
  end.
Definition destination_of (r : request) : option BackupDestinationBlock :=
  match r with
  | RBackup r => bk_destination r | RRestore r => rs_destination r | RForget r => fg_destination r
  | RRepoOp _ d => d | _ => None
  end.

(** The dependency of the router, then the payload, then the handler. *)
Definition handle {A} (provided : option string) (expected : string) (e : endpoint) (body : value)
    (handler : request → result refusal A) : result refusal A :=
  require_token provided expected;;
  match payload e body with
  | Some r => handler r
  | None => Raise RequestValidationError
  end.
End models.
End Requests.
Import Requests.

(** ** What is admitted stays in its place *)

(** The names of a path from the root, the last first: blanks and dots name nothing,
    two dots go up. *)
Fixpoint resolve (stack parts : list string) : list string :=
  match parts with
  | [] => stack
  | p :: parts =>
      resolve (if (p =? "") || (p =? ".") then stack else if p =? ".." then tail stack else p :: stack) parts
  end.
Definition location (path : string) : list string := resolve [] (split "/" path).

Lemma resolve_app stack a b : resolve stack (a ++ b) = resolve (resolve stack a) b.
Proof. revert stack. induction a as [|p a IH]; intros stack; [done|]. cbn. apply IH. Qed.

Lemma split_ne c s : split c s ≠ [].
Proof. destruct s as [|d s]; cbn; [done|]. destruct (Ascii.eqb d c); [done|]. by destruct (split c s). Qed.

Lemma split_join c a b : split c (a +:+ String c b) = (split c a ++ split c b)%list.
Proof.
  induction a as [|d a IH].
  { change ("" +:+ String c b) with (String c b). cbn [split]. by rewrite Ascii.eqb_refl. }
  change (String d a +:+ String c b) with (String d (a +:+ String c b)). cbn [split].
  destruct (Ascii.eqb d c); [by rewrite IH|]. rewrite IH.
  pose proof (split_ne c a). by destruct (split c a).
Qed.

Lemma split_whole c b : all_chars (λ d, negb (Ascii.eqb d c)) b = true → split c b = [b].
Proof.
  induction b as [|d b IH]; [done|]. cbn [all_chars split]. intros [Hd Hb]%andb_prop. destruct (Ascii.eqb d c); [done|]. by rewrite IH.
Qed.

(** A directory and a file name: the trailing slash of the directory adds nothing. *)
Lemma split_trailing c a b : all_chars (λ d, negb (Ascii.eqb d c)) b = true →
  split c (a +:+ String c "" +:+ b) = (split c a ++ [b])%list.
Proof. intros Hb. change (String c "" +:+ b) with (String c b). rewrite split_join. by rewrite (split_whole c b). Qed.

Lemma rev_app_append a t u : String.rev_app a (t +:+ u) = String.rev_app a t +:+ u.
Proof. revert t. induction a as [|c a IH]; intros t; [done|]. cbn [String.rev_app]. apply (IH (String c t)). Qed.

Lemma endswith_slash a : endswith "/" a = true → ∃ b, a = b +:+ "/".
Proof.
  unfold endswith. intros H. destruct (String.rev a) as [|c r] eqn:Hr; [done|].
  cbn [String.rev String.rev_app startswith] in H. apply andb_prop in H as [H _]. apply Ascii.eqb_eq in H as <-.
  exists (String.rev r). rewrite <-(rev_rev_str a), Hr. apply (rev_app_append r "" "/").
Qed.

Lemma id_char_plain c : id_char c = true → Ascii.eqb c "/" = false ∧ Ascii.eqb c "." = false.
Proof. destruct c as [[] [] [] [] [] [] [] []]; vm_compute; by try split. Qed.

Lemma id_plain id : _ID_PATTERN id = true →
  all_chars (λ d, negb (Ascii.eqb d "/")) id = true ∧ id ≠ "" ∧ id ≠ "." ∧ id ≠ ".." ∧ startswith "/" id = false.
Proof.
  unfold _ID_PATTERN. intros [Hn Hc]%andb_prop. split_and!; try (by intros ->).
  - eapply all_chars_impl, Hc. intros c Hid. by rewrite (proj1 (id_char_plain c Hid)).
  - destruct id as [|c id]; [done|]. cbn [all_chars] in Hc. apply andb_prop in Hc as [Hc _].
    apply id_char_plain in Hc as [Hc _]. cbn [startswith]. rewrite Ascii.eqb_sym, Hc. done.
Qed.

(** The directory of an admitted instance is one level below the root. *)
Lemma location_of_id root id : _ID_PATTERN id = true → location (path_join root id) = id :: location root.
Proof.
  intros (Hs & He & Hd & Hdd & Hb)%id_plain. unfold location, path_join. rewrite Hb.
  assert (∀ stack, resolve stack [id] = id :: stack) as Hid.
  { intros stack. cbn [resolve]. rewrite (proj2 (String.eqb_neq id "")), (proj2 (String.eqb_neq id ".")), (proj2 (String.eqb_neq id "..")) by done. done. }
  case_bool_decide as Hr; cbn [orb].
  - subst root. change ("" +:+ id) with id. rewrite split_whole by done. apply Hid.
  - destruct (endswith "/" root) eqn:Hend.
    + apply endswith_slash in Hend as [b ->]. rewrite append_assoc_str, split_trailing by done.
      change (b +:+ "/") with (b +:+ String "/" ""). rewrite split_join, !resolve_app, Hid. done.
    + rewrite split_trailing, resolve_app by done. apply Hid.
Qed.

Section admission.
Context (as_int : value → option Z) (as_bool : value → option bool).
Notation parse := (parse as_int as_bool).

Lemma str_within lo hi v s : str lo hi v = Some s → v = VStr s ∧ within lo hi s = true.
Proof. destruct v; try done. cbn. destruct (within lo hi s0) eqn:Hw; [|done]. by intros [= <-]. Qed.

Lemma required_pattern matches lo hi k d s :
  required (pattern matches (str lo hi)) k d = Some s → matches s = true ∧ within lo hi s = true.
Proof.
  unfold required, pattern. intros (v & _ & (s' & Hs & H)%bind_Some)%bind_Some.
  destruct (matches s') eqn:Hm; [|done]. injection H as ->. by apply str_within in Hs as [_ Hs].
Qed.

Lemma parse_id e d r id : parse e d = Some r → instance_of r = Some id → id_field d = Some id.
Proof.
  intros H Hi. destruct e; cbn in H; apply fmap_Some in H as (q & H & ->); cbn in Hi; try done; [..|by injection Hi as <-].
  all: unfold parse_start, parse_stop, parse_backup, parse_restore, parse_forget in H.
  all: apply bind_Some in H as (i & Hid & H); rewrite Hid; f_equal.
  all: repeat match type of H with _ ≫= _ = Some _ => apply bind_Some in H as (? & _ & H) end.
  1: { unfold _require_compose_source in H. destruct (_ && _); [done|]. destruct (_ && _); [done|]. injection H as <-. by injection Hi. }
  all: injection H as <-; by injection Hi.
Qed.

Lemma destination_field_s3 d b : destination_field d = Some (Some b) → startswith "s3:" (repo b) = true.
Proof.
  unfold destination_field, optional. destruct (dict_get "destination" d) as [v|]; [|done].
  unfold nullable. intros H. destruct v; try done.
  cbn [model] in H. apply fmap_Some in H as (b' & H & [= ->]). unfold parse_destination in H.
  apply bind_Some in H as (r & [Hr _]%required_pattern & H).
  repeat match type of H with _ ≫= _ = Some _ => apply bind_Some in H as (? & _ & H) end.
  by injection H as <-.
Qed.

Lemma parse_destination_s3 e d r b : parse e d = Some r → destination_of r = Some b → startswith "s3:" (repo b) = true.
Proof.
  intros H Hb. destruct e; cbn in H; apply fmap_Some in H as (q & H & ->); try done; cbn in Hb.
  4: { subst q. by apply destination_field_s3 in H. }
  all: unfold parse_backup, parse_restore, parse_forget in H.
  all: repeat match type of H with
    | destination_field _ ≫= _ = Some _ => let Hd := fresh "Hd" in apply bind_Some in H as (? & Hd & H)
    | _ ≫= _ = Some _ => apply bind_Some in H as (? & _ & H)
    end.
  all: injection H as <-; cbn in Hb; subst; by apply destination_field_s3 in Hd.
Qed.

(** Where the compose file of a start comes from. *)
Definition one_source (q : GreffonStartRequest) : Prop :=
  (∃ y, compose_yaml q = Some y ∧ (1 ≤ String.length y ≤ MiB)%nat ∧ repository_url q = None) ∨
  (compose_yaml q = None ∧ ∃ u, repository_url q = Some u ∧ u ≠ "").

Lemma nullable_str lo hi k d s :
  optional (nullable (str lo hi)) None k d = Some (Some s) → within lo hi s = true.
Proof.
  unfold optional. destruct (dict_get k d) as [v|]; [|done]. unfold nullable.
  destruct v; try done. intros (q & Hq & [= ->])%fmap_Some. by apply str_within in Hq as [_ Hq].
Qed.

Lemma parse_start_source d q : parse_start as_int d = Some q → one_source q.
Proof.
  unfold parse_start. intros H. apply bind_Some in H as (id & _ & H).
  apply bind_Some in H as (url & Hurl & H). apply bind_Some in H as (yaml & Hyaml & H).
  repeat match type of H with _ ≫= _ = Some _ => apply bind_Some in H as (? & _ & H) end.
  unfold _require_compose_source in H. cbn [compose_yaml repository_url] in H. unfold one_source.
  destruct yaml as [y|].
  - apply nullable_str, andb_prop in Hyaml as [H1%Nat.leb_le H2%Nat.leb_le].
    destruct url as [u|]; [|injection H as <-; left; by exists y].
    apply nullable_str in Hurl. destruct u as [|c u]; [by vm_compute in Hurl|done].
  - destruct url as [u|]; [|done]. apply nullable_str in Hurl. destruct u as [|c u]; [by vm_compute in Hurl|].
    injection H as <-. right. split; [done|]. by eexists.
Qed.
End admission.

(** A tag: it names no other image, path or option. *)
Definition good_tag (tag : string) : Prop :=
  (1 ≤ String.length tag ≤ 128)%nat ∧ startswith "-" tag = false ∧
  ∀ c, c ∈ list_ascii_of_string tag → is_alpha c = true ∨ is_digit c = true ∨ c ∈ ["_"; "."; "-"]%char.

Lemma tag_pattern_good s : tag_pattern s = true → good_tag s.
Proof.
  destruct s as [|c s]; [done|]. cbn [tag_pattern]. intros [[Hc Hs]%andb_prop Hl%Nat.leb_le]%andb_prop. split_and!.
  - cbn. lia.
  - cbn. lia.
  - destruct c as [[] [] [] [] [] [] [] []]; vm_compute in Hc |- *; done.
  - intros d Hd. assert (tag_char d = true) as Hok.
    { apply elem_of_cons in Hd as [->|Hd]; [unfold tag_char; by rewrite Hc|by eapply all_chars_elem]. }
    unfold tag_char, tag_start in Hok. rewrite !orb_true_iff, !Ascii.eqb_eq in Hok. set_solver.
Qed.

Lemma payload_parse as_int as_bool e body r : payload as_int as_bool e body = Some r →
  (∃ op, e = RepoOpE op ∧ body = VNull ∧ r = RRepoOp op None) ∨
  ∃ d, body = VDict d ∧ Requests.parse as_int as_bool e d = Some r.
Proof.
  unfold payload. intros H. destruct e, body; cbn [model] in H; try done; try (right; by eexists).
  left. injection H as <-. by eexists.
Qed.


(** C27: every response to an HTTP request carries exactly one request id, the one the
    request came with first when that is at most 128 letters, digits, dots, underscores
    and hyphens, a fresh one otherwise, and it holds no blank, control or line-breaking
    character; an exception of the application is answered by one 500 with the same id
    unless a response was already begun, when it goes on; a cancellation always goes on;
    and nothing else changes what the application sends. *)
Theorem responses_stamped hs uuid app ending_ :
  clean uuid →
  let '(sent, ending') := call (Http hs) uuid (app, ending_) in
  ∃ rid, clean rid ∧ (∀ s, incoming hs = Some s → acceptable s = true → rid = s) ∧
    ((∀ s, incoming hs = Some s → acceptable s = false) → rid = uuid) ∧ Forall (stamped rid) sent ∧
    ∃ extra, sent = ((send_with_header rid <$> app) ++ extra)%list ∧
      (extra = [] ∧ ending' = ending_ ∧ (ending_ = Raised → existsb is_start app = true) ∨
       ending_ = Raised ∧ ending' = Returned ∧ existsb is_start app = false ∧
         ∃ l body, extra = [Start 500 (Some l); Body body]).
Proof.
  intros Hu. destruct (call _ _ _) as [sent ending'] eqn:Hc. exists (request_id hs uuid).
  split; [by apply request_id_clean|]. split; [intros s Hs Ha; unfold request_id; by rewrite Hs, Ha|].
  split; [intros Hn; unfold request_id; destruct (incoming hs) as [s|]; [by rewrite Hn|done]|].
  unfold call in Hc. cbn [fst snd] in Hc.
  assert (Forall (stamped (request_id hs uuid)) (send_with_header (request_id hs uuid) <$> app)) as Hf
    by (apply Forall_fmap, Forall_true; intros m; apply send_stamped).
  destruct ending_; [| |]; [injection Hc as <- <-| |injection Hc as <- <-].
  1,3: split; [done|]; exists []; rewrite app_nil_r; by split; [|left; split_and!].
  destruct (existsb is_start app) eqn:Hs; injection Hc as <- <-.
  - split; [done|]. exists []. rewrite app_nil_r. by split; [|left; split_and!].
  - split; [apply Forall_app; split; [done|]; constructor; [|by repeat constructor]|].
    { apply (send_stamped _ (Start 500 (Some [("content-type", "application/json")]))). }
    eexists. split; [done|]. right. split_and!; try done. by eexists _, _.
Qed.

(** ** Where the compose file comes from *)
Module Source.

(** What the two parsers of YAML and the HTTP client answer. *)
Inductive parsed : Type :=
  | Parsed (v : value) | AliasForbiddenError (detail : string) | YAMLError (problem : string) | RecursionError (text : string)
  | ConstructorError (class : string).   (** no [YAMLError]: the [ValueError] of a date that is none, say *)
Inductive fetched : Type := Fetched (status_code : Z) (text : string) | RequestException (class : string).
Inductive error : Type := InlineComposeError (detail : string) | FetchFailed (status_code : Z) | OtherError (class : string).

Definition get_compose_file_from_repository (parse_compose_yaml : string → parsed) (get : option string → fetched)
    (safe_load : string → result error value) (inline url : option string) : result error value :=
  match inline with
  | Some (String _ _ as text) =>
      match parse_compose_yaml text with
      | Parsed v => Ok v
      | AliasForbiddenError detail => Raise (InlineComposeError detail)
      | YAMLError p | RecursionError p => Raise (InlineComposeError ("inline compose_yaml is not valid YAML (" +:+ p +:+ ")"))
      | ConstructorError c => Raise (OtherError c)
      end
  | _ =>
      match get url with
      | RequestException c => Raise (OtherError c)
      | Fetched code text => if (code =? 200)%Z then safe_load text else Raise (FetchFailed code)
      end
  end.

(** For an admitted start: inline text is only ever parsed without aliases, and its failures name the
    transport, but for what the constructors of the parser raise; otherwise a text that is a URL is
    fetched. *)
Lemma admitted_source parse get load q :
  one_source q →
  let r := get_compose_file_from_repository parse get load (compose_yaml q) (repository_url q) in
  (∃ text, compose_yaml q = Some text ∧
     ((∃ v, parse text = Parsed v ∧ r = Ok v) ∨ (∃ detail, r = Raise (InlineComposeError detail)) ∨
      ∃ c, parse text = ConstructorError c ∧ r = Raise (OtherError c))) ∨
  (∃ u, repository_url q = Some u ∧ u ≠ "" ∧
     r = match get (Some u) with
         | RequestException c => Raise (OtherError c)
         | Fetched code text => if (code =? 200)%Z then load text else Raise (FetchFailed code)
         end).
Proof.
  intros [(y & Hy & Hl & _)|(Hy & u & Hu & Hne)].
  - left. exists y. split; [done|]. rewrite Hy. destruct y as [|c y]; [cbn in Hl; lia|]. unfold get_compose_file_from_repository.
    destruct (parse (String c y)); [left|right; left..|right; right]; by eexists.
  - right. exists u. rewrite Hy, Hu. by split_and!.
Qed.
End Source.

(** ** Health *)
Module Health.
Import Watchdog.

Definition healthz (greffer_id : string) : string * string := (greffer_id, "ok").

(** The status code, and the id, status and reasons of the body; [None] is a probe that ran into
    the timeout. *)
Definition readyz (provided : option string) (expected greffer_id : string) (probe : option sight) :
    result refusal (Z * (string * string * list string)) :=
  require_token provided expected;;
  let r := probed probe in
  Ok (if fatal r then 503%Z else 200%Z, (greffer_id, Watchdog.status r, reasons r)).

(** 200 tells a node that serves from one that only a restart helps. *)
Lemma readyz_ok provided expected id probe code body :
  readyz provided expected id probe = Ok (code, body) → (code = 503%Z ↔ wedged (0%Z, probe)).
Proof.
  unfold readyz. destruct (require_token provided expected); [|done]. cbn. intros [= <- _].
  rewrite <-probed_wedged. destruct (fatal (probed probe)); split; done.
Qed.
End Health.

(** ** The life of the process *)
Module Lifespan.

Definition start_workers (cert_renewal watchdog : bool) : list string :=
  ["greffer-register"; "greffer-monitor"; "greffer-crl-sync"; "greffer-heartbeat"; "greffer-reregister"] ++
  (if cert_renewal then ["greffer-cert-renewal"] else []) ++ (if watchdog then ["greffer-watchdog"] else []).

(** How a cancelled task ended, and the warnings about those that failed. *)
Inductive task_end : Type := TaskReturned | TaskCancelled | TaskFailed.
Definition failed (t : string * task_end) : bool := match t.2 with TaskFailed => true | _ => false end.
Definition stop_workers (tasks : list (string * task_end)) : list string :=
  fst <$> filter failed tasks.

Inductive action : Type :=
  | Reconcile (raised : bool)
  | Spawn (names : list string)
  | Yield (raised : bool)        (** the application serves; whether the [yield] raises *)
  | StopWorkers (names : list string)
  | ShutdownStats | ShutdownRender.

(** [reconcile_fails]: [reconcile_on_boot] raises an [Exception]; [serving_fails]: the [yield]
    raises.  The second component is whether the context manager raises. *)
Definition lifespan (workers_enabled cert_renewal watchdog reconcile_fails serving_fails : bool) : list action * bool :=
  let tasks := start_workers cert_renewal watchdog in
  let body :=
    if negb workers_enabled then [Yield serving_fails]
    else [Reconcile reconcile_fails; Spawn tasks; Yield serving_fails; StopWorkers tasks] in
  ((body ++ [ShutdownStats; ShutdownRender])%list, serving_fails).

(** [create_app]: the token of the process; the token given is for tests. *)
Definition create_app_token (given operator : string) (file : Token.token_file) (minted : string) (writable : bool) : option string :=
  if negb (given =? "") then Some given
  else if negb (operator =? "") then Some operator
  else fst <$> Token.load_or_create_token file minted writable.

(** Every task whose death is fatal is started, the certificate renewal only when it is enabled, so
    a node that has just started is not wedged. *)
Lemma fatal_started n cert_renewal watchdog :
  n ∈ Watchdog.FATAL_WORKERS → (n ∈ start_workers cert_renewal watchdog ↔ (n = "greffer-cert-renewal" → cert_renewal = true)).
Proof.
  intros Hn. apply list_elem_of_In in Hn. unfold start_workers. rewrite !elem_of_app.
  destruct Hn as [<-|[<-|[<-|[<-|[<-|[]]]]]]; try (split; [done|intros _; left; set_solver]).
  split.
  - intros [H|[H|H]] _; [set_solver|by destruct cert_renewal; [|inversion H]|destruct watchdog; set_solver].
  - intros H. rewrite H by done. right. left. by left.
Qed.
End Lifespan.

(** ** Concrete requests *)
Module Demo.
Definition uuid : string := "0123456789abcdef0123456789abcdef".
Lemma uuid_clean : clean uuid.
Proof. apply acceptable_clean. reflexivity. Qed.

Definition answered : list message := [Start 200 (Some [("X-Request-Id", "old"); ("server", "x")]); Body "ok"].
Example echoed : call (Http [("X-Request-ID", "abc-1")]) uuid (answered, Returned) =
  ([Start 200 (Some [("server", "x"); ("x-request-id", "abc-1")]); Body "ok"], Returned).
Proof. reflexivity. Qed.
(** A line break in the id: the response carries a fresh one. *)
Example forged : request_id [("x-request-id", "a" +:+ String (ascii_of_N 10) "b")] uuid = uuid.
Proof. reflexivity. Qed.
Example crashed : (call (Http []) uuid ([], Raised)).2 = Returned ∧ length (call (Http []) uuid ([], Raised)).1 = 2%nat.
Proof. by split. Qed.

Definition cert : value := VDict [(VStr "certificate", VStr "c"); (VStr "private_key", VStr "k")].
Definition start_body (extra : list (value * value)) : value :=
  VDict ([(VStr "id", VStr "inst_1"); (VStr "cert", cert)] ++ extra)%list.
Definition ask (body : value) : result refusal string :=
  handle (λ v, match v with VInt z => Some z | _ => None end) (λ v, match v with VBool b => Some b | _ => None end)
    (Some "token") "token" StartE body (λ r, Ok (default "" (instance_of r))).
Example accepted : ask (start_body [(VStr "repository_url", VStr "https://r/")]) = Ok "inst_1".
Proof. reflexivity. Qed.
Example no_source : ask (start_body []) = Raise RequestValidationError.
Proof. reflexivity. Qed.
Example two_sources :
  ask (start_body [(VStr "repository_url", VStr "https://r/"); (VStr "compose_yaml", VStr "services: {}")]) = Raise RequestValidationError.
Proof. by vm_compute. Qed.
Example null_ports : ask (start_body [(VStr "repository_url", VStr "https://r/"); (VStr "ports", VNull)]) = Raise RequestValidationError.
Proof. reflexivity. Qed.
Example traversal : ask (VDict [(VStr "id", VStr "../etc")]) = Raise RequestValidationError.
Proof. reflexivity. Qed.
Example below_the_root : location (path_join "/data/./greffons/" "inst_1") = ["inst_1"; "greffons"; "data"].
Proof. reflexivity. Qed.
Example local_repo : parse_destination [(VStr "repo", VStr "local:/etc"); (VStr "restic_password", VStr "p")] = None.
Proof. reflexivity. Qed.
Example tag_ok : tag_pattern "0.3.6" = true ∧ tag_pattern ("0.3.6" +:+ String (ascii_of_N 10) "") = false.
Proof. by split. Qed.
Example fresh_node_ready :
  Health.readyz (Some "t") "t" "node" (Some (Watchdog.Sight true ((λ n, (n, false)) <$> Lifespan.start_workers true true) (Some false)))
  = Ok (200%Z, ("node", "degraded", ["registration_pending"])).
Proof. by vm_compute. Qed.
End Demo.

Lemma responses_stamped_witness :
  ∃ rid, clean rid ∧ rid = "abc-1" ∧
    Forall (stamped rid) (call (Http [("X-Request-ID", "abc-1")]) Demo.uuid (Demo.answered, Returned)).1.
Proof.
  destruct (responses_stamped [("X-Request-ID", "abc-1")] Demo.uuid Demo.answered Returned Demo.uuid_clean)
    as (rid & Hc & Hr & _ & Hf & _).
  exists rid. split; [exact Hc|]. split; [by apply (Hr "abc-1")|exact Hf].
Defined.
