(* ===== verification/RenewCommand.v ===== *)
(** [app/cli.py]'s [renew_certs]: what the exit code of the command tells the operator.
    The command ([_renew_certs]) posts to the server of its own node, which answers with
    [Control.Replies.renew_certs_endpoint] over [CertRenewal.renew_all] once the token
    and the errors of [Api] let it; the theorem is about the two processes together.

    [delivery] is what the exchange between them comes to: the server may have run the
    pass although the client saw no answer.  The texts that are printed are the
    constructors of [message]. *)
From Stdlib Require Import Ascii String.
From S2P Require Import Prelude PyValue Workers CertRenewal Control Api.
Import Text.
Local Open Scope string_scope.

(** ** The client *)
Definition _RENEW_TIMEOUT_SECONDS : Z := 1800.
Definition _EXIT_OUTCOME_UNKNOWN : Z := 3.

Record args : Type := Args { instance : option string; force : bool; timeout : Z }.
(** [if args.instance], and the instance when it holds. *)
Definition named (a : args) : option string := match instance a with Some "" | None => None | Some id => Some id end.

Record post : Type := Post { force_param : string; id_param : option string; token : string; post_timeout : Z }.

Inductive answer : Type :=
  | ReadTimeout
  | RequestException
  | Response (status_code : Z) (text : string) (json : option value).   (** [None]: [res.json()] raises *)

Inductive message : Type :=
  | ForceRequiresInstance | TimeoutNotPositive | NoToken
  | OutcomeUnknown | CannotReach
  | AlreadyRunning | NoRunningInstance | TokenRejected | RateLimited | NotRenewed
  | RenewalRefused (status_code : Z)
  | Complete (renewed skipped errors : value).
Inductive exit : Type := Exit (code : Z) (m : message) | Traceback (class : string).

(** Up to the request: the exit of a usage error, or what is posted. *)
Definition prepare (greffer_token : string) (file : Token.token_file) (a : args) : result exit post :=
  if force a && negb (is_some (named a)) then Raise (Exit 2 ForceRequiresInstance)
  else if (timeout a <=? 0)%Z then Raise (Exit 2 TimeoutNotPositive)
  else
    persisted ← (if negb (greffer_token =? "") then Ok (Some greffer_token)
                 else match Token.load_persisted_token file with
                      | Some t => Ok t
                      | None => Raise (Traceback "UnicodeDecodeError")
                      end);
    match persisted with
    | None => Raise (Exit 1 NoToken)
    | Some t => Ok (Post (if force a then "true" else "false") (named a) t (timeout a))
    end.

(** [body.get(k, 0)] *)
Definition get_or_0 (k : string) (d : list (value * value)) : value := default (VInt 0) (dict_get k d).

Definition conclude (ans : answer) : exit :=
  match ans with
  | ReadTimeout => Exit _EXIT_OUTCOME_UNKNOWN OutcomeUnknown
  | RequestException => Exit 1 CannotReach
  | Response code text json =>
      let said c s := (code =? c)%Z && contains s text in
      if said 409%Z "renewal_in_progress" then Exit 1 AlreadyRunning
      else if said 404%Z "instance_not_found" then Exit 1 NoRunningInstance
      else if said 502%Z "node_auth_lost" then Exit 1 TokenRejected
      else if said 429%Z "node_rate_limited" then Exit 1 RateLimited
      else if said 409%Z "instance_not_renewed" then Exit 1 NotRenewed
      else if negb (code =? 200)%Z then Exit 1 (RenewalRefused code)
      else match json with
           | Some (VDict d) =>
               let errors := get_or_0 "errors" d in
               Exit (if truthy errors then 1 else 0) (Complete (get_or_0 "renewed" d) (get_or_0 "skipped" d) errors)
           | Some _ => Traceback "AttributeError"
           | None => Traceback "JSONDecodeError"
           end
  end.

Definition _renew_certs (greffer_token : string) (file : Token.token_file) (send : post → answer) (a : args) : exit :=
  match prepare greffer_token file a with Ok p => conclude (send p) | Raise e => e end.

(** ** The server *)
Section server.
Context (E : CertRenewal.env) (cfg : CertRenewal.settings) (updating : bool) (node_token : string).
(** The text of a JSON body. *)
Context (render : value → string).

Definition json_response (code : Z) (body : value) : answer := Response code (render body) (Some body).
Definition error_response (e : Api.refusal) : answer :=
  match e with
  | Api.HTTPException code detail =>
      match Errors._http_exception_handler code detail with
      | Errors.Detail code detail => json_response code (VDict [(VStr "detail", VStr detail)])
      | _ => json_response code (VDict [])
      end
  | Api.RequestValidationError => json_response 400 (VDict [(VStr "message", VStr "Invalid Fields")])
  | Api.Uncaught _ => json_response 500 (VDict [(VStr "message", VStr "internal_error")])
  end.
Definition refusal_of (f : Control.failure) : Api.refusal :=
  match f with
  | Control.HTTPException code detail => Api.HTTPException code detail
  | Control.Exc _ => Api.Uncaught "renewal"
  end.
Definition respond (r : result Control.failure (Z * Z * Z * Z)) : answer :=
  match r with
  | Ok (errors, renewed, skipped, considered) =>
      json_response 200 (VDict [(VStr "errors", VInt errors); (VStr "renewed", VInt renewed);
                                (VStr "skipped", VInt skipped); (VStr "considered", VInt considered)])
  | Raise f => error_response (refusal_of f)
  end.

(** One request; the pass runs unless the endpoint refuses before it. *)
Definition serve (p : post) (s : CertRenewal.state) : answer * CertRenewal.state :=
  match require_token (Some (token p)) node_token with
  | Raise e => (error_response e, s)
  | Ok _ =>
      let force := force_param p =? "true" in
      if updating || (force && negb (is_some (id_param p)))
      then (respond (Replies.renew_certs_endpoint updating (id_param p) force (Raise OtherException)), s)
      else
        let '(pass, s') := renew_all E cfg (id_param p) force s in
        (respond (Replies.renew_certs_endpoint updating (id_param p) force pass), s')
  end.

(** ** Both *)
Inductive delivery : Type :=
  | Delivered               (** the answer arrives *)
  | NotSent                 (** the client fails before the server has the request *)
  | Lost                    (** the server runs it, the client sees another failure *)
  | TooLate (run : bool).   (** the client stops waiting; whether the server runs it *)

Definition exchange (d : delivery) (p : post) (s : CertRenewal.state) : answer * CertRenewal.state :=
  match d with
  | Delivered => serve p s
  | NotSent => (RequestException, s)
  | Lost => (RequestException, (serve p s).2)
  | TooLate run => (ReadTimeout, if run then (serve p s).2 else s)
  end.

Definition renew_command (greffer_token : string) (file : Token.token_file) (a : args) (d : delivery)
    (s : CertRenewal.state) : exit * CertRenewal.state :=
  match prepare greffer_token file a with
  | Raise e => (e, s)
  | Ok p => let '(ans, s') := exchange d p s in (conclude ans, s')
  end.
End server.

(** ** What a pass shows of a renewal it counts *)

(** In these events a certificate was minted, it was then seen served, and then reported. *)
Definition shown (id : string) (h : history) : Prop :=
  ∃ txt c serial t l1 l2 a, h = (l1 ++ EProbe id (Some serial, t) :: l2)%list ∧
    EMint id (Answer 200 txt (Some (Some c))) ∈ l2 ∧
    _same_serial (Some serial) (serial_number c) = true ∧ EReport id (Some serial) a ∈ l1.

Lemma shown_app id k h j : shown id h → shown id (k ++ h ++ j).
Proof.
  intros (txt & c & serial & t & l1 & l2 & a & -> & Hm & Hs & Hr).
  exists txt, c, serial, t, (k ++ l1)%list, (l2 ++ j)%list, a. split_and!; [by rewrite <-!app_assoc| |done|].
  - apply elem_of_app. by left.
  - apply elem_of_app. by right.
Qed.

Lemma attempt_shown id new r o : attempt_ok id new r → r = Ok o → o_status o = RENEWED → shown id new.
Proof.
  intros [[_ H]|(txt & c & l1 & l2 & -> & _ & _ & _ & H)] Hr Ho; [by destruct (H o)|].
  destruct (H o Hr Ho) as (serial & t & k1 & k2 & a & -> & _ & Hsame & _ & Hin).
  exists txt, c, serial, t, k1, (k2 ++ EMint id (Answer 200 txt (Some (Some c))) :: l2)%list, a.
  split_and!; [by rewrite <-app_assoc| |done|done]. apply elem_of_app. right. left.
Qed.

Section passes.
Context (E : CertRenewal.env) (cfg : CertRenewal.settings) (only : option string) (force : bool).

Lemma check_blind_emits t : emits (check_blind t) (λ new r, new = [] ∧ ∃ t', r = Ok t' ∧ t_selected t' = t_selected t).
Proof.
  apply emits_quiet. intros s. split; [done|]. split; [done|]. eexists. split; [done|]. by destruct (_ <=? _)%Z.
Qed.

Lemma check_blind_selected t (Q : history → result CertRenewal.exc tally → Prop) :
  (∀ t', t_selected t' = t_selected t → Q [] (Ok t')) → emits (check_blind t) Q.
Proof.
  intros HQ. eapply emits_mono; [apply check_blind_emits|]. intros new r (-> & t' & -> & Ht). by apply HQ.
Qed.

Definition counted (t : tally) (new : history) (r : result CertRenewal.exc tally) : Prop :=
  ∀ t', r = Ok t' → t_selected t' = Some RENEWED →
    t_selected t = Some RENEWED ∨ ∃ id, only = Some id ∧ shown id new.

Lemma visit_counted t instance : emits (visit E cfg only force t instance) (counted t).
Proof.
  destruct instance as [id st]. unfold visit. set (chosen := bool_decide (only = Some id)).
  destruct (_ || _); [apply emits_ret; intros t' [= <-]; by left|].
  apply emits_gets_bind. intros stopping. destruct stopping; [apply emits_ret; intros t' [= <-]; by left|].
  eapply (emits_bind _ _ (λ new r, ∃ r', r = Ok r' ∧ attempt_ok id new r')); [| |by intros new e (? & [=] & _)].
  { intros s. apply wp_attempt. eapply wp_mono; [apply renew_one_emits|]. cbv beta. naive_solver. }
  intros new r (r' & [= <-] & Hr). destruct r as [o|e].
  - apply check_blind_selected. intros t' Ht t'' [= <-] Hsel. rewrite Ht in Hsel. cbn in Hsel.
    destruct (bool_decide_reflect (only = Some id)) as [Ho|Ho]; [|by left]. cbn [app].
    injection Hsel as Hsel. right. exists id. split; [done|]. by eapply attempt_shown.
  - destruct e; try (apply emits_ret; intros t' [= <-]; cbn; intros Hsel; by left); cbn.
    all: try (apply emits_ret; intros t' [= <-]; cbn; destruct chosen; [done|by left]).
    all: eapply emits_bind; [apply note_emits| |by intros ?? [? _]].
    all: intros new' [] [_ ->]; apply check_blind_selected; intros t' Ht t'' [= <-] Hsel; rewrite Ht in Hsel; cbn in Hsel.
    all: destruct chosen; [done|by left].
Qed.

Lemma visits_counted l t : emits (foldS (visit E cfg only force) t l) (counted t).
Proof.
  revert t. induction l as [|x l IH]; intros t; cbn [foldS]; [apply emits_ret; intros t' [= <-]; by left|].
  eapply emits_bind; [apply visit_counted| |by intros new e _ t' [=]].
  intros new t1 H1. eapply emits_mono; [apply IH|]. intros new' r H2 t' Hr Hsel.
  destruct (H2 t' Hr Hsel) as [H|(id & Ho & Hs)].
  - destruct (H1 t1 eq_refl H) as [?|(id & Ho & Hs)]; [by left|]. right. exists id. split; [done|].
    rewrite <-(app_nil_r new). by apply shown_app.
  - right. exists id. split; [done|]. by apply (shown_app id []).
Qed.

Definition pass_counted (new : history) (r : result CertRenewal.exc pass_result) : Prop :=
  ∀ p, r = Ok p → selected p = Some RENEWED → ∃ id, only = Some id ∧ shown id new.

Lemma forget_emits ids : emits (forget_departed E ids) (λ new r, ∃ u, r = Ok u).
Proof.
  apply emits_modify_bind; [done|]. apply emits_modify_bind; [done|].
  eapply emits_mono; [apply save_emits|]. intros new r [-> _]. by eexists.
Qed.

Lemma pass_emits : emits (_renew_all_locked E cfg only force) pass_counted.
Proof.
  assert (pass_counted [] (Ok (to_result empty_tally))) as H0 by (by intros p [= <-]).
  apply emits_modify_bind; [done|]. apply emits_modify_bind; [done|].
  apply emits_gets_bind. intros [|]; [by apply emits_ret|].
  apply emits_gets_bind. intros all. apply emits_gets_bind. intros [|]; [by apply emits_ret|].
  destruct (match only with Some _ => _ | None => _ end); [by apply emits_throw|].
  eapply emits_bind; [apply visits_counted| |by intros new e _ p [=]].
  intros new t Ht. eapply emits_bind; [apply forget_emits| |by intros new' e [? [=]]].
  intros new' u _. destruct (t_unauthorized t); [by apply emits_throw|].
  destruct (t_capped t); [by apply emits_throw|]. apply emits_ret. intros p [= <-] Hsel.
  destruct (Ht t eq_refl Hsel) as [[=]|(id & Ho & Hs)]. exists id. split; [done|].
  rewrite <-(app_nil_r new). by apply (shown_app id ([] ++ new')%list).
Qed.

Lemma renew_all_shown s p s' id :
  renew_all E cfg only force s = (Ok p, s') → only = Some id → selected p = Some RENEWED →
  ∃ new, log s' = (new ++ log s)%list ∧ shown id new.
Proof.
  intros H Ho Hsel. assert (emits (renew_all E cfg only force) pass_counted) as He.
  { apply emits_gets_bind. intros [|]; [apply pass_emits|]. apply emits_throw. by intros q [=]. }
  specialize (He s). unfold wp in He. rewrite H in He. destruct He as (new & Hl & Hc).
  destruct (Hc p eq_refl Hsel) as (id' & Ho' & Hs). exists new. split; [done|]. congruence.
Qed.
End passes.

(** ** The exit code *)

Lemma conclude_zero ans m : conclude ans = Exit 0 m →
  ∃ text d, ans = Response 200 text (Some (VDict d)) ∧ truthy (get_or_0 "errors" d) = false.
Proof.
  destruct ans as [| |code text json]; [done..|]. unfold conclude.
  repeat match goal with |- (if ?b then Exit 1 _ else _) = _ → _ => destruct b eqn:?; [done|] end.
  destruct json as [[]|]; try done. destruct (truthy _) eqn:Ht; [done|]. intros _. exists text, d. split; [|done].
  f_equal. match goal with H : negb (_ =? _)%Z = false |- _ => by apply negb_false_iff, Z.eqb_eq in H end.
Qed.

Lemma prepare_ok greffer_token file a p : prepare greffer_token file a = Ok p →
  id_param p = named a ∧ (force_param p =? "true") = force a ∧ (force a = true → is_some (named a) = true).
Proof.
  unfold prepare. destruct (force a) eqn:Hf; cbn [andb]; [destruct (is_some (named a)) eqn:Hn; [|done]|]; cbn [negb].
  all: destruct (timeout a <=? 0)%Z; [done|].
  all: intros H; apply bindR_ok in H as (t & _ & H); destruct t as [t|]; [|done]; injection H as <-; by split_and!.
Qed.

Lemma prepare_exits greffer_token file a code m : prepare greffer_token file a = Raise (Exit code m) → code = 1%Z ∨ code = 2%Z.
Proof.
  unfold prepare. destruct (force a && _); [intros [= <- _]; by right|]. destruct (_ <=? _)%Z; [intros [= <- _]; by right|].
  intros H. apply bindR_raise in H as [H|([t|] & _ & H)]; [|done|injection H as <- _; by left].
  destruct (negb _); [done|]. by destruct (Token.load_persisted_token file).
Qed.

Lemma conclude_codes ans code m : conclude ans = Exit code m → code = 0%Z ∨ code = 1%Z ∨ (code = 3%Z ∧ ans = ReadTimeout).
Proof.
  destruct ans as [| |c text json]; [intros [= <- _]; auto|intros [= <- _]; auto|]. unfold conclude.
  repeat match goal with |- (if ?b then Exit 1 _ else _) = _ → _ => destruct b; [intros [= <- _]; auto|] end.
  destruct json as [[]|]; try done. destruct (truthy _); intros [= <- _]; auto.
Qed.

Section command.
Context (E : CertRenewal.env) (cfg : CertRenewal.settings) (updating : bool) (node_token : string) (render : value → string).

Lemma error_response_not_200 e code text json :
  error_response render e = Response code text json → (∀ c d, e = Api.HTTPException c d → c ≠ 200%Z) → code ≠ 200%Z.
Proof.
  destruct e as [c d| |]; cbn; [|by intros [= <- _ _]|by intros [= <- _ _]].
  unfold Errors._http_exception_handler. intros H Hc. destruct (Z.eqb_spec c 401) as [->|]; [by injection H as <- _ _|].
  injection H as <- _ _. by eapply Hc.
Qed.

Lemma endpoint_code updating' id f pass c d :
  Replies.renew_certs_endpoint updating' id f pass = Raise (Control.HTTPException c d) → c ≠ 200%Z.
Proof.
  unfold Replies.renew_certs_endpoint. destruct updating'; [by intros [= <- _]|].
  destruct (f && _); [by intros [= <- _]|]. destruct pass as [r|[]]; try (by intros [= <- _]).
  destruct (_ && _); [by intros [= <- _]|done].
Qed.

Lemma respond_200 r text json : respond render r = Response 200 text json →
  (∀ c d, r = Raise (Control.HTTPException c d) → c ≠ 200%Z) →
  ∃ e n k c, r = Ok (e, n, k, c) ∧
    json = Some (VDict [(VStr "errors", VInt e); (VStr "renewed", VInt n); (VStr "skipped", VInt k); (VStr "considered", VInt c)]).
Proof.
  destruct r as [[[[e n] k] c]|f]; cbn; [by intros [= _ <-]; eauto 10|].
  intros H Hc. exfalso. eapply error_response_not_200; [exact H| |done].
  intros c d Hf. destruct f; [|done]. injection Hf as <- <-. by eapply Hc.
Qed.

Lemma endpoint_ok updating' id f pass e n k c :
  Replies.renew_certs_endpoint updating' id f pass = Ok (e, n, k, c) →
  updating' = false ∧ ∃ r, pass = Ok r ∧ e = CertRenewal.errors r ∧ (is_Some id → selected r = Some RENEWED).
Proof.
  intros H. destruct (Replies.renew_reply_honest _ _ _ _ _ H) as (-> & _ & r & -> & Hsel). split; [done|].
  exists r. split_and!; try done. unfold Replies.renew_certs_endpoint in H. destruct (f && _); [done|].
  destruct (_ && _); [done|]. by injection H as <- _.
Qed.

Lemma serve_answers p s ans s' : serve E cfg updating node_token render p s = (ans, s') → ans ≠ ReadTimeout.
Proof.
  assert (∀ e, error_response render e ≠ ReadTimeout) as He.
  { intros [c d| |]; cbn; try done. unfold Errors._http_exception_handler. by destruct (_ =? _)%Z. }
  assert (∀ r, respond render r ≠ ReadTimeout) as Hr by (intros [[[[? ?] ?] ?]|f]; [done|apply He]).
  unfold serve. destruct (require_token _ _); [|by intros [= <- _]]. destruct (_ || _); [by intros [= <- _]|].
  destruct (renew_all _ _ _ _ s). by intros [= <- _].
Qed.

(** A 200 comes from a pass that ran to its end. *)
Lemma serve_200 p s text json s' :
  serve E cfg updating node_token render p s = (Response 200 text json, s') →
  token p = node_token ∧ updating = false ∧
  ∃ r, renew_all E cfg (id_param p) (force_param p =? "true") s = (Ok r, s') ∧
    (is_Some (id_param p) → selected r = Some RENEWED) ∧
    ∃ n k c, json = Some (VDict [(VStr "errors", VInt (CertRenewal.errors r)); (VStr "renewed", VInt n); (VStr "skipped", VInt k); (VStr "considered", VInt c)]).
Proof.
  unfold serve. destruct (require_token _ _) as [[]|e] eqn:Ht.
  2: { intros [= H _]. exfalso. eapply error_response_not_200; [exact H| |done].
       intros c d ->. by apply require_token_refusals, list_elem_of_In in Ht as [[= <- _]|[[=]|[[=]|[]]]]. }
  apply require_token_ok in Ht. injection Ht as Ht. set (f := force_param p =? "true").
  destruct (updating || _).
  - intros [= H _]. apply respond_200 in H as (e & n & k & c & H & _); [|intros ??; apply endpoint_code].
    by apply endpoint_ok in H as (_ & r & [=] & _).
  - destruct (renew_all _ _ _ _ s) as [pass s1] eqn:Hr. intros [= H ->].
    apply respond_200 in H as (e & n & k & c & H & ->); [|intros ??; apply endpoint_code].
    apply endpoint_ok in H as (-> & r & -> & -> & Hsel). split_and!; try done. exists r. split_and!; try done. eauto.
Qed.
End command.

(** C7: what an exit of [renew_certs] means, whatever becomes of the exchange.  0: the server of this
    node has the token and ran the pass without an error, and the instance that was named had a
    certificate minted, which its sidecar was then seen to serve, and which was reported; a forced run
    named one.  2: nothing was sent.  3: the command stopped waiting.  Nothing but 0, 1, 2 and 3. *)
Theorem renew_command_truthful E cfg updating node_token render greffer_token file a d s code m s' :
  renew_command E cfg updating node_token render greffer_token file a d s = (Exit code m, s') →
  (code = 0%Z →
     d = Delivered ∧ updating = false ∧ (force a = true → is_some (named a) = true) ∧
     ∃ r, renew_all E cfg (named a) (force a) s = (Ok r, s') ∧ CertRenewal.errors r = 0%Z ∧
       ∀ id, named a = Some id → ∃ new, log s' = (new ++ log s)%list ∧ shown id new) ∧
  (code = 2%Z → s' = s) ∧ (code = 3%Z → ∃ run, d = TooLate run) ∧ (0 ≤ code ≤ 3)%Z.
Proof.
  unfold renew_command. destruct (prepare greffer_token file a) as [p|e] eqn:Hp.
  2: { intros [= -> <-]. apply prepare_exits in Hp as [-> | ->]; by split_and!. }
  apply prepare_ok in Hp as (Hid & Hf & Hn). destruct (exchange _ _ _ _ _ d p s) as [ans s1] eqn:Hx. intros [= Hc ->].
  split_and!.
  - intros ->. apply conclude_zero in Hc as (text & body & -> & Herr).
    destruct d; try discriminate Hx. split; [done|]. cbn [exchange] in Hx.
    apply serve_200 in Hx as (_ & -> & r & Hr & Hsel & n & k & c & [= ->]). split_and!; try done.
    rewrite Hid, Hf in *. exists r. split_and!; [done| |].
    + cbn in Herr. by destruct (Z.eqb_spec (CertRenewal.errors r) 0).
    + intros id Hna. eapply renew_all_shown; [exact Hr|done|]. apply Hsel. by rewrite Hna.
  - intros ->. by apply conclude_codes in Hc as [[=]|[[=]|[[=] _]]].
  - intros ->. apply conclude_codes in Hc as [[=]|[[=]|[_ ->]]]. destruct d as [| | |run]; [|done..|by exists run].
    cbn [exchange] in Hx. by apply serve_answers in Hx.
  - apply conclude_codes in Hc. lia.
  - apply conclude_codes in Hc. lia.
Qed.

(** ** Concrete runs *)
Module Demo.
(** A node whose sidecar takes the new certificate on a restart. *)
Definition node := sample_env was_restarted issues 200.
Definition text_of (v : value) : string :=
  match v with VDict [(VStr "detail", VStr d)] => d | _ => "" end.
Definition run (manager : CertRenewal.env) (a : args) (d : delivery) :=
  renew_command manager sample_settings false "token" text_of "token" Token.NoFile a d fresh.
Definition one (id : string) : args := Args (Some id) true _RENEW_TIMEOUT_SECONDS.

Example renewed_now : (run node (one "i") Delivered).1 = Exit 0 (Complete (VInt 1) (VInt 0) (VInt 0)).
Proof. by vm_compute. Qed.
Example unknown_instance : (run node (one "j") Delivered).1 = Exit 1 NoRunningInstance.
Proof. by vm_compute. Qed.
(** The pass ran all the same. *)
Example timed_out : (run node (one "i") (TooLate true)).1 = Exit 3 OutcomeUnknown ∧ (run node (one "i") (TooLate true)).2 ≠ fresh.
Proof. by vm_compute. Qed.
Example whole_fleet_forced : (run node (Args None true 60) Delivered).1 = Exit 2 ForceRequiresInstance.
Proof. reflexivity. Qed.
Example not_answered : (run (sample_env was_restarted NoAnswer 200) (one "i") Delivered).1 = Exit 1 NotRenewed.
Proof. by vm_compute. Qed.
Example other_token :
  (renew_command node sample_settings false "token" text_of "old" Token.NoFile (one "i") Delivered fresh).1 = Exit 1 (RenewalRefused 401).
Proof. by vm_compute. Qed.
End Demo.

Lemma renew_command_truthful_witness :
  (Demo.run Demo.node (Demo.one "i") Delivered).1 = Exit 0 (Complete (VInt 1) (VInt 0) (VInt 0)) ∧
  ∃ new, log (Demo.run Demo.node (Demo.one "i") Delivered).2 = (new ++ log fresh)%list ∧ shown "i" new.
Proof.
  assert ((Demo.run Demo.node (Demo.one "i") Delivered).1 = Exit 0 (Complete (VInt 1) (VInt 0) (VInt 0))) as H
    by (by vm_compute).
  split; [exact H|].
  destruct (renew_command_truthful Demo.node sample_settings false "token" Demo.text_of "token" Token.NoFile
    (Demo.one "i") Delivered fresh 0 (Complete (VInt 1) (VInt 0) (VInt 0)) (Demo.run Demo.node (Demo.one "i") Delivered).2)
    as [H0 _].
  { by rewrite <-H, <-surjective_pairing. }
  destruct (H0 eq_refl) as (_ & _ & _ & r & _ & _ & Hs). by apply Hs.
Defined.
