(* ===== verification/HostOps.v ===== *)
(** Helpers over docker and the disk: [Snapshots] is
    [apps/utils/ops_migrations/operations.py], the backups a migration may take before
    it changes anything; [Exec] is [apps/utils/docker/exec_op.py], one command in a
    running container.  [Atomic] is the writing of a small file through a temporary one,
    of [cli/greffer_cli/env_file.py] and [app/token.py].

    The disk is the contents of its files by path; an operation is the list of its
    effects in order, so the disk after a crash is the one after a prefix of them. *)
From Stdlib Require Import Ascii String.
From stdpp Require Import sorting.
From S2P Require Import Prelude PyValue PyFloat.
Import Text.
Local Open Scope string_scope.

Module Snapshots.

Notation files := (gmap string string).

Inductive effect : Type :=
  | Create (path : string)                 (** and truncate *)
  | Append (path bytes : string)
  | Unlink (path : string)
  | Replace (source target : string).

Definition apply (fs : files) (e : effect) : files :=
  match e with
  | Create p => <[p := ""]> fs
  | Append p b => <[p := default "" (fs !! p) +:+ b]> fs
  | Unlink p => delete p fs
  | Replace p q => match fs !! p with Some b => <[q := b]> (delete p fs) | None => fs end
  end.
Definition after (effects : list effect) (fs : files) : files := foldl apply fs effects.

Definition BACKUPS_DIR : string := ".migration-backups".
Definition _backups_dir (data_root migration_id : string) : string := path_join (path_join data_root BACKUPS_DIR) migration_id.
Definition archive (volume migration_id data_root : string) : string :=
  path_join (_backups_dir data_root migration_id) (volume +:+ ".tar.gz").

Definition tar_command (volume : string) : list string :=
  ["docker"; "run"; "--rm"; "-v"; volume +:+ ":/vol:ro"; "alpine:3.20"; "sh"; "-c"; "cd /vol && tar czf - ."].

(** What running the command comes to: its output in pieces and its exit code, or it does not
    start. *)
Inductive run : Type := Ran (output : list string) (code : Z) | NotStarted.
Inductive exc : Type := RuntimeError | OSError.

(** [tmp] is the name [mkstemp] makes up. *)
Definition snapshot_volume (volume migration_id data_root tmp : string) (docker : list string → run) (fs : files) :
    list effect * result exc string :=
  let final := archive volume migration_id data_root in
  if bool_decide (is_Some (fs !! final)) then ([], Ok final)
  else
    match docker (tar_command volume) with
    | NotStarted => ([Create tmp], Raise OSError)
    | Ran output code =>
        let written := Create tmp :: (Append tmp <$> output) in
        if (code =? 0)%Z then ((written ++ [Replace tmp final])%list, Ok final)
        else ((written ++ [Unlink tmp])%list, Raise RuntimeError)
    end.

(** [os.path.basename] *)
Definition basename (path : string) : string := match rpartition "/" path with Some (_, name) => name | None => path end.

Definition snapshot_file (file_path migration_id data_root : string) (fs : files) : list effect * option string :=
  match fs !! file_path with
  | None => ([], None)
  | Some bytes =>
      let final := path_join (_backups_dir data_root migration_id) (basename file_path) in
      ([Create final; Append final bytes], Some final)
  end.

(** The names right below a directory. *)
Fixpoint strip (p s : string) : option string :=
  match p, s with
  | "", _ => Some s
  | String a p, String b s => if Ascii.eqb a b then strip p s else None
  | _, "" => None
  end.
Definition child (dir path : string) : option string :=
  match strip (dir +:+ "/") path with
  | Some name => if (name =? "") || has_char "/" name then None else Some name
  | None => None
  end.
Definition listdir (dir : string) (fs : files) : list string := omap (child dir) (elements (dom fs)).
Definition restore (migration_id data_root : string) (fs : files) : list string :=
  let path := _backups_dir data_root migration_id in
  merge_sort (λ a b, Is_true (String.leb a b)) (path_join path <$> listdir path fs).

(** *** Crashes *)
Lemma after_app a b fs : after (a ++ b) fs = after b (after a fs).
Proof. apply foldl_app. Qed.

(** An effect on one file. *)
Definition on (path : string) (e : effect) : Prop :=
  match e with Create p | Append p _ | Unlink p => p = path | Replace _ _ => False end.
Lemma after_on path effects fs p : Forall (on path) effects → p ≠ path → after effects fs !! p = fs !! p.
Proof.
  intros Hall Hp. revert fs. induction Hall as [|e effects He _ IH]; intros fs; [done|].
  cbn [after foldl]. change (foldl apply (apply fs e) effects) with (after effects (apply fs e)). rewrite IH.
  destruct e; cbn in *; subst; by rewrite ?lookup_insert_ne, ?lookup_delete_ne by done.
Qed.

Lemma concat_cons_str c l : String.concat "" (c :: l) = c +:+ String.concat "" l.
Proof. destruct l; [by cbn; rewrite app_nil_str|done]. Qed.

Lemma appends tmp output fs b :
  fs !! tmp = Some b → after (Append tmp <$> output) fs !! tmp = Some (b +:+ String.concat "" output).
Proof.
  revert fs b. induction output as [|c output IH]; intros fs b Hb; [cbn; by rewrite app_nil_str|].
  cbn [fmap list_fmap after foldl]. change (foldl apply (apply fs (Append tmp c)) (Append tmp <$> output))
    with (after (Append tmp <$> output) (apply fs (Append tmp c))).
  rewrite (IH _ (b +:+ c)) by (cbn; by rewrite Hb, lookup_insert_eq). by rewrite append_assoc_str, concat_cons_str.
Qed.

(** The effects up to the last, and the disk that a crash among them leaves. *)
Lemma take_snoc_cases {A} n (l : list A) x : take n (l ++ [x]) = take n l ∨ take n (l ++ [x]) = (l ++ [x])%list.
Proof.
  destruct (decide (n ≤ length l)%nat) as [Hn|Hn].
  - left. rewrite take_app_le by done. done.
  - right. apply take_ge. rewrite length_app. cbn. lia.
Qed.

Section crashes.
Context (volume migration_id data_root tmp : string) (docker : list string → run) (fs : files).
Notation final := (archive volume migration_id data_root).
Notation call := (snapshot_volume volume migration_id data_root tmp docker fs).
Definition written (output : list string) : list effect := Create tmp :: (Append tmp <$> output).

Lemma written_on output : Forall (on tmp) (written output).
Proof. constructor; [done|]. apply Forall_fmap, Forall_true. done. Qed.

Lemma crashed_on n output : Forall (on tmp) (take n (written output)).
Proof. apply Forall_take, written_on. Qed.

(** The last effect of a run that ends well. *)
Lemma archive_replaced output :
  after (written output ++ [Replace tmp final]) fs = <[final := String.concat "" output]> (delete tmp (after (written output) fs)).
Proof.
  rewrite after_app. cbn [after foldl apply]. unfold written. cbn [after foldl apply].
  change (foldl apply (<[tmp := ""]> fs) (Append tmp <$> output)) with (after (Append tmp <$> output) (<[tmp := ""]> fs)).
  by rewrite (appends tmp output _ "") by apply lookup_insert_eq.
Qed.
End crashes.

Lemma quiet tmp effects fs final : Forall (on tmp) effects → tmp ≠ final →
  (∀ n p, p ≠ tmp → p ≠ final → after (take n effects) fs !! p = fs !! p) ∧
  (∀ n b, after (take n effects) fs !! final = Some b → fs !! final = Some b).
Proof.
  intros Hall Hne. assert (∀ n p, p ≠ tmp → after (take n effects) fs !! p = fs !! p) as H
    by (intros n p Hp; by apply (after_on tmp); [apply Forall_take|]).
  split; [by auto|]. intros n b. by rewrite H.
Qed.

(** whenever a snapshot of a volume is interrupted, its archive is either the one that was there
    before or the whole output of a run that exited with 0, never a part of it; no other file but its
    temporary one is touched; it reports an archive only when that is on the disk, and leaves no
    temporary file behind when its command ran to an end. *)
Theorem snapshot_whole volume migration_id data_root tmp docker fs :
  let final := archive volume migration_id data_root in
  let '(effects, reply) := snapshot_volume volume migration_id data_root tmp docker fs in
  fs !! tmp = None → tmp ≠ final →
  (∀ n p, p ≠ tmp → p ≠ final → after (take n effects) fs !! p = fs !! p) ∧
  (∀ n b, after (take n effects) fs !! final = Some b →
     fs !! final = Some b ∨
     (fs !! final = None ∧ ∃ output, docker (tar_command volume) = Ran output 0 ∧ b = String.concat "" output)) ∧
  (∀ path, reply = Ok path → path = final ∧ is_Some (after effects fs !! final)) ∧
  ((∃ output code, docker (tar_command volume) = Ran output code) → after effects fs !! tmp = None).
Proof.
  cbv zeta. unfold snapshot_volume. set (final := archive _ _ _). change (Create tmp :: (Append tmp <$> ?o)) with (written tmp o).
  case_bool_decide as Hex.
  { intros Htmp Hne. destruct (quiet tmp [] fs final) as [H1 H2]; [done|done|].
    split_and!; [exact H1|intros k b H; left; by eapply H2|by intros path [= <-]|done]. }
  destruct (docker (tar_command volume)) as [output code|] eqn:Hd.
  2: { intros Htmp Hne. destruct (quiet tmp [Create tmp] fs final) as [H1 H2]; [by repeat constructor|done|].
       split_and!; [exact H1|intros k b H; left; by eapply H2|done|by intros (? & ? & ?)]. }
  destruct (Z.eqb_spec code 0) as [->|]; intros Htmp Hne.
  - pose proof (archive_replaced volume migration_id data_root tmp fs output) as Hrep. fold final in Hrep.
    assert (∀ n, take n (written tmp output ++ [Replace tmp final]) = take n (written tmp output) ∨
      after (take n (written tmp output ++ [Replace tmp final])) fs =
        <[final := String.concat "" output]> (delete tmp (after (written tmp output) fs))) as Hn.
    { intros n. destruct (take_snoc_cases n (written tmp output) (Replace tmp final)) as [->| ->]; [by left|right; apply archive_replaced]. }
    assert (∀ p, p ≠ tmp → after (written tmp output) fs !! p = fs !! p) as Hw by (intros p; apply after_on, written_on).
    split_and!.
    + intros n p Hp Hf. destruct (Hn n) as [->| ->]; [by apply (after_on tmp); [apply crashed_on|]|].
      by rewrite lookup_insert_ne, lookup_delete_ne, Hw by done.
    + intros n b Hb. destruct (Hn n) as [Ht|Ht]; rewrite Ht in Hb.
      * left. rewrite (after_on tmp) in Hb; [done|apply crashed_on|done].
      * rewrite lookup_insert_eq in Hb. injection Hb as <-. right. split; [by apply eq_None_not_Some|]. by exists output.
    + intros path [= <-]. split; [done|]. rewrite Hrep, lookup_insert_eq. by eexists.
    + intros _. by rewrite Hrep, lookup_insert_ne, lookup_delete_eq by done.
  - destruct (quiet tmp (written tmp output ++ [Unlink tmp]) fs final) as [H1 H2];
      [apply Forall_app; split; [apply written_on|by repeat constructor]|done|].
    split_and!; [exact H1|intros k b H; left; by eapply H2|done|].
    intros _. rewrite after_app. cbn. apply lookup_delete_eq.
Qed.

Example leftover :
  let fs := after (snapshot_volume "v" "0001" "/data" "/data/.migration-backups/0001/.snap-1.tar.gz" (λ _, NotStarted) ∅).1 ∅ in
  restore "0001" "/data" fs = ["/data/.migration-backups/0001/.snap-1.tar.gz"].
Proof. by vm_compute. Qed.

(** A second run after the migration changed the file replaces the backup by the changed file. *)
Example overwritten :
  let fs := <["/data/a" := "changed"]> (after (snapshot_file "/data/a" "0001" "/data" {["/data/a" := "old"]}).1 {["/data/a" := "old"]}) in
  fs !! "/data/.migration-backups/0001/a" = Some "old" ∧
  after (snapshot_file "/data/a" "0001" "/data" fs).1 fs !! "/data/.migration-backups/0001/a" = Some "changed".
Proof. by vm_compute. Qed.
Example backups_listed :
  let fs := after (snapshot_file "/data/b" "0001" "/data" {["/data/b" := "x"]}).1 {["/data/b" := "x"]} in
  restore "0001" "/data" (after (snapshot_volume "v" "0001" "/data" "/t" (λ _, Ran ["a"; "b"] 0) fs).1 fs)
  = ["/data/.migration-backups/0001/b"; "/data/.migration-backups/0001/v.tar.gz"].
Proof. by vm_compute. Qed.
End Snapshots.

Lemma snapshot_whole_witness :
  let fs : gmap string string := {["/x" := "y"]} in
  let effects := (Snapshots.snapshot_volume "v" "0001" "/data" "/t" (λ _, Snapshots.Ran ["a"; "b"] 0) fs).1 in
  Snapshots.after (take 2 effects) fs !! "/x" = Some "y" ∧
  is_Some (Snapshots.after effects fs !! Snapshots.archive "v" "0001" "/data").
Proof.
  intros fs effects.
  destruct (Snapshots.snapshot_whole "v" "0001" "/data" "/t" (λ _, Snapshots.Ran ["a"; "b"] 0) fs) as (H1 & _ & H2 & _);
    [by vm_compute|by vm_compute|].
  split; [etrans; [by apply (H1 2%nat "/x")|by vm_compute]|]. by apply (H2 _ eq_refl).
Defined.

(** ** Small files written whole *)
Module Atomic.
Import Snapshots.

(** The call that raises: making the temporary file, writing it (part of the text may be there),
    setting its mode, renaming it. *)
Inductive failing : Type := AtOpen | AtWrite (part : string) | AtChmod | AtReplace.

(** [EnvFile.write_atomic] and the token's [_atomic_write]; whether it returns. *)
Definition write_atomic (path tmp content : string) (fails : option failing) : list effect * bool :=
  match fails with
  | None => ([Create tmp; Append tmp content; Replace tmp path], true)
  | Some AtOpen => ([], false)
  | Some (AtWrite part) => ([Create tmp; Append tmp part; Unlink tmp], false)
  | Some (AtChmod | AtReplace) => ([Create tmp; Append tmp content; Unlink tmp], false)
  end.

(** Interrupted or failing anywhere, the file is what it was or all of the new text, which it is when
    the call returns; no other file changes, and none is left behind. *)
Lemma atomic_whole path tmp content fails fs :
  fs !! tmp = None → tmp ≠ path →
  let '(effects, returned) := write_atomic path tmp content fails in
  (∀ n p, p ≠ tmp → p ≠ path → after (take n effects) fs !! p = fs !! p) ∧
  (∀ n, after (take n effects) fs !! path = fs !! path ∨
        (returned = true ∧ after (take n effects) fs !! path = Some content)) ∧
  (returned = true → after effects fs !! path = Some content) ∧ after effects fs !! tmp = None.
Proof.
  intros Htmp Hne. assert (∀ text, Forall (on tmp) [Create tmp; Append tmp text; Unlink tmp]) as Hon by (by repeat constructor).
  assert (∀ effects, Forall (on tmp) effects → after effects fs !! tmp = None →
    (∀ n p, p ≠ tmp → p ≠ path → after (take n effects) fs !! p = fs !! p) ∧
    (∀ n, after (take n effects) fs !! path = fs !! path ∨ (false = true ∧ after (take n effects) fs !! path = Some content)) ∧
    (false = true → after effects fs !! path = Some content) ∧ after effects fs !! tmp = None) as Hq.
  { intros effects Hall Hend. destruct (quiet tmp effects fs path Hall Hne) as [H1 _]. split_and!; try done.
    intros n. left. apply (after_on tmp); [by apply Forall_take|done]. }
  destruct fails as [[]|]; cbn [write_atomic]; [by apply Hq|apply Hq; [done|apply lookup_delete_eq]..|].
  assert (after [Create tmp; Append tmp content; Replace tmp path] fs = <[path := content]> (delete tmp (<[tmp := content]> (<[tmp := ""]> fs)))) as Hall.
  { unfold after. cbn [foldl apply]. by rewrite !lookup_insert_eq. }
  assert (∀ n, (n < 3)%nat → Forall (on tmp) (take n [Create tmp; Append tmp content; Replace tmp path])) as Hpre
    by (intros [|[|[|n]]]; [by repeat constructor..|lia]).
  assert (∀ n, (n < 3)%nat ∨ take n [Create tmp; Append tmp content; Replace tmp path] = [Create tmp; Append tmp content; Replace tmp path]) as Hn
    by (intros [|[|[|n]]]; [left; lia..|by right; destruct n]).
  split_and!.
  - intros n p Hp Hpath. destruct (Hn n) as [Hlt| ->]; [by apply (after_on tmp); [apply Hpre|]|].
    by rewrite Hall, lookup_insert_ne, lookup_delete_ne, !lookup_insert_ne by done.
  - intros n. destruct (Hn n) as [Hlt| ->]; [left; by apply (after_on tmp); [apply Hpre|]|].
    right. by rewrite Hall, lookup_insert_eq.
  - intros _. by rewrite Hall, lookup_insert_eq.
  - by rewrite Hall, lookup_insert_ne, lookup_delete_eq by done.
Qed.
End Atomic.

(** ** A command in a container *)
Module Exec.

Record ExecResult : Type := Result { exit_code : Z; stdout : string; stderr : string }.
Definition ok (r : ExecResult) : bool := (exit_code r =? 0)%Z.

(** [argv] as Python's callers may pass it. *)
Inductive argv : Type := Text_ (s : string) | List_ (l : list string).
Inductive exc : Type := ExecError.

(** The three calls of the low-level API, each of which may raise: the id; the two streams, either
    missing, or nothing at all; the exit code, which may be missing. *)
Record docker : Type := Docker {
  exec_create : list string → option string;
  exec_start : string → option (option (option string * option string));
  exec_inspect : string → option (option Z);
}.

Definition exec_in_container (d : docker) (a : argv) : result exc ExecResult :=
  match a with
  | Text_ _ | List_ [] => Raise ExecError
  | List_ argv =>
      match exec_create d argv with
      | None => Raise ExecError
      | Some id =>
          match exec_start d id, exec_inspect d id with
          | Some output, Some code =>
              let '(out, err) := default (None, None) output in
              Ok (Result (default (-1)%Z code) (default "" out) (default "" err))
          | _, _ => Raise ExecError
          end
      end
  end.

(** Success is only what docker reported as an exit with 0 of a command given as words. *)
Lemma ok_is_zero d a r : exec_in_container d a = Ok r → ok r = true →
  ∃ l id, a = List_ l ∧ l ≠ [] ∧ exec_create d l = Some id ∧ exec_inspect d id = Some (Some 0%Z).
Proof.
  unfold exec_in_container. destruct a as [|[|w l]]; [done..|]. destruct (exec_create d (w :: l)) as [id|] eqn:Hc; [|done].
  destruct (exec_start d id) as [output|]; [|done]. destruct (exec_inspect d id) as [code|] eqn:Hi; [|done].
  destruct (default _ output) as [out err]. intros [= <-] Hok. exists (w :: l), id. split_and!; try done.
  apply Z.eqb_eq in Hok. cbn [exit_code] in Hok. destruct code as [c|]; cbn in Hok; [|done]. by subst.
Qed.
End Exec.
