(* ===== verification/Beats.v ===== *)
(** What the node and the manager say to each other: the heartbeat
    ([app/workers/heartbeat.py], [Heartbeat]) and the calls of a registration with
    what it leaves in the nginx container ([app/workers/register.py], [app/workers/crl.py]
    and [apps/utils/docker/base.py], [Certificate]).  When they happen is in [Workers]. *)
From Stdlib Require Import ZArith Lia Ascii String SpecFloat.
From S2P Require Import Prelude PyValue PyFloat Workers.
Local Open Scope string_scope.

(** ** The heartbeat *)
Module Heartbeat.
Import Monitor Vitals.
Local Open Scope Z_scope.

Definition hundred : float := of_Z 100.
(** [min(100.0, x)] and [max(0.0, x)]: the first unless the second is below, or above. *)
Definition min100 (x : float) : float := if gt (NFloat hundred) (NFloat x) then x else hundred.
Definition max0 (x : float) : float := if gt (NFloat x) (NFloat zero) then x else zero.

(** The percentage, from the sample of the beat before and this one. *)
Definition _host_cpu_pct (prev cur : option (Z * Z)) : result PyFloat.exc (option float) :=
  match prev, cur with
  | Some (total0, idle0), Some (total, idle) =>
      let delta_total := total - total0 in
      let delta_idle := idle - idle0 in
      if delta_total <=? 0 then Ok None
      else
        ratio ← true_div (delta_total - delta_idle) delta_total;
        Ok (Some (round1 (max0 (min100 (mul ratio hundred)))))
  | _, _ => Ok None
  end.

Record settings : Type := Settings { heartbeat_interval : Z; monitor_interval : Z; greffer_version : string }.

(** [app.state], and what one beat reads of the world; clocks are in milliseconds. *)
Record app : Type := App {
  boot_id : string; started_at : Z; cpu_sample : option (Z * Z);
  greffer_token : string; installed_cert_serial : value; status_map : option published }.
Record sight : Type := Sight {
  now : Z;
  now_wall : Z;
  collected : option (list (string * string));     (** [None]: [collect_status_map] raises *)
  disk_free : option Z;
  updating : bool;
  meminfo : option (list string);
  stat_line : option string }.

Record payload : Type := Payload {
  p_boot_id : string; p_seq : Z; captured : Z; interval : Z; version : string; uptime_s : Z;
  degraded : bool; reasons : list string; disk_free_bytes : option Z; instances : list (string * string);
  cert_serial : value; update_in_progress : bool;
  cpu_pct : option float; mem_used_bytes : option Z; mem_total_bytes : option Z }.

Definition with_sample (c : option (Z * Z)) (a : app) : app :=
  App (boot_id a) (started_at a) c (greffer_token a) (installed_cert_serial a) (status_map a).

(** [_one_heartbeat] up to its POST: the body and the token it carries. *)
Definition _one_heartbeat (cfg : settings) (n : Z) (w : sight) (a : app) :
    result PyFloat.exc (payload * string) * app :=
  let '(map, deg, why, at_time) :=
    _collect_or_reuse (status_map a) (now w) ((monitor_interval cfg + heartbeat_interval cfg) * 1000) (now_wall w) (collected w) in
  let mem := _read_meminfo (meminfo w) in
  let cur := _read_cpu_sample (stat_line w) in
  (pct ← _host_cpu_pct (cpu_sample a) cur;
   Ok (Payload (boot_id a) n at_time (heartbeat_interval cfg) (greffer_version cfg)
         (Z.quot (now w - started_at a) 1000) deg why (disk_free w) map (installed_cert_serial a) (updating w)
         pct (fst <$> mem) (snd <$> mem), greffer_token a),
   with_sample cur a).

(** *** The percentage is one *)
Definition pct_ok (x : float) : Prop :=
  isfinite x = true ∧ gt (NFloat zero) (NFloat x) = false ∧ gt (NFloat x) (NFloat hundred) = false.

Definition pct_okb (x : float) : bool :=
  isfinite x && negb (gt (NFloat zero) (NFloat x)) && negb (gt (NFloat x) (NFloat hundred)).
Lemma pct_ok_dec x : pct_okb x = true → pct_ok x.
Proof. unfold pct_okb. by intros [[? ?%negb_true_iff]%andb_prop ?%negb_true_iff]%andb_prop. Qed.

Lemma tenths_ok n : 0 ≤ n ≤ 1000 → pct_ok (of_decimal false n (-1)).
Proof.
  intros Hn. assert (forallb (λ k, pct_okb (of_decimal false (Z.of_nat k) (-1))) (List.seq 0 1001) = true) as H by (by vm_compute).
  apply pct_ok_dec. rewrite forallb_forall in H. specialize (H (Z.to_nat n)).
  rewrite Z2Nat.id in H by lia. apply H, in_seq. lia.
Qed.

(** What the two comparisons say of a finite float. *)
Lemma gt_finite s m e : gt (NFloat hundred) (NFloat (S754_finite s m e)) = true →
  gt (NFloat (S754_finite s m e)) (NFloat zero) = true → s = false ∧ (0 ≤ e → Zpos m * 2 ^ e < 100) ∧ (e < 0 → Zpos m < 100 * 2 ^ (- e)).
Proof.
  destruct s.
  - intros _. unfold gt, exact, zero. rewrite Z.ltb_lt. intros H. exfalso.
    assert (0 < 2 ^ (e - Z.min e 0)) by (apply Z.pow_pos_nonneg; lia). cbn [Z.mul] in H. nia.
  - unfold gt, exact. change hundred with (S754_finite false 7036874417766400 (-46)). cbv iota beta.
    rewrite !Z.ltb_lt. change 7036874417766400 with (100 * 2 ^ 46). intros H _. split; [done|].
    assert (∀ k, 0 ≤ k → 0 < 2 ^ k) as Hpos by (intros; by apply Z.pow_pos_nonneg). split; intros He.
    + replace (Z.min (-46) e) with (-46) in H by lia. replace (e - -46) with (e + 46) in H by lia.
      rewrite Z.pow_add_r in H by lia. change (-46 - -46) with 0 in H. nia.
    + destruct (Z.le_gt_cases (-46) e).
      * replace (Z.min (-46) e) with (-46) in H by lia. replace (e - -46) with (e + 46) in H by lia.
        replace (2 ^ 46) with (2 ^ (e + 46) * 2 ^ (- e)) in H by (rewrite <-Z.pow_add_r by lia; f_equal; lia).
        pose proof (Hpos (e + 46) ltac:(lia)). change (-46 - -46) with 0 in H. nia.
      * replace (Z.min (-46) e) with e in H by lia. rewrite Z.sub_diag in H.
        replace (2 ^ (- e)) with (2 ^ 46 * 2 ^ (-46 - e)) by (rewrite <-Z.pow_add_r by lia; f_equal; lia). lia.
Qed.

Lemma half_even_bound a b n : 0 ≤ a → 0 < b → a ≤ n * b → 0 ≤ half_even a b ≤ n.
Proof.
  intros Ha Hb Hn. unfold half_even. pose proof (Z.div_mod a b ltac:(lia)). pose proof (Z.mod_pos_bound a b Hb).
  assert (0 ≤ a / b) by (by apply Z.div_pos). assert (a / b ≤ n) by (apply Z.div_le_upper_bound; lia).
  assert (a mod b > 0 → a / b + 1 ≤ n) by nia.
  destruct (Z.compare_spec (2 * (a mod b)) b); [destruct (Z.even (a / b))| |]; lia.
Qed.

Lemma round1_ok x : pct_ok x → gt (NFloat hundred) (NFloat x) = true → gt (NFloat x) (NFloat zero) = true → pct_ok (round1 x).
Proof.
  intros Hx H1 H2. destruct x as [s| | |s m e]; [done..|]. destruct (gt_finite s m e H1 H2) as (-> & _ & Hm).
  unfold round1. destruct (Z.leb_spec 0 e); [done|]. apply tenths_ok.
  apply half_even_bound; [lia|by apply Z.pow_pos_nonneg; lia|]. specialize (Hm ltac:(lia)). lia.
Qed.

Lemma gt_asym x y : gt x y = true → gt y x = false.
Proof.
  unfold gt. destruct (exact x) as [[[a ea]|s]|], (exact y) as [[[b eb]|t]|]; try done.
  - rewrite Z.ltb_lt, Z.ltb_ge, (Z.min_comm eb ea). lia.
  - by destruct t.
  - by destruct s.
  - by destruct s, t.
Qed.

Lemma clamped_ok x : pct_ok (round1 (max0 (min100 x))).
Proof.
  assert (pct_ok zero) by (by apply pct_ok_dec).
  unfold max0. destruct (gt (NFloat (min100 x)) (NFloat zero)) eqn:H0; [|done].
  unfold min100 in *. destruct (gt (NFloat hundred) (NFloat x)) eqn:H1; [|by apply pct_ok_dec; vm_compute].
  apply round1_ok; [|done|done]. split_and!; [|by apply gt_asym..].
  destruct x as [| | |]; try done; destruct s; done.
Qed.

Lemma host_cpu_ok prev cur x : _host_cpu_pct prev cur = Ok (Some x) → pct_ok x.
Proof.
  unfold _host_cpu_pct. destruct prev as [[t0 i0]|], cur as [[t i]|]; try done.
  destruct (_ <=? 0); [done|]. intros H. apply bindR_ok in H as (q & _ & [= <-]). apply clamped_ok.
Qed.

(** C29: every beat that is sent is well formed whatever could be read: the CPU percentage is missing
    or a finite number from 0 to 100, the two memory figures come together or not at all and the used
    one is not negative, and a degraded beat names its reason and no instance; it carries the token and
    the certificate serial of the moment.  A beat is only not sent when the counters of the CPU cannot
    be divided, and the sample is kept for the next one all the same. *)
Theorem beats_well_formed cfg n w a :
  let '(r, a') := _one_heartbeat cfg n w a in
  a' = with_sample (_read_cpu_sample (stat_line w)) a ∧
  match r with
  | Ok (p, token) =>
      token = greffer_token a ∧ cert_serial p = installed_cert_serial a ∧
      (∀ x, cpu_pct p = Some x → pct_ok x) ∧
      (mem_used_bytes p = None ∧ mem_total_bytes p = None ∨
       ∃ used total, mem_used_bytes p = Some used ∧ mem_total_bytes p = Some total ∧ 0 ≤ used) ∧
      (degraded p = true → instances p = [] ∧ reasons p ≠ []) ∧ (degraded p = false → reasons p = [])
  | Raise e => e = OverflowError ∧ is_Some (cpu_sample a) ∧ is_Some (_read_cpu_sample (stat_line w))
  end.
Proof.
  unfold _one_heartbeat. destruct (_collect_or_reuse _ _ _ _ _) as [[[map deg] why] at_time] eqn:Hc.
  split; [done|]. destruct (_host_cpu_pct _ _) as [pct|e] eqn:Hp; cbn [mbind result_bind].
  2: { unfold _host_cpu_pct in Hp. destruct (cpu_sample a) as [[t0 i0]|], (_read_cpu_sample _) as [[t i]|]; try done.
       destruct (Z.leb_spec (t - t0) 0); [done|]. apply bindR_raise in Hp as [Hp|(? & _ & [=])].
       split; [|by split; eexists]. unfold true_div in Hp. destruct (t - t0) as [|p|p]; [lia| |lia].
       cbv zeta in Hp. destruct (isfinite _); [done|]. by injection Hp. }
  assert ((deg = true → map = [] ∧ why ≠ []) ∧ (deg = false → why = [])) as [Hd1 Hd2].
  { unfold _collect_or_reuse in Hc. by destruct (status_map a), (collected w); repeat (destruct (_ <? _));
      injection Hc as <- <- <- _. }
  split_and!; try done.
  - intros x. cbn. intros ->. by eapply host_cpu_ok.
  - cbn. destruct (_read_meminfo (meminfo w)) as [[used total]|] eqn:Hm; [|by left]. right. exists used, total.
    split_and!; [done..|]. by apply meminfo_bounds in Hm as [H _].
Qed.
End Heartbeat.

(** ** Registration *)
Module Certificate.
Import Registration.

(** A call to the manager: no answer, another exception of the client, or a status, the text and
    the parsed body. *)
Inductive exchange : Type :=
  | ConnectionError | Timeout | OtherFailure
  | Reply (status_code : Z) (text : string) (json : option value).

Record settings : Type := Settings {
  greffer_port : Z; greffer_protocol : string; s_version : string; greffer_remote_update_enabled : bool;
  greffer_mode : string; tunnel_client_config_path : string }.

(** The body of the registration; the mode only when the operator has set one. *)
Definition register_payload (cfg : settings) (address token : string) : list (string * value) :=
  [("address", VStr address); ("port", VStr (pretty (greffer_port cfg))); ("token", VStr token);
   ("protocol", VStr (greffer_protocol cfg)); ("version", VStr (s_version cfg));
   ("remote_update_enabled", VBool (greffer_remote_update_enabled cfg))] ++
  if greffer_mode cfg =? "" then [] else [("mode", VStr (greffer_mode cfg))].

(** The body in the log, at most [limit] characters of it. *)
Definition _safe_body (limit : nat) (text : option string) : string :=
  match text with
  | None => "<unreadable body>"
  | Some t => let t := Text.strip t in if (String.length t <=? limit)%nat then t else substring 0 limit t +:+ "…"
  end.

(** What [_post_register] and [_fetch_cert] hand to the loops of [Workers]. *)
Definition _post_register (e : exchange) : answer :=
  match e with
  | ConnectionError | Timeout => Unreachable
  | OtherFailure => Failed
  | Reply code _ _ => if (200 <=? code)%Z && (code <? 300)%Z then Accepted else Rejected code
  end.
Definition get (data : value) (k : string) : value := match data with VDict d => default VNull (dict_get k d) | _ => VNull end.
Definition _fetch_cert (e : exchange) : answer :=
  match e with
  | ConnectionError | Timeout => Unreachable
  | OtherFailure => Failed
  | Reply code _ json =>
      if (code =? 200)%Z then
        match json with
        | None => Failed
        | Some VNull => NoCertificate 200
        | Some data => Certificate (get data "serial_number")
        end
      else NoCertificate code
  end.

Inductive level : Type := Info | Warning.
Definition _log_cert_poll_status (status_code : Z) (first : bool) : level * string :=
  if (status_code =? 401)%Z then (Info, if first then "awaiting" else "still awaiting")
  else if (status_code =? 403)%Z then (Warning, "invalid_greffer_token")
  else (Warning, "unexpected").

(** *** The nginx container *)

(** The files below [/root], the file of the tunnel client, and the copies tried, newest first. *)
Record node : Type := Node { files : gmap string string; client_toml : option string; tried : list string }.
Inductive exc : Type := KeyError | TypeError | AttributeError | DockerError.
Notation N := (M node exc).

(** The files of a registration. *)
Notation own := ["pem.crt"; "cert.key"; "ca.pem"].

Section node.
(** Whether docker refuses the next copy, which may depend on those before. *)
Context (fails : list string → string → bool).

Definition copy_file_into_container (name : string) (content : value) : N () := λ s,
  match content with
  | VStr text =>
      if fails (tried s) name then (Raise DockerError, Node (files s) (client_toml s) (name :: tried s))
      else (Ok (), Node (<[name := text]> (files s)) (client_toml s) (name :: tried s))
  | _ => (Raise AttributeError, s)
  end.

(** [data[k]] *)
Definition item (data : value) (k : string) : result exc value :=
  match data with
  | VDict d => match dict_get k d with Some v => Ok v | None => Raise KeyError end
  | _ => Raise TypeError
  end.
Definition has (data : value) (k : string) : bool :=
  match data with VDict d => bool_decide (is_Some (dict_get k d)) | _ => false end.

Definition _install_cert (data : value) : N () :=
  c ← lift (item data "certificate");
  copy_file_into_container "pem.crt" c;;
  k ← lift (item data "private_key");
  copy_file_into_container "cert.key" k;;
  when (has data "issuing_ca") (ca ← lift (item data "issuing_ca"); copy_file_into_container "ca.pem" ca).

(** [written]: whether the write of the tunnel client's file succeeds; every exception ends here. *)
Definition _maybe_install_initial_tunnel_config (cfg : settings) (written : bool) (data : value) : N () :=
  match get data "tunnel_client_toml" with
  | VStr text =>
      if (tunnel_client_config_path cfg =? "") || negb written then mret ()
      else modify (λ s, Node (files s) (Some text) (tried s))
  | _ => mret ()
  end.

Definition _fetch_and_store_crl (e : exchange) : N () :=
  match e with
  | Reply code text _ =>
      if (code =? 200)%Z then catch (copy_file_into_container "revoked.crl" (VStr text)) (λ _, mret ()) else mret ()
  | _ => mret ()
  end.

(** From the certificate to [registered.set()]; the serial is what the heartbeat will report. *)
Definition complete (cfg : settings) (written : bool) (crl : exchange) (data : value) : N value :=
  _install_cert data;;
  _maybe_install_initial_tunnel_config cfg written data;;
  _fetch_and_store_crl crl;;
  mret (get data "serial_number").

(** [crl_sync_worker]: one fetch for every interval that has passed. *)
Fixpoint crl_sync_worker (ticks : list exchange) : N () :=
  match ticks with
  | [] => mret ()
  | e :: ticks => _fetch_and_store_crl e;; crl_sync_worker ticks
  end.

(** The copies go to names of their own. *)
Definition only (names : list string) (s s' : node) : Prop :=
  (∀ n, n ∉ names → files s' !! n = files s !! n) ∧ client_toml s' = client_toml s.

Lemma copy_wp name v s (Q : result exc () → node → Prop) :
  (∀ t, v = VStr t → fails (tried s) name = false → Q (Ok ()) (Node (<[name := t]> (files s)) (client_toml s) (name :: tried s))) →
  (∀ e s', files s' = files s → client_toml s' = client_toml s → Q (Raise e) s') →
  wp (copy_file_into_container name v) Q s.
Proof.
  intros H1 H2. unfold wp, copy_file_into_container. destruct v; try by apply H2.
  destruct (fails (tried s) name) eqn:Hf; [by apply H2|by apply H1].
Qed.

Definition installed (data : value) (s s' : node) : Prop :=
  ∃ c k, item data "certificate" = Ok (VStr c) ∧ item data "private_key" = Ok (VStr k) ∧
    files s' !! "pem.crt" = Some c ∧ files s' !! "cert.key" = Some k ∧
    (has data "issuing_ca" = true → ∃ ca, item data "issuing_ca" = Ok (VStr ca) ∧ files s' !! "ca.pem" = Some ca) ∧
    (has data "issuing_ca" = false → files s' !! "ca.pem" = files s !! "ca.pem").

Lemma only_self names s : only names s s.
Proof. by split. Qed.
Lemma only_same names s s1 s2 : only names s s1 → files s2 = files s1 → client_toml s2 = client_toml s1 → only names s s2.
Proof. intros [H1 H2] Hf Hc. split; [intros n Hn; rewrite Hf; by apply H1|congruence]. Qed.
Lemma only_copy names s s1 n t l : n ∈ names → only names s s1 → only names s (Node (<[n := t]> (files s1)) (client_toml s1) l).
Proof.
  intros Hn [H1 H2]. split; [|done]. intros m Hm. cbn. rewrite lookup_insert_ne; [by apply H1|by intros ->].
Qed.

(** After a failure the key is the old one, or both are the new ones. *)
Definition pair_kept (data : value) (s s' : node) : Prop :=
  files s' !! "cert.key" = files s !! "cert.key" ∨
  ∃ c k, item data "certificate" = Ok (VStr c) ∧ item data "private_key" = Ok (VStr k) ∧
    files s' !! "pem.crt" = Some c ∧ files s' !! "cert.key" = Some k.

Lemma install_wp data s :
  wp (_install_cert data) (λ r s', only own s s' ∧
    match r with Ok _ => installed data s s' | Raise _ => pair_kept data s s' end) s.
Proof.
  unfold _install_cert. apply wp_bind, wp_lift.
  destruct (item data "certificate") as [c|e] eqn:Hc; [|by split; [apply only_self|left]].
  apply wp_bind, copy_wp.
  2: { intros e s' H1 H2. split; [by eapply only_same; [apply only_self|..]|left; by rewrite H1]. }
  intros ct -> _. apply wp_bind, wp_lift. set (s1 := Node (<["pem.crt" := ct]> _) _ _).
  assert (only own s s1) as Ho1 by (apply only_copy; [set_solver|apply only_self]).
  assert (files s1 !! "cert.key" = files s !! "cert.key") as Hold by (cbn; by rewrite lookup_insert_ne by done).
  destruct (item data "private_key") as [k|e] eqn:Hk; [|by split; [|left]].
  apply wp_bind, copy_wp; [|intros e s' H1 H2; split; [by eapply only_same|left; by rewrite H1]].
  intros kt -> _. set (s2 := Node (<["cert.key" := kt]> _) _ _).
  assert (only own s s2) as Ho2 by (apply only_copy; [set_solver|done]).
  assert (files s2 !! "pem.crt" = Some ct ∧ files s2 !! "cert.key" = Some kt) as [Hp2 Hk2]
    by (cbn; by rewrite lookup_insert_ne, !lookup_insert_eq by done).
  destruct (has data "issuing_ca") eqn:Hh; cbn [when].
  - apply wp_bind, wp_lift. destruct (item data "issuing_ca") as [ca|e] eqn:Hca; [|by split; [|right; exists ct, kt]].
    apply copy_wp.
    + intros cat -> _. split; [apply only_copy; [set_solver|done]|]. exists ct, kt. cbn [files].
      rewrite !(lookup_insert_ne _ "ca.pem") by done. split_and!; try done; [intros _; exists cat; by rewrite lookup_insert_eq|by rewrite Hh].
    + intros e s' H1 H2. split; [by eapply only_same|right; exists ct, kt; by rewrite H1].
  - split; [done|]. exists ct, kt. split_and!; try done; [by rewrite Hh|]. intros _. cbn. by rewrite !lookup_insert_ne by done.
Qed.

Lemma toml_wp cfg written data s :
  wp (_maybe_install_initial_tunnel_config cfg written data) (λ r s', r = Ok () ∧ files s' = files s) s.
Proof. unfold _maybe_install_initial_tunnel_config. destruct (get data _); try done. by destruct (_ || _). Qed.

Lemma crl_wp e s :
  wp (_fetch_and_store_crl e) (λ r s', r = Ok () ∧ only ["revoked.crl"] s s' ∧
    (files s' !! "revoked.crl" = files s !! "revoked.crl" ∨ ∃ t j, e = Reply 200 t j ∧ files s' !! "revoked.crl" = Some t)) s.
Proof.
  assert (wp (mret () : N ()) (λ r s', r = Ok () ∧ only ["revoked.crl"] s s' ∧
    (files s' !! "revoked.crl" = files s !! "revoked.crl" ∨ ∃ t j, e = Reply 200 t j ∧ files s' !! "revoked.crl" = Some t)) s) as Hq
    by (split_and!; [done|apply only_self|by left]).
  unfold _fetch_and_store_crl. destruct e as [| | |code text j]; [done..|].
  destruct (Z.eqb_spec code 200) as [->|]; [|done].
  - apply wp_catch, copy_wp.
    + intros t [= <-] _. split; [done|]. split; [apply only_copy; [set_solver|apply only_self]|]. right. exists text, j.
      cbn. by rewrite lookup_insert_eq.
    + intros e s' H1 H2. apply wp_ret. split; [done|]. split; [by eapply only_same; [apply only_self|..]|]. left. by rewrite H1.
Qed.
End node.

(** C28: a registration that completes has put the certificate and the key of one answer of the manager
    into the nginx container, and its authority when the answer names one; the tunnel file and the
    revocation list cannot keep it from completing, and the list is the old one or the one just
    fetched.  One that fails has touched neither of those, and the key is still the old one unless
    both parts of the pair are new. *)
Theorem registration_installs fails cfg written crl data s :
  let '(r, s') := complete fails cfg written crl data s in
  (∀ n, n ∉ own → n ≠ "revoked.crl" → files s' !! n = files s !! n) ∧
  match r with
  | Ok serial =>
      serial = get data "serial_number" ∧ installed data s s' ∧
      (files s' !! "revoked.crl" = files s !! "revoked.crl" ∨
       ∃ t j, crl = Reply 200 t j ∧ files s' !! "revoked.crl" = Some t)
  | Raise _ =>
      client_toml s' = client_toml s ∧ files s' !! "revoked.crl" = files s !! "revoked.crl" ∧ pair_kept data s s'
  end.
Proof.
  destruct (complete fails cfg written crl data s) as [r s'] eqn:H. unfold complete, mbind, M_bind at 1 in H.
  pose proof (install_wp fails data s) as H1. unfold wp in H1.
  destruct (_install_cert fails data s) as [[[]|e] s1]; destruct H1 as [[Ho1 Hc1] H1].
  2: { injection H as <- <-. split; [intros n Hn _; by apply Ho1|]. split_and!; try done. apply Ho1. set_solver. }
  pose proof (toml_wp cfg written data s1) as H2. unfold wp in H2.
  unfold M_bind at 1 in H. destruct (_maybe_install_initial_tunnel_config cfg written data s1) as [r2 s2]. cbn [fst snd] in H2. destruct H2 as [-> Hf2].
  pose proof (crl_wp fails crl s2) as H3. unfold wp in H3. unfold M_bind in H.
  destruct (_fetch_and_store_crl fails crl s2) as [r3 s3]. cbn [fst snd] in H3. destruct H3 as (-> & [Ho3 _] & Hcrl). injection H as <- <-.
  assert (∀ n, n ≠ "revoked.crl" → files s3 !! n = files s1 !! n) as Hs by (intros n Hn; rewrite Ho3, Hf2; [done|set_solver]).
  split; [intros n Hn Hr; rewrite Hs, Ho1 by done; done|]. split; [done|]. split.
  - destruct H1 as (c & k & Hc & Hk & Hp & Hkey & Hca & Hno). exists c, k. rewrite !Hs by done. by split_and!.
  - rewrite Hf2, Ho1 in Hcrl by set_solver. done.
Qed.

(** The list of a node whose nginx takes every copy is the last one that was fetched. *)
Fixpoint last_crl (ticks : list exchange) (old : option string) : option string :=
  match ticks with
  | [] => old
  | e :: ticks => last_crl ticks (match e with Reply code text _ => if (code =? 200)%Z then Some text else old | _ => old end)
  end.
Lemma crl_kept ticks s :
  let '(r, s') := crl_sync_worker (λ _ _, false) ticks s in
  r = Ok () ∧ files s' !! "revoked.crl" = last_crl ticks (files s !! "revoked.crl").
Proof.
  revert s. induction ticks as [|e ticks IH]; intros s; [done|]. cbn [crl_sync_worker last_crl]. unfold mbind, M_bind at 1.
  destruct e as [| | |code text j]; try apply IH. cbn [_fetch_and_store_crl]. destruct (code =? 200)%Z; [|apply IH].
  unfold catch, copy_file_into_container.
  specialize (IH (Node (<["revoked.crl" := text]> (files s)) (client_toml s) ("revoked.crl" :: tried s))).
  cbn [files] in IH. by rewrite lookup_insert_eq in IH.
Qed.
End Certificate.

(** ** Concrete exchanges *)
Module Demo.
Import Certificate.
Definition data (more : list (value * value)) : value :=
  VDict ([(VStr "certificate", VStr "C2"); (VStr "private_key", VStr "K2"); (VStr "serial_number", VStr "02")] ++ more)%list.
Definition old : node := Node {["pem.crt" := "C1"; "cert.key" := "K1"; "revoked.crl" := "L1"]} None [].
Definition cfg : settings := Settings 8001 "https" "1.2" false "" "/run/client.toml".
Definition finish fails := complete fails cfg true (Reply 503 "" None) (data []).

Example done_ : (finish (λ _ _, false) old).1 = Ok (VStr "02") ∧ files (finish (λ _ _, false) old).2 !! "revoked.crl" = Some "L1".
Proof. by vm_compute. Qed.
(** Docker fails between the two archives: the new certificate stands against the old key. *)
Example torn_pair : let s' := (finish (λ _ name, name =? "cert.key") old).2 in
  files s' !! "pem.crt" = Some "C2" ∧ files s' !! "cert.key" = Some "K1".
Proof. by vm_compute. Qed.
Example null_body : _fetch_cert (Reply 200 "null" (Some VNull)) = Registration.NoCertificate 200.
Proof. reflexivity. Qed.
Example no_mode : length (register_payload cfg "10.0.0.1" "t") = 6%nat.
Proof. reflexivity. Qed.
Import Heartbeat.
Example busy_half : _host_cpu_pct (Some (1000, 800)%Z) (Some (1200, 900)%Z) = Ok (Some (of_Z 50)).
Proof. by vm_compute. Qed.
Example busy_tenth : _host_cpu_pct (Some (0, 0)%Z) (Some (3, 2)%Z) = Ok (parse "33.3").
Proof. by vm_compute. Qed.
Example counter_reset : _host_cpu_pct (Some (1000, 800)%Z) (Some (10, 5)%Z) = Ok None.
Proof. by vm_compute. Qed.
End Demo.
